(* ===== verification/_CoqProject ===== *)
-Q . S2P
Prelude.v
PktLine.v
Delta.v
Sha1.v
Sha256.v
GitPack.v
ObjectStore.v
ObjectGraph.v
PackBuilder.v
Json.v
GoStrings.v
Float64.v
Expr.v
Store.v
Cas.v
RefLog.v
StoreProps.v
Segment.v
SnapshotTree.v
GitRefs.v
ReceivePack.v
UploadPack.v
Cron.v
JobGraph.v
Workflow.v
Trigger.v
Matrix.v
WorkflowJson.v
CiStore.v
CiControl.v
CiProps.v
CiPlan.v
PlanProps.v
Accounts.v
Routing.v
Access.v
AccountsApi.v
AccessProps.v
AccountsProps.v
LoginProps.v
GateProps.v
CiRunner.v
RunnerProps.v
Extract.v
ExtractSpec.v
Merge.v
