(* ===== verification/Prelude.v ===== *)
(** * Kai server: a verification development (root file)

    Kai is a version-control server.  A _data plane_ (src/kailab) stores
    repositories as content-addressed objects with a log of reference updates
    and serves them to git clients over SSH; a _control plane_
    (src/kailab-control) holds users, organisations and repositories, lets
    requests through to the data plane, and runs continuous integration; a
    _semantic engine_ (src/kai-core) merges source files by their declarations.
    This library models the core of the three and proves it correct.  The
    definitions follow the Go code function by function and keep its names.

    ** How the files correspond to the code

    Shared: [Prelude] (this file; results, little state monads, slices, hex,
    list and number lemmas, the tactic [res_inv], the hint databases), and the
    parts of Go's standard library that the code uses: [Json] (encoding/json),
    [GoStrings] (package strings), [Float64] (float64, strconv), [Sha1], [Sha256].

    The data plane, kailab/sshserver:
    - [PktLine]: protocol.go, pkt-lines and the side-band writer;
    - [Delta]: delta.go, the delta encoder, and the decoder of gitpack_parse.go;
    - [GitPack]: writing packs (gitpack.go) and parsing them (gitpack_parse.go);
    - [ObjectStore]: object_store.go, the two object caches;
    - [ObjectGraph]: gitpack_parse.go, trees, commits and the walk over them;
    - [PackBuilder]: pack_builder.go, which objects a fetch sends;
    - [SnapshotTree]: snapshot_adapter.go, the git trees of a snapshot;
    - [GitRefs]: gitpack.go and ref_adapter.go, references as git sees them;
    - [ReceivePack]: receive_pack.go, pushes;
    - [UploadPack]: handler.go, fetches in protocol versions 1 and 2.

    The data plane, storage:
    - [Store]: store/sqlite.go and schema.sql, the tables of a repository as the
      record [DB] and each statement as a function of it;
    - [RefLog], [StoreProps]: what the sequence of statements guarantees;
    - [Segment]: pack/segment.go, packs of objects;
    - [Cas]: kai-core/cas/cas.go, canonical JSON and the identity of nodes.

    The control plane, continuous integration:
    - [Cron]: cron/cron.go;  [Expr]: workflow/expressions.go;
    - [Workflow], [JobGraph], [WorkflowJson]: workflow/parser.go;
    - [Trigger]: workflow/trigger.go;  [Matrix]: workflow/matrix.go;
    - [CiStore]: the tables of runs, jobs and locks of db/ci.go, with the
      statements that runners race for;
    - [CiControl]: the handlers of api/ci.go that work on them, [CiProps] their
      theorems;
    - [CiPlan]: the tables of workflows and steps, and the way from workflow
      files to queued jobs (api/ci.go, api/scheduler.go), [PlanProps] its theorems;
    - [CiRunner]: the tables of logs, secrets, variables, runners, caches and
      artifacts with their handlers, and the answer to a claim (db/ci.go,
      api/ci.go), [RunnerProps] its theorems.

    The control plane, accounts and access:
    - [Accounts]: model/models.go and db/db.go, the tables as the record [AccDB];
    - [Routing]: routing/picker.go, the choice of a shard;
    - [Access]: auth/auth.go, api/middleware.go, the table of api/routes.go,
      api/proxy.go and the verification of SSH keys in api/ssh_keys.go;
    - [AccountsApi]: the handlers of api/auth.go, orgs.go, repos.go, signups.go
      and ssh_keys.go, and [perform], a request behind the guards of its route;
    - [AccessProps], [AccountsProps], [LoginProps], [GateProps]: their theorems.

    The semantic engine:
    - [Extract]: kai-core/merge/types.go and extract.go, the units of a file,
      [ExtractSpec] their specification;
    - [Merge]: kai-core/merge/merge.go, the three-way merge.

    ** How the code is modelled

    A Go function that can fail returns [res]: a value, an error or a panic.
    Code that changes state is a function from the state to the state and a
    [res] ([stM]); a request that another request can interrupt is a list of
    statements ([CiStore], where claims race).  Machine integers are [Z] with
    their wrap-around written out ([u32], [i64] and the like) where it matters.
    Go maps are [gmap], or association lists where the order of insertion
    shows; the order in which Go ranges over a map is an argument of the model
    ([Ranging], [TreeRanging], [Env], [acc_scan]), so the theorems hold for
    every order.  The clock, random identifiers and tokens are arguments too.

    What is not under src/ is a class of operations with, where a theorem needs
    it, a class of laws: zlib ([Zlib], [ZlibLaws]), zstd ([Zstd], [ZstdLaws]),
    BLAKE3 ([Blake3]), tree-sitter ([Sitter]), the JWT library ([TokenService]),
    case mapping beyond ASCII ([Unicode]), what a database does with values of
    the column types ([Driver], [CiDriver], [AccDriver]).  Each such class has an
    instance in the examples, so the laws can hold.  Components meet at
    interfaces of the same kind: the pack builder is proved for every
    [ObjectStoreLaws], which both caches satisfy; the guards and gates for every
    [DirectoryOk], which the account tables satisfy; the JSON of workflows for
    every [JsonLaws], built up field by field.

    ** What the theorems show

    - Storage: the log of reference updates is a hash chain whose head commits
      to the history, the reference table follows the log, an update is an
      atomic compare-and-swap; built packs are ingested completely, and no
      upload can corrupt what is stored; equal identifiers are equal nodes.
    - The git wire: deltas, packs and thin packs round-trip; the walk collects
      exactly what a commit reaches; the cache refines a recency list; a fetch
      sends the objects listed under the wants that are not named as haves
      (what lies below a have is sent again), which completes a client that
      holds all below its haves; every session ends; a clone gets the
      repository, and a fetch after a push gets of the push what the links lead
      to through objects that are still found - all of it where all is found
      ([second_push_loses_first] is where not); the side-band writer loses and
      invents nothing.
    - Workflows: expressions evaluate to their denotation; a branch filter is
      the glob of its comment where a question mark meets no slash; matrices
      expand as specified; a cron expression agrees with standard cron where it
      uses neither a step behind a single value nor both day fields
      ([days_intersected], [value_step_ignored]); the stored JSON is read back.
    - Runs: the jobs of a run are those of the workflow, up to a name that
      Postgres refuses; a new run can start; a job is claimed once and by a
      runner that may run it, and its claim gives the secrets its repository
      may see; outputs reach the jobs that need them, and a poller gets a log
      once and in order, where statements do not overlap ([late_outputs],
      [overlapping_appends] are where they do); the pass that completes a run
      is specified, and so are the runs it leaves open for ever, against what
      the documentation promises ([blocked_forever]).
    - Access: the account tables stay intact under every sequence of requests;
      every route of an organisation asks for its role; memberships and
      repositories change only at the request of those who may; a magic link
      leads in, once; the proxy and the SSH gate are specified and agree but for
      guests.
    - Merge: the extraction finds exactly the declarations of the syntax tree
      (for Rust, well-formed units), and the merge implements the three-way
      merge on files; the merge of one unit is specified case by case
      ([mergeUnit_spec]), the theorem on files is stated with it.

    ** Fuel

    Loops that are not structural carry fuel.  Where the fuel is chosen by the
    model it is enough: the length of what is read ([applyDelta], [Fields],
    [parse_string], [read_request], [v2_loop] - each round consumes a byte), the
    number of objects plus one ([collect_fuel]), of jobs ([hasCycle],
    [order_loop]) or of entries ([lru_evict]), 64 rounds for a variable-length
    integer, the minutes of the 366 days to which [Next] limits its own search.
    The loops answer [Panic] when fuel runs out, and the theorems that a result
    is produced ([generate_loop_ok], [Next_loop_ok], [v2_loop_session],
    [order_loop_spec] and others) exclude it.  The evaluator of [Expr] need not
    end ([EvalExpr_never_ends]); its fuel is an argument, and [EvalExpr_denotes]
    says how much is enough for a well-formed expression.

    ** Not modelled

    - kailab/api: the HTTP handlers of the data plane; their statements are those
      of [Store] and [Segment], around them is decoding and formatting.
    - kailab/store/postgres.go: the Postgres twin of sqlite.go; likewise the
      functions of segment.go that begin with Pg.
    - kailab: repo (opening repositories and caching handles), blobstore (cloud
      storage), background (the enrichment worker calls the parsers), config,
      metrics, cmd, and the SSH transport and user authentication of sshserver.
    - kailab-control/internal/runner: executing steps in containers, Kubernetes
      jobs and processes; email, webhooks, notifications and telemetry:
      deliveries to other services; cmd; the environment variables of cfg.
    - In api and db of the control plane: handlers and queries that only list or
      show rows, beyond those of [CiRunner].
    - In workflow/parser.go the YAML library and the methods it calls back.
    - kai-core: parse (symbols and calls, whole functions of go-tree-sitter
      nodes), detect, diff, intent, modulematch, graph: the analyses behind
      descriptions of changes.
    - The web front end and the deployment files.

    Failures of a database connection are left out except where a theorem is
    about them; transactions are atomic.  Deleting a repository or organisation
    does not cascade to the tables of CI.

    ** Limits of the definitions

    - Postgres refuses text that is not UTF-8 or holds a zero byte: modelled for
      the names of jobs and steps and the content of logs ([storable]); other
      text columns are taken to accept what they are given.
    - encoding/json matches the names of fields without regard to case; [field]
      matches them exactly.
    - A snapshot's maps are ranged over in one order per session ([TreeRanging]);
      Go may choose another each time.  [advertised_refs_spec] and [clone] are
      about a session that keeps its order.
    - A slice is taken to have no room behind its end ([go_slice]): a bound
      beyond the length panics, where Go asks for the capacity.
    - The digests of an ingested header are taken to be base64 text without line
      breaks ([digest_head]): with them the decoded slice has more room, and the
      code reports an error where the model panics.
    - [mergeUnit] and [render] stand in the specification of [MergeFiles]
      ([units_outcome]): it says which units meet which, not what is made of them.
    - [may_use] is the access that [ProxyHandler_spec] shows the proxy to
      enforce; the agreement of the SSH gate is stated against it. *)

From stdpp Require Export numbers pretty base gmap strings sorting list.
From Stdlib Require Strings.Byte.

(** ** The outcome of a Go call

    A Go function with an [error] result returns a value ([Ok]) or an error
    ([Err]); an out-of-range index or slice expression, or an oversized
    [make], raises a run-time panic ([Panic]).  Loops that are not structural
    in the model carry fuel, chosen from the size of what they read; a loop that
    runs out of it answers [Panic], so a theorem that excludes panics shows that
    the fuel is enough. *)
Inductive res (E A : Type) : Type :=
| Ok (a : A)
| Err (e : E)
| Panic.
Arguments Ok {E A} a.
Arguments Err {E A} e.
Arguments Panic {E A}.

#[export] Instance res_ret {E} : MRet (res E) := λ A a, Ok a.
#[export] Instance res_bind {E} : MBind (res E) := λ A B f m,
  match m with Ok a => f a | Err e => Err e | Panic => Panic end.
#[export] Instance res_fmap {E} : FMap (res E) := λ A B f m,
  match m with Ok a => Ok (f a) | Err e => Err e | Panic => Panic end.

Definition is_ok {E A} (r : res E A) : bool :=
  match r with Ok _ => true | _ => false end.

(** A Go expression that may only panic, used in any error type. *)
Definition or_panic {E A} (o : option A) : res E A :=
  match o with Some a => Ok a | None => Panic end.

(** [if bad { return err }] *)
Definition guard_err {E} (bad : bool) (e : E) : res E unit :=
  if bad then Err e else Ok ().

(** A call that relabels the error of a callee ([fmt.Errorf("...: %w", err)]). *)
Definition map_err {E F A} (f : E → F) (r : res E A) : res F A :=
  match r with Ok a => Ok a | Err e => Err (f e) | Panic => Panic end.

Lemma bind_ok_inv {E A B} (m : res E A) (f : A → res E B) b :
  m ≫= f = Ok b → ∃ a, m = Ok a ∧ f a = Ok b.
Proof. destruct m; simpl; [eauto|done|done]. Qed.

Lemma guard_err_ok_inv {E} bad (e : E) u : guard_err bad e = Ok u → bad = false.
Proof. by destruct bad. Qed.

Lemma or_panic_ok_inv {E A} (o : option A) a :
  @or_panic E A o = Ok a → o = Some a.
Proof. destruct o; simpl; congruence. Qed.

Lemma map_err_ok_inv {E F A} (f : E → F) (r : res E A) a :
  map_err f r = Ok a → r = Ok a.
Proof. destruct r; simpl; congruence. Qed.

(** [res_inv] takes apart every hypothesis that says a computation
    succeeded. *)
Ltac res_inv1 :=
  match goal with
  | H : _ ≫= _ = Ok _ |- _ => apply bind_ok_inv in H; destruct H as (? & ? & H)
  | H : guard_err _ _ = Ok _ |- _ => apply guard_err_ok_inv in H
  | H : or_panic _ = Ok _ |- _ => apply or_panic_ok_inv in H
  | H : map_err _ _ = Ok _ |- _ => apply map_err_ok_inv in H
  | H : Ok _ = Ok _ |- _ => injection H as H
  | H : mret _ = Ok _ |- _ => injection H as H
  | H : Err _ = Ok _ |- _ => discriminate H
  | H : Panic = Ok _ |- _ => discriminate H
  end.
Ltac res_inv := repeat res_inv1; subst.

(** Reduce the monad without unfolding the code. *)
Ltac res_simpl :=
  cbn [mbind res_bind mret res_ret fmap res_fmap map_err guard_err or_panic].

(** Boolean tests of the code become propositions. *)
Ltac bool_to_prop :=
  repeat match goal with
  | H : andb _ _ = true |- _ => apply andb_prop in H; destruct H
  | H : orb _ _ = false |- _ => apply orb_false_elim in H; destruct H
  | H : negb _ = true |- _ => apply negb_true_iff in H
  | H : negb _ = false |- _ => apply negb_false_iff in H
  | H : bool_decide _ = true |- _ => apply bool_decide_eq_true in H
  | H : bool_decide _ = false |- _ => apply bool_decide_eq_false in H
  | H : (_ <? _)%Z = true |- _ => apply Z.ltb_lt in H
  | H : (_ <? _)%Z = false |- _ => apply Z.ltb_ge in H
  | H : (_ <=? _)%Z = true |- _ => apply Z.leb_le in H
  | H : (_ <=? _)%Z = false |- _ => apply Z.leb_gt in H
  | H : (_ =? _)%Z = true |- _ => apply Z.eqb_eq in H
  | H : (_ =? _)%Z = false |- _ => apply Z.eqb_neq in H
  | H : (_ <? _)%nat = true |- _ => apply Nat.ltb_lt in H
  | H : (_ <? _)%nat = false |- _ => apply Nat.ltb_ge in H
  | H : (_ <=? _)%nat = true |- _ => apply Nat.leb_le in H
  | H : (_ <=? _)%nat = false |- _ => apply Nat.leb_gt in H
  | H : (_ =? _)%nat = true |- _ => apply Nat.eqb_eq in H
  | H : (_ =? _)%nat = false |- _ => apply Nat.eqb_neq in H
  end.

(** [lia] with quotients and remainders by constants. *)
Ltac lia_div := Z.to_euclidean_division_equations; lia.

(** ** Machine integers *)

(** Go's [int] and [int64] on the 64-bit targets the server is built for. *)
Definition i64 (z : Z) : Z := ((z + 2^63) `mod` 2^64 - 2^63)%Z.
(** [uint32(x)] *)
Definition u32 (z : Z) : Z := (z `mod` 2^32)%Z.

Lemma i64_small z : (- 2^63 ≤ z < 2^63)%Z → i64 z = z.
Proof. intros. unfold i64. rewrite Z.mod_small; lia. Qed.

Lemma i64_range z : (- 2^63 ≤ i64 z < 2^63)%Z.
Proof. unfold i64. pose proof (Z.mod_pos_bound (z + 2^63) (2^64)). lia. Qed.

Lemma u32_small z : (0 ≤ z < 2^32)%Z → u32 z = z.
Proof. intros. unfold u32. by rewrite Z.mod_small. Qed.


Lemma land_shiftl_disjoint a b n :
  (0 ≤ n)%Z → (0 ≤ a < 2^n)%Z → Z.land a (Z.shiftl b n) = 0%Z.
Proof.
  intros Hn Ha. apply Z.bits_inj'. intros i Hi.
  rewrite Z.land_spec, Z.bits_0, Z.shiftl_spec by lia.
  destruct (decide (i < n)%Z).
  - rewrite (Z.testbit_neg_r b) by lia. apply andb_false_r.
  - rewrite <-(Z.mod_small a (2^n)) by lia.
    rewrite Z.mod_pow2_bits_high by lia. done.
Qed.

Lemma lor_shiftl_add a b n :
  (0 ≤ n)%Z → (0 ≤ a < 2^n)%Z → Z.lor a (Z.shiftl b n) = (a + b * 2^n)%Z.
Proof.
  intros Hn Ha. rewrite <-Z.shiftl_mul_pow2 by done.
  rewrite <-Z.lxor_lor by (by apply land_shiftl_disjoint).
  rewrite <-Z.add_nocarry_lxor; [done|by apply land_shiftl_disjoint].
Qed.

(** [x & 0xff..] is a remainder and [x >> n] a quotient. *)
Lemma land_mask x n : (0 ≤ n)%Z → Z.land x (2^n - 1) = (x `mod` 2^n)%Z.
Proof. intros. rewrite <-Z.land_ones, Z.ones_equiv by done. done. Qed.

Lemma shiftr_div x n : (0 ≤ n)%Z → Z.shiftr x n = (x `div` 2^n)%Z.
Proof. apply Z.shiftr_div_pow2. Qed.

(** The continuation bit of variable-length integers. *)
Lemma cont_bit c :
  (0 ≤ c < 128)%Z →
  Z.lor c 0x80 = (c + 128)%Z ∧ Z.land (c + 128) 0x7f = c ∧ Z.land c 0x7f = c ∧
  (Z.land (c + 128) 0x80 =? 0)%Z = false ∧ (Z.land c 0x80 =? 0)%Z = true.
Proof.
  intros Hc. change 0x7f%Z with (2^7 - 1)%Z. rewrite !land_mask by lia.
  split; [apply (lor_shiftl_add c 1 7); lia|]. split; [lia_div|]. split; [lia_div|].
  split.
  - apply Z.eqb_neq. intros H0. apply (f_equal (λ z, Z.testbit z 7)) in H0.
    rewrite Z.land_spec, Z.bits_0, Z.testbit_eqb in H0 by lia.
    rewrite andb_true_r in H0. bool_to_prop. lia_div.
  - apply Z.eqb_eq. apply (land_shiftl_disjoint c 1 7); lia.
Qed.

(** ** Bytes

    A [[]byte] is a list of [byte]; a Go [string] is a Coq [string], a list of
    8-bit characters.  The two conversions are mutually inverse. *)
Abbreviation byte := Byte.byte.
Abbreviation bytes := (list Byte.byte).

#[export] Instance byte_eq_dec : EqDecision byte := Byte.byte_eq_dec.

(** [int(b)] *)
Definition int_of_byte (b : byte) : Z := Z.of_N (Byte.to_N b).
(** [byte(z)]: the low eight bits *)
Definition byte_of_int (z : Z) : byte :=
  default Byte.x00 (Byte.of_N (Z.to_N (z `mod` 256))).

(** [[]byte(s)] and [string(b)] *)
Definition bytes_of (s : string) : bytes := String.list_byte_of_string s.
Definition string_of (b : bytes) : string := String.string_of_list_byte b.

Lemma bytes_of_string_of b : bytes_of (string_of b) = b.
Proof. apply String.list_byte_of_string_of_list_byte. Qed.
Lemma string_of_bytes_of s : string_of (bytes_of s) = s.
Proof. apply String.string_of_list_byte_of_string. Qed.

Lemma int_of_byte_range b : (0 ≤ int_of_byte b < 256)%Z.
Proof. unfold int_of_byte. pose proof (Byte.to_N_bounded b). lia. Qed.

Lemma int_of_byte_of_int z : int_of_byte (byte_of_int z) = (z `mod` 256)%Z.
Proof.
  unfold int_of_byte, byte_of_int.
  pose proof (Z.mod_pos_bound z 256 eq_refl).
  destruct (Byte.of_N (Z.to_N (z `mod` 256))) as [b|] eqn:E; simpl.
  - apply Byte.to_of_N in E. lia.
  - apply Byte.of_N_None_iff in E. lia.
Qed.

Lemma byte_of_int_of_byte b : byte_of_int (int_of_byte b) = b.
Proof.
  unfold byte_of_int, int_of_byte. pose proof (Byte.to_N_bounded b).
  rewrite Z.mod_small by lia. rewrite N2Z.id, Byte.of_to_N. done.
Qed.

#[export] Instance int_of_byte_inj : Inj (=) (=) int_of_byte.
Proof.
  intros a b H. rewrite <-(byte_of_int_of_byte a), <-(byte_of_int_of_byte b).
  by rewrite H.
Qed.

#[export] Instance byte_countable : Countable byte.
Proof.
  refine (inj_countable' Byte.to_N (λ n, default Byte.x00 (Byte.of_N n)) _).
  intros b. by rewrite Byte.of_to_N.
Defined.

(** ** Slices *)

(** [l[i]] *)
Definition go_index {A} (l : list A) (i : Z) : option A :=
  if (0 <=? i)%Z then l !! Z.to_nat i else None.

(** [l[lo:hi]] of a slice whose capacity is its length *)
Definition go_slice {A} (l : list A) (lo hi : Z) : option (list A) :=
  if ((0 <=? lo) && (lo <=? hi) && (hi <=? Z.of_nat (length l)))%Z
  then Some (take (Z.to_nat (hi - lo)) (drop (Z.to_nat lo) l))
  else None.

Definition zlen {A} (l : list A) : Z := Z.of_nat (length l).

Lemma zlen_nonneg {A} (l : list A) : (0 ≤ zlen l)%Z.
Proof. unfold zlen. lia. Qed.

Lemma zlen_cons {A} (x : A) l : zlen (x :: l) = (1 + zlen l)%Z.
Proof. unfold zlen. simpl. lia. Qed.

Lemma zlen_app {A} (l k : list A) : zlen (l ++ k) = (zlen l + zlen k)%Z.
Proof. unfold zlen. rewrite length_app. lia. Qed.

Lemma go_slice_some {A} (l : list A) lo hi r :
  go_slice l lo hi = Some r →
  (0 ≤ lo ≤ hi ∧ hi ≤ zlen l)%Z ∧ zlen r = (hi - lo)%Z.
Proof.
  unfold go_slice, zlen. intros H. case_match eqn:E; [|done].
  bool_to_prop. simplify_eq. rewrite length_take, length_drop. lia.
Qed.

Lemma go_slice_in_range {A} (l : list A) lo hi :
  (0 ≤ lo ≤ hi)%Z → (hi ≤ zlen l)%Z →
  go_slice l lo hi = Some (take (Z.to_nat (hi - lo)) (drop (Z.to_nat lo) l)).
Proof.
  unfold go_slice, zlen. intros. rewrite !(proj2 (Z.leb_le _ _)) by lia. done.
Qed.

(** The middle of three concatenated parts. *)
Lemma go_slice_middle {A} (a b c : list A) :
  go_slice (a ++ b ++ c) (zlen a) (zlen a + zlen b) = Some b.
Proof.
  rewrite go_slice_in_range; unfold zlen in *; rewrite ?length_app; [|lia..].
  f_equal. rewrite Nat2Z.id, drop_app_length.
  replace (Z.to_nat _) with (length b) by lia. apply take_app_length.
Qed.

Lemma go_index_lt {A} (l : list A) i :
  (0 ≤ i < zlen l)%Z → is_Some (go_index l i).
Proof.
  unfold go_index, zlen. intros. rewrite (proj2 (Z.leb_le _ _)) by lia.
  apply lookup_lt_is_Some. lia.
Qed.

(** [copy(l[i:], [x])], that is [l[i] = x] *)
Definition go_store {A} (l : list A) (i : Z) (x : A) : option (list A) :=
  if ((0 <=? i) && (i <? zlen l))%Z then Some (<[Z.to_nat i := x]> l) else None.

(** ** Writers and readers

    An [io.Writer] is the bytes written so far and the number of bytes it will
    still accept ([None]: it never fails).  A write that does not fit is cut
    short and returns an error, as the [io.Writer] contract demands. *)
Record writer := mk_writer { w_out : bytes; w_room : option nat }.

Inductive io_error := ErrShortWrite | EOF | ErrUnexpectedEOF.

Definition w_write (p : bytes) (w : writer) : writer * res io_error () :=
  match w_room w with
  | None => (mk_writer (w_out w ++ p) None, Ok ())
  | Some n =>
    if (length p <=? n)%nat
    then (mk_writer (w_out w ++ p) (Some (n - length p)%nat), Ok ())
    else (mk_writer (w_out w ++ take n p) (Some 0%nat), Err ErrShortWrite)
  end.

(** A [bytes.Buffer] and every other writer that accepts everything. *)
Definition buffer (out : bytes) : writer := mk_writer out None.

Lemma w_write_buffer p out : w_write p (buffer out) = (buffer (out ++ p), Ok ()).
Proof. done. Qed.

(** [io.ReadFull(r, make([]byte, n))]; a reader is the bytes still to come. *)
Definition read_full (n : nat) (r : bytes) : res io_error (bytes * bytes) :=
  if (n <=? length r)%nat then Ok (take n r, drop n r)
  else Err (if (length r =? 0)%nat then EOF else ErrUnexpectedEOF).

Lemma read_full_app p rest : read_full (length p) (p ++ rest) = Ok (p, rest).
Proof.
  unfold read_full. rewrite length_app, (proj2 (Nat.leb_le _ _)) by lia.
  by rewrite take_app_length, drop_app_length.
Qed.

Lemma read_full_ok n r p rest :
  read_full n r = Ok (p, rest) → r = p ++ rest ∧ length p = n.
Proof.
  unfold read_full. intros H. case_match eqn:E; simplify_eq.
  bool_to_prop. rewrite take_drop, length_take. split; [done|lia].
Qed.

(** ** Hexadecimal text *)

(** One lower-case hexadecimal digit of [fmt]'s [%x] and of [encoding/hex]. *)
Definition hex_digit (d : Z) : byte :=
  byte_of_int (if (d <? 10)%Z then 48 + d else 87 + d)%Z.

(** The value of a digit as [strconv] and [encoding/hex] read it: either case. *)
Definition hex_value (b : byte) : option Z :=
  let c := int_of_byte b in
  let l := Z.lor c 32 in
  if ((48 <=? c) && (c <=? 57))%Z then Some (c - 48)%Z
  else if ((97 <=? l) && (l <=? 102))%Z then Some (l - 87)%Z
  else None.

Lemma hex_value_digit d : (0 ≤ d < 16)%Z → hex_value (hex_digit d) = Some d.
Proof.
  intros H.
  assert (d ∈ seqZ 0 16) as Hd by (apply elem_of_seqZ; lia).
  change (seqZ 0 16) with [0;1;2;3;4;5;6;7;8;9;10;11;12;13;14;15]%Z in Hd.
  repeat (apply elem_of_cons in Hd as [->|Hd]; [done|]).
  by apply elem_of_nil in Hd.
Qed.

(** The value of a digit string, most significant digit first. *)
Fixpoint hex_number (acc : Z) (l : bytes) : option Z :=
  match l with
  | [] => Some acc
  | b :: l => match hex_value b with
              | Some d => hex_number (acc * 16 + d)%Z l
              | None => None
              end
  end.

(** [hex.EncodeToString] *)
Fixpoint hex_encode_bytes (l : bytes) : bytes :=
  match l with
  | [] => []
  | b :: l => let c := int_of_byte b in
    hex_digit (c `div` 16) :: hex_digit (c `mod` 16) :: hex_encode_bytes l
  end.
Definition hex_encode (l : bytes) : string := string_of (hex_encode_bytes l).

(** [hex.DecodeString], whose error is [None] *)
Fixpoint hex_decode_bytes (l : bytes) : option bytes :=
  match l with
  | [] => Some []
  | [_] => None
  | h :: k :: l =>
    match hex_value h, hex_value k, hex_decode_bytes l with
    | Some x, Some y, Some r => Some (byte_of_int (x * 16 + y) :: r)
    | _, _, _ => None
    end
  end.
Definition hex_decode (s : string) : option bytes := hex_decode_bytes (bytes_of s).

Lemma hex_decode_encode l : hex_decode (hex_encode l) = Some l.
Proof.
  unfold hex_decode, hex_encode. rewrite bytes_of_string_of.
  induction l as [|b l IH]; [done|]. simpl.
  pose proof (int_of_byte_range b).
  pose proof (Z.mod_pos_bound (int_of_byte b) 16 eq_refl).
  rewrite (hex_value_digit (_ `div` _)), (hex_value_digit (_ `mod` _)), IH by lia_div.
  cbv beta iota. do 2 f_equal. transitivity (byte_of_int (int_of_byte b));
    [f_equal|apply byte_of_int_of_byte].
  pose proof (Z.div_mod (int_of_byte b) 16). lia.
Qed.

Lemma length_hex_encode l : String.length (hex_encode l) = (2 * length l)%nat.
Proof.
  unfold hex_encode, string_of.
  assert (∀ b, String.length (String.string_of_list_byte b) = length b) as ->
    by (induction b; simpl; f_equal; done).
  induction l; simpl; lia.
Qed.

#[export] Instance hex_encode_inj : Inj (=) (=) hex_encode.
Proof.
  intros a b H. pose proof (hex_decode_encode a) as Ha.
  rewrite H, hex_decode_encode in Ha. congruence.
Qed.

(** ** Loops *)

(** [for _, x := range l { ... }] with a body that may return early. *)
Fixpoint foldM {E S A} (f : S → A → res E S) (s : S) (l : list A) : res E S :=
  match l with
  | [] => Ok s
  | x :: l => s' ← f s x; foldM f s' l
  end.

(** An invariant kept by a body that always succeeds. *)
Lemma foldM_inv {E S A} (f : S → A → res E S) (I : S → Prop) s l :
  I s → (∀ s x, I s → x ∈ l → ∃ s', f s x = Ok s' ∧ I s') →
  ∃ s', foldM f s l = Ok s' ∧ I s'.
Proof.
  revert s. induction l as [|x l IH]; intros s Hs Hf; [by eexists|]. simpl.
  destruct (Hf s x) as (s1 & -> & H1); [done|set_solver|]. simpl.
  apply IH; [done|]. set_solver.
Qed.

Lemma foldM_app {E S A} (f : S → A → res E S) s l k :
  foldM f s (l ++ k) = s' ← foldM f s l; foldM f s' k.
Proof.
  revert s. induction l as [|x l IH]; intros s; [done|]. simpl.
  destruct (f s x); simpl; [apply IH|done|done].
Qed.

(** An invariant of the runs that succeed. *)
Lemma foldM_ok_inv {E S A} (f : S → A → res E S) (I : S → Prop) s l s' :
  foldM f s l = Ok s' → I s → (∀ s x s', x ∈ l → I s → f s x = Ok s' → I s') → I s'.
Proof.
  revert s. induction l as [|x l IH]; intros s H Hs Hf; simpl in H; res_inv; [done|].
  eapply IH; [done| |].
  - eapply Hf; [|done|done]. set_solver.
  - intros s1 y s2 ??. apply Hf; set_solver.
Qed.

(** A loop that appends one piece per element. *)
Lemma foldM_append {E A B} (f : list B → A → res E (list B)) (g : A → list B) s l :
  (∀ s x, x ∈ l → f s x = Ok (s ++ g x)) → foldM f s l = Ok (s ++ concat (g <$> l)).
Proof.
  revert s. induction l as [|x l IH]; intros s Hf; simpl; [by rewrite app_nil_r|].
  rewrite Hf by set_solver. simpl. rewrite IH by set_solver. by rewrite <-app_assoc.
Qed.

Lemma go_store_some {A} (l : list A) i x :
  (0 ≤ i < zlen l)%Z → go_store l i x = Some (<[Z.to_nat i := x]> l).
Proof.
  intros. unfold go_store.
  by rewrite (proj2 (Z.leb_le _ _)), (proj2 (Z.ltb_lt _ _)) by lia.
Qed.

Lemma go_index_Forall {A} (P : A → Prop) l i :
  Forall P l → (0 ≤ i < zlen l)%Z → ∃ x, go_index l i = Some x ∧ P x.
Proof.
  intros HP Hi. destruct (go_index_lt l i Hi) as [x Hx]. exists x. split; [done|].
  unfold go_index in Hx. case_match; [|done]. by eapply Forall_lookup_1.
Qed.

(** Reading at a known position of a concatenation. *)
Lemma go_slice_tail {A} (a b : list A) :
  go_slice (a ++ b) (zlen a) (zlen (a ++ b)) = Some b.
Proof.
  pose proof (go_slice_middle a b []) as H. rewrite app_nil_r in H.
  by rewrite zlen_app.
Qed.

Lemma take_length_app_le {A} (a b : list A) i :
  (i ≤ length a)%nat → take i (a ++ b) = take i a.
Proof. apply take_app_le. Qed.

(** ** Scanning bytes *)

(** [bytes.IndexByte(l, c)], as the parts before and after the byte. *)
Fixpoint cut_byte (c : byte) (l : bytes) : option (bytes * bytes) :=
  match l with
  | [] => None
  | b :: l => if decide (b = c) then Some ([], l)
              else match cut_byte c l with
                   | Some (x, y) => Some (b :: x, y)
                   | None => None
                   end
  end.

(** [bytes.Split(l, []byte{c})]: always at least one part. *)
Fixpoint split_byte (c : byte) (l : bytes) : list bytes :=
  match l with
  | [] => [[]]
  | b :: l => if decide (b = c) then [] :: split_byte c l
              else match split_byte c l with
                   | x :: xs => (b :: x) :: xs
                   | [] => [[b]]
                   end
  end.

(** [bytes.HasPrefix] *)
Definition has_prefix_b (p l : bytes) : bool := bool_decide (take (length p) l = p).

Lemma cut_byte_app c a b : c ∉ a → cut_byte c (a ++ c :: b) = Some (a, b).
Proof.
  induction a as [|x a IH]; intros Hc; simpl; [by rewrite decide_True|].
  apply not_elem_of_cons in Hc as [??]. rewrite decide_False by done. by rewrite IH.
Qed.

Lemma cut_byte_some c l a b : cut_byte c l = Some (a, b) → l = a ++ c :: b.
Proof.
  revert a b. induction l as [|x l IH]; intros a b H; simpl in H; [done|].
  case_decide; simplify_eq/=; [done|].
  destruct (cut_byte c l) as [[a' b']|]; simplify_eq/=. f_equal. by apply IH.
Qed.

(** ** Byte order

    [strings.Compare], [sort.Strings] and SQLite's BINARY collation. *)
Fixpoint bytes_leb (a b : bytes) : bool :=
  match a, b with
  | [], _ => true
  | _ :: _, [] => false
  | x :: a, y :: b => if (int_of_byte x <? int_of_byte y)%Z then true
                      else if (int_of_byte y <? int_of_byte x)%Z then false else bytes_leb a b
  end.

Lemma bytes_leb_total a b : bytes_leb a b = true ∨ bytes_leb b a = true.
Proof.
  revert b. induction a as [|x a IH]; intros [|y b]; simpl; auto.
  destruct (int_of_byte x <? int_of_byte y)%Z eqn:E1; [by left|].
  destruct (int_of_byte y <? int_of_byte x)%Z eqn:E2; [by right|]. apply IH.
Qed.

Lemma bytes_leb_trans a b c :
  bytes_leb a b = true → bytes_leb b c = true → bytes_leb a c = true.
Proof.
  revert b c. induction a as [|x a IH]; intros [|y b] [|z c]; simpl; try done.
  repeat case_match; try done; bool_to_prop; try lia. by apply IH.
Qed.

Lemma bytes_leb_antisym a b : bytes_leb a b = true → bytes_leb b a = true → a = b.
Proof.
  revert b. induction a as [|x a IH]; intros [|y b]; simpl; try done.
  repeat case_match; try done; bool_to_prop; try lia. intros ??.
  f_equal; [apply int_of_byte_inj; lia|by apply IH].
Qed.

Definition str_le (s t : string) : Prop := bytes_leb (bytes_of s) (bytes_of t) = true.
#[export] Instance str_le_dec s t : Decision (str_le s t).
Proof. unfold str_le. apply _. Defined.
#[export] Instance str_le_total : Total str_le.
Proof. intros s t. apply bytes_leb_total. Qed.
#[export] Instance str_le_trans : Transitive str_le.
Proof. intros s t u. apply bytes_leb_trans. Qed.

#[export] Instance bytes_of_inj : Inj (=) (=) bytes_of.
Proof. intros s t H. by rewrite <-(string_of_bytes_of s), H, string_of_bytes_of. Qed.

Lemma str_le_antisym s t : str_le s t → str_le t s → s = t.
Proof. intros H1 H2. by apply bytes_of_inj, bytes_leb_antisym. Qed.

(** Sorting strings forgets their order. *)
Lemma sort_perm (l k : list string) : l ≡ₚ k → merge_sort str_le l = merge_sort str_le k.
Proof.
  intros H. apply (Sorted_unique_strong str_le).
  - intros x y _ _. apply str_le_antisym.
  - apply Sorted_merge_sort, _.
  - apply Sorted_merge_sort, _.
  - by rewrite !merge_sort_Permutation.
Qed.

(** ** State and errors

    A call that changes a shared state [S] and may fail half way keeps the
    state it had reached: a transaction is rolled back by its owner. *)
Definition stM (S E A : Type) : Type := S → S * res E A.

#[export] Instance stM_ret {S E} : MRet (stM S E) := λ A a s, (s, Ok a).
#[export] Instance stM_bind {S E} : MBind (stM S E) := λ A B f m s,
  match m s with
  | (s', Ok a) => f a s'
  | (s', Err e) => (s', Err e)
  | (s', Panic) => (s', Panic)
  end.
Definition gets {S E A} (f : S → A) : stM S E A := λ s, (s, Ok (f s)).
Definition modify {S E} (f : S → S) : stM S E () := λ s, (f s, Ok ()).
Definition lift {S E A} (r : res E A) : stM S E A := λ s, (s, r).
Definition fail_if {S E} (bad : bool) (e : E) : stM S E () := lift (guard_err bad e).

(** [tx, err := db.Begin(); defer tx.Rollback(); ...; tx.Commit()] *)
Definition transact {S E A} (body : stM S E A) : stM S E A := λ s,
  match body s with
  | (s', Ok a) => (s', Ok a)
  | (_, r) => (s, r)
  end.

Lemma stM_bind_ok {S E A B} (m : stM S E A) (f : A → stM S E B) s s' b :
  (m ≫= f) s = (s', Ok b) → ∃ s1 a, m s = (s1, Ok a) ∧ f a s1 = (s', Ok b).
Proof.
  unfold mbind, stM_bind. destruct (m s) as [s1 [a|e|]]; [eauto|done|done].
Qed.

(** One step of a sequence. *)
Lemma stM_bind_run {S E A B} (m : stM S E A) (f : A → stM S E B) s s' a :
  m s = (s', Ok a) → (m ≫= f) s = f a s'.
Proof. intros Hm. unfold mbind, stM_bind. by rewrite Hm. Qed.
Lemma stM_bind_fail {S E A B} (m : stM S E A) (f : A → stM S E B) s s' e :
  m s = (s', Err e) → (m ≫= f) s = (s', Err e).
Proof. intros Hm. unfold mbind, stM_bind. by rewrite Hm. Qed.

(** A loop over a list. *)
Fixpoint loopM {S E A B} (f : B → A → stM S E B) (b : B) (l : list A) : stM S E B :=
  match l with
  | [] => mret b
  | x :: l => b ← f b x; loopM f b l
  end.

Lemma loopM_app {S E A B} (f : B → A → stM S E B) b l k s :
  loopM f b (l ++ k) s = (b' ← loopM f b l; loopM f b' k) s.
Proof.
  revert b s. induction l as [|x l IH]; intros b s; [done|]. cbn [app loopM].
  unfold mbind, stM_bind in *. destruct (f b x s) as [s1 [b1|e|]]; [|done..]. apply IH.
Qed.

(** An invariant of the state and the accumulator, and the elements that are
    done. *)
Lemma loopM_inv {S E A B} (f : B → A → stM S E B) (I : list A → B → S → Prop) l b s :
  I [] b s →
  (∀ k x k' b s, l = k ++ x :: k' → I k b s → ∃ b' s', f b x s = (s', Ok b') ∧ I (k ++ [x]) b' s') →
  ∃ b' s', loopM f b l s = (s', Ok b') ∧ I l b' s'.
Proof.
  intros H0 Hf. cut (∀ k' k b s, l = k ++ k' → I k b s → ∃ b' s', loopM f b k' s = (s', Ok b') ∧ I l b' s').
  { intros Hc. by apply (Hc l []). }
  intros k'. induction k' as [|x k' IH]; intros k b1 s1 El Hi; cbn [loopM].
  - rewrite app_nil_r in El. subst. by exists b1, s1.
  - destruct (Hf k x k' b1 s1 El Hi) as (b2 & s2 & E2 & Hi2). rewrite (stM_bind_run _ _ _ _ _ E2).
    apply (IH (k ++ [x])); [by rewrite <-app_assoc|done].
Qed.

(** The same for a loop that an error may stop: at which element it stopped. *)
Lemma loopM_cases {S E A B} (f : B → A → stM S E B) (I : list A → B → S → Prop)
    (Q : list A → A → S → E → Prop) l b s :
  I [] b s →
  (∀ k x k' b s, l = k ++ x :: k' → I k b s →
     match f b x s with
     | (s', Ok b') => I (k ++ [x]) b' s'
     | (s', Err e) => Q k x s' e
     | (_, Panic) => False
     end) →
  match loopM f b l s with
  | (s', Ok b') => I l b' s'
  | (s', Err e) => ∃ k x k', l = k ++ x :: k' ∧ Q k x s' e
  | (_, Panic) => False
  end.
Proof.
  intros H0 Hf.
  cut (∀ k' k b s, l = k ++ k' → I k b s →
    match loopM f b k' s with
    | (s', Ok b') => I l b' s'
    | (s', Err e) => ∃ k x k', l = k ++ x :: k' ∧ Q k x s' e
    | (_, Panic) => False
    end).
  { intros Hc. by apply (Hc l []). }
  intros k'. induction k' as [|x k' IH]; intros k b1 s1 El Hi; cbn [loopM].
  - rewrite app_nil_r in El. by subst.
  - specialize (Hf k x k' b1 s1 El Hi). unfold mbind, stM_bind.
    destruct (f b1 x s1) as [s2 [b2|e|]]; [|by exists k, x, k'|done].
    apply (IH (k ++ [x])); [by rewrite <-app_assoc|done].
Qed.

(** A condition on the state that every outcome of a call keeps. *)
Definition keeps {S E A} (P : S → Prop) (m : stM S E A) : Prop := ∀ s, P s → P (m s).1.
Lemma keeps_ret {S E A} P (a : A) : keeps P (mret (M := stM S E) a).
Proof. by intros s Hs. Qed.
Lemma keeps_lift {S E A} P (r : res E A) : keeps P (lift (S := S) r).
Proof. by intros s Hs. Qed.
Lemma keeps_fail_if {S E} P bad (e : E) : keeps P (fail_if (S := S) bad e).
Proof. by intros s Hs. Qed.
Lemma keeps_gets {S E A} P (f : S → A) : keeps P (gets (E := E) f).
Proof. by intros s Hs. Qed.
Lemma keeps_modify {S E} P (f : S → S) : (∀ s, P s → P (f s)) → keeps P (modify (E := E) f).
Proof. intros Hf s Hs. by apply Hf. Qed.
Lemma keeps_bind {S E A B} P (m : stM S E A) (f : A → stM S E B) :
  keeps P m → (∀ a, keeps P (f a)) → keeps P (m ≫= f).
Proof.
  intros Hm Hf s Hs. specialize (Hm s Hs). unfold mbind, stM_bind.
  destruct (m s) as [s1 [a|e|]]; [by apply Hf|done..].
Qed.
Lemma keeps_loop {S E A B} P (f : B → A → stM S E B) b l :
  (∀ b x, x ∈ l → keeps P (f b x)) → keeps P (loopM f b l).
Proof.
  revert b. induction l as [|x l IH]; intros b Hf; cbn [loopM]; [apply keeps_ret|].
  apply keeps_bind; [apply Hf; by left|]. intros b'. apply IH. intros b1 y Hy. apply Hf. by right.
Qed.
Create HintDb keeps.
#[export] Hint Resolve keeps_ret keeps_lift keeps_fail_if keeps_gets keeps_bind : keeps.

Lemma transact_ok {S E A} (body : stM S E A) s s' a :
  transact body s = (s', Ok a) ↔ body s = (s', Ok a).
Proof. unfold transact. destruct (body s) as [s1 [?|?|]]; split; congruence. Qed.

Lemma transact_not_ok {S E A} (body : stM S E A) s s' r :
  transact body s = (s', r) → is_ok r = false → s' = s.
Proof. unfold transact. destruct (body s) as [s1 [?|?|]]; intros [= <- <-]; done. Qed.

(** Run the monad without unfolding the code. *)
Ltac st_simpl :=
  cbv beta iota zeta delta
    [mbind stM_bind mret stM_ret gets modify lift fail_if guard_err];
  cbn [negb andb orb].

(** ** LIKE

    SQL's LIKE: [%] and [_] are wildcards, [_] takes one UTF-8 character.
    SQLite matches ASCII letters in either case, Postgres takes them as they
    are. *)
Definition lower (b : byte) : Z :=
  let c := int_of_byte b in if (65 <=? c)%Z && (c <=? 90)%Z then (c + 32)%Z else c.
Fixpoint skip_continuation (t : bytes) : bytes :=
  match t with
  | b :: t' => if (0x80 <=? int_of_byte b)%Z && (int_of_byte b <=? 0xBF)%Z then skip_continuation t' else t
  | [] => []
  end.
Definition skip_char (b : byte) (t : bytes) : bytes :=
  if (0xC0 <=? int_of_byte b)%Z then skip_continuation t else t.
Fixpoint like (fold : byte → Z) (p t : bytes) : bool :=
  match p with
  | [] => bool_decide (t = [])
  | c :: p =>
    if (int_of_byte c =? 37)%Z then
      (fix go (t : bytes) : bool :=
         like fold p t || match t with b :: t' => go t' | [] => false end) t
    else if (int_of_byte c =? 95)%Z then
      match t with b :: t' => like fold p (skip_char b t') | [] => false end
    else match t with
         | b :: t' => (fold c =? fold b)%Z && like fold p t'
         | [] => false
         end
  end.
Abbreviation sql_like := (like lower).

Lemma like_percent fold p t :
  like fold (Byte.x25 :: p) t = true ↔ ∃ a b, t = a ++ b ∧ like fold p b = true.
Proof.
  induction t as [|x t IH].
  - cbn. rewrite orb_false_r. split; [intros Hp; by exists [], []|].
    intros (a & b & E & Hb). symmetry in E. apply app_eq_nil in E as [-> ->]. done.
  - change (like fold (Byte.x25 :: p) (x :: t)) with
      (like fold p (x :: t) || like fold (Byte.x25 :: p) t).
    rewrite orb_true_iff, IH. split.
    + intros [Hp|(a & b & -> & Hb)]; [by exists [], (x :: t)|by exists (x :: a), b].
    + intros ([|y a] & b & E & Hb); [left; by rewrite E|]. injection E as -> ->. right. by exists a, b.
Qed.

(** A word without wildcards matches letter by letter. *)
Definition no_wildcard (b : byte) : Prop := b ≠ Byte.x25 ∧ b ≠ Byte.x5f.
Lemma like_word fold w p t : Forall no_wildcard w →
  like fold (w ++ p) t = true ↔ ∃ u r, t = u ++ r ∧ fold <$> u = fold <$> w ∧ like fold p r = true.
Proof.
  intros Hw. revert t. induction Hw as [|c w [H37 H95] _ IH]; intros t.
  - split; [intros Hp; by exists [], t|]. intros (u & r & -> & E & Hp).
    by apply fmap_nil_inv in E as ->.
  - cbn [app like].
    assert ((int_of_byte c =? 37)%Z = false) as ->.
    { apply Z.eqb_neq. intros E. apply H37. by apply (inj int_of_byte). }
    assert ((int_of_byte c =? 95)%Z = false) as ->.
    { apply Z.eqb_neq. intros E. apply H95. by apply (inj int_of_byte). }
    destruct t as [|b t].
    + split; [done|]. intros (u & r & E & Hf & _). symmetry in E. by apply app_eq_nil in E as [-> _].
    + rewrite andb_true_iff, IH, Z.eqb_eq. split.
      * intros (E & u & r & -> & Hf & Hp). exists (b :: u), r. split; [done|]. split; [|done].
        cbn. by rewrite E, Hf.
      * intros (u & r & E & Hf & Hp). destruct u as [|x u]; [done|]. injection E as -> ->.
        injection Hf as Hx Hf. split; [done|]. by exists u, r.
Qed.

Lemma existsb_elem {A} (f : A → bool) l : existsb f l = true ↔ ∃ x, x ∈ l ∧ f x = true.
Proof. rewrite existsb_exists. by setoid_rewrite list_elem_of_In. Qed.

Lemma forallb_elem {A} (f : A → bool) l : forallb f l = true ↔ ∀ x, x ∈ l → f x = true.
Proof. rewrite forallb_forall. by setoid_rewrite list_elem_of_In. Qed.

Lemma Forall_filter_of {A} (P Q : A → Prop) `{∀ x, Decision (Q x)} l :
  Forall P l → Forall P (filter Q l).
Proof. rewrite !Forall_forall. intros HP x [_ Hx]%list_elem_of_filter. by apply HP. Qed.

Lemma Forall2_with_r {A B} (P : A → B → Prop) (Q : B → Prop) l k :
  Forall2 P l k → Forall Q k → Forall2 (λ x y, P x y ∧ Q y) l k.
Proof.
  induction 1 as [|x y l k Hxy _ IH]; intros HQ; constructor;
    apply Forall_cons in HQ as [??]; auto.
Qed.

Lemma Forall2_with_l {A B} (P : A → B → Prop) (Q : A → Prop) l k :
  Forall2 P l k → Forall Q l → Forall2 (λ x y, P x y ∧ Q x) l k.
Proof.
  induction 1 as [|x y l k Hxy _ IH]; intros HQ; constructor;
    apply Forall_cons in HQ as [??]; auto.
Qed.

Lemma elem_of_concat {A} (x : A) (ls : list (list A)) : x ∈ concat ls ↔ ∃ l, l ∈ ls ∧ x ∈ l.
Proof. setoid_rewrite list_elem_of_In. apply in_concat. Qed.

(** Splitting at a byte. *)
Lemma split_byte_none c l : c ∉ l → split_byte c l = [l].
Proof.
  induction l as [|x l IH]; intros Hc; [done|]. simpl.
  apply not_elem_of_cons in Hc as [??]. rewrite decide_False by done. by rewrite IH.
Qed.

Lemma split_byte_app c a b :
  c ∉ a → split_byte c (a ++ c :: b) = a :: split_byte c b.
Proof.
  induction a as [|x a IH]; intros Hc; simpl; [by rewrite decide_True|].
  apply not_elem_of_cons in Hc as [??]. rewrite decide_False by done. by rewrite IH.
Qed.

(** ** The first element with a property *)

Lemma find_elem {A} (f : A → bool) l x : List.find f l = Some x → x ∈ l ∧ f x = true.
Proof. intros Hf. apply List.find_some in Hf as [? ?]. by rewrite list_elem_of_In. Qed.

Lemma find_exists {A} (f : A → bool) l x : x ∈ l → f x = true → ∃ y, List.find f l = Some y ∧ y ∈ l ∧ f y = true.
Proof.
  intros Hx Hf. destruct (List.find f l) as [y|] eqn:E.
  - exists y. split; [done|]. by apply find_elem.
  - apply list_elem_of_In in Hx. pose proof (List.find_none f l E x Hx). congruence.
Qed.

Lemma find_absent {A} (f : A → bool) l a : List.find f l = None → a ∈ l → f a = false.
Proof. intros Hf Ha%list_elem_of_In. by eapply List.find_none. Qed.
