(* ===== verification/PktLine.v ===== *)
(** * Git pkt-line framing (kailab/sshserver/protocol.go)

    Writers of pkt-lines, the reader, and the side-band multiplexer. *)

From S2P Require Import Prelude.
Local Open Scope Z_scope.

(** ** Definitions *)

Inductive pkt_error :=
| ErrNilWriter
| ErrPktTooLong (size : Z)
| ErrPktHeader
| ErrPktLength (n : Z)
| ErrIO (e : io_error).

(** [fmt.Sprintf("%04x", size)] of a size of at most four digits *)
Definition pkt_header (size : Z) : bytes :=
  [hex_digit (size `div` 4096); hex_digit ((size `div` 256) `mod` 16);
   hex_digit ((size `div` 16) `mod` 16); hex_digit (size `mod` 16)].

(** An [io.Writer]: one call of [Write], which the code only asks for its
    error. *)
Class IoWriter (W : Type) := io_write : bytes → W → W * res pkt_error ().
#[export] Instance writer_io : IoWriter writer := λ p w,
  let '(w', r) := w_write p w in (w', map_err ErrIO r).
(** A call of [Write] on a nil interface panics. *)
#[export] Instance nilable_io {W} `{IoWriter W} : IoWriter (option W) := λ p w,
  match w with
  | Some w => let '(w', r) := io_write p w in (Some w', r)
  | None => (None, Panic)
  end.

(** Two writes in a row: the second is skipped when the first fails. *)
Definition write_two (p q : bytes) (w : writer) : writer * res pkt_error () :=
  match w_write p w with
  | (w1, Ok _) => let '(w2, r) := w_write q w1 in (w2, map_err ErrIO r)
  | (w1, r) => (w1, map_err ErrIO r)
  end.

(** A nil [io.Writer] is [None]. *)
Definition writePktLine (w : option writer) (payload : string)
  : option writer * res pkt_error () :=
  match w with
  | None => (None, Err ErrNilWriter)
  | Some w =>
    let size := zlen (bytes_of payload) + 4 in
    if 0xffff <? size then (Some w, Err (ErrPktTooLong size))
    else let '(w', r) := write_two (pkt_header size) (bytes_of payload) w in
         (Some w', r)
  end.

Definition writePktLineBytes (w : option writer) (payload : bytes)
  : option writer * res pkt_error () :=
  match w with
  | None => (None, Err ErrNilWriter)
  | Some w =>
    let size := zlen payload + 4 in
    if 0xffff <? size then (Some w, Err (ErrPktTooLong size))
    else let '(w', r) := write_two (pkt_header size) payload w in
         (Some w', r)
  end.

Definition writeFlush (w : option writer) : option writer * res pkt_error () :=
  match w with
  | None => (None, Err ErrNilWriter)
  | Some w => let '(w', r) := w_write (bytes_of "0000") w in
              (Some w', map_err ErrIO r)
  end.

Definition writeDelim (w : option writer) : option writer * res pkt_error () :=
  match w with
  | None => (None, Err ErrNilWriter)
  | Some w => let '(w', r) := w_write (bytes_of "0001") w in
              (Some w', map_err ErrIO r)
  end.

Definition writeGitError (w : option writer) (msg : string)
  : option writer * res pkt_error () :=
  writePktLine w ("ERR " +:+ msg).

Inductive PktType := PktData | PktFlush | PktDelim.

(** [strconv.ParseInt(s, 16, 0)] of a text too short to overflow *)
Definition parse_int_hex (s : bytes) : option Z :=
  match s with
  | [] => None
  | b :: l =>
    if decide (b = Byte.x2b) then
      match l with [] => None | _ => hex_number 0 l end
    else if decide (b = Byte.x2d) then
      match l with [] => None | _ => Z.opp <$> hex_number 0 l end
    else hex_number 0 s
  end.

Definition readPktLineV2 (r : bytes) : res pkt_error (string * PktType * bytes) :=
  '(header, r) ← map_err ErrIO (read_full 4 r);
  if decide (string_of header = "0001") then Ok (EmptyString, PktDelim, r)
  else match parse_int_hex header with
       | None => Err ErrPktHeader
       | Some n =>
         if n =? 0 then Ok (EmptyString, PktFlush, r)
         else if n <? 4 then Err (ErrPktLength n)
         else '(payload, r) ← map_err ErrIO (read_full (Z.to_nat (n - 4)) r);
              Ok (string_of payload, PktData, r)
       end.

(** Flush and delimiter both answer [true], for protocol v1 callers. *)
Definition readPktLine (r : bytes) : res pkt_error (string * bool * bytes) :=
  '(payload, pktType, r) ← readPktLineV2 r;
  Ok (payload, match pktType with PktData => false | _ => true end, r).

(** The side-band multiplexer *)
Record sideBandWriter := mk_sideBandWriter {
  sb_w : option writer;
  sb_maxData : Z;
  sb_channelID : byte;
}.

(** The loop of [Write]; it runs once per chunk, so at most [length p] times
    when [maxData] is positive.  A negative chunk makes [make] panic. *)
Fixpoint sideBandWriter_loop (fuel : nat) (s : sideBandWriter) (p : bytes)
    (written : Z) : sideBandWriter * Z * res pkt_error () :=
  match p with
  | [] => (s, written, Ok ())
  | _ :: _ =>
    match fuel with
    | O => (s, written, Panic)
    | S fuel =>
      let chunk := Z.min (zlen p) (sb_maxData s) in
      if chunk <? 0 then (s, written, Panic)
      else
        let payload := sb_channelID s :: take (Z.to_nat chunk) p in
        match writePktLineBytes (sb_w s) payload with
        | (w', Ok _) =>
          sideBandWriter_loop fuel
            (mk_sideBandWriter w' (sb_maxData s) (sb_channelID s))
            (drop (Z.to_nat chunk) p) (written + chunk)
        | (w', r) =>
          (mk_sideBandWriter w' (sb_maxData s) (sb_channelID s), written, r)
        end
    end
  end.

Definition sideBandWriter_Write (s : sideBandWriter) (p : bytes)
  : sideBandWriter * Z * res pkt_error () :=
  sideBandWriter_loop (length p) s p 0.
#[export] Instance sideBandWriter_io : IoWriter sideBandWriter := λ p s,
  let '(s', _, r) := sideBandWriter_Write s p in (s', r).

(** What a conforming client does with a side-band stream: it strips the
    frames and collects the bytes of each packet by channel. *)
Fixpoint demux (fuel : nat) (stream : bytes) : option (list (byte * bytes)) :=
  match stream with
  | [] => Some []
  | _ :: _ =>
    match fuel with
    | O => None
    | S fuel =>
      match readPktLineV2 stream with
      | Ok (payload, PktData, rest) =>
        match bytes_of payload, demux fuel rest with
        | ch :: data, Some l => Some ((ch, data) :: l)
        | _, _ => None
        end
      | _ => None
      end
    end
  end.

(** ** Lemmas *)

Lemma hex_number_header size :
  0 ≤ size ≤ 0xffff → hex_number 0 (pkt_header size) = Some size.
Proof.
  intros H. unfold pkt_header. simpl.
  rewrite (hex_value_digit (size `div` 4096)),
    (hex_value_digit ((size `div` 256) `mod` 16)),
    (hex_value_digit ((size `div` 16) `mod` 16)),
    (hex_value_digit (size `mod` 16)) by lia_div.
  f_equal. lia_div.
Qed.

Lemma hex_digit_not_sign d :
  0 ≤ d < 16 → hex_digit d ≠ Byte.x2b ∧ hex_digit d ≠ Byte.x2d.
Proof.
  intros H. apply hex_value_digit in H.
  split; intros E; rewrite E in H; done.
Qed.

Lemma parse_int_header size :
  0 ≤ size ≤ 0xffff → parse_int_hex (pkt_header size) = Some size.
Proof.
  intros H. assert (0 ≤ size `div` 4096 < 16) as Hd.
  { lia_div. }
  apply hex_digit_not_sign in Hd as [H1 H2].
  unfold parse_int_hex. rewrite <-(hex_number_header size) by done.
  unfold pkt_header at 1. by rewrite !decide_False by done.
Qed.

Lemma pkt_header_not_delim size :
  4 ≤ size ≤ 0xffff → string_of (pkt_header size) ≠ "0001".
Proof.
  intros H E. assert (pkt_header size = bytes_of "0001") as E'.
  { by rewrite <-E, bytes_of_string_of. }
  pose proof (hex_number_header size) as Hn. rewrite E' in Hn.
  specialize (Hn ltac:(lia)). vm_compute in Hn. simplify_eq. lia.
Qed.

(** One frame as it appears on the wire. *)
Definition frame (payload : bytes) : bytes :=
  pkt_header (zlen payload + 4) ++ payload.

Lemma readPktLineV2_frame payload rest :
  zlen payload + 4 ≤ 0xffff →
  readPktLineV2 (frame payload ++ rest) = Ok (string_of payload, PktData, rest).
Proof.
  intros H. pose proof (zlen_nonneg payload).
  unfold readPktLineV2, frame. rewrite <-app_assoc.
  change 4%nat with (length (pkt_header (zlen payload + 4))).
  rewrite read_full_app. res_simpl.
  rewrite decide_False by (apply pkt_header_not_delim; lia).
  rewrite parse_int_header by lia.
  rewrite (proj2 (Z.eqb_neq _ _)), (proj2 (Z.ltb_ge _ _)) by lia.
  replace (Z.to_nat _) with (length payload) by (unfold zlen; lia).
  by rewrite read_full_app.
Qed.

(** Every packet takes at least four bytes, and reading never panics. *)
Lemma readPktLineV2_consumes r payload t rest :
  readPktLineV2 r = Ok (payload, t, rest) → (length rest + 4 ≤ length r)%nat.
Proof.
  unfold readPktLineV2. intros H.
  apply bind_ok_inv in H as ([header r1] & Hr%map_err_ok_inv%read_full_ok & H).
  destruct Hr as [-> Hlen]. rewrite length_app, Hlen.
  destruct (decide _); [by injection H as <- <- <-; lia|].
  destruct (parse_int_hex header) as [k|]; [|done].
  destruct (k =? 0); [by injection H as <- <- <-; lia|]. destruct (k <? 4); [done|].
  apply bind_ok_inv in H as ([payload' r2] & Hr%map_err_ok_inv%read_full_ok & [= <- <- <-]).
  destruct Hr as [-> _]. rewrite length_app. lia.
Qed.

Lemma readPktLineV2_no_panic r : readPktLineV2 r ≠ Panic.
Proof.
  unfold readPktLineV2, read_full. destruct (4 <=? length r)%nat; [|done]. cbn.
  destruct (decide _); [done|]. destruct (parse_int_hex _) as [k|]; [|done].
  destruct (k =? 0); [done|]. destruct (k <? 4); [done|]. by destruct (_ <=? _)%nat.
Qed.

Lemma readPktLine_consumes r payload flush rest :
  readPktLine r = Ok (payload, flush, rest) → (length rest + 4 ≤ length r)%nat.
Proof.
  intros H. apply bind_ok_inv in H as ([[p t] rest'] & H & [= <- <- <-]).
  by eapply readPktLineV2_consumes.
Qed.

Lemma readPktLine_no_panic r : readPktLine r ≠ Panic.
Proof.
  unfold readPktLine. pose proof (readPktLineV2_no_panic r). by destruct (readPktLineV2 r) as [[[]]| |].
Qed.

Lemma writePktLineBytes_buffer out payload :
  zlen payload + 4 ≤ 0xffff →
  writePktLineBytes (Some (buffer out)) payload
  = (Some (buffer (out ++ frame payload)), Ok ()).
Proof.
  intros H. unfold writePktLineBytes, write_two, frame.
  rewrite (proj2 (Z.ltb_ge _ _)) by lia. simpl. unfold buffer.
  do 3 f_equal. by rewrite <-app_assoc.
Qed.

(** A write either appends everything or an initial part of it. *)
Lemma w_write_spec p w w' r :
  w_write p w = (w', r) →
  (r = Ok () ∧ w_out w' = w_out w ++ p) ∨
  (r = Err ErrShortWrite ∧ ∃ k, w_out w' = w_out w ++ take k p).
Proof.
  unfold w_write. intros H. repeat case_match; simplify_eq/=; eauto.
Qed.

Lemma writePktLineBytes_spec w payload ow r :
  zlen payload + 4 ≤ 0xffff →
  writePktLineBytes (Some w) payload = (ow, r) →
  ∃ w', ow = Some w' ∧
    ((r = Ok () ∧ w_out w' = w_out w ++ frame payload) ∨
     (r = Err (ErrIO ErrShortWrite) ∧ ∃ cut, w_out w' = w_out w ++ cut)).
Proof.
  intros Hlen H. unfold writePktLineBytes, write_two in H.
  rewrite (proj2 (Z.ltb_ge _ _)) in H by lia.
  destruct (w_write _ w) as [w1 r1] eqn:E1.
  apply w_write_spec in E1 as [[-> H1]|[-> [k H1]]].
  - destruct (w_write payload w1) as [w2 r2] eqn:E2.
    apply w_write_spec in E2 as [[-> H2]|[-> [k H2]]]; simplify_eq/=;
      eexists; (split; [done|]); rewrite H2, H1, <-app_assoc; eauto.
  - simplify_eq/=. eauto 10.
Qed.

Lemma demux_frame ch data rest fuel pkts :
  zlen data + 5 ≤ 0xffff → demux fuel rest = Some pkts →
  demux (S fuel) (frame (ch :: data) ++ rest) = Some ((ch, data) :: pkts).
Proof.
  intros Hlen Hrest.
  assert (readPktLineV2 (frame (ch :: data) ++ rest)
          = Ok (string_of (ch :: data), PktData, rest)) as Hread.
  { apply readPktLineV2_frame. unfold zlen in *. simpl. lia. }
  destruct (frame (ch :: data) ++ rest) as [|b l] eqn:E.
  { unfold frame, pkt_header in E. done. }
  cbn [demux]. by rewrite Hread, bytes_of_string_of, Hrest.
Qed.

Lemma demux_fuel_mono fuel fuel' stream pkts :
  (fuel ≤ fuel')%nat → demux fuel stream = Some pkts → demux fuel' stream = Some pkts.
Proof.
  revert fuel' stream pkts. induction fuel as [|fuel IH]; intros fuel' stream pkts Hle.
  { destruct stream; [by destruct fuel'|done]. }
  destruct fuel' as [|fuel']; [lia|]. destruct stream as [|b l]; [done|].
  cbn [demux]. intros H.
  destruct (readPktLineV2 (b :: l)) as [[[payload []] rest]| |]; try done.
  destruct (bytes_of payload) as [|ch data]; [done|].
  destruct (demux fuel rest) as [l'|] eqn:E; [|done].
  by rewrite (IH fuel' rest l') by (done || lia).
Qed.

(** The loop, for a writer that may fail at any moment. *)
Lemma sideBandWriter_loop_spec fuel w maxData ch p written s' k r :
  0 < maxData ≤ 65530 → (length p ≤ fuel)%nat →
  sideBandWriter_loop fuel (mk_sideBandWriter (Some w) maxData ch) p written = (s', k, r) →
  ∃ w' stream cut pkts,
    sb_w s' = Some w' ∧ w_out w' = w_out w ++ stream ++ cut ∧
    demux (length stream) stream = Some pkts ∧
    Forall (λ pkt, pkt.1 = ch ∧ 1 ≤ zlen pkt.2 ≤ maxData) pkts ∧
    concat (pkts.*2) = take (Z.to_nat (k - written)) p ∧
    written ≤ k ≤ written + zlen p ∧
    ((r = Ok () ∧ k = written + zlen p ∧ cut = []) ∨ r = Err (ErrIO ErrShortWrite)).
Proof.
  intros Hmax. revert w p written. induction fuel as [|fuel IH]; intros w p written Hf H.
  { destruct p; [|simpl in Hf; lia]. simplify_eq/=. unfold zlen; simpl.
    exists w, [], [], []. rewrite Z.sub_diag, app_nil_r.
    repeat split; try lia; [constructor|left; repeat split; lia]. }
  destruct p as [|b p].
  { simplify_eq/=. unfold zlen; simpl.
    exists w, [], [], []. rewrite Z.sub_diag, app_nil_r.
    repeat split; try lia; [constructor|left; repeat split; lia]. }
  cbn [sideBandWriter_loop sb_w sb_maxData sb_channelID] in H.
  set (l := b :: p) in *.
  assert (1 ≤ zlen l) by (unfold zlen; subst l; simpl; lia).
  set (chunk := Z.min (zlen l) maxData) in *.
  rewrite (proj2 (Z.ltb_ge _ _)) in H by (subst chunk; lia).
  assert (zlen (take (Z.to_nat chunk) l) = chunk) as Hchunk.
  { unfold zlen in *. rewrite length_take. subst chunk. unfold zlen. lia. }
  destruct (writePktLineBytes _ _) as [ow r1] eqn:Ew.
  apply writePktLineBytes_spec in Ew as (w1 & -> & Hw1);
    [|unfold zlen in *; simpl; lia].
  destruct Hw1 as [[-> Hout]|[-> [cut Hout]]].
  - apply IH in H as (w' & stream & cut & pkts & H1 & H2 & H3 & H4 & H5 & H6 & H7);
      [|rewrite length_drop; subst l chunk; simpl in *; lia].
    assert (zlen (drop (Z.to_nat chunk) l) = zlen l - chunk) as Hd.
    { unfold zlen. rewrite length_drop. unfold zlen in *. lia. }
    exists w', (frame (ch :: take (Z.to_nat chunk) l) ++ stream), cut,
      ((ch, take (Z.to_nat chunk) l) :: pkts).
    split; [done|]. split; [by rewrite H2, Hout, <-!app_assoc|].
    split.
    { eapply demux_fuel_mono; [|apply demux_frame; [lia|apply H3]].
      rewrite length_app. unfold frame, pkt_header. simpl. lia. }
    split; [constructor; simpl; [split; [done|lia]|done]|].
    split.
    { rewrite fmap_cons. cbn [concat snd]. rewrite H5.
      replace (Z.to_nat (k - written))
        with (Z.to_nat chunk + Z.to_nat (k - (written + chunk)))%nat by lia.
      by rewrite take_take_drop. }
    split; [lia|]. destruct H7 as [(? & ? & ?)|?]; [left; repeat split; auto; lia|auto].
  - simplify_eq. exists w1, [], cut, []. rewrite Z.sub_diag.
    split; [done|]. split; [done|]. split; [done|]. split; [constructor|].
    split; [done|]. split; [lia|by right].
Qed.

(** ** Properties *)

(** Pkt-line round trip.  [writePktLine] succeeds exactly on payloads of
    at most 65531 bytes, and then what it wrote is read back by
    [readPktLineV2], whatever follows on the wire, as the same payload; a
    longer payload is refused before anything is written. *)
Theorem writePktLine_roundtrip (payload : string) (out : bytes) :
  match writePktLine (Some (buffer out)) payload with
  | (Some w', Ok _) =>
    zlen (bytes_of payload) ≤ 65531 ∧
    ∃ enc, w_out w' = out ++ enc ∧
      ∀ rest, readPktLineV2 (enc ++ rest) = Ok (payload, PktData, rest)
  | (Some w', Err e) =>
    e = ErrPktTooLong (zlen (bytes_of payload) + 4) ∧ w' = buffer out ∧
    65531 < zlen (bytes_of payload)
  | _ => False
  end.
Proof.
  change (writePktLine ?w payload) with (writePktLineBytes w (bytes_of payload)).
  destruct (Z.le_gt_cases (zlen (bytes_of payload)) 65531) as [H|H].
  - rewrite writePktLineBytes_buffer by lia. split; [done|].
    eexists; split; [done|]. intros rest.
    rewrite readPktLineV2_frame by lia. by rewrite string_of_bytes_of.
  - unfold writePktLineBytes. rewrite (proj2 (Z.ltb_lt _ _)) by lia.
    repeat split; lia.
Qed.

(** C24: The side-band writer.  Whatever prefix of its output the connection
    accepts, [Write] answers the number of payload bytes it framed in whole
    packets: de-framing the output gives packets of its channel, none empty
    and none above [maxData], whose contents concatenate to exactly those
    bytes; without a write error that is all of [p]. *)
Theorem sideBandWriter_Write_demux (w : writer) (maxData : Z) (ch : byte) (p : bytes) :
  0 < maxData ≤ 65530 →
  let '(s', k, r) := sideBandWriter_Write (mk_sideBandWriter (Some w) maxData ch) p in
  ∃ w' stream cut pkts,
    sb_w s' = Some w' ∧ w_out w' = w_out w ++ stream ++ cut ∧
    demux (length stream) stream = Some pkts ∧
    Forall (λ pkt, pkt.1 = ch ∧ 1 ≤ zlen pkt.2 ≤ maxData) pkts ∧
    concat (pkts.*2) = take (Z.to_nat k) p ∧ 0 ≤ k ≤ zlen p ∧
    ((r = Ok () ∧ k = zlen p ∧ cut = []) ∨ r = Err (ErrIO ErrShortWrite)).
Proof.
  intros Hmax. destruct (sideBandWriter_Write _ p) as [[s' k] r] eqn:E.
  apply sideBandWriter_loop_spec in E as (w' & stream & cut & pkts & H); [|done..].
  rewrite Z.sub_0_r in H. exists w', stream, cut, pkts. exact H.
Qed.

Lemma sideBandWriter_Write_demux_witness :
  let w := mk_writer [] (Some 12%nat) in
  let s := mk_sideBandWriter (Some w) 2 Byte.x01 in
  (sideBandWriter_Write s (bytes_of "hello")).1.2 = 2 ∧
  ∃ pkts : list (byte * bytes), concat (pkts.*2) = bytes_of "he".
Proof.
  split; [reflexivity|].
  destruct (sideBandWriter_Write_demux (mk_writer [] (Some 12%nat)) 2 Byte.x01
    (bytes_of "hello") ltac:(lia)) as (w' & stream & cut & pkts & H).
  exists pkts. apply H.
Defined.
