(* ===== verification/Delta.v ===== *)
(** * Git delta compression (kailab/sshserver/delta.go, gitpack_parse.go)

    The encoder [GenerateDelta] with its block index, and the decoder
    [applyDelta]. *)

From S2P Require Import Prelude.
Local Open Scope Z_scope.

(** ** The encoder *)

Definition minMatchSize : Z := 4.
Definition blockSize : Z := 16.
Definition maxChainLength : nat := 64.

(** [table] is empty for the nil table of a source below one block. *)
Record deltaIndex := mk_deltaIndex {
  di_src : bytes;
  di_table : list Z;
  di_next : list Z;
  di_mask : Z;
}.

(** The arithmetic of [h*31 + int(data[i])] wraps at 64 bits. *)
Definition hashBlock (data : bytes) : Z :=
  Z.land (foldl (λ h b, i64 (h * 31 + int_of_byte b)) 0 (take 16 data)) 0x7FFFFFFF.

(** [for tableSize < len(src)/blockSize { tableSize <<= 1 }] *)
Fixpoint table_size_loop (fuel : nat) (tableSize n : Z) : Z :=
  match fuel with
  | O => tableSize
  | S fuel => if tableSize <? n then table_size_loop fuel (Z.shiftl tableSize 1) n
              else tableSize
  end.

Definition index_block {E} (src : bytes) (mask : Z) (st : list Z * list Z) (i : Z)
  : res E (list Z * list Z) :=
  let '(table, next) := st in
  let h := hashBlock (drop (Z.to_nat i) src) in
  let tIdx := Z.land h mask in
  old ← or_panic (go_index table tIdx);
  next ← or_panic (go_store next i old);
  table ← or_panic (go_store table tIdx i);
  Ok (table, next).

Definition newDeltaIndex {E} (src : bytes) : res E deltaIndex :=
  if zlen src <? blockSize then Ok (mk_deltaIndex src [] [] 0)
  else
    let tableSize := table_size_loop 64 1 (zlen src `quot` blockSize) in
    let tableSize := if tableSize <? 256 then 256 else tableSize in
    let mask := tableSize - 1 in
    let table := replicate (Z.to_nat tableSize) (-1) in
    let next := replicate (Z.to_nat (zlen src - blockSize + 1)) (-1) in
    '(table, next) ← foldM (index_block src mask) (table, next)
                       (seqZ 0 (zlen src - blockSize + 1));
    Ok (mk_deltaIndex src table next mask).

(** Length of the common prefix: the loop of [matchLength], whose bound
    [maxLen] is the shorter of the two remainders. *)
Fixpoint common_prefix (a b : bytes) : Z :=
  match a, b with
  | x :: a, y :: b => if decide (x = y) then 1 + common_prefix a b else 0
  | _, _ => 0
  end.

Definition matchLength (idx : deltaIndex) (srcOff : Z) (tgt : bytes) (tgtOff : Z) : Z :=
  common_prefix (drop (Z.to_nat srcOff) (di_src idx)) (drop (Z.to_nat tgtOff) tgt).

(** The chain walk; [fuel] is [maxChainLength - chainLen]. *)
Fixpoint findMatch_loop {E} (fuel : nat) (idx : deltaIndex) (tgt : bytes)
    (tgtOff srcOff bestSrcOff bestLen : Z) : res E (Z * Z) :=
  match fuel with
  | O => Ok (bestSrcOff, bestLen)
  | S fuel =>
    if srcOff <? 0 then Ok (bestSrcOff, bestLen)
    else
      let matchLen := matchLength idx srcOff tgt tgtOff in
      let '(bestSrcOff, bestLen) :=
        if bestLen <? matchLen then (srcOff, matchLen) else (bestSrcOff, bestLen) in
      srcOff ← or_panic (go_index (di_next idx) srcOff);
      findMatch_loop fuel idx tgt tgtOff srcOff bestSrcOff bestLen
  end.

Definition findMatch {E} (idx : deltaIndex) (tgt : bytes) (tgtOff : Z) : res E (Z * Z) :=
  if bool_decide (di_table idx = []) || (zlen tgt <? tgtOff + blockSize)
  then Ok (-1, 0)
  else
    let h := hashBlock (drop (Z.to_nat tgtOff) tgt) in
    srcOff ← or_panic (go_index (di_table idx) (Z.land h (di_mask idx)));
    '(bestSrcOff, bestLen) ← findMatch_loop maxChainLength idx tgt tgtOff srcOff (-1) 0;
    if bestLen <? minMatchSize then Ok (-1, 0) else Ok (bestSrcOff, bestLen).

(** The variable-length size: seven bits a byte, low bits first. *)
Fixpoint deltaEncodeSize_loop (fuel : nat) (c size : Z) : bytes :=
  match fuel with
  | O => []
  | S fuel => if 0 <? size
              then byte_of_int (Z.lor c 0x80)
                     :: deltaEncodeSize_loop fuel (Z.land size 0x7f) (Z.shiftr size 7)
              else [byte_of_int c]
  end.
Definition deltaEncodeSize (size : Z) : bytes :=
  deltaEncodeSize_loop 10 (Z.land size 0x7f) (Z.shiftr size 7).

Fixpoint encodeInsert_loop (fuel : nat) (data : bytes) : bytes :=
  match fuel with
  | O => []
  | S fuel =>
    match data with
    | [] => []
    | _ :: _ => let n := Z.min (zlen data) 127 in
                byte_of_int n :: take (Z.to_nat n) data
                  ++ encodeInsert_loop fuel (drop (Z.to_nat n) data)
    end
  end.
Definition encodeInsert (data : bytes) : bytes := encodeInsert_loop (length data) data.

(** [if x&mask != 0 { cmd |= bit }] *)
Definition flag (x mask bit : Z) : Z := if Z.land x mask =? 0 then 0 else bit.

Definition encodeCopy_cmd (offset size : Z) : Z :=
  let cmd := Z.lor 0x80 (flag offset 0xff 0x01) in
  let cmd := Z.lor cmd (flag offset 0xff00 0x02) in
  let cmd := Z.lor cmd (flag offset 0xff0000 0x04) in
  let cmd := Z.lor cmd (flag offset 0xff000000 0x08) in
  if size =? 0x10000 then cmd
  else
    let cmd := Z.lor cmd (flag size 0xff 0x10) in
    let cmd := Z.lor cmd (flag size 0xff00 0x20) in
    Z.lor cmd (flag size 0xff0000 0x40).

(** [if cmd&bit != 0 { buf = append(buf, byte(x>>sh)) }] *)
Definition emit (cmd bit x sh : Z) : bytes :=
  if Z.land cmd bit =? 0 then [] else [byte_of_int (Z.shiftr x sh)].

Definition encodeCopy (offset size : Z) : bytes :=
  let cmd := encodeCopy_cmd offset size in
  byte_of_int cmd
    :: emit cmd 0x01 offset 0 ++ emit cmd 0x02 offset 8
    ++ emit cmd 0x04 offset 16 ++ emit cmd 0x08 offset 24
    ++ emit cmd 0x10 size 0 ++ emit cmd 0x20 size 8 ++ emit cmd 0x40 size 16.

(** The main loop of [GenerateDelta]: it advances by at least one byte. *)
Fixpoint generate_loop {E} (fuel : nat) (idx : deltaIndex) (tgt : bytes)
    (tgtOff : Z) (insertBuf delta : bytes) : res E (bytes * bytes) :=
  if tgtOff <? zlen tgt then
    match fuel with
    | O => Panic
    | S fuel =>
      '(srcOff, matchLen) ← findMatch idx tgt tgtOff;
      if minMatchSize <=? matchLen then
        let '(delta, insertBuf) :=
          if 0 <? zlen insertBuf then (delta ++ encodeInsert insertBuf, [])
          else (delta, insertBuf) in
        generate_loop fuel idx tgt (tgtOff + matchLen) insertBuf
          (delta ++ encodeCopy srcOff matchLen)
      else
        b ← or_panic (go_index tgt tgtOff);
        let insertBuf := insertBuf ++ [b] in
        if zlen insertBuf =? 127
        then generate_loop fuel idx tgt (tgtOff + 1) [] (delta ++ encodeInsert insertBuf)
        else generate_loop fuel idx tgt (tgtOff + 1) insertBuf delta
    end
  else Ok (insertBuf, delta).

(** A nil delta is [None]. *)
Definition GenerateDelta {E} (src tgt : bytes) : res E (option bytes) :=
  if zlen tgt <? 16 then Ok None
  else if (0 <? zlen src) && (zlen tgt <? zlen src `quot` 16) then Ok None
  else
    idx ← newDeltaIndex src;
    if bool_decide (di_table idx = []) then Ok None
    else
      let delta := deltaEncodeSize (zlen src) ++ deltaEncodeSize (zlen tgt) in
      '(insertBuf, delta) ← generate_loop (length tgt) idx tgt 0 [] delta;
      let delta := if 0 <? zlen insertBuf then delta ++ encodeInsert insertBuf
                   else delta in
      if zlen tgt <=? zlen delta + 20 then Ok None else Ok (Some delta).

(** ** The decoder *)

Inductive delta_error :=
| ErrDeltaTooShort
| ErrBaseSizeMismatch (expected got : Z)
| ErrCopyPastBase
| ErrInsertPastDelta.

(** [delta[offset]; offset++]: the unread part of [delta] loses its head; past
    the end the index expression panics. *)
Definition next_byte {E} (rest : bytes) : res E (Z * bytes) :=
  match rest with [] => Panic | b :: rest => Ok (int_of_byte b, rest) end.

Fixpoint readDeltaSize_loop {E} (data : bytes) (size shift : Z) : res E (Z * bytes) :=
  match data with
  | [] => Panic
  | b :: data =>
    let size := Z.lor size (i64 (Z.shiftl (Z.land (int_of_byte b) 0x7f) shift)) in
    if Z.land (int_of_byte b) 0x80 =? 0 then Ok (size, data)
    else readDeltaSize_loop data size (shift + 7)
  end.
(** Answers the size and the bytes after it. *)
Definition readDeltaSize {E} (data : bytes) : res E (Z * bytes) :=
  readDeltaSize_loop data 0 0.

(** [if cmd&bit != 0 { acc |= int(delta[offset]) << sh; offset++ }] *)
Definition read_field {E} (cmd bit sh : Z) (st : Z * bytes) : res E (Z * bytes) :=
  let '(acc, rest) := st in
  if Z.land cmd bit =? 0 then Ok (acc, rest)
  else '(b, rest) ← next_byte rest; Ok (Z.lor acc (Z.shiftl b sh), rest).

Definition read_copy {E} (cmd : Z) (rest : bytes) : res E (Z * Z * bytes) :=
  st ← read_field cmd 0x01 0 (0, rest);
  st ← read_field cmd 0x02 8 st;
  st ← read_field cmd 0x04 16 st;
  '(copyOffset, rest) ← read_field cmd 0x08 24 st;
  st ← read_field cmd 0x10 0 (0, rest);
  st ← read_field cmd 0x20 8 st;
  '(copySize, rest) ← read_field cmd 0x40 16 st;
  Ok (copyOffset, if copySize =? 0 then 0x10000 else copySize, rest).

(** The instruction loop, on the unread part of the delta. *)
Fixpoint applyDelta_loop (fuel : nat) (base rest result : bytes) : res delta_error bytes :=
  match rest with
  | [] => Ok result
  | c :: rest =>
    match fuel with
    | O => Panic
    | S fuel =>
      let cmd := int_of_byte c in
      if negb (Z.land cmd 0x80 =? 0) then
        '(copyOffset, copySize, rest) ← read_copy cmd rest;
        _ ← guard_err (zlen base <? copyOffset + copySize) ErrCopyPastBase;
        part ← or_panic (go_slice base copyOffset (copyOffset + copySize));
        applyDelta_loop fuel base rest (result ++ part)
      else if negb (cmd =? 0) then
        _ ← guard_err (zlen rest <? cmd) ErrInsertPastDelta;
        part ← or_panic (go_slice rest 0 cmd);
        applyDelta_loop fuel base (drop (Z.to_nat cmd) rest) (result ++ part)
      else applyDelta_loop fuel base rest result
    end
  end.

(** [make([]byte, 0, n)] panics above the address space of the 64-bit
    targets. *)
Definition max_alloc : Z := 2^48.

Definition applyDelta (base delta : bytes) : res delta_error bytes :=
  _ ← guard_err (zlen delta <? 2) ErrDeltaTooShort;
  '(baseSize, rest) ← readDeltaSize delta;
  _ ← guard_err (negb (baseSize =? zlen base)) (ErrBaseSizeMismatch baseSize (zlen base));
  '(resultSize, rest) ← readDeltaSize rest;
  if (resultSize <? 0) || (max_alloc <? resultSize) then Panic
  else applyDelta_loop (length rest) base rest [].

(** ** Variable-length sizes *)

Lemma readDeltaSize_encode_loop {E} fuel c size acc shift rest :
  0 ≤ c < 128 → 0 ≤ size < 2 ^ (7 * (Z.of_nat fuel - 1)) → (0 < fuel)%nat →
  0 ≤ shift → 0 ≤ acc < 2^shift → (c + size * 128) * 2^shift < 2^63 →
  @readDeltaSize_loop E (deltaEncodeSize_loop fuel c size ++ rest) acc shift
  = Ok (acc + (c + size * 128) * 2^shift, rest).
Proof.
  revert c size acc shift. induction fuel as [|fuel IH];
    intros c size acc shift Hc Hs Hf Hsh Ha Hb; [lia|].
  assert (0 < 2^shift) by (apply Z.pow_pos_nonneg; lia).
  assert (i64 (Z.shiftl c shift) = Z.shiftl c shift) as Hi.
  { apply i64_small. rewrite Z.shiftl_mul_pow2 by lia. nia. }
  cbn [deltaEncodeSize_loop]. destruct (0 <? size) eqn:Es; bool_to_prop;
    destruct (cont_bit c Hc) as (K1 & K2 & K3 & K4 & K5).
  - cbn [app readDeltaSize_loop]. rewrite int_of_byte_of_int.
    rewrite K1, (Z.mod_small (c + 128)), K2, K4 by lia.
    rewrite Hi, lor_shiftl_add by lia.
    change 0x7f with (2^7 - 1). rewrite land_mask, shiftr_div by lia.
    destruct (decide (fuel = O)) as [->|]. { simpl in Hs. lia. }
    assert (2 ^ (7 * (Z.of_nat (S fuel) - 1)) = 2 ^ (7 * (Z.of_nat fuel - 1)) * 2^7) as Hp.
    { rewrite <-Z.pow_add_r by lia. f_equal. lia. }
    rewrite IH; rewrite ?Z.pow_add_r by lia; [|lia_div| |lia|lia| |].
    + do 2 f_equal. change (2^7) with 128. pose proof (Z.div_mod size 128). nia.
    + rewrite Hp in Hs. split; [apply Z.div_pos; lia|].
      apply Z.div_lt_upper_bound; lia.
    + change (2^7) with 128. nia.
    + change (2^7) with 128. pose proof (Z.div_mod size 128). nia.
  - assert (size = 0) as -> by lia. cbn [app readDeltaSize_loop].
    rewrite int_of_byte_of_int, (Z.mod_small c) by lia.
    rewrite K3, K5.
    rewrite Hi, lor_shiftl_add by lia. do 2 f_equal. lia.
Qed.

Lemma readDeltaSize_encode {E} n rest :
  0 ≤ n < 2^63 → @readDeltaSize E (deltaEncodeSize n ++ rest) = Ok (n, rest).
Proof.
  intros Hn. unfold readDeltaSize, deltaEncodeSize.
  change 0x7f with (2^7 - 1). rewrite land_mask, shiftr_div by lia.
  pose proof (Z.div_mod n (2^7) ltac:(lia)). pose proof (Z.mod_pos_bound n (2^7) eq_refl).
  assert (0 ≤ n `div` 2^7) by (apply Z.div_pos; lia).
  generalize dependent (n `div` 2^7). generalize dependent (n `mod` 2^7).
  change (2^7) with 128. intros c Hc size Hn' Hs.
  rewrite readDeltaSize_encode_loop; change (2^0) with 1; try lia.
  do 2 f_equal. lia.
Qed.

Lemma deltaEncodeSize_nonempty n : 1 ≤ zlen (deltaEncodeSize n).
Proof.
  unfold deltaEncodeSize.
  generalize (Z.land n 0x7f), (Z.shiftr n 7). intros c m.
  change 10%nat with (S 9). generalize 9%nat. intros k.
  cbn [deltaEncodeSize_loop]. unfold zlen. destruct (0 <? m); simpl; lia.
Qed.

(** ** Copy instructions *)

Lemma land_byte_mask x sh :
  0 ≤ sh → Z.land x (Z.shiftl 255 sh) = Z.shiftl ((Z.shiftr x sh) `mod` 256) sh.
Proof.
  intros Hsh. change 256 with (2^8). rewrite <-land_mask by lia.
  change (2^8 - 1) with 255. rewrite Z.shiftl_land. apply Z.bits_inj'. intros i Hi.
  rewrite !Z.land_spec. destruct (decide (i < sh)).
  - rewrite (Z.shiftl_spec_low 255) by lia. by rewrite !andb_false_r.
  - rewrite (Z.shiftl_spec (Z.shiftr x sh)), Z.shiftr_spec by lia.
    by replace (i - sh + sh) with i by lia.
Qed.

Lemma flag_zero x sh bit :
  0 ≤ sh → bit ≠ 0 →
  flag x (Z.shiftl 255 sh) bit = 0 ↔ (Z.shiftr x sh) `mod` 256 = 0.
Proof.
  intros Hsh Hbit. unfold flag. rewrite land_byte_mask by done.
  destruct (_ =? 0) eqn:E; bool_to_prop;
    rewrite Z.shiftl_mul_pow2 in E by lia;
    assert (0 < 2^sh) by (apply Z.pow_pos_nonneg; lia).
  - split; [intros _; nia|done].
  - split; [done|]. intros H0. rewrite H0 in E. lia.
Qed.

(** Every bit of the command byte says whether its field is present. *)
Lemma encodeCopy_cmd_bits o n :
  let cmd := encodeCopy_cmd o n in
  let size_flag m bit := if n =? 0x10000 then 0 else flag n m bit in
  Z.land cmd 0x01 = flag o 0xff 0x01 ∧ Z.land cmd 0x02 = flag o 0xff00 0x02 ∧
  Z.land cmd 0x04 = flag o 0xff0000 0x04 ∧ Z.land cmd 0x08 = flag o 0xff000000 0x08 ∧
  Z.land cmd 0x10 = size_flag 0xff 0x10 ∧ Z.land cmd 0x20 = size_flag 0xff00 0x20 ∧
  Z.land cmd 0x40 = size_flag 0xff0000 0x40 ∧
  Z.land cmd 0x80 = 0x80 ∧ 0 ≤ cmd < 256.
Proof.
  cbv zeta. unfold encodeCopy_cmd, flag.
  destruct (n =? 0x10000), (Z.land o 0xff =? 0), (Z.land o 0xff00 =? 0),
    (Z.land o 0xff0000 =? 0), (Z.land o 0xff000000 =? 0),
    (Z.land n 0xff =? 0), (Z.land n 0xff00 =? 0), (Z.land n 0xff0000 =? 0);
    vm_compute; repeat split; congruence.
Qed.

Lemma read_field_emit {E} cmd bit x sh acc rest :
  (Z.land cmd bit = 0 → (Z.shiftr x sh) `mod` 256 = 0) →
  @read_field E cmd bit sh (acc, emit cmd bit x sh ++ rest)
  = Ok (Z.lor acc (Z.shiftl ((Z.shiftr x sh) `mod` 256) sh), rest).
Proof.
  intros H. unfold read_field, emit. destruct (_ =? 0) eqn:E0; bool_to_prop.
  - by rewrite H, Z.shiftl_0_l, Z.lor_0_r by done.
  - simpl. by rewrite int_of_byte_of_int.
Qed.

(** Four bytes make up an offset, three a size. *)
Lemma bytes_compose4 x :
  0 ≤ x < 2^32 →
  Z.lor (Z.lor (Z.lor (Z.lor 0 (Z.shiftl (Z.shiftr x 0 `mod` 256) 0))
    (Z.shiftl (Z.shiftr x 8 `mod` 256) 8)) (Z.shiftl (Z.shiftr x 16 `mod` 256) 16))
    (Z.shiftl (Z.shiftr x 24 `mod` 256) 24) = x.
Proof.
  intros H. rewrite Z.lor_0_l, Z.shiftl_0_r, !shiftr_div by lia.
  rewrite (lor_shiftl_add _ _ 8), (lor_shiftl_add _ _ 16), (lor_shiftl_add _ _ 24)
    by lia_div. lia_div.
Qed.

Lemma bytes_compose3 x :
  0 ≤ x < 2^24 →
  Z.lor (Z.lor (Z.lor 0 (Z.shiftl (Z.shiftr x 0 `mod` 256) 0))
    (Z.shiftl (Z.shiftr x 8 `mod` 256) 8)) (Z.shiftl (Z.shiftr x 16 `mod` 256) 16) = x.
Proof.
  intros H. rewrite Z.lor_0_l, Z.shiftl_0_r, !shiftr_div by lia.
  rewrite (lor_shiftl_add _ _ 8), (lor_shiftl_add _ _ 16) by lia_div. lia_div.
Qed.

Lemma read_copy_encode {E} o n rest :
  0 ≤ o < 2^32 → 0 < n < 2^24 →
  ∃ c body, encodeCopy o n = c :: body ∧
    Z.land (int_of_byte c) 0x80 = 0x80 ∧
    @read_copy E (int_of_byte c) (body ++ rest) = Ok (o, n, rest).
Proof.
  intros Ho Hn. unfold encodeCopy. eexists _, _. split; [done|].
  destruct (encodeCopy_cmd_bits o n) as (B1 & B2 & B3 & B4 & B5 & B6 & B7 & B8 & B9).
  set (cmd := encodeCopy_cmd o n) in *. clearbody cmd.
  rewrite int_of_byte_of_int, Z.mod_small by done. split; [done|].
  unfold read_copy. rewrite <-!app_assoc.
  rewrite read_field_emit
    by (rewrite B1; apply (flag_zero o 0); lia). res_simpl.
  rewrite read_field_emit
    by (rewrite B2; apply (flag_zero o 8); lia). res_simpl.
  rewrite read_field_emit
    by (rewrite B3; apply (flag_zero o 16); lia). res_simpl.
  rewrite read_field_emit
    by (rewrite B4; apply (flag_zero o 24); lia). res_simpl.
  rewrite bytes_compose4 by done.
  destruct (n =? 0x10000) eqn:E'; bool_to_prop.
  - unfold emit, read_field. rewrite B5, B6, B7, E'. done.
  - rewrite read_field_emit
      by (rewrite B5; apply (flag_zero n 0); lia). res_simpl.
    rewrite read_field_emit
      by (rewrite B6; apply (flag_zero n 8); lia). res_simpl.
    rewrite read_field_emit
      by (rewrite B7; apply (flag_zero n 16); lia). res_simpl.
    rewrite (bytes_compose3 n) by lia.
    by rewrite (proj2 (Z.eqb_neq n 0)) by lia.
Qed.

(** ** The instruction stream *)

(** More fuel than unread bytes changes nothing. *)
Lemma read_field_length {E} cmd bit sh acc rest v rest' :
  @read_field E cmd bit sh (acc, rest) = Ok (v, rest') → (length rest' ≤ length rest)%nat.
Proof.
  unfold read_field, next_byte. intros H. repeat case_match; res_inv; simplify_eq/=; lia.
Qed.

Lemma read_copy_length {E} cmd rest o n rest' :
  @read_copy E cmd rest = Ok (o, n, rest') → (length rest' ≤ length rest)%nat.
Proof.
  unfold read_copy. intros H.
  repeat match goal with
  | H : _ ≫= _ = Ok _ |- _ => apply bind_ok_inv in H as ([??] & ? & H)
  end. simplify_eq.
  repeat match goal with
  | H : read_field _ _ _ _ = Ok _ |- _ => apply read_field_length in H
  end. lia.
Qed.

Lemma applyDelta_loop_fuel base fuel fuel' rest result :
  (length rest ≤ fuel)%nat → (length rest ≤ fuel')%nat →
  applyDelta_loop fuel base rest result = applyDelta_loop fuel' base rest result.
Proof.
  revert fuel' rest result. induction fuel as [|fuel IH]; intros fuel' rest result H H'.
  { destruct rest; [by destruct fuel'|simpl in H; lia]. }
  destruct rest as [|c rest]; [by destruct fuel'|].
  destruct fuel' as [|fuel']; [simpl in H'; lia|]. simpl in H, H'. simpl.
  case_match.
  - destruct (read_copy _ rest) as [[[o n] rest']| |] eqn:Er; [|done..].
    apply read_copy_length in Er. simpl.
    destruct (guard_err _ _); [|done..]. simpl.
    destruct (or_panic _); [|done..]. simpl. apply IH; lia.
  - case_match.
    + destruct (guard_err _ _); [|done..]. simpl.
      destruct (or_panic _); [|done..]. simpl.
      apply IH; rewrite length_drop; lia.
    + apply IH; lia.
Qed.

(** [instrs] makes the decoder append [part], whatever follows. *)
Definition decodes (base instrs part : bytes) : Prop :=
  ∀ rest result,
    applyDelta_loop (length (instrs ++ rest)) base (instrs ++ rest) result
    = applyDelta_loop (length rest) base rest (result ++ part).

Lemma decodes_nil base : decodes base [] [].
Proof. intros rest result. by rewrite app_nil_r. Qed.

Lemma decodes_app base i1 p1 i2 p2 :
  decodes base i1 p1 → decodes base i2 p2 → decodes base (i1 ++ i2) (p1 ++ p2).
Proof.
  intros H1 H2 rest result. rewrite <-app_assoc, H1, H2. by rewrite <-app_assoc.
Qed.

Lemma decodes_insert base data :
  0 < zlen data ≤ 127 → decodes base (encodeInsert data) data.
Proof.
  intros H rest result.
  assert (encodeInsert data = byte_of_int (zlen data) :: data) as ->.
  { unfold encodeInsert, zlen in *. destruct data as [|b data]; [simpl in H; lia|].
    cbn [length encodeInsert_loop]. unfold zlen.
    rewrite Z.min_l by (simpl in *; lia). rewrite Nat2Z.id.
    change (S (length data)) with (length (b :: data)).
    rewrite firstn_all, drop_all.
    destruct (length data); simpl; by rewrite app_nil_r. }
  cbn [app length applyDelta_loop].
  rewrite int_of_byte_of_int, Z.mod_small by lia.
  assert (Z.land (zlen data) 0x80 = 0) as ->.
  { change 0x80 with (Z.shiftl 1 7). apply land_shiftl_disjoint; lia. }
  cbn [negb Z.eqb]. rewrite (proj2 (Z.eqb_neq _ _)) by lia.
  cbn [negb]. rewrite zlen_app, (proj2 (Z.ltb_ge _ _)).
  2: { pose proof (zlen_nonneg rest). lia. }
  res_simpl. pose proof (go_slice_middle [] data rest) as Hs.
  cbn [app] in Hs. change (zlen (@nil byte)) with 0 in Hs. rewrite Z.add_0_l in Hs.
  rewrite Hs. res_simpl. unfold zlen. rewrite Nat2Z.id, drop_app_length.
  apply applyDelta_loop_fuel; rewrite ?length_app; lia.
Qed.

Lemma decodes_copy base o n part :
  0 ≤ o < 2^32 → 0 < n < 2^24 → go_slice base o (o + n) = Some part →
  decodes base (encodeCopy o n) part.
Proof.
  intros Ho Hn Hpart rest result.
  destruct (@read_copy_encode delta_error o n rest Ho Hn) as (c & body & -> & Hc & Hr).
  cbn [app length applyDelta_loop]. rewrite Hc. cbn [negb Z.eqb].
  rewrite Hr. res_simpl.
  apply go_slice_some in Hpart as Hb. rewrite (proj2 (Z.ltb_ge _ _)) by lia.
  res_simpl. rewrite Hpart. res_simpl.
  apply applyDelta_loop_fuel; rewrite ?length_app; lia.
Qed.

Create HintDb delta.
#[export] Hint Resolve decodes_nil decodes_app : delta.

(** ** The block index *)

Lemma table_size_pow2 fuel t n :
  (∃ k, 0 ≤ k ∧ t = 2^k) → ∃ k, 0 ≤ k ∧ table_size_loop fuel t n = 2^k.
Proof.
  revert t. induction fuel as [|fuel IH]; intros t Ht; [done|]. simpl.
  destruct (t <? n); [|done]. apply IH. destruct Ht as (k & Hk & ->).
  exists (k + 1). split; [lia|]. rewrite Z.shiftl_mul_pow2, Z.pow_add_r by lia. lia.
Qed.

(** Sixty-four doublings reach every slice length. *)
Lemma table_size_enough fuel t n :
  0 < t → n ≤ t * 2 ^ Z.of_nat fuel → n ≤ table_size_loop fuel t n.
Proof.
  revert t. induction fuel as [|fuel IH]; intros t Ht H; simpl; [simpl in H; lia|].
  destruct (t <? n) eqn:E; bool_to_prop; [|lia].
  apply IH; rewrite Z.shiftl_mul_pow2 by lia; [lia|].
  replace (Z.of_nat (S fuel)) with (1 + Z.of_nat fuel) in H by lia.
  rewrite Z.pow_add_r in H by lia. lia.
Qed.

(** Every chain entry is -1 or the offset of a block of the source. *)
Definition chain_ok (n : Z) (l : list Z) : Prop := Forall (λ t, -1 ≤ t < n) l.

Definition index_ok (src : bytes) (idx : deltaIndex) : Prop :=
  di_src idx = src ∧
  (di_table idx = [] ∨
   ∃ k, 0 ≤ k ∧ zlen (di_table idx) = 2^k ∧ di_mask idx = 2^k - 1 ∧
     zlen (di_next idx) ≤ zlen src ∧
     chain_ok (zlen (di_next idx)) (di_table idx) ∧
     chain_ok (zlen (di_next idx)) (di_next idx)).

Lemma zlen_replicate {A} n (x : A) : 0 ≤ n → zlen (replicate (Z.to_nat n) x) = n.
Proof. intros. unfold zlen. rewrite length_replicate. lia. Qed.

Lemma zlen_insert {A} i (x : A) l : zlen (<[i:=x]> l) = zlen l.
Proof. unfold zlen. by rewrite length_insert. Qed.

Lemma newDeltaIndex_ok {E} src :
  ∃ idx, @newDeltaIndex E src = Ok idx ∧ index_ok src idx.
Proof.
  unfold newDeltaIndex. destruct (zlen src <? blockSize) eqn:E0.
  { eexists; split; [done|]. by split; [|left]. }
  bool_to_prop. unfold blockSize in *.
  set (tableSize := if _ <? 256 then 256 else _).
  assert (∃ k, 0 ≤ k ∧ tableSize = 2^k) as (k & Hk & Ht).
  { subst tableSize. case_match; [by exists 8|].
    apply table_size_pow2. by exists 0. }
  set (n := zlen src - 16 + 1) in *.
  assert (0 < 2^k) by (apply Z.pow_pos_nonneg; lia).
  edestruct (foldM_inv (@index_block E src (tableSize - 1))
    (λ st, zlen st.1 = 2^k ∧ zlen st.2 = n ∧ chain_ok n st.1 ∧ chain_ok n st.2))
    as ([table next] & -> & H1 & H2 & H3 & H4).
  - rewrite Ht. split; [by apply zlen_replicate; lia|].
    split; [apply zlen_replicate; lia|].
    split; apply Forall_replicate; lia.
  - intros [table next] i (H1 & H2 & H3 & H4) Hi.
    apply elem_of_seqZ in Hi. unfold index_block.
    set (h := hashBlock _). rewrite Ht, land_mask by lia.
    pose proof (Z.mod_pos_bound h (2^k) ltac:(lia)) as Hm. simpl in *.
    destruct (go_index_Forall _ table (h `mod` 2^k) H3 ltac:(lia)) as (old & -> & Hold).
    res_simpl. rewrite !go_store_some by lia. res_simpl.
    eexists; split; [done|]. simpl. rewrite !zlen_insert.
    repeat split; [lia|lia|apply Forall_insert; [done|lia]..].
  - res_simpl. eexists; split; [done|]. split; [done|]. right. exists k. simpl in *.
    rewrite H2, Ht. repeat split; (done || lia).
Qed.

Lemma common_prefix_bound a b : 0 ≤ common_prefix a b ≤ Z.min (zlen a) (zlen b).
Proof.
  revert b. induction a as [|x a IH]; intros [|y b]; unfold zlen in *; simpl;
    try (split; lia). case_decide; [|lia]. specialize (IH b). lia.
Qed.

Lemma common_prefix_take a b m :
  0 ≤ m ≤ common_prefix a b → take (Z.to_nat m) a = take (Z.to_nat m) b.
Proof.
  revert b m. induction a as [|x a IH]; intros [|y b] m; simpl; intros H.
  1-3: replace (Z.to_nat m) with O by lia; by rewrite ?firstn_O.
  case_decide; [|replace (Z.to_nat m) with O by lia; done]. subst y.
  destruct (Z.to_nat m) as [|m'] eqn:Em; [done|]. simpl. f_equal.
  replace m' with (Z.to_nat (m - 1)) by lia. apply IH. lia.
Qed.

(** A reported match is one: the source part equals the target part. *)
Definition match_ok (src tgt : bytes) (tgtOff o m : Z) : Prop :=
  0 ≤ o ∧ m ≤ zlen tgt - tgtOff ∧
  go_slice src o (o + m) = Some (take (Z.to_nat m) (drop (Z.to_nat tgtOff) tgt)).

Lemma matchLength_ok src idx tgt tgtOff o :
  di_src idx = src → 0 ≤ o ≤ zlen src → 0 ≤ tgtOff ≤ zlen tgt →
  match_ok src tgt tgtOff o (matchLength idx o tgt tgtOff).
Proof.
  intros <- Ho Ht. unfold matchLength, match_ok.
  set (a := drop (Z.to_nat o) (di_src idx)). set (b := drop _ tgt).
  pose proof (common_prefix_bound a b) as Hb.
  assert (zlen a = zlen (di_src idx) - o ∧ zlen b = zlen tgt - tgtOff) as [Ha Hb'].
  { unfold zlen in *. subst a b. rewrite !length_drop. lia. }
  split; [lia|]. split; [lia|]. rewrite go_slice_in_range by lia. f_equal.
  rewrite Z.add_simpl_l. apply (common_prefix_take a b). lia.
Qed.

Lemma findMatch_loop_ok {E} fuel src idx tgt tgtOff srcOff bo bl :
  di_src idx = src → zlen (di_next idx) ≤ zlen src →
  chain_ok (zlen (di_next idx)) (di_next idx) →
  0 ≤ tgtOff ≤ zlen tgt → -1 ≤ srcOff < zlen (di_next idx) →
  0 ≤ bl → (0 < bl → match_ok src tgt tgtOff bo bl) →
  ∃ o m, @findMatch_loop E fuel idx tgt tgtOff srcOff bo bl = Ok (o, m) ∧
    0 ≤ m ∧ (0 < m → match_ok src tgt tgtOff o m).
Proof.
  intros Hsrc Hn Hc Ht. revert srcOff bo bl.
  induction fuel as [|fuel IH]; intros srcOff bo bl Hs Hbl Hm; cbn [findMatch_loop];
    [by eauto|].
  destruct (srcOff <? 0) eqn:E0; bool_to_prop; [by eauto|].
  pose proof (matchLength_ok src idx tgt tgtOff srcOff Hsrc ltac:(lia) Ht) as Hml.
  destruct (go_index_Forall _ _ srcOff Hc ltac:(lia)) as (nx & Hnx & ?).
  destruct (bl <? _) eqn:E1; bool_to_prop; rewrite Hnx; res_simpl;
    apply IH; auto; lia.
Qed.

Lemma findMatch_ok {E} src idx tgt tgtOff :
  index_ok src idx → 0 ≤ tgtOff ≤ zlen tgt →
  ∃ o m, @findMatch E idx tgt tgtOff = Ok (o, m) ∧
    (minMatchSize ≤ m → match_ok src tgt tgtOff o m).
Proof.
  intros [Hsrc Hidx] Ht. unfold findMatch.
  destruct (_ || _) eqn:E0. { eexists _, _. split; [done|]. unfold minMatchSize. lia. }
  bool_to_prop. destruct Hidx as [?|(k & Hk & H1 & H2 & H3 & H4 & H5)]; [done|].
  assert (0 < 2^k) by (apply Z.pow_pos_nonneg; lia).
  rewrite H2, land_mask by lia.
  set (h := hashBlock _). pose proof (Z.mod_pos_bound h (2^k) ltac:(lia)).
  destruct (go_index_Forall _ (di_table idx) (h `mod` 2^k) H4 ltac:(lia))
    as (s & -> & Hs). res_simpl.
  destruct (@findMatch_loop_ok E maxChainLength src idx tgt tgtOff s (-1) 0)
    as (o & m & -> & Hm & Hok); try done; try lia.
  res_simpl. destruct (m <? minMatchSize) eqn:E1; bool_to_prop.
  - eexists _, _. split; [done|]. unfold minMatchSize in *. lia.
  - eexists _, _. split; [done|]. intros. apply Hok. unfold minMatchSize in *. lia.
Qed.

(** ** The encoder's loop *)

(** After the header [hdr], the delta built so far decodes to everything before
    the pending literals. *)
Definition gen_inv (src tgt hdr : bytes) (tgtOff : Z) (insertBuf delta : bytes) : Prop :=
  0 ≤ tgtOff ≤ zlen tgt ∧ zlen insertBuf < 127 ∧
  ∃ instrs part, delta = hdr ++ instrs ∧
    part ++ insertBuf = take (Z.to_nat tgtOff) tgt ∧
    (zlen src < 2^24 → decodes src instrs part).

Lemma flush_inv src instrs part buf :
  zlen buf ≤ 127 → (zlen src < 2^24 → decodes src instrs part) →
  zlen src < 2^24 →
  decodes src (instrs ++ if 0 <? zlen buf then encodeInsert buf else []) (part ++ buf).
Proof.
  intros Hb Hd Hs. apply decodes_app; [auto|].
  destruct (0 <? zlen buf) eqn:E; bool_to_prop; [apply decodes_insert; lia|].
  unfold zlen in E. destruct buf; [|simpl in E; lia]. apply decodes_nil.
Qed.

Lemma take_add_drop {A} (l : list A) i m :
  0 ≤ i → 0 ≤ m →
  take (Z.to_nat (i + m)) l = take (Z.to_nat i) l ++ take (Z.to_nat m) (drop (Z.to_nat i) l).
Proof. intros. rewrite Z2Nat.inj_add by lia. by rewrite take_take_drop. Qed.

Lemma generate_loop_ok {E} fuel src idx tgt hdr tgtOff insertBuf delta :
  index_ok src idx → zlen tgt - tgtOff ≤ Z.of_nat fuel →
  gen_inv src tgt hdr tgtOff insertBuf delta →
  ∃ insertBuf' delta',
    @generate_loop E fuel idx tgt tgtOff insertBuf delta = Ok (insertBuf', delta') ∧
    gen_inv src tgt hdr (zlen tgt) insertBuf' delta'.
Proof.
  intros Hidx. revert tgtOff insertBuf delta.
  induction fuel as [|fuel IH]; intros tgtOff buf delta Hf Hinv;
    (destruct (tgtOff <? zlen tgt) eqn:E0; cbn [generate_loop]; rewrite E0; bool_to_prop;
     [|destruct Hinv as [? Hinv]; assert (tgtOff = zlen tgt) as -> by lia;
       eexists _, _; split; [done|by split]]); [lia|].
  destruct Hinv as (Ht & Hb & instrs & part & -> & Hpart & Hdec).
  destruct (@findMatch_ok E src idx tgt tgtOff Hidx Ht) as (o & m & -> & Hm). res_simpl.
  destruct (minMatchSize <=? m) eqn:E1; bool_to_prop; unfold minMatchSize in *.
  - destruct (Hm E1) as (Ho & Hmt & Hslice). apply go_slice_some in Hslice as Hr.
    destruct Hr as [[[Hr1 Hr2] Hr3] _].
    pose proof (flush_inv src instrs part buf ltac:(lia) Hdec) as Hflush.
    assert (gen_inv src tgt hdr (tgtOff + m) []
      ((hdr ++ instrs ++ if 0 <? zlen buf then encodeInsert buf else [])
        ++ encodeCopy o m)) as Hnext.
    { split; [lia|]. split; [done|].
      eexists _, _. rewrite <-app_assoc. split; [done|]. split.
      - rewrite app_nil_r, take_add_drop, <-Hpart by lia. reflexivity.
      - intros Hs. apply decodes_app; [by apply Hflush|].
        apply decodes_copy; [lia|lia|done]. }
    destruct (0 <? zlen buf) eqn:E2; (apply IH; [lia|]).
    + rewrite <-(app_assoc hdr). exact Hnext.
    + assert (buf = []) as ->.
      { bool_to_prop. unfold zlen in E2. destruct buf; [done|simpl in E2; lia]. }
      rewrite <-(app_nil_r instrs). exact Hnext.
  - destruct (go_index_lt tgt tgtOff ltac:(lia)) as [b Hb0]. rewrite Hb0. res_simpl.
    assert (part ++ (buf ++ [b]) = take (Z.to_nat (tgtOff + 1)) tgt) as Hpart'.
    { rewrite app_assoc, Hpart. rewrite Z2Nat.inj_add by lia. rewrite Nat.add_1_r.
      unfold go_index in Hb0. case_match; [|done]. symmetry. by apply take_S_r. }
    assert (zlen (buf ++ [b]) = zlen buf + 1) as Hlen by (rewrite zlen_app; done).
    destruct (zlen (buf ++ [b]) =? 127) eqn:E2; bool_to_prop; (apply IH; [lia|]).
    + split; [lia|]. split; [done|]. eexists _, _. rewrite <-app_assoc.
      split; [done|]. rewrite app_nil_r. split; [exact Hpart'|].
      intros Hs. apply decodes_app; [auto|]. apply decodes_insert. lia.
    + split; [lia|]. split; [lia|]. eexists _, _. split; [done|]. eauto.
Qed.

(** What [GenerateDelta] answers, apart from the decoding. *)
Lemma GenerateDelta_spec {E} src tgt :
  ∃ o, @GenerateDelta E src tgt = Ok o ∧
    ∀ d, o = Some d → zlen d + 20 < zlen tgt ∧ 16 ≤ zlen src ∧
      ∃ instrs, d = deltaEncodeSize (zlen src) ++ deltaEncodeSize (zlen tgt) ++ instrs ∧
        (zlen src < 2^24 → decodes src instrs tgt).
Proof.
  unfold GenerateDelta. destruct (zlen tgt <? 16); [by eexists|].
  destruct (_ && _); [by eexists|].
  destruct (@newDeltaIndex_ok E src) as (idx & Hnew & Hidx).
  rewrite Hnew. res_simpl. destruct (bool_decide _) eqn:Et; [by eexists|]. bool_to_prop.
  set (hdr := deltaEncodeSize (zlen src) ++ deltaEncodeSize (zlen tgt)).
  destruct (@generate_loop_ok E (length tgt) src idx tgt hdr 0 [] hdr)
    as (buf & delta & -> & _ & Hb & instrs & part & -> & Hpart & Hdec);
    [done|unfold zlen; lia| |].
  { pose proof (zlen_nonneg tgt).
    split; [lia|]. split; [done|]. exists [], []. rewrite app_nil_r.
    split; [done|]. split; [done|]. auto with delta. }
  res_simpl. set (d := if _ <? _ then _ else _).
  destruct (_ <=? _) eqn:El; [by eexists|]. bool_to_prop.
  eexists; split; [done|]. intros ? [= <-]. split; [done|]. split.
  { unfold newDeltaIndex in Hnew. case_match eqn:E0; [by simplify_eq|].
    bool_to_prop. done. }
  exists (instrs ++ if 0 <? zlen buf then encodeInsert buf else []). split.
  { subst d hdr. destruct (0 <? zlen buf); by rewrite <-!app_assoc, ?app_nil_r. }
  intros Hs. unfold zlen in Hpart. rewrite Nat2Z.id, firstn_all in Hpart.
  rewrite <-Hpart. apply flush_inv; [lia|done|done].
Qed.

(** The decoder undoes the encoder. *)
Lemma GenerateDelta_decodes {E} (src tgt : bytes) :
  ∃ o, @GenerateDelta E src tgt = Ok o ∧
    ∀ d, o = Some d →
      zlen d + 20 < zlen tgt ∧
      (zlen src < 2^24 → zlen tgt ≤ max_alloc → applyDelta src d = Ok tgt).
Proof.
  destruct (@GenerateDelta_spec E src tgt) as (o & -> & Ho).
  exists o. split; [done|]. intros d Hd.
  destruct (Ho d Hd) as (Hlen & Hsrc & instrs & -> & Hdec). split; [done|].
  intros Hs Ht. specialize (Hdec Hs). unfold applyDelta, max_alloc in *.
  pose proof (deltaEncodeSize_nonempty (zlen src)).
  pose proof (deltaEncodeSize_nonempty (zlen tgt)).
  pose proof (zlen_nonneg tgt). pose proof (zlen_nonneg instrs).
  rewrite (proj2 (Z.ltb_ge _ _)) by (rewrite !zlen_app; lia).
  res_simpl. rewrite readDeltaSize_encode by lia. res_simpl.
  rewrite Z.eqb_refl. res_simpl. rewrite readDeltaSize_encode by lia. res_simpl.
  rewrite (proj2 (Z.ltb_ge (zlen tgt) 0)), (proj2 (Z.ltb_ge (2^48) (zlen tgt))) by lia.
  cbn [orb].
  specialize (Hdec [] []). rewrite app_nil_r in Hdec. by rewrite Hdec.
Qed.

(** ** Properties *)

(** C8: delta round trip.  For every source and target, [GenerateDelta]
    returns without panicking; when it returns a delta, the delta is more than
    20 bytes shorter than the target, and - for a source below 16 MiB and a
    target that can be allocated - [applyDelta] of that delta to the source
    succeeds and gives back exactly the target. *)
Theorem GenerateDelta_roundtrip (src tgt : bytes) :
  ∃ o, @GenerateDelta delta_error src tgt = Ok o ∧
    ∀ d, o = Some d →
      zlen d + 20 < zlen tgt ∧
      (zlen src < 2^24 → zlen tgt ≤ max_alloc → applyDelta src d = Ok tgt).
Proof. apply GenerateDelta_decodes. Qed.

(** The size field of a copy instruction has three bytes, and
    [encodeCopy] does not split longer matches: a match of exactly 16 MiB is
    encoded as the instruction that copies 64 KiB. *)
Theorem encodeCopy_truncates (rest : bytes) :
  ∃ c body, encodeCopy 0 0x1000000 = c :: body ∧
    @read_copy delta_error (int_of_byte c) (body ++ rest) = Ok (0, 0x10000, rest).
Proof. eexists _, _. split; reflexivity. Qed.

(** [applyDelta] indexes the delta without a bounds check.  A delta that
    ends inside a size or inside a copy instruction panics instead of
    returning an error. *)
Theorem applyDelta_panics_on_truncated (base : bytes) :
  zlen base = 5 →
  applyDelta base [byte_of_int 5; byte_of_int 0x85] = Panic ∧
  applyDelta base [byte_of_int 5; byte_of_int 5; byte_of_int 0x91; byte_of_int 0] = Panic.
Proof. intros H. unfold applyDelta. rewrite H. split; reflexivity. Qed.

Lemma applyDelta_panics_on_truncated_witness :
  let base := bytes_of "hello" in
  zlen base = 5 ∧
  applyDelta base [byte_of_int 5; byte_of_int 0x85] = Panic.
Proof.
  split; [reflexivity|].
  apply (applyDelta_panics_on_truncated (bytes_of "hello")). reflexivity.
Defined.

(** The encoder and the decoder at work on a small target. *)
Example GenerateDelta_example :
  let src := bytes_of "the quick brown fox jumps over the lazy dog, twice" in
  let tgt := bytes_of "see: the quick brown fox jumps over the lazy dog, twice!" in
  (o ← @GenerateDelta delta_error src tgt;
   match o with
   | Some d => r ← applyDelta src d; Ok (length d, r)
   | None => Panic
   end) = Ok (12%nat, tgt).
Proof. vm_compute. reflexivity. Qed.
