(* ===== verification/Sha1.v ===== *)
(** * SHA-1 (crypto/sha1 of the Go standard library)

    The digest that names git objects, executable so that object identifiers
    can be evaluated. *)

From S2P Require Import Prelude.
Local Open Scope Z_scope.

Definition rotl32 (n x : Z) : Z :=
  Z.lor (u32 (Z.shiftl x n)) (Z.shiftr x (32 - n)).
Definition not32 (x : Z) : Z := Z.lxor x 0xffffffff.

(** Big-endian encodings of [n] bytes. *)
Definition be_bytes (n : nat) (x : Z) : bytes :=
  (λ i, byte_of_int (Z.shiftr x (8 * Z.of_nat (n - 1 - i)%nat))) <$> seq 0 n.
Definition be_value (l : bytes) : Z :=
  foldl (λ acc b, acc * 256 + int_of_byte b) 0 l.

Definition sha1_pad (msg : bytes) : bytes :=
  let zeros := (55 - zlen msg) `mod` 64 in
  msg ++ [Byte.x80] ++ replicate (Z.to_nat zeros) Byte.x00 ++ be_bytes 8 (zlen msg * 8).

(** Cut into words of four bytes; an incomplete last group is dropped. *)
Fixpoint be_words (l : bytes) : list Z :=
  match l with
  | a :: b :: c :: d :: l => be_value [a; b; c; d] :: be_words l
  | _ => []
  end.

(** The message schedule, newest word first. *)
Fixpoint sha1_schedule (n : nat) (w : list Z) : list Z :=
  match n with
  | O => w
  | S n =>
    let x := Z.lxor (Z.lxor (nth 2 w 0) (nth 7 w 0)) (Z.lxor (nth 13 w 0) (nth 15 w 0)) in
    sha1_schedule n (rotl32 1 x :: w)
  end.

Definition sha1_fk (t : nat) (b c d : Z) : Z * Z :=
  if (t <? 20)%nat then (Z.lor (Z.land b c) (Z.land (not32 b) d), 0x5A827999)
  else if (t <? 40)%nat then (Z.lxor (Z.lxor b c) d, 0x6ED9EBA1)
  else if (t <? 60)%nat then
    (Z.lor (Z.lor (Z.land b c) (Z.land b d)) (Z.land c d), 0x8F1BBCDC)
  else (Z.lxor (Z.lxor b c) d, 0xCA62C1D6).

Definition sha1_state : Type := Z * Z * Z * Z * Z.

Definition sha1_round (st : sha1_state) (tw : nat * Z) : sha1_state :=
  let '(a, b, c, d, e) := st in
  let '(t, w) := tw in
  let '(f, k) := sha1_fk t b c d in
  (u32 (rotl32 5 a + f + e + k + w), a, rotl32 30 b, c, d).

Definition sha1_block (h : sha1_state) (block : list Z) : sha1_state :=
  let w := rev (sha1_schedule 64 (rev block)) in
  let '(h0, h1, h2, h3, h4) := h in
  let '(a, b, c, d, e) := foldl sha1_round h (combine (seq 0 80) w) in
  (u32 (h0 + a), u32 (h1 + b), u32 (h2 + c), u32 (h3 + d), u32 (h4 + e)).

Fixpoint sha1_blocks (fuel : nat) (h : sha1_state) (ws : list Z) : sha1_state :=
  match fuel with
  | O => h
  | S fuel => match ws with
              | [] => h
              | _ => sha1_blocks fuel (sha1_block h (take 16 ws)) (drop 16 ws)
              end
  end.

Definition sha1 (msg : bytes) : bytes :=
  let ws := be_words (sha1_pad msg) in
  let '(h0, h1, h2, h3, h4) := sha1_blocks (length ws)
    (0x67452301, 0xEFCDAB89, 0x98BADCFE, 0x10325476, 0xC3D2E1F0) ws in
  be_bytes 4 h0 ++ be_bytes 4 h1 ++ be_bytes 4 h2 ++ be_bytes 4 h3 ++ be_bytes 4 h4.

Lemma length_be_bytes n x : length (be_bytes n x) = n.
Proof. unfold be_bytes. by rewrite length_fmap, length_seq. Qed.

Lemma length_sha1 msg : length (sha1 msg) = 20%nat.
Proof.
  unfold sha1. destruct (sha1_blocks _ _ _) as [[[[h0 h1] h2] h3] h4].
  by rewrite !length_app, !length_be_bytes.
Qed.

(** The value of a big-endian encoding. *)
Lemma be_value_snoc l b : be_value (l ++ [b]) = be_value l * 256 + int_of_byte b.
Proof. unfold be_value. by rewrite foldl_app. Qed.

Lemma be_bytes_S n x : be_bytes (S n) x = be_bytes n (Z.shiftr x 8) ++ [byte_of_int x].
Proof.
  unfold be_bytes. rewrite seq_S, fmap_app. f_equal.
  - apply list_fmap_ext. intros i j Hij.
    apply lookup_seq in Hij as [-> Hi]. simpl.
    f_equal. rewrite Z.shiftr_shiftr by lia. f_equal. lia.
  - simpl. do 2 f_equal. rewrite <-(Z.shiftr_0_r x) at 2. f_equal. lia.
Qed.

Lemma be_value_bytes n x : 0 ≤ x < 256 ^ Z.of_nat n → be_value (be_bytes n x) = x.
Proof.
  revert x. induction n as [|n IH]; intros x Hx.
  { change (256 ^ Z.of_nat 0) with 1 in Hx. unfold be_value. simpl. lia. }
  rewrite be_bytes_S, be_value_snoc, int_of_byte_of_int, IH.
  - rewrite shiftr_div by lia. change (2^8) with 256. lia_div.
  - rewrite shiftr_div by lia. change (2^8) with 256.
    rewrite Nat2Z.inj_succ, Z.pow_succ_r in Hx by lia. lia_div.
Qed.

(** Published test vectors. *)
Example sha1_abc :
  hex_encode (sha1 (bytes_of "abc")) = "a9993e364706816aba3e25717850c26c9cd0d89d".
Proof. vm_compute. reflexivity. Qed.
Example sha1_two_blocks :
  hex_encode (sha1 (bytes_of "abcdbcdecdefdefgefghfghighijhijkijkljklmklmnlmnomnopnopq"))
  = "84983e441c3bd26ebaae4aa1f95129e5e54670f1".
Proof. vm_compute. reflexivity. Qed.
