(* ===== verification/Sha256.v ===== *)
(** * SHA-256 (crypto/sha256 of the Go standard library)

    The digest that the merge engine compares units by ([sha256.Sum256]),
    executable like the one of [Sha1]. *)

From S2P Require Import Prelude Sha1.
Local Open Scope Z_scope.

Definition rotr32 (n x : Z) : Z := rotl32 (32 - n) x.
Definition xor3 (a b c : Z) : Z := Z.lxor (Z.lxor a b) c.

(** The round constants are the first 32 bits behind the point of the cube
    roots of the first 64 primes, the initial state those of the square roots
    of the first eight. *)
Fixpoint cube_root (bits : nat) (root n : Z) : Z :=
  match bits with
  | O => root
  | S bits =>
    let up := root + 2 ^ Z.of_nat bits in
    cube_root bits (if up * up * up <=? n then up else root) n
  end.
Definition is_prime (p : nat) : bool :=
  forallb (λ d, negb (p mod d =? 0)%nat) (seq 2 (p - 2)).
Definition first_primes : list Z := Z.of_nat <$> List.filter is_prime (seq 2 310).

Definition sha256_k : list Z := Eval vm_compute in
  (λ p, u32 (cube_root 36 0 (p * 2 ^ 96))) <$> first_primes.
Definition sha256_init : list Z := Eval vm_compute in
  (λ p, u32 (Z.sqrt (p * 2 ^ 64))) <$> take 8 first_primes.

(** The message schedule, newest word first. *)
Fixpoint sha256_schedule (n : nat) (w : list Z) : list Z :=
  match n with
  | O => w
  | S n =>
    let w15 := nth 14 w 0 in
    let w2 := nth 1 w 0 in
    let s0 := xor3 (rotr32 7 w15) (rotr32 18 w15) (Z.shiftr w15 3) in
    let s1 := xor3 (rotr32 17 w2) (rotr32 19 w2) (Z.shiftr w2 10) in
    sha256_schedule n (u32 (nth 15 w 0 + s0 + nth 6 w 0 + s1) :: w)
  end.

Definition sha256_state : Type := Z * Z * Z * Z * Z * Z * Z * Z.

Definition sha256_round (st : sha256_state) (kw : Z * Z) : sha256_state :=
  let '(a, b, c, d, e, f, g, h) := st in
  let '(k, w) := kw in
  let s1 := xor3 (rotr32 6 e) (rotr32 11 e) (rotr32 25 e) in
  let ch := Z.lxor (Z.land e f) (Z.land (not32 e) g) in
  let t1 := h + s1 + ch + k + w in
  let s0 := xor3 (rotr32 2 a) (rotr32 13 a) (rotr32 22 a) in
  let maj := xor3 (Z.land a b) (Z.land a c) (Z.land b c) in
  (u32 (t1 + s0 + maj), a, b, c, u32 (d + t1), e, f, g).

Definition sha256_block (st : sha256_state) (block : list Z) : sha256_state :=
  let w := rev (sha256_schedule 48 (rev block)) in
  let '(h0, h1, h2, h3, h4, h5, h6, h7) := st in
  let '(a, b, c, d, e, f, g, h) := foldl sha256_round st (combine sha256_k w) in
  (u32 (h0 + a), u32 (h1 + b), u32 (h2 + c), u32 (h3 + d),
   u32 (h4 + e), u32 (h5 + f), u32 (h6 + g), u32 (h7 + h)).

Fixpoint sha256_blocks (fuel : nat) (st : sha256_state) (ws : list Z) : sha256_state :=
  match fuel with
  | O => st
  | S fuel => match ws with
              | [] => st
              | _ => sha256_blocks fuel (sha256_block st (take 16 ws)) (drop 16 ws)
              end
  end.

(** The padding is the one of SHA-1, and the fuel is the number of words:
    every round takes sixteen of them. *)
Definition Sum256 (msg : bytes) : bytes :=
  let ws := be_words (sha1_pad msg) in
  let init i := nth i sha256_init 0 in
  let '(h0, h1, h2, h3, h4, h5, h6, h7) := sha256_blocks (length ws)
    (init 0%nat, init 1%nat, init 2%nat, init 3%nat,
     init 4%nat, init 5%nat, init 6%nat, init 7%nat) ws in
  mjoin (be_bytes 4 <$> [h0; h1; h2; h3; h4; h5; h6; h7]).

Lemma length_Sum256 msg : length (Sum256 msg) = 32%nat.
Proof.
  unfold Sum256. destruct (sha256_blocks _ _ _) as [[[[[[[h0 h1] h2] h3] h4] h5] h6] h7].
  cbn [fmap list_fmap mjoin list_join]. by rewrite !length_app, !length_be_bytes.
Qed.

(** Published test vectors. *)
Example Sum256_abc : hex_encode (Sum256 (bytes_of "abc"))
  = "ba7816bf8f01cfea414140de5dae2223b00361a396177a9cb410ff61f20015ad".
Proof. vm_compute. reflexivity. Qed.
Example Sum256_two_blocks :
  hex_encode (Sum256 (bytes_of "abcdbcdecdefdefgefghfghighijhijkijkljklmklmnlmnomnopnopq"))
  = "248d6a61d20638b8e5c026930c3e6039a33ce45964ff2167f6ecedd419db06c1".
Proof. vm_compute. reflexivity. Qed.
