(* ===== verification/GitPack.v ===== *)
(** * Git pack files (kailab/sshserver/gitpack.go, gitpack_parse.go)

    The writer of version-2 packs, with and without REF_DELTA entries, and the
    parser that resolves deltas.  zlib streams are abstracted by [Zlib]. *)

From S2P Require Import Prelude Sha1 PktLine Delta.
Local Open Scope Z_scope.

(** ** Data *)

Definition ObjectCommit : Z := 1.
Definition ObjectTree : Z := 2.
Definition ObjectBlob : Z := 3.
Definition ObjectRefDelta : Z := 7.

Record GitObject := mk_GitObject { go_Type : Z; go_Data : bytes; go_OID : string }.

#[export] Instance GitObject_eq_dec : EqDecision GitObject.
Proof. solve_decision. Defined.

(** A candidate without a delta has [None]. *)
Record DeltaCandidate := mk_DeltaCandidate {
  dc_Object : GitObject; dc_BaseOID : string; dc_Delta : option bytes }.

Inductive pack_error :=
| ErrPackTooShort
| ErrPackHeader
| ErrPackVersion (v : Z)
| ErrTruncatedPack (i : Z)
| ErrDecompress (i : Z)
| ErrTruncatedOfs
| ErrTruncatedRefBase
| ErrUnsupportedType (t : Z)
| ErrApplyDelta (e : delta_error)
| ErrInvalidBaseOID (oid : string)
| ErrPackIO (e : pkt_error).

(** ** The zlib library

    [deflate d] is what a [zlib.Writer] emits for [d] when closed;
    [zread s] is what reading a [zlib.Reader] on [s] to its end gives: the
    bytes produced and whether the stream ended well, or [None] when the
    two-byte header is refused. *)
Class Zlib := {
  deflate : bytes → bytes;
  zread : bytes → option (bytes * bool);
}.

(** RFC 1950: a stream is self-delimiting, no proper prefix of it is complete,
    and header, block and checksum take at least six bytes. *)
Class ZlibLaws `{Zlib} := {
  zread_deflate d rest : zread (deflate d ++ rest) = Some (d, true);
  zread_prefix d i : (i < length (deflate d))%nat →
    ∀ out, zread (take i (deflate d)) ≠ Some (out, true);
  deflate_length d : (6 ≤ length (deflate d))%nat;
}.

(** ** Object headers and identifiers *)

Fixpoint encodeObjectHeader_loop (fuel : nat) (size : Z) : bytes :=
  match fuel with
  | O => []
  | S fuel =>
    if 0 <? size then
      let b := Z.land size 0x7f in
      let size := Z.shiftr size 7 in
      let b := if 0 <? size then Z.lor b 0x80 else b in
      byte_of_int b :: encodeObjectHeader_loop fuel size
    else []
  end.

(** [byte(objType<<4) | byte(size&0x0f)], then seven bits a byte. *)
Definition encodeObjectHeader (objType size : Z) : bytes :=
  let first := Z.lor (Z.shiftl objType 4 `mod` 256) (Z.land size 0x0f) in
  let size := Z.shiftr size 4 in
  let first := if 0 <? size then Z.lor first 0x80 else first in
  byte_of_int first :: encodeObjectHeader_loop 10 size.

Fixpoint parsePackObjectHeader_loop {E} (b : Z) (data : bytes) (size shift headerLen : Z)
  : res E (Z * Z) :=
  if Z.land b 0x80 =? 0 then Ok (size, headerLen)
  else match data with
       | [] => Panic
       | c :: data =>
         let b := int_of_byte c in
         parsePackObjectHeader_loop b data
           (Z.lor size (i64 (Z.shiftl (Z.land b 0x7f) shift))) (shift + 7) (headerLen + 1)
       end.

(** Answers type, size and header length; running off the data panics. *)
Definition parsePackObjectHeader {E} (data : bytes) : res E (Z * Z * Z) :=
  match data with
  | [] => Panic
  | c :: data =>
    let b := int_of_byte c in
    let objType := Z.land (Z.shiftr b 4) 0x07 in
    '(size, headerLen) ← parsePackObjectHeader_loop b data (Z.land b 0x0f) 4 1;
    Ok (objType, size, headerLen)
  end.

(** [fmt.Sprintf("%s %d\x00", kind, len(data))] followed by the data *)
Definition git_object_bytes (kind : string) (data : bytes) : bytes :=
  bytes_of kind ++ bytes_of " " ++ bytes_of (pretty (length data)) ++ [Byte.x00] ++ data.

Definition computeGitOIDBytes (kind : string) (data : bytes) : bytes :=
  sha1 (git_object_bytes kind data).
Definition computeGitOID (kind : string) (data : bytes) : string :=
  hex_encode (sha1 (git_object_bytes kind data)).

Definition type_name (objType : Z) : string :=
  if objType =? ObjectCommit then "commit"
  else if objType =? ObjectTree then "tree"
  else if objType =? ObjectBlob then "blob"
  else "".

Definition makeGitObject (objType : Z) (data : bytes) : GitObject :=
  mk_GitObject objType data (computeGitOID (type_name objType) data).

Definition emptyTreeOID : string := "4b825dc642cb6eb9a060e54bf8d69288fbee4904".
Definition buildEmptyTreeObject : GitObject := mk_GitObject ObjectTree [] emptyTreeOID.

Definition newline : string := String (Ascii.ascii_of_nat 10) EmptyString.

Definition buildCommitObject (refName targetHex treeOID : string) : GitObject :=
  let body :=
    "tree " +:+ treeOID +:+ newline
    +:+ "author Kai <kai@local> 0 +0000" +:+ newline
    +:+ "committer Kai <kai@local> 0 +0000" +:+ newline +:+ newline
    +:+ "Kai ref " +:+ refName +:+ newline
    +:+ (if decide (targetHex = "") then "" else "target " +:+ targetHex +:+ newline) in
  let data := bytes_of body in
  mk_GitObject ObjectCommit data (computeGitOID "commit" data).

(** ** The writer *)

Definition pack_header (count : Z) : bytes :=
  bytes_of "PACK" ++ [Byte.x00; Byte.x00; Byte.x00; Byte.x02]
  ++ [byte_of_int (Z.shiftr count 24); byte_of_int (Z.shiftr count 16);
      byte_of_int (Z.shiftr count 8); byte_of_int count].

(** The final writes of a finished buffer and its checksum. *)
Definition finish_pack `{IoWriter W} (w : W) (buf : bytes) : W * res pack_error () :=
  match io_write buf w with
  | (w1, Ok _) => let '(w2, r) := io_write (sha1 buf) w1 in (w2, map_err ErrPackIO r)
  | (w1, r) => (w1, map_err ErrPackIO r)
  end.

Definition writeEmptyPack `{IoWriter W} (w : W) : W * res pack_error () :=
  finish_pack w (bytes_of "PACK" ++ [Byte.x00; Byte.x00; Byte.x00; Byte.x02;
                                     Byte.x00; Byte.x00; Byte.x00; Byte.x00]).

Section pack.
Context `{Zlib}.

(** A [bytes.Buffer] never fails: the writers return what they append. *)
Definition writePackObject (buf : bytes) (obj : GitObject) : res pack_error bytes :=
  if negb (go_Type obj =? ObjectCommit) && negb (go_Type obj =? ObjectTree)
     && negb (go_Type obj =? ObjectBlob)
  then Err (ErrUnsupportedType (go_Type obj))
  else
    let size := zlen (go_Data obj) in
    let header := encodeObjectHeader (go_Type obj) size in
    Ok (buf ++ header ++ deflate (go_Data obj)).

Definition writePackRefDelta (buf : bytes) (baseOID : string) (delta : bytes)
  : res pack_error bytes :=
  match hex_decode baseOID with
  | Some baseBytes =>
    if negb (zlen baseBytes =? 20) then Err (ErrInvalidBaseOID baseOID)
    else
      let header := encodeObjectHeader ObjectRefDelta (zlen delta) in
      Ok (buf ++ header ++ baseBytes ++ deflate delta)
  | None => Err (ErrInvalidBaseOID baseOID)
  end.

Definition writePack `{IoWriter W} (w : W) (objects : list GitObject)
  : W * res pack_error () :=
  let count := u32 (zlen objects) in
  match foldM writePackObject (pack_header count) objects with
  | Ok buf => finish_pack w buf
  | Err e => (w, Err e)
  | Panic => (w, Panic)
  end.

Definition write_candidate (buf : bytes) (cand : DeltaCandidate) : res pack_error bytes :=
  match dc_Delta cand with
  | Some delta =>
    if decide (dc_BaseOID cand = "") then writePackObject buf (dc_Object cand)
    else writePackRefDelta buf (dc_BaseOID cand) delta
  | None => writePackObject buf (dc_Object cand)
  end.

Definition writePackWithDeltas `{IoWriter W} (w : W) (candidates : list DeltaCandidate)
  : W * res pack_error () :=
  let count := u32 (zlen candidates) in
  match foldM write_candidate (pack_header count) candidates with
  | Ok buf => finish_pack w buf
  | Err e => (w, Err e)
  | Panic => (w, Panic)
  end.

(** ** The parser *)

(** The first length from [i] at which a prefix reads to its end. *)
Fixpoint findZlibEnd_loop (fuel i : nat) (data : bytes) : nat :=
  match fuel with
  | O => length data
  | S fuel =>
    if (i <=? length data)%nat then
      match zread (take i data) with
      | Some (_, true) => i
      | _ => findZlibEnd_loop fuel (S i) data
      end
    else length data
  end.

Definition findZlibEnd (data : bytes) : nat :=
  if (length data <? 6)%nat then length data
  else match zread data with
       | None => length data
       | Some _ => findZlibEnd_loop (length data) 6 data
       end.

(** [io.ReadFull] of [expectedSize] bytes from the stream; an immediate end
    of the stream is tolerated and gives no bytes. *)
Definition zlibDecompress (data : bytes) (expectedSize : Z) : res () (bytes * Z) :=
  match zread data with
  | None => Err ()
  | Some (out, clean) =>
    if (expectedSize <? 0) || (max_alloc <? expectedSize) then Panic
    else if expectedSize <=? zlen out then
      Ok (take (Z.to_nat expectedSize) out, Z.of_nat (findZlibEnd data))
    else if clean && bool_decide (out = []) then Ok ([], Z.of_nat (findZlibEnd data))
    else Err ()
  end.

(** A delta waiting for its base; [d_startOffset] and [d_baseOffset] are
    recorded for OFS_DELTA entries and never used. *)
Record deltaObject := mk_deltaObject {
  d_deltaType : Z; d_baseOffset : Z; d_baseOID : string;
  d_deltaData : bytes; d_startOffset : Z }.

(** The bytes of an OFS_DELTA offset: value and bytes read. *)
Fixpoint read_ofs (data : bytes) (deltaOffset shift : Z) (n : Z)
  : res pack_error (Z * Z) :=
  match data with
  | [] => Err ErrTruncatedOfs
  | c :: data =>
    let b := int_of_byte c in
    let deltaOffset := Z.lor deltaOffset (i64 (Z.shiftl (Z.land b 0x7f) shift)) in
    if Z.land b 0x80 =? 0 then Ok (deltaOffset, n + 1)
    else read_ofs data (i64 (deltaOffset + 1)) (shift + 7) (n + 1)
  end.

Definition parse_state : Type := gmap string GitObject * list deltaObject * Z.

(** [data[offset:]] *)
Definition tail_from (data : bytes) (offset : Z) : res pack_error bytes :=
  or_panic (go_slice data offset (zlen data)).

(** One turn of the object loop. *)
Definition parse_object (data : bytes) (st : parse_state) (i : nat)
  : res pack_error parse_state :=
  let '(objects, deltas, offset) := st in
  _ ← guard_err (zlen data - 20 <=? offset) (ErrTruncatedPack (Z.of_nat i));
  head ← tail_from data offset;
  '(objType, size, headerLen) ← parsePackObjectHeader head;
  let offset := offset + headerLen in
  if bool_decide (objType ∈ [1; 2; 3]) then
    rest ← tail_from data offset;
    '(content, consumed) ← map_err (λ _, ErrDecompress (Z.of_nat i))
                             (zlibDecompress rest size);
    let obj := makeGitObject objType content in
    Ok (<[go_OID obj := obj]> objects, deltas, offset + consumed)
  else if objType =? 6 then
    rest ← tail_from data offset;
    '(deltaOffset, n) ← read_ofs rest 0 0 0;
    let offset := offset + n in
    rest ← tail_from data offset;
    '(content, consumed) ← map_err (λ _, ErrDecompress (Z.of_nat i))
                             (zlibDecompress rest size);
    let offset := offset + consumed in
    Ok (objects, deltas ++ [mk_deltaObject 6 deltaOffset "" content
                              (offset - consumed - headerLen)], offset)
  else if objType =? 7 then
    _ ← guard_err (zlen data <? offset + 20) ErrTruncatedRefBase;
    base ← or_panic (go_slice data offset (offset + 20));
    let offset := offset + 20 in
    rest ← tail_from data offset;
    '(content, consumed) ← map_err (λ _, ErrDecompress (Z.of_nat i))
                             (zlibDecompress rest size);
    Ok (objects, deltas ++ [mk_deltaObject 7 0 (hex_encode base) content 0],
        offset + consumed)
  else Err (ErrUnsupportedType objType).

(** Resolution of one delta; a base that is not found skips it. *)
Definition resolve_delta (existingObjects : gmap string GitObject)
    (objects : gmap string GitObject) (delta : deltaObject)
  : res pack_error (gmap string GitObject) :=
  let found :=
    if d_deltaType delta =? 7 then
      match objects !! d_baseOID delta with
      | Some b => Some b
      | None => existingObjects !! d_baseOID delta
      end
    else None in
  match found with
  | None => Ok objects
  | Some baseObj =>
    result ← map_err ErrApplyDelta (applyDelta (go_Data baseObj) (d_deltaData delta));
    let obj := makeGitObject (go_Type baseObj) result in
    Ok (<[go_OID obj := obj]> objects)
  end.

(** A nil map of existing objects finds nothing, like the empty one. *)
Definition parseGitPackInternal (data : bytes) (existingObjects : gmap string GitObject)
  : res pack_error (gmap string GitObject) :=
  _ ← guard_err (zlen data <? 12) ErrPackTooShort;
  magic ← or_panic (go_slice data 0 4);
  _ ← guard_err (bool_decide (magic ≠ bytes_of "PACK")) ErrPackHeader;
  version ← be_value <$> or_panic (go_slice data 4 8);
  _ ← guard_err (negb (version =? 2)) (ErrPackVersion version);
  numObjects ← be_value <$> or_panic (go_slice data 8 12);
  '(objects, deltas, _) ← foldM (parse_object data) (∅, [], 12)
                            (seq 0 (Z.to_nat numObjects));
  foldM (resolve_delta existingObjects) objects deltas.

Definition parseGitPackWithBases (data : bytes) (existingObjects : gmap string GitObject)
  : res pack_error (gmap string GitObject) :=
  parseGitPackInternal data existingObjects.

Definition parseGitPack (data : bytes) : res pack_error (gmap string GitObject) :=
  parseGitPackInternal data ∅.
End pack.

(** ** Headers *)

Lemma parse_header_loop {E} fuel b size acc shift hl rest :
  (Z.land b 0x80 =? 0) = negb (0 <? size) →
  0 ≤ size < 2 ^ (7 * Z.of_nat fuel) → 0 ≤ shift → 0 ≤ acc < 2^shift →
  size * 2^shift < 2^63 →
  @parsePackObjectHeader_loop E b (encodeObjectHeader_loop fuel size ++ rest) acc shift hl
  = Ok (acc + size * 2^shift, hl + zlen (encodeObjectHeader_loop fuel size)).
Proof.
  revert b size acc shift hl.
  induction fuel as [|fuel IH]; intros b size acc shift hl Hb Hs Hsh Ha Hm.
  { change (2 ^ (7 * Z.of_nat 0)) with 1 in Hs. assert (size = 0) as -> by lia.
    destruct rest; cbn [encodeObjectHeader_loop app parsePackObjectHeader_loop];
      rewrite Hb; simpl; do 2 f_equal; unfold zlen; simpl; lia. }
  cbn [encodeObjectHeader_loop]. destruct (0 <? size) eqn:Es; bool_to_prop.
  2: { assert (size = 0) as -> by lia.
    destruct rest; cbn [app parsePackObjectHeader_loop]; rewrite Hb; simpl;
      do 2 f_equal; unfold zlen; simpl; lia. }
  assert (0 < 2^shift) by (apply Z.pow_pos_nonneg; lia).
  assert (2 ^ (7 * Z.of_nat (S fuel)) = 2 ^ (7 * Z.of_nat fuel) * 128) as Hp.
  { change 128 with (2^7). rewrite <-Z.pow_add_r by lia. f_equal. lia. }
  change 0x7f with (2^7 - 1). rewrite !land_mask, !shiftr_div by lia.
  pose proof (Z.div_mod size (2^7) ltac:(lia)) as Hd.
  pose proof (Z.mod_pos_bound size (2^7) eq_refl) as Hmod.
  assert (0 ≤ size `div` 2^7) by (apply Z.div_pos; lia).
  generalize dependent (size `div` 2^7). generalize dependent (size `mod` 2^7).
  change (2^7) with 128. intros c Hc q Hd Hq.
  set (b' := if 0 <? q then Z.lor c 128 else c).
  cbn [app parsePackObjectHeader_loop]. rewrite Hb. cbn [negb].
  destruct (cont_bit c Hc) as (K1 & K2 & K3 & K4 & K5).
  assert (int_of_byte (byte_of_int b') = b' ∧ Z.land b' 0x7f = c ∧
          (Z.land b' 0x80 =? 0) = negb (0 <? q)) as (-> & B2 & B3).
  { rewrite int_of_byte_of_int. subst b'.
    destruct (0 <? q); rewrite ?K1, ?K2, ?K3, ?K4, ?K5, Z.mod_small by lia; done. }
  change (128 - 1) with 0x7f. rewrite B2.
  rewrite i64_small by (rewrite Z.shiftl_mul_pow2 by lia; nia).
  rewrite lor_shiftl_add by lia.
  rewrite IH; [|done|nia|lia| |]; rewrite ?Z.pow_add_r by lia; change (2^7) with 128.
  - rewrite zlen_cons. do 2 f_equal; nia.
  - nia.
  - nia.
Qed.

Lemma parsePackObjectHeader_encode {E} t n rest :
  0 ≤ t < 8 → 0 ≤ n < 2^63 →
  @parsePackObjectHeader E (encodeObjectHeader t n ++ rest)
  = Ok (t, n, zlen (encodeObjectHeader t n)).
Proof.
  intros Ht Hn. unfold encodeObjectHeader, parsePackObjectHeader.
  change 0x0f with (2^4 - 1). rewrite land_mask, !shiftr_div by lia.
  pose proof (Z.div_mod n (2^4) ltac:(lia)) as Hd.
  pose proof (Z.mod_pos_bound n (2^4) eq_refl) as Hmod.
  assert (0 ≤ n `div` 2^4) by (apply Z.div_pos; lia).
  generalize dependent (n `div` 2^4). generalize dependent (n `mod` 2^4).
  change (2^4) with 16. intros r Hr q Hd Hq.
  assert (Z.lor (Z.shiftl t 4 `mod` 256) r = r + t * 16) as ->.
  { rewrite Z.mod_small by (rewrite Z.shiftl_mul_pow2 by lia; change (2^4) with 16; lia).
    rewrite Z.lor_comm, lor_shiftl_add; lia. }
  destruct (cont_bit (r + t * 16) ltac:(lia)) as (K1 & K2 & K3 & K4 & K5).
  set (b := if 0 <? q then _ else _).
  assert (int_of_byte (byte_of_int b) = b ∧ Z.land b 0x0f = r ∧
    Z.land (b `div` 16) 7 = t ∧ (Z.land b 0x80 =? 0) = negb (0 <? q)) as (B1 & B2 & B3 & B4).
  { rewrite int_of_byte_of_int. subst b. change 0x0f with (2^4 - 1).
    change 7 with (2^3 - 1). rewrite !land_mask by lia.
    destruct (0 <? q); rewrite ?K1, ?K4, ?K5; (split; [lia_div|]); (split; [lia_div|]);
      (split; [lia_div|done]). }
  cbn [app]. change (16 - 1) with 0x0f. rewrite B1, B2, !shiftr_div by lia. change (2^4) with 16. rewrite B3.
  rewrite parse_header_loop; [|done| |lia|change (2^4) with 16; lia|].
  - res_simpl. rewrite zlen_cons. do 3 f_equal. lia.
  - change (2 ^ (7 * Z.of_nat 10)) with (2^70). lia.
  - change (2^4) with 16. lia.
Qed.

(** ** Reading back what was written *)

(** How the writer encodes one candidate. *)
Definition as_delta (c : DeltaCandidate) : option bytes :=
  match dc_Delta c with
  | Some d => if decide (dc_BaseOID c = "") then None else Some d
  | None => None
  end.

(** Objects as the server builds them: named by their own hash. *)
Definition valid_object (o : GitObject) : Prop :=
  go_Type o ∈ [ObjectCommit; ObjectTree; ObjectBlob] ∧
  go_OID o = computeGitOID (type_name (go_Type o)) (go_Data o) ∧
  zlen (go_Data o) ≤ max_alloc.

(** A delta names its base by a 20-byte hash in lower-case hexadecimal. *)
Definition valid_candidate (c : DeltaCandidate) : Prop :=
  match as_delta c with
  | Some d => zlen d ≤ max_alloc ∧ ∃ h, length h = 20%nat ∧ dc_BaseOID c = hex_encode h
  | None => valid_object (dc_Object c)
  end.

Definition delta_of (c : DeltaCandidate) (d : bytes) : deltaObject :=
  mk_deltaObject 7 0 (dc_BaseOID c) d 0.

Definition full_objects (cands : list DeltaCandidate) : list GitObject :=
  dc_Object <$> filter (λ c, as_delta c = None) cands.
Definition delta_objects (cands : list DeltaCandidate) : list deltaObject :=
  omap (λ c, delta_of c <$> as_delta c) cands.
Definition insert_object (m : gmap string GitObject) (o : GitObject) : gmap string GitObject :=
  <[go_OID o := o]> m.

Lemma base_type_range t : t ∈ [ObjectCommit; ObjectTree; ObjectBlob] → 0 ≤ t < 8.
Proof.
  intros Ht. repeat (apply elem_of_cons in Ht as [->|Ht]; [done|]).
  by apply elem_of_nil in Ht.
Qed.

Section roundtrip.
Context `{ZlibLaws}.

Lemma findZlibEnd_loop_deflate fuel i d rest :
  (i ≤ length (deflate d))%nat → (length (deflate d) < i + fuel)%nat →
  findZlibEnd_loop fuel i (deflate d ++ rest) = length (deflate d).
Proof.
  revert i. induction fuel as [|fuel IH]; intros i Hi Hf; [lia|]. simpl.
  rewrite (proj2 (Nat.leb_le _ _)) by (rewrite length_app; lia).
  rewrite take_length_app_le by done.
  destruct (decide (i = length (deflate d))) as [->|Hne].
  - rewrite firstn_all. pose proof (zread_deflate d []) as Hz.
    rewrite app_nil_r in Hz. by rewrite Hz.
  - assert (i < length (deflate d))%nat as Hlt by lia.
    pose proof (zread_prefix d i Hlt) as Hz.
    destruct (zread _) as [[out []]|]; [by destruct (Hz out)|apply IH; lia..].
Qed.

Lemma zlibDecompress_deflate d rest :
  zlen d ≤ max_alloc →
  zlibDecompress (deflate d ++ rest) (zlen d) = Ok (d, zlen (deflate d)).
Proof.
  intros Hd. pose proof (zlen_nonneg d). pose proof (deflate_length d).
  unfold zlibDecompress, findZlibEnd. rewrite zread_deflate.
  rewrite (proj2 (Z.ltb_ge (zlen d) 0)), (proj2 (Z.ltb_ge max_alloc _)), Z.leb_refl by done.
  cbn [orb]. rewrite (proj2 (Nat.ltb_ge _ _)) by (rewrite length_app; lia).
  rewrite findZlibEnd_loop_deflate by (rewrite ?length_app; lia).
  unfold zlen. by rewrite Nat2Z.id, firstn_all.
Qed.

Lemma tail_from_app a b : tail_from (a ++ b) (zlen a) = Ok b.
Proof. unfold tail_from. by rewrite go_slice_tail. Qed.

Definition candidate_bytes (c : DeltaCandidate) : bytes :=
  match as_delta c with
  | Some d => encodeObjectHeader ObjectRefDelta (zlen d)
                ++ default [] (hex_decode (dc_BaseOID c)) ++ deflate d
  | None => encodeObjectHeader (go_Type (dc_Object c)) (zlen (go_Data (dc_Object c)))
              ++ deflate (go_Data (dc_Object c))
  end.

Lemma write_candidate_bytes buf c :
  valid_candidate c → write_candidate buf c = Ok (buf ++ candidate_bytes c).
Proof.
  unfold valid_candidate, write_candidate, candidate_bytes, as_delta.
  intros Hv. assert (as_delta c = None → valid_object (dc_Object c) →
    writePackObject buf (dc_Object c) = Ok (buf ++ encodeObjectHeader (go_Type (dc_Object c))
      (zlen (go_Data (dc_Object c))) ++ deflate (go_Data (dc_Object c)))) as Hfull.
  { intros _ (Ht & _ & _). unfold writePackObject.
    set (t := go_Type (dc_Object c)) in *.
    repeat (apply elem_of_cons in Ht as [Ht|Ht]; [rewrite Ht; done|]).
    by apply elem_of_nil in Ht. }
  unfold as_delta in *. destruct (dc_Delta c) as [d|]; [|by apply Hfull].
  destruct (decide _); [by apply Hfull|].
  destruct Hv as (_ & h & Hh & Hb). unfold writePackRefDelta.
  rewrite Hb, hex_decode_encode. unfold zlen at 1. by rewrite Hh.
Qed.

Lemma candidate_bytes_pos c : 0 < zlen (candidate_bytes c).
Proof.
  unfold candidate_bytes, encodeObjectHeader.
  destruct (as_delta c); cbn [app]; rewrite zlen_cons;
    match goal with |- context [zlen ?l] => pose proof (zlen_nonneg l) end; lia.
Qed.

(** One turn of the parser's loop undoes one [write_candidate]. *)
Lemma parse_object_candidate pre c rest objects deltas i :
  valid_candidate c → 20 ≤ zlen rest →
  parse_object (pre ++ candidate_bytes c ++ rest) (objects, deltas, zlen pre) i
  = Ok (match as_delta c with
        | Some d => (objects, deltas ++ [delta_of c d])
        | None => (insert_object objects (dc_Object c), deltas)
        end, zlen (pre ++ candidate_bytes c)).
Proof.
  intros Hv Hrest. pose proof (candidate_bytes_pos c) as Hpos. unfold parse_object.
  rewrite (proj2 (Z.leb_gt _ _)) by (rewrite !zlen_app; lia).
  res_simpl. rewrite tail_from_app. res_simpl. clear Hpos.
  unfold valid_candidate in Hv. unfold candidate_bytes.
  destruct (as_delta c) as [d|] eqn:Ed.
  - destruct Hv as (Hd & h & Hh & Hb). rewrite Hb, hex_decode_encode. change (default [] (Some h)) with h.
    set (hdr := encodeObjectHeader ObjectRefDelta (zlen d)).
    pose proof (zlen_nonneg d).
    assert (∀ r, @parsePackObjectHeader pack_error (hdr ++ r)
      = Ok (ObjectRefDelta, zlen d, zlen hdr)) as Hp.
    { intros r. apply parsePackObjectHeader_encode; [done|unfold max_alloc in *; lia]. }
    rewrite <-!app_assoc, Hp. res_simpl.
    change (bool_decide (ObjectRefDelta ∈ [1; 2; 3])) with false.
    change (ObjectRefDelta =? 6) with false. change (ObjectRefDelta =? 7) with true.
    cbv iota. rewrite <-zlen_app, (app_assoc pre hdr).
    assert (zlen h = 20) as Hz by (unfold zlen; lia).
    rewrite (proj2 (Z.ltb_ge _ _)) by (rewrite !zlen_app; pose proof (zlen_nonneg (deflate d)); lia).
    res_simpl. rewrite <-Hz, go_slice_middle. res_simpl.
    rewrite <-zlen_app, (app_assoc _ h), tail_from_app. res_simpl.
    rewrite zlibDecompress_deflate by done. res_simpl.
    unfold delta_of. rewrite Hb. do 2 f_equal. by rewrite <-zlen_app, <-!app_assoc.
  - destruct Hv as (Ht & Hoid & Hd). set (o := dc_Object c) in *.
    set (hdr := encodeObjectHeader (go_Type o) (zlen (go_Data o))).
    pose proof (zlen_nonneg (go_Data o)).
    assert (0 ≤ go_Type o < 8).
    { by apply base_type_range. }
    assert (∀ r, @parsePackObjectHeader pack_error (hdr ++ r)
      = Ok (go_Type o, zlen (go_Data o), zlen hdr)) as Hp.
    { intros r. apply parsePackObjectHeader_encode; [done|unfold max_alloc in *; lia]. }
    rewrite <-!app_assoc, Hp. res_simpl. rewrite bool_decide_eq_true_2 by done.
    rewrite <-zlen_app, (app_assoc pre hdr), tail_from_app. res_simpl.
    rewrite zlibDecompress_deflate by done. res_simpl.
    rewrite <-zlen_app, <-!app_assoc. do 3 f_equal.
    unfold insert_object, makeGitObject. cbn [go_OID]. rewrite <-Hoid. by destruct o.
Qed.

Lemma parse_objects_candidates cands pre trailer objects deltas k :
  Forall valid_candidate cands → 20 ≤ zlen trailer →
  foldM (parse_object (pre ++ concat (candidate_bytes <$> cands) ++ trailer))
    (objects, deltas, zlen pre) (seq k (length cands))
  = Ok (foldl insert_object objects (full_objects cands),
        deltas ++ delta_objects cands,
        zlen (pre ++ concat (candidate_bytes <$> cands))).
Proof.
  intros Hv Ht. revert pre objects deltas k.
  induction Hv as [|c cands Hc Hv IH]; intros pre objects deltas k.
  { cbn. by rewrite !app_nil_r. }
  rewrite fmap_cons. cbn [length seq foldM concat]. rewrite <-app_assoc.
  rewrite parse_object_candidate; [|done|].
  2: { rewrite zlen_app. pose proof (zlen_nonneg (concat (candidate_bytes <$> cands))). lia. }
  res_simpl. rewrite (app_assoc pre), (app_assoc pre).
  unfold full_objects, delta_objects in *. rewrite filter_cons.
  destruct (as_delta c) as [d|] eqn:Ed; rewrite IH; cbn [omap list_omap]; rewrite Ed.
  - rewrite decide_False by done. cbn. by rewrite <-app_assoc.
  - rewrite decide_True by done. done.
Qed.

Lemma pack_header_parse count :
  0 ≤ count < 2^32 →
  ∃ c4, pack_header count = bytes_of "PACK" ++ [Byte.x00; Byte.x00; Byte.x00; Byte.x02] ++ c4 ∧
    length c4 = 4%nat ∧ be_value c4 = count.
Proof.
  intros Hc. eexists. split; [reflexivity|]. split; [done|].
  unfold be_value. simpl. rewrite !int_of_byte_of_int, !shiftr_div by lia. lia_div.
Qed.

(** Parsing a written pack is parsing its candidates one by one. *)
Lemma parse_written cands existing :
  Forall valid_candidate cands → zlen cands < 2^32 →
  ∀ trailer, length trailer = 20%nat →
  parseGitPackInternal (pack_header (zlen cands) ++ concat (candidate_bytes <$> cands)
                          ++ trailer) existing
  = foldM (resolve_delta existing) (foldl insert_object ∅ (full_objects cands))
      (delta_objects cands).
Proof.
  intros Hv Hn trailer Ht. pose proof (zlen_nonneg cands).
  destruct (pack_header_parse (zlen cands) ltac:(lia)) as (c4 & Hh & Hc4 & Hval).
  set (body := concat (candidate_bytes <$> cands)).
  assert (zlen (pack_header (zlen cands)) = 12) as H12.
  { rewrite Hh. unfold zlen. rewrite !length_app, Hc4. done. }
  assert (∀ (a b c : bytes) lo hi, zlen a = lo → zlen b = hi - lo →
    go_slice (a ++ b ++ c) lo hi = Some b) as Hslice.
  { intros a b c lo hi <- Hb. rewrite <-(go_slice_middle a b c). f_equal. lia. }
  set (data := pack_header (zlen cands) ++ body ++ trailer).
  assert (go_slice data 0 4 = Some (bytes_of "PACK") ∧
    go_slice data 4 8 = Some [Byte.x00; Byte.x00; Byte.x00; Byte.x02] ∧
    go_slice data 8 12 = Some c4 ∧ 12 ≤ zlen data) as (S1 & S2 & S3 & Hlen).
  { subst data. rewrite Hh, <-!app_assoc. split; [by apply (Hslice [])|].
    split; [by apply (Hslice (bytes_of "PACK"))|]. split.
    - rewrite (app_assoc (bytes_of "PACK")).
      apply Hslice; [done|unfold zlen; lia].
    - rewrite !zlen_app. pose proof (zlen_nonneg body). unfold zlen at 1 2 3 5.
      rewrite Hc4, Ht. simpl. lia. }
  unfold parseGitPackInternal. rewrite (proj2 (Z.ltb_ge _ _)) by done.
  rewrite S1, S2, S3. res_simpl.
  rewrite bool_decide_eq_false_2 by (by intros []). res_simpl.
  change (negb (be_value [Byte.x00; Byte.x00; Byte.x00; Byte.x02] =? 2)) with false.
  res_simpl. rewrite Hval. unfold zlen at 1. rewrite Nat2Z.id, <-H12. subst data body.
  rewrite parse_objects_candidates by (done || unfold zlen; lia).
  done.
Qed.
End roundtrip.

(** ** A codec that satisfies the laws

    It stores every byte behind a marker; it stands in for zlib where a pack
    is evaluated. *)
Fixpoint stored_body (d : bytes) : bytes :=
  match d with
  | [] => [Byte.x00; Byte.x00; Byte.x00; Byte.x00]
  | b :: d => Byte.x01 :: b :: stored_body d
  end.
Fixpoint stored_read (s : bytes) : bytes * bool :=
  match s with
  | Byte.x01 :: b :: s => let '(out, ok) := stored_read s in (b :: out, ok)
  | Byte.x00 :: _ :: _ :: _ :: _ => ([], true)
  | _ => ([], false)
  end.

#[local] Instance stored_zlib : Zlib := {
  deflate d := Byte.x78 :: Byte.x01 :: stored_body d;
  zread s := match s with
             | Byte.x78 :: Byte.x01 :: s => Some (stored_read s)
             | _ => None
             end;
}.

Lemma stored_read_prefix d i :
  (i < length (stored_body d))%nat → (stored_read (take i (stored_body d))).2 = false.
Proof.
  revert i. induction d as [|b d IH]; intros i Hi; simpl in Hi.
  - destruct i as [|[|[|[|i]]]]; [done..|lia].
  - destruct i as [|[|i]]; [done..|]. simpl.
    specialize (IH i ltac:(lia)). by destruct (stored_read _).
Qed.

#[local] Instance stored_zlib_laws : ZlibLaws.
Proof.
  split.
  - intros d rest. simpl. f_equal. induction d as [|b d IH]; [done|]. simpl.
    by rewrite IH.
  - intros d i Hi out. destruct i as [|[|i]]; [done..|]. simpl in *.
    intros [= H]. pose proof (stored_read_prefix d i ltac:(lia)) as Hp. by rewrite H in Hp.
  - intros d. simpl. assert (4 ≤ length (stored_body d))%nat; [|lia].
    induction d; simpl; lia.
Qed.

(** ** Properties *)

Section properties.
Context `{ZlibLaws}.

Lemma finish_pack_buffer out buf :
  finish_pack (buffer out) buf = (buffer (out ++ buf ++ sha1 buf), Ok ()).
Proof. unfold finish_pack. simpl. unfold buffer. by rewrite <-app_assoc. Qed.

Lemma writePackWithDeltas_buffer out cands :
  Forall valid_candidate cands → zlen cands < 2^32 →
  ∃ trailer, length trailer = 20%nat ∧
    writePackWithDeltas (buffer out) cands
    = (buffer (out ++ pack_header (zlen cands) ++ concat (candidate_bytes <$> cands)
                 ++ trailer), Ok ()).
Proof.
  intros Hv Hn. pose proof (zlen_nonneg cands).
  eexists. split; [|unfold writePackWithDeltas; rewrite u32_small by lia].
  2: { rewrite (foldM_append _ candidate_bytes), finish_pack_buffer, <-app_assoc; [done|].
       intros s c Hc. apply write_candidate_bytes. rewrite Forall_forall in Hv. auto. }
  apply length_sha1.
Qed.

(** A full pack is one whose candidates have no delta. *)
Definition full_candidate (o : GitObject) : DeltaCandidate := mk_DeltaCandidate o "" None.

Lemma writePack_full `{IoWriter W} (w : W) objs :
  writePack w objs = writePackWithDeltas w (full_candidate <$> objs).
Proof.
  unfold writePack, writePackWithDeltas. unfold zlen. rewrite length_fmap.
  assert (∀ buf, foldM writePackObject buf objs
                 = foldM write_candidate buf (full_candidate <$> objs)) as ->; [|done].
  induction objs as [|o objs IH]; intros buf; [done|]. rewrite fmap_cons.
  cbn [foldM]. change (write_candidate buf (full_candidate o)) with (writePackObject buf o).
  destruct (writePackObject buf o); [apply IH|done..].
Qed.

Lemma full_objects_full objs : full_objects (full_candidate <$> objs) = objs.
Proof.
  unfold full_objects. induction objs as [|o objs IH]; [done|].
  rewrite fmap_cons, filter_cons, decide_True by done.
  rewrite fmap_cons. by rewrite IH.
Qed.

(** The parser reads back what [writePack] wrote. *)
Lemma write_then_parse (objs : list GitObject) (out : bytes) :
  Forall valid_object objs → zlen objs < 2^32 →
  ∃ pk, writePack (buffer out) objs = (buffer (out ++ pk), Ok ()) ∧
        parseGitPack pk = Ok (foldl insert_object ∅ objs).
Proof.
  intros Hv Hn.
  assert (Forall valid_candidate (full_candidate <$> objs)) as Hv'.
  { apply Forall_fmap. eapply Forall_impl; [exact Hv|]. done. }
  assert (zlen (full_candidate <$> objs) = zlen objs) as Hlen
    by (unfold zlen; by rewrite length_fmap).
  destruct (writePackWithDeltas_buffer out _ Hv') as (trailer & Ht & Hw); [by rewrite Hlen|].
  rewrite writePack_full, Hw. eexists; split; [done|]. unfold parseGitPack.
  rewrite parse_written by (done || by rewrite Hlen).
  rewrite full_objects_full. unfold delta_objects.
  assert (omap (λ c, delta_of c <$> as_delta c) (full_candidate <$> objs) = []) as ->; [|done].
  clear. induction objs; [done|]. by rewrite fmap_cons.
Qed.

(** C6: pack round trip.  Writing objects that are named by their hash gives
    a pack that the parser reads back to exactly those objects, each under
    its identifier. *)
Theorem writePack_roundtrip (objs : list GitObject) (out : bytes) :
  Forall valid_object objs → zlen objs < 2^32 →
  ∃ pk, writePack (buffer out) objs = (buffer (out ++ pk), Ok ()) ∧
        parseGitPack pk = Ok (foldl insert_object ∅ objs).
Proof. apply write_then_parse. Qed.

(** *** Thin packs *)

(** The base of a delta is an object the pack carries in full, or one the
    receiver already has and the pack does not redefine. *)
Definition base_available (existing : gmap string GitObject)
    (cands : list DeltaCandidate) (c : DeltaCandidate) : Prop :=
  match as_delta c with
  | None => True
  | Some d => ∃ b,
      ((b ∈ full_objects cands ∧ go_OID b = dc_BaseOID c) ∨
       (existing !! dc_BaseOID c = Some b ∧ dc_BaseOID c ∉ go_OID ∘ dc_Object <$> cands)) ∧
      go_Type b = go_Type (dc_Object c) ∧
      go_OID (dc_Object c)
        = computeGitOID (type_name (go_Type b)) (go_Data (dc_Object c)) ∧
      applyDelta (go_Data b) d = Ok (go_Data (dc_Object c))
  end.

(** Every entry of the map is an object of the pack. *)
Definition from_pack (cands : list DeltaCandidate) (m : gmap string GitObject) : Prop :=
  ∀ k o, m !! k = Some o → ∃ c, c ∈ cands ∧ dc_Object c = o ∧ go_OID o = k.

Lemma from_pack_insert cands m c :
  from_pack cands m → c ∈ cands → from_pack cands (insert_object m (dc_Object c)).
Proof.
  intros Hm Hc k o. unfold insert_object. rewrite lookup_insert_Some.
  intros [[<- <-]|[_ Ho]]; eauto.
Qed.

Lemma oid_unique cands c c' :
  NoDup (go_OID ∘ dc_Object <$> cands) → c ∈ cands → c' ∈ cands →
  go_OID (dc_Object c) = go_OID (dc_Object c') → dc_Object c = dc_Object c'.
Proof.
  intros Hnd [i Hi]%list_elem_of_lookup [j Hj]%list_elem_of_lookup E.
  assert (i = j) as <-; [|congruence].
  eapply NoDup_lookup; [exact Hnd| |]; rewrite list_lookup_fmap.
  - rewrite Hi. reflexivity.
  - rewrite Hj. simpl. by rewrite E.
Qed.

(** The objects present so far stay, whatever the pack adds. *)
Lemma insert_keeps cands m c o :
  NoDup (go_OID ∘ dc_Object <$> cands) → from_pack cands m → c ∈ cands →
  m !! go_OID o = Some o → insert_object m (dc_Object c) !! go_OID o = Some o.
Proof.
  intros Hnd Hm Hc Ho. unfold insert_object. rewrite lookup_insert_Some.
  destruct (decide (go_OID (dc_Object c) = go_OID o)) as [E|E]; [left|by right].
  split; [done|]. destruct (Hm _ _ Ho) as (c' & Hc' & <- & _).
  by apply (oid_unique cands).
Qed.

Lemma resolve_all existing cands ds m :
  NoDup (go_OID ∘ dc_Object <$> cands) → Forall (base_available existing cands) cands →
  ds ⊆ cands → from_pack cands m → (∀ o, o ∈ full_objects cands → m !! go_OID o = Some o) →
  ∃ m', foldM (resolve_delta existing) m (delta_objects ds) = Ok m' ∧ from_pack cands m' ∧
    (∀ o, m !! go_OID o = Some o → m' !! go_OID o = Some o) ∧
    ∀ c, c ∈ ds → is_Some (as_delta c) → m' !! go_OID (dc_Object c) = Some (dc_Object c).
Proof.
  intros Hnd Hav. revert m. induction ds as [|c ds IH]; intros m Hsub Hm Hfull.
  { exists m. split; [done|]. split; [done|]. split; [done|]. by intros c ?%elem_of_nil. }
  assert (c ∈ cands) as Hc by (apply Hsub; by left).
  assert (ds ⊆ cands) as Hsub' by (intros x Hx; apply Hsub; by right).
  unfold delta_objects in *. cbn [omap list_omap].
  destruct (as_delta c) as [d|] eqn:Ed; cbn [fmap option_fmap option_map].
  2: { destruct (IH m Hsub' Hm Hfull) as (m' & Hr & H1 & H2 & H3). exists m'.
       split; [done|]. split; [done|]. split; [done|].
       intros c' [->|Hc']%elem_of_cons [d Hd]; [congruence|]. eauto. }
  rewrite Forall_forall in Hav. pose proof (Hav c Hc) as Ha. unfold base_available in Ha.
  rewrite Ed in Ha. destruct Ha as (b & Hb & Htype & Hoid & Happ).
  assert (resolve_delta existing m (delta_of c d) = Ok (insert_object m (dc_Object c))) as Hres.
  { unfold resolve_delta, delta_of. cbn [d_deltaType d_baseOID d_deltaData].
    assert ((match m !! dc_BaseOID c with Some b => Some b
             | None => existing !! dc_BaseOID c end) = Some b) as ->.
    { destruct Hb as [[Hb <-]|[Hb Hn]]; [by rewrite (Hfull b Hb)|].
      destruct (m !! dc_BaseOID c) as [o|] eqn:Eo; [|done]. exfalso. apply Hn.
      destruct (Hm _ _ Eo) as (c' & Hc' & <- & <-).
      apply list_elem_of_fmap. by exists c'. }
    change (7 =? 7) with true. cbv iota. rewrite Happ. res_simpl.
    unfold insert_object, makeGitObject. cbn [go_OID]. rewrite Htype in *.
    rewrite <-Hoid. by destruct (dc_Object c). }
  cbn [foldM]. rewrite Hres. res_simpl.
  destruct (IH (insert_object m (dc_Object c)) Hsub') as (m' & Hr & H1 & H2 & H3).
  { by apply from_pack_insert. }
  { intros o Ho. eapply insert_keeps; eauto. }
  exists m'. split; [done|]. split; [done|]. split.
  - intros o Ho. apply H2. eapply insert_keeps; eauto.
  - intros c' [->|Hc']%elem_of_cons Hd; [|by apply H3]. apply H2.
    unfold insert_object. apply lookup_insert_eq.
Qed.

Lemma insert_full cands os m :
  NoDup (go_OID ∘ dc_Object <$> cands) → (∀ o, o ∈ os → ∃ c, c ∈ cands ∧ dc_Object c = o) →
  from_pack cands m →
  from_pack cands (foldl insert_object m os) ∧
  (∀ o, m !! go_OID o = Some o → foldl insert_object m os !! go_OID o = Some o) ∧
  ∀ o, o ∈ os → foldl insert_object m os !! go_OID o = Some o.
Proof.
  intros Hnd. revert m. induction os as [|o os IH]; intros m Hos Hm; simpl.
  { split; [done|]. split; [done|]. by intros o ?%elem_of_nil. }
  destruct (Hos o) as (c & Hc & <-); [by left|].
  destruct (IH (insert_object m (dc_Object c))) as (H1 & H2 & H3).
  { intros o Ho. apply Hos. by right. }
  { by apply from_pack_insert. }
  split; [done|]. split; [intros o Ho; apply H2; by eapply insert_keeps|].
  intros o [->|Ho]%elem_of_cons; [|by apply H3]. apply H2.
  unfold insert_object. apply lookup_insert_eq.
Qed.

(** C7: thin packs.  If every delta of a pack is against an object that the
    pack carries in full or that the receiver has, a receiver with those
    objects parses the written pack without error and ends up with every
    object of the pack under its identifier, and with nothing else. *)
Theorem writePackWithDeltas_resolves (existing : gmap string GitObject)
    (cands : list DeltaCandidate) (out : bytes) :
  Forall valid_candidate cands → zlen cands < 2^32 →
  NoDup (go_OID ∘ dc_Object <$> cands) → Forall (base_available existing cands) cands →
  ∃ pk m, writePackWithDeltas (buffer out) cands = (buffer (out ++ pk), Ok ()) ∧
    parseGitPackWithBases pk existing = Ok m ∧
    ∀ oid o, m !! oid = Some o ↔ ∃ c, c ∈ cands ∧ dc_Object c = o ∧ go_OID o = oid.
Proof.
  intros Hv Hn Hnd Hav.
  destruct (writePackWithDeltas_buffer out cands Hv Hn) as (trailer & Ht & Hw).
  destruct (insert_full cands (full_objects cands) ∅ Hnd) as (F1 & _ & F3).
  { intros o (c & -> & Hc)%list_elem_of_fmap. apply list_elem_of_filter in Hc as [_ Hc]. eauto. }
  { by intros k o. }
  destruct (resolve_all existing cands cands _ Hnd Hav (reflexivity _) F1 F3)
    as (m & Hr & R1 & R2 & R3).
  eexists _, m. split; [exact Hw|]. unfold parseGitPackWithBases.
  rewrite parse_written by done. split; [exact Hr|].
  intros oid o. split; [apply R1|]. intros (c & Hc & <- & <-).
  destruct (as_delta c) as [d|] eqn:Ed; [apply R3; [done|by eexists]|].
  apply R2, F3. unfold full_objects. apply list_elem_of_fmap. exists c. split; [done|].
  by apply list_elem_of_filter.
Qed.
End properties.

(** The constant for the empty tree is the hash of the empty tree. *)
Example emptyTreeOID_ok : buildEmptyTreeObject = makeGitObject ObjectTree [].
Proof. vm_compute. reflexivity. Qed.

Lemma valid_makeGitObject t d :
  t ∈ [ObjectCommit; ObjectTree; ObjectBlob] → zlen d ≤ max_alloc →
  valid_object (makeGitObject t d).
Proof. done. Qed.

Lemma writePack_roundtrip_witness :
  let objs := [makeGitObject ObjectBlob (bytes_of "hello"); makeGitObject ObjectTree []] in
  Forall valid_object objs ∧
  ∃ pk, parseGitPack pk = Ok (foldl insert_object ∅ objs).
Proof.
  intros objs. assert (Forall valid_object objs) as Hv.
  { apply Forall_cons_2; [|apply Forall_cons_2; [|apply Forall_nil_2]];
      (apply valid_makeGitObject; [set_solver|by vm_compute]). }
  split; [exact Hv|].
  destruct (writePack_roundtrip objs [] Hv eq_refl) as (pk & _ & H).
  exists pk. exact H.
Defined.

Definition thin_base : GitObject := Eval vm_compute in
  makeGitObject ObjectBlob (bytes_of "the quick brown fox jumps over the lazy dog, twice").
Definition thin_target : GitObject := Eval vm_compute in
  makeGitObject ObjectBlob (bytes_of "see: the quick brown fox jumps over the lazy dog, twice!").
Definition thin_delta : bytes := Eval vm_compute in
  match @GenerateDelta () (go_Data thin_base) (go_Data thin_target) with
  | Ok (Some d) => d | _ => [] end.
Definition thin_cand : DeltaCandidate :=
  mk_DeltaCandidate thin_target (go_OID thin_base) (Some thin_delta).

Lemma writePackWithDeltas_resolves_witness :
  ∃ pk m, parseGitPackWithBases pk {[ go_OID thin_base := thin_base ]} = Ok m ∧
          m !! go_OID thin_target = Some thin_target.
Proof.
  destruct (writePackWithDeltas_resolves {[ go_OID thin_base := thin_base ]} [thin_cand] [])
    as (pk & m & _ & Hp & Hm).
  - constructor; [|constructor]. split; [by vm_compute|].
    exists (default [] (hex_decode (go_OID thin_base))). by vm_compute.
  - by vm_compute.
  - apply NoDup_singleton.
  - constructor; [|constructor]. exists thin_base. split.
    + right. split; [by vm_compute|]. cbn. intros H%list_elem_of_singleton.
      vm_compute in H. discriminate H.
    + split; [by vm_compute|]. by vm_compute.
  - exists pk, m. split; [exact Hp|]. apply Hm. exists thin_cand.
    split; [by apply elem_of_cons; left|]. by vm_compute.
Defined.
