(* ===== verification/ObjectStore.v ===== *)
(** * In-memory git object caches (kailab/sshserver/object_store.go)

    [MemoryObjectStore] and [LRUObjectStore], the interface both offer to the
    pack builder, and the refinement of the LRU cache to a recency list.  The
    mutexes make every method atomic, so a method is one state transition. *)

From S2P Require Import Prelude Sha1 PktLine Delta GitPack.

(** ** MemoryObjectStore *)

Definition MemoryObjectStore : Type := gmap string GitObject.
Definition NewMemoryObjectStore : MemoryObjectStore := ∅.

Definition MemoryObjectStore_Get (s : MemoryObjectStore) (oid : string)
  : MemoryObjectStore * option GitObject := (s, (s : gmap string GitObject) !! oid).
Definition MemoryObjectStore_Has (s : MemoryObjectStore) (oid : string) : bool :=
  bool_decide (is_Some ((s : gmap string GitObject) !! oid)).
Definition MemoryObjectStore_Put (s : MemoryObjectStore) (obj : GitObject)
  : MemoryObjectStore :=
  if decide (go_OID obj = "") then s
  else <[go_OID obj := obj]> (s : gmap string GitObject).

(** ** LRUObjectStore

    [container/list] elements are heap cells: an element is its address and
    its value; [lru_order] is the list, front first, and [lru_items] maps an
    identifier to the address of its element. *)

Record lruEntry := mk_lruEntry { le_oid : string; le_obj : GitObject }.

Record LRUObjectStore := mk_LRUObjectStore {
  lru_max : Z;
  lru_items : gmap string nat;
  lru_order : list (nat * lruEntry);
  lru_next : nat; (* the next fresh address *)
}.

Definition NewLRUObjectStore (maxEntries : Z) : LRUObjectStore :=
  mk_LRUObjectStore (if (maxEntries <? 0)%Z then 0 else maxEntries) ∅ [] 0.

Fixpoint find_element (e : nat) (l : list (nat * lruEntry)) : option lruEntry :=
  match l with
  | [] => None
  | (a, v) :: l => if decide (a = e) then Some v else find_element e l
  end.
Definition remove_element (e : nat) (l : list (nat * lruEntry)) : list (nat * lruEntry) :=
  filter (λ x, x.1 ≠ e) l.
(** [order.MoveToFront(e)]: a no-op when [e] is not an element of the list. *)
Definition move_to_front (e : nat) (l : list (nat * lruEntry)) : list (nat * lruEntry) :=
  match find_element e l with
  | Some v => (e, v) :: remove_element e l
  | None => l
  end.
(** [element.Value = v] *)
Definition set_value (e : nat) (v : lruEntry) (l : list (nat * lruEntry))
  : list (nat * lruEntry) :=
  (λ x, if decide (x.1 = e) then (e, v) else x) <$> l.

(** A dangling element, which the type assertion would reject, is [Panic]. *)
Definition LRUObjectStore_Get {E} (s : LRUObjectStore) (oid : string)
  : res E (LRUObjectStore * option GitObject) :=
  match lru_items s !! oid with
  | None => Ok (s, None)
  | Some element =>
    let order := move_to_front element (lru_order s) in
    entry ← or_panic (find_element element order);
    Ok (mk_LRUObjectStore (lru_max s) (lru_items s) order (lru_next s),
        Some (le_obj entry))
  end.

Definition LRUObjectStore_Has (s : LRUObjectStore) (oid : string) : bool :=
  bool_decide (is_Some (lru_items s !! oid)).

(** [for s.max > 0 && s.order.Len() > s.max]; each turn removes one element. *)
Fixpoint lru_evict (fuel : nat) (s : LRUObjectStore) : LRUObjectStore :=
  match fuel with
  | O => s
  | S fuel =>
    if ((0 <? lru_max s) && (lru_max s <? zlen (lru_order s)))%Z then
      match last (lru_order s) with
      | None => s
      | Some (e, entry) =>
        lru_evict fuel
          (mk_LRUObjectStore (lru_max s) (delete (le_oid entry) (lru_items s))
             (remove_element e (lru_order s)) (lru_next s))
      end
    else s
  end.

Definition LRUObjectStore_Put (s : LRUObjectStore) (obj : GitObject) : LRUObjectStore :=
  if bool_decide (go_OID obj = "") || (lru_max s =? 0)%Z then s
  else
    match lru_items s !! go_OID obj with
    | Some element =>
      let order := set_value element (mk_lruEntry (go_OID obj) obj) (lru_order s) in
      mk_LRUObjectStore (lru_max s) (lru_items s) (move_to_front element order) (lru_next s)
    | None =>
      let element := lru_next s in
      let order := (element, mk_lruEntry (go_OID obj) obj) :: lru_order s in
      let items := <[go_OID obj := element]> (lru_items s) in
      lru_evict (length order) (mk_LRUObjectStore (lru_max s) items order (S element))
    end.

(** ** Specification: a recency list

    Most recently used first; a get moves its entry to the front, a put
    replaces or adds at the front and drops what exceeds the bound. *)
Abbreviation recency := (list GitObject).

Definition rl_find (oid : string) (l : recency) : option GitObject :=
  list_find (λ o, go_OID o = oid) l ≫= λ x, Some x.2.
Definition rl_without (oid : string) (l : recency) : recency :=
  filter (λ o, go_OID o ≠ oid) l.
Definition rl_get (oid : string) (l : recency) : recency :=
  match rl_find oid l with Some o => o :: rl_without oid l | None => l end.
Definition rl_put (max : nat) (obj : GitObject) (l : recency) : recency :=
  take max (obj :: rl_without (go_OID obj) l).

(** What the cache's representation means. *)
Definition lru_abs (s : LRUObjectStore) : recency := (le_obj ∘ snd) <$> lru_order s.

Record lru_ok (s : LRUObjectStore) : Prop := mk_lru_ok {
  lru_ok_fresh : Forall (λ x, x.1 < lru_next s)%nat (lru_order s);
  lru_ok_addr : NoDup (lru_order s).*1;
  lru_ok_oid : NoDup (go_OID <$> lru_abs s);
  lru_ok_entry : Forall (λ x, le_oid x.2 = go_OID (le_obj x.2) ∧ le_oid x.2 ≠ "") (lru_order s);
  lru_ok_items : ∀ oid e, lru_items s !! oid = Some e ↔
                          ∃ o, (e, mk_lruEntry oid o) ∈ lru_order s;
}.

(** The capacity bound, which a put breaks and eviction restores. *)
Definition lru_bounded (s : LRUObjectStore) : Prop :=
  (0 ≤ lru_max s ∧ zlen (lru_order s) ≤ lru_max s)%Z.

(** ** Lemmas *)

Lemma find_element_in e v l :
  NoDup l.*1 → (e, v) ∈ l → find_element e l = Some v.
Proof.
  induction l as [|[a w] l IH]; intros Hnd Hin; [by apply elem_of_nil in Hin|].
  cbn in Hnd |- *. apply NoDup_cons in Hnd as [Ha Hnd].
  apply elem_of_cons in Hin as [?|Hin]; simplify_eq/=; [by rewrite decide_True|].
  rewrite decide_False; [by apply IH|]. intros ->. apply Ha.
  apply list_elem_of_fmap. by exists (e, v).
Qed.

Lemma remove_element_none e l : e ∉ l.*1 → remove_element e l = l.
Proof.
  intros He. unfold remove_element. induction l as [|[a v] l IH]; [done|].
  rewrite filter_cons. cbn in He. apply not_elem_of_cons in He as [??].
  rewrite decide_True by (by intros ?; simplify_eq/=). f_equal. by apply IH.
Qed.

Lemma remove_element_middle l1 e v l2 :
  NoDup (l1 ++ (e, v) :: l2).*1 → remove_element e (l1 ++ (e, v) :: l2) = l1 ++ l2.
Proof.
  intros Hnd. rewrite fmap_app, fmap_cons in Hnd.
  apply NoDup_app in Hnd as (_ & Hd & Hnd2). apply NoDup_cons in Hnd2 as [He _].
  unfold remove_element. rewrite filter_app, filter_cons.
  rewrite decide_False by (simpl; tauto).
  fold (remove_element e l1). fold (remove_element e l2).
  rewrite !remove_element_none; [done|done|].
  intros Hin. apply (Hd e Hin). by left.
Qed.

Lemma rl_without_none oid l : oid ∉ go_OID <$> l → rl_without oid l = l.
Proof.
  intros He. unfold rl_without. induction l as [|o l IH]; [done|].
  rewrite filter_cons. cbn in He. apply not_elem_of_cons in He as [??].
  rewrite decide_True by congruence. f_equal. by apply IH.
Qed.

Lemma rl_without_middle l1 o l2 :
  NoDup (go_OID <$> l1 ++ o :: l2) → rl_without (go_OID o) (l1 ++ o :: l2) = l1 ++ l2.
Proof.
  intros Hnd. rewrite fmap_app, fmap_cons in Hnd.
  apply NoDup_app in Hnd as (_ & Hd & Hnd2). apply NoDup_cons in Hnd2 as [He _].
  unfold rl_without. rewrite filter_app, filter_cons.
  rewrite decide_False by tauto.
  fold (rl_without (go_OID o) l1). fold (rl_without (go_OID o) l2).
  rewrite !rl_without_none; [done|done|].
  intros Hin. apply (Hd _ Hin). by left.
Qed.

Lemma rl_find_middle l1 o l2 :
  NoDup (go_OID <$> l1 ++ o :: l2) → rl_find (go_OID o) (l1 ++ o :: l2) = Some o.
Proof.
  intros Hnd. unfold rl_find.
  assert (list_find (λ x, go_OID x = go_OID o) (l1 ++ o :: l2) = Some (length l1, o)) as ->;
    [|done].
  apply list_find_Some. split; [by apply list_lookup_middle|]. split; [done|].
  intros j y Hj Hlt Heq. rewrite lookup_app_l in Hj by done.
  rewrite fmap_app, fmap_cons in Hnd. apply NoDup_app in Hnd as (_ & Hd & _).
  apply (Hd (go_OID y)); [|rewrite Heq; set_solver].
  apply list_elem_of_fmap. exists y. split; [done|]. by eapply list_elem_of_lookup_2.
Qed.

Lemma rl_find_none oid l : oid ∉ go_OID <$> l → rl_find oid l = None.
Proof.
  intros Hn. unfold rl_find.
  assert (list_find (λ x, go_OID x = oid) l = None) as ->; [|done].
  apply list_find_None, Forall_forall. intros x Hx <-. apply Hn.
  apply list_elem_of_fmap. eauto.
Qed.

(** An identifier the map knows sits somewhere in the list. *)
Lemma lru_split s oid e :
  lru_ok s → lru_items s !! oid = Some e →
  ∃ l1 o l2, lru_order s = l1 ++ (e, mk_lruEntry oid o) :: l2 ∧ go_OID o = oid.
Proof.
  intros Hok Hi. apply (lru_ok_items s Hok) in Hi as [o Hin].
  apply list_elem_of_split in Hin as (l1 & l2 & E).
  exists l1, o, l2. split; [done|].
  pose proof (lru_ok_entry s Hok) as He. rewrite E, Forall_app, Forall_cons in He.
  destruct He as (_ & [He _] & _). simpl in He. done.
Qed.

Lemma lru_unknown s oid :
  lru_ok s → lru_items s !! oid = None → oid ∉ go_OID <$> lru_abs s.
Proof.
  intros Hok Hi Hin. unfold lru_abs in Hin. rewrite <-list_fmap_compose in Hin.
  apply list_elem_of_fmap in Hin as ([e [oid' o]] & -> & Hin).
  pose proof (lru_ok_entry s Hok) as He. rewrite Forall_forall in He.
  apply He in Hin as Hentry. simpl in Hentry. destruct Hentry as [-> _].
  assert (lru_items s !! go_OID o = Some e) as Hsome; [|simpl in *; congruence].
  apply (lru_ok_items s Hok). eauto.
Qed.

(** Moving an element, possibly with a new object, to the front. *)
Lemma lru_ok_front s l1 e oid o o' l2 :
  lru_ok s → lru_order s = l1 ++ (e, mk_lruEntry oid o) :: l2 → go_OID o = oid →
  go_OID o' = oid →
  lru_ok (mk_LRUObjectStore (lru_max s) (lru_items s)
            ((e, mk_lruEntry oid o') :: l1 ++ l2) (lru_next s)).
Proof.
  intros Hok E Ho Ho'.
  assert (∀ (A : Type) (f : nat * lruEntry → A), f (e, mk_lruEntry oid o) = f (e, mk_lruEntry oid o') →
    f <$> ((e, mk_lruEntry oid o') :: l1 ++ l2) ≡ₚ f <$> lru_order s) as Hperm.
  { intros A f Hf. rewrite E, fmap_cons, <-Hf, fmap_app, fmap_app, fmap_cons.
    apply Permutation_middle. }
  destruct Hok as [H1 H2 H3 H4 H5]. split; simpl.
  - rewrite E, Forall_app, Forall_cons in H1. rewrite Forall_cons, Forall_app.
    by destruct H1 as (? & ? & ?).
  - change (NoDup ((e, mk_lruEntry oid o') :: l1 ++ l2).*1).
    by rewrite (Hperm _ fst eq_refl).
  - unfold lru_abs in *. simpl. rewrite <-list_fmap_compose in H3 |- *.
    change (NoDup (go_OID ∘ (le_obj ∘ snd) <$> (e, mk_lruEntry oid o') :: l1 ++ l2)).
    rewrite (Hperm _ (go_OID ∘ (le_obj ∘ snd))); [done|]. simpl. congruence.
  - rewrite E, Forall_app, Forall_cons in H4. rewrite Forall_cons, Forall_app.
    destruct H4 as (? & [_ ?] & ?). simpl in *. by rewrite Ho'.
  - intros oid' e'. rewrite H5, E. split; intros [o0 Hin].
    + apply elem_of_app in Hin as [Hin|[Hin|Hin]%elem_of_cons]; simplify_eq.
      * exists o0. apply elem_of_cons. right. apply elem_of_app. by left.
      * exists o'. apply elem_of_cons. by left.
      * exists o0. apply elem_of_cons. right. apply elem_of_app. by right.
    + apply elem_of_cons in Hin as [Hin|[Hin|Hin]%elem_of_app]; simplify_eq.
      * exists o. apply elem_of_app. right. apply elem_of_cons. by left.
      * exists o0. apply elem_of_app. by left.
      * exists o0. apply elem_of_app. right. apply elem_of_cons. by right.
Qed.

Lemma set_value_middle l1 e v w l2 :
  NoDup (l1 ++ (e, v) :: l2).*1 →
  set_value e w (l1 ++ (e, v) :: l2) = l1 ++ (e, w) :: l2.
Proof.
  intros Hnd. rewrite fmap_app, fmap_cons in Hnd.
  apply NoDup_app in Hnd as (_ & Hd & Hnd2). apply NoDup_cons in Hnd2 as [He _].
  assert (∀ l, e ∉ l.*1 → set_value e w l = l) as Hid.
  { induction l as [|[a x] l IH]; [done|]. cbn. intros [??]%not_elem_of_cons.
    rewrite decide_False by (simpl; congruence). f_equal. by apply IH. }
  unfold set_value in *. rewrite fmap_app, fmap_cons, decide_True by done.
  rewrite !Hid; [done|done|]. intros Hin. apply (Hd _ Hin). by left.
Qed.

Lemma move_to_front_middle l1 e v l2 :
  NoDup (l1 ++ (e, v) :: l2).*1 →
  move_to_front e (l1 ++ (e, v) :: l2) = (e, v) :: l1 ++ l2.
Proof.
  intros Hnd. unfold move_to_front.
  rewrite (find_element_in e v) by (done || set_solver).
  by rewrite remove_element_middle.
Qed.

Lemma lru_abs_middle s l1 e oid o l2 :
  lru_order s = l1 ++ (e, mk_lruEntry oid o) :: l2 →
  lru_abs s = ((le_obj ∘ snd) <$> l1) ++ o :: ((le_obj ∘ snd) <$> l2).
Proof. intros E. unfold lru_abs. by rewrite E, fmap_app, fmap_cons. Qed.

Lemma LRU_Get_refines {E} s oid :
  lru_ok s →
  ∃ s', @LRUObjectStore_Get E s oid = Ok (s', rl_find oid (lru_abs s)) ∧
    lru_ok s' ∧ lru_abs s' = rl_get oid (lru_abs s) ∧
    lru_max s' = lru_max s ∧ length (lru_order s') = length (lru_order s).
Proof.
  intros Hok. unfold LRUObjectStore_Get.
  destruct (lru_items s !! oid) as [e|] eqn:Hi.
  - destruct (lru_split s oid e Hok Hi) as (l1 & o & l2 & El & Ho).
    pose proof (lru_ok_addr s Hok) as Hnd. rewrite El in Hnd |- *.
    rewrite move_to_front_middle by done. simpl. rewrite decide_True by done. simpl.
    pose proof (lru_ok_oid s Hok) as Hndo. rewrite (lru_abs_middle s _ _ _ _ _ El) in Hndo |- *.
    subst oid. unfold rl_get. rewrite rl_find_middle, rl_without_middle by done.
    eexists; split; [done|]. split; [by eapply lru_ok_front|].
    split; [|split; [done|]].
    + unfold lru_abs. simpl. by rewrite fmap_app.
    + simpl. rewrite !length_app. simpl. lia.
  - pose proof (lru_unknown s oid Hok Hi) as Hn. unfold rl_get.
    rewrite rl_find_none by done. by exists s.
Qed.

Lemma lru_ok_push s obj :
  lru_ok s → go_OID obj ≠ "" → lru_items s !! go_OID obj = None →
  lru_ok (mk_LRUObjectStore (lru_max s) (<[go_OID obj := lru_next s]> (lru_items s))
            ((lru_next s, mk_lruEntry (go_OID obj) obj) :: lru_order s) (S (lru_next s))).
Proof.
  intros Hok Hne Hnew. pose proof (lru_unknown s _ Hok Hnew) as Hn.
  destruct Hok as [H1 H2 H3 H4 H5]. split; simpl.
  - constructor; [simpl; lia|]. eapply Forall_impl; [exact H1|]. intros x Hx. simpl in *. lia.
  - constructor; [|done]. intros Hin. apply list_elem_of_fmap in Hin as (x & Hx & Hin).
    rewrite Forall_forall in H1. apply H1 in Hin. lia.
  - by constructor.
  - constructor; [done|]. done.
  - intros oid e. destruct (decide (oid = go_OID obj)) as [->|Hoid].
    + rewrite lookup_insert_eq. split.
      * intros [= <-]. exists obj. by apply elem_of_cons; left.
      * intros [o [?|Hin]%elem_of_cons]; simplify_eq; [done|].
        exfalso. assert (lru_items s !! go_OID obj = Some e) by (apply H5; eauto). congruence.
    + rewrite lookup_insert_ne by done. rewrite H5. split; intros [o Hin]; exists o.
      * by apply elem_of_cons; right.
      * apply elem_of_cons in Hin as [?|?]; [simplify_eq|done].
Qed.

(** Dropping the last element. *)
Lemma lru_ok_pop s l e v :
  lru_ok s → lru_order s = l ++ [(e, v)] →
  lru_ok (mk_LRUObjectStore (lru_max s) (delete (le_oid v) (lru_items s)) l (lru_next s)).
Proof.
  intros [H1 H2 H3 H4 H5] E. unfold lru_abs in *. rewrite E in *.
  rewrite fmap_app in H2. rewrite !fmap_app in H3. apply Forall_app in H1 as [H1 _].
  apply Forall_app in H4 as [H4 H4v]. apply Forall_cons in H4v as [[Hv Hv'] _]. simpl in *.
  apply NoDup_app in H2 as (H2 & H2d & _). apply NoDup_app in H3 as (H3 & H3d & _).
  split; simpl; [done..|]. intros oid a. destruct (decide (oid = le_oid v)) as [->|Hne].
  - rewrite lookup_delete_eq. split; [done|]. intros [o Hin]. exfalso.
    apply (H3d (le_oid v)); [|rewrite Hv; by apply elem_of_cons; left].
    rewrite Forall_forall in H4. apply H4 in Hin as Ho. simpl in Ho. destruct Ho as [-> _].
    rewrite <-list_fmap_compose. apply list_elem_of_fmap.
    exists (a, mk_lruEntry (le_oid v) o). done.
  - rewrite lookup_delete_ne by done. rewrite H5. split; intros [o Hin]; exists o.
    + apply elem_of_app in Hin as [?|[?|?%elem_of_nil]%elem_of_cons]; [done| |done].
      simplify_eq.
    + apply elem_of_app. by left.
Qed.

Lemma lru_evict_spec fuel s :
  lru_ok s → (0 < lru_max s)%Z → (length (lru_order s) ≤ fuel)%nat →
  lru_ok (lru_evict fuel s) ∧ lru_max (lru_evict fuel s) = lru_max s ∧
  lru_order (lru_evict fuel s) = take (Z.to_nat (lru_max s)) (lru_order s).
Proof.
  revert s. induction fuel as [|fuel IH]; intros s Hok Hmax Hlen; simpl.
  { split; [done|]. split; [done|]. rewrite take_ge; [done|lia]. }
  rewrite (proj2 (Z.ltb_lt 0 _)) by done. cbn [andb].
  destruct (lru_max s <? zlen (lru_order s))%Z eqn:E; bool_to_prop.
  2: { split; [done|]. split; [done|]. rewrite take_ge; [done|]. unfold zlen in E. lia. }
  destruct (last (lru_order s)) as [[e v]|] eqn:El.
  2: { apply last_None in El. rewrite El in E. unfold zlen in E. simpl in E. lia. }
  apply last_Some in El as [l El].
  pose proof (lru_ok_addr s Hok) as Hnd. rewrite El in Hnd.
  assert (remove_element e (lru_order s) = l) as Hrem.
  { rewrite El, remove_element_middle by done. apply app_nil_r. }
  rewrite Hrem. pose proof (lru_ok_pop s l e v Hok El) as Hok'.
  destruct (IH _ Hok') as (? & ? & Ho); simpl; [done| |].
  { rewrite El, length_app in Hlen. simpl in Hlen. lia. }
  split; [done|]. split; [done|]. rewrite Ho. simpl. rewrite El.
  rewrite El, zlen_app in E. unfold zlen in E. simpl in E.
  rewrite take_app_le; [done|lia].
Qed.

Lemma LRU_Put_refines s obj :
  lru_ok s → lru_bounded s →
  let s' := LRUObjectStore_Put s obj in
  lru_ok s' ∧ lru_bounded s' ∧ lru_max s' = lru_max s ∧
  lru_abs s' = if bool_decide (go_OID obj = "") then lru_abs s
               else rl_put (Z.to_nat (lru_max s)) obj (lru_abs s).
Proof.
  intros Hok [Hm Hb] s'. subst s'. unfold LRUObjectStore_Put.
  destruct (bool_decide _) eqn:E; cbn [orb]; [done|]. bool_to_prop.
  destruct (lru_max s =? 0)%Z eqn:E0; bool_to_prop.
  { split; [done|]. split; [done|]. split; [done|].
    unfold zlen in Hb. assert (lru_order s = []) as H0.
    { destruct (lru_order s); [done|]. simpl in Hb. lia. }
    unfold lru_abs. by rewrite H0, E0. }
  destruct (lru_items s !! go_OID obj) as [e|] eqn:Hi.
  - destruct (lru_split s _ e Hok Hi) as (l1 & o & l2 & El & Ho).
    pose proof (lru_ok_addr s Hok) as Hnd. pose proof (lru_ok_oid s Hok) as Hndo.
    rewrite El in Hnd |- *. rewrite set_value_middle by done.
    rewrite move_to_front_middle by (rewrite fmap_app, fmap_cons in *; done).
    split; [by eapply lru_ok_front|]. unfold lru_bounded. simpl.
    rewrite El, zlen_app, zlen_cons in Hb.
    rewrite zlen_cons, zlen_app. split; [lia|]. split; [done|].
    rewrite (lru_abs_middle s _ _ _ _ _ El) in Hndo |- *.
    unfold rl_put. rewrite <-Ho, rl_without_middle, Ho by done.
    unfold lru_abs. simpl. rewrite take_ge; [by rewrite fmap_app|].
    simpl. rewrite length_app, !length_fmap. unfold zlen in Hb. lia.
  - pose proof (lru_ok_push s obj Hok E Hi) as Hok'.
    cbv zeta. set (s0 := mk_LRUObjectStore _ _ (_ :: _) _) in *.
    change (length _) with (length (lru_order s0)).
    destruct (lru_evict_spec (length (lru_order s0)) s0 Hok') as (H1 & H2 & H3);
      [simpl; lia|done|].
    split; [done|]. unfold lru_bounded. rewrite H2, H3. split.
    { split; [done|]. unfold zlen. rewrite length_take. simpl. lia. }
    split; [done|]. unfold lru_abs, rl_put. rewrite H3, fmap_take. simpl.
    f_equal. f_equal. symmetry. apply rl_without_none. by apply lru_unknown.
Qed.

Lemma NewLRU_ok n : lru_ok (NewLRUObjectStore n) ∧ lru_bounded (NewLRUObjectStore n).
Proof.
  split.
  - split; try (by constructor). simpl. intros oid e. rewrite lookup_empty.
    split; [done|]. intros [o Hin]. by apply elem_of_nil in Hin.
  - unfold lru_bounded, NewLRUObjectStore, zlen. simpl. case_match; bool_to_prop; lia.
Qed.

(** ** The interface of a store

    What the pack builder relies on: [Get] answers only objects that were put
    and does not lose anything the store still holds. *)
Class ObjectStore (S : Type) := {
  os_get : S → string → option (S * option GitObject);
  os_put : S → GitObject → S;
  os_holds : S → list GitObject; (* the objects the store contains *)
  os_ok : S → Prop;
}.

Class ObjectStoreLaws (S : Type) `{ObjectStore S} := {
  os_get_ok s oid : os_ok s →
    ∃ s' r, os_get s oid = Some (s', r) ∧ os_ok s' ∧
      (∀ o, o ∈ os_holds s' ↔ o ∈ os_holds s) ∧
      (∀ o, r = Some o ↔ o ∈ os_holds s ∧ go_OID o = oid);
  os_put_ok s obj : os_ok s →
    os_ok (os_put s obj) ∧ (∀ o, o ∈ os_holds (os_put s obj) → o = obj ∨ o ∈ os_holds s);
}.

#[export] Instance memory_store : ObjectStore MemoryObjectStore := {
  os_get s oid := Some (MemoryObjectStore_Get s oid);
  os_put := MemoryObjectStore_Put;
  os_holds s := (map_to_list (s : gmap string GitObject)).*2;
  os_ok s := map_Forall (λ oid o, go_OID o = oid) (s : gmap string GitObject);
}.

#[export] Instance lru_store : ObjectStore LRUObjectStore := {
  os_get s oid := match @LRUObjectStore_Get () s oid with Ok r => Some r | _ => None end;
  os_put := LRUObjectStore_Put;
  os_holds := lru_abs;
  os_ok s := lru_ok s ∧ lru_bounded s;
}.

Lemma memory_holds (s : gmap string GitObject) o :
  o ∈ (map_to_list s).*2 ↔ ∃ oid, s !! oid = Some o.
Proof.
  rewrite list_elem_of_fmap. split.
  - intros ([k v] & -> & Hin). exists k. by apply elem_of_map_to_list in Hin.
  - intros [k Hk]. exists (k, o). split; [done|]. by apply elem_of_map_to_list.
Qed.

#[export] Instance memory_store_laws : ObjectStoreLaws MemoryObjectStore.
Proof.
  split.
  - intros s oid Hok. exists s, ((s : gmap string GitObject) !! oid).
    split; [done|]. split; [done|]. split; [done|]. intros o. cbn.
    rewrite memory_holds. split.
    + intros Ho. split; [eauto|]. by apply Hok in Ho.
    + intros [[k Hk] <-]. by rewrite (Hok _ _ Hk).
  - intros s obj Hok. cbn. unfold MemoryObjectStore_Put. case_decide.
    { split; [done|]. intros o Ho. by right. }
    split; [by apply map_Forall_insert_2|]. intros o. rewrite !memory_holds.
    intros [k Hk]. apply lookup_insert_Some in Hk as [[_ ->]|[_ Hk]]; eauto.
Qed.

Lemma rl_find_some oid (l : recency) o :
  NoDup (go_OID <$> l) → rl_find oid l = Some o ↔ o ∈ l ∧ go_OID o = oid.
Proof.
  intros Hnd. split.
  - unfold rl_find. destruct (list_find _ l) as [[i x]|] eqn:E; [|done].
    intros [= <-]. apply list_find_Some in E as (Hi & Ho & _).
    split; [by eapply list_elem_of_lookup_2|done].
  - intros [Hin <-]. apply list_elem_of_split in Hin as (l1 & l2 & ->).
    by apply rl_find_middle.
Qed.

Lemma rl_get_elem oid (l : recency) o :
  NoDup (go_OID <$> l) → o ∈ rl_get oid l ↔ o ∈ l.
Proof.
  intros Hnd. unfold rl_get. destruct (rl_find oid l) as [x|] eqn:E; [|done].
  apply rl_find_some in E as [Hin <-]; [|done].
  apply list_elem_of_split in Hin as (l1 & l2 & ->). rewrite rl_without_middle by done.
  rewrite elem_of_cons, !elem_of_app, elem_of_cons. tauto.
Qed.

#[export] Instance lru_store_laws : ObjectStoreLaws LRUObjectStore.
Proof.
  split.
  - intros s oid [Hok Hb]. cbn. pose proof (lru_ok_oid s Hok) as Hnd.
    destruct (@LRU_Get_refines () s oid Hok) as (s' & -> & Hok' & Habs & Hm & Hl).
    exists s', (rl_find oid (lru_abs s)). split; [done|]. split.
    { split; [done|]. unfold lru_bounded, zlen in *. by rewrite Hm, Hl. }
    rewrite Habs. split; [intros o; by apply rl_get_elem|].
    intros o. by apply rl_find_some.
  - intros s obj [Hok Hb]. cbn.
    destruct (LRU_Put_refines s obj Hok Hb) as (Hok' & Hb' & _ & Habs).
    split; [done|]. intros o. rewrite Habs. case_match; [by right|].
    unfold rl_put. intros Hin. apply elem_of_take in Hin as (i & Hi & _).
    apply list_elem_of_lookup_2 in Hi. apply elem_of_cons in Hi as [->|Hi]; [by left|].
    right. unfold rl_without in Hi. by apply list_elem_of_filter in Hi as [_ Hi].
Qed.

(** ** Traces *)

Inductive store_op := OpGet (oid : string) | OpPut (obj : GitObject).

Fixpoint lru_run {E} (s : LRUObjectStore) (ops : list store_op)
  : res E (LRUObjectStore * list (option GitObject)) :=
  match ops with
  | [] => Ok (s, [])
  | OpGet oid :: ops =>
    '(s, r) ← LRUObjectStore_Get s oid;
    '(s, rs) ← lru_run s ops;
    Ok (s, r :: rs)
  | OpPut obj :: ops => lru_run (LRUObjectStore_Put s obj) ops
  end.

Fixpoint rl_run (max : nat) (l : recency) (ops : list store_op)
  : recency * list (option GitObject) :=
  match ops with
  | [] => (l, [])
  | OpGet oid :: ops =>
    let '(l', rs) := rl_run max (rl_get oid l) ops in (l', rl_find oid l :: rs)
  | OpPut obj :: ops =>
    rl_run max (if bool_decide (go_OID obj = "") then l else rl_put max obj l) ops
  end.

Lemma lru_run_refines {E} s ops :
  lru_ok s → lru_bounded s →
  ∃ s', @lru_run E s ops
        = Ok (s', (rl_run (Z.to_nat (lru_max s)) (lru_abs s) ops).2) ∧
    lru_abs s' = (rl_run (Z.to_nat (lru_max s)) (lru_abs s) ops).1 ∧ lru_bounded s' ∧
    lru_max s' = lru_max s.
Proof.
  revert s. induction ops as [|[oid|obj] ops IH]; intros s Hok Hb; simpl; [by exists s| |].
  - destruct (@LRU_Get_refines E s oid Hok) as (s1 & -> & Hok' & Habs & Hm & Hl). simpl.
    destruct (IH s1 Hok') as (s' & -> & H1 & H2 & H3).
    { unfold lru_bounded, zlen in *. by rewrite Hm, Hl. }
    rewrite Hm, Habs in *. simpl. exists s'.
    destruct (rl_run _ _ ops) as [l' rs]. split; [done|]. split; [done|]. by split.
  - destruct (LRU_Put_refines s obj Hok Hb) as (Hok' & Hb' & Hm & Habs).
    destruct (IH _ Hok' Hb') as (s' & -> & H1 & H2 & H3). rewrite Hm, Habs in *.
    exists s'. by split.
Qed.

(** ** Properties *)

(** C11: the LRU cache refines a bounded recency list.  For every capacity and
    every sequence of gets and puts on a fresh cache, no call panics, every
    get answers what the recency list answers, and the cache never ends up
    with more entries than its capacity (none for a negative one). *)
Theorem LRUObjectStore_refines (maxEntries : Z) (ops : list store_op) :
  ∃ s', @lru_run () (NewLRUObjectStore maxEntries) ops
        = Ok (s', (rl_run (Z.to_nat maxEntries) [] ops).2) ∧
    lru_abs s' = (rl_run (Z.to_nat maxEntries) [] ops).1 ∧
    (zlen (lru_order s') ≤ Z.max 0 maxEntries)%Z.
Proof.
  destruct (NewLRU_ok maxEntries) as [Hok Hb].
  destruct (@lru_run_refines () _ ops Hok Hb) as (s' & Hr & Ha & [_ Hb'] & Hm).
  assert (lru_max (NewLRUObjectStore maxEntries) = Z.max 0 maxEntries) as Hmax.
  { unfold NewLRUObjectStore. simpl. case_match; bool_to_prop; lia. }
  rewrite Hm, Hmax in *. replace (Z.to_nat (Z.max 0 maxEntries)) with (Z.to_nat maxEntries)
    in * by lia.
  exists s'. by split.
Qed.
