(* ===== verification/ObjectGraph.v ===== *)
(** * Walking the git object graph (kailab/sshserver/gitpack_parse.go)

    Tree and commit parsing and the depth-first collection of the objects a
    commit needs, with optional shallow depth. *)

From S2P Require Import Prelude Sha1 PktLine Delta GitPack.
Local Open Scope Z_scope.

(** ** Parsing trees and commits *)

Record gitTreeEntry := mk_gitTreeEntry {
  te_mode : string; te_name : string; te_oid : string }.

(** The loop of [parseTreeEntries] on the unread part of the data; a turn
    consumes at least 22 bytes. *)
Fixpoint parseTreeEntries_loop (fuel : nat) (data : bytes) : list gitTreeEntry :=
  match fuel with
  | O => []
  | S fuel =>
    match cut_byte Byte.x20 data with
    | None => []
    | Some (mode, data) =>
      match cut_byte Byte.x00 data with
      | None => []
      | Some (name, data) =>
        if zlen data <? 20 then []
        else mk_gitTreeEntry (string_of mode) (string_of name) (hex_encode (take 20 data))
               :: parseTreeEntries_loop fuel (drop 20 data)
      end
    end
  end.
Definition parseTreeEntries (data : bytes) : list gitTreeEntry :=
  parseTreeEntries_loop (length data) data.

(** The first line that starts with "tree " gives its bytes 5 to 45; a
    shorter line makes the slice expression panic. *)
Fixpoint first_tree_line {E} (lines : list bytes) : res E string :=
  match lines with
  | [] => Ok ""
  | line :: lines =>
    if has_prefix_b (bytes_of "tree ") line
    then oid ← or_panic (go_slice line 5 45); Ok (string_of oid)
    else first_tree_line lines
  end.
Definition extractTreeOID {E} (commitData : bytes) : res E string :=
  first_tree_line (split_byte Byte.x0a commitData).

Definition extractParentOIDs (commitData : bytes) : list string :=
  omap (λ line,
    if has_prefix_b (bytes_of "parent ") line && (47 <=? zlen line)
    then Some (string_of (take 40 (drop 7 line))) else None)
    (split_byte Byte.x0a commitData).

(** ** Collection

    The closures of [collectCommitObjectsWithDepth] share this state.  The
    code has no error result: [Err tt] marks exhausted fuel. *)
Record collect_state := mk_collect_state {
  cs_result : list GitObject;
  cs_shallow : list string;
  cs_visited : gset string;
  cs_commitDepths : gmap string Z;
}.

Section collect.
Variable objects : gmap string GitObject.

Definition cs_visit (oid : string) (st : collect_state) : collect_state :=
  mk_collect_state (cs_result st) (cs_shallow st) ({[oid]} ∪ cs_visited st)
    (cs_commitDepths st).
Definition cs_append (obj : GitObject) (st : collect_state) : collect_state :=
  mk_collect_state (cs_result st ++ [obj]) (cs_shallow st) (cs_visited st)
    (cs_commitDepths st).
Definition cs_set_depth (oid : string) (depth : Z) (st : collect_state) : collect_state :=
  mk_collect_state (cs_result st) (cs_shallow st) (cs_visited st)
    (<[oid := depth]> (cs_commitDepths st)).
Definition cs_add_shallow (oid : string) (st : collect_state) : collect_state :=
  mk_collect_state (cs_result st) (cs_shallow st ++ [oid]) (cs_visited st)
    (cs_commitDepths st).

Fixpoint collectTree (fuel : nat) (st : collect_state) (oid : string)
  : res () collect_state :=
  match fuel with
  | O => Err tt
  | S fuel =>
    if decide (oid ∈ cs_visited st) then Ok st
    else
      let st := cs_visit oid st in
      match objects !! oid with
      | None => Ok st
      | Some obj =>
        let st := cs_append obj st in
        if go_Type obj =? ObjectTree
        then foldM (λ st entry, collectTree fuel st (te_oid entry)) st
               (parseTreeEntries (go_Data obj))
        else Ok st
      end
  end.

Variable maxDepth : Z.

Fixpoint collectCommit (fuel : nat) (depth : Z) (st : collect_state) (oid : string)
  : res () collect_state :=
  match fuel with
  | O => Err tt
  | S fuel =>
    if decide (oid ∈ cs_visited st) then Ok st
    else
      let st := cs_set_depth oid depth (cs_visit oid st) in
      match objects !! oid with
      | None => Ok st
      | Some obj =>
        let st := cs_append obj st in
        if negb (go_Type obj =? ObjectCommit) then Ok st
        else
          treeOID ← extractTreeOID (go_Data obj);
          st ← (if decide (treeOID = "") then Ok st else collectTree fuel st treeOID);
          let parentOIDs := extractParentOIDs (go_Data obj) in
          if 0 <? zlen parentOIDs then
            if (0 <? maxDepth) && (maxDepth <=? depth) then Ok (cs_add_shallow oid st)
            else foldM (collectCommit fuel (depth + 1)) st parentOIDs
          else Ok st
      end
  end.

(** Every nested call that does work visits one more known object. *)
Definition collect_fuel : nat := S (size objects).

Definition collectCommitObjectsWithDepth (commitOID : string)
  : res () (list GitObject * list string) :=
  st ← collectCommit collect_fuel 1 (mk_collect_state [] [] ∅ ∅) commitOID;
  Ok (cs_result st, cs_shallow st).
End collect.

(** [collectCommitObjects]: no depth limit, shallow list dropped. *)
Definition collectCommitObjects (objects : gmap string GitObject) (commitOID : string)
  : res () (list GitObject) :=
  '(result, _) ← collectCommitObjectsWithDepth objects 0 commitOID; Ok result.

(** [findGitCommitOID] *)
Definition findGitCommitOID (objects : gmap string GitObject) (targetOID : string)
  : option GitObject :=
  match objects !! targetOID with
  | Some obj => if go_Type obj =? ObjectCommit then Some obj else None
  | None => None
  end.

(** Splitting a tree line never returns an error, whatever the error type. *)
Lemma extractTreeOID_no_error {E} data (e : E) : extractTreeOID data ≠ Err e.
Proof.
  unfold extractTreeOID. induction (split_byte _ data) as [|line lines IH]; [done|]. simpl.
  destruct (has_prefix_b _ line); [|done]. by destruct (go_slice line 5 45).
Qed.

(** What is found does not depend on the error type. *)
Lemma extractTreeOID_ok {E} data t : @extractTreeOID E data = Ok t → @extractTreeOID () data = Ok t.
Proof.
  unfold extractTreeOID. induction (split_byte _ data) as [|line lines IH]; [by intros [= <-]|]. simpl.
  destruct (has_prefix_b _ line); [|done]. destruct (go_slice line 5 45); [by intros [= <-]|done].
Qed.

(** ** The object graph *)

(** References that are always followed, and the parents, which a depth limit
    may leave out. *)
Definition tree_links (obj : GitObject) : list string :=
  if go_Type obj =? ObjectCommit then
    match @extractTreeOID () (go_Data obj) with
    | Ok t => if decide (t = "") then [] else [t]
    | _ => []
    end
  else if go_Type obj =? ObjectTree then te_oid <$> parseTreeEntries (go_Data obj)
  else [].
Definition parent_links (obj : GitObject) : list string :=
  if go_Type obj =? ObjectCommit then extractParentOIDs (go_Data obj) else [].

Definition links (objects : gmap string GitObject) (x y : string) : Prop :=
  ∃ obj, objects !! x = Some obj ∧ (y ∈ tree_links obj ∨ y ∈ parent_links obj).

(** Objects are stored under their identifier; trees never point at commits
    (no submodules) and parents are never trees. *)
Record well_typed (objects : gmap string GitObject) : Prop := mk_well_typed {
  wt_keyed : ∀ x obj, objects !! x = Some obj → go_OID obj = x;
  wt_tree : ∀ x obj y o, objects !! x = Some obj → y ∈ tree_links obj →
              objects !! y = Some o → go_Type o ≠ ObjectCommit;
  wt_parent : ∀ x obj y o, objects !! x = Some obj → y ∈ parent_links obj →
                objects !! y = Some o → go_Type o ≠ ObjectTree;
}.

(** A commit whose tree line is too short to slice. *)
Definition malformed (objects : gmap string GitObject) : Prop :=
  ∃ x obj, objects !! x = Some obj ∧ go_Type obj = ObjectCommit ∧
           @extractTreeOID () (go_Data obj) = Panic.

Section collect_spec.
Variables (objects : gmap string GitObject) (maxDepth : Z) (root : string).
Hypothesis Hwt : well_typed objects.

Definition closed_at (st : collect_state) (x : string) : Prop :=
  ∀ obj, objects !! x = Some obj →
    (∀ y, y ∈ tree_links obj → y ∈ cs_visited st) ∧
    (x ∈ cs_shallow st ∨ ∀ y, y ∈ parent_links obj → y ∈ cs_visited st).

Record collect_inv (st : collect_state) : Prop := mk_collect_inv {
  ci_reach : ∀ x, x ∈ cs_visited st → rtc (links objects) root x;
  ci_result : ∀ o, o ∈ cs_result st ↔ ∃ x, x ∈ cs_visited st ∧ objects !! x = Some o;
  ci_nodup : NoDup (go_OID <$> cs_result st);
}.

Record extends (st st' : collect_state) : Prop := mk_extends {
  ex_visited : cs_visited st ⊆ cs_visited st';
  ex_shallow : ∀ x, x ∈ cs_shallow st → x ∈ cs_shallow st';
  ex_unlimited : maxDepth ≤ 0 → cs_shallow st' = cs_shallow st;
  ex_closed : ∀ x, x ∈ cs_visited st' → x ∉ cs_visited st → closed_at st' x;
  ex_inv : collect_inv st → collect_inv st';
}.

Definition good (Q : collect_state → Prop) (r : res () collect_state) : Prop :=
  match r with Ok st => Q st | Panic => malformed objects | Err _ => False end.

Definition todo (st : collect_state) : nat := size (dom objects ∖ cs_visited st).

Lemma closed_at_mono st st' x :
  cs_visited st ⊆ cs_visited st' → (∀ y, y ∈ cs_shallow st → y ∈ cs_shallow st') →
  closed_at st x → closed_at st' x.
Proof.
  intros Hv Hs Hc obj Hobj. destruct (Hc obj Hobj) as [Ht Hp].
  split; [set_solver|]. destruct Hp as [?|?]; [left; auto|right; set_solver].
Qed.

Lemma extends_refl st : extends st st.
Proof. split; auto. done. Qed.

Lemma extends_trans st1 st2 st3 : extends st1 st2 → extends st2 st3 → extends st1 st3.
Proof.
  intros [V1 S1 U1 C1 I1] [V2 S2 U2 C2 I2]. split; auto; [set_solver| |].
  - intros Hm. by rewrite U2, U1.
  - intros x Hx Hn. destruct (decide (x ∈ cs_visited st2)); [|by apply C2].
    eapply closed_at_mono; [exact V2|exact S2|by apply C1].
Qed.

Lemma todo_mono st st' : cs_visited st ⊆ cs_visited st' → (todo st' ≤ todo st)%nat.
Proof. intros H. unfold todo. apply subseteq_size. set_solver. Qed.

Lemma todo_visit st oid obj :
  oid ∉ cs_visited st → objects !! oid = Some obj →
  (todo (cs_visit oid st) < todo st)%nat.
Proof.
  intros Hn Ho. unfold todo, cs_visit. simpl. apply subset_size.
  apply elem_of_dom_2 in Ho. split; [set_solver|]. intros H. set_solver.
Qed.

(** Collecting a list one by one. *)
Lemma fold_collect {A} (f : collect_state → A → res () collect_state) (key : A → string)
    (bound : nat) (l : list A) st :
  (todo st ≤ bound)%nat → collect_inv st →
  (∀ st x, x ∈ l → (todo st ≤ bound)%nat → collect_inv st →
     good (λ st', extends st st' ∧ key x ∈ cs_visited st') (f st x)) →
  good (λ st', extends st st' ∧ ∀ x, x ∈ l → key x ∈ cs_visited st') (foldM f st l).
Proof.
  revert st. induction l as [|x l IH]; intros st Hb Hi Hf; simpl.
  { split; [apply extends_refl|]. intros x Hx. by apply elem_of_nil in Hx. }
  assert (x ∈ x :: l) as Hin by (by apply elem_of_cons; left).
  specialize (Hf st x Hin Hb Hi) as Hx.
  destruct (f st x) as [st1| |]; simpl in *; [|done..]. destruct Hx as [Hext Hkey].
  assert (todo st1 ≤ bound)%nat as Hb1.
  { etrans; [apply todo_mono, (ex_visited _ _ Hext)|done]. }
  specialize (IH st1 Hb1 (ex_inv _ _ Hext Hi)).
  destruct (foldM f st1 l) as [st2| |]; simpl in *; try (apply IH; intros; apply Hf;
    [by apply elem_of_cons; right|done|done]).
  destruct IH as [Hext2 Hall]; [intros; apply Hf;
    [by apply elem_of_cons; right|done|done]|].
  split; [by eapply extends_trans|].
  intros y [->|Hy]%elem_of_cons; [|by apply Hall].
  by apply (ex_visited _ _ Hext2).
Qed.

(** Marking a node and adding its object keeps the invariant. *)
Lemma collect_inv_visit st oid :
  collect_inv st → rtc (links objects) root oid → objects !! oid = None →
  collect_inv (cs_visit oid st).
Proof.
  intros [H1 H2 H3] Hr Hn. split; simpl; [set_solver| |done].
  intros o. rewrite H2. split; intros (x & Hx & Hxo); exists x; [set_solver|].
  split; [|done]. apply elem_of_union in Hx as [?%elem_of_singleton|?]; [congruence|done].
Qed.

Lemma collect_inv_append st oid obj :
  collect_inv st → rtc (links objects) root oid → objects !! oid = Some obj →
  oid ∉ cs_visited st → collect_inv (cs_append obj (cs_visit oid st)).
Proof.
  intros [H1 H2 H3] Hr Ho Hn. split; simpl; [set_solver| |].
  - intros o. rewrite elem_of_app, list_elem_of_singleton, H2. split.
    + intros [(x & Hx & Hxo)| ->]; [exists x; set_solver|exists oid; set_solver].
    + intros (x & [->%elem_of_singleton|Hx]%elem_of_union & Hxo); [right; congruence|eauto].
  - rewrite fmap_app. apply NoDup_app. split; [done|]. split; [|by apply NoDup_singleton].
    intros k Hk Hk'. apply list_elem_of_fmap in Hk as (o & -> & Hin).
    apply H2 in Hin as (x & Hx & Hxo). cbn in Hk'. apply elem_of_cons in Hk' as [Hk'|?%elem_of_nil]; [|done].
    apply Hn. rewrite <-(wt_keyed _ Hwt oid obj Ho), <-Hk', (wt_keyed _ Hwt x o Hxo). done.
Qed.

(** What one call of either closure achieves. *)
Definition call_post (st : collect_state) (oid : string) (st' : collect_state) : Prop :=
  extends st st' ∧ oid ∈ cs_visited st'.

(** A leaf call: the node is unknown. *)
Lemma leaf_post st oid :
  rtc (links objects) root oid → objects !! oid = None → call_post st oid (cs_visit oid st).
Proof.
  intros Hr Hn. split; [|simpl; set_solver]. split; simpl; auto; [set_solver| |].
  - intros x Hx Hnx obj Hobj. assert (x = oid) as -> by set_solver. congruence.
  - intros Hi. by apply collect_inv_visit.
Qed.

(** A call on a known, unvisited node whose further work went from the state
    after appending it to [st2]. *)
Lemma node_post st oid obj st2 :
  rtc (links objects) root oid → objects !! oid = Some obj → oid ∉ cs_visited st →
  extends (cs_append obj (cs_visit oid st)) st2 → closed_at st2 oid →
  call_post st oid st2.
Proof.
  intros Hr Ho Hn [V S U C I] Hc. simpl in *. split; [|set_solver].
  split; [set_solver|done|done| |].
  - intros x Hx Hnx. destruct (decide (x = oid)) as [->|]; [done|]. apply C; set_solver.
  - intros Hi. apply I. by apply collect_inv_append.
Qed.

Lemma collectTree_post fuel st oid :
  (todo st < fuel)%nat → collect_inv st → rtc (links objects) root oid →
  (∀ o, objects !! oid = Some o → go_Type o ≠ ObjectCommit) →
  good (call_post st oid) (collectTree objects fuel st oid).
Proof.
  revert st oid. induction fuel as [|fuel IH]; intros st oid Hf Hi Hr Ht; [lia|].
  cbn [collectTree]. case_decide as Hv; [by split; [apply extends_refl|]|].
  destruct (objects !! oid) as [obj|] eqn:Ho; [|by apply leaf_post].
  specialize (Ht obj eq_refl).
  pose proof (todo_visit st oid obj Hv Ho) as Htodo.
  pose proof (collect_inv_append st oid obj Hi Hr Ho Hv) as Hi1.
  destruct (go_Type obj =? ObjectTree) eqn:Et; bool_to_prop.
  - assert (tree_links obj = te_oid <$> parseTreeEntries (go_Data obj)) as Hlinks.
    { unfold tree_links. by rewrite (proj2 (Z.eqb_neq _ _)), Et by done. }
    pose proof (fold_collect (λ st e, collectTree objects fuel st (te_oid e)) te_oid
      (todo (cs_visit oid st)) (parseTreeEntries (go_Data obj))
      (cs_append obj (cs_visit oid st)) ltac:(done) Hi1) as Hfold.
    destruct (foldM _ _ _) as [st2| |]; cbn [good] in *; try apply Hfold; [
      destruct Hfold as [Hext Hall]| |].
    1, 3, 4: intros st1 e0 He Hb Hi2; apply IH; [lia|done| |];
      [eapply rtc_r; [exact Hr|]; exists obj; split; [done|]; left; rewrite Hlinks;
       by apply list_elem_of_fmap_2|
       intros o; eapply wt_tree; [exact Hwt|exact Ho|]; rewrite Hlinks;
       by apply list_elem_of_fmap_2].
    apply (node_post st oid obj); try done. intros obj' Ho'.
    rewrite Ho in Ho'. injection Ho' as <-. split.
    + rewrite Hlinks. intros y (e & -> & He)%list_elem_of_fmap. by apply Hall.
    + right. unfold parent_links. rewrite (proj2 (Z.eqb_neq _ _)) by done.
      by intros y ?%elem_of_nil.
  - cbn [good]. apply (node_post st oid obj); try done.
    intros obj' Ho'. rewrite Ho in Ho'. injection Ho' as <-.
    unfold tree_links, parent_links. rewrite !(proj2 (Z.eqb_neq _ _)) by done.
    split; [|right]; by intros y ?%elem_of_nil.
Qed.

Lemma extends_shallow st oid :
  0 < maxDepth → extends st (cs_add_shallow oid st).
Proof.
  intros Hm. split; simpl; [done| |lia| |].
  - intros x Hx. apply elem_of_app. by left.
  - intros x Hx Hn. done.
  - intros [H1 H2 H3]. by split.
Qed.

(** The tree part of a commit. *)
Lemma commit_tree_post fuel st oid obj t :
  (todo st < fuel)%nat → collect_inv st → rtc (links objects) root oid →
  objects !! oid = Some obj → go_Type obj = ObjectCommit →
  @extractTreeOID () (go_Data obj) = Ok t →
  good (λ st', extends st st' ∧ ∀ y, y ∈ tree_links obj → y ∈ cs_visited st')
    (if decide (t = "") then Ok st else collectTree objects fuel st t).
Proof.
  intros Hf Hi Hr Ho Ht He.
  assert (tree_links obj = if decide (t = "") then [] else [t]) as Hlinks.
  { unfold tree_links. by rewrite Ht, He. }
  case_decide.
  - split; [apply extends_refl|]. rewrite Hlinks. by intros y ?%elem_of_nil.
  - assert (t ∈ tree_links obj) as Hin by (rewrite Hlinks; by apply list_elem_of_singleton).
    pose proof (collectTree_post fuel st t Hf Hi) as Hp.
    destruct (collectTree objects fuel st t) as [st1| |]; cbn [good] in *.
    1: destruct Hp as [Hext Hv]; [| |split; [done|]; rewrite Hlinks;
         by intros y ->%list_elem_of_singleton].
    3, 4: apply Hp.
    all: first [eapply rtc_r; [exact Hr|]; exists obj; split; [done|]; by left
               |intros o; by eapply wt_tree].
Qed.

Lemma collectCommit_post fuel depth st oid :
  (todo st < fuel)%nat → collect_inv st → rtc (links objects) root oid →
  (∀ o, objects !! oid = Some o → go_Type o ≠ ObjectTree) →
  good (call_post st oid) (collectCommit objects maxDepth fuel depth st oid).
Proof.
  revert depth st oid. induction fuel as [|fuel IH]; intros depth st oid Hf Hi Hr Ht; [lia|].
  cbn [collectCommit]. case_decide as Hv; [by split; [apply extends_refl|]|].
  set (st0 := cs_set_depth oid depth (cs_visit oid st)).
  destruct (objects !! oid) as [obj|] eqn:Ho.
  2: { destruct (leaf_post st oid Hr Ho) as [[V S U C I] Hin].
       split; [|done]. split; try done. intros Hi'. by destruct (I Hi'). }
  specialize (Ht obj eq_refl).
  pose proof (todo_visit st oid obj Hv Ho) as Htodo.
  assert (collect_inv (cs_append obj st0)) as Hi1.
  { by destruct (collect_inv_append st oid obj Hi Hr Ho Hv). }
  assert (∀ st2, extends (cs_append obj st0) st2 → closed_at st2 oid →
            call_post st oid st2) as Hnode.
  { intros st2 [V S U C I] Hc. apply (node_post st oid obj); try done. split; try done.
    intros [H1 H2 H3]. apply I. by split. }
  destruct (go_Type obj =? ObjectCommit) eqn:Et; bool_to_prop; cbn [negb].
  2: { apply Hnode; [apply extends_refl|]. intros obj' Ho'.
       rewrite Ho in Ho'. injection Ho' as <-.
       unfold tree_links, parent_links. rewrite !(proj2 (Z.eqb_neq _ _)) by done.
       split; [|right]; by intros y ?%elem_of_nil. }
  destruct (@extractTreeOID () (go_Data obj)) as [t|[]|] eqn:Ee; res_simpl.
  2: by destruct (extractTreeOID_no_error (go_Data obj) tt).
  2: by exists oid, obj.
  assert (todo (cs_append obj st0) < fuel)%nat as Hf0.
  { change (todo _) with (todo (cs_visit oid st)). lia. }
  pose proof (commit_tree_post fuel (cs_append obj st0) oid obj t
    Hf0 Hi1 Hr Ho Et Ee) as Htree.
  destruct (if decide (t = "") then _ else _) as [st1| |]; cbn [good] in *; res_simpl;
    [|done..].
  destruct Htree as [Hext1 Htl]. pose proof (ex_inv _ _ Hext1 Hi1) as Hi2.
  assert (todo st1 < fuel)%nat as Hf1.
  { pose proof (todo_mono _ _ (ex_visited _ _ Hext1)). lia. }
  assert (parent_links obj = extractParentOIDs (go_Data obj)) as Hpl
    by (unfold parent_links; by rewrite Et).
  assert (∀ st2, extends st1 st2 →
    (oid ∈ cs_shallow st2 ∨ ∀ y, y ∈ parent_links obj → y ∈ cs_visited st2) →
    call_post st oid st2) as Hfinish.
  { intros st2 Hext2 Hp. apply Hnode; [by eapply extends_trans|].
    intros obj' Ho'. rewrite Ho in Ho'. injection Ho' as <-.
    split; [|done]. intros y Hy. apply (ex_visited _ _ Hext2). by apply Htl. }
  destruct (0 <? zlen _) eqn:Ep; bool_to_prop.
  2: { apply Hfinish; [apply extends_refl|]. right. rewrite Hpl. unfold zlen in Ep.
       destruct (extractParentOIDs (go_Data obj)); [by intros y ?%elem_of_nil|simpl in Ep; lia]. }
  destruct (_ && _) eqn:Ed; bool_to_prop.
  { apply Hfinish; [by apply extends_shallow|]. left. simpl. apply elem_of_app. right.
    by apply list_elem_of_singleton. }
  pose proof (fold_collect (collectCommit objects maxDepth fuel (depth + 1)) id (todo st1)
    (extractParentOIDs (go_Data obj)) st1 ltac:(done) Hi2) as Hfold.
  destruct (foldM _ _ _) as [st2| |]; cbn [good] in *; try apply Hfold;
    [destruct Hfold as [Hext2 Hall]; [|apply Hfinish; [done|right; by rewrite Hpl]]| |].
  all: intros st3 p Hp Hb Hi3; apply IH; [lia|done| |];
    [eapply rtc_r; [exact Hr|]; exists obj; split; [done|]; right; by rewrite Hpl
    |intros o; eapply wt_parent; [exact Hwt|exact Ho|by rewrite Hpl]].
Qed.

(** ** Lemmas: the depth limit *)

(** A parent of a commit. *)
Definition parent_of (x y : string) : Prop :=
  ∃ obj, objects !! x = Some obj ∧ y ∈ parent_links obj.

(** Commits are visited within the limit, and boundaries lie exactly on it. *)
Record depth_inv (st : collect_state) : Prop := mk_depth_inv {
  dp_commit : ∀ x obj, x ∈ cs_visited st → objects !! x = Some obj → go_Type obj = ObjectCommit →
    ∃ n, Z.of_nat n < maxDepth ∧ nsteps parent_of n root x;
  dp_shallow : ∀ x, x ∈ cs_shallow st → ∃ n, Z.of_nat n + 1 = maxDepth ∧ nsteps parent_of n root x;
}.

Lemma depth_visit st oid st' :
  (∀ obj, objects !! oid = Some obj → go_Type obj = ObjectCommit →
     ∃ n, Z.of_nat n < maxDepth ∧ nsteps parent_of n root oid) →
  cs_visited st' = {[oid]} ∪ cs_visited st → cs_shallow st' = cs_shallow st →
  depth_inv st → depth_inv st'.
Proof.
  intros Ho Ev Es [H1 H2]. split; [|by rewrite Es]. rewrite Ev. intros x obj [->%elem_of_singleton|Hx]%elem_of_union.
  - apply Ho.
  - by apply H1.
Qed.

Lemma collectTree_depth fuel st oid st' :
  (∀ o, objects !! oid = Some o → go_Type o ≠ ObjectCommit) →
  collectTree objects fuel st oid = Ok st' → depth_inv st → depth_inv st'.
Proof.
  revert st oid st'. induction fuel as [|fuel IH]; intros st oid st' Ho; cbn [collectTree]; [done|].
  destruct (decide _); [by intros [= <-]|].
  assert (∀ st', cs_visited st' = {[oid]} ∪ cs_visited st → cs_shallow st' = cs_shallow st →
    depth_inv st → depth_inv st') as Hv
    by (intros st2; apply depth_visit; intros o E1 E2; by destruct (Ho o E1)).
  destruct (objects !! oid) as [obj|] eqn:E; [|by intros [= <-]; apply Hv].
  destruct (go_Type obj =? ObjectTree) eqn:Et; [|by intros [= <-]; apply Hv]. bool_to_prop.
  intros Hf Hi. eapply (foldM_ok_inv _ depth_inv); [exact Hf|by apply Hv|]. intros s entry s' Hin Hs Hc.
  eapply IH; [|exact Hc|exact Hs]. intros o E1.
  apply (wt_tree _ Hwt oid obj (te_oid entry) o E); [|exact E1].
  unfold tree_links. rewrite Et. cbn. by apply list_elem_of_fmap_2.
Qed.

Lemma collectCommit_depth fuel n st oid st' :
  0 < maxDepth → Z.of_nat n < maxDepth → nsteps parent_of n root oid →
  collectCommit objects maxDepth fuel (Z.of_nat n + 1) st oid = Ok st' →
  depth_inv st → depth_inv st'.
Proof.
  intros Hm. revert n st oid st'. induction fuel as [|fuel IH]; intros n st oid st' Hn Hs;
    cbn [collectCommit]; [done|].
  destruct (decide _); [by intros [= <-]|].
  assert (∀ st', cs_visited st' = {[oid]} ∪ cs_visited st → cs_shallow st' = cs_shallow st →
    depth_inv st → depth_inv st') as Hv by (intros st2; apply depth_visit; by exists n).
  destruct (objects !! oid) as [obj|] eqn:E; [|by intros [= <-]; apply Hv].
  destruct (go_Type obj =? ObjectCommit) eqn:Et; cbn [negb]; [|by intros [= <-]; apply Hv]. bool_to_prop.
  intros H Hi. apply bind_ok_inv in H as (t & Ee & H). apply bind_ok_inv in H as (st1 & H1 & H).
  assert (depth_inv st1) as Hi1.
  { destruct (decide (t = "")); [injection H1 as <-; by apply Hv|].
    eapply collectTree_depth; [|exact H1|by apply Hv]. intros o E1.
    apply (wt_tree _ Hwt oid obj t o E); [|exact E1]. unfold tree_links. rewrite Et. cbn.
    rewrite (extractTreeOID_ok _ _ Ee), decide_False by done. by left. }
  destruct (0 <? _); [|by injection H as <-].
  destruct (Z.ltb_spec 0 maxDepth) as [_|]; [|lia]. cbn [andb] in H.
  destruct (Z.leb_spec maxDepth (Z.of_nat n + 1)) as [Hd|Hd].
  - injection H as <-. split; [exact (dp_commit _ Hi1)|]. cbn.
    intros x [Hx| ->%list_elem_of_singleton]%elem_of_app; [by apply (dp_shallow _ Hi1)|].
    exists n. split; [lia|done].
  - eapply (foldM_ok_inv _ depth_inv); [exact H|exact Hi1|]. intros s p s' Hin Hsi Hc.
    replace (Z.of_nat n + 1 + 1) with (Z.of_nat (S n) + 1) in Hc by lia.
    eapply (IH (S n)); [lia| |exact Hc|exact Hsi].
    eapply nsteps_r; [exact Hs|]. exists obj. split; [done|]. unfold parent_links. by rewrite Et.
Qed.
End collect_spec.

(** What the walk collects. *)
Lemma collect_objects_ok
    (objects : gmap string GitObject) (maxDepth : Z) (commitOID : string) :
  well_typed objects →
  (∀ o, objects !! commitOID = Some o → go_Type o ≠ ObjectTree) →
  match collectCommitObjectsWithDepth objects maxDepth commitOID with
  | Ok (result, shallow) =>
    NoDup (go_OID <$> result) ∧
    (∀ o, o ∈ result → objects !! go_OID o = Some o ∧
                       rtc (links objects) commitOID (go_OID o)) ∧
    (∀ o y o', o ∈ result → objects !! y = Some o' →
       (y ∈ tree_links o → o' ∈ result) ∧
       (y ∈ parent_links o → o' ∈ result ∨ go_OID o ∈ shallow)) ∧
    (0 < maxDepth →
       (∀ o, o ∈ result → go_Type o = ObjectCommit →
          ∃ n, Z.of_nat n < maxDepth ∧ nsteps (parent_of objects) n commitOID (go_OID o)) ∧
       (∀ y, y ∈ shallow → ∃ n, Z.of_nat n + 1 = maxDepth ∧
          nsteps (parent_of objects) n commitOID y)) ∧
    (maxDepth ≤ 0 → shallow = [] ∧
       ∀ x o, rtc (links objects) commitOID x → objects !! x = Some o → o ∈ result)
  | Panic => malformed objects
  | Err _ => False
  end.
Proof.
  intros Hwt Hroot. unfold collectCommitObjectsWithDepth.
  set (st0 := mk_collect_state [] [] ∅ ∅).
  assert (collect_inv objects commitOID st0) as Hi0.
  { split; simpl; [set_solver| |constructor]. intros o. split; [by intros ?%elem_of_nil|].
    set_solver. }
  pose proof (collectCommit_post objects maxDepth commitOID Hwt (collect_fuel objects) 1 st0
    commitOID) as Hp.
  pose proof (collectCommit_depth objects maxDepth commitOID Hwt (collect_fuel objects) 0 st0
    commitOID) as Hdepth. change (Z.of_nat 0 + 1) with 1 in Hdepth.
  destruct (collectCommit _ _ _ _ _ _) as [st| |]; res_simpl; cbn [good] in *;
    try (apply Hp; [unfold todo, collect_fuel; simpl; rewrite difference_empty_L, size_dom; lia
                   |done|done|done]).
  destruct Hp as [[V S U C I] Hin];
    [unfold todo, collect_fuel; simpl; rewrite difference_empty_L, size_dom; lia|done..|].
  destruct (I Hi0) as [H1 H2 H3].
  assert (∀ o, o ∈ cs_result st → objects !! go_OID o = Some o ∧ go_OID o ∈ cs_visited st) as Hres.
  { intros o (x & Hx & Hxo)%H2. by rewrite (wt_keyed _ Hwt x o Hxo). }
  split; [done|]. split; [|split; [|split]].
  - intros o Ho. destruct (Hres o Ho) as [Hk Hv]. auto.
  - intros o y o' Ho Hy. destruct (Hres o Ho) as [Hk Hv].
    destruct (C (go_OID o) Hv ltac:(set_solver) o Hk) as [Ht Hpar]. split.
    + intros Hl. apply H2. exists y. auto.
    + intros Hl. destruct Hpar as [?|Hpar]; [by right|]. left. apply H2. exists y. auto.
  - intros Hm. destruct (Hdepth st) as [D1 D2]; [done|cbn; lia|constructor|done| |].
    { split; cbn; [set_solver|by intros x ?%elem_of_nil]. }
    split; [|exact D2]. intros o Ho Ht. destruct (Hres o Ho) as [Hk Hv]. by apply (D1 _ o).
  - intros Hm. split; [by apply U|]. intros x o Hr Hxo. apply H2. exists x. split; [|done].
    clear Hxo. revert x Hr. apply (rtc_ind_r (λ x, x ∈ cs_visited st)); [done|].
    intros b c Hr (obj & Hb & Hl) IH.
    destruct (C b IH ltac:(set_solver) obj Hb) as [Ht Hpar].
    destruct Hl as [Hl|Hl]; [by apply Ht|].
    destruct Hpar as [Hs|Hpar]; [|by apply Hpar].
    rewrite (U Hm) in Hs. by apply elem_of_nil in Hs.
Qed.

(** ** Properties *)

(** C9: collection of a commit's objects.  On a well-typed object map the walk
    terminates within its fuel (it can only panic, and only when some commit
    has a malformed tree line).  The result lists no object twice and only
    objects reachable from the commit; with an object it contains every known
    tree, blob and sub-tree the object refers to, and every known parent
    unless the commit is listed as a shallow boundary.  With a depth limit every
    commit of the result is fewer than that many generations away and the
    boundaries are in the last of them; without one no boundary is listed and
    the result is exactly the known objects reachable from the commit. *)
Theorem collectCommitObjectsWithDepth_spec
    (objects : gmap string GitObject) (maxDepth : Z) (commitOID : string) :
  well_typed objects →
  (∀ o, objects !! commitOID = Some o → go_Type o ≠ ObjectTree) →
  match collectCommitObjectsWithDepth objects maxDepth commitOID with
  | Ok (result, shallow) =>
    NoDup (go_OID <$> result) ∧
    (∀ o, o ∈ result → objects !! go_OID o = Some o ∧
                       rtc (links objects) commitOID (go_OID o)) ∧
    (∀ o y o', o ∈ result → objects !! y = Some o' →
       (y ∈ tree_links o → o' ∈ result) ∧
       (y ∈ parent_links o → o' ∈ result ∨ go_OID o ∈ shallow)) ∧
    (0 < maxDepth →
       (∀ o, o ∈ result → go_Type o = ObjectCommit →
          ∃ n, Z.of_nat n < maxDepth ∧ nsteps (parent_of objects) n commitOID (go_OID o)) ∧
       (∀ y, y ∈ shallow → ∃ n, Z.of_nat n + 1 = maxDepth ∧
          nsteps (parent_of objects) n commitOID y)) ∧
    (maxDepth ≤ 0 → shallow = [] ∧
       ∀ x o, rtc (links objects) commitOID x → objects !! x = Some o → o ∈ result)
  | Panic => malformed objects
  | Err _ => False
  end.
Proof. apply collect_objects_ok. Qed.

(** A two-commit history with one shared blob. *)
Definition demo_blob : GitObject := makeGitObject ObjectBlob (bytes_of "hello").
Definition demo_tree : GitObject :=
  makeGitObject ObjectTree (bytes_of "100644 a" ++ [Byte.x00]
    ++ default [] (hex_decode (go_OID demo_blob))).
Definition demo_commit (parent : string) : GitObject :=
  makeGitObject ObjectCommit
    (bytes_of ("tree " +:+ go_OID demo_tree +:+ newline +:+ parent +:+ newline)).
Definition demo_first : GitObject := Eval vm_compute in demo_commit "".
Definition demo_second : GitObject :=
  Eval vm_compute in demo_commit ("parent " +:+ go_OID demo_first).
Definition demo_objects : gmap string GitObject :=
  list_to_map ((λ o, (go_OID o, o)) <$> [demo_blob; demo_tree; demo_first; demo_second]).

(** [well_typed] as a test. *)
Definition well_typed_b (objects : gmap string GitObject) : bool :=
  forallb (λ '(x, obj),
    bool_decide (go_OID obj = x) &&
    forallb (λ y, match objects !! y with
                  | Some o => negb (go_Type o =? ObjectCommit) | None => true end)
      (tree_links obj) &&
    forallb (λ y, match objects !! y with
                  | Some o => negb (go_Type o =? ObjectTree) | None => true end)
      (parent_links obj))
    (map_to_list objects).

Lemma well_typed_b_ok objects : well_typed_b objects = true → well_typed objects.
Proof.
  unfold well_typed_b. rewrite forallb_forall. intros H.
  assert (∀ x obj, objects !! x = Some obj → In (x, obj) (map_to_list objects)) as Hin.
  { intros x obj Hx. apply list_elem_of_In. by apply elem_of_map_to_list. }
  split.
  - intros x obj Hx. specialize (H _ (Hin x obj Hx)). simpl in H. by bool_to_prop.
  - intros x obj y o Hx Hy Ho. specialize (H _ (Hin x obj Hx)). simpl in H. bool_to_prop.
    match goal with H : forallb _ (tree_links _) = true |- _ =>
      rewrite forallb_forall in H; specialize (H y ltac:(by apply list_elem_of_In)) end.
    rewrite Ho in *. by bool_to_prop.
  - intros x obj y o Hx Hy Ho. specialize (H _ (Hin x obj Hx)). simpl in H. bool_to_prop.
    match goal with H : forallb _ (parent_links _) = true |- _ =>
      rewrite forallb_forall in H; specialize (H y ltac:(by apply list_elem_of_In)) end.
    rewrite Ho in *. by bool_to_prop.
Qed.

Lemma collectCommitObjectsWithDepth_spec_witness :
  collectCommitObjectsWithDepth demo_objects 1 (go_OID demo_second)
  = Ok ([demo_second; demo_tree; demo_blob], [go_OID demo_second]) ∧
  ∃ result, collectCommitObjects demo_objects (go_OID demo_second) = Ok result ∧
            demo_first ∈ result.
Proof.
  split; [vm_compute; reflexivity|].
  pose proof (collectCommitObjectsWithDepth_spec demo_objects 0 (go_OID demo_second)) as H.
  assert (well_typed demo_objects) as Hwt.
  { apply well_typed_b_ok. vm_compute. reflexivity. }
  assert (demo_objects !! go_OID demo_second = Some demo_second) as Hsecond
    by (vm_compute; reflexivity).
  assert (demo_objects !! go_OID demo_first = Some demo_first) as Hfirst
    by (vm_compute; reflexivity).
  assert (∀ o, demo_objects !! go_OID demo_second = Some o → go_Type o ≠ ObjectTree) as Hroot.
  { intros o Ho Ht. rewrite Hsecond in Ho.
    apply (f_equal (from_option go_Type 0)) in Ho. cbn [from_option] in Ho.
    rewrite Ht in Ho. discriminate Ho. }
  specialize (H Hwt Hroot).
  unfold collectCommitObjects.
  assert (is_ok (collectCommitObjectsWithDepth demo_objects 0 (go_OID demo_second)) = true)
    as E by (vm_compute; reflexivity).
  revert H E. generalize (collectCommitObjectsWithDepth demo_objects 0 (go_OID demo_second)).
  intros [[result shallow]|e|] H E; [|destruct H|discriminate E].
  exists result. split; [reflexivity|]. destruct H as (_ & _ & _ & _ & H).
  destruct (H (Z.le_refl 0)) as [_ Hall]. apply (Hall (go_OID demo_first)); [|exact Hfirst].
  apply rtc_once. exists demo_second. split; [exact Hsecond|]. right.
  apply (bool_decide_eq_true_1 (go_OID demo_first ∈ parent_links demo_second)).
  vm_compute. reflexivity.
Defined.
