(* ===== verification/PackBuilder.v ===== *)
(** * Building packs for a fetch (kailab/sshserver/pack_builder.go, gitpack.go)

    The selection of the objects a client lacks and the choice of deltas for
    thin packs, on any object store with the [ObjectStoreLaws]. *)

From S2P Require Import Prelude Sha1 PktLine Delta GitPack ObjectStore ObjectGraph.
Local Open Scope Z_scope.

(** ** Data *)

Record RefCommitInfo := mk_RefCommitInfo {
  rc_Commit : GitObject;
  rc_Objects : list GitObject;
}.

Record PackRequest := mk_PackRequest {
  pr_Wants : list string;
  pr_Haves : list string;
  pr_Done : bool;
  pr_ThinPack : bool;
  pr_OFSDelta : bool;
  pr_RefDelta : bool;
  pr_Depth : Z;
}.

Record PackResult := mk_PackResult { pr_ShallowCommits : list string }.

Inductive build_error :=
| ErrRefAdapter              (* the adapter failed *)
| ErrRefAdapterRequired
| ErrUnknownWant (want : string)
| ErrFuel
| ErrWritePack (e : pack_error).

(** ** Selection of objects *)

Record build_state := mk_build_state {
  bs_objects : list GitObject;
  bs_shallowCommits : list string;
  bs_seen : gset string;
}.

(** [if !seen[obj.OID] { seen[obj.OID] = true; objects = append(objects, obj) }] *)
Definition add_object (st : build_state) (obj : GitObject) : build_state :=
  if decide (go_OID obj ∈ bs_seen st) then st
  else mk_build_state (bs_objects st ++ [obj]) (bs_shallowCommits st)
         ({[go_OID obj]} ∪ bs_seen st).

(** The objects of one ref, as the map the depth-limited walk runs on. *)
Definition all_objects (info : RefCommitInfo) : gmap string GitObject :=
  foldl (λ m obj, <[go_OID obj := obj]> m)
    {[ go_OID (rc_Commit info) := rc_Commit info ]} (rc_Objects info).

Definition build_want (refCommits : gmap string RefCommitInfo) (haves : gset string)
    (depth : Z) (st : build_state) (want : string) : res build_error build_state :=
  if decide (want ∈ haves) then Ok st
  else
    match refCommits !! want with
    | None => Err (ErrUnknownWant want)
    | Some info =>
      if 0 <? depth then
        '(collected, shallow) ← map_err (λ _, ErrFuel)
          (collectCommitObjectsWithDepth (all_objects info) depth (go_OID (rc_Commit info)));
        let st := foldl add_object st collected in
        Ok (mk_build_state (bs_objects st) (bs_shallowCommits st ++ shallow) (bs_seen st))
      else Ok (foldl add_object (add_object st (rc_Commit info)) (rc_Objects info))
    end.

(** The adapter's answer is an argument: [None] when it fails. *)
Definition buildPackObjectsWithDepth (refCommits : option (gmap string RefCommitInfo))
    (wants : list string) (haves : gset string) (depth : Z)
  : res build_error (list GitObject * list string) :=
  match refCommits with
  | None => Err ErrRefAdapter
  | Some refCommits =>
    st ← foldM (build_want refCommits haves depth) (mk_build_state [] [] ∅) wants;
    let objects := match bs_objects st with [] => [buildEmptyTreeObject] | os => os end in
    Ok (objects, bs_shallowCommits st)
  end.

Definition buildPackObjects (refCommits : option (gmap string RefCommitInfo))
    (wants : list string) (haves : gset string) : res build_error (list GitObject) :=
  '(objects, _) ← buildPackObjectsWithDepth refCommits wants haves 0; Ok objects.

(** ** Deltas

    [iter m] is the order in which [range] visits the map [m]; Go leaves it
    open. *)
Section deltas.
Context {S : Type} `{ObjectStore S}.
Variable iter : gmap string GitObject → list GitObject.

(** The bases: what the store has of the client's objects, then the objects
    of the pack itself. *)
Definition collect_have (acc : S * gmap string GitObject) (oid : string)
  : res build_error (S * gmap string GitObject) :=
  '(store, obj) ← or_panic (os_get acc.1 oid);
  Ok (store, match obj with Some obj => <[oid := obj]> acc.2 | None => acc.2 end).

Definition try_base (obj : GitObject) (best : option (GitObject * bytes)) (base : GitObject)
  : res build_error (option (GitObject * bytes)) :=
  if bool_decide (go_OID base = go_OID obj) || negb (go_Type base =? go_Type obj) then Ok best
  else
    delta ← GenerateDelta (go_Data base) (go_Data obj);
    Ok (match delta, best with
        | None, _ => best
        | Some delta, None => Some (base, delta)
        | Some delta, Some (_, bestDelta) =>
          if zlen delta <? zlen bestDelta then Some (base, delta) else best
        end).

Definition best_base (baseObjects : gmap string GitObject) (obj : GitObject)
  : res build_error DeltaCandidate :=
  if negb (go_Type obj =? ObjectBlob) && negb (go_Type obj =? ObjectTree)
  then Ok (mk_DeltaCandidate obj "" None)
  else
    best ← foldM (try_base obj) None (iter baseObjects);
    Ok (match best with
        | Some (base, delta) => mk_DeltaCandidate obj (go_OID base) (Some delta)
        | None => mk_DeltaCandidate obj "" None
        end).

Definition buildDeltaCandidates (store : S) (objects : list GitObject) (haves : list string)
  : res build_error (S * list DeltaCandidate) :=
  '(store, baseObjects) ← foldM collect_have (store, ∅) haves;
  let baseObjects := foldl (λ m obj, <[go_OID obj := obj]> m) baseObjects objects in
  candidates ← foldM (λ acc obj, c ← best_base baseObjects obj; Ok (acc ++ [c])) [] objects;
  Ok (store, candidates).

(** ** The builder *)

Context `{Zlib}.

(** The write error is returned beside the result, so it does not hide it. *)
Definition write_result {W A} (w : W * res pack_error ()) (a : A)
  : W * res build_error A :=
  let '(w, r) := w in (w, _ ← map_err ErrWritePack r; Ok a).

(** [refAdapter]: [None] for a nil adapter, [Some None] for one that fails;
    [store] is [None] for a nil store. *)
Definition BuildPack `{IoWriter W} (refAdapter : option (option (gmap string RefCommitInfo)))
    (store : option S) (req : PackRequest) (w : W)
  : option S * (W * res build_error PackResult) :=
  if bool_decide (pr_Wants req = [])
  then (store, write_result (writeEmptyPack w) (mk_PackResult []))
  else
    match refAdapter with
    | None => (store, (w, Err ErrRefAdapterRequired))
    | Some refCommits =>
      let haves := list_to_set (filter (λ have, have ≠ "") (pr_Haves req)) in
      let built :=
        if 0 <? pr_Depth req
        then buildPackObjectsWithDepth refCommits (pr_Wants req) haves (pr_Depth req)
        else objects ← buildPackObjects refCommits (pr_Wants req) haves; Ok (objects, [])
      in
      match built with
      | Err e => (store, (w, Err e))
      | Panic => (store, (w, Panic))
      | Ok (objects, shallow) =>
        let store := (λ s, foldl os_put s objects) <$> store in
        match store with
        | Some s =>
          if pr_ThinPack req && (0 <? zlen (pr_Haves req)) then
            match buildDeltaCandidates s objects (pr_Haves req) with
            | Ok (s, candidates) =>
              (Some s, write_result (writePackWithDeltas w candidates) (mk_PackResult shallow))
            | Err e => (Some s, (w, Err e))
            | Panic => (Some s, (w, Panic))
            end
          else (Some s, write_result (writePack w objects) (mk_PackResult shallow))
        | None => (None, write_result (writePack w objects) (mk_PackResult shallow))
        end
      end
    end.
End deltas.

(** ** Lemmas on the selection *)

(** Everything listed under the wants that are not themselves named as haves,
    want by want: the commit of the want and the objects collected below it.
    What lies below a have stays in the list when it also lies below a want,
    although the client holds it. *)
Definition needed (refCommits : gmap string RefCommitInfo) (wants : list string)
    (haves : gset string) : list GitObject :=
  concat ((λ want, if decide (want ∈ haves) then []
                   else match refCommits !! want with
                        | Some info => rc_Commit info :: rc_Objects info
                        | None => [] end) <$> wants).

(** [os] lists one object for each identifier of [src], and nothing else. *)
Record dedup_of (src os : list GitObject) (seen : gset string) : Prop := mk_dedup_of {
  dd_nodup : NoDup (go_OID <$> os);
  dd_seen : seen = list_to_set (go_OID <$> os);
  dd_sub : ∀ o, o ∈ os → o ∈ src;
  dd_all : ∀ o, o ∈ src → go_OID o ∈ go_OID <$> os;
}.

Lemma add_object_dedup src st obj :
  dedup_of src (bs_objects st) (bs_seen st) →
  dedup_of (src ++ [obj]) (bs_objects (add_object st obj)) (bs_seen (add_object st obj)).
Proof.
  intros [H1 H2 H3 H4]. unfold add_object. case_decide as Hin; simpl.
  - split; [done|done|set_solver|]. intros o [Ho|Ho]%elem_of_app; [auto|].
    apply list_elem_of_singleton in Ho as ->. rewrite H2 in Hin. by apply elem_of_list_to_set in Hin.
  - rewrite H2 in *. split; rewrite ?fmap_app.
    + apply NoDup_app. split; [done|]. split; [|apply NoDup_singleton].
      intros x Hx ->%list_elem_of_singleton. apply Hin. by apply elem_of_list_to_set.
    + rewrite list_to_set_app_L. simpl. set_solver.
    + intros o. rewrite !elem_of_app. intros [?|?]; auto.
    + intros o. rewrite !elem_of_app. intros [?|Ho]; [auto|].
      apply list_elem_of_singleton in Ho as ->. right. by left.
Qed.

Lemma add_objects_dedup objs src st :
  dedup_of src (bs_objects st) (bs_seen st) →
  dedup_of (src ++ objs) (bs_objects (foldl add_object st objs))
    (bs_seen (foldl add_object st objs)).
Proof.
  revert src st. induction objs as [|o objs IH]; intros src st H; [by rewrite app_nil_r|].
  replace (src ++ o :: objs) with ((src ++ [o]) ++ objs) by (by rewrite <-app_assoc).
  apply IH. by apply add_object_dedup.
Qed.

Lemma add_objects_shallow objs st :
  bs_shallowCommits (foldl add_object st objs) = bs_shallowCommits st.
Proof.
  revert st. induction objs as [|o objs IH]; intros st; [done|]. cbn [foldl]. rewrite IH.
  unfold add_object. by destruct (decide _).
Qed.

Lemma build_wants_dedup rc haves wants src st :
  dedup_of src (bs_objects st) (bs_seen st) →
  match foldM (build_want rc haves 0) st wants with
  | Ok st' => dedup_of (src ++ needed rc wants haves) (bs_objects st') (bs_seen st') ∧
              (∀ want, want ∈ wants → want ∈ haves ∨ is_Some (rc !! want))
  | Err e => ∃ want, e = ErrUnknownWant want ∧ want ∈ wants ∧ (want ∉ haves) ∧ rc !! want = None
  | Panic => False
  end.
Proof.
  revert src st. induction wants as [|want wants IH]; intros src st H; simpl.
  { unfold needed. simpl. rewrite app_nil_r. split; [done|]. by intros ? ?%elem_of_nil. }
  unfold build_want at 2, needed. rewrite fmap_cons. cbn [concat].
  change (concat _) with (needed rc wants haves).
  case_decide as Hh; [|destruct (rc !! want) as [info|] eqn:E]; res_simpl.
  - specialize (IH src st H). destruct (foldM _ _ _) as [st'|e|]; [|destruct IH as (x & ? & ? & ? & ?); exists x; repeat split; (done || by right)|done].
    split; [apply IH|]. intros x [->|?]%elem_of_cons; [by left|]. by apply IH.
  - change (0 <? 0) with false. cbv iota beta. res_simpl.
    specialize (IH _ _ (add_objects_dedup (rc_Objects info) _ _
      (add_object_dedup _ st (rc_Commit info) H))).
    rewrite <-!app_assoc in IH. cbn [app] in IH.
    destruct (foldM _ _ _) as [st'|e|]; [|destruct IH as (x & ? & ? & ? & ?); exists x; repeat split; (done || by right)|done].
    split; [apply IH|]. intros x [->|?]%elem_of_cons; [right; by eexists|]. by apply IH.
  - exists want. repeat split; [by left|done|done].
Qed.

(** What the selection answers without a depth limit. *)
Lemma buildPackObjects_ok rc wants haves :
  match buildPackObjects (Some rc) wants haves with
  | Ok objects =>
    (∀ want, want ∈ wants → want ∈ haves ∨ is_Some (rc !! want)) ∧
    ((needed rc wants haves = [] ∧ objects = [buildEmptyTreeObject]) ∨
     (needed rc wants haves ≠ [] ∧
      dedup_of (needed rc wants haves) objects (list_to_set (go_OID <$> objects))))
  | Err e => ∃ want, e = ErrUnknownWant want ∧ want ∈ wants ∧ (want ∉ haves) ∧ rc !! want = None
  | Panic => False
  end.
Proof.
  unfold buildPackObjects, buildPackObjectsWithDepth.
  pose proof (build_wants_dedup rc haves wants [] (mk_build_state [] [] ∅)) as H.
  destruct (foldM _ _ _) as [st|e|]; res_simpl;
    (specialize (H ltac:(by split; [constructor|done|intros ? ?%elem_of_nil..]))).
  2,3: exact H.
  destruct H as [D Hw]. split; [done|]. cbn [app] in D. destruct D as [D1 D2 D3 D4].
  destruct (needed rc wants haves) as [|n ns] eqn:En.
  - left. split; [done|]. destruct (bs_objects st) as [|o os]; [done|].
    exfalso. apply (not_elem_of_nil o), D3. by left.
  - right. split; [done|]. destruct (bs_objects st) as [|o os]; [|by rewrite <-D2].
    exfalso. apply (not_elem_of_nil (go_OID n)), (D4 n). by left.
Qed.

Lemma insert_objects_lookup objs :
  NoDup (go_OID <$> objs) → ∀ m oid o,
  foldl insert_object m objs !! oid = Some o ↔
  (o ∈ objs ∧ go_OID o = oid) ∨ ((oid ∉ go_OID <$> objs) ∧ m !! oid = Some o).
Proof.
  induction objs as [|x objs IH]; intros Hnd m oid o; simpl.
  { split; [right; split; [apply not_elem_of_nil|done]|]. by intros [[?%elem_of_nil _]|[_ ?]]. }
  apply NoDup_cons in Hnd as [Hx Hnd]. rewrite IH by done. unfold insert_object.
  rewrite lookup_insert_Some, elem_of_cons, not_elem_of_cons. split.
  - intros [[??]|[Hn [[<- <-]|[??]]]]; [by left; auto|by left; auto|]. right. by repeat split.
  - intros [[[->|?] <-]|[[??] ?]]; [|by left|].
    + right. split; [done|]. by left.
    + right. split; [done|]. right. by split.
Qed.

(** ** Lemmas on the deltas *)

Section delta_lemmas.
Context {S : Type} `{ObjectStoreLaws S}.
Variable iter : gmap string GitObject → list GitObject.
Hypothesis iter_perm : ∀ m, iter m ≡ₚ (map_to_list m).*2.

(** The best base found so far: admissible, decodable and minimal among the
    bases [bs] already tried. *)
Definition best_so_far (obj : GitObject) (bs : list GitObject)
    (best : option (GitObject * bytes)) : Prop :=
  (∀ b d, best = Some (b, d) →
     b ∈ bs ∧ go_OID b ≠ go_OID obj ∧ go_Type b = go_Type obj ∧
     @GenerateDelta build_error (go_Data b) (go_Data obj) = Ok (Some d)) ∧
  (∀ b' d', b' ∈ bs → go_OID b' ≠ go_OID obj → go_Type b' = go_Type obj →
     @GenerateDelta build_error (go_Data b') (go_Data obj) = Ok (Some d') →
     ∃ b d, best = Some (b, d) ∧ zlen d ≤ zlen d').

Lemma try_base_best obj bs best base :
  best_so_far obj bs best →
  ∃ best', try_base obj best base = Ok best' ∧ best_so_far obj (bs ++ [base]) best'.
Proof.
  intros [B1 B2]. unfold try_base. case_match eqn:Eb.
  { eexists; split; [done|]. split.
    - intros b d Hb. destruct (B1 b d Hb) as [? ?]. split; [set_solver|done].
    - intros b' d' [Hin|Hin]%elem_of_app Hn Ht Hg; [by eapply B2|].
      apply list_elem_of_singleton in Hin as ->.
      apply orb_true_iff in Eb as [Eb|Eb]; bool_to_prop; done. }
  bool_to_prop.
  destruct (@GenerateDelta_spec build_error (go_Data base) (go_Data obj)) as (o & Hg & _).
  rewrite Hg. res_simpl. eexists; split; [done|]. destruct o as [d0|]; [|split].
  2: { intros b d Hb. destruct (B1 b d Hb) as [? ?]. split; [set_solver|done]. }
  2: { intros b' d' [Hin|Hin]%elem_of_app Hn Ht Hg'; [by eapply B2|].
       apply list_elem_of_singleton in Hin as ->. congruence. }
  assert (∀ bst, (bst = Some (base, d0) ∨ bst = best) →
            (∀ b d, bst = Some (b, d) → zlen d ≤ zlen d0) → is_Some bst →
            (∀ b d b' d', bst = Some (b, d) → best = Some (b', d') → zlen d ≤ zlen d') →
            best_so_far obj (bs ++ [base]) bst) as Hk.
  { intros bst Hc Hle [[b0 d00] Hs] Hle'. split.
    - intros b d Hb. destruct Hc as [->| ->].
      + injection Hb as <- <-. split; [set_solver|done].
      + destruct (B1 b d Hb) as [? ?]. split; [set_solver|done].
    - intros b' d' Hin Hn Ht Hg'. exists b0, d00. split; [done|].
      apply elem_of_app in Hin as [Hin|Hin].
      + destruct (B2 b' d' Hin Hn Ht Hg') as (b1 & d1 & Hb1 & ?).
        pose proof (Hle' b0 d00 b1 d1 Hs Hb1). lia.
      + apply list_elem_of_singleton in Hin as ->. rewrite Hg in Hg'.
        injection Hg' as <-. by eapply Hle. }
  destruct best as [[bb bd]|]; [destruct (zlen d0 <? zlen bd) eqn:El|]; bool_to_prop;
    apply Hk; try (by eauto); intros; simplify_eq; lia.
Qed.

Lemma best_base_ok bases obj :
  ∃ c, best_base iter bases obj = Ok c ∧ dc_Object c = obj ∧
    match dc_Delta c with
    | None => dc_BaseOID c = ""
    | Some d => go_Type obj ∈ [ObjectBlob; ObjectTree] ∧ ∃ best,
        best ∈ iter bases ∧ go_OID best = dc_BaseOID c ∧ dc_BaseOID c ≠ go_OID obj ∧
        go_Type best = go_Type obj ∧
        @GenerateDelta build_error (go_Data best) (go_Data obj) = Ok (Some d)
    end ∧
    (go_Type obj ∈ [ObjectBlob; ObjectTree] → ∀ b' d', b' ∈ iter bases →
       go_OID b' ≠ go_OID obj → go_Type b' = go_Type obj →
       @GenerateDelta build_error (go_Data b') (go_Data obj) = Ok (Some d') →
       ∃ d, dc_Delta c = Some d ∧ zlen d ≤ zlen d').
Proof.
  unfold best_base. case_match eqn:Et.
  { bool_to_prop. eexists; split; [done|]. split; [done|]. split; [done|].
    intros [Ht|[Ht|[]%elem_of_nil]%elem_of_cons]%elem_of_cons; congruence. }
  assert (go_Type obj ∈ [ObjectBlob; ObjectTree]) as Hty.
  { apply andb_false_iff in Et as [Et|Et]; bool_to_prop; rewrite Et; set_solver. }
  assert (∀ l bs best, best_so_far obj bs best →
    ∃ best', foldM (try_base obj) best l = Ok best' ∧ best_so_far obj (bs ++ l) best') as Hf.
  { induction l as [|x l IH]; intros bs best Hb; [exists best; by rewrite app_nil_r|].
    destruct (try_base_best obj bs best x Hb) as (b1 & Hb1 & Hok). cbn [foldM].
    rewrite Hb1. res_simpl. destruct (IH _ _ Hok) as (b2 & -> & ?).
    exists b2. by rewrite <-app_assoc in *. }
  destruct (Hf (iter bases) [] None) as (best & -> & [B1 B2]).
  { split; [done|]. by intros ? ? ?%elem_of_nil. }
  res_simpl. eexists; split; [done|]. destruct best as [[b d]|]; simpl.
  - split; [done|]. split.
    + split; [done|]. destruct (B1 b d eq_refl) as (? & ? & ? & ?). by exists b.
    + intros _ b' d' Hin Hn Ht' Hg. destruct (B2 b' d' Hin Hn Ht' Hg) as (? & ? & ? & ?).
      exists d. by simplify_eq.
  - split; [done|]. split; [done|]. intros _ b' d' Hin Hn Ht' Hg.
    by destruct (B2 b' d' Hin Hn Ht' Hg) as (? & ? & ? & ?).
Qed.

(** The objects that may serve as bases. *)
Definition available (store : S) (objects : list GitObject) (haves : list string)
    (b : GitObject) : Prop :=
  b ∈ objects ∨
  (b ∈ os_holds store ∧ go_OID b ∈ haves ∧ go_OID b ∉ go_OID <$> objects).

Lemma collect_haves_ok haves store m :
  os_ok store →
  ∃ store' m', foldM collect_have (store, m) haves = Ok (store', m') ∧ os_ok store' ∧
    (∀ o, o ∈ os_holds store' ↔ o ∈ os_holds store) ∧
    (∀ k o, m' !! k = Some o ↔
       (o ∈ os_holds store ∧ go_OID o = k ∧ k ∈ haves) ∨
       (m !! k = Some o ∧ (k ∈ haves → ¬ ∃ o', o' ∈ os_holds store ∧ go_OID o' = k))).
Proof.
  revert store m. induction haves as [|h haves IH]; intros store m Hok.
  { exists store, m. split; [done|]. split; [done|]. split; [done|]. intros k o. split.
    - intros Hk. right. split; [done|]. by intros ?%elem_of_nil.
    - intros [(_ & _ & []%elem_of_nil)|[Hk _]]. done. }
  cbn [foldM]. destruct (os_get_ok store h Hok) as (s1 & r & Hg & Hok1 & Hh & Hr).
  unfold collect_have at 2. cbn [fst snd]. rewrite Hg. res_simpl.
  destruct (IH s1 (match r with Some obj => <[h:=obj]> m | None => m end) Hok1)
    as (s2 & m2 & -> & Hok2 & Hh2 & Hm2).
  exists s2, m2. split; [done|]. split; [done|]. split; [intros o; by rewrite Hh2, Hh|].
  intros k o. rewrite Hm2, Hh, elem_of_cons. setoid_rewrite Hh.
  destruct (decide (k = h)) as [->|Hne].
  - destruct r as [ro|].
    + destruct (proj1 (Hr ro) eq_refl) as [Hro Hoid]. rewrite lookup_insert_eq. split.
      * intros [(?&?&?)|[[= <-] _]]; left; auto.
      * intros [(Ho & <- & _)|[_ Hn]]; [|exfalso; apply Hn; eauto].
        destruct (decide (go_OID o ∈ haves)); [by left|]. right. split; [|done].
        apply (proj2 (Hr o)). by split.
    + assert (∀ o', ¬ (o' ∈ os_holds store ∧ go_OID o' = h)) as Hno.
      { intros o' Ho'. by apply Hr in Ho'. }
      split; [intros [(?&?&?)|[? _]]; [by destruct (Hno o)|]|
              intros [(?&?&_)|[? _]]; [by destruct (Hno o)|]];
        right; (split; [done|]; intros _ [o' Ho']; by apply (Hno o')).
  - assert ((match r with Some obj => <[h:=obj]> m | None => m end) !! k = m !! k) as ->.
    { destruct r; [by rewrite lookup_insert_ne|done]. }
    split; (intros [(?&?&?)|[? ?]]; [left; tauto|right; split; [done|]; tauto]).
Qed.

Lemma buildDeltaCandidates_ok store objects haves :
  os_ok store → NoDup (go_OID <$> objects) →
  ∃ store' cands,
    buildDeltaCandidates iter store objects haves = Ok (store', cands) ∧ os_ok store' ∧
    (∀ o, o ∈ os_holds store' ↔ o ∈ os_holds store) ∧
    Forall2 (λ obj c, dc_Object c = obj ∧
      match dc_Delta c with
      | None => dc_BaseOID c = ""
      | Some d => go_Type obj ∈ [ObjectBlob; ObjectTree] ∧ ∃ best,
          available store objects haves best ∧ go_OID best = dc_BaseOID c ∧
          dc_BaseOID c ≠ go_OID obj ∧ go_Type best = go_Type obj ∧
          @GenerateDelta build_error (go_Data best) (go_Data obj) = Ok (Some d)
      end ∧
      (go_Type obj ∈ [ObjectBlob; ObjectTree] → ∀ b' d', available store objects haves b' →
         go_OID b' ≠ go_OID obj → go_Type b' = go_Type obj →
         @GenerateDelta build_error (go_Data b') (go_Data obj) = Ok (Some d') →
         ∃ d, dc_Delta c = Some d ∧ zlen d ≤ zlen d')) objects cands.
Proof.
  intros Hok Hnd. unfold buildDeltaCandidates.
  destruct (collect_haves_ok haves store ∅ Hok) as (s' & m & -> & Hok' & Hh & Hm). res_simpl.
  set (bases := foldl _ m objects).
  assert (∀ b, b ∈ iter bases ↔ available store objects haves b) as Hb.
  { intros b. rewrite (iter_perm bases), memory_holds. unfold available.
    pose proof (insert_objects_lookup objects Hnd m) as Hl.
    change (foldl insert_object m objects) with bases in Hl. setoid_rewrite Hl.
    setoid_rewrite Hm. setoid_rewrite lookup_empty. split.
    - intros (oid & [[? _]|[? [(?&<-&?)|[? _]]]]); [by left|by right|done].
    - intros [?|(?&?&?)]; exists (go_OID b); [by left|]. right. split; [done|]. by left. }
  assert (∀ l acc, ∃ cs,
    foldM (λ acc obj, c ← best_base iter bases obj; Ok (acc ++ [c])) acc l = Ok (acc ++ cs) ∧
    Forall2 (λ obj c, best_base iter bases obj = Ok c) l cs) as Hf.
  { induction l as [|x l IH]; intros acc; [exists []; by rewrite app_nil_r|]. cbn [foldM].
    destruct (best_base_ok bases x) as (c & Hc & _). rewrite Hc. res_simpl.
    destruct (IH (acc ++ [c])) as (cs & -> & ?). exists (c :: cs). rewrite <-app_assoc.
    split; [done|]. by constructor. }
  destruct (Hf objects []) as (cs & -> & Hcs). exists s', cs. split; [done|].
  split; [done|]. split; [done|]. eapply Forall2_impl; [exact Hcs|].
  intros obj c Hc. destruct (best_base_ok bases obj) as (c' & Hc' & H1 & H2 & H3).
  rewrite Hc in Hc'. injection Hc' as <-. split; [done|]. split.
  - destruct (dc_Delta c); [|done]. destruct H2 as (? & best & ? & ?). split; [done|].
    exists best. by rewrite <-Hb.
  - intros Ht b' d' Hav. apply H3; [done|]. by apply Hb.
Qed.
End delta_lemmas.

(** ** Properties *)

(** the objects of a fetch.  Without a depth limit the selection never
    panics.  It fails only on a want that the client does not have and that no
    ref resolves to.  Otherwise it answers, without repeating an identifier,
    an object for each identifier among the commits and objects of the wants
    the client lacks and nothing else, or the single empty tree when there is
    nothing to send. *)
Theorem buildPackObjects_spec (refCommits : gmap string RefCommitInfo)
    (wants : list string) (haves : gset string) :
  match buildPackObjects (Some refCommits) wants haves with
  | Ok objects =>
    (∀ want, want ∈ wants → want ∈ haves ∨ is_Some (refCommits !! want)) ∧
    NoDup (go_OID <$> objects) ∧
    (needed refCommits wants haves = [] → objects = [buildEmptyTreeObject]) ∧
    (needed refCommits wants haves ≠ [] →
       (∀ o, o ∈ objects → o ∈ needed refCommits wants haves) ∧
       (∀ o, o ∈ needed refCommits wants haves → go_OID o ∈ go_OID <$> objects))
  | Err e => ∃ want, e = ErrUnknownWant want ∧ want ∈ wants ∧ (want ∉ haves) ∧
                     refCommits !! want = None
  | Panic => False
  end.
Proof.
  pose proof (buildPackObjects_ok refCommits wants haves) as H.
  destruct (buildPackObjects _ _ _) as [objects|e|]; [|done|done].
  destruct H as [Hw [[Hn ->]|[Hn [D1 _ D3 D4]]]]; (split; [done|]).
  - split; [apply NoDup_singleton|]. by split.
  - by repeat split.
Qed.

(** What a whole fetch writes. *)
Lemma BuildPack_fetch_ok `{ZlibLaws} {S : Type} `{ObjectStore S}
    (iter : gmap string GitObject → list GitObject) (store : option S)
    (refCommits : gmap string RefCommitInfo) (req : PackRequest) (out : bytes) :
  let need := needed refCommits (pr_Wants req)
                (list_to_set (filter (λ have, have ≠ "") (pr_Haves req))) in
  pr_Depth req ≤ 0 → pr_ThinPack req = false → need ≠ [] →
  (∀ want, want ∈ pr_Wants req → is_Some (refCommits !! want)) →
  Forall valid_object need → zlen need < 2^32 →
  ∃ store' pk m,
    BuildPack iter (Some (Some refCommits)) store req (buffer out)
      = (store', (buffer (out ++ pk), Ok (mk_PackResult []))) ∧
    parseGitPack pk = Ok m ∧
    (∀ oid, is_Some (m !! oid) ↔ oid ∈ go_OID <$> need) ∧
    (∀ oid o, m !! oid = Some o → o ∈ need ∧ go_OID o = oid).
Proof.
  intros need Hd Ht Hne Hk Hv Hc. unfold BuildPack.
  assert (pr_Wants req ≠ []) as Hw.
  { intros E. apply Hne. subst need. by rewrite E. }
  rewrite bool_decide_eq_false_2 by done.
  rewrite (proj2 (Z.ltb_ge 0 (pr_Depth req))) by done.
  pose proof (buildPackObjects_ok refCommits (pr_Wants req)
    (list_to_set (filter (λ have, have ≠ "") (pr_Haves req)))) as Hs. fold need in Hs.
  destruct (buildPackObjects _ _ _) as [objects|e|]; [|exfalso|done].
  2: { destruct Hs as (want & _ & Hin & _ & Hn). destruct (Hk want Hin). congruence. }
  destruct Hs as [_ [[? _]|[_ [D1 _ D3 D4]]]]; [done|]. res_simpl. rewrite Ht. cbn [andb].
  assert (Forall valid_object objects) as Hvo.
  { apply Forall_forall. intros o Ho. rewrite Forall_forall in Hv. auto. }
  assert (zlen objects < 2^32) as Hco.
  { enough (length objects ≤ length need)%nat by (unfold zlen in *; lia).
    rewrite <-(length_fmap go_OID), <-(length_fmap go_OID need).
    apply submseteq_length, NoDup_submseteq; [done|].
    intros x (o & -> & Ho)%list_elem_of_fmap. apply list_elem_of_fmap. eauto. }
  destruct (write_then_parse objects out Hvo Hco) as (pk & Hwr & Hp).
  set (st := match store with Some s => Some (foldl os_put s objects) | None => None end).
  exists st, pk, (foldl insert_object ∅ objects).
  split; [destruct store; cbn; rewrite Hwr; done|]. split; [exact Hp|].
  pose proof (insert_objects_lookup objects D1 ∅) as Hl.
  assert (∀ oid o, foldl insert_object ∅ objects !! oid = Some o ↔ o ∈ objects ∧ go_OID o = oid)
    as Hl'.
  { intros oid o. rewrite Hl, lookup_empty. split; [by intros [?|[_ ?]]|by left]. }
  split.
  - intros oid. split.
    + intros [o Ho]. apply Hl' in Ho as [Ho <-]. apply list_elem_of_fmap. eauto.
    + intros (o & -> & Ho)%list_elem_of_fmap.
      apply D4, list_elem_of_fmap in Ho as (o' & -> & Ho'). exists o'. by apply Hl'.
  - intros oid o Ho. apply Hl' in Ho as [? ?]. auto.
Qed.

(** the identifiers listed under a want. *)
Definition listed (info : RefCommitInfo) : list string :=
  go_OID <$> (rc_Commit info :: rc_Objects info).

Lemma elem_of_needed refCommits wants haves oid :
  oid ∈ go_OID <$> needed refCommits wants haves ↔
  ∃ want info, want ∈ wants ∧ (want ∉ haves) ∧ refCommits !! want = Some info ∧
               oid ∈ listed info.
Proof.
  unfold needed, listed. rewrite list_elem_of_fmap. split.
  - intros (o & -> & (l & Hl & Ho)%elem_of_concat).
    apply list_elem_of_fmap in Hl as (want & -> & Hw).
    destruct (decide (want ∈ haves)); [set_solver|].
    destruct (refCommits !! want) as [info|] eqn:E; [|set_solver].
    exists want, info. repeat split; try done. by apply list_elem_of_fmap_2.
  - intros (want & info & Hw & Hh & E & (o & -> & Ho)%list_elem_of_fmap).
    exists o. split; [done|]. apply elem_of_concat.
    exists (rc_Commit info :: rc_Objects info). split; [|done].
    apply list_elem_of_fmap. exists want. split; [|done].
    rewrite decide_False by done. by rewrite E.
Qed.

(** C10: a whole fetch.  Take a request with wants, no depth limit and no
    thin pack, on known wants not all of which are haves, and hash-named
    objects.  The builder writes a pack that the parser reads back to exactly
    the objects listed under the wants that are not themselves named as
    haves: the parsed map has an object at an identifier if and only if it is
    that of such a want's commit or of an object below it, and every entry is
    that object.  The haves cut nothing else, so an object below a have that
    is also below a want is sent again.  The fetch is nevertheless complete:
    a client that holds everything below each have it names holds everything
    below each of its wants once it adds the pack. *)
Theorem BuildPack_fetch `{ZlibLaws} {S : Type} `{ObjectStore S}
    (iter : gmap string GitObject → list GitObject) (store : option S)
    (refCommits : gmap string RefCommitInfo) (req : PackRequest) (out : bytes) :
  let haves := list_to_set (filter (λ have, have ≠ "") (pr_Haves req)) : gset string in
  let need := needed refCommits (pr_Wants req) haves in
  pr_Depth req ≤ 0 → pr_ThinPack req = false → need ≠ [] →
  (∀ want, want ∈ pr_Wants req → is_Some (refCommits !! want)) →
  Forall valid_object need → zlen need < 2^32 →
  ∃ store' pk m,
    BuildPack iter (Some (Some refCommits)) store req (buffer out)
      = (store', (buffer (out ++ pk), Ok (mk_PackResult []))) ∧
    parseGitPack pk = Ok m ∧
    (∀ oid, is_Some (m !! oid) ↔
       ∃ want info, want ∈ pr_Wants req ∧ (want ∉ haves) ∧
                    refCommits !! want = Some info ∧ oid ∈ listed info) ∧
    (∀ oid o, m !! oid = Some o → o ∈ need ∧ go_OID o = oid) ∧
    (∀ client : gset string,
       (∀ have info oid, have ∈ haves → refCommits !! have = Some info →
                         oid ∈ listed info → oid ∈ client) →
       ∀ want info oid, want ∈ pr_Wants req → refCommits !! want = Some info →
                        oid ∈ listed info → oid ∈ client ∪ dom m).
Proof.
  intros haves need Hd Ht Hne Hk Hv Hc.
  destruct (BuildPack_fetch_ok iter store refCommits req out Hd Ht Hne Hk Hv Hc)
    as (store' & pk & m & Hb & Hp & Hd' & He).
  exists store', pk, m. split; [done|]. split; [done|].
  assert (∀ oid, is_Some (m !! oid) ↔
       ∃ want info, want ∈ pr_Wants req ∧ (want ∉ haves) ∧
                    refCommits !! want = Some info ∧ oid ∈ listed info) as Hm.
  { intros oid. by rewrite Hd', elem_of_needed. }
  split; [done|]. split; [done|]. intros client Hcl want info oid Hw Hi Ho.
  destruct (decide (want ∈ haves)); apply elem_of_union; [left; eauto|right].
  apply elem_of_dom, Hm. eauto 6.
Qed.

(** Choice of deltas.  Over any lawful object store and whatever order the
    map of bases is visited in, the choice never fails and keeps the objects
    in order and the store's contents.  A delta is only chosen for a blob or a
    tree, against another object of the same type that the pack contains or
    that the client has and the store still holds; applying it to that base
    gives the object back, it is over 20 bytes shorter than the object, and no
    delta against another admissible base is shorter. *)
Theorem buildDeltaCandidates_sound {S : Type} `{ObjectStoreLaws S}
    (iter : gmap string GitObject → list GitObject) (store : S)
    (objects : list GitObject) (haves : list string) :
  (∀ m, iter m ≡ₚ (map_to_list m).*2) → os_ok store → NoDup (go_OID <$> objects) →
  ∃ store' cands,
    buildDeltaCandidates iter store objects haves = Ok (store', cands) ∧ os_ok store' ∧
    (∀ o, o ∈ os_holds store' ↔ o ∈ os_holds store) ∧
    dc_Object <$> cands = objects ∧
    ∀ c d, c ∈ cands → dc_Delta c = Some d →
      go_Type (dc_Object c) ∈ [ObjectBlob; ObjectTree] ∧
      zlen d + 20 < zlen (go_Data (dc_Object c)) ∧
      (∃ base, available store objects haves base ∧ go_OID base = dc_BaseOID c ∧
         go_OID base ≠ go_OID (dc_Object c) ∧ go_Type base = go_Type (dc_Object c) ∧
         (zlen (go_Data base) < 2^24 → zlen (go_Data (dc_Object c)) ≤ max_alloc →
          applyDelta (go_Data base) d = Ok (go_Data (dc_Object c)))) ∧
      (∀ b' d', available store objects haves b' → go_OID b' ≠ go_OID (dc_Object c) →
         go_Type b' = go_Type (dc_Object c) →
         @GenerateDelta build_error (go_Data b') (go_Data (dc_Object c)) = Ok (Some d') →
         zlen d ≤ zlen d').
Proof.
  intros Hi Hok Hnd.
  destruct (buildDeltaCandidates_ok iter Hi store objects haves Hok Hnd)
    as (s' & cands & -> & Hok' & Hh & Hc).
  exists s', cands. split; [done|]. split; [done|]. split; [done|]. split.
  { clear Hnd. induction Hc as [|o c os cs [<- _] _ IH]; [done|]. by rewrite fmap_cons, IH. }
  intros c d Hin Hd. apply list_elem_of_lookup in Hin as [i Hi'].
  destruct (Forall2_lookup_r _ _ _ _ _ Hc Hi') as (obj & _ & <- & H1 & H2).
  rewrite Hd in *. destruct H1 as (Hty & base & Hav & Hb & Hne & Hbt & Hg).
  destruct (@GenerateDelta_decodes build_error (go_Data base) (go_Data (dc_Object c))) as (o & Ho & Hdec).
  rewrite Ho in Hg. injection Hg as ->. destruct (Hdec d eq_refl) as [Hlen Happ].
  split; [done|]. split; [done|]. split.
  - exists base. split; [done|]. split; [done|]. split; [by rewrite Hb|]. by split.
  - intros b' d' Hav' Hne' Hbt' Hg'.
    destruct (H2 Hty b' d' Hav' Hne' Hbt' Hg') as (d2 & [= <-] & ?). done.
Qed.

(** Two versions of one file, sent together. *)
Definition cycle_a : GitObject := Eval vm_compute in
  makeGitObject ObjectBlob (bytes_of "one: the quick brown fox jumps over the lazy dog, again and again").
Definition cycle_b : GitObject := Eval vm_compute in
  makeGitObject ObjectBlob (bytes_of "two: the quick brown fox jumps over the lazy dog, again and again").
Definition cycle_bases : gmap string GitObject :=
  <[go_OID cycle_b := cycle_b]> (<[go_OID cycle_a := cycle_a]> ∅).

Lemma perm_pair {A} (l : list A) x y : l ≡ₚ [x; y] → l = [x; y] ∨ l = [y; x].
Proof.
  intros H. apply Permutation_length_2_inv. by symmetry.
Qed.

(** Deltas may form a cycle.  When a thin fetch sends two similar new
    blobs, each of them is encoded as a delta against the other, in whatever
    order the map of bases is visited: the pack then holds neither in full,
    and a receiver that has neither reads back no object at all. *)
Theorem buildDeltaCandidates_cycle `{ZlibLaws}
    (iter : gmap string GitObject → list GitObject) :
  (∀ m, iter m ≡ₚ (map_to_list m).*2) →
  ∃ c1 c2 pk,
    buildDeltaCandidates iter (∅ : MemoryObjectStore) [cycle_a; cycle_b] ["have"]
      = Ok (∅, [c1; c2]) ∧
    dc_Object c1 = cycle_a ∧ dc_BaseOID c1 = go_OID cycle_b ∧
    dc_Object c2 = cycle_b ∧ dc_BaseOID c2 = go_OID cycle_a ∧
    writePackWithDeltas (buffer []) [c1; c2] = (buffer pk, Ok ()) ∧
    parseGitPack pk = Ok ∅.
Proof.
  intros Hi.
  set (d1 := match @GenerateDelta () (go_Data cycle_b) (go_Data cycle_a) with
             | Ok (Some d) => d | _ => [] end).
  set (d2 := match @GenerateDelta () (go_Data cycle_a) (go_Data cycle_b) with
             | Ok (Some d) => d | _ => [] end).
  vm_compute in d1. vm_compute in d2.
  exists (mk_DeltaCandidate cycle_a (go_OID cycle_b) (Some d1)),
         (mk_DeltaCandidate cycle_b (go_OID cycle_a) (Some d2)).
  assert (Forall valid_candidate
    [mk_DeltaCandidate cycle_a (go_OID cycle_b) (Some d1);
     mk_DeltaCandidate cycle_b (go_OID cycle_a) (Some d2)]) as Hv.
  { constructor; [|constructor; [|constructor]]; (split; [by vm_compute|]).
    - exists (default [] (hex_decode (go_OID cycle_b))). split; vm_compute; reflexivity.
    - exists (default [] (hex_decode (go_OID cycle_a))). split; vm_compute; reflexivity. }
  destruct (writePackWithDeltas_buffer [] _ Hv eq_refl) as (trailer & Ht & Hw).
  eexists. split; [|split; [reflexivity|split; [reflexivity|split; [reflexivity|
    split; [reflexivity|split; [exact Hw|]]]]]].
  - assert (iter cycle_bases = [cycle_a; cycle_b] ∨ iter cycle_bases = [cycle_b; cycle_a]) as Hp.
    { apply perm_pair. rewrite Hi.
      assert ((map_to_list cycle_bases).*2 = [cycle_a; cycle_b]
              ∨ (map_to_list cycle_bases).*2 = [cycle_b; cycle_a]) as [->| ->]
        by (first [left; vm_compute; reflexivity|right; vm_compute; reflexivity]);
        [done|apply perm_swap]. }
    unfold buildDeltaCandidates.
    change (foldM collect_have _ _) with
      (Ok ((∅ : MemoryObjectStore), ∅) : res build_error (MemoryObjectStore * gmap string GitObject)).
    res_simpl.
    change (foldl _ ∅ [cycle_a; cycle_b]) with cycle_bases.
    unfold best_base. destruct Hp as [->| ->]; vm_compute; reflexivity.
  - cbn [app]. unfold parseGitPack. rewrite parse_written by done. vm_compute. reflexivity.
Qed.

Lemma buildDeltaCandidates_cycle_witness :
  ∃ c1 c2 pk,
    buildDeltaCandidates (λ m, (map_to_list m).*2) (∅ : MemoryObjectStore)
      [cycle_a; cycle_b] ["have"] = Ok (∅, [c1; c2]) ∧
    @writePackWithDeltas stored_zlib _ _ (buffer []) [c1; c2] = (buffer pk, Ok ()).
Proof.
  destruct (@buildDeltaCandidates_cycle stored_zlib stored_zlib_laws
    (λ m, (map_to_list m).*2)) as (c1 & c2 & pk & H1 & _ & _ & _ & _ & H2 & _);
    [intros m; reflexivity|].
  exists c1, c2, pk. split; [exact H1|exact H2].
Defined.

Lemma buildDeltaCandidates_sound_witness :
  ∃ store' cands,
    buildDeltaCandidates (λ m, (map_to_list m).*2)
      ({[ go_OID cycle_a := cycle_a ]} : MemoryObjectStore) [cycle_b] [go_OID cycle_a]
      = Ok (store', cands) ∧
    dc_Object <$> cands = [cycle_b].
Proof.
  destruct (buildDeltaCandidates_sound (S:=MemoryObjectStore) (λ m, (map_to_list m).*2)
    {[ go_OID cycle_a := cycle_a ]} [cycle_b] [go_OID cycle_a]) as (s & c & Hc & _ & _ & Ho & _).
  - intros m. reflexivity.
  - apply map_Forall_singleton. reflexivity.
  - apply NoDup_singleton.
  - exists s, c. split; [exact Hc|exact Ho].
Defined.

(** Two references, the second one commit after the first with the same tree. *)
Definition fetch_refs : gmap string RefCommitInfo :=
  {[ go_OID demo_first := mk_RefCommitInfo demo_first [demo_tree; demo_blob];
     go_OID demo_second :=
       mk_RefCommitInfo demo_second [demo_first; demo_tree; demo_blob] ]}.
Definition fetch_req : PackRequest :=
  mk_PackRequest [go_OID demo_second] [go_OID demo_first] true false false false 0.

(** What the client has below its have is sent again. *)
Example fetch_resends :
  buildPackObjects (Some fetch_refs) (pr_Wants fetch_req) {[go_OID demo_first]}
    = Ok [demo_second; demo_first; demo_tree; demo_blob].
Proof. vm_compute. reflexivity. Qed.

Lemma BuildPack_fetch_witness :
  ∃ store' pk m,
    @BuildPack MemoryObjectStore _ (λ m, (map_to_list m).*2) stored_zlib _ _
      (Some (Some fetch_refs)) None fetch_req (buffer [])
      = (store', (buffer pk, Ok (mk_PackResult []))) ∧
    @parseGitPack stored_zlib pk = Ok m.
Proof.
  assert (needed fetch_refs (pr_Wants fetch_req)
            (list_to_set (filter (λ have, have ≠ "") (pr_Haves fetch_req)))
          = [demo_second; demo_first; demo_tree; demo_blob]) as Hn by (vm_compute; reflexivity).
  destruct (@BuildPack_fetch stored_zlib stored_zlib_laws MemoryObjectStore _
    (λ m, (map_to_list m).*2) None fetch_refs fetch_req []) as (s & pk & m & H1 & H2 & _).
  - by vm_compute.
  - reflexivity.
  - rewrite Hn. discriminate.
  - intros want Hw. apply list_elem_of_singleton in Hw as ->.
    eexists. vm_compute. reflexivity.
  - rewrite Hn. repeat (apply Forall_cons_2; [|]); [..|apply Forall_nil_2];
      (split; [apply (bool_decide_eq_true_1 (_ ∈ _)); vm_compute; reflexivity
              |split; [vm_compute; reflexivity|apply Z.leb_le; vm_compute; reflexivity]]).
  - rewrite Hn. reflexivity.
  - exists s, pk, m. split; [exact H1|exact H2].
Defined.
