(* ===== verification/Json.v ===== *)
(** * JSON as encoding/json writes and reads it

    The texts that are stored, hashed and sent: values with integer literals
    kept as text, the encoder with its string escapes, and the parser.  The
    round trip holds for every value whose strings are valid UTF-8. *)

From S2P Require Import Prelude.
Local Open Scope Z_scope.

(** ** UTF-8 *)

Definition in_range (lo hi : Z) (b : byte) : bool :=
  (lo <=? int_of_byte b) && (int_of_byte b <=? hi).

(** The length of the multi-byte rune at the head, as [utf8.DecodeRune] finds
    it; [None] for an invalid one. *)
Definition rune_size (s : bytes) : option nat :=
  match s with
  | b0 :: b1 :: rest =>
    if in_range 0xC2 0xDF b0 && in_range 0x80 0xBF b1 then Some 2%nat
    else
      match rest with
      | b2 :: rest =>
        if (in_range 0xE0 0xE0 b0 && in_range 0xA0 0xBF b1
            || (in_range 0xE1 0xEC b0 || in_range 0xEE 0xEF b0) && in_range 0x80 0xBF b1
            || in_range 0xED 0xED b0 && in_range 0x80 0x9F b1) && in_range 0x80 0xBF b2
        then Some 3%nat
        else
          match rest with
          | b3 :: _ =>
            if (in_range 0xF0 0xF0 b0 && in_range 0x90 0xBF b1
                || in_range 0xF1 0xF3 b0 && in_range 0x80 0xBF b1
                || in_range 0xF4 0xF4 b0 && in_range 0x80 0x8F b1)
               && in_range 0x80 0xBF b2 && in_range 0x80 0xBF b3
            then Some 4%nat else None
          | [] => None
          end
      | [] => None
      end
  | _ => None
  end.

(** [utf8.RuneError] in UTF-8 *)
Definition replacement : bytes := [Byte.xef; Byte.xbf; Byte.xbd].

(** [utf8.AppendRune] *)
Definition rune_bytes (c : Z) : bytes :=
  if c <? 0x80 then [byte_of_int c]
  else if c <? 0x800 then
    [byte_of_int (0xC0 + Z.shiftr c 6); byte_of_int (0x80 + Z.land c 0x3F)]
  else if (0xD800 <=? c) && (c <=? 0xDFFF) || (0x10FFFF <? c) then replacement
  else if c <? 0x10000 then
    [byte_of_int (0xE0 + Z.shiftr c 12); byte_of_int (0x80 + Z.land (Z.shiftr c 6) 0x3F);
     byte_of_int (0x80 + Z.land c 0x3F)]
  else
    [byte_of_int (0xF0 + Z.shiftr c 18); byte_of_int (0x80 + Z.land (Z.shiftr c 12) 0x3F);
     byte_of_int (0x80 + Z.land (Z.shiftr c 6) 0x3F); byte_of_int (0x80 + Z.land c 0x3F)].

Inductive valid_utf8 : bytes → Prop :=
| utf8_nil : valid_utf8 []
| utf8_ascii b s : int_of_byte b < 128 → valid_utf8 s → valid_utf8 (b :: s)
| utf8_rune r s : rune_size r = Some (length r) → valid_utf8 s → valid_utf8 (r ++ s).

(** ** Values *)

#[warnings="-register-all"]
Inductive json :=
| JNull
| JBool (b : bool)
| JNum (lit : bytes)
| JStr (s : bytes)
| JArr (l : list json)
| JObj (l : list (bytes * json)).

(** ** The encoder *)

Definition quote : byte := Byte.x22.
Definition backslash : byte := Byte.x5c.

(** [appendString] with HTML escaping, on one ASCII byte. *)
Definition escape_ascii (b : byte) : bytes :=
  let c := int_of_byte b in
  if (c =? 0x22) || (c =? 0x5C) then [backslash; b]
  else if c =? 8 then [backslash; Byte.x62]
  else if c =? 12 then [backslash; Byte.x66]
  else if c =? 10 then [backslash; Byte.x6e]
  else if c =? 13 then [backslash; Byte.x72]
  else if c =? 9 then [backslash; Byte.x74]
  else if (c <? 0x20) || (c =? 0x26) || (c =? 0x3C) || (c =? 0x3E) then
    [backslash; Byte.x75; Byte.x30; Byte.x30; hex_digit (Z.shiftr c 4); hex_digit (Z.land c 15)]
  else [b].

Definition line_sep (d : Z) : bytes := [Byte.xe2; Byte.x80; byte_of_int (0xA8 + d)].
Definition line_sep_escape (d : Z) : bytes :=
  [backslash; Byte.x75; Byte.x32; Byte.x30; Byte.x32; byte_of_int (0x38 + d)].

Fixpoint escape_loop (fuel : nat) (s : bytes) : bytes :=
  match fuel, s with
  | S fuel, b :: rest =>
    if int_of_byte b <? 128 then escape_ascii b ++ escape_loop fuel rest
    else
      match rune_size s with
      | Some n =>
        let r := take n s in
        (if decide (r = line_sep 0) then line_sep_escape 0
         else if decide (r = line_sep 1) then line_sep_escape 1 else r)
        ++ escape_loop fuel (drop n s)
      | None => bytes_of "\ufffd" ++ escape_loop fuel rest
      end
  | _, _ => []
  end.

Definition marshal_string (s : bytes) : bytes :=
  quote :: escape_loop (length s) s ++ [quote].

Definition sep_by (sep : byte) (l : list bytes) : bytes :=
  match l with
  | [] => []
  | x :: l => x ++ concat ((λ y, sep :: y) <$> l)
  end.

Definition comma : byte := Byte.x2c.
Definition colon : byte := Byte.x3a.

(** [json.Marshal]; the fields of an object are written in the order given. *)
Fixpoint marshal (v : json) : bytes :=
  match v with
  | JNull => bytes_of "null"
  | JBool true => bytes_of "true"
  | JBool false => bytes_of "false"
  | JNum lit => lit
  | JStr s => marshal_string s
  | JArr l => Byte.x5b :: sep_by comma (map marshal l) ++ [Byte.x5d]
  | JObj l => Byte.x7b
      :: sep_by comma (map (λ kv, marshal_string kv.1 ++ colon :: marshal kv.2) l)
      ++ [Byte.x7d]
  end.

(** *** Integers: [strconv.AppendInt] *)

Definition digit (d : Z) : byte := byte_of_int (48 + d).

Fixpoint dec_digits (fuel : nat) (n : Z) : bytes :=
  match fuel with
  | O => []
  | S fuel => if n <? 10 then [digit n]
              else dec_digits fuel (n `div` 10) ++ [digit (n `mod` 10)]
  end.

(** Twenty digits are enough for 64 bits. *)
Definition int_lit (z : Z) : bytes :=
  if z <? 0 then Byte.x2d :: dec_digits 20 (- z) else dec_digits 20 z.
Definition JInt (z : Z) : json := JNum (int_lit z).

(** *** Maps: [json.Marshal] writes the keys in increasing byte order *)

Definition field_le (x y : bytes * json) : Prop := bytes_leb x.1 y.1 = true.
#[export] Instance field_le_dec x y : Decision (field_le x y).
Proof. unfold field_le. apply _. Defined.
Definition JMap (l : list (bytes * json)) : json := JObj (merge_sort field_le l).

(** *** Byte slices: base64 *)

Definition b64_digit (d : Z) : byte :=
  byte_of_int (if d <? 26 then 65 + d else if d <? 52 then 71 + d
               else if d <? 62 then d - 4 else if d =? 62 then 43 else 47).
Definition b64_value (b : byte) : option Z :=
  let c := int_of_byte b in
  if (65 <=? c) && (c <=? 90) then Some (c - 65)
  else if (97 <=? c) && (c <=? 122) then Some (c - 71)
  else if (48 <=? c) && (c <=? 57) then Some (c + 4)
  else if c =? 43 then Some 62 else if c =? 47 then Some 63 else None.

Definition pad : byte := Byte.x3d.

Fixpoint b64_encode (l : bytes) : bytes :=
  match l with
  | [] => []
  | [a] => let x := int_of_byte a in
    [b64_digit (x `div` 4); b64_digit (x `mod` 4 * 16); pad; pad]
  | [a; b] => let x := int_of_byte a in let y := int_of_byte b in
    [b64_digit (x `div` 4); b64_digit (x `mod` 4 * 16 + y `div` 16);
     b64_digit (y `mod` 16 * 4); pad]
  | a :: b :: c :: l =>
    let x := int_of_byte a in let y := int_of_byte b in let z := int_of_byte c in
    b64_digit (x `div` 4) :: b64_digit (x `mod` 4 * 16 + y `div` 16)
    :: b64_digit (y `mod` 16 * 4 + z `div` 64) :: b64_digit (z `mod` 64) :: b64_encode l
  end.

(** [base64.StdEncoding.DecodeString]: line breaks are skipped, trailing bits
    of a padded quantum are ignored. *)
Fixpoint b64_decode_loop (l : bytes) : option bytes :=
  match l with
  | [] => Some []
  | a :: b :: c :: d :: l =>
    match b64_value a, b64_value b with
    | Some x, Some y =>
      match b64_value c, b64_value d with
      | Some z, Some w =>
        match b64_decode_loop l with
        | Some r => Some (byte_of_int (x * 4 + y `div` 16)
                          :: byte_of_int (y `mod` 16 * 16 + z `div` 4)
                          :: byte_of_int (z `mod` 4 * 64 + w) :: r)
        | None => None
        end
      | Some z, None =>
        if decide (d = pad ∧ l = [])
        then Some [byte_of_int (x * 4 + y `div` 16); byte_of_int (y `mod` 16 * 16 + z `div` 4)]
        else None
      | None, _ => if decide (c = pad ∧ d = pad ∧ l = [])
                   then Some [byte_of_int (x * 4 + y `div` 16)] else None
      end
    | _, _ => None
    end
  | _ => None
  end.
Definition b64_decode (l : bytes) : option bytes :=
  b64_decode_loop (filter (λ b, b ≠ Byte.x0a ∧ b ≠ Byte.x0d) l).

(** ** The parser *)

Definition is_space (b : byte) : bool :=
  let c := int_of_byte b in (c =? 32) || (c =? 9) || (c =? 10) || (c =? 13).

Fixpoint skip_space (s : bytes) : bytes :=
  match s with
  | b :: r => if is_space b then skip_space r else s
  | [] => []
  end.

(** Four hexadecimal digits *)
Definition hex4 (s : bytes) : option (Z * bytes) :=
  match s with
  | a :: b :: c :: d :: rest =>
    match hex_number 0 [a; b; c; d] with Some n => Some (n, rest) | None => None end
  | _ => None
  end.

(** The rune of an escape that started with [u]: surrogate pairs are combined,
    a lone surrogate is replaced. *)
Definition unescape_u (rest : bytes) : option (bytes * bytes) :=
  match hex4 rest with
  | None => None
  | Some (c, rest1) =>
    if (0xD800 <=? c) && (c <? 0xE000) then
      match rest1 with
      | b1 :: b2 :: rest2 =>
        if decide (b1 = backslash ∧ b2 = Byte.x75) then
          match hex4 rest2 with
          | Some (c2, rest3) =>
            if (c <? 0xDC00) && (0xDC00 <=? c2) && (c2 <? 0xE000)
            then Some (rune_bytes ((c - 0xD800) * 0x400 + (c2 - 0xDC00) + 0x10000), rest3)
            else Some (replacement, rest1)
          | None => Some (replacement, rest1)
          end
        else Some (replacement, rest1)
      | _ => Some (replacement, rest1)
      end
    else Some (rune_bytes c, rest1)
  end.

Definition unescape (b : byte) (rest : bytes) : option (bytes * bytes) :=
  let c := int_of_byte b in
  if (c =? 0x22) || (c =? 0x5C) || (c =? 0x2F) then Some ([b], rest)
  else if c =? 0x62 then Some ([Byte.x08], rest)
  else if c =? 0x66 then Some ([Byte.x0c], rest)
  else if c =? 0x6e then Some ([Byte.x0a], rest)
  else if c =? 0x72 then Some ([Byte.x0d], rest)
  else if c =? 0x74 then Some ([Byte.x09], rest)
  else if c =? 0x75 then unescape_u rest
  else None.

(** The rest of a string literal after its opening quote. *)
Fixpoint parse_string (fuel : nat) (s : bytes) : option (bytes * bytes) :=
  match fuel, s with
  | S fuel, b :: rest =>
    if decide (b = quote) then Some ([], rest)
    else
      match
        (if decide (b = backslash) then
           match rest with b' :: rest' => unescape b' rest' | [] => None end
         else if int_of_byte b <? 0x20 then None
         else if int_of_byte b <? 128 then Some ([b], rest)
         else match rune_size s with
              | Some n => Some (take n s, drop n s)
              | None => Some (replacement, rest)
              end)
      with
      | Some (r, rest) =>
        match parse_string fuel rest with
        | Some (t, rest) => Some (r ++ t, rest)
        | None => None
        end
      | None => None
      end
  | _, _ => None
  end.

Definition is_digit (b : byte) : bool := in_range 48 57 b.
Definition number_char (b : byte) : bool :=
  let c := int_of_byte b in
  is_digit b || (c =? 43) || (c =? 45) || (c =? 46) || (c =? 69) || (c =? 101).

Fixpoint span (f : byte → bool) (s : bytes) : bytes * bytes :=
  match s with
  | b :: r => if f b then let '(x, y) := span f r in (b :: x, y) else ([], s)
  | [] => ([], [])
  end.

Definition valid_exponent (s : bytes) : bool :=
  match s with
  | [] => true
  | e :: s =>
    ((int_of_byte e =? 69) || (int_of_byte e =? 101)) &&
    let s := match s with
             | b :: r => if (int_of_byte b =? 43) || (int_of_byte b =? 45) then r else s
             | [] => s end in
    let '(ds, r) := span is_digit s in
    negb (bool_decide (ds = [])) && bool_decide (r = [])
  end.

Definition valid_fraction (s : bytes) : bool :=
  match s with
  | b :: s' =>
    if int_of_byte b =? 46 then
      let '(ds, r) := span is_digit s' in negb (bool_decide (ds = [])) && valid_exponent r
    else valid_exponent s
  | [] => true
  end.

Definition valid_number (s : bytes) : bool :=
  let s := match s with b :: r => if int_of_byte b =? 45 then r else s | [] => s end in
  match s with
  | b :: r => if int_of_byte b =? 48 then valid_fraction r
              else is_digit b && valid_fraction (span is_digit r).2
  | [] => false
  end.

Definition literal (lit : bytes) (v : json) (s : bytes) : option (json * bytes) :=
  if has_prefix_b lit s then Some (v, drop (length lit) s) else None.

Fixpoint parse_value (fuel : nat) (s : bytes) {struct fuel} : option (json * bytes) :=
  match fuel, skip_space s with
  | S fuel, b :: r =>
    let c := int_of_byte b in
    if c =? 0x7B then
      match skip_space r with
      | b' :: r' => if int_of_byte b' =? 0x7D then Some (JObj [], r')
                    else match parse_members fuel r with
                         | Some (l, r) => Some (JObj l, r) | None => None end
      | [] => None
      end
    else if c =? 0x5B then
      match skip_space r with
      | b' :: r' => if int_of_byte b' =? 0x5D then Some (JArr [], r')
                    else match parse_elements fuel r with
                         | Some (l, r) => Some (JArr l, r) | None => None end
      | [] => None
      end
    else if c =? 0x22 then
      match parse_string (length r) r with Some (t, r) => Some (JStr t, r) | None => None end
    else if c =? 0x6E then literal (bytes_of "null") JNull (b :: r)
    else if c =? 0x74 then literal (bytes_of "true") (JBool true) (b :: r)
    else if c =? 0x66 then literal (bytes_of "false") (JBool false) (b :: r)
    else
      let '(lit, r) := span number_char (b :: r) in
      if valid_number lit then Some (JNum lit, r) else None
  | _, _ => None
  end
with parse_elements (fuel : nat) (s : bytes) {struct fuel} : option (list json * bytes) :=
  match fuel with
  | O => None
  | S fuel =>
    match parse_value fuel s with
    | Some (v, r) =>
      match skip_space r with
      | b :: r =>
        if int_of_byte b =? 0x2C then
          match parse_elements fuel r with Some (l, r) => Some (v :: l, r) | None => None end
        else if int_of_byte b =? 0x5D then Some ([v], r) else None
      | [] => None
      end
    | None => None
    end
  end
with parse_members (fuel : nat) (s : bytes) {struct fuel}
  : option (list (bytes * json) * bytes) :=
  match fuel, skip_space s with
  | S fuel, q :: r =>
    if decide (q = quote) then
      match parse_string (length r) r with
      | Some (k, r) =>
        match skip_space r with
        | b :: r =>
          if int_of_byte b =? 0x3A then
            match parse_value fuel r with
            | Some (v, r) =>
              match skip_space r with
              | b :: r =>
                if int_of_byte b =? 0x2C then
                  match parse_members fuel r with
                  | Some (l, r) => Some ((k, v) :: l, r) | None => None end
                else if int_of_byte b =? 0x7D then Some ([(k, v)], r) else None
              | [] => None
              end
            | None => None
            end
          else None
        | [] => None
        end
      | None => None
      end
    else None
  | _, _ => None
  end.

(** The syntax check of [json.Unmarshal], with the value it finds. *)
Definition parse (s : bytes) : option json :=
  match parse_value (S (length s)) s with
  | Some (v, r) => if bool_decide (skip_space r = []) then Some v else None
  | None => None
  end.

(** *** Reading fields into Go values *)

(** The value an object gives to a field: the last one of that name.  Go also
    accepts a name that differs in case; such keys are not modelled. *)
Definition field (k : bytes) (v : json) : option json :=
  match v with
  | JObj l => last (omap (λ kv, if decide (kv.1 = k) then Some kv.2 else None) l)
  | _ => None
  end.

Fixpoint dec_value (acc : Z) (s : bytes) : option Z :=
  match s with
  | [] => Some acc
  | b :: s => if is_digit b then dec_value (acc * 10 + (int_of_byte b - 48)) s else None
  end.

(** [strconv.ParseInt(lit, 10, 64)] on a number literal *)
Definition int_value (lit : bytes) : option Z :=
  match lit with
  | b :: r =>
    match (if int_of_byte b =? 45 then Z.opp <$> dec_value 0 r else dec_value 0 lit) with
    | Some z => if (- 2^63 <=? z) && (z <? 2^63) then Some z else None
    | None => None
    end
  | [] => None
  end.

(** ** Round trip *)

Lemma rune_size_shape r :
  rune_size r = Some (length r) →
  ∃ b0 b1 r', r = b0 :: b1 :: r' ∧ 128 ≤ int_of_byte b0 ∧ (length r' ≤ 2)%nat.
Proof.
  intros H. destruct r as [|b0 [|b1 r]]; [done|done|].
  exists b0, b1, r. split; [done|].
  destruct r as [|b2 [|b3 [|b4 r]]]; simpl in H; unfold in_range in H;
    repeat (case_match; simplify_eq/=);
    split; try lia; bool_to_prop;
    repeat match goal with
           | H : (_ || _)%bool = true |- _ => apply orb_true_iff in H as [H|H]
           | _ => progress bool_to_prop
           end; lia.
Qed.

Lemma rune_size_app r s :
  rune_size r = Some (length r) → rune_size (r ++ s) = Some (length r).
Proof.
  intros H. destruct (rune_size_shape r H) as (b0 & b1 & r' & -> & _ & Hl).
  destruct r' as [|b2 [|b3 [|b4 r']]]; simpl in *; [| | |lia].
  - case_match; [done|discriminate].
  - case_match; [discriminate|]. case_match; [done|discriminate].
  - case_match; [discriminate|]. case_match; [discriminate|]. by case_match.
Qed.

Lemma escape_ascii_inv b :
  int_of_byte b < 128 →
  (escape_ascii b = [b] ∧ b ≠ quote ∧ b ≠ backslash ∧ 0x20 ≤ int_of_byte b) ∨
  (∃ b' tl, escape_ascii b = backslash :: b' :: tl ∧
            ∀ rest, unescape b' (tl ++ rest) = Some ([b], rest)).
Proof.
  intros H. destruct b; try (exfalso; vm_compute in H; discriminate H);
    first [left; split; [reflexivity|]; split; [discriminate|]; split; [discriminate|];
           vm_compute; discriminate
          |right; eexists _, _; split; [reflexivity|]; intros rest; reflexivity].
Qed.

Lemma parse_string_escape s :
  valid_utf8 s → ∀ n fuel rest, (length s ≤ n)%nat →
  (length (escape_loop n s) < fuel)%nat →
  parse_string fuel (escape_loop n s ++ quote :: rest) = Some (s, rest).
Proof.
  induction 1 as [|b s Hb Hs IH|r s Hr Hs IH]; intros n fuel rest Hn Hf.
  - destruct n; (destruct fuel as [|fuel]; [simpl in Hf; lia|reflexivity]).
  - destruct n as [|n]; [simpl in Hn; lia|]. cbn [escape_loop] in *.
    rewrite (proj2 (Z.ltb_lt _ _)) in * by lia. rewrite length_app in Hf.
    simpl in Hn.
    destruct (escape_ascii_inv b Hb) as [(E & Hq & Hbs & Hc)|(b' & tl & E & Hu)];
      rewrite E in *; (destruct fuel as [|fuel]; [simpl in Hf; lia|]); simpl in Hf.
    + cbn [app parse_string]. rewrite !decide_False by done.
      rewrite (proj2 (Z.ltb_ge _ _)), (proj2 (Z.ltb_lt _ _)) by lia.
      by rewrite IH by lia.
    + cbn [app parse_string]. rewrite decide_False by done. rewrite decide_True by done.
      rewrite <-app_assoc, Hu. by rewrite IH by lia.
  - destruct (rune_size_shape r Hr) as (b0 & b1 & r' & Er & H128 & _).
    rewrite length_app in Hn.
    assert (∃ m, n = S m ∧ (length s ≤ m)%nat) as (m & -> & Hm).
    { rewrite Er in Hn. simpl in Hn. destruct n; [lia|]. eexists; split; [done|lia]. }
    assert (escape_loop (S m) (r ++ s) =
      (if decide (r = line_sep 0) then line_sep_escape 0
       else if decide (r = line_sep 1) then line_sep_escape 1 else r) ++ escape_loop m s) as Ee.
    { transitivity (match rune_size (r ++ s) with
        | Some n => (if decide (take n (r ++ s) = line_sep 0) then line_sep_escape 0
             else if decide (take n (r ++ s) = line_sep 1) then line_sep_escape 1
             else take n (r ++ s)) ++ escape_loop m (drop n (r ++ s))
        | None => bytes_of "\ufffd" ++ escape_loop m (b1 :: r' ++ s) end).
      - rewrite Er. cbn [app escape_loop]. rewrite (proj2 (Z.ltb_ge _ _)) by lia. done.
      - rewrite rune_size_app by done. by rewrite take_app_length, drop_app_length. }
    rewrite Ee in *. rewrite length_app in Hf. rewrite <-app_assoc.
    destruct (decide (r = line_sep 0)) as [->|_]; [|destruct (decide (r = line_sep 1)) as [->|_]].
    1,2: (destruct fuel as [|fuel]; [simpl in Hf; lia|]); simpl in Hf;
      cbn [app parse_string line_sep_escape];
      rewrite decide_False by done; rewrite decide_True by done.
    1: change (unescape Byte.x75 _) with (Some (line_sep 0, escape_loop m s ++ quote :: rest)).
    2: change (unescape Byte.x75 _) with (Some (line_sep 1, escape_loop m s ++ quote :: rest)).
    1,2: cbv iota beta; by rewrite IH by lia.
    destruct fuel as [|fuel]; [lia|].
    assert (parse_string (S fuel) (r ++ escape_loop m s ++ quote :: rest) =
      match parse_string fuel (escape_loop m s ++ quote :: rest) with
      | Some (t, rest) => Some (r ++ t, rest) | None => None end) as ->.
    { pose proof (rune_size_app r (escape_loop m s ++ quote :: rest) Hr) as Hra.
      assert (∀ f x, parse_string (S f) (r ++ x) =
        match rune_size (r ++ x) with
        | Some n => match parse_string f (drop n (r ++ x)) with
                    | Some (t, rest) => Some (take n (r ++ x) ++ t, rest) | None => None end
        | None => match parse_string f (b1 :: r' ++ x) with
                    | Some (t, rest) => Some (replacement ++ t, rest) | None => None end
        end) as Hp.
      { intros f x. rewrite Er. cbn [app parse_string].
        assert (b0 ≠ quote ∧ b0 ≠ backslash) as [??].
        { clear -H128. split; intros ->; by vm_compute in H128. }
        rewrite !decide_False by done.
        rewrite (proj2 (Z.ltb_ge _ _)), (proj2 (Z.ltb_ge _ 128)) by lia.
        destruct (rune_size (b0 :: b1 :: r' ++ x)); reflexivity. }
      rewrite Hp, Hra. by rewrite take_app_length, drop_app_length. }
    rewrite IH; [done|lia|]. rewrite Er in Hf. simpl in Hf. lia.
Qed.

Lemma parse_marshal_string s rest :
  valid_utf8 s →
  parse_string (length (escape_loop (length s) s ++ quote :: rest))
    (escape_loop (length s) s ++ quote :: rest) = Some (s, rest).
Proof.
  intros Hs. apply parse_string_escape; [done|lia|].
  rewrite length_app. simpl. lia.
Qed.

(** Values that the encoder writes faithfully. *)
Fixpoint ok_json (v : json) : Prop :=
  match v with
  | JNum lit => valid_number lit = true ∧ forallb number_char lit = true
  | JStr s => valid_utf8 s
  | JArr l => foldr (λ v P, ok_json v ∧ P) True l
  | JObj l => foldr (λ kv P, (valid_utf8 kv.1 ∧ ok_json kv.2) ∧ P) True l
  | _ => True
  end.

(** Where a number literal ends. *)
Definition number_end (rest : bytes) : Prop :=
  match rest with b :: _ => number_char b = false | [] => True end.

Lemma span_app f a b :
  forallb f a = true → match b with x :: _ => f x = false | [] => True end →
  span f (a ++ b) = (a, b).
Proof.
  intros Ha Hb. induction a as [|x a IH]; simpl in *.
  - destruct b as [|x b]; [done|]. simpl. by rewrite Hb.
  - apply andb_prop in Ha as [-> Ha]. by rewrite IH.
Qed.

(** The first byte of a literal tells numbers from everything else. *)
Lemma valid_number_head lit :
  valid_number lit = true → ∃ b r, lit = b :: r ∧ is_space b = false ∧
    (int_of_byte b =? 0x7B) = false ∧ (int_of_byte b =? 0x5B) = false ∧
    (int_of_byte b =? 0x22) = false ∧ (int_of_byte b =? 0x6E) = false ∧
    (int_of_byte b =? 0x74) = false ∧ (int_of_byte b =? 0x66) = false ∧
    (int_of_byte b =? 0x5D) = false ∧ (int_of_byte b =? 0x7D) = false.
Proof.
  destruct lit as [|b r]; [done|]. intros H. exists b, r. split; [done|].
  unfold is_space.
  assert (int_of_byte b = 45 ∨ 48 ≤ int_of_byte b ≤ 57) as Hb.
  { unfold valid_number in H. cbv zeta in H.
    destruct (int_of_byte b =? 45) eqn:E; [bool_to_prop; by left|right].
    destruct (int_of_byte b =? 48) eqn:E48; [bool_to_prop; lia|].
    apply andb_prop in H as [H _]. unfold is_digit, in_range in H. bool_to_prop. lia. }
  repeat (rewrite (proj2 (Z.eqb_neq _ _)) by lia). done.
Qed.

(** The encoder never starts with a space or a closing bracket. *)
Lemma marshal_head v :
  ok_json v → ∃ b r, marshal v = b :: r ∧ is_space b = false ∧
    (int_of_byte b =? 0x5D) = false ∧ (int_of_byte b =? 0x7D) = false.
Proof.
  destruct v as [|[]|lit|s|l|l]; intros Hv; try (eexists _, _; split; [reflexivity|done]).
  destruct Hv as [Hv _].
  destruct (valid_number_head lit Hv) as (b & r & -> & ? & _ & _ & _ & _ & _ & _ & ? & ?).
  exists b, r. done.
Qed.

Lemma skip_space_head b r : is_space b = false → skip_space (b :: r) = b :: r.
Proof. intros H. simpl. by rewrite H. Qed.

Lemma sep_by_cons sep x y l :
  sep_by sep (x :: y :: l) = x ++ sep :: sep_by sep (y :: l).
Proof. done. Qed.

Section json_ind.
Variable P : json → Prop.
Hypothesis Hnull : P JNull.
Hypothesis Hbool : ∀ b, P (JBool b).
Hypothesis Hnum : ∀ lit, P (JNum lit).
Hypothesis Hstr : ∀ s, P (JStr s).
Hypothesis Harr : ∀ l, Forall P l → P (JArr l).
Hypothesis Hobj : ∀ l, Forall (λ kv, P kv.2) l → P (JObj l).

Fixpoint json_nested_ind (v : json) : P v :=
  match v with
  | JNull => Hnull
  | JBool b => Hbool b
  | JNum lit => Hnum lit
  | JStr s => Hstr s
  | JArr l => Harr l
      ((fix go l : Forall P l := match l with
          | [] => Forall_nil_2 _
          | x :: l => Forall_cons_2 _ _ _ (json_nested_ind x) (go l) end) l)
  | JObj l => Hobj l
      ((fix go l : Forall (λ kv, P kv.2) l := match l with
          | [] => Forall_nil_2 _
          | x :: l => Forall_cons_2 (λ kv, P kv.2) _ _ (json_nested_ind x.2) (go l) end) l)
  end.
End json_ind.

Definition reads_back (v : json) : Prop :=
  ∀ fuel rest, ok_json v → number_end rest → (length (marshal v) < fuel)%nat →
    parse_value fuel (marshal v ++ rest) = Some (v, rest).

Lemma parse_elements_marshal l v fuel rest :
  Forall reads_back (v :: l) → ok_json (JArr (v :: l)) →
  (length (sep_by comma (map marshal (v :: l))) + 1 < fuel)%nat →
  parse_elements fuel (sep_by comma (map marshal (v :: l)) ++ Byte.x5d :: rest)
  = Some (v :: l, rest).
Proof.
  revert v fuel. induction l as [|w l IH]; intros v fuel Hl Hok Hf;
    (destruct fuel as [|fuel]; [lia|]); apply Forall_cons in Hl as [Hv Hl];
    destruct Hok as [Hv' Hok].
  - cbn [map sep_by fmap list_fmap concat] in *. rewrite app_nil_r in *.
    cbn [parse_elements]. rewrite Hv by (done || lia). done.
  - cbn [map] in *. rewrite sep_by_cons in *. rewrite length_app in Hf.
    cbn [length] in Hf. rewrite <-app_assoc. cbn [app parse_elements].
    rewrite Hv by (done || lia). rewrite (skip_space_head comma) by done.
    change (int_of_byte comma =? 0x2C) with true. cbv iota.
    rewrite IH; [done|done|done|lia].
Qed.

Definition marshal_member (kv : bytes * json) : bytes :=
  marshal_string kv.1 ++ colon :: marshal kv.2.

Lemma parse_members_marshal l kv fuel rest :
  Forall (λ kv, reads_back kv.2) (kv :: l) → ok_json (JObj (kv :: l)) →
  (length (sep_by comma (map marshal_member (kv :: l))) + 1 < fuel)%nat →
  parse_members fuel (sep_by comma (map marshal_member (kv :: l)) ++ Byte.x7d :: rest)
  = Some (kv :: l, rest).
Proof.
  revert kv fuel. induction l as [|w l IH]; intros [k v] fuel Hl Hok Hf;
    (destruct fuel as [|fuel]; [lia|]); apply Forall_cons in Hl as [Hv Hl];
    destruct Hok as [[Hk Hv'] Hok]; cbn [fst snd] in *.
  - cbn [map sep_by fmap list_fmap concat] in *. rewrite app_nil_r in *.
    unfold marshal_member, marshal_string in *. cbn [fst snd] in *.
    rewrite length_app in Hf. cbn [length] in Hf.
    rewrite <-app_assoc. cbn [app parse_members].
    rewrite (skip_space_head quote) by done. rewrite decide_True by done.
    rewrite <-!app_assoc. cbn [app].
    rewrite parse_marshal_string by done. rewrite (skip_space_head colon) by done.
    change (int_of_byte colon =? 0x3A) with true. cbv iota.
    rewrite Hv by (done || lia). done.
  - cbn [map] in *. rewrite sep_by_cons in *. rewrite length_app in Hf. cbn [length] in Hf.
    set (tail := sep_by comma (marshal_member w :: map marshal_member l)) in *.
    unfold marshal_member, marshal_string in Hf |- *. cbn [fst snd] in Hf |- *.
    rewrite length_app in Hf. cbn [length] in Hf.
    rewrite <-!app_assoc. cbn [app parse_members].
    rewrite (skip_space_head quote) by done. rewrite decide_True by done.
    rewrite <-!app_assoc. cbn [app].
    rewrite parse_marshal_string by done. rewrite (skip_space_head colon) by done.
    change (int_of_byte colon =? 0x3A) with true. cbv iota.
    rewrite Hv by (done || lia).
    rewrite (skip_space_head comma) by done.
    change (int_of_byte comma =? 0x2C) with true. cbv iota.
    subst tail.
    rewrite IH; [done|done|done|lia].
Qed.

Lemma marshal_obj_members l :
  marshal (JObj l) = Byte.x7b :: sep_by comma (map marshal_member l) ++ [Byte.x7d].
Proof. done. Qed.

(** What the parser does on an object or array that is not empty. *)
Lemma parse_value_obj fuel b r :
  is_space b = false → (int_of_byte b =? 0x7D) = false →
  parse_value (S fuel) (Byte.x7b :: b :: r) =
  match parse_members fuel (b :: r) with Some (l, r) => Some (JObj l, r) | None => None end.
Proof. intros Hs Hb. cbn [parse_value skip_space]. simpl. rewrite Hs. by rewrite Hb. Qed.

Lemma parse_value_arr fuel b r :
  is_space b = false → (int_of_byte b =? 0x5D) = false →
  parse_value (S fuel) (Byte.x5b :: b :: r) =
  match parse_elements fuel (b :: r) with Some (l, r) => Some (JArr l, r) | None => None end.
Proof. intros Hs Hb. cbn [parse_value skip_space]. simpl. rewrite Hs. by rewrite Hb. Qed.

Lemma parse_value_str fuel s rest :
  valid_utf8 s → parse_value (S fuel) (marshal_string s ++ rest) = Some (JStr s, rest).
Proof.
  intros Hs. unfold marshal_string.
  transitivity (match parse_string (length (escape_loop (length s) s ++ quote :: rest))
      (escape_loop (length s) s ++ quote :: rest) with
    | Some (t, r) => Some (JStr t, r) | None => None end).
  - rewrite <-app_comm_cons, <-app_assoc. done.
  - by rewrite parse_marshal_string.
Qed.

Lemma parse_value_num fuel lit rest :
  valid_number lit = true → forallb number_char lit = true → number_end rest →
  parse_value (S fuel) (lit ++ rest) = Some (JNum lit, rest).
Proof.
  intros Hv Hc He.
  destruct (valid_number_head lit Hv) as (b & r & -> & Hs & H1 & H2 & H3 & H4 & H5 & H6 & _).
  cbn [app parse_value]. rewrite skip_space_head by done.
  rewrite H1, H2, H3, H4, H5, H6. cbv iota zeta.
  change (b :: r ++ rest) with ((b :: r) ++ rest). rewrite span_app by done. by rewrite Hv.
Qed.

(** The parser reads back what the encoder wrote. *)
Lemma parse_value_marshal v : reads_back v.
Proof.
  induction v as [|b|lit|s|l Hl|l Hl] using json_nested_ind; intros fuel rest Hok He Hf;
    (destruct fuel as [|fuel]; [lia|]).
  - done.
  - by destruct b.
  - destruct Hok. by apply parse_value_num.
  - by apply parse_value_str.
  - destruct l as [|v l]; [done|].
    assert (∃ b r, marshal v = b :: r ∧ is_space b = false ∧
              (int_of_byte b =? 0x5D) = false) as (b & r & E & Hs & Hb).
    { destruct (marshal_head v) as (b & r & ? & ? & ? & _); [apply Hok|]. by exists b, r. }
    assert (marshal (JArr (v :: l)) ++ rest
            = Byte.x5b :: sep_by comma (map marshal (v :: l)) ++ Byte.x5d :: rest) as ->.
    { simpl. by rewrite <-!app_assoc. }
    pose proof (parse_elements_marshal l v fuel rest Hl Hok) as Hp.
    assert (∃ r', sep_by comma (map marshal (v :: l)) ++ Byte.x5d :: rest = b :: r') as [r' Er].
    { simpl. rewrite E. by eexists. }
    rewrite Er in *. rewrite parse_value_arr by done. rewrite Hp; [done|].
    cbn [marshal] in Hf. cbn [length] in Hf. rewrite length_app in Hf. simpl in Hf |- *. lia.
  - destruct l as [|kv l]; [done|]. rewrite marshal_obj_members in *.
    assert ((Byte.x7b :: sep_by comma (map marshal_member (kv :: l)) ++ [Byte.x7d]) ++ rest
            = Byte.x7b :: sep_by comma (map marshal_member (kv :: l)) ++ Byte.x7d :: rest) as ->.
    { cbn [app]. by rewrite <-!app_assoc. }
    pose proof (parse_members_marshal l kv fuel rest Hl Hok) as Hp.
    assert (∃ r', sep_by comma (map marshal_member (kv :: l)) ++ Byte.x7d :: rest
                  = quote :: r') as [r' Er] by (simpl; by eexists).
    rewrite Er in *. rewrite parse_value_obj by done. rewrite Hp; [done|].
    cbn [length] in Hf. rewrite length_app in Hf. simpl in Hf |- *. lia.
Qed.

Lemma parse_marshal v : ok_json v → parse (marshal v) = Some v.
Proof.
  intros Hok. unfold parse. pose proof (parse_value_marshal v (S (length (marshal v))) [] Hok) as H.
  rewrite app_nil_r in H. rewrite H by (done || lia). done.
Qed.

(** Encodings are injective. *)
Lemma marshal_inj v w : ok_json v → ok_json w → marshal v = marshal w → v = w.
Proof.
  intros Hv Hw H. pose proof (parse_marshal v Hv) as Hp. rewrite H, parse_marshal in Hp by done.
  by injection Hp.
Qed.

(** ** Integers *)

Lemma int_of_digit d : 0 ≤ d < 10 → int_of_byte (digit d) = 48 + d.
Proof. intros. unfold digit. rewrite int_of_byte_of_int, Z.mod_small by lia. done. Qed.

Lemma is_digit_digit d : 0 ≤ d < 10 → is_digit (digit d) = true.
Proof.
  intros H. unfold is_digit, in_range. rewrite int_of_digit by done.
  apply andb_true_intro; split; apply Z.leb_le; lia.
Qed.

Lemma dec_value_app a b acc :
  dec_value acc (a ++ b) = match dec_value acc a with Some n => dec_value n b | None => None end.
Proof.
  revert acc. induction a as [|x a IH]; intros acc; [done|]. simpl.
  destruct (is_digit x); [apply IH|done].
Qed.

(** What a decimal numeral is: digits with no leading zero and the value. *)
Lemma dec_digits_ok fuel n :
  0 ≤ n < 10 ^ Z.of_nat fuel → (0 < fuel)%nat →
  dec_value 0 (dec_digits fuel n) = Some n ∧ forallb is_digit (dec_digits fuel n) = true ∧
  ∃ b r, dec_digits fuel n = b :: r ∧ (n = 0 ∧ b = digit 0 ∧ r = [] ∨ 49 ≤ int_of_byte b).
Proof.
  revert n. induction fuel as [|fuel IH]; intros n Hn Hf; [lia|]. cbn [dec_digits].
  destruct (n <? 10) eqn:E; bool_to_prop.
  - cbn [dec_value forallb]. rewrite is_digit_digit by lia. rewrite int_of_digit by lia.
    split; [f_equal; lia|]. split; [done|]. eexists _, _; split; [done|].
    rewrite int_of_digit by lia. destruct (decide (n = 0)) as [->|]; [by left|right; lia].
  - assert (0 < fuel)%nat as Hf' by (destruct fuel; [simpl in Hn; lia|lia]).
    assert (0 ≤ n `mod` 10 < 10) as Hm by lia_div.
    replace (Z.of_nat (S fuel)) with (Z.of_nat fuel + 1) in Hn by lia.
    rewrite Z.pow_add_r in Hn by lia.
    destruct (IH (n `div` 10)) as (H1 & H2 & b & r & Hb & Hz); [lia_div|done|].
    rewrite dec_value_app, H1, forallb_app, H2. cbn [dec_value forallb].
    rewrite is_digit_digit, int_of_digit by done.
    split; [f_equal; lia_div|]. split; [done|].
    rewrite Hb. eexists _, _; split; [done|]. right. destruct Hz as [(Hz & _)|]; [lia_div|done].
Qed.

Lemma forallb_weaken {A} (f g : A → bool) l :
  (∀ x, f x = true → g x = true) → forallb f l = true → forallb g l = true.
Proof.
  intros Hfg. induction l as [|x l IH]; [done|]. simpl. intros H. bool_to_prop.
  by rewrite Hfg, IH.
Qed.

Lemma valid_number_digits b r :
  forallb is_digit (b :: r) = true → r = [] ∨ 49 ≤ int_of_byte b →
  valid_number (b :: r) = true ∧
  valid_number (Byte.x2d :: b :: r) = true.
Proof.
  intros Hd Hz.
  assert (is_digit b = true ∧ forallb is_digit r = true) as [Hb Hr] by (simpl in Hd; by bool_to_prop).
  assert (span is_digit r = (r, [])) as Hs.
  { pose proof (span_app is_digit r [] Hr I) as H. by rewrite app_nil_r in H. }
  assert (48 ≤ int_of_byte b ≤ 57) as Hc by (unfold is_digit, in_range in Hb; by bool_to_prop).
  assert ((int_of_byte b =? 45) = false) as H45 by (apply Z.eqb_neq; lia).
  unfold valid_number. rewrite H45. change (int_of_byte Byte.x2d =? 45) with true. cbv iota zeta.
  destruct (int_of_byte b =? 48) eqn:E0; bool_to_prop.
  - destruct Hz as [->|?]; [done|lia].
  - by rewrite Hb, Hs.
Qed.

Lemma number_char_digit b : is_digit b = true → number_char b = true.
Proof. intros H. unfold number_char. by rewrite H. Qed.

Lemma int_lit_ok z :
  - 2^63 ≤ z < 2^63 →
  ok_json (JInt z) ∧ int_value (int_lit z) = Some z.
Proof.
  intros Hz. unfold JInt, int_lit.
  destruct (z <? 0) eqn:E; bool_to_prop;
    [destruct (dec_digits_ok 20 (- z)) as (H1 & H2 & b & r & Hb & Hc)
    |destruct (dec_digits_ok 20 z) as (H1 & H2 & b & r & Hb & Hc)]; try lia;
    rewrite Hb in *;
    (destruct (valid_number_digits b r H2) as [V1 V2]; [by destruct Hc as [(_ & _ & ->)|]; [left|right]|]);
    pose proof (forallb_weaken _ _ _ number_char_digit H2) as Hn.
  - split; [split; [exact V2|exact Hn]|].
    unfold int_value. change (int_of_byte Byte.x2d =? 45) with true. cbv iota.
    rewrite H1. cbn [fmap option_fmap option_map]. rewrite Z.opp_involutive.
    by rewrite (proj2 (Z.leb_le _ _)), (proj2 (Z.ltb_lt _ _)) by lia.
  - split; [split; [exact V1|exact Hn]|]. unfold int_value.
    assert (is_digit b = true) as Hd by (simpl in H2; by bool_to_prop).
    unfold is_digit, in_range in Hd. bool_to_prop.
    rewrite (proj2 (Z.eqb_neq (int_of_byte b) 45)) by lia. rewrite H1.
    by rewrite (proj2 (Z.leb_le _ _)), (proj2 (Z.ltb_lt _ _)) by lia.
Qed.

Lemma JInt_inj x y : - 2^63 ≤ x < 2^63 → - 2^63 ≤ y < 2^63 → JInt x = JInt y → x = y.
Proof.
  intros Hx Hy [= H]. destruct (int_lit_ok x Hx) as [_ H1]. destruct (int_lit_ok y Hy) as [_ H2].
  rewrite H in H1. congruence.
Qed.

(** ** Plain text *)

Definition is_ascii (s : bytes) : bool := forallb (λ b, int_of_byte b <? 128) s.

Lemma valid_utf8_ascii s : is_ascii s = true → valid_utf8 s.
Proof.
  induction s as [|b s IH]; intros H; [constructor|]. cbn [is_ascii forallb] in H.
  apply andb_prop in H as [Hb Hs]. apply Z.ltb_lt in Hb. apply utf8_ascii; [done|]. by apply IH.
Qed.

Lemma hex_digit_ascii d : 0 ≤ d < 16 → int_of_byte (hex_digit d) < 128.
Proof.
  intros H. unfold hex_digit. rewrite int_of_byte_of_int. destruct (d <? 10) eqn:E; bool_to_prop;
    rewrite Z.mod_small by lia; lia.
Qed.

Lemma hex_encode_bytes_utf8 l : valid_utf8 (hex_encode_bytes l).
Proof.
  induction l as [|b l IH]; [constructor|]. cbn [hex_encode_bytes].
  pose proof (int_of_byte_range b).
  apply utf8_ascii; [apply hex_digit_ascii; lia_div|].
  apply utf8_ascii; [apply hex_digit_ascii; lia_div|done].
Qed.

(** ** Base64 *)

Lemma b64_value_digit d : 0 ≤ d < 64 → b64_value (b64_digit d) = Some d ∧
  b64_digit d ≠ Byte.x0a ∧ b64_digit d ≠ Byte.x0d ∧ int_of_byte (b64_digit d) < 128.
Proof.
  intros H. assert (d ∈ seqZ 0 64) as Hd by (apply elem_of_seqZ; lia).
  revert d Hd H. apply (proj1 (Forall_forall (λ d, 0 ≤ d < 64 → _) (seqZ 0 64))).
  change (seqZ 0 64) with (Z.of_nat <$> seq 0 64). cbn.
  repeat constructor; try (intros; vm_compute; discriminate).
Qed.

Lemma byte_of_int_eq z b : z = int_of_byte b → byte_of_int z = b.
Proof. intros ->. apply byte_of_int_of_byte. Qed.

Lemma b64_decode_encode_loop n l :
  (length l ≤ n)%nat → b64_decode_loop (b64_encode l) = Some l.
Proof.
  revert l. induction n as [|n IH]; intros l Hn.
  { destruct l; [done|simpl in Hn; lia]. }
  destruct l as [|a [|b [|c l]]]; [done|..]; cbn [b64_encode];
    pose proof (int_of_byte_range a).
  - cbn [b64_decode_loop].
    rewrite !(λ d H, proj1 (b64_value_digit d H)) by lia_div.
    change (b64_value pad) with (@None Z). cbv iota. rewrite decide_True by done.
    do 2 f_equal. apply byte_of_int_eq. lia_div.
  - pose proof (int_of_byte_range b). cbn [b64_decode_loop].
    rewrite !(λ d H, proj1 (b64_value_digit d H)) by lia_div.
    change (b64_value pad) with (@None Z). cbv iota. rewrite decide_True by done.
    f_equal. f_equal; [apply byte_of_int_eq; lia_div|]. f_equal. apply byte_of_int_eq. lia_div.
  - pose proof (int_of_byte_range b). pose proof (int_of_byte_range c). cbn [b64_decode_loop].
    rewrite !(λ d H, proj1 (b64_value_digit d H)) by lia_div. cbv iota.
    rewrite IH by (simpl in Hn; lia). f_equal. f_equal; [apply byte_of_int_eq; lia_div|].
    f_equal; [apply byte_of_int_eq; lia_div|]. f_equal. apply byte_of_int_eq. lia_div.
Qed.

Lemma b64_encode_chars n l :
  (length l ≤ n)%nat →
  Forall (λ b, b ≠ Byte.x0a ∧ b ≠ Byte.x0d ∧ int_of_byte b < 128) (b64_encode l).
Proof.
  revert l. induction n as [|n IH]; intros l Hn.
  { destruct l; [constructor|simpl in Hn; lia]. }
  destruct l as [|a [|b [|c l]]]; [constructor|..]; cbn [b64_encode];
    pose proof (int_of_byte_range a); try pose proof (int_of_byte_range b);
    try pose proof (int_of_byte_range c); repeat (apply Forall_cons_2);
    try (apply (λ d H, proj2 (b64_value_digit d H)); lia_div); try (by constructor);
    try done.
  apply IH. simpl in Hn. lia.
Qed.

Lemma b64_decode_encode l : b64_decode (b64_encode l) = Some l.
Proof.
  unfold b64_decode.
  assert (∀ k, Forall (λ b, b ≠ Byte.x0a ∧ b ≠ Byte.x0d ∧ int_of_byte b < 128) k →
               filter (λ b, b ≠ Byte.x0a ∧ b ≠ Byte.x0d) k = k) as ->.
  { induction 1 as [|b k (?&?&_) _ IH]; [done|]. rewrite filter_cons, decide_True by done.
    by rewrite IH. }
  - by apply b64_decode_encode_loop with (length l).
  - by apply (b64_encode_chars (length l)).
Qed.

Lemma b64_encode_utf8 l : valid_utf8 (b64_encode l).
Proof.
  apply valid_utf8_ascii, forallb_forall. intros b Hb. apply Z.ltb_lt.
  pose proof (b64_encode_chars (length l) l (Nat.le_refl _)) as H.
  rewrite Forall_forall in H. apply H. by apply list_elem_of_In.
Qed.

(** ** Objects and maps *)

Definition ok_field (kv : bytes * json) : Prop := valid_utf8 kv.1 ∧ ok_json kv.2.

Lemma ok_json_obj l : ok_json (JObj l) ↔ Forall ok_field l.
Proof.
  cbn [ok_json]. induction l as [|kv l IH]; [by split|].
  rewrite Forall_cons. cbn [foldr]. by rewrite <-IH.
Qed.

Lemma ok_json_map l : Forall ok_field l → ok_json (JMap l).
Proof. intros H. apply ok_json_obj. by rewrite merge_sort_Permutation. Qed.

Lemma JMap_inj l k : JMap l = JMap k → l ≡ₚ k.
Proof.
  intros [= H]. rewrite <-(merge_sort_Permutation field_le l), H.
  apply merge_sort_Permutation.
Qed.

(** Two encoded maps are equal only if they have the same fields. *)
Lemma marshal_map_inj l k :
  Forall ok_field l → Forall ok_field k → marshal (JMap l) = marshal (JMap k) → l ≡ₚ k.
Proof. intros Hl Hk H. apply JMap_inj, marshal_inj; [by apply ok_json_map..|done]. Qed.
