(* ===== verification/GoStrings.v ===== *)
(** * Text functions of the Go standard library (package strings)

    [strings.Fields] and [strings.TrimSpace] on byte strings, with the white
    space of Unicode, for the lines that clients and configuration files
    contain. *)

From S2P Require Import Prelude Json.
Local Open Scope Z_scope.

(** The white space of [unicode.IsSpace], as the length of its encoding. *)
Definition space_runes : list bytes :=
  [[Byte.xc2; Byte.x85]; [Byte.xc2; Byte.xa0]; [Byte.xe1; Byte.x9a; Byte.x80];
   [Byte.xe2; Byte.x80; Byte.xa8]; [Byte.xe2; Byte.x80; Byte.xa9];
   [Byte.xe2; Byte.x80; Byte.xaf]; [Byte.xe2; Byte.x81; Byte.x9f];
   [Byte.xe3; Byte.x80; Byte.x80]]
  ++ ((λ k, [Byte.xe2; Byte.x80; byte_of_int (0x80 + k)]) <$> seqZ 0 11).
Definition space_size (s : bytes) : option nat :=
  match s with
  | b :: _ =>
    let c := int_of_byte b in
    if (c =? 32) || ((9 <=? c) && (c <=? 13)) then Some 1%nat
    else length <$> head (filter (λ r, has_prefix_b r s = true) space_runes)
  | [] => None
  end.

(** [strings.Fields]: the text between runs of white space. *)
Fixpoint Fields_loop (fuel : nat) (cur s : bytes) : list bytes :=
  match fuel, s with
  | S fuel, b :: r =>
    match space_size s with
    | Some n => match cur with
                | [] => Fields_loop fuel [] (drop n s)
                | _ => cur :: Fields_loop fuel [] (drop n s)
                end
    | None => Fields_loop fuel (cur ++ [b]) r
    end
  | _, _ => match cur with [] => [] | _ => [cur] end
  end.
Definition Fields (s : bytes) : list bytes := Fields_loop (length s) [] s.

(** The text after and before white space. *)
Fixpoint trim_left (fuel : nat) (s : bytes) : bytes :=
  match fuel with
  | O => s
  | S fuel => match space_size s with
              | Some n => trim_left fuel (drop n s)
              | None => s
              end
  end.
Fixpoint all_space (fuel : nat) (s : bytes) : bool :=
  match s with
  | [] => true
  | _ => match fuel, space_size s with
         | S fuel, Some n => all_space fuel (drop n s)
         | _, _ => false
         end
  end.
Fixpoint trim_right (s : bytes) : bytes :=
  if all_space (length s) s then []
  else match s with b :: s => b :: trim_right s | [] => [] end.
(** [strings.TrimSpace]; every round takes at least one byte. *)
Definition TrimSpace (s : bytes) : bytes := trim_right (trim_left (length s) s).

(** ** Lines of words

    Lines made of visible ASCII characters behave as expected. *)

Definition visible (b : byte) : Prop := 33 ≤ int_of_byte b < 127.
Definition word (w : bytes) : Prop := w ≠ [] ∧ Forall visible w.

Definition space_start (r : bytes) : Prop :=
  match r with b :: _ => 127 ≤ int_of_byte b | [] => False end.
Lemma space_runes_high :
  Forall (λ r, space_start r ∧ (1 ≤ length r)%nat ∧ Forall (λ b, 127 ≤ int_of_byte b) r) space_runes.
Proof. vm_compute. repeat constructor; discriminate. Qed.

Lemma space_rune_match r s :
  head (filter (λ r, has_prefix_b r s = true) space_runes) = Some r →
  space_start r ∧ (1 ≤ length r)%nat ∧ Forall (λ b, 127 ≤ int_of_byte b) r ∧ has_prefix_b r s = true.
Proof.
  intros Hr. destruct (filter _ space_runes) as [|x l] eqn:Ef; [done|]. injection Hr as ->.
  assert (r ∈ filter (λ r, has_prefix_b r s = true) space_runes) as [Hp Hin]%list_elem_of_filter
    by (rewrite Ef; by left).
  pose proof space_runes_high as Hall. rewrite Forall_forall in Hall.
  destruct (Hall r Hin) as (? & ? & ?). done.
Qed.

Lemma space_size_visible b r : visible b → space_size (b :: r) = None.
Proof.
  unfold visible. intros Hb. cbn [space_size].
  replace ((int_of_byte b =? 32) || ((9 <=? int_of_byte b) && (int_of_byte b <=? 13))) with false by lia.
  destruct (head _) as [x|] eqn:E; [|done].
  apply space_rune_match in E as (Hs & _ & _ & Hp).
  unfold has_prefix_b in Hp. apply bool_decide_eq_true in Hp.
  destruct x as [|c x]; [done|]. simpl in Hs, Hp. injection Hp as -> _. lia.
Qed.

Lemma space_size_no_visible s n : space_size s = Some n →
  (1 ≤ n)%nat ∧ ∀ b, visible b → b ∉ take n s.
Proof.
  destruct s as [|c s]; [done|]. cbn [space_size].
  destruct ((int_of_byte c =? 32) || ((9 <=? int_of_byte c) && (int_of_byte c <=? 13))) eqn:E.
  - intros [= <-]. split; [lia|]. intros b Hb ->%list_elem_of_singleton. unfold visible in Hb. lia.
  - intros (r & (_ & Hlen & Hhigh & Hp)%space_rune_match & ->)%fmap_Some.
    unfold has_prefix_b in Hp. apply bool_decide_eq_true in Hp. rewrite Hp.
    split; [done|]. intros b Hb Hbin. eapply Forall_forall in Hhigh; [|exact Hbin].
    unfold visible in Hb. simpl in Hhigh. lia.
Qed.

Lemma all_space_no_visible fuel s b : visible b → b ∈ s → all_space fuel s = false.
Proof.
  revert s. induction fuel as [|fuel IH]; intros s Hb Hin;
    (destruct s as [|c s]; [by apply elem_of_nil in Hin|]).
  - done.
  - cbn [all_space]. destruct (space_size (c :: s)) as [n|] eqn:E; [|done].
    apply space_size_no_visible in E as [_ Hn]. apply IH; [done|].
    rewrite <-(take_drop n (c :: s)) in Hin. apply elem_of_app in Hin as [Hin|?]; [|done].
    by apply Hn in Hin.
Qed.

Lemma trim_right_line s b : visible b → trim_right (s ++ [b; Byte.x0a]) = s ++ [b].
Proof.
  intros Hb. induction s as [|c s IH]; cbn [app].
  - unfold trim_right. rewrite (all_space_no_visible _ _ b) by (done || by left). done.
  - cbn [trim_right]. rewrite (all_space_no_visible _ _ b) by (done || (right; apply elem_of_app; right; by left)).
    by rewrite IH.
Qed.

Lemma trim_right_plain s b : visible b → trim_right (s ++ [b]) = s ++ [b].
Proof.
  intros Hb. induction s as [|c s IH]; cbn [app].
  - unfold trim_right. by rewrite (all_space_no_visible _ _ b) by (done || by left).
  - cbn [trim_right]. rewrite (all_space_no_visible _ _ b) by (done || (right; apply elem_of_app; right; by left)).
    by rewrite IH.
Qed.

Lemma trim_left_visible a s : visible a → trim_left (length (a :: s)) (a :: s) = a :: s.
Proof. intros Ha. cbn [length trim_left]. by rewrite space_size_visible. Qed.

(** A line that starts and ends in visible characters loses just its line
    feed. *)
Lemma TrimSpace_line a s b :
  visible a → visible b → TrimSpace ((a :: s) ++ [b; Byte.x0a]) = (a :: s) ++ [b].
Proof.
  intros Ha Hb. unfold TrimSpace. cbn [app]. rewrite trim_left_visible by done.
  by apply (trim_right_line (a :: s)).
Qed.
Lemma TrimSpace_plain a s b :
  visible a → visible b → TrimSpace ((a :: s) ++ [b]) = (a :: s) ++ [b].
Proof.
  intros Ha Hb. unfold TrimSpace. cbn [app]. rewrite trim_left_visible by done.
  by apply (trim_right_plain (a :: s)).
Qed.

Lemma Fields_loop_word w s fuel cur :
  Forall visible w → (length w ≤ fuel)%nat →
  Fields_loop fuel cur (w ++ s) = Fields_loop (fuel - length w) (cur ++ w) s.
Proof.
  intros Hw. revert fuel cur. induction Hw as [|b w Hb Hw IH]; intros fuel cur Hf.
  - by rewrite app_nil_r, Nat.sub_0_r.
  - destruct fuel as [|fuel]; [simpl in Hf; lia|].
    cbn [app Fields_loop]. rewrite space_size_visible by done.
    rewrite IH by (simpl in Hf; lia). by rewrite <-app_assoc.
Qed.

(** Splitting at blanks undoes joining with blanks. *)
Lemma Fields_words ws : Forall word ws → Fields (sep_by Byte.x20 ws) = ws.
Proof.
  assert (∀ ws w fuel, Forall word (w :: ws) →
    (length (sep_by Byte.x20 (w :: ws)) ≤ fuel)%nat →
    Fields_loop fuel [] (sep_by Byte.x20 (w :: ws)) = w :: ws) as Hl.
  { clear ws. induction ws as [|x ws IH]; intros w fuel Hw Hf;
      apply Forall_cons in Hw as [[Hne Hp] Hws].
    - cbn [sep_by fmap list_fmap concat] in *. rewrite Fields_loop_word by (done || by rewrite app_nil_r in Hf).
      destruct (fuel - length w)%nat, w; done.
    - rewrite sep_by_cons in *. rewrite length_app in Hf. cbn [length] in Hf.
      rewrite Fields_loop_word by (done || lia). cbn [app].
      destruct (fuel - length w)%nat as [|f] eqn:Ef; [lia|]. cbn [Fields_loop].
      change (space_size _) with (Some 1%nat). destruct w as [|b w]; [done|]. cbv iota.
      cbn [drop]. rewrite drop_0, IH; [done|done|lia]. }
  destruct ws as [|w ws]; [done|]. intros H. by apply Hl.
Qed.

(** Text that starts and ends in a visible character. *)
Definition edges (l : bytes) : Prop :=
  (∃ a r, l = a :: r ∧ visible a) ∧ (∃ s b, l = s ++ [b] ∧ visible b).

Lemma TrimSpace_edges l : edges l → TrimSpace (l ++ [Byte.x0a]) = l.
Proof.
  intros [(a & r & Ha & Hva) (s & b & Hb & Hvb)]. unfold TrimSpace.
  assert (trim_left (length (l ++ [Byte.x0a])) (l ++ [Byte.x0a]) = l ++ [Byte.x0a]) as ->.
  { rewrite Ha. cbn [app]. by rewrite trim_left_visible. }
  rewrite Hb, <-app_assoc. by apply trim_right_line.
Qed.

Lemma word_edges w : word w → edges w.
Proof.
  intros [Hne Hw]. split.
  - destruct w as [|a w]; [done|]. apply Forall_cons in Hw as [? _]. by exists a, w.
  - destruct (exists_last Hne) as (s & b & ->). apply Forall_app in Hw as [_ Hb].
    apply Forall_cons in Hb as [Hb _]. exists s, b. split; [reflexivity|exact Hb].
Qed.

Lemma edges_app l m k : edges l → edges k → edges (l ++ m ++ k).
Proof.
  intros [(a & r & -> & Ha) _] [_ (s & b & -> & Hb)]. split.
  - by exists a, (r ++ m ++ s ++ [b]).
  - exists ((a :: r) ++ m ++ s), b. split; [|done]. by rewrite <-!app_assoc.
Qed.

Lemma trim_right_blank s b : visible b → trim_right (s ++ [b; Byte.x20]) = s ++ [b].
Proof.
  intros Hb. induction s as [|c s IH]; cbn [app].
  - unfold trim_right. rewrite (all_space_no_visible _ _ b) by (done || by left). done.
  - cbn [trim_right]. rewrite (all_space_no_visible _ _ b) by (done || (right; apply elem_of_app; right; by left)).
    by rewrite IH.
Qed.

(** Text between blanks. *)
Lemma TrimSpace_blanks l : edges l → TrimSpace (Byte.x20 :: l ++ [Byte.x20]) = l.
Proof.
  intros [(a & r & Ha & Hva) (s & b & Hb & Hvb)]. unfold TrimSpace.
  assert (trim_left (length (Byte.x20 :: l ++ [Byte.x20])) (Byte.x20 :: l ++ [Byte.x20]) = l ++ [Byte.x20]) as ->.
  { cbn [length trim_left]. change (space_size (Byte.x20 :: _)) with (Some 1%nat). cbn [drop].
    rewrite Ha. cbn [app length]. destruct (length (r ++ [Byte.x20])) as [|k] eqn:E.
    - by destruct r.
    - cbn [trim_left]. rewrite drop_0. by rewrite space_size_visible. }
  rewrite Hb, <-app_assoc. by apply trim_right_blank.
Qed.
Lemma TrimSpace_id l : edges l → TrimSpace l = l.
Proof.
  intros [(a & r & Ha & Hva) (s & b & Hb & Hvb)]. unfold TrimSpace. rewrite Ha, trim_left_visible, <-Ha by done.
  rewrite Hb. by apply trim_right_plain.
Qed.

(** ** Prefixes, suffixes and substrings *)

(** [strings.CutPrefix]: what follows the prefix. *)
Definition cut_prefix (p s : bytes) : option bytes :=
  if has_prefix_b p s then Some (drop (length p) s) else None.
Definition has_suffix_b (p s : bytes) : bool :=
  (length p <=? length s)%nat && bool_decide (drop (length s - length p) s = p).
Definition trim_prefix (p s : bytes) : bytes := default s (cut_prefix p s).
Definition trim_suffix (p s : bytes) : bytes :=
  if has_suffix_b p s then take (length s - length p) s else s.

(** [strings.Index]: the text before and behind the first occurrence. *)
Fixpoint cut (p s : bytes) : option (bytes * bytes) :=
  match cut_prefix p s with
  | Some r => Some ([], r)
  | None => match s with
            | [] => None
            | b :: s => '(before, after) ← cut p s; Some (b :: before, after)
            end
  end.
Definition contains_b (p s : bytes) : bool := match cut p s with Some _ => true | None => false end.

(** [strings.ReplaceAll] of a text that is not empty; every round takes at
    least one byte. *)
Fixpoint replace_loop (fuel : nat) (old new s : bytes) : bytes :=
  match fuel with
  | O => s
  | S fuel => match cut old s with
              | Some (before, after) => before ++ new ++ replace_loop fuel old new after
              | None => s
              end
  end.
Definition ReplaceAll (s old new : bytes) : bytes := replace_loop (length s) old new s.

(** [strings.ToLower] and [strings.ToUpper].  The mappings of the letters
    outside of ASCII are tables of the unicode package; on encodings of runes
    they are arguments. *)
Class Unicode := { lower_rune : bytes → bytes; upper_rune : bytes → bytes }.
Definition lower_ascii (b : byte) : byte :=
  let c := int_of_byte b in if (65 <=? c) && (c <=? 90) then byte_of_int (c + 32) else b.
Definition upper_ascii (b : byte) : byte :=
  let c := int_of_byte b in if (97 <=? c) && (c <=? 122) then byte_of_int (c - 32) else b.
Definition is_ascii (s : bytes) : bool := forallb (λ b, int_of_byte b <? 128) s.
Fixpoint map_runes (ascii : byte → byte) (rune : bytes → bytes) (fuel : nat) (s : bytes) : bytes :=
  match fuel, s with
  | S fuel, b :: r =>
    if int_of_byte b <? 128 then ascii b :: map_runes ascii rune fuel r
    else match rune_size s with
         | Some n => rune (take n s) ++ map_runes ascii rune fuel (drop n s)
         | None => replacement ++ map_runes ascii rune fuel r
         end
  | _, _ => []
  end.
Definition ToLower `{Unicode} (s : bytes) : bytes :=
  if is_ascii s then lower_ascii <$> s else map_runes lower_ascii lower_rune (length s) s.
Definition ToUpper `{Unicode} (s : bytes) : bytes :=
  if is_ascii s then upper_ascii <$> s else map_runes upper_ascii upper_rune (length s) s.

Lemma has_prefix_b_app p s : has_prefix_b p (p ++ s) = true.
Proof. unfold has_prefix_b. rewrite take_app_length. by apply bool_decide_eq_true. Qed.
Lemma cut_prefix_app p s : cut_prefix p (p ++ s) = Some s.
Proof. unfold cut_prefix. by rewrite has_prefix_b_app, drop_app_length. Qed.
Lemma cut_prefix_some p s r : cut_prefix p s = Some r ↔ s = p ++ r.
Proof.
  split; [|intros ->; apply cut_prefix_app]. unfold cut_prefix, has_prefix_b.
  case_bool_decide as Hp; [|done]. intros [= <-]. rewrite <-Hp at 1. by rewrite take_drop.
Qed.
Lemma cut_some p s a b : cut p s = Some (a, b) → s = a ++ p ++ b.
Proof.
  revert a. induction s as [|x s IH]; intros a; cbn [cut]; (destruct (cut_prefix p _) as [r|] eqn:E;
    [intros [= <- <-]; by apply cut_prefix_some in E|]); [done|].
  destruct (cut p s) as [[a' b']|] eqn:Ec; [|done]. intros [= <- <-]. by rewrite (IH a' eq_refl).
Qed.

(** The first occurrence of a text is at a given place when there is none before
    and none that reaches over it. *)
Lemma cut_first p s t :
  contains_b p s = false →
  (∀ p1 p2, p = p1 ++ p2 → p1 ≠ [] → p2 ≠ [] → p2 `prefix_of` p → p1 `suffix_of` s → False) →
  cut p (s ++ p ++ t) = Some (s, t).
Proof.
  unfold contains_b. induction s as [|b s IH]; intros Hc Hover; cbn [app].
  - destruct (p ++ t) as [|x y] eqn:E; cbn [cut]; by rewrite <-E, cut_prefix_app.
  - cbn [cut] in *. destruct (cut_prefix p (b :: s)) eqn:Ep; [done|].
    destruct (cut_prefix p (b :: s ++ p ++ t)) as [r|] eqn:Er.
    + exfalso. apply cut_prefix_some in Er. change (b :: s ++ p ++ t) with ((b :: s) ++ p ++ t) in Er.
      apply app_eq_inv in Er as [(k & E1 & _)|(k & E1 & E2)]; [by rewrite E1, cut_prefix_app in Ep|].
      destruct k as [|x k]; [rewrite app_nil_r in E1; subst p|].
      { pose proof (cut_prefix_app (b :: s) []) as Hp. rewrite app_nil_r in Hp. congruence. }
      apply (Hover (b :: s) (x :: k)); [done..| |done].
      apply app_eq_inv in E2 as [(k' & E & _)|(k' & E & _)]; [by exists k'|].
      apply (f_equal length) in E, E1. rewrite !length_app in *. cbn in *. lia.
    + destruct (cut p s) as [[]|] eqn:Ec; [done|]. rewrite IH; [done..|].
      intros p1 p2 E H1 H2 Hp Hs. apply (Hover p1 p2 E H1 H2 Hp). by apply suffix_cons_r.
Qed.

Lemma contains_app p x y : contains_b p (x ++ p ++ y) = true.
Proof.
  unfold contains_b. induction x as [|a x IH]; cbn [app].
  - destruct (p ++ y) eqn:E; cbn [cut]; by rewrite <-E, cut_prefix_app.
  - cbn [cut]. destruct (cut_prefix _ _); [done|]. by destruct (cut p _) as [[]|].
Qed.

Lemma contains_longer p q s : contains_b p s = false → contains_b (p ++ q) s = false.
Proof.
  intros Hp. apply not_true_is_false. unfold contains_b in *.
  destruct (cut (p ++ q) s) as [[x y]|] eqn:E; [|done]. intros _. apply cut_some in E as ->.
  enough (contains_b p (x ++ p ++ q ++ y) = true) as Hc by (unfold contains_b in Hc; rewrite <-!app_assoc in Hp; congruence).
  apply contains_app.
Qed.
Lemma ReplaceAll_absent s old new : contains_b old s = false → ReplaceAll s old new = s.
Proof.
  unfold contains_b, ReplaceAll. intros Hc. destruct (length s); [done|]. cbn [replace_loop].
  by destruct (cut old s) as [[]|].
Qed.

Lemma contains_snoc p s b : contains_b p s = false → p ≠ [] → (∀ q, p ≠ q ++ [b]) → contains_b p (s ++ [b]) = false.
Proof.
  intros Hs Hne Hb. apply not_true_is_false. intros Hc. unfold contains_b in *.
  destruct (cut p (s ++ [b])) as [[x y]|] eqn:E; [|done]. apply cut_some in E.
  destruct y as [|c y _] using rev_ind.
  - rewrite app_nil_r in E. destruct (exists_last Hne) as (q & c & ->). rewrite app_assoc in E.
    apply app_inj_tail in E as [_ ->]. by apply (Hb q).
  - rewrite !app_assoc in E. apply app_inj_tail in E as [-> _]. rewrite <-app_assoc in Hs.
    pose proof (contains_app p x y) as Ha. unfold contains_b in Ha. by destruct (cut p _) as [[]|].
Qed.

Lemma bytes_of_app s t : bytes_of (String.append s t) = bytes_of s ++ bytes_of t.
Proof.
  unfold bytes_of, String.list_byte_of_string. induction s as [|c s IH]; [done|].
  exact (f_equal (cons (Ascii.byte_of_ascii c)) IH).
Qed.
