(* ===== verification/Float64.v ===== *)
(** * Floating-point numbers (float64, package strconv)

    The floats that configuration values and expressions contain: a finite
    number is a sign and [m * 2^e]; rounding to 53 bits, reading decimals and
    writing the shortest text that reads back.  Comparison is exact. *)

From S2P Require Import Prelude Json GoStrings.
Local Open Scope Z_scope.

(** ** Values and rounding *)

Inductive float64 :=
| NaN
| Inf (neg : bool)
| Fin (neg : bool) (m e : Z). (* (-1)^neg * m * 2^e, with m not negative *)

(** A quotient, rounded half to even. *)
Definition div_even (n d : Z) : Z :=
  let q := n `div` d in
  let r := 2 * (n `mod` d) in
  if r <? d then q else if d <? r then q + 1 else q + q `mod` 2.

(** [n / d / b^k] as a quotient *)
Definition scale (b k n d : Z) : Z * Z :=
  if k <? 0 then (n * b^(- k), d) else (n, d * b^k).

(** The float nearest to [n / d]; 53 bits, the exponent at least -1074. *)
Definition round_ratio (neg : bool) (n d : Z) : float64 :=
  if n =? 0 then Fin neg 0 0
  else
    let e := Z.log2 n - Z.log2 d - 53 in
    let '(n1, d1) := scale 2 e n d in
    let e := Z.max (if n1 <? d1 * 2^53 then e else e + 1) (-1074) in
    let '(n1, d1) := scale 2 e n d in
    let q := div_even n1 d1 in
    if (0 <? e) && (2^1024 <=? q * 2^e) then Inf neg else Fin neg q e.

(** [float64(z)] *)
Definition of_int (z : Z) : float64 :=
  if Z.abs z <=? 2^53 then Fin (z <? 0) (Z.abs z) 0 else round_ratio (z <? 0) (Z.abs z) 1.

(** The signed numerator of a finite float over [2^k], for [k] large enough. *)
Definition signed (neg : bool) (m : Z) : Z := if neg then - m else m.
Definition over (k : Z) (neg : bool) (m e : Z) : Z := signed neg m * 2^(e + k).

(** [a < b] *)
Definition f_lt (a b : float64) : bool :=
  match a, b with
  | NaN, _ | _, NaN => false
  | Inf na, Inf nb => na && negb nb
  | Inf na, Fin _ _ _ => na
  | Fin _ _ _, Inf nb => negb nb
  | Fin na ma ea, Fin nb mb eb =>
    let k := - Z.min ea eb in over k na ma ea <? over k nb mb eb
  end.
(** [a == b] *)
Definition f_eq (a b : float64) : bool :=
  match a, b with
  | Inf na, Inf nb => bool_decide (na = nb)
  | Fin na ma ea, Fin nb mb eb =>
    let k := - Z.min ea eb in over k na ma ea =? over k nb mb eb
  | _, _ => false
  end.

(** [int64(f)]: towards zero; the smallest number when out of range. *)
Definition to_int (f : float64) : Z :=
  match f with
  | Fin neg m e =>
    let z := signed neg (if e <? 0 then m `div` 2^(- e) else m * 2^e) in
    if (- 2^63 <=? z) && (z <? 2^63) then z else - 2^63
  | _ => - 2^63
  end.

(** ** Reading decimals *)

(** [0.d1 d2 ... * 10^dp] with the digits as a number [n] of [nd] digits;
    exponents beyond the range of a float64 are cut off. *)
Definition of_decimal (neg : bool) (n k : Z) : float64 :=
  if n =? 0 then Fin neg 0 0
  else if 700 <? k then Inf neg
  else if k + zlen (dec_digits 2000 n) <? -400 then Fin neg 0 0
  else let '(n, d) := scale 10 (- k) n 1 in round_ratio neg n d.

(** The digits at the head of a text. *)
Fixpoint span_digits (s : bytes) : bytes * bytes :=
  match s with
  | b :: r => if is_digit b then let '(ds, r) := span_digits r in (b :: ds, r) else ([], s)
  | [] => ([], [])
  end.

(** A number as [strconv.ParseFloat] and the float verb of [fmt.Sscanf] read
    it, with what follows: a sign, digits around a point, an exponent.  Hexadecimal floats and
    digit separators are not read. *)
Definition scan_decimal (s : bytes) : option (float64 * bytes) :=
  let '(neg, s) := match s with
                   | Byte.x2d :: r => (true, r)
                   | Byte.x2b :: r => (false, r)
                   | _ => (false, s)
                   end in
  let '(whole, s) := span_digits s in
  let '(frac, s) := match s with
                    | Byte.x2e :: r => span_digits r
                    | _ => ([], s)
                    end in
  match whole ++ frac with
  | [] => None
  | ds =>
    n ← dec_value 0 ds;
    let exponent (r : bytes) : option (Z * bytes) :=
      let '(neg, r) := match r with
                       | Byte.x2d :: r => (true, r)
                       | Byte.x2b :: r => (false, r)
                       | _ => (false, r)
                       end in
      match span_digits r with
      | ([], _) => None
      | (ds, r) => k ← dec_value 0 ds; Some (signed neg k, r)
      end in
    '(k, s) ← match s with
              | Byte.x65 :: r | Byte.x45 :: r => exponent r
              | _ => Some (0, s)
              end;
    Some (of_decimal neg n (k - zlen frac), s)
  end.

Definition zero : float64 := Fin false 0 0.

Fixpoint skip_blanks (s : bytes) : bytes :=
  match s with
  | b :: r => if bool_decide (b ∈ [Byte.x20; Byte.x09; Byte.x0d]) then skip_blanks r else s
  | [] => []
  end.
(** [var f float64; fmt.Sscanf(s, "%f", &f)]: zero when nothing can be read
    and when the number is out of range. *)
Definition sscanf_float (s : bytes) : float64 :=
  let s := skip_blanks s in
  let low := lower_ascii <$> s in
  if has_prefix_b (bytes_of "nan") low then NaN
  else if has_prefix_b (bytes_of "inf") low || has_prefix_b (bytes_of "+inf") low then Inf false
  else if has_prefix_b (bytes_of "-inf") low then Inf true
  else match scan_decimal s with
       | Some (Fin neg m e, _) => Fin neg m e
       | _ => zero
       end.

(** ** Writing *)

(** The position [p] with [10^p <= n/d < 10^(p+1)], from a guess that is off
    by at most one. *)
Definition decimal_exponent (n d : Z) : Z :=
  let p := ((Z.log2 n - Z.log2 d) * 30103) `div` 100000 in
  let below (k : Z) : bool := let '(n, d) := scale 10 k n d in n <? d in
  if below p then p - 1 else if below (p + 1) then p else if below (p + 2) then p + 1 else p + 2.

(** The fewest digits that read back as the float, and the nearest such. *)
Fixpoint shortest_decimal (fuel : nat) (f : float64) (n d p k : Z) : Z * Z :=
  match fuel with
  | O => (n `div` d, 0)
  | S fuel =>
    let unit := p - k + 1 in
    let '(n1, d1) := scale 10 unit n d in
    let lo := n1 `div` d1 in
    let reads (q : Z) : bool := f_eq (of_decimal false q unit) f in
    match reads lo, reads (lo + 1) with
    | true, true => (if 2 * (n1 `mod` d1) <? d1 then lo else lo + 1, unit)
    | true, false => (lo, unit)
    | false, true => (lo + 1, unit)
    | false, false => shortest_decimal fuel f n d p (k + 1)
    end
  end.
(** The digits without zeros at the end, and the position of the point behind
    the first [dp] of them. *)
Fixpoint strip_zeros (fuel : nat) (n k : Z) : Z * Z :=
  match fuel with
  | O => (n, k)
  | S fuel => if (n mod 10 =? 0) && negb (n =? 0) then strip_zeros fuel (n / 10) (k + 1) else (n, k)
  end.
Definition float_decimal (m e : Z) : bytes * Z :=
  if m =? 0 then ([], 0)
  else
    let '(n, d) := scale 2 (- e) m 1 in
    let '(q, k) := shortest_decimal 17 (Fin false m e) n d (decimal_exponent n d) 1 in
    let '(q, k) := strip_zeros 400 q k in
    let digits := dec_digits 20 q in (digits, zlen digits + k).

Definition zeros (n : Z) : bytes := replicate (Z.to_nat n) (digit 0).
(** [%f] with just the digits there are *)
Definition fixed_text (digits : bytes) (dp : Z) : bytes :=
  let nd := zlen digits in
  (if 0 <? dp then take (Z.to_nat dp) digits ++ zeros (dp - nd) else [digit 0])
  ++ (if dp <? nd then Byte.x2e :: zeros (- dp) ++ drop (Z.to_nat dp) digits else []).
(** [%e] with just the digits there are *)
Definition exponent_text (digits : bytes) (dp : Z) : bytes :=
  let '(d0, rest) := match digits with d0 :: rest => (d0, rest) | [] => (digit 0, []) end in
  let x := match digits with [] => 0 | _ => dp - 1 end in
  d0 :: (match rest with [] => [] | _ => Byte.x2e :: rest end)
  ++ Byte.x65 :: (if x <? 0 then Byte.x2d else Byte.x2b)
  :: (if Z.abs x <? 10 then [digit 0] else []) ++ dec_digits 20 (Z.abs x).

Definition with_sign (neg : bool) (s : bytes) : bytes := if neg then Byte.x2d :: s else s.

(** [fmt.Sprintf("%g", f)], which is also the [%v] of a float *)
Definition g_text (f : float64) : bytes :=
  match f with
  | NaN => bytes_of "NaN"
  | Inf neg => (if neg then Byte.x2d else Byte.x2b) :: bytes_of "Inf"
  | Fin neg m e =>
    let '(digits, dp) := float_decimal m e in
    with_sign neg (if negb (m =? 0) && ((dp - 1 <? -4) || (6 <=? dp - 1))
                   then exponent_text digits dp else fixed_text digits dp)
  end.

(** The number in JSON: without an exponent between 1e-6 and 1e21. *)
Definition json_float_text (f : float64) : option bytes :=
  match f with
  | Fin neg m e =>
    let '(digits, dp) := float_decimal m e in
    let x := dp - 1 in
    Some (with_sign neg
      (if negb (m =? 0) && ((x <? -6) || (21 <=? x)) then
         let '(d0, rest) := match digits with d0 :: rest => (d0, rest) | [] => (digit 0, []) end in
         d0 :: (match rest with [] => [] | _ => Byte.x2e :: rest end)
         ++ Byte.x65 :: (if x <? 0 then Byte.x2d else Byte.x2b) :: dec_digits 20 (Z.abs x)
       else fixed_text digits dp))
  | _ => None
  end.

(** ** Lemmas *)

(** Integers of 53 bits are exact. *)
Lemma of_int_small z : Z.abs z ≤ 2^53 → of_int z = Fin (z <? 0) (Z.abs z) 0.
Proof. intros Hz. unfold of_int. by rewrite (proj2 (Z.leb_le _ _)). Qed.
Lemma signed_abs z : signed (z <? 0) (Z.abs z) = z.
Proof. unfold signed. destruct (z <? 0) eqn:E; bool_to_prop; lia. Qed.

Lemma f_lt_of_int a b : Z.abs a ≤ 2^53 → Z.abs b ≤ 2^53 → f_lt (of_int a) (of_int b) = (a <? b).
Proof.
  intros Ha Hb. rewrite !of_int_small by done. cbn. unfold over. rewrite !signed_abs.
  by rewrite !Z.mul_1_r.
Qed.
Lemma f_eq_of_int a b : Z.abs a ≤ 2^53 → Z.abs b ≤ 2^53 → f_eq (of_int a) (of_int b) = (a =? b).
Proof.
  intros Ha Hb. rewrite !of_int_small by done. cbn. unfold over. rewrite !signed_abs.
  by rewrite !Z.mul_1_r.
Qed.
Lemma to_int_of_int a : Z.abs a ≤ 2^53 → to_int (of_int a) = a.
Proof.
  intros Ha. rewrite of_int_small by done. cbn. rewrite Z.mul_1_r, signed_abs.
  by rewrite (proj2 (Z.leb_le _ _)), (proj2 (Z.ltb_lt _ _)) by lia.
Qed.

(** Reading and writing. *)
Definition reread (s : string) : string := string_of (g_text (sscanf_float (bytes_of s))).
Example shortest_texts :
  reread <$> ["0.1"; "3.90"; "-2.5"; "1000000"; "123456"; "9007199254740993"; "5e-324"; "1.2.3"; "1e400"]
  = ["0.1"; "3.9"; "-2.5"; "1e+06"; "123456"; "9.007199254740992e+15"; "5e-324"; "1.2"; "0"].
Proof. vm_compute. reflexivity. Qed.
