(* ===== verification/Expr.v ===== *)
(** * Workflow expressions (kailab-control/internal/workflow/expressions.go)

    The evaluator of [${{ ... }}] expressions: a recursive-descent parser that
    computes values while it reads, the contexts it looks names up in and the
    built-in functions, and the interpolation of texts.

    The position of the parser is the text still to be read.  The parser need
    not end, so it has fuel and answers [None] when that runs out. *)

From S2P Require Import Prelude Json GoStrings Float64.
Local Open Scope Z_scope.

(** ** Values *)

(** An [interface{}]: a map has its members in any order, a struct in the order
    of its fields. *)
#[warnings="-register-all"]
Inductive value :=
| VNil
| VBool (b : bool)
| VInt (z : Z)
| VFloat (f : float64)
| VStr (s : bytes)
| VArr (l : list value)
| VMap (l : list (bytes * value))
| VStruct (l : list (bytes * value)).

Record StepResult := mk_StepResult {
  sr_Outputs : gmap bytes bytes; sr_Outcome : bytes; sr_Conclusion : bytes }.
Record JobResult := mk_JobResult { jr_Outputs : gmap bytes bytes; jr_Result : bytes }.

Record ExprContext := mk_ExprContext {
  ec_GitHub : list (bytes * value);
  ec_Env : gmap bytes bytes;
  ec_Secrets : gmap bytes bytes;
  ec_Matrix : list (bytes * value);
  ec_Steps : gmap bytes StepResult;
  ec_Needs : gmap bytes JobResult;
  ec_Runner : gmap bytes bytes;
  ec_Inputs : gmap bytes bytes;
  ec_Vars : gmap bytes bytes;
  ec_HashFilesFunc : option (list bytes → bytes);
}.
Definition NewExprContext : ExprContext :=
  mk_ExprContext [] ∅ ∅ [] ∅ ∅ ∅ ∅ ∅ None.

Definition string_map (m : gmap bytes bytes) : value :=
  VMap ((λ kv, (kv.1, VStr kv.2)) <$> map_to_list m).
Definition step_value (r : StepResult) : value :=
  VStruct [(bytes_of "outputs", string_map (sr_Outputs r));
           (bytes_of "outcome", VStr (sr_Outcome r));
           (bytes_of "conclusion", VStr (sr_Conclusion r))].
Definition job_value (r : JobResult) : value :=
  VStruct [(bytes_of "outputs", string_map (jr_Outputs r)); (bytes_of "result", VStr (jr_Result r))].

(** [json.Marshal] of a value; floats that are no numbers have no JSON. *)
Fixpoint to_json (v : value) : option json :=
  match v with
  | VNil => Some JNull
  | VBool b => Some (JBool b)
  | VInt z => Some (JInt z)
  | VFloat f => JNum <$> json_float_text f
  | VStr s => Some (JStr s)
  | VArr l => JArr <$> mapM to_json l
  | VMap l => JMap <$> mapM (λ kv, j ← to_json kv.2; Some (kv.1, j)) l
  | VStruct l => JObj <$> mapM (λ kv, j ← to_json kv.2; Some (kv.1, j)) l
  end.
Definition marshal_value (v : value) : bytes := default [] (marshal <$> to_json v).

(** [json.Unmarshal] into an [interface{}]; a number out of range is an
    error. *)
Fixpoint of_json (v : json) : option value :=
  match v with
  | JNull => Some VNil
  | JBool b => Some (VBool b)
  | JNum lit => match scan_decimal lit with
                | Some (Fin neg m e, _) => Some (VFloat (Fin neg m e))
                | _ => None
                end
  | JStr s => Some (VStr s)
  | JArr l => VArr <$> mapM of_json l
  | JObj l =>
    l ← mapM (λ kv, v ← of_json kv.2; Some (kv.1, v)) l;
    Some (VMap (map_to_list (list_to_map (reverse l) : gmap bytes value)))
  end.

(** ** Conversions *)

Definition toBool (v : value) : bool :=
  match v with
  | VNil => false
  | VBool b => b
  | VStr s => negb (bool_decide (s = []))
  | VInt z => negb (z =? 0)
  | VFloat f => negb (f_eq f zero)
  | _ => true
  end.

Definition exprToString (v : value) : bytes :=
  match v with
  | VNil => []
  | VStr s => s
  | VBool b => bytes_of (if b : bool then "true" else "false")
  | VInt z => int_lit z
  | VFloat f => if f_eq f (of_int (to_int f)) then int_lit (to_int f) else g_text f
  | _ => marshal_value v
  end.

Definition toFloat (v : value) : float64 :=
  match v with
  | VInt z => of_int z
  | VFloat f => f
  | VStr s => sscanf_float s
  | _ => zero
  end.

Definition exprCompare (a b : value) : Z :=
  if f_lt (toFloat a) (toFloat b) then -1
  else if f_lt (toFloat b) (toFloat a) then 1
  else 0.

(** ** Lookups *)

(** [m[k]] *)
Definition assoc (k : bytes) (m : list (bytes * value)) : option value :=
  snd <$> List.find (λ kv, bool_decide (kv.1 = k)) m.

(** [strings.SplitN(path, ".", 2)] *)
Definition split_dot (path : bytes) : bytes * option bytes :=
  match cut_byte Byte.x2e path with
  | Some (part, rest) => (part, Some rest)
  | None => (path, None)
  end.

(** Every level takes at least one byte of the path. *)
Fixpoint deepLookup_loop (fuel : nat) (m : list (bytes * value)) (path : bytes) : value :=
  match fuel with
  | O => VMap m
  | S fuel =>
    if bool_decide (path = []) then VMap m
    else
      let '(part, rest) := split_dot path in
      match assoc part m, rest with
      | None, _ => VNil
      | Some v, None => v
      | Some (VMap sub), Some rest => deepLookup_loop fuel sub rest
      | Some _, Some _ => VNil
      end
  end.
Definition deepLookup (m : list (bytes * value)) (path : bytes) : value :=
  deepLookup_loop (S (length path)) m path.

Definition lookupSteps (ctx : ExprContext) (path : bytes) : value :=
  if bool_decide (path = []) then VMap ((λ kv, (kv.1, step_value kv.2)) <$> map_to_list (ec_Steps ctx))
  else
    let '(stepID, rest) := split_dot path in
    match ec_Steps ctx !! stepID, rest with
    | None, _ => VNil
    | Some step, None => step_value step
    | Some step, Some rest =>
      if decide (rest = bytes_of "outcome") then VStr (sr_Outcome step)
      else if decide (rest = bytes_of "conclusion") then VStr (sr_Conclusion step)
      else match cut_prefix (bytes_of "outputs.") rest with
           | Some outputKey => VStr (default [] (sr_Outputs step !! outputKey))
           | None => if decide (rest = bytes_of "outputs") then string_map (sr_Outputs step) else VNil
           end
    end.

Definition lookupNeeds (ctx : ExprContext) (path : bytes) : value :=
  if bool_decide (path = []) then VMap ((λ kv, (kv.1, job_value kv.2)) <$> map_to_list (ec_Needs ctx))
  else
    let '(jobID, rest) := split_dot path in
    match ec_Needs ctx !! jobID, rest with
    | None, _ => VNil
    | Some job, None => job_value job
    | Some job, Some rest =>
      if decide (rest = bytes_of "result") then VStr (jr_Result job)
      else match cut_prefix (bytes_of "outputs.") rest with
           | Some outputKey => VStr (default [] (jr_Outputs job !! outputKey))
           | None => if decide (rest = bytes_of "outputs") then string_map (jr_Outputs job) else VNil
           end
    end.

(** A context whose members are strings. *)
Definition lookup_strings (m : gmap bytes bytes) (rest : bytes) : value :=
  if bool_decide (rest = []) then string_map m else VStr (default [] (m !! rest)).

Definition lookupContext (ctx : ExprContext) (path : bytes) : value :=
  let '(root, rest) := split_dot path in
  let rest := default [] rest in
  if decide (root = bytes_of "github") then deepLookup (ec_GitHub ctx) rest
  else if decide (root = bytes_of "env") then lookup_strings (ec_Env ctx) rest
  else if decide (root = bytes_of "secrets") then lookup_strings (ec_Secrets ctx) rest
  else if decide (root = bytes_of "matrix") then deepLookup (ec_Matrix ctx) rest
  else if decide (root = bytes_of "steps") then lookupSteps ctx rest
  else if decide (root = bytes_of "needs") then lookupNeeds ctx rest
  else if decide (root = bytes_of "runner") then lookup_strings (ec_Runner ctx) rest
  else if decide (root = bytes_of "inputs") then lookup_strings (ec_Inputs ctx) rest
  else if decide (root = bytes_of "vars") then lookup_strings (ec_Vars ctx) rest
  else VNil.

(** ** Functions *)

Section functions.
Context `{Unicode}.

Definition exprEquals (a b : value) : bool :=
  bool_decide (ToLower (exprToString a) = ToLower (exprToString b)).
Definition exprContains (haystack needle : value) : bool :=
  contains_b (ToLower (exprToString needle)) (ToLower (exprToString haystack)).

(** The placeholder [{i}]. *)
Definition placeholder (i : Z) : bytes := Byte.x7b :: dec_digits 20 i ++ [Byte.x7d].
Fixpoint format_loop (i : Z) (template : bytes) (args : list value) : bytes :=
  match args with
  | [] => template
  | a :: args => format_loop (i + 1) (ReplaceAll template (placeholder i) (exprToString a)) args
  end.
Definition exprFormat (args : list value) : bytes :=
  match args with
  | [] => []
  | template :: args => format_loop 0 (exprToString template) args
  end.

Fixpoint join_with (sep : bytes) (l : list bytes) : bytes :=
  match l with
  | [] => []
  | [x] => x
  | x :: l => x ++ sep ++ join_with sep l
  end.
Definition exprJoin (v : value) (sep : bytes) : bytes :=
  match v with
  | VArr l => join_with sep (exprToString <$> l)
  | _ => exprToString v
  end.

Definition statusCheck (ctx : ExprContext) (check : string) : bool :=
  match assoc (bytes_of "job_status") (ec_GitHub ctx) with
  | Some (VStr status) => bool_decide (status = bytes_of check)
  | _ => bool_decide (check = "success")
  end.

Definition callFunction (ctx : ExprContext) (name : bytes) (args : list value) : value :=
  let name := ToLower name in
  if decide (name = bytes_of "contains") then
    match args with a :: b :: _ => VBool (exprContains a b) | _ => VNil end
  else if decide (name = bytes_of "startswith") then
    match args with
    | a :: b :: _ => VBool (has_prefix_b (ToLower (exprToString b)) (ToLower (exprToString a)))
    | _ => VNil
    end
  else if decide (name = bytes_of "endswith") then
    match args with
    | a :: b :: _ => VBool (has_suffix_b (ToLower (exprToString b)) (ToLower (exprToString a)))
    | _ => VNil
    end
  else if decide (name = bytes_of "format") then
    match args with [] => VNil | _ => VStr (exprFormat args) end
  else if decide (name = bytes_of "join") then
    match args with
    | [] => VNil
    | [a] => VStr (exprJoin a [Byte.x2c])
    | a :: sep :: _ => VStr (exprJoin a (exprToString sep))
    end
  else if decide (name = bytes_of "tojson") then
    match args with [] => VNil | a :: _ => VStr (marshal_value a) end
  else if decide (name = bytes_of "fromjson") then
    match args with [] => VNil | a :: _ => default VNil (v ← parse (exprToString a); of_json v) end
  else if decide (name = bytes_of "hashfiles") then
    match ec_HashFilesFunc ctx, args with
    | Some f, _ :: _ => VStr (f (exprToString <$> args))
    | _, _ => VStr []
    end
  else if decide (name = bytes_of "success") then VBool (statusCheck ctx "success")
  else if decide (name = bytes_of "failure") then VBool (statusCheck ctx "failure")
  else if decide (name = bytes_of "cancelled") then VBool (statusCheck ctx "cancelled")
  else if decide (name = bytes_of "always") then VBool true
  else VNil.
End functions.

(** ** The parser *)

Fixpoint skipWhitespace (s : bytes) : bytes :=
  match s with
  | b :: r => if bool_decide (b = Byte.x20) || bool_decide (b = Byte.x09) then skipWhitespace r else s
  | [] => []
  end.

Definition starts_with (c : byte) (s : bytes) : bool :=
  match s with b :: _ => bool_decide (b = c) | [] => false end.

(** The text of a string literal behind its opening quote; without a closing
    one it goes to the end. *)
Fixpoint parseString (s : bytes) : bytes * bytes :=
  match s with
  | [] => ([], [])
  | b :: r =>
    if bool_decide (b = Byte.x27) then
      match r with
      | c :: r' =>
        if bool_decide (c = Byte.x27) then let '(t, rest) := parseString r' in (Byte.x27 :: t, rest)
        else ([], r)
      | [] => ([], [])
      end
    else let '(t, rest) := parseString r in (b :: t, rest)
  end.

Fixpoint span (f : byte → bool) (s : bytes) : bytes * bytes :=
  match s with
  | b :: r => if f b then let '(t, rest) := span f r in (b :: t, rest) else ([], s)
  | [] => ([], [])
  end.

Definition is_dot (b : byte) : bool := bool_decide (b = Byte.x2e).
(** [fmt.Sscanf] of digits reads zero when they do not fit. *)
Definition sscanf_int (ds : bytes) : Z :=
  match dec_value 0 ds with
  | Some n => if n <? 2^63 then n else 0
  | None => 0
  end.
Definition parseNumber (s : bytes) : value * bytes :=
  let '(numStr, rest) := span (λ b, is_digit b || is_dot b) s in
  (if existsb is_dot numStr then VFloat (sscanf_float numStr) else VInt (sscanf_int numStr), rest).

Definition is_name_char (b : byte) : bool :=
  let c := int_of_byte b in
  (c =? 46) || (c =? 95) || (c =? 45) || ((97 <=? c) && (c <=? 122)) || ((65 <=? c) && (c <=? 90))
  || is_digit b.

Section parser.
Context `{Unicode}.
Variable ctx : ExprContext.

Definition compare_ops : list (string * (value → value → bool)) :=
  [("==", exprEquals); ("!=", λ a b, negb (exprEquals a b));
   ("<=", λ a b, exprCompare a b <=? 0); (">=", λ a b, 0 <=? exprCompare a b);
   ("<", λ a b, exprCompare a b <? 0); (">", λ a b, 0 <? exprCompare a b)].
(** The comparison operator at the head, with what follows. *)
Fixpoint find_op (ops : list (string * (value → value → bool))) (s : bytes)
  : option ((value → value → bool) * bytes) :=
  match ops with
  | [] => None
  | (op, f) :: ops => match cut_prefix (bytes_of op) s with
                      | Some r => Some (f, r)
                      | None => find_op ops s
                      end
  end.

Fixpoint parseOr (fuel : nat) (s : bytes) : option (value * bytes) :=
  match fuel with
  | O => None
  | S fuel => '(l, s) ← parseAnd fuel s; or_loop fuel l s
  end
(** A true left operand is the answer: the operators behind the right one are
    left unread. *)
with or_loop (fuel : nat) (l : value) (s : bytes) : option (value * bytes) :=
  match fuel with
  | O => None
  | S fuel =>
    let s := skipWhitespace s in
    match cut_prefix (bytes_of "||") s with
    | Some s =>
      '(r, s) ← parseAnd fuel s;
      if toBool l then Some (l, s) else or_loop fuel r s
    | None => Some (l, s)
    end
  end
with parseAnd (fuel : nat) (s : bytes) : option (value * bytes) :=
  match fuel with
  | O => None
  | S fuel => '(l, s) ← parseComparison fuel s; and_loop fuel l s
  end
with and_loop (fuel : nat) (l : value) (s : bytes) : option (value * bytes) :=
  match fuel with
  | O => None
  | S fuel =>
    let s := skipWhitespace s in
    match cut_prefix (bytes_of "&&") s with
    | Some s =>
      '(r, s) ← parseComparison fuel s;
      if toBool l then and_loop fuel r s else Some (l, s)
    | None => Some (l, s)
    end
  end
with parseComparison (fuel : nat) (s : bytes) : option (value * bytes) :=
  match fuel with
  | O => None
  | S fuel =>
    '(l, s) ← parseNot fuel s;
    let s := skipWhitespace s in
    match find_op compare_ops s with
    | Some (op, s) => '(r, s) ← parseNot fuel s; Some (VBool (op l r), s)
    | None => Some (l, s)
    end
  end
with parseNot (fuel : nat) (s : bytes) : option (value * bytes) :=
  match fuel with
  | O => None
  | S fuel =>
    let s := skipWhitespace s in
    if starts_with Byte.x21 s then
      '(v, s) ← parseNot fuel (drop 1 s); Some (VBool (negb (toBool v)), s)
    else parsePrimary fuel s
  end
with parsePrimary (fuel : nat) (s : bytes) : option (value * bytes) :=
  match fuel with
  | O => None
  | S fuel =>
    match skipWhitespace s with
    | [] => Some (VNil, [])
    | ch :: r =>
      if bool_decide (ch = Byte.x28) then
        '(v, s) ← parseOr fuel r;
        let s := skipWhitespace s in
        Some (v, if starts_with Byte.x29 s then drop 1 s else s)
      else if bool_decide (ch = Byte.x27) then let '(t, s) := parseString r in Some (VStr t, s)
      else if is_digit ch then Some (parseNumber (ch :: r))
      else parseIdentifier fuel (ch :: r)
    end
  end
with parseIdentifier (fuel : nat) (s : bytes) : option (value * bytes) :=
  match fuel with
  | O => None
  | S fuel =>
    let '(name, s) := span is_name_char s in
    if bool_decide (name = []) then Some (VNil, s)
    else
      let low := ToLower name in
      if decide (low = bytes_of "true") then Some (VBool true, s)
      else if decide (low = bytes_of "false") then Some (VBool false, s)
      else if decide (low = bytes_of "null") then Some (VNil, s)
      else
        let s := skipWhitespace s in
        if starts_with Byte.x28 s then
          '(args, s) ← parse_args fuel [] (drop 1 s);
          Some (callFunction ctx name args, s)
        else Some (lookupContext ctx name, s)
  end
(** The loop of [parseFunction], up to the closing bracket. *)
with parse_args (fuel : nat) (args : list value) (s : bytes) : option (list value * bytes) :=
  match fuel with
  | O => None
  | S fuel =>
    let s := skipWhitespace s in
    if bool_decide (s = []) || starts_with Byte.x29 s then Some (args, drop 1 s)
    else
      let more := match args with [] => false | _ => true end in
      '(v, s) ← parseOr fuel (if more && starts_with Byte.x2c s then drop 1 s else s);
      parse_args fuel (args ++ [v]) s
  end.

(** What follows the expression is not looked at. *)
Definition EvalExpr (fuel : nat) (expr : bytes) : option value := fst <$> parseOr fuel expr.

Definition EvalExprBool (fuel : nat) (expr : bytes) : option bool :=
  let expr := TrimSpace expr in
  let expr := trim_suffix (bytes_of "}}") (trim_prefix (bytes_of "${{") expr) in
  toBool <$> EvalExpr fuel (TrimSpace expr).

(** The loop of [Interpolate] takes at least three bytes in every round. *)
Fixpoint Interpolate_loop (n fuel : nat) (s : bytes) : option bytes :=
  match n with
  | O => Some []
  | S n =>
    match cut (bytes_of "${{") s with
    | None => Some s
    | Some (before, s) =>
      match cut (bytes_of "}}") s with
      | None => rest ← Interpolate_loop n fuel s; Some (before ++ bytes_of "${{" ++ rest)
      | Some (expr, s) =>
        v ← EvalExpr fuel (TrimSpace expr);
        rest ← Interpolate_loop n fuel s;
        Some (before ++ exprToString v ++ rest)
      end
    end
  end.
Definition Interpolate (fuel : nat) (s : bytes) : option bytes :=
  Interpolate_loop (S (length s)) fuel s.
(** The values of a map. *)
Definition InterpolateMap (fuel : nat) (m : gmap bytes bytes) : option (gmap bytes bytes) :=
  list_to_map <$> mapM (λ kv, v ← Interpolate fuel kv.2; Some (kv.1, v)) (map_to_list m).
End parser.

(** ** The language

    What expressions mean, on syntax trees, and how they are written with
    every operand of an operator an atom or in brackets. *)

Inductive cmp_op := OpEq | OpNe | OpLe | OpGe | OpLt | OpGt.

#[warnings="-register-all"]
Inductive expr :=
| ENull
| EBool (b : bool)
| ENum (n : Z)
| EStr (s : bytes)
| ECtx (path : bytes)
| ECall (name : bytes) (args : list expr)
| ENot (e : expr)
| ECmp (op : cmp_op) (a b : expr)
| EAnd (a b : expr)
| EOr (a b : expr).

Section expr_ind.
Variable P : expr → Prop.
Hypothesis P_null : P ENull.
Hypothesis P_bool : ∀ b, P (EBool b).
Hypothesis P_num : ∀ n, P (ENum n).
Hypothesis P_str : ∀ s, P (EStr s).
Hypothesis P_ctx : ∀ path, P (ECtx path).
Hypothesis P_call : ∀ name args, Forall P args → P (ECall name args).
Hypothesis P_not : ∀ e, P e → P (ENot e).
Hypothesis P_cmp : ∀ op a b, P a → P b → P (ECmp op a b).
Hypothesis P_and : ∀ a b, P a → P b → P (EAnd a b).
Hypothesis P_or : ∀ a b, P a → P b → P (EOr a b).
Fixpoint expr_nested_ind (e : expr) : P e :=
  match e with
  | ENull => P_null
  | EBool b => P_bool b
  | ENum n => P_num n
  | EStr s => P_str s
  | ECtx path => P_ctx path
  | ECall name args =>
    P_call name args ((fix all l : Forall P l :=
      match l with [] => Forall_nil_2 P | x :: l => Forall_cons_2 P x l (expr_nested_ind x) (all l) end) args)
  | ENot e => P_not e (expr_nested_ind e)
  | ECmp op a b => P_cmp op a b (expr_nested_ind a) (expr_nested_ind b)
  | EAnd a b => P_and a b (expr_nested_ind a) (expr_nested_ind b)
  | EOr a b => P_or a b (expr_nested_ind a) (expr_nested_ind b)
  end.
End expr_ind.

Definition op_text (op : cmp_op) : string :=
  match op with
  | OpEq => "==" | OpNe => "!=" | OpLe => "<=" | OpGe => ">=" | OpLt => "<" | OpGt => ">"
  end.

(** A quote is written twice. *)
Fixpoint escape (s : bytes) : bytes :=
  match s with
  | [] => []
  | b :: s => if bool_decide (b = Byte.x27) then Byte.x27 :: Byte.x27 :: escape s else b :: escape s
  end.

Definition compound (e : expr) : bool :=
  match e with ENot _ | ECmp _ _ _ | EAnd _ _ | EOr _ _ => true | _ => false end.
Definition blank : bytes := [Byte.x20].
Definition brackets (compound : bool) (s : bytes) : bytes :=
  if compound then Byte.x28 :: s ++ [Byte.x29] else s.
Fixpoint args_text (l : list bytes) : bytes :=
  match l with
  | [] => []
  | x :: l => match l with [] => x | _ => x ++ [Byte.x2c; Byte.x20] ++ args_text l end
  end.

Fixpoint print (e : expr) : bytes :=
  match e with
  | ENull => bytes_of "null"
  | EBool b => bytes_of (if b then "true" else "false")
  | ENum n => dec_digits 20 n
  | EStr s => Byte.x27 :: escape s ++ [Byte.x27]
  | ECtx path => path
  | ECall name args => name ++ (Byte.x28 :: args_text (map print args) ++ [Byte.x29])
  | ENot e => Byte.x21 :: brackets (compound e) (print e)
  | ECmp op a b =>
    brackets (compound a) (print a) ++ blank ++ bytes_of (op_text op) ++ blank ++ brackets (compound b) (print b)
  | EAnd a b =>
    brackets (compound a) (print a) ++ blank ++ bytes_of "&&" ++ blank ++ brackets (compound b) (print b)
  | EOr a b =>
    brackets (compound a) (print a) ++ blank ++ bytes_of "||" ++ blank ++ brackets (compound b) (print b)
  end.
(** An expression as an operand. *)
Definition atom (e : expr) : bytes := brackets (compound e) (print e).

Section meaning.
Context `{Unicode}.
Variable ctx : ExprContext.

Definition op_holds (op : cmp_op) (a b : value) : bool :=
  match op with
  | OpEq => exprEquals a b
  | OpNe => negb (exprEquals a b)
  | OpLe => exprCompare a b <=? 0
  | OpGe => 0 <=? exprCompare a b
  | OpLt => exprCompare a b <? 0
  | OpGt => 0 <? exprCompare a b
  end.

Fixpoint denote (e : expr) : value :=
  match e with
  | ENull => VNil
  | EBool b => VBool b
  | ENum n => VInt n
  | EStr s => VStr s
  | ECtx path => lookupContext ctx path
  | ECall name args => callFunction ctx name (map denote args)
  | ENot e => VBool (negb (toBool (denote e)))
  | ECmp op a b => VBool (op_holds op (denote a) (denote b))
  | EAnd a b => if toBool (denote a) then denote b else denote a
  | EOr a b => if toBool (denote a) then denote a else denote b
  end.
End meaning.

(** Names of contexts and functions. *)
Definition keywords : list bytes := [bytes_of "true"; bytes_of "false"; bytes_of "null"].
Definition name_ok (s : bytes) : Prop :=
  Forall (λ b, is_name_char b = true) s ∧ ((lower_ascii <$> s) ∉ keywords) ∧
  match s with b :: _ => is_digit b = false | [] => False end.

Fixpoint well_formed (e : expr) : Prop :=
  match e with
  | ENum n => 0 ≤ n < 2^63
  | ECtx path => name_ok path
  | ECall name args =>
    name_ok name ∧ ((fix all l := match l with [] => True | x :: l => well_formed x ∧ all l end) args)
  | ENot e => well_formed e
  | ECmp _ a b | EAnd a b | EOr a b => well_formed a ∧ well_formed b
  | _ => True
  end.
Lemma well_formed_call name args :
  well_formed (ECall name args) ↔ name_ok name ∧ Forall well_formed args.
Proof.
  cbn [well_formed]. apply and_iff_compat_l. induction args as [|x args IH].
  - split; [constructor|done].
  - rewrite Forall_cons, IH. done.
Qed.

Definition operators : list string := ["||"; "&&"; "=="; "!="; "<="; ">="; "<"; ">"].

(** Characters at which nothing can start or go on: an argument list that
    reaches one is read for ever. *)
Definition dead (s : bytes) : Prop :=
  match s with
  | [] => False
  | c :: _ =>
    is_name_char c = false ∧ (c ∉ bytes_of "()', !") ∧ c ≠ Byte.x09 ∧
    Forall (λ op, cut_prefix (bytes_of op) s = None) operators
  end.

(** ** The equations of the parser *)

Section equations.
Context `{Unicode}.
Variable ctx : ExprContext.

Lemma parseOr_S fuel (s : bytes) :
  parseOr ctx (S fuel) s =
  ('(l, s) ← parseAnd ctx fuel s; or_loop ctx fuel l s).
Proof. reflexivity. Qed.
Lemma or_loop_S fuel (l : value) (s : bytes) :
  or_loop ctx (S fuel) l s =
  (let s := skipWhitespace s in
    match cut_prefix (bytes_of "||") s with
    | Some s =>
      '(r, s) ← parseAnd ctx fuel s;
      if toBool l then Some (l, s) else or_loop ctx fuel r s
    | None => Some (l, s)
    end).
Proof. reflexivity. Qed.
Lemma parseAnd_S fuel (s : bytes) :
  parseAnd ctx (S fuel) s =
  ('(l, s) ← parseComparison ctx fuel s; and_loop ctx fuel l s).
Proof. reflexivity. Qed.
Lemma and_loop_S fuel (l : value) (s : bytes) :
  and_loop ctx (S fuel) l s =
  (let s := skipWhitespace s in
    match cut_prefix (bytes_of "&&") s with
    | Some s =>
      '(r, s) ← parseComparison ctx fuel s;
      if toBool l then and_loop ctx fuel r s else Some (l, s)
    | None => Some (l, s)
    end).
Proof. reflexivity. Qed.
Lemma parseComparison_S fuel (s : bytes) :
  parseComparison ctx (S fuel) s =
  ('(l, s) ← parseNot ctx fuel s;
    let s := skipWhitespace s in
    match find_op compare_ops s with
    | Some (op, s) => '(r, s) ← parseNot ctx fuel s; Some (VBool (op l r), s)
    | None => Some (l, s)
    end).
Proof. reflexivity. Qed.
Lemma parseNot_S fuel (s : bytes) :
  parseNot ctx (S fuel) s =
  (let s := skipWhitespace s in
    if starts_with Byte.x21 s then
      '(v, s) ← parseNot ctx fuel (drop 1 s); Some (VBool (negb (toBool v)), s)
    else parsePrimary ctx fuel s).
Proof. reflexivity. Qed.
Lemma parsePrimary_S fuel (s : bytes) :
  parsePrimary ctx (S fuel) s =
  (match skipWhitespace s with
    | [] => Some (VNil, [])
    | ch :: r =>
      if bool_decide (ch = Byte.x28) then
        '(v, s) ← parseOr ctx fuel r;
        let s := skipWhitespace s in
        Some (v, if starts_with Byte.x29 s then drop 1 s else s)
      else if bool_decide (ch = Byte.x27) then let '(t, s) := parseString r in Some (VStr t, s)
      else if is_digit ch then Some (parseNumber (ch :: r))
      else parseIdentifier ctx fuel (ch :: r)
    end).
Proof. reflexivity. Qed.
Lemma parseIdentifier_S fuel (s : bytes) :
  parseIdentifier ctx (S fuel) s =
  (let '(name, s) := span is_name_char s in
    if bool_decide (name = []) then Some (VNil, s)
    else
      let low := ToLower name in
      if decide (low = bytes_of "true") then Some (VBool true, s)
      else if decide (low = bytes_of "false") then Some (VBool false, s)
      else if decide (low = bytes_of "null") then Some (VNil, s)
      else
        let s := skipWhitespace s in
        if starts_with Byte.x28 s then
          '(args, s) ← parse_args ctx fuel [] (drop 1 s);
          Some (callFunction ctx name args, s)
        else Some (lookupContext ctx name, s)).
Proof. reflexivity. Qed.
Lemma parse_args_S fuel (args : list value) (s : bytes) :
  parse_args ctx (S fuel) args s =
  (let s := skipWhitespace s in
    if bool_decide (s = []) || starts_with Byte.x29 s then Some (args, drop 1 s)
    else
      let more := match args with [] => false | _ => true end in
      '(v, s) ← parseOr ctx fuel (if more && starts_with Byte.x2c s then drop 1 s else s);
      parse_args ctx fuel (args ++ [v]) s).
Proof. reflexivity. Qed.
End equations.
Ltac unfold_parse :=
  rewrite ?parseOr_S, ?or_loop_S, ?parseAnd_S, ?and_loop_S, ?parseComparison_S, ?parseNot_S,
    ?parsePrimary_S, ?parseIdentifier_S, ?parse_args_S; cbv zeta.

(** ** More fuel changes nothing *)

Section monotone.
Context `{Unicode}.
Variable ctx : ExprContext.

(** One option is at least as defined as another. *)
Definition at_least {A} (x y : option A) : Prop := ∀ a, x = Some a → y = Some a.
Lemma at_least_bind {A B} (x y : option A) (f g : A → option B) :
  at_least x y → (∀ a, at_least (f a) (g a)) → at_least (x ≫= f) (y ≫= g).
Proof. intros Hx Hf b. destruct x as [a|]; [|done]. rewrite (Hx a eq_refl). apply Hf. Qed.
Lemma at_least_refl {A} (x : option A) : at_least x x.
Proof. by intros a. Qed.

Lemma parse_at_least n : ∀ m, (n ≤ m)%nat →
  (∀ s, at_least (parseOr ctx n s) (parseOr ctx m s)) ∧
  (∀ l s, at_least (or_loop ctx n l s) (or_loop ctx m l s)) ∧
  (∀ s, at_least (parseAnd ctx n s) (parseAnd ctx m s)) ∧
  (∀ l s, at_least (and_loop ctx n l s) (and_loop ctx m l s)) ∧
  (∀ s, at_least (parseComparison ctx n s) (parseComparison ctx m s)) ∧
  (∀ s, at_least (parseNot ctx n s) (parseNot ctx m s)) ∧
  (∀ s, at_least (parsePrimary ctx n s) (parsePrimary ctx m s)) ∧
  (∀ s, at_least (parseIdentifier ctx n s) (parseIdentifier ctx m s)) ∧
  (∀ args s, at_least (parse_args ctx n args s) (parse_args ctx m args s)).
Proof.
  induction n as [|n IH]; intros m Hm; [done|].
  destruct m as [|m]; [lia|].
  destruct (IH m ltac:(lia)) as (I1 & I2 & I3 & I4 & I5 & I6 & I7 & I8 & I9). clear IH.
  split; [|split; [|split; [|split; [|split; [|split; [|split; [|split]]]]]]]; intros *;
    unfold_parse.
  - apply at_least_bind; [apply I3|]. intros []. apply I2.
  - destruct (cut_prefix _ _); [|apply at_least_refl]. apply at_least_bind; [apply I3|]. intros [].
    destruct (toBool l); [apply at_least_refl|apply I2].
  - apply at_least_bind; [apply I5|]. intros []. apply I4.
  - destruct (cut_prefix _ _); [|apply at_least_refl]. apply at_least_bind; [apply I5|]. intros [].
    destruct (toBool l); [apply I4|apply at_least_refl].
  - apply at_least_bind; [apply I6|]. intros []. destruct (find_op _ _) as [[]|]; [|apply at_least_refl].
    apply at_least_bind; [apply I6|]. intros []. apply at_least_refl.
  - destruct (starts_with _ _); [|apply I7]. apply at_least_bind; [apply I6|]. intros []. apply at_least_refl.
  - destruct (skipWhitespace s) as [|ch r]; [apply at_least_refl|].
    destruct (bool_decide (ch = Byte.x28)).
    { apply at_least_bind; [apply I1|]. intros []. apply at_least_refl. }
    destruct (bool_decide _); [apply at_least_refl|]. destruct (is_digit ch); [apply at_least_refl|apply I8].
  - destruct (span _ s) as [name r]. repeat (case_match; try apply at_least_refl).
    apply at_least_bind; [apply I9|]. intros []. apply at_least_refl.
  - destruct (_ || _); [apply at_least_refl|]. apply at_least_bind; [apply I1|]. intros []. apply I9.
Qed.

Lemma parseOr_more n m s a : parseOr ctx n s = Some a → (n ≤ m)%nat → parseOr ctx m s = Some a.
Proof. intros Hn Hm. by eapply (parse_at_least n m Hm). Qed.
Lemma or_loop_more n m l s a : or_loop ctx n l s = Some a → (n ≤ m)%nat → or_loop ctx m l s = Some a.
Proof. intros Hn Hm. by eapply (parse_at_least n m Hm). Qed.
Lemma parseAnd_more n m s a : parseAnd ctx n s = Some a → (n ≤ m)%nat → parseAnd ctx m s = Some a.
Proof. intros Hn Hm. by eapply (parse_at_least n m Hm). Qed.
Lemma and_loop_more n m l s a : and_loop ctx n l s = Some a → (n ≤ m)%nat → and_loop ctx m l s = Some a.
Proof. intros Hn Hm. by eapply (parse_at_least n m Hm). Qed.
Lemma parseComparison_more n m s a :
  parseComparison ctx n s = Some a → (n ≤ m)%nat → parseComparison ctx m s = Some a.
Proof. intros Hn Hm. by eapply (parse_at_least n m Hm). Qed.
Lemma parseNot_more n m s a : parseNot ctx n s = Some a → (n ≤ m)%nat → parseNot ctx m s = Some a.
Proof. intros Hn Hm. by eapply (parse_at_least n m Hm). Qed.
Lemma parsePrimary_more n m s a :
  parsePrimary ctx n s = Some a → (n ≤ m)%nat → parsePrimary ctx m s = Some a.
Proof. intros Hn Hm. by eapply (parse_at_least n m Hm). Qed.
Lemma parse_args_more n m args s a :
  parse_args ctx n args s = Some a → (n ≤ m)%nat → parse_args ctx m args s = Some a.
Proof. intros Hn Hm. by eapply (parse_at_least n m Hm). Qed.
End monotone.

(** ** Reading what was written *)

Section reading.
Context `{Unicode}.
Variable ctx : ExprContext.

Definition white (b : byte) : bool := bool_decide (b = Byte.x20) || bool_decide (b = Byte.x09).

Lemma skip_black b r : white b = false → skipWhitespace (b :: r) = b :: r.
Proof. unfold white. intros Hb. cbn [skipWhitespace]. by rewrite Hb. Qed.
Lemma skip_skip s : skipWhitespace (skipWhitespace s) = skipWhitespace s.
Proof.
  induction s as [|b s IH]; [done|]. cbn [skipWhitespace]. destruct (_ || _) eqn:E; [done|].
  by apply skip_black.
Qed.

(** Where an expression may end: at the end of the text, a bracket, a comma or
    a dead character. *)
Definition ends (s : bytes) : Prop :=
  match s with
  | [] => True
  | c :: _ => c = Byte.x29 ∨ c = Byte.x2c ∨ dead s
  end.
(** Where an operand may end: also at a blank and an operator. *)
Definition breaks (s : bytes) : Prop :=
  ends s ∨ ∃ op r, op ∈ operators ∧ s = blank ++ bytes_of op ++ blank ++ r.

Lemma ends_black s : ends s → skipWhitespace s = s.
Proof.
  destruct s as [|c s]; [done|]. intros Hs. apply skip_black. unfold white.
  destruct Hs as [->|[->|(_ & Hc & Ht & _)]]; [done|done|].
  rewrite !bool_decide_eq_false_2; [done|done|]. intros ->. apply Hc. by vm_compute; set_solver.
Qed.

Lemma ends_no_op s op : ends s → op ∈ operators → cut_prefix (bytes_of op) s = None.
Proof.
  intros Hs Hop. destruct s as [|c s].
  { repeat (apply elem_of_cons in Hop as [->|Hop]; [done|]). by apply elem_of_nil in Hop. }
  destruct Hs as [->|[->|(_ & _ & _ & Hd)]]; [| |by eapply Forall_forall in Hd];
    repeat (apply elem_of_cons in Hop as [->|Hop]; [done|]); by apply elem_of_nil in Hop.
Qed.

Definition cmp_texts : list string := ["=="; "!="; "<="; ">="; "<"; ">"].
Lemma no_cmp s : (∀ op, op ∈ cmp_texts → cut_prefix (bytes_of op) s = None) → find_op compare_ops s = None.
Proof.
  intros Hs. unfold compare_ops. cbn [find_op].
  by rewrite !Hs by (unfold cmp_texts; set_solver).
Qed.
Lemma ends_no_cmp s : ends s → find_op compare_ops s = None.
Proof.
  intros Hs. apply no_cmp. intros op Hop. apply ends_no_op; [done|].
  unfold operators, cmp_texts in *. set_solver.
Qed.

(** What may follow an operand does not continue it. *)
Lemma breaks_head s : breaks s → match s with
  | [] => True
  | c :: _ => is_name_char c = false ∧ is_digit c = false ∧ is_dot c = false ∧ c ≠ Byte.x27
  end ∧ starts_with Byte.x28 (skipWhitespace s) = false.
Proof.
  intros [Hs|(op & r & Hop & ->)].
  - rewrite (ends_black _ Hs). destruct s as [|c s]; [done|]. destruct Hs as [->|[->|(Hn & Hc & _)]]; [done|done|].
    split; [|cbn; rewrite bool_decide_eq_false_2; [done|intros ->; apply Hc; by vm_compute; set_solver]].
    split; [done|]. unfold is_name_char in Hn. bool_to_prop. split; [done|].
    split; [|intros ->; apply Hc; by vm_compute; set_solver].
    unfold is_dot. apply bool_decide_eq_false. intros ->. done.
  - split; [done|]. repeat (apply elem_of_cons in Hop as [->|Hop]; [done|]). by apply elem_of_nil in Hop.
Qed.

Lemma span_stop f p s : Forall (λ b, f b = true) p →
  match s with [] => True | c :: _ => f c = false end → span f (p ++ s) = (p, s).
Proof.
  intros Hp Hs. induction Hp as [|b p Hb Hp IH].
  - destruct s as [|c s]; [done|]. cbn. by rewrite Hs.
  - cbn [app span]. by rewrite Hb, IH.
Qed.

Lemma parseString_escape s rest :
  match rest with [] => True | c :: _ => c ≠ Byte.x27 end →
  parseString (escape s ++ Byte.x27 :: rest) = (s, rest).
Proof.
  intros Hr. induction s as [|b s IH]; cbn [escape].
  - cbn [app parseString]. rewrite bool_decide_eq_true_2 by done. destruct rest as [|c rest]; [done|].
    by rewrite bool_decide_eq_false_2.
  - case_bool_decide as Hb.
    + subst b. cbn [app parseString]. rewrite !bool_decide_eq_true_2 by done. by rewrite IH.
    + cbn [app parseString]. rewrite bool_decide_eq_false_2 by done. by rewrite IH.
Qed.

Lemma name_ascii s : Forall (λ b, is_name_char b = true) s → is_ascii s = true.
Proof.
  intros Hs. unfold is_ascii. apply forallb_elem. intros b Hb.
  rewrite Forall_forall in Hs. specialize (Hs b Hb). unfold is_name_char, is_digit, in_range in Hs. cbv zeta in Hs. apply Z.ltb_lt.
  repeat (apply orb_prop in Hs as [Hs|Hs]); bool_to_prop; lia.
Qed.
Lemma name_lower s : Forall (λ b, is_name_char b = true) s → ToLower s = lower_ascii <$> s.
Proof. intros Hs. unfold ToLower. by rewrite name_ascii. Qed.

Lemma name_white s : name_ok s → ∃ b r, s = b :: r ∧ white b = false ∧ b ≠ Byte.x21 ∧ b ≠ Byte.x28 ∧ b ≠ Byte.x27 ∧ is_digit b = false
  ∧ b ≠ Byte.x29 ∧ b ≠ Byte.x2c.
Proof.
  intros (Hs & _ & Hd). destruct s as [|b r]; [done|]. exists b, r. apply Forall_cons in Hs as [Hb _].
  split; [done|]. unfold white.
  assert (∀ c, is_name_char c = false → b ≠ c) as Hne by (intros c Hc ->; congruence).
  rewrite !bool_decide_eq_false_2 by (by apply Hne). repeat split; try by apply Hne. done.
Qed.

(** An identifier that is no keyword. *)
Lemma parseIdentifier_name n p s : name_ok p →
  match s with [] => True | c :: _ => is_name_char c = false end →
  parseIdentifier ctx (S n) (p ++ s) =
  let s := skipWhitespace s in
  if starts_with Byte.x28 s then
    '(args, s) ← parse_args ctx n [] (drop 1 s); Some (callFunction ctx p args, s)
  else Some (lookupContext ctx p, s).
Proof.
  intros (Hp & Hk & Hd) Hs. rewrite parseIdentifier_S. rewrite span_stop by done.
  rewrite bool_decide_eq_false_2 by (by intros ->). rewrite name_lower by done.
  unfold keywords in Hk. rewrite !decide_False by (intros E; apply Hk; rewrite E; set_solver). done.
Qed.

Lemma parsePrimary_name n p s : name_ok p →
  match s with [] => True | c :: _ => is_name_char c = false end →
  parsePrimary ctx (S (S n)) (p ++ s) = parseIdentifier ctx (S n) (p ++ s).
Proof.
  intros Hp Hs. destruct (name_white p Hp) as (b & r & -> & Hw & ? & Hb & Hq & Hd & _).
  rewrite parsePrimary_S. cbn [app].
  rewrite skip_black by done. rewrite !bool_decide_eq_false_2 by done. by rewrite Hd.
Qed.

Definition prim_ok (e : expr) : Prop := ∀ s rest,
  skipWhitespace s = atom e ++ rest → breaks rest →
  ∃ n r, parsePrimary ctx n s = Some (denote ctx e, r) ∧ skipWhitespace r = skipWhitespace rest.
Definition full_ok (e : expr) : Prop := ∀ s rest,
  skipWhitespace s = print e ++ rest → ends rest →
  ∃ n r, parseOr ctx n s = Some (denote ctx e, r) ∧ skipWhitespace r = rest.

Lemma print_head e : well_formed e →
  ∃ b r, print e = b :: r ∧ white b = false ∧ b ≠ Byte.x29 ∧ b ≠ Byte.x2c ∧ (compound e = false → b ≠ Byte.x21).
Proof.
  assert (∀ e x, well_formed e → (∃ b r, print e = b :: r ∧ white b = false ∧ b ≠ Byte.x29 ∧ b ≠ Byte.x2c) →
    ∃ b r, atom e ++ x = b :: r ∧ white b = false ∧ b ≠ Byte.x29 ∧ b ≠ Byte.x2c) as Hatom.
  { intros e' x _ (b & r & Hp & ?). unfold atom, brackets. rewrite Hp.
    destruct (compound e'); cbn; [by eexists _, _|]. exists b, (r ++ x). naive_solver. }
  induction e as [|b|k|s|path|name args IH|e IH|op a b IHa IHb|a b IHa IHb|a b IHa IHb] using expr_nested_ind; intros Hw.
  - by eexists _, _.
  - destruct b; by eexists _, _.
  - cbn in Hw. destruct (dec_digits_ok 20 k) as (_ & Hd & b & r & Hb & _); [lia|lia|].
    exists b, r. cbn [print]. split; [done|]. rewrite Hb in Hd. cbn in Hd. apply andb_prop in Hd as [Hd _].
    unfold white. assert (∀ c, is_digit c = false → b ≠ c) as Hne by (intros c Hc ->; congruence).
    rewrite !bool_decide_eq_false_2 by (by apply Hne).
    split; [done|]. split; [by apply Hne|]. split; [by apply Hne|]. intros _. by apply Hne.
  - by eexists _, _.
  - destruct (name_white path Hw) as (b & r & -> & ?). exists b, r. naive_solver.
  - apply well_formed_call in Hw as [Hw _]. destruct (name_white name Hw) as (b & r & -> & ?).
    eexists b, _. cbn [print app]. naive_solver.
  - by eexists _, _.
  - destruct Hw as [Ha Hb]. destruct (IHa Ha) as (c & r & ?). edestruct (Hatom a) as (c' & r' & Hc & ?); [done|naive_solver|].
    exists c', r'. cbn [print]. unfold atom in Hc. split; [exact Hc|]. naive_solver.
  - destruct Hw as [Ha Hb]. destruct (IHa Ha) as (c & r & ?). edestruct (Hatom a) as (c' & r' & Hc & ?); [done|naive_solver|].
    exists c', r'. cbn [print]. unfold atom in Hc. split; [exact Hc|]. naive_solver.
  - destruct Hw as [Ha Hb]. destruct (IHa Ha) as (c & r & ?). edestruct (Hatom a) as (c' & r' & Hc & ?); [done|naive_solver|].
    exists c', r'. cbn [print]. unfold atom in Hc. split; [exact Hc|]. naive_solver.
Qed.

Lemma atom_head e : well_formed e → ∃ b r, atom e = b :: r ∧ white b = false ∧ b ≠ Byte.x21.
Proof.
  intros Hw. destruct (print_head e Hw) as (b & r & Hp & Hb & _ & _ & Hn). unfold atom, brackets.
  destruct (compound e); [by eexists _, _|]. exists b, r. naive_solver.
Qed.
Lemma skip_atom e x : well_formed e → skipWhitespace (atom e ++ x) = atom e ++ x.
Proof. intros Hw. destruct (atom_head e Hw) as (b & r & -> & Hb & _). by apply skip_black. Qed.
Lemma skip_print e x : well_formed e → skipWhitespace (print e ++ x) = print e ++ x.
Proof. intros Hw. destruct (print_head e Hw) as (b & r & -> & Hb & _). by apply skip_black. Qed.

(** *** From operands upwards *)

Lemma not_atom e s rest : well_formed e → prim_ok e →
  skipWhitespace s = atom e ++ rest → breaks rest →
  ∃ n r, parseNot ctx n s = Some (denote ctx e, r) ∧ skipWhitespace r = skipWhitespace rest.
Proof.
  intros Hw Hp Hs Hb. destruct (Hp (skipWhitespace s) rest) as (n & r & E & Hr); [by rewrite skip_skip|done|].
  exists (S n), r. unfold_parse. destruct (atom_head e Hw) as (b & r' & Ea & _ & Hne).
  assert (starts_with Byte.x21 (skipWhitespace s) = false) as ->.
  { rewrite Hs, Ea. cbn. by apply bool_decide_eq_false. }
  done.
Qed.

Lemma cmp_of_not s v r : find_op compare_ops (skipWhitespace r) = None →
  (∃ n, parseNot ctx n s = Some (v, r)) → ∃ n, parseComparison ctx n s = Some (v, skipWhitespace r).
Proof. intros Hr [n E]. exists (S n). unfold_parse. rewrite E. cbn [mbind option_bind]. by rewrite Hr. Qed.

Lemma and_of_cmp s v r : cut_prefix (bytes_of "&&") (skipWhitespace r) = None →
  (∃ n, parseComparison ctx n s = Some (v, r)) → ∃ n, parseAnd ctx n s = Some (v, skipWhitespace r).
Proof.
  intros Hr [n E]. exists (S (S n)). rewrite parseAnd_S.
  rewrite (parseComparison_more ctx n (S n) s _ E) by lia. cbn [mbind option_bind]. unfold_parse. by rewrite Hr.
Qed.

Lemma or_of_and s v r : cut_prefix (bytes_of "||") (skipWhitespace r) = None →
  (∃ n, parseAnd ctx n s = Some (v, r)) → ∃ n, parseOr ctx n s = Some (v, skipWhitespace r).
Proof.
  intros Hr [n E]. exists (S (S n)). rewrite parseOr_S.
  rewrite (parseAnd_more ctx n (S n) s _ E) by lia. cbn [mbind option_bind]. unfold_parse. by rewrite Hr.
Qed.

Lemma in_operators op : op ∈ cmp_texts ∨ op = "&&" ∨ op = "||" → op ∈ operators.
Proof. unfold cmp_texts, operators. set_solver. Qed.

Lemma full_of_and s v r rest : ends rest → skipWhitespace r = rest →
  (∃ n, parseAnd ctx n s = Some (v, r)) → ∃ n r, parseOr ctx n s = Some (v, r) ∧ skipWhitespace r = rest.
Proof.
  intros He <- Ha. destruct (or_of_and s v r) as [n E]; [|done|].
  - apply ends_no_op; [done|]. apply in_operators. naive_solver.
  - exists n, (skipWhitespace r). split; [done|]. apply skip_skip.
Qed.
Lemma full_of_cmp s v r rest : ends rest → skipWhitespace r = rest →
  (∃ n, parseComparison ctx n s = Some (v, r)) → ∃ n r, parseOr ctx n s = Some (v, r) ∧ skipWhitespace r = rest.
Proof.
  intros He <- Ha. apply (full_of_and s v (skipWhitespace r)); [done|by rewrite skip_skip|].
  apply and_of_cmp; [|done]. apply ends_no_op; [done|]. apply in_operators. naive_solver.
Qed.
Lemma full_of_not s v r rest : ends rest → skipWhitespace r = rest →
  (∃ n, parseNot ctx n s = Some (v, r)) → ∃ n r, parseOr ctx n s = Some (v, r) ∧ skipWhitespace r = rest.
Proof.
  intros He <- Ha. apply (full_of_cmp s v (skipWhitespace r)); [done|by rewrite skip_skip|].
  apply cmp_of_not; [|done]. by apply ends_no_cmp.
Qed.

Lemma full_of_prim e : well_formed e → compound e = false → prim_ok e → full_ok e.
Proof.
  intros Hw Hc Hp s rest Hs He.
  destruct (not_atom e s rest Hw Hp) as (n & r & E & Hr).
  - by rewrite Hs; unfold atom; rewrite Hc.
  - by left.
  - rewrite (ends_black rest He) in Hr. eapply full_of_not; eauto.
Qed.

Lemma prim_of_full e : well_formed e → compound e = true → full_ok e → prim_ok e.
Proof.
  intros Hw Hc Hf s rest Hs _. unfold atom, brackets in Hs. rewrite Hc in Hs. cbn [app] in Hs.
  rewrite <-app_assoc in Hs. cbn [app] in Hs.
  destruct (Hf (print e ++ Byte.x29 :: rest) (Byte.x29 :: rest)) as (n & r & E & Hr);
    [by apply skip_print|by left|].
  exists (S n), rest. split; [|done]. unfold_parse. rewrite Hs.
  rewrite bool_decide_eq_true_2 by done. rewrite E. cbn [mbind option_bind]. by rewrite Hr.
Qed.

(** *** The cases *)

Lemma breaks_name rest : breaks rest → match rest with [] => True | c :: _ => is_name_char c = false end.
Proof. intros [Hb _]%breaks_head. destruct rest as [|c rest]; [done|]. apply Hb. Qed.

Lemma parsePrimary_head n s b r : skipWhitespace s = b :: r →
  b ≠ Byte.x28 → b ≠ Byte.x27 → is_digit b = false →
  parsePrimary ctx (S n) s = parseIdentifier ctx n (b :: r).
Proof. intros Hs ? ? Hd. rewrite parsePrimary_S, Hs, !bool_decide_eq_false_2 by done. by rewrite Hd. Qed.

Lemma prim_keyword k v s rest :
  (k, v) = ("null", VNil) ∨ (k, v) = ("true", VBool true) ∨ (k, v) = ("false", VBool false) →
  skipWhitespace s = bytes_of k ++ rest → breaks rest →
  ∃ n r, parsePrimary ctx n s = Some (v, r) ∧ skipWhitespace r = skipWhitespace rest.
Proof.
  intros Hk Hs Hb%breaks_name. exists 2%nat, rest. split; [|done].
  assert (span is_name_char (bytes_of k ++ rest) = (bytes_of k, rest)) as Hspan.
  { apply span_stop; [|done]. destruct Hk as [[= -> ->]|[[= -> ->]|[= -> ->]]]; repeat constructor. }
  destruct Hk as [[= -> ->]|[[= -> ->]|[= -> ->]]];
    (erewrite parsePrimary_head by (exact Hs || done)); rewrite parseIdentifier_S;
    change (?x :: ?y ++ rest) with ((x :: y) ++ rest).
  - by change (span is_name_char _) with (span is_name_char (bytes_of "null" ++ rest)); rewrite Hspan.
  - by change (span is_name_char _) with (span is_name_char (bytes_of "true" ++ rest)); rewrite Hspan.
  - by change (span is_name_char _) with (span is_name_char (bytes_of "false" ++ rest)); rewrite Hspan.
Qed.

Lemma digits_all fuel n : 0 ≤ n < 10 ^ Z.of_nat fuel → (0 < fuel)%nat →
  Forall (λ b, is_digit b = true) (dec_digits fuel n) ∧ dec_value 0 (dec_digits fuel n) = Some n ∧ dec_digits fuel n ≠ [].
Proof.
  intros Hn Hf. destruct (dec_digits_ok fuel n Hn Hf) as (Hv & Hd & b & r & Hb & _).
  split; [|split; [done|by rewrite Hb]]. apply Forall_forall. intros c Hc. by eapply forallb_elem in Hd.
Qed.

Lemma prim_num k : 0 ≤ k < 2^63 → prim_ok (ENum k).
Proof.
  intros Hk s rest Hs Hb%breaks_head. destruct Hb as [Hb _]. exists 1%nat, rest. split; [|done].
  destruct (digits_all 20 k) as (Hd & Hv & Hne); [lia|lia|].
  unfold atom, brackets in Hs. cbn [compound print] in Hs.
  rewrite parsePrimary_S, Hs. destruct (dec_digits 20 k) as [|b ds] eqn:E; [done|]. cbn [app].
  pose proof Hd as Hd'. apply Forall_cons in Hd' as [Hb1 _].
  rewrite !bool_decide_eq_false_2 by (intros ->; done). rewrite Hb1.
  change (b :: ds ++ rest) with ((b :: ds) ++ rest). unfold parseNumber.
  rewrite span_stop.
  - assert (existsb is_dot (b :: ds) = false) as ->.
    { apply not_true_is_false. intros (c & Hc & Hdot)%existsb_elem. rewrite Forall_forall in Hd.
      specialize (Hd c Hc). unfold is_dot in Hdot. apply bool_decide_eq_true in Hdot as ->. done. }
    unfold sscanf_int. rewrite Hv, (proj2 (Z.ltb_lt _ _)) by lia. done.
  - eapply Forall_impl; [exact Hd|]. intros c Hc. cbn beta. by rewrite Hc.
  - destruct rest as [|c rest]; [done|]. destruct Hb as (_ & Hb2 & Hb3 & _). by rewrite Hb2, Hb3.
Qed.

Lemma prim_str t : prim_ok (EStr t).
Proof.
  intros s rest Hs Hb%breaks_head. destruct Hb as [Hb _]. exists 1%nat, rest. split; [|done].
  unfold atom, brackets in Hs. cbn [compound print app] in Hs. rewrite <-app_assoc in Hs.
  rewrite parsePrimary_S, Hs. rewrite bool_decide_eq_false_2, bool_decide_eq_true_2 by done.
  cbn [app]. rewrite parseString_escape; [done|]. destruct rest; [done|]. apply Hb.
Qed.

Lemma prim_ctx p : name_ok p → prim_ok (ECtx p).
Proof.
  intros Hp s rest Hs Hb. exists 2%nat, (skipWhitespace rest). split; [|apply skip_skip].
  unfold atom, brackets in Hs. cbn [compound print] in Hs.
  assert (parsePrimary ctx 2 s = parsePrimary ctx 2 (p ++ rest)) as ->.
  { destruct (name_white p Hp) as (b & r & Ep & Hw & _).
    rewrite !parsePrimary_S, Hs. rewrite Ep. cbn [app]. by rewrite (skip_black _ _ Hw). }
  rewrite parsePrimary_name by (done || by apply breaks_name).
  rewrite parseIdentifier_name by (done || by apply breaks_name). cbv zeta.
  by rewrite (proj2 (breaks_head _ Hb)).
Qed.

Lemma args_text_cons x l z :
  args_text (x :: l) ++ z = x ++ match l with [] => z | _ => [Byte.x2c; Byte.x20] ++ args_text l ++ z end.
Proof. destruct l; cbn [args_text]; [done|]. by rewrite <-!app_assoc. Qed.

Lemma parse_args_ok args : Forall (λ e, well_formed e ∧ full_ok e) args → ∀ acc s rest,
  skipWhitespace s = (match acc, args with _ :: _, _ :: _ => [Byte.x2c; Byte.x20] | _, _ => [] end)
                     ++ args_text (map print args) ++ Byte.x29 :: rest →
  ∃ n, parse_args ctx n acc s = Some (acc ++ map (denote ctx) args, rest).
Proof.
  induction 1 as [|a args [Hw Ha] Hargs IH]; intros acc s rest Hs.
  - exists 1%nat. rewrite parse_args_S, Hs. cbv zeta. destruct acc; cbn; by rewrite ?app_nil_r.
  - cbn [map] in Hs. rewrite args_text_cons in Hs.
    set (tail := match map print args with [] => Byte.x29 :: rest | _ => _ end) in Hs.
    assert (ends tail) as Htail by (unfold tail; destruct (map print args); [by left|by right; left]).
    assert (∃ s1, skipWhitespace s1 = print a ++ tail ∧
      (if match acc with [] => false | _ => true end && starts_with Byte.x2c (skipWhitespace s)
       then drop 1 (skipWhitespace s) else skipWhitespace s) = s1) as (s1 & Hs1 & Es1).
    { eexists. split; [|reflexivity]. rewrite Hs. destruct acc as [|v acc].
      - cbn [andb app]. by apply skip_print.
      - cbn. by apply skip_print. }
    destruct (Ha s1 tail Hs1 Htail) as (n1 & r & E1 & Hr).
    destruct (IH (acc ++ [denote ctx a]) r rest) as (n2 & E2).
    { rewrite Hr. unfold tail. destruct args as [|b args]; [by destruct acc|].
      cbn [map]. destruct acc; cbn [app]; done. }
    exists (S (n1 + n2)). rewrite parse_args_S. cbv zeta.
    assert (bool_decide (skipWhitespace s = []) || starts_with Byte.x29 (skipWhitespace s) = false) as ->.
    { destruct (print_head a Hw) as (b & r' & Ep & _ & Hb & _). rewrite Hs, Ep. destruct acc; cbn; [|done].
      by apply bool_decide_eq_false_2. }
    rewrite Es1, (parseOr_more ctx n1 (n1 + n2) s1 _ E1) by lia. cbn [mbind option_bind].
    rewrite (parse_args_more ctx n2 (n1 + n2) _ _ _ E2) by lia. cbn [map]. by rewrite <-app_assoc.
Qed.

Lemma prim_call name args : name_ok name → Forall (λ e, well_formed e ∧ full_ok e) args → prim_ok (ECall name args).
Proof.
  intros Hn Hargs s rest Hs _. unfold atom, brackets in Hs. cbn [compound print] in Hs.
  rewrite <-app_assoc in Hs. cbn [app] in Hs. rewrite <-app_assoc in Hs. cbn [app] in Hs.
  set (tail := args_text (map print args) ++ Byte.x29 :: rest) in *.
  destruct (parse_args_ok args Hargs [] (skipWhitespace tail) rest) as (k & E).
  { rewrite skip_skip. unfold tail. destruct args as [|a args]; [done|].
    apply Forall_cons in Hargs as [[Hw _] _]. cbn [map app]. rewrite args_text_cons. by apply skip_print. }
  exists (S (S k)), rest. split; [|done].
  assert (parsePrimary ctx (S (S k)) s = parsePrimary ctx (S (S k)) (name ++ Byte.x28 :: tail)) as ->.
  { destruct (name_white name Hn) as (b & r & Ep & Hw & _).
    rewrite !parsePrimary_S, Hs. rewrite Ep. cbn [app]. by rewrite (skip_black _ _ Hw). }
  rewrite parsePrimary_name, parseIdentifier_name by done. cbv zeta.
  rewrite skip_black by done. change (starts_with Byte.x28 (Byte.x28 :: tail)) with true.
  change (drop 1 (Byte.x28 :: tail)) with tail.
  assert (parse_args ctx k [] tail = parse_args ctx k [] (skipWhitespace tail)) as ->.
  { destruct k; [done|]. rewrite !parse_args_S. by rewrite skip_skip. }
  by rewrite E.
Qed.

(** *** Operators *)

Lemma skip_blank s : skipWhitespace (blank ++ s) = skipWhitespace s.
Proof. done. Qed.

Lemma breaks_op op x : op ∈ operators → breaks (blank ++ bytes_of op ++ blank ++ x).
Proof. intros Hop. right. eauto. Qed.

Lemma cmp_atom e s rest : well_formed e → prim_ok e →
  skipWhitespace s = atom e ++ rest → breaks rest → find_op compare_ops (skipWhitespace rest) = None →
  ∃ n, parseComparison ctx n s = Some (denote ctx e, skipWhitespace rest).
Proof.
  intros Hw Hp Hs Hb Hop. destruct (not_atom e s rest Hw Hp Hs Hb) as (n & r & E & Hr).
  rewrite <-Hr in Hop |- *. apply cmp_of_not; [done|eauto].
Qed.

Lemma full_not e : well_formed e → prim_ok e → full_ok (ENot e).
Proof.
  intros Hw Hp s rest Hs He. cbn [print] in Hs. change (brackets (compound e) (print e)) with (atom e) in Hs.
  destruct (not_atom e (atom e ++ rest) rest Hw Hp) as (n & r & E & Hr); [by apply skip_atom|by left|].
  eapply (full_of_not s _ r); [done|by rewrite Hr, ends_black|].
  exists (S n). rewrite parseNot_S. cbv zeta. rewrite Hs. cbn [app].
  change (starts_with Byte.x21 (Byte.x21 :: _)) with true. cbv iota.
  change (drop 1 (Byte.x21 :: ?x)) with x. by rewrite E.
Qed.

Lemma find_op_text op x : ∃ f, find_op compare_ops (bytes_of (op_text op) ++ blank ++ x) = Some (f, blank ++ x) ∧
  f = op_holds op.
Proof. destruct op; eexists; (split; [reflexivity|done]). Qed.

Lemma op_text_elem op : op_text op ∈ cmp_texts.
Proof. unfold cmp_texts. destruct op; set_solver. Qed.

Lemma skip_op op x : op ∈ operators → skipWhitespace (bytes_of op ++ x) = bytes_of op ++ x.
Proof. intros Hop. repeat (apply elem_of_cons in Hop as [->|Hop]; [done|]). by apply elem_of_nil in Hop. Qed.

Lemma full_cmp op a b : well_formed a → well_formed b → prim_ok a → prim_ok b → full_ok (ECmp op a b).
Proof.
  intros Hwa Hwb Ha Hb s rest Hs He. cbn [print] in Hs.
  change (brackets (compound a) (print a)) with (atom a) in Hs.
  change (brackets (compound b) (print b)) with (atom b) in Hs. rewrite <-!app_assoc in Hs.
  assert (op_text op ∈ operators) as Hop by (apply in_operators; left; apply op_text_elem).
  destruct (not_atom a s (blank ++ bytes_of (op_text op) ++ blank ++ atom b ++ rest) Hwa Ha Hs)
    as (n1 & r1 & E1 & Hr1); [by apply breaks_op|].
  destruct (not_atom b (blank ++ atom b ++ rest) rest Hwb Hb) as (n2 & r2 & E2 & Hr2);
    [by rewrite skip_blank, skip_atom|by left|].
  eapply (full_of_cmp s _ r2); [done|by rewrite Hr2, ends_black|].
  exists (S (n1 + n2)). rewrite parseComparison_S. cbv zeta.
  rewrite (parseNot_more ctx n1 (n1 + n2) s _ E1) by lia. cbn [mbind option_bind].
  rewrite Hr1, skip_blank, skip_op by done.
  destruct (find_op_text op (atom b ++ rest)) as (f & -> & ->).
  rewrite (parseNot_more ctx n2 (n1 + n2) _ _ E2) by lia. done.
Qed.

Lemma cmp_none_and x : find_op compare_ops (bytes_of "&&" ++ x) = None.
Proof. done. Qed.
Lemma cmp_none_or x : find_op compare_ops (bytes_of "||" ++ x) = None.
Proof. done. Qed.

Lemma full_and a b : well_formed a → well_formed b → prim_ok a → prim_ok b → full_ok (EAnd a b).
Proof.
  intros Hwa Hwb Ha Hb s rest Hs He. cbn [print] in Hs.
  change (brackets (compound a) (print a)) with (atom a) in Hs.
  change (brackets (compound b) (print b)) with (atom b) in Hs. rewrite <-!app_assoc in Hs.
  assert ("&&" ∈ operators) as Hop by (apply in_operators; naive_solver).
  destruct (cmp_atom a s (blank ++ bytes_of "&&" ++ blank ++ atom b ++ rest) Hwa Ha Hs)
    as (n1 & E1); [by apply breaks_op|by rewrite skip_blank, skip_op|].
  rewrite skip_blank, skip_op in E1 by done.
  destruct (cmp_atom b (blank ++ atom b ++ rest) rest Hwb Hb) as (n2 & E2);
    [by rewrite skip_blank, skip_atom|by left|rewrite ends_black by done; by apply ends_no_cmp|].
  rewrite (ends_black rest He) in E2.
  eapply (full_of_and s _ rest); [done|by apply ends_black|].
  exists (S (S (S (n1 + n2)))). rewrite parseAnd_S.
  rewrite (parseComparison_more ctx n1 _ s _ E1) by lia. cbn [mbind option_bind].
  rewrite and_loop_S. cbv zeta. rewrite skip_op by done. rewrite cut_prefix_app.
  rewrite (parseComparison_more ctx n2 _ _ _ E2) by lia. cbn [mbind option_bind denote].
  destruct (toBool (denote ctx a)); [|done]. rewrite and_loop_S. cbv zeta.
  by rewrite ends_black, ends_no_op by done.
Qed.

Lemma full_or a b : well_formed a → well_formed b → prim_ok a → prim_ok b → full_ok (EOr a b).
Proof.
  intros Hwa Hwb Ha Hb s rest Hs He. cbn [print] in Hs.
  change (brackets (compound a) (print a)) with (atom a) in Hs.
  change (brackets (compound b) (print b)) with (atom b) in Hs. rewrite <-!app_assoc in Hs.
  assert ("||" ∈ operators) as Hop by (apply in_operators; naive_solver).
  destruct (cmp_atom a s (blank ++ bytes_of "||" ++ blank ++ atom b ++ rest) Hwa Ha Hs)
    as (n1 & E1); [by apply breaks_op|by rewrite skip_blank, skip_op|].
  rewrite skip_blank, skip_op in E1 by done.
  pose proof (and_of_cmp s (denote ctx a) (bytes_of "||" ++ blank ++ atom b ++ rest)) as F1.
  rewrite skip_op in F1 by done. destruct F1 as [k1 F1]; [done|eauto|].
  destruct (cmp_atom b (blank ++ atom b ++ rest) rest Hwb Hb) as (n2 & E2);
    [by rewrite skip_blank, skip_atom|by left|rewrite ends_black by done; by apply ends_no_cmp|].
  rewrite (ends_black rest He) in E2.
  pose proof (and_of_cmp (blank ++ atom b ++ rest) (denote ctx b) rest) as F2.
  rewrite (ends_black rest He) in F2. destruct F2 as [k2 F2]; [|eauto|].
  { apply ends_no_op; [done|]. apply in_operators. naive_solver. }
  exists (S (S (S (k1 + k2)))), rest. split; [|by apply ends_black].
  rewrite parseOr_S, (parseAnd_more ctx k1 _ s _ F1) by lia. cbn [mbind option_bind].
  rewrite or_loop_S. cbv zeta. rewrite skip_op by done. rewrite cut_prefix_app.
  rewrite (parseAnd_more ctx k2 _ _ _ F2) by lia. cbn [mbind option_bind denote].
  destruct (toBool (denote ctx a)); [done|]. rewrite or_loop_S. cbv zeta.
  by rewrite ends_black, ends_no_op by done.
Qed.

Lemma expr_ok e : well_formed e → prim_ok e ∧ full_ok e.
Proof.
  induction e as [|b|k|t|path|name args IH|e IH|op a b IHa IHb|a b IHa IHb|a b IHa IHb] using expr_nested_ind; intros Hw.
  all: lazymatch goal with
       | |- prim_ok (ENot _) ∧ _ => assert (full_ok (ENot e)) by (apply full_not; [done|by apply IH])
       | |- prim_ok (ECmp _ _ _) ∧ _ =>
         destruct Hw; assert (full_ok (ECmp op a b)) by (apply full_cmp; [done|done|by apply IHa|by apply IHb])
       | |- prim_ok (EAnd _ _) ∧ _ =>
         destruct Hw; assert (full_ok (EAnd a b)) by (apply full_and; [done|done|by apply IHa|by apply IHb])
       | |- prim_ok (EOr _ _) ∧ _ =>
         destruct Hw; assert (full_ok (EOr a b)) by (apply full_or; [done|done|by apply IHa|by apply IHb])
       | |- prim_ok ENull ∧ _ => assert (prim_ok ENull) by (intros s rest; by apply (prim_keyword "null"); left)
       | |- prim_ok (EBool _) ∧ _ =>
         assert (prim_ok (EBool b)) by (intros s rest; destruct b;
           [apply (prim_keyword "true")|apply (prim_keyword "false")]; naive_solver)
       | |- prim_ok (ENum _) ∧ _ => assert (prim_ok (ENum k)) by (by apply prim_num)
       | |- prim_ok (EStr _) ∧ _ => assert (prim_ok (EStr t)) by apply prim_str
       | |- prim_ok (ECtx _) ∧ _ => assert (prim_ok (ECtx path)) by (by apply prim_ctx)
       | |- prim_ok (ECall _ _) ∧ _ =>
         assert (prim_ok (ECall name args)) by
           (pose proof (proj1 (well_formed_call _ _) Hw) as [Hn Ha]; apply prim_call; [done|];
            rewrite Forall_forall in *; intros x Hx; split; [by apply Ha|by apply IH, Ha])
       end.
  all: split; try done; first [by apply full_of_prim|apply prim_of_full; [|done..]; done].
Qed.
End reading.

(** ** Evaluation *)

Lemma name_char_visible b : is_name_char b = true → visible b ∧ b ≠ Byte.x24 ∧ b ≠ Byte.x7d.
Proof.
  intros Hb. split; [|by split; intros ->].
  unfold is_name_char, is_digit, in_range in Hb. cbv zeta in Hb. unfold visible.
  repeat (apply orb_prop in Hb as [Hb|Hb]); bool_to_prop; lia.
Qed.
Lemma digit_name b : is_digit b = true → is_name_char b = true.
Proof. intros Hb. unfold is_name_char. rewrite Hb. by rewrite orb_true_r. Qed.

(** Texts that start and end in a visible character, not in ones that mark an
    interpolation. *)
Definition bounds (s : bytes) : Prop :=
  (∃ a r, s = a :: r ∧ visible a ∧ a ≠ Byte.x24) ∧ (∃ r b, s = r ++ [b] ∧ visible b ∧ b ≠ Byte.x7d).
Lemma bounds_edges s : bounds s → edges s.
Proof. intros [(a & r & -> & ? & _) (r' & b & E & ? & _)]. split; eauto. Qed.
Lemma bounds_app s m t : bounds s → bounds t → bounds (s ++ m ++ t).
Proof.
  intros [(a & r & -> & ? & ?) _] [_ (r' & b & -> & ? & ?)]. split.
  - exists a, (r ++ m ++ r' ++ [b]). done.
  - exists ((a :: r) ++ m ++ r'), b. by rewrite <-!app_assoc.
Qed.
Lemma bounds_names s : s ≠ [] → Forall (λ b, is_name_char b = true) s → bounds s.
Proof.
  intros Hne Hs. split.
  - destruct s as [|a s]; [done|]. apply Forall_cons in Hs as [Ha _]. apply name_char_visible in Ha. naive_solver.
  - destruct (exists_last Hne) as (r & b & ->). apply Forall_app in Hs as [_ Hb].
    apply Forall_cons in Hb as [Hb _]. apply name_char_visible in Hb. naive_solver.
Qed.
Lemma bounds_wrap a m b : visible a → a ≠ Byte.x24 → visible b → b ≠ Byte.x7d → bounds (a :: m ++ [b]).
Proof. intros. split; [by exists a, (m ++ [b])|by exists (a :: m), b]. Qed.
Lemma bounds_cons a s : visible a → a ≠ Byte.x24 → bounds s → bounds (a :: s).
Proof. intros Ha Hd [_ (r & b & -> & ? & ?)]. by apply (bounds_wrap a r b). Qed.

Lemma bounds_infix s op t : bounds s → bounds t → bounds (s ++ blank ++ op ++ blank ++ t).
Proof.
  intros Hs Ht. replace (blank ++ op ++ blank ++ t) with ((blank ++ op ++ blank) ++ t) by by rewrite <-!app_assoc.
  by apply bounds_app.
Qed.

Lemma print_bounds e : well_formed e → bounds (print e).
Proof.
  assert (∀ e, bounds (print e) → bounds (atom e)) as Hatom.
  { intros e' He. unfold atom, brackets. destruct (compound e'); [|done]. by apply bounds_wrap. }
  induction e as [|b|k|t|path|name args IH|e IH|op a b IHa IHb|a b IHa IHb|a b IHa IHb] using expr_nested_ind;
    intros Hw; cbn [print].
  - by apply bounds_names; [|repeat constructor].
  - destruct b; by apply bounds_names; [|repeat constructor].
  - destruct (digits_all 20 k) as (Hd & _ & Hne); [cbn in Hw; lia|lia|]. apply bounds_names; [done|].
    eapply Forall_impl; [exact Hd|]. apply digit_name.
  - by apply bounds_wrap.
  - destruct Hw as (Hs & _ & Hd). apply bounds_names; [by intros ->|done].
  - apply well_formed_call in Hw as [(Hs & _ & Hd) _].
    assert (bounds name) as [(a & r & -> & Ha & Hda) _] by (apply bounds_names; [by intros ->|done]).
    replace ((a :: r) ++ Byte.x28 :: args_text (map print args) ++ [Byte.x29])
      with (a :: (r ++ Byte.x28 :: args_text (map print args)) ++ [Byte.x29]) by (cbn [app]; by rewrite <-app_assoc).
    by apply bounds_wrap.
  - apply bounds_cons; [done..|]. by apply (Hatom e), IH.
  - destruct Hw; apply bounds_infix; [by apply (Hatom a), IHa|by apply (Hatom b), IHb].
  - destruct Hw; apply bounds_infix; [by apply (Hatom a), IHa|by apply (Hatom b), IHb].
  - destruct Hw; apply bounds_infix; [by apply (Hatom a), IHa|by apply (Hatom b), IHb].
Qed.

Section evaluation.
Context `{Unicode}.
Variable ctx : ExprContext.

Lemma EvalExpr_ok e : well_formed e → ∃ n, ∀ m, (n ≤ m)%nat → EvalExpr ctx m (print e) = Some (denote ctx e).
Proof.
  intros Hw. destruct (proj2 (expr_ok ctx e Hw) (print e) []) as (n & r & E & _); [|done|].
  { rewrite app_nil_r. pose proof (skip_print e [] Hw) as Hs. by rewrite app_nil_r in Hs. }
  exists n. intros m Hm. unfold EvalExpr. by rewrite (parseOr_more ctx n m _ _ E Hm).
Qed.

Lemma trim_prefix_not p s : cut_prefix p s = None → trim_prefix p s = s.
Proof. unfold trim_prefix. by intros ->. Qed.

(** The markers of an interpolation around an expression are cut off. *)
Lemma EvalExprBool_marked n e : well_formed e →
  EvalExprBool ctx n (print e) = toBool <$> EvalExpr ctx n (print e) ∧
  EvalExprBool ctx n (bytes_of "${{ " ++ print e ++ bytes_of " }}") = toBool <$> EvalExpr ctx n (print e).
Proof.
  intros Hw. pose proof (print_bounds e Hw) as Hb. pose proof (bounds_edges _ Hb) as He.
  unfold EvalExprBool. split; do 2 f_equal.
  - rewrite (TrimSpace_id (print e)) by done.
    destruct Hb as [(a & r & Ha & _ & Hd) (r' & b & Hr & _ & Hc)].
    rewrite trim_prefix_not.
    2: { unfold cut_prefix, has_prefix_b. rewrite Ha. cbn. rewrite bool_decide_eq_false_2; [done|]. congruence. }
    assert (has_suffix_b (bytes_of "}}") (print e) = false) as Hsuf.
    { unfold has_suffix_b. apply andb_false_iff. destruct (Nat.leb_spec (length (bytes_of "}}")) (length (print e)));
        [|by left]. right. apply bool_decide_eq_false_2. intros E.
      rewrite <-(take_drop (length (print e) - length (bytes_of "}}")) (print e)), E in Hr.
      change (bytes_of "}}") with ([Byte.x7d] ++ [Byte.x7d]) in Hr. rewrite app_assoc in Hr.
      apply app_inj_tail in Hr as [_ Hr]. congruence. }
    unfold trim_suffix. rewrite Hsuf. by apply TrimSpace_id.
  - assert (edges (bytes_of "${{ " ++ print e ++ bytes_of " }}")) as Hm.
    { split.
      - exists Byte.x24, (bytes_of "{{ " ++ print e ++ bytes_of " }}"). split; [done|]. by vm_compute.
      - exists (bytes_of "${{ " ++ print e ++ bytes_of " }"), Byte.x7d. rewrite <-!app_assoc. split; [done|].
        by vm_compute. }
    rewrite (TrimSpace_id _ Hm).
    change (bytes_of "${{ " ++ print e ++ bytes_of " }}") with
      (bytes_of "${{" ++ (Byte.x20 :: print e ++ bytes_of " }}")).
    unfold trim_prefix. rewrite cut_prefix_app. cbn [default].
    assert (Byte.x20 :: print e ++ bytes_of " }}" = (Byte.x20 :: print e ++ [Byte.x20]) ++ bytes_of "}}") as ->
      by (cbn; by rewrite <-app_assoc).
    assert (∀ x p : bytes, trim_suffix p (x ++ p) = x) as Hts.
    { intros x p. unfold trim_suffix, has_suffix_b. rewrite length_app.
      replace (length x + length p - length p)%nat with (length x) by lia.
      rewrite drop_app_length, bool_decide_eq_true_2 by done. rewrite (proj2 (Nat.leb_le _ _)) by lia.
      apply take_app_length. }
    cbn [id]. rewrite Hts. by apply TrimSpace_blanks.
Qed.

(** C36: evaluation is correct.  A well-formed expression, written with its
    operands in brackets, is read completely and evaluates to its meaning, in
    any context and with any fuel above some bound; as a condition - with or
    without the markers of an interpolation - it holds when its meaning is
    true. *)
Theorem EvalExpr_denotes e : well_formed e → ∃ n, ∀ m, (n ≤ m)%nat →
  EvalExpr ctx m (print e) = Some (denote ctx e) ∧
  EvalExprBool ctx m (print e) = Some (toBool (denote ctx e)) ∧
  EvalExprBool ctx m (bytes_of "${{ " ++ print e ++ bytes_of " }}") = Some (toBool (denote ctx e)).
Proof.
  intros Hw. destruct (EvalExpr_ok e Hw) as [n Hn]. exists n. intros m Hm. specialize (Hn m Hm).
  destruct (EvalExprBool_marked m e Hw) as [-> ->]. by rewrite Hn.
Qed.

(** *** Argument lists that are read for ever *)

Lemma dead_black s : dead s → skipWhitespace s = s.
Proof. intros Hs. apply ends_black. destruct s; [done|]. by do 2 right. Qed.

Lemma byte_in (b : byte) (s : bytes) : bool_decide (b ∈ s) = true → b ∈ s.
Proof. apply bool_decide_eq_true. Qed.

(** Nothing is read at a dead character. *)
Lemma parsePrimary_dead n s : dead s → at_least (parsePrimary ctx n s) (Some (VNil, s)).
Proof.
  intros Hs. destruct n as [|n]; [done|]. rewrite parsePrimary_S, (dead_black s Hs).
  destruct s as [|c s]; [done|]. destruct Hs as (Hn & Hc & _).
  assert (∀ b, b ∈ bytes_of "()', !" → bool_decide (c = b) = false) as Hne
    by (intros b Hb; apply bool_decide_eq_false_2; congruence).
  rewrite (Hne Byte.x28), (Hne Byte.x27) by (apply byte_in; by vm_compute).
  assert (is_digit c = false) as ->.
  { unfold is_name_char in Hn. by bool_to_prop. }
  destruct n as [|n]; [done|]. rewrite parseIdentifier_S. cbn [span]. rewrite Hn. apply at_least_refl.
Qed.
Lemma parseNot_dead n s : dead s → at_least (parseNot ctx n s) (Some (VNil, s)).
Proof.
  intros Hs. destruct n as [|n]; [done|]. rewrite parseNot_S. cbv zeta. rewrite (dead_black s Hs).
  assert (starts_with Byte.x21 s = false) as ->; [|by apply parsePrimary_dead].
  destruct s as [|c s]; [done|]. destruct Hs as (_ & Hc & _). apply bool_decide_eq_false_2.
  intros ->. apply Hc. by vm_compute; set_solver.
Qed.

(** A level whose operators do not follow passes on what is below it. *)
Lemma at_least_level {A B} (x : option A) (a : A) (f : A → option B) (b : option B) :
  at_least x (Some a) → at_least (f a) b → at_least (x ≫= f) b.
Proof. intros Hx Hf y. destruct x as [a'|]; [|done]. specialize (Hx a' eq_refl). simplify_eq. apply Hf. Qed.

Lemma parseOr_dead n s : dead s → at_least (parseOr ctx n s) (Some (VNil, s)).
Proof.
  intros Hs. assert (ends s) as He by (destruct s; [done|by do 2 right]).
  pose proof (dead_black s Hs) as Hb.
  assert (∀ n, at_least (parseComparison ctx n s) (Some (VNil, s))) as Hc.
  { intros [|k]; [done|]. rewrite parseComparison_S. eapply at_least_level; [by apply parseNot_dead|].
    cbv beta iota zeta. rewrite Hb, (ends_no_cmp s He). apply at_least_refl. }
  assert (∀ n, at_least (parseAnd ctx n s) (Some (VNil, s))) as Ha.
  { intros [|k]; [done|]. rewrite parseAnd_S. eapply at_least_level; [apply Hc|]. cbv beta iota.
    destruct k; [done|]. rewrite and_loop_S. cbv zeta. rewrite Hb, (ends_no_op s "&&" He) by set_solver. apply at_least_refl. }
  destruct n as [|n]; [done|]. rewrite parseOr_S. eapply at_least_level; [apply Ha|]. cbv beta iota.
  destruct n; [done|]. rewrite or_loop_S. cbv zeta. rewrite Hb, (ends_no_op s "||" He) by set_solver. apply at_least_refl.
Qed.

Lemma args_dead n args s : dead s → parse_args ctx n args s = None.
Proof.
  intros Hs. revert args. induction n as [|n IH]; intros args; [done|]. rewrite parse_args_S. cbv zeta.
  rewrite (dead_black s Hs).
  assert (bool_decide (s = []) || starts_with Byte.x29 s = false ∧ starts_with Byte.x2c s = false) as [-> ->].
  { destruct s as [|c s]; [done|]. destruct Hs as (_ & Hc & _). cbn [starts_with].
    rewrite !(bool_decide_eq_false_2 (c = _)) by (intros ->; apply Hc, byte_in; by vm_compute).
    done. }
  rewrite andb_false_r. pose proof (parseOr_dead n s Hs) as Ho.
  destruct (parseOr ctx n s) as [x|]; [|done]. specialize (Ho x eq_refl). simplify_eq. cbn. apply IH.
Qed.

(** The argument before a dead character is read, and then nothing more. *)
Lemma args_never_end n a s : well_formed a → dead s → parse_args ctx n [] (print a ++ s) = None.
Proof.
  intros Hw Hs. destruct n as [|n]; [done|]. rewrite parse_args_S. cbv zeta. rewrite skip_print by done.
  assert (bool_decide (print a ++ s = []) || starts_with Byte.x29 (print a ++ s) = false) as ->.
  { destruct (print_head a Hw) as (b & r & -> & _ & Hb & _). cbn. by apply bool_decide_eq_false_2. }
  cbn [andb]. destruct (parseOr ctx n (print a ++ s)) as [[v r]|] eqn:E; [|done]. cbn.
  destruct (proj2 (expr_ok ctx a Hw) (print a ++ s) s) as (k & r' & E' & Hr);
    [by apply skip_print|by destruct s; [done|by do 2 right]|].
  apply (parseOr_more ctx n (n + k)) in E; [|lia]. rewrite (parseOr_more ctx k (n + k) _ _ E') in E by lia.
  simplify_eq. destruct n as [|n]; [done|].
  pose proof (args_dead (S n) [denote ctx a] _ Hs) as Hd. rewrite parse_args_S in *. by rewrite skip_skip in Hd.
Qed.

(** the evaluator need not end.  When an argument of a function is
    followed by a character that continues no expression - a bracket, a star, a
    double quote - the loop over the arguments reads nothing more and never
    leaves: no fuel is enough. *)
Theorem EvalExpr_never_ends f a s n : name_ok f → well_formed a → dead s →
  EvalExpr ctx n (f ++ Byte.x28 :: print a ++ s) = None.
Proof.
  intros Hf Hw Hs. set (t := f ++ _).
  assert (∀ n, parsePrimary ctx n t = None) as Hp.
  { intros [|[|k]]; [done| |]; unfold t.
    - destruct (name_white f Hf) as (b & r & -> & Hb & ? & ? & ? & Hd & _). rewrite parsePrimary_S. cbn [app].
      rewrite skip_black, !bool_decide_eq_false_2 by done. by rewrite Hd.
    - rewrite parsePrimary_name, parseIdentifier_name by done. cbv zeta. rewrite skip_black by done.
      change (starts_with Byte.x28 (Byte.x28 :: _)) with true. cbv iota.
      change (drop 1 (Byte.x28 :: ?x)) with x.
      by rewrite args_never_end. }
  assert (∀ n, parseNot ctx n t = None) as Hn.
  { intros [|k]; [done|]. rewrite parseNot_S. cbv zeta. 
    destruct (name_white f Hf) as (b & r & Ef & Hb & Hne & _).
    assert (skipWhitespace t = t) as -> by (unfold t; rewrite Ef; by apply skip_black).
    assert (starts_with Byte.x21 t = false) as ->; [|apply Hp].
    unfold t. rewrite Ef. cbn. by apply bool_decide_eq_false_2. }
  unfold EvalExpr. destruct n as [|[|[|n]]]; [done|done|by rewrite parseOr_S, parseAnd_S|].
  by rewrite parseOr_S, parseAnd_S, parseComparison_S, Hn.
Qed.

(** *** Chains of operators *)

Definition infix (op : string) : bytes := blank ++ bytes_of op ++ blank.

Lemma cmp_operand a op x : well_formed a → op = "&&" ∨ op = "||" →
  ∃ n, parseComparison ctx n (atom a ++ infix op ++ x) = Some (denote ctx a, bytes_of op ++ blank ++ x).
Proof.
  intros Hw Hop. assert (op ∈ operators) as Hin by (apply in_operators; naive_solver).
  unfold infix. rewrite <-!app_assoc.
  destruct (cmp_atom ctx a (atom a ++ blank ++ bytes_of op ++ blank ++ x) (blank ++ bytes_of op ++ blank ++ x) Hw)
    as (n & E); [by apply expr_ok|by apply skip_atom|by apply breaks_op| |].
  { rewrite skip_blank, skip_op by done. by destruct Hop as [->| ->]. }
  exists n. by rewrite skip_blank, skip_op in E.
Qed.

Lemma parseComparison_blank n s : parseComparison ctx n (blank ++ s) = parseComparison ctx n s.
Proof. destruct n as [|[|n]]; [done..|]. by rewrite !parseComparison_S, !parseNot_S, skip_blank. Qed.
Lemma parseAnd_blank n s : parseAnd ctx n (blank ++ s) = parseAnd ctx n s.
Proof. destruct n as [|n]; [done|]. by rewrite !parseAnd_S, parseComparison_blank. Qed.

Lemma and_cut_short a b op x : well_formed a → well_formed b → toBool (denote ctx a) = false →
  op = "&&" ∨ op = "||" →
  ∃ n, parseAnd ctx n (atom a ++ infix "&&" ++ atom b ++ infix op ++ x) = Some (denote ctx a, bytes_of op ++ blank ++ x).
Proof.
  intros Ha Hb Hf Hop.
  destruct (cmp_operand a "&&" (atom b ++ infix op ++ x) Ha) as (n1 & E1); [by left|].
  destruct (cmp_operand b op x Hb Hop) as (n2 & E2). exists (S (S (n1 + n2))).
  rewrite parseAnd_S, (parseComparison_more ctx n1 (S (n1 + n2)) _ _ E1) by lia. cbn [mbind option_bind].
  rewrite and_loop_S. cbv zeta. rewrite skip_op by (apply in_operators; naive_solver). rewrite cut_prefix_app.
  rewrite parseComparison_blank, (parseComparison_more ctx n2 (n1 + n2) _ _ E2) by lia.
  cbn [mbind option_bind]. by rewrite Hf.
Qed.

Lemma or_cut_short a b x : well_formed a → well_formed b → toBool (denote ctx a) = true →
  ∃ n, parseOr ctx n (atom a ++ infix "||" ++ atom b ++ infix "||" ++ x) =
       Some (denote ctx a, bytes_of "||" ++ blank ++ x).
Proof.
  intros Ha Hb Hf.
  assert (∀ c y, well_formed c → ∃ n, parseAnd ctx n (atom c ++ infix "||" ++ y) =
    Some (denote ctx c, bytes_of "||" ++ blank ++ y)) as Hand.
  { intros c y Hc. destruct (cmp_operand c "||" y Hc) as (n & E); [by right|].
    destruct (and_of_cmp ctx (atom c ++ infix "||" ++ y) (denote ctx c) (bytes_of "||" ++ blank ++ y)) as [k Hk];
      [done|by exists n|]. by exists k. }
  destruct (Hand a (atom b ++ infix "||" ++ x) Ha) as (n1 & E1). destruct (Hand b x Hb) as (n2 & E2).
  exists (S (S (n1 + n2))).
  rewrite parseOr_S, (parseAnd_more ctx n1 (S (n1 + n2)) _ _ E1) by lia. cbn [mbind option_bind].
  rewrite or_loop_S. cbv zeta. rewrite skip_op by (apply in_operators; naive_solver). rewrite cut_prefix_app.
  rewrite parseAnd_blank, (parseAnd_more ctx n2 (n1 + n2) _ _ E2) by lia. cbn [mbind option_bind]. by rewrite Hf.
Qed.

(** A chain of conjunctions is cut short at its first false operand, and
    with it the rest of the text: behind [a && b && ...] nothing is evaluated
    when [a] is false, an alternative [|| d] included. *)
Theorem and_chain_cut_short a b x : well_formed a → well_formed b → toBool (denote ctx a) = false →
  ∃ n, ∀ m, (n ≤ m)%nat →
  EvalExpr ctx m (atom a ++ infix "&&" ++ atom b ++ infix "&&" ++ x) = Some (denote ctx a).
Proof.
  intros Ha Hb Hf. destruct (and_cut_short a b "&&" x Ha Hb Hf) as (n & E); [by left|].
  destruct (or_of_and ctx (atom a ++ infix "&&" ++ atom b ++ infix "&&" ++ x) (denote ctx a)
    (bytes_of "&&" ++ blank ++ x)) as [k Hk]; [done|by exists n|].
  exists k. intros m Hm. unfold EvalExpr. by rewrite (parseOr_more ctx k m _ _ Hk).
Qed.


(** *** Interpolation *)

Definition marked (e : expr) : bytes := bytes_of "${{ " ++ print e ++ bytes_of " }}".
Fixpoint template_text (l : list (bytes * expr)) (tail : bytes) : bytes :=
  match l with
  | [] => tail
  | (lit, e) :: l => lit ++ marked e ++ template_text l tail
  end.
Fixpoint template_meaning (l : list (bytes * expr)) (tail : bytes) : bytes :=
  match l with
  | [] => tail
  | (lit, e) :: l => lit ++ exprToString (denote ctx e) ++ template_meaning l tail
  end.
(** Literal text without an opening mark, expressions without a closing one. *)
Definition segment_ok (x : bytes * expr) : Prop :=
  contains_b (bytes_of "${{") x.1 = false ∧ well_formed x.2 ∧ contains_b (bytes_of "}}") (print x.2) = false.

Lemma cut_open lit t : contains_b (bytes_of "${{") lit = false →
  cut (bytes_of "${{") (lit ++ bytes_of "${{" ++ t) = Some (lit, t).
Proof.
  intros Hl. apply cut_first; [done|]. intros p1 p2 E H1 H2 Hp _.
  destruct p1 as [|a [|b [|c p1]]]; [done| | |by destruct p1, p2]; injection E as <- E; simplify_list_eq.
  - destruct Hp as [k Hp]. done.
  - destruct Hp as [k Hp]. done.
Qed.
Lemma cut_close e t : well_formed e → contains_b (bytes_of "}}") (print e) = false →
  cut (bytes_of "}}") (Byte.x20 :: print e ++ bytes_of " }}" ++ t) = Some (Byte.x20 :: print e ++ [Byte.x20], t).
Proof.
  intros Hw Hl. change (bytes_of " }}") with ([Byte.x20] ++ bytes_of "}}").
  replace (Byte.x20 :: print e ++ ([Byte.x20] ++ bytes_of "}}") ++ t)
    with ((Byte.x20 :: print e ++ [Byte.x20]) ++ bytes_of "}}" ++ t) by (cbn [app]; by rewrite <-!app_assoc).
  apply cut_first.
  - pose proof (contains_snoc (bytes_of "}}") (print e) Byte.x20 Hl) as Hs.
    unfold contains_b. cbn [cut]. change (cut_prefix (bytes_of "}}") (Byte.x20 :: _)) with (@None bytes). cbv iota.
    unfold contains_b in Hs. destruct (cut _ (print e ++ [Byte.x20])) as [[]|] eqn:Ec; [|done].
    exfalso. enough (true = false) by done. apply Hs; [done|]. intros q Hq.
    change (bytes_of "}}") with ([Byte.x7d] ++ [Byte.x7d]) in Hq. by apply app_inj_tail in Hq as [_ ?].
  - intros p1 p2 E H1 H2 _ [k Hk]. destruct (exists_last H1) as (q & b & ->).
    rewrite app_comm_cons, app_assoc in Hk. apply app_inj_tail in Hk as [_ <-].
    destruct q as [|? [|? q]]; [discriminate| |by destruct q]. done.
Qed.

(** [Interpolate] replaces every marked expression by the text of its
    value and keeps everything else. *)
Theorem Interpolate_spec l tail : Forall segment_ok l → contains_b (bytes_of "${{") tail = false →
  ∃ n, ∀ m, (n ≤ m)%nat → Interpolate ctx m (template_text l tail) = Some (template_meaning l tail).
Proof.
  intros Hl Ht.
  assert (∃ n, ∀ m k, (n ≤ m)%nat → (length (template_text l tail) < k)%nat →
    Interpolate_loop ctx k m (template_text l tail) = Some (template_meaning l tail)) as [n Hn].
  { induction Hl as [|[lit e] l (Ho & Hw & Hc) Hl (n & IH)]; cbn [fst snd] in *.
    - exists 0%nat. intros m [|k] _ Hk; [lia|]. cbn [template_text Interpolate_loop]. unfold contains_b in Ht.
      by destruct (cut _ tail) as [[]|].
    - destruct (EvalExpr_ok e Hw) as [n1 E]. exists (n + n1)%nat. intros m [|k] Hm Hk; [lia|].
      cbn [template_text template_meaning Interpolate_loop] in *. unfold marked in *. rewrite <-!app_assoc in *.
      change (bytes_of "${{ " ++ ?x) with (bytes_of "${{" ++ Byte.x20 :: x) in *.
      rewrite cut_open, cut_close by done. rewrite TrimSpace_blanks by (by apply bounds_edges, print_bounds).
      rewrite E by lia. cbn [mbind option_bind]. rewrite IH; [done|lia|].
      rewrite !length_app in Hk. cbn [length] in Hk. rewrite !length_app in Hk. lia. }
  exists n. intros m Hm. unfold Interpolate. apply Hn; lia.
Qed.
End evaluation.

(** ** Examples *)

Definition ascii_unicode : Unicode := {| lower_rune := id; upper_rune := id |}.
Definition example_ctx : ExprContext :=
  mk_ExprContext [(bytes_of "ref", VStr (bytes_of "refs/heads/main")); (bytes_of "job_status", VStr (bytes_of "failure"))]
    {[bytes_of "CI" := bytes_of "true"]} ∅ [(bytes_of "go", VFloat (of_int 2))] ∅
    {[bytes_of "build" := mk_JobResult {[bytes_of "tag" := bytes_of "v1"]} (bytes_of "success")]} ∅ ∅ ∅ None.
(** [needs.build.result == 'Success' && (failure() || !contains(github.ref, 'it''s'))] *)
Definition example_expr : expr :=
  EAnd (ECmp OpEq (ECtx (bytes_of "needs.build.result")) (EStr (bytes_of "Success")))
       (EOr (ECall (bytes_of "failure") [])
            (ENot (ECall (bytes_of "contains") [ECtx (bytes_of "github.ref"); EStr (bytes_of "it's")]))).
Definition name_ok_b (s : bytes) : bool :=
  forallb is_name_char s && bool_decide ((lower_ascii <$> s) ∉ keywords) &&
  match s with b :: _ => negb (is_digit b) | [] => false end.
Lemma name_ok_b_ok s : name_ok_b s = true → name_ok s.
Proof.
  unfold name_ok_b, name_ok. intros [[H1 H2%bool_decide_eq_true]%andb_prop H3]%andb_prop.
  split; [|split; [done|]].
  - apply Forall_forall. intros b Hb. by eapply forallb_elem.
  - destruct s; [done|]. by apply negb_true_iff.
Qed.
Lemma byte_not_in (b : byte) (s : bytes) : bool_decide (b ∈ s) = false → b ∉ s.
Proof. apply bool_decide_eq_false. Qed.
Lemma example_well_formed : well_formed example_expr.
Proof. repeat apply conj; try exact I; apply name_ok_b_ok; by vm_compute. Qed.

Lemma EvalExpr_denotes_witness : ∃ n, ∀ m, (n ≤ m)%nat →
  EvalExpr (H := ascii_unicode) example_ctx m
    (bytes_of "(needs.build.result == 'Success') && (failure() || (!contains(github.ref, 'it''s')))") = Some (VBool true).
Proof.
  destruct (EvalExpr_denotes (H := ascii_unicode) example_ctx example_expr example_well_formed) as [n Hn].
  exists n. intros m Hm. destruct (Hn m Hm) as [E _]. 
  change (bytes_of _) with (print example_expr). rewrite E. by vm_compute.
Defined.

(** [contains(needs.*.result, 'failure')] *)
Lemma EvalExpr_never_ends_witness :
  EvalExpr (H := ascii_unicode) example_ctx 1000 (bytes_of "contains(needs.*.result, 'failure')") = None.
Proof.
  apply (EvalExpr_never_ends (H := ascii_unicode) example_ctx (bytes_of "contains") (ECtx (bytes_of "needs."))
    (bytes_of "*.result, 'failure')") 1000); [apply name_ok_b_ok; by vm_compute..|].
  split; [done|]. split; [apply byte_not_in; by vm_compute|]. split; [done|].
  repeat (constructor; [by vm_compute|]). constructor.
Defined.

(** [false && true && true || true] is false. *)
Lemma and_chain_cut_short_witness : ∃ n, ∀ m, (n ≤ m)%nat →
  EvalExpr (H := ascii_unicode) example_ctx m (bytes_of "false && true && true || true") = Some (VBool false).
Proof.
  exact (and_chain_cut_short (H := ascii_unicode) example_ctx (EBool false) (EBool true) (bytes_of "true || true") I I eq_refl).
Defined.

Lemma Interpolate_spec_witness : ∃ n, ∀ m, (n ≤ m)%nat →
  Interpolate (H := ascii_unicode) example_ctx m
    (bytes_of "deploy-${{ matrix.go }}-${{ needs.build.outputs.tag }}!") = Some (bytes_of "deploy-2-v1!").
Proof.
  destruct (Interpolate_spec (H := ascii_unicode) example_ctx
    [(bytes_of "deploy-", ECtx (bytes_of "matrix.go")); (bytes_of "-", ECtx (bytes_of "needs.build.outputs.tag"))]
    (bytes_of "!")) as [n Hn].
  - repeat constructor; (apply name_ok_b_ok; by vm_compute) || by vm_compute.
  - by vm_compute.
  - exists n. intros m Hm. specialize (Hn m Hm).
    change (bytes_of "deploy-${{ matrix.go }}-${{ needs.build.outputs.tag }}!") with
      (template_text [(bytes_of "deploy-", ECtx (bytes_of "matrix.go")); (bytes_of "-", ECtx (bytes_of "needs.build.outputs.tag"))]
    (bytes_of "!")).
    rewrite Hn. by vm_compute.
Defined.
