(* ===== verification/Store.v ===== *)
(** * The repository store (kailab/store/sqlite.go, schema.sql)

    The tables of a repository as a record, the statements on them as
    functions of that record, and the methods and stand-alone functions that
    issue them.  A statement that a constraint of the schema refuses is an
    error; failures of the connection itself are not modelled.  Calls of
    [cas.NowMs] are arguments named [ts]. *)

From S2P Require Import Prelude Json.
Local Open Scope Z_scope.

(** ** Outside code *)

(** [blake3.Sum256] of lukechampine.com/blake3 *)
Class Blake3 := { blake3_sum256 : bytes → bytes }.
Class Blake3Laws `{Blake3} := { blake3_length d : length (blake3_sum256 d) = 32%nat }.

(** The database driver: whether an empty blob is scanned as a nil slice is
    its choice; [None] is a nil slice. *)
Class Driver := { scan_blob : bytes → option bytes }.
Class DriverLaws `{Driver} := {
  scan_nonempty b : b ≠ [] → scan_blob b = Some b;
  scan_empty : scan_blob [] = None ∨ scan_blob [] = Some [];
}.

Definition Blake3Hash `{Blake3} (data : bytes) : bytes := blake3_sum256 data.

(** A nil slice reads as an empty one. *)
Definition slice (b : option bytes) : bytes := default [] b.

(** ** Tables *)

Record Segment := mk_Segment {
  seg_ts : Z; seg_checksum : bytes; seg_size : Z; seg_blob : bytes }.

Record ObjectInfo := mk_ObjectInfo {
  oi_Digest : bytes;
  oi_SegmentID : Z;
  oi_Off : Z;
  oi_Len : Z;
  oi_Kind : string;
  oi_CreatedAt : Z;
}.

Record Ref := mk_Ref {
  ref_Name : string;
  ref_Target : bytes;
  ref_UpdatedAt : Z;
  ref_Actor : string;
  ref_PushID : string;
}.

Record RefHistoryEntry := mk_RefHistoryEntry {
  rh_Seq : Z;
  rh_ID : bytes;
  rh_Parent : option bytes;
  rh_Time : Z;
  rh_Actor : string;
  rh_Ref : string;
  rh_Old : option bytes;
  rh_New : bytes;
  rh_Meta : bytes;
}.

Record NodePublishEntry := mk_NodePublishEntry {
  np_Seq : Z;
  np_ID : bytes;
  np_Parent : option bytes;
  np_Time : Z;
  np_Actor : string;
  np_NodeID : bytes;
  np_Kind : string;
}.

Record EnrichQueueItem := mk_EnrichQueueItem {
  eq_ID : Z;
  eq_NodeID : bytes;
  eq_Kind : string;
  eq_Status : string;
  eq_CreatedAt : Z;
  eq_StartedAt : option Z;
  eq_FinishedAt : option Z;
  eq_Error : option string;
}.

Record Edge := mk_Edge {
  edge_Src : bytes;
  edge_Type : string;
  edge_Dst : bytes;
  edge_At : option bytes;
}.

Record AuthorshipRange := mk_AuthorshipRange {
  ar_SnapshotID : bytes;
  ar_FilePath : string;
  ar_StartLine : Z;
  ar_EndLine : Z;
  ar_AuthorType : string;
  ar_Agent : string;
  ar_Model : string;
  ar_SessionID : string;
}.

#[export] Instance Edge_eq_dec : EqDecision Edge.
Proof. solve_decision. Defined.

(** Rows of an AUTOINCREMENT table are listed in the order of their keys; the
    counter is the largest key ever given out. *)
Record DB := mk_DB {
  db_segments : gmap Z Segment;
  db_segment_seq : Z;
  db_objects : gmap bytes ObjectInfo;
  db_refs : gmap string Ref;
  db_ref_history : list RefHistoryEntry;
  db_history_seq : Z;
  db_node_publish : list NodePublishEntry;
  db_publish_seq : Z;
  db_enrich_queue : list EnrichQueueItem;
  db_queue_seq : Z;
  db_edges : list (Edge * Z);
  db_authorship : list (AuthorshipRange * Z);
}.

Definition empty_db : DB := mk_DB ∅ 0 ∅ ∅ [] 0 [] 0 [] 0 [] [].

(** Updates of one table. *)
Definition set_segments m n d := mk_DB m n (db_objects d) (db_refs d) (db_ref_history d)
  (db_history_seq d) (db_node_publish d) (db_publish_seq d) (db_enrich_queue d)
  (db_queue_seq d) (db_edges d) (db_authorship d).
Definition set_objects m d := mk_DB (db_segments d) (db_segment_seq d) m (db_refs d)
  (db_ref_history d) (db_history_seq d) (db_node_publish d) (db_publish_seq d)
  (db_enrich_queue d) (db_queue_seq d) (db_edges d) (db_authorship d).
Definition set_refs m d := mk_DB (db_segments d) (db_segment_seq d) (db_objects d) m
  (db_ref_history d) (db_history_seq d) (db_node_publish d) (db_publish_seq d)
  (db_enrich_queue d) (db_queue_seq d) (db_edges d) (db_authorship d).
Definition set_history l n d := mk_DB (db_segments d) (db_segment_seq d) (db_objects d)
  (db_refs d) l n (db_node_publish d) (db_publish_seq d) (db_enrich_queue d)
  (db_queue_seq d) (db_edges d) (db_authorship d).
Definition set_publish l n d := mk_DB (db_segments d) (db_segment_seq d) (db_objects d)
  (db_refs d) (db_ref_history d) (db_history_seq d) l n (db_enrich_queue d)
  (db_queue_seq d) (db_edges d) (db_authorship d).
Definition set_queue l n d := mk_DB (db_segments d) (db_segment_seq d) (db_objects d)
  (db_refs d) (db_ref_history d) (db_history_seq d) (db_node_publish d) (db_publish_seq d)
  l n (db_edges d) (db_authorship d).
Definition set_edges l d := mk_DB (db_segments d) (db_segment_seq d) (db_objects d)
  (db_refs d) (db_ref_history d) (db_history_seq d) (db_node_publish d) (db_publish_seq d)
  (db_enrich_queue d) (db_queue_seq d) l (db_authorship d).
Definition set_authorship l d := mk_DB (db_segments d) (db_segment_seq d) (db_objects d)
  (db_refs d) (db_ref_history d) (db_history_seq d) (db_node_publish d) (db_publish_seq d)
  (db_enrich_queue d) (db_queue_seq d) (db_edges d) l.

Inductive store_error :=
| ErrRefNotFound
| ErrRefMismatch
| ErrObjectNotFound
| ErrSegmentNotFound
| ErrNotNull (column : string)
| ErrUnique (column : string)
| ErrBeyondSegment.

Abbreviation tx := (stM DB store_error).

(** ** Segments and objects *)

Definition InsertSegment (ts : Z) (checksum blob : bytes) : tx Z :=
  d ← gets id;
  let id := db_segment_seq d + 1 in
  _ ← modify (set_segments
        (<[id := mk_Segment ts checksum (zlen blob) blob]> (db_segments d)) id);
  mret id.
Definition InsertSegmentTx := InsertSegment.

Definition GetSegmentBlob (d : DB) (segmentID : Z) : res store_error bytes :=
  match db_segments d !! segmentID with
  | Some seg => Ok (seg_blob seg)
  | None => Err ErrSegmentNotFound
  end.
Definition GetSegmentBlobByID := GetSegmentBlob.

(** [INSERT OR IGNORE]: a digest that is present keeps its row. *)
Definition InsertObject (ts : Z) (digest : bytes) (segmentID off length : Z) (kind : string)
  : tx () :=
  modify (λ d, match db_objects d !! digest with
               | Some _ => d
               | None => set_objects
                   (<[digest := mk_ObjectInfo digest segmentID off length kind ts]>
                      (db_objects d)) d
               end).
Definition InsertObjectTx := InsertObject.

Definition GetObject (d : DB) (digest : bytes) : res store_error ObjectInfo :=
  match db_objects d !! digest with
  | Some info => Ok info
  | None => Err ErrObjectNotFound
  end.
Definition GetObjectInfo := GetObject.

Definition HasObject (d : DB) (digest : bytes) : bool :=
  bool_decide (is_Some (db_objects d !! digest)).

(** One query [SELECT digest FROM objects WHERE digest IN (...)]. *)
Definition select_digests (d : DB) (batch : list bytes) : gset string :=
  list_to_set (hex_encode <$> filter (λ x, is_Some (db_objects d !! x)) batch).

(** [for i := 0; i < len(digests); i += batchSize] *)
Fixpoint HasObjects_loop (fuel : nat) (batchSize i : Z) (d : DB) (digests : list bytes)
    (result : gset string) : res store_error (gset string) :=
  if i <? zlen digests then
    match fuel with
    | O => Panic
    | S fuel =>
      let e := i + batchSize in
      let e := if zlen digests <? e then zlen digests else e in
      batch ← or_panic (go_slice digests i e);
      HasObjects_loop fuel batchSize (i + batchSize) d digests (select_digests d batch ∪ result)
    end
  else Ok result.

Definition HasObjects (d : DB) (digests : list bytes) : res store_error (gset string) :=
  if zlen digests =? 0 then Ok ∅
  else HasObjects_loop (length digests) 500 0 d digests ∅.
Definition HasObjectsDB := HasObjects.

(** The bound is checked on a 64-bit sum. *)
Definition ReadObjectContent (d : DB) (digest : bytes) : res store_error bytes :=
  info ← GetObject d digest;
  blob ← GetSegmentBlob d (oi_SegmentID info);
  _ ← guard_err (zlen blob <? i64 (oi_Off info + oi_Len info)) ErrBeyondSegment;
  or_panic (go_slice blob (oi_Off info) (i64 (oi_Off info + oi_Len info))).
Definition ReadObjectContentDB := ReadObjectContent.

(** ** Refs *)

Section refs.
Context `{Driver, Blake3}.

Definition GetRef (d : DB) (name : string) : res store_error Ref :=
  match db_refs d !! name with
  | Some ref => Ok ref
  | None => Err ErrRefNotFound
  end.
Definition GetRefDB := GetRef.

Definition name_le (x y : Ref) : Prop := str_le (ref_Name x) (ref_Name y).
#[export] Instance name_le_dec x y : Decision (name_le x y).
Proof. unfold name_le. apply _. Defined.

(** [ORDER BY name] *)
Definition ListRefs (d : DB) (prefix : string) : list Ref :=
  let rows := (map_to_list (db_refs d)).*2 in
  merge_sort name_le
    (if decide (prefix = "") then rows
     else filter (λ ref, sql_like (bytes_of prefix ++ bytes_of "%") (bytes_of (ref_Name ref)) = true)
            rows).
Definition ListRefsDB := ListRefs.

(** [SELECT target FROM refs WHERE name = ?] into a nil slice: the row, if
    there is one, and the slice scanned. *)
Definition select_target (name : string) : tx (option (option bytes)) :=
  gets (λ d, (λ ref, scan_blob (ref_Target ref)) <$> db_refs d !! name).

(** [SELECT id FROM ref_history WHERE ref = ? ORDER BY seq DESC LIMIT 1] *)
Definition history_of (name : string) (d : DB) : list RefHistoryEntry :=
  filter (λ e, rh_Ref e = name) (db_ref_history d).
Definition select_parent (name : string) : tx (option bytes) :=
  gets (λ d, last (history_of name d) ≫= λ e, scan_blob (rh_ID e)).

(** [INSERT INTO refs ... ON CONFLICT(name) DO UPDATE ...] *)
Definition upsert_ref (name : string) (target : option bytes) (ts : Z) (actor pushID : string)
  : tx () :=
  match target with
  | None => lift (Err (ErrNotNull "refs.target"))
  | Some target => modify (λ d, set_refs
      (<[name := mk_Ref name target ts actor pushID]> (db_refs d)) d)
  end.

(** [INSERT INTO ref_history ...] *)
Definition insert_history (entryID : bytes) (parent : option bytes) (ts : Z) (actor name : string)
    (old new : option bytes) (meta : bytes) : tx () :=
  d ← gets id;
  match new with
  | None => lift (Err (ErrNotNull "ref_history.new"))
  | Some new =>
    _ ← fail_if (bool_decide (entryID ∈ rh_ID <$> db_ref_history d)) (ErrUnique "ref_history.id");
    let seq := db_history_seq d + 1 in
    modify (set_history
      (db_ref_history d ++ [mk_RefHistoryEntry seq entryID parent ts actor name old new meta]) seq)
  end.

(** The JSON text of a history entry; [extra] is the mark of forced updates
    and deletions. *)
Definition hex_field (k : string) (b : option bytes) : bytes * json :=
  (bytes_of k, JStr (hex_encode_bytes (slice b))).
Definition str_field (k v : string) : bytes * json := (bytes_of k, JStr (bytes_of v)).
Definition historyEntry (ts : Z) (actor name : string) (old new : option bytes)
    (pushID : string) (extra : list (bytes * json)) (parent : option bytes) : json :=
  JMap ([(bytes_of "time", JInt ts); str_field "actor" actor; str_field "ref" name;
         hex_field "old" old; hex_field "new" new; str_field "pushId" pushID] ++ extra
        ++ match parent with Some _ => [hex_field "parent" parent] | None => [] end).

Definition force_mark : list (bytes * json) := [(bytes_of "force", JBool true)].
Definition delete_mark : list (bytes * json) := [(bytes_of "delete", JBool true)].

Definition is_nil (b : option bytes) : bool := match b with None => true | Some _ => false end.

(** [bytesEqual] *)
Definition bytesEqual (a b : bytes) : bool :=
  if negb (zlen a =? zlen b) then false
  else forallb (λ p, bool_decide (p.1 = p.2)) (zip a b).

Definition SetRefFF (ts : Z) (name : string) (old new : option bytes) (actor pushID : string)
  : tx () :=
  row ← select_target name;
  let currentTarget := default None row in
  _ ← fail_if (is_nil old && negb (is_nil currentTarget)) ErrRefMismatch;
  _ ← (if negb (is_nil old) then
         _ ← fail_if (is_nil currentTarget) ErrRefMismatch;
         fail_if (negb (bytesEqual (slice old) (slice currentTarget))) ErrRefMismatch
       else mret ());
  parentID ← select_parent name;
  _ ← upsert_ref name new ts actor pushID;
  let entryJSON := marshal (historyEntry ts actor name old new pushID [] parentID) in
  let entryID := Blake3Hash entryJSON in
  insert_history entryID parentID ts actor name old new entryJSON.
Definition SetRefFFDB := SetRefFF.

Definition ForceSetRef (ts : Z) (name : string) (new : option bytes) (actor pushID : string)
  : tx () :=
  row ← select_target name;
  let currentTarget := default None row in
  parentID ← select_parent name;
  _ ← upsert_ref name new ts actor pushID;
  let entryJSON :=
    marshal (historyEntry ts actor name currentTarget new pushID force_mark parentID) in
  let entryID := Blake3Hash entryJSON in
  insert_history entryID parentID ts actor name currentTarget new entryJSON.
Definition ForceSetRefDB := ForceSetRef.

Definition DeleteRef (ts : Z) (name : string) (old : option bytes) (actor pushID : string)
  : tx () :=
  row ← select_target name;
  match row with
  | None => lift (Err ErrRefNotFound)
  | Some currentTarget =>
    _ ← fail_if (negb (is_nil old) && negb (bytesEqual (slice old) (slice currentTarget)))
          ErrRefMismatch;
    parentID ← select_parent name;
    _ ← modify (λ d, set_refs (delete name (db_refs d)) d);
    let entryJSON :=
      marshal (historyEntry ts actor name currentTarget None pushID delete_mark parentID) in
    let entryID := Blake3Hash entryJSON in
    insert_history entryID parentID ts actor name currentTarget (Some []) entryJSON
  end.
Definition DeleteRefDB := DeleteRef.

(** *** The log *)

Definition after (refFilter : string) (afterSeq : Z) (d : DB) : list RefHistoryEntry :=
  filter (λ e, (refFilter = "" ∨ rh_Ref e = refFilter) ∧ afterSeq < rh_Seq e)
    (db_ref_history d).

(** The method lists the entries after [afterSeq] in increasing order, the
    stand-alone function in decreasing order. *)
Definition GetRefHistory (d : DB) (refFilter : string) (afterSeq limit : Z)
  : list RefHistoryEntry :=
  let limit := if limit <=? 0 then 100 else limit in
  take (Z.to_nat limit) (after refFilter afterSeq d).
Definition GetRefHistoryDB (d : DB) (refFilter : string) (afterSeq limit : Z)
  : list RefHistoryEntry :=
  let limit := if limit <=? 0 then 100 else limit in
  take (Z.to_nat limit) (reverse (after refFilter afterSeq d)).

Definition GetLogHead (d : DB) : option bytes :=
  last (db_ref_history d) ≫= λ e, scan_blob (rh_ID e).
Definition GetLogHeadDB := GetLogHead.

(** [INSERT OR IGNORE INTO node_publish ...] *)
Definition RecordNodePublish (ts : Z) (nodeID : bytes) (kind actor : string) : tx () :=
  d ← gets id;
  let parentID := last (db_node_publish d) ≫= λ e, scan_blob (np_ID e) in
  let entry := JMap ([(bytes_of "time", JInt ts); str_field "actor" actor;
                      hex_field "nodeId" (Some nodeID); str_field "kind" kind]
    ++ match parentID with Some _ => [hex_field "parent" parentID] | None => [] end) in
  let entryID := Blake3Hash (marshal entry) in
  if decide (entryID ∈ np_ID <$> db_node_publish d) then mret ()
  else
    let seq := db_publish_seq d + 1 in
    modify (set_publish
      (db_node_publish d ++ [mk_NodePublishEntry seq entryID parentID ts actor nodeID kind]) seq).
End refs.

(** ** Enrichment queue *)

Definition EnqueueForEnrichment (ts : Z) (nodeID : bytes) (kind : string) : tx () :=
  modify (λ d,
    let id := db_queue_seq d + 1 in
    set_queue (db_enrich_queue d
      ++ [mk_EnrichQueueItem id nodeID kind "pending" ts None None None]) id d).
Definition EnqueueForEnrichmentTx := EnqueueForEnrichment.

(** [UPDATE enrich_queue SET ... WHERE id = ?] *)
Definition update_item (id : Z) (f : EnrichQueueItem → EnrichQueueItem) : tx () :=
  modify (λ d, set_queue ((λ it, if eq_ID it =? id then f it else it) <$> db_enrich_queue d)
                 (db_queue_seq d) d).

Definition ClaimEnrichmentItem (ts : Z) : tx (option EnrichQueueItem) :=
  transact (
    d ← gets id;
    match filter (λ it, eq_Status it = "pending") (db_enrich_queue d) with
    | [] => mret None
    | item :: _ =>
      _ ← update_item (eq_ID item) (λ it,
            mk_EnrichQueueItem (eq_ID it) (eq_NodeID it) (eq_Kind it) "processing"
              (eq_CreatedAt it) (Some ts) (eq_FinishedAt it) (eq_Error it));
      mret (Some (mk_EnrichQueueItem (eq_ID item) (eq_NodeID item) (eq_Kind item) "processing"
                    (eq_CreatedAt item) (Some ts) None None))
    end).

Definition CompleteEnrichmentItem (ts id : Z) (errMsg : string) : tx () :=
  let '(status, errPtr) :=
    if decide (errMsg = "") then ("done", None) else ("failed", Some errMsg) in
  update_item id (λ it,
    mk_EnrichQueueItem (eq_ID it) (eq_NodeID it) (eq_Kind it) status
      (eq_CreatedAt it) (eq_StartedAt it) (Some ts) errPtr).

(** ** Edges

    The key is (src, type, dst, at); rows whose [at] is NULL are never equal
    in a key. *)
Definition same_key (e f : Edge) : bool :=
  bool_decide (e = f) && negb (bool_decide (edge_At e = None)).

Definition insert_edge (ts : Z) (d : DB) (e : Edge) : DB :=
  if existsb (λ row, same_key e row.1) (db_edges d) then d
  else set_edges (db_edges d ++ [(e, ts)]) d.

Definition InsertEdge (ts : Z) (src : bytes) (edgeType : string) (dst : bytes)
    (at_ : option bytes) : tx () :=
  modify (λ d, insert_edge ts d (mk_Edge src edgeType dst at_)).

Definition InsertEdgesBatch (ts : Z) (edges : list Edge) : tx () :=
  if zlen edges =? 0 then mret ()
  else modify (λ d, foldl (insert_edge ts) d edges).
Definition InsertEdgesTx := InsertEdgesBatch.

(** The queries name no order; the rows are listed as stored. *)
Definition type_matches (edgeType : string) (e : Edge) : bool :=
  bool_decide (edgeType = "") || bool_decide (edge_Type e = edgeType).
Definition select_edges (p : Edge → bool) (d : DB) : list Edge :=
  filter (λ e, p e = true) (db_edges d).*1.

Definition GetEdgesFrom (d : DB) (src : bytes) (edgeType : string) : list Edge :=
  select_edges (λ e, bool_decide (edge_Src e = src) && type_matches edgeType e) d.
Definition GetEdgesFromDB := GetEdgesFrom.
Definition GetEdgesTo (d : DB) (dst : bytes) (edgeType : string) : list Edge :=
  select_edges (λ e, bool_decide (edge_Dst e = dst) && type_matches edgeType e) d.
Definition GetEdgesToDB := GetEdgesTo.
(** [at = NULL] holds for no row. *)
Definition GetEdgesBySnapshot (d : DB) (at_ : option bytes) (edgeType : string) : list Edge :=
  select_edges (λ e, bool_decide (edge_At e = at_) && negb (bool_decide (at_ = None))
                     && type_matches edgeType e) d.
Definition GetEdgesBySnapshotDB := GetEdgesBySnapshot.

(** ** Authorship *)

Definition ar_key (r : AuthorshipRange) : bytes * string * Z :=
  (ar_SnapshotID r, ar_FilePath r, ar_StartLine r).

(** [INSERT OR REPLACE] *)
Definition insert_range (ts : Z) (d : DB) (r : AuthorshipRange) : DB :=
  set_authorship (filter (λ row, ar_key row.1 ≠ ar_key r) (db_authorship d) ++ [(r, ts)]) d.

Definition InsertAuthorshipRanges (ts : Z) (ranges : list AuthorshipRange) : tx () :=
  if zlen ranges =? 0 then mret ()
  else modify (λ d, foldl (insert_range ts) d ranges).

Definition line_le (x y : AuthorshipRange) : Prop := ar_StartLine x ≤ ar_StartLine y.
#[export] Instance line_le_dec x y : Decision (line_le x y).
Proof. unfold line_le. apply _. Defined.
Definition path_line_le (x y : AuthorshipRange) : Prop :=
  (str_le (ar_FilePath x) (ar_FilePath y) ∧ ar_FilePath x ≠ ar_FilePath y) ∨
  (ar_FilePath x = ar_FilePath y ∧ ar_StartLine x ≤ ar_StartLine y).
#[export] Instance path_line_le_dec x y : Decision (path_line_le x y).
Proof. unfold path_line_le. apply _. Defined.

Definition GetAuthorshipRanges (d : DB) (snapshotID : bytes) (filePath : string)
  : list AuthorshipRange :=
  merge_sort line_le
    (filter (λ r, ar_SnapshotID r = snapshotID ∧ ar_FilePath r = filePath) (db_authorship d).*1).
Definition GetAllAuthorshipRanges (d : DB) (snapshotID : bytes) : list AuthorshipRange :=
  merge_sort path_line_le (filter (λ r, ar_SnapshotID r = snapshotID) (db_authorship d).*1).

(** ** Lemmas: objects *)

Lemma select_digests_elem d batch x :
  x ∈ select_digests d batch ↔ ∃ g, x = hex_encode g ∧ g ∈ batch ∧ is_Some (db_objects d !! g).
Proof.
  unfold select_digests. rewrite elem_of_list_to_set, list_elem_of_fmap.
  setoid_rewrite list_elem_of_filter. naive_solver.
Qed.

Lemma HasObjects_loop_ok fuel k d digests result :
  (length digests ≤ fuel + k)%nat →
  ∃ r, HasObjects_loop fuel 500 (Z.of_nat k) d digests result = Ok r ∧
    ∀ x, x ∈ r ↔ x ∈ result ∨ x ∈ select_digests d (drop k digests).
Proof.
  revert k result. induction fuel as [|fuel IH]; intros k result Hf; cbn [HasObjects_loop].
  all: destruct (Z.of_nat k <? zlen digests) eqn:E; bool_to_prop; unfold zlen in E; try lia.
  1,3: exists result; split; [done|]; intros x; rewrite drop_ge by lia;
    rewrite select_digests_elem; set_solver.
  set (e := if zlen digests <? Z.of_nat k + 500 then zlen digests else Z.of_nat k + 500).
  assert (Z.of_nat k ≤ e ≤ zlen digests ∧ e ≤ Z.of_nat k + 500 ∧
          (e < zlen digests → e = Z.of_nat k + 500)) as (He & He' & He'').
  { subst e. unfold zlen. case_match; bool_to_prop; lia. }
  unfold e at 1. fold e. rewrite go_slice_in_range by lia. res_simpl.
  replace (Z.of_nat k + 500) with (Z.of_nat (k + 500)) by lia.
  destruct (IH (k + 500)%nat (select_digests d
    (take (Z.to_nat (e - Z.of_nat k)) (drop (Z.to_nat (Z.of_nat k)) digests)) ∪ result))
    as (r & -> & Hr); [lia|].
  exists r. split; [done|]. intros x. rewrite Hr, elem_of_union. rewrite Nat2Z.id.
  assert (drop k digests = take (Z.to_nat (e - Z.of_nat k)) (drop k digests)
                           ++ drop (k + 500) digests) as Hsplit.
  { rewrite <-(take_drop (Z.to_nat (e - Z.of_nat k)) (drop k digests)) at 1. f_equal.
    rewrite drop_drop. destruct (decide (e < zlen digests)).
    - f_equal. lia.
    - unfold zlen in *. rewrite !drop_ge; [done|lia..]. }
  rewrite Hsplit at 2. rewrite !select_digests_elem. setoid_rewrite elem_of_app. naive_solver.
Qed.

(** ** Lemmas: refs *)

Lemma bytesEqual_true a b : bytesEqual a b = true ↔ a = b.
Proof.
  unfold bytesEqual. destruct (zlen a =? zlen b) eqn:E; simpl; bool_to_prop.
  - unfold zlen in E. apply Nat2Z.inj in E. revert b E.
    induction a as [|x a IH]; intros [|y b] E; simplify_eq/=; [done|].
    rewrite andb_true_iff, bool_decide_eq_true, IH by done. naive_solver.
  - split; [done|]. by intros ->.
Qed.

Section ref_lemmas.
Context `{Driver, Blake3}.

#[local] Arguments historyEntry : simpl never.
#[local] Arguments insert_history : simpl never.
#[local] Arguments marshal : simpl never.

(** What a client sees of the current target. *)
Definition current (d : DB) (name : string) : option bytes :=
  db_refs d !! name ≫= λ ref, scan_blob (ref_Target ref).

Definition parent_of (d : DB) (name : string) : option bytes :=
  last (history_of name d) ≫= λ e, scan_blob (rh_ID e).

(** The entry an update appends. *)
Definition log_entry (d : DB) (ts : Z) (actor name : string) (old : option bytes)
    (new : bytes) (json_new : option bytes) (pushID : string) (extra : list (bytes * json))
  : RefHistoryEntry :=
  let meta := marshal (historyEntry ts actor name old json_new pushID extra (parent_of d name)) in
  mk_RefHistoryEntry (db_history_seq d + 1) (Blake3Hash meta) (parent_of d name) ts actor name
    old new meta.

(** Appending an entry unless its identifier is taken. *)
Definition append_log (e : RefHistoryEntry) (d : DB) : DB * res store_error () :=
  if decide (rh_ID e ∈ rh_ID <$> db_ref_history d) then (d, Err (ErrUnique "ref_history.id"))
  else (set_history (db_ref_history d ++ [e]) (rh_Seq e) d, Ok ()).

Definition put_ref (name : string) (target : bytes) (ts : Z) (actor pushID : string) (d : DB)
  : DB := set_refs (<[name := mk_Ref name target ts actor pushID]> (db_refs d)) d.

(** The compare step of [SetRefFF]. *)
Definition expects (d : DB) (name : string) (old : option bytes) : Prop :=
  old = current d name.
#[export] Instance expects_dec d name old : Decision (expects d name old).
Proof. unfold expects. apply _. Defined.

Lemma insert_history_eq d id parent ts actor name old new meta :
  insert_history id parent ts actor name old (Some new) meta d =
  append_log (mk_RefHistoryEntry (db_history_seq d + 1) id parent ts actor name old new meta) d.
Proof.
  unfold insert_history, append_log, fail_if, gets, modify, lift, guard_err.
  unfold mbind, stM_bind. cbn. case_bool_decide; case_decide; done.
Qed.

Lemma SetRefFF_eq ts name old new actor pushID d :
  SetRefFF ts name old new actor pushID d =
  if decide (expects d name old) then
    match new with
    | None => (d, Err (ErrNotNull "refs.target"))
    | Some target =>
      append_log (log_entry d ts actor name old target new pushID [])
        (put_ref name target ts actor pushID d)
    end
  else (d, Err ErrRefMismatch).
Proof.
  unfold SetRefFF, select_target, select_parent, upsert_ref, fail_if.
  unfold mbind at 1. unfold stM_bind at 1. unfold gets at 1. cbv beta iota.
  assert (default None ((λ ref, scan_blob (ref_Target ref)) <$> db_refs d !! name)
          = current d name) as ->.
  { unfold current. by destruct (db_refs d !! name). }
  destruct (decide (expects d name old)) as [Hx|Hx]; unfold expects in Hx;
    destruct old as [o|], (current d name) as [c|]; cbn [is_nil]; st_simpl; cbn [slice default from_option id]; try done.
  - injection Hx as ->. rewrite (proj2 (bytesEqual_true c c) eq_refl).
    destruct new as [t|]; [|done]. st_simpl. by rewrite insert_history_eq.
  - destruct new as [t|]; [|done]. st_simpl. by rewrite insert_history_eq.
  - destruct (bytesEqual o c) eqn:E; [|done]. apply bytesEqual_true in E. congruence.
Qed.

Lemma ForceSetRef_eq ts name new actor pushID d :
  ForceSetRef ts name new actor pushID d =
  match new with
  | None => (d, Err (ErrNotNull "refs.target"))
  | Some target =>
    append_log (log_entry d ts actor name (current d name) target new pushID force_mark)
      (put_ref name target ts actor pushID d)
  end.
Proof.
  unfold ForceSetRef, select_target, select_parent, upsert_ref.
  unfold mbind at 1. unfold stM_bind at 1. unfold gets at 1. cbv beta iota.
  assert (default None ((λ ref, scan_blob (ref_Target ref)) <$> db_refs d !! name)
          = current d name) as ->.
  { unfold current. by destruct (db_refs d !! name). }
  destruct new as [t|]; [|done]. st_simpl. by rewrite insert_history_eq.
Qed.

Lemma DeleteRef_eq ts name old actor pushID d :
  DeleteRef ts name old actor pushID d =
  match db_refs d !! name with
  | None => (d, Err ErrRefNotFound)
  | Some ref =>
    if decide (old = None ∨ slice old = slice (current d name)) then
      append_log (log_entry d ts actor name (current d name) [] None pushID delete_mark)
        (set_refs (delete name (db_refs d)) d)
    else (d, Err ErrRefMismatch)
  end.
Proof.
  unfold DeleteRef, select_target, select_parent, fail_if.
  unfold mbind at 1. unfold stM_bind at 1. unfold gets at 1. cbv beta iota.
  unfold log_entry, current. destruct (db_refs d !! name) as [ref|]; [|done].
  cbn [fmap option_fmap option_map]. st_simpl.
  destruct old as [o|]; cbn [is_nil]; st_simpl; cbn [slice default from_option id].
  - destruct (bytesEqual o (slice (scan_blob (ref_Target ref)))) eqn:E; st_simpl.
    + apply bytesEqual_true in E. rewrite decide_True by (by right). st_simpl. by rewrite insert_history_eq.
    + rewrite decide_False; [done|]. intros [?|E']; [done|].
      assert (bytesEqual o (slice (scan_blob (ref_Target ref))) = true)
        by (by apply bytesEqual_true). congruence.
  - rewrite decide_True by (by left). st_simpl. by rewrite insert_history_eq.
Qed.
End ref_lemmas.

(** A driver and a hash to run the examples with. *)
Definition demo_driver : Driver := {| scan_blob b := Some b |}.
Definition demo_sum (d : bytes) : Z :=
  foldl (λ h b, (h * 31 + int_of_byte b + 7) `mod` 2^32) 5381 d.
Definition demo_hash : Blake3 := {| blake3_sum256 d :=
  let h := demo_sum d in
  [byte_of_int (h `div` 2^24); byte_of_int (h `div` 2^16); byte_of_int (h `div` 2^8); byte_of_int h]
  ++ replicate 28 Byte.x00 |}.
Lemma demo_driver_laws : @DriverLaws demo_driver.
Proof. split; [done|by right]. Qed.
Lemma demo_hash_laws : @Blake3Laws demo_hash.
Proof. split. intros d. done. Qed.
