(* ===== verification/Cas.v ===== *)
(** * Content addresses (kai-core/cas/cas.go)

    The canonical JSON of a payload - object keys sorted at every depth - and
    the identifier of a node, the hash of its kind and canonical payload.
    Two payloads have one identifier exactly when they differ at most in the
    order of their fields. *)

From S2P Require Import Prelude Json GoStrings Float64 Store.
Local Open Scope Z_scope.

(** ** Numbers

    [CanonicalJSON] decodes its own first encoding into [interface{}], so
    every number passes through a float64 and is written in the shortest form
    that reads back.  The payloads of the server hold integers of 64 bits;
    their floats are below 1e21 and are written without an exponent. *)

(** [m / 2^e], rounded half to even. *)
Definition round_shift (m e : Z) : Z :=
  let q := m `div` 2^e in
  let r := m `mod` 2^e in
  if r <? 2^(e - 1) then q else if 2^(e - 1) <? r then q + 1 else q + q `mod` 2.
(** [float64(n)] of a natural number, which is an integer again. *)
Definition float_of_nat (n : Z) : Z :=
  let bits := Z.log2 n + 1 in
  if bits <=? 53 then n else round_shift n (bits - 53) * 2^(bits - 53).

(** The integer with the fewest significant digits that reads back as [f],
    and the nearest of those; [digits] is the number of digits of [f]. *)
Fixpoint shortest (fuel : nat) (digits k f : Z) : Z :=
  match fuel with
  | O => f
  | S fuel =>
    let p := 10^(digits - k) in
    let lo := f `div` p * p in
    let hi := lo + p in
    match float_of_nat lo =? f, float_of_nat hi =? f with
    | true, true => if hi - f <? f - lo then hi else lo
    | true, false => lo
    | false, true => hi
    | false, false => shortest fuel digits (k + 1) f
    end
  end.
Definition float_digits (f : Z) : Z :=
  shortest 20 (zlen (dec_digits 20 f)) 1 f.
Definition float_text (z : Z) : Z := Z.sgn z * float_digits (float_of_nat (Z.abs z)).

(** ** Canonical JSON *)

(** [map[string]interface{}]: the last field of a name stays. *)
Fixpoint last_fields {A} (l : list (bytes * A)) : list (bytes * A) :=
  match l with
  | [] => []
  | kv :: l => if bool_decide (kv.1 ∈ l.*1) then last_fields l else kv :: last_fields l
  end.

Definition key_le {A} (x y : bytes * A) : Prop := bytes_leb x.1 y.1 = true.
#[export] Instance key_le_dec {A} (x y : bytes * A) : Decision (key_le x y).
Proof. unfold key_le. apply _. Defined.
#[export] Instance key_le_total {A} : Total (@key_le A).
Proof. intros x y. apply bytes_leb_total. Qed.
#[export] Instance key_le_trans {A} : Transitive (@key_le A).
Proof. intros x y z. apply bytes_leb_trans. Qed.

(** A literal that is no integer of 64 bits goes through [strconv.ParseFloat]
    and the float encoder of [encoding/json]. *)
Definition canonical_number (lit : bytes) : bytes :=
  match int_value lit with
  | Some z => int_lit (float_text z)
  | None =>
    match scan_decimal lit with
    | Some (f, []) => default lit (json_float_text f)
    | _ => lit
    end
  end.

(** [marshalSortedMap] on members that are already encoded. *)
Definition marshalSortedMap (m : list (bytes * bytes)) : bytes :=
  Byte.x7b :: sep_by comma (map (λ kv, marshal_string kv.1 ++ colon :: kv.2)
                              (merge_sort key_le m)) ++ [Byte.x7d].
Definition marshalArray (arr : list bytes) : bytes :=
  Byte.x5b :: sep_by comma arr ++ [Byte.x5d].

Fixpoint canonicalMarshal (v : json) : bytes :=
  match v with
  | JObj m => marshalSortedMap (last_fields (map (λ kv, (kv.1, canonicalMarshal kv.2)) m))
  | JArr arr => marshalArray (map canonicalMarshal arr)
  | JNum lit => canonical_number lit
  | _ => marshal v
  end.

(** [json.Unmarshal] into [interface{}] refuses a number beyond the range of
    float64, wherever it stands. *)
Definition number_fits (lit : bytes) : bool :=
  match int_value lit with
  | Some _ => true
  | None => match scan_decimal lit with Some (f, []) => bool_decide (is_Some (json_float_text f)) | _ => false end
  end.
Fixpoint numbers_fit (v : json) : bool :=
  match v with
  | JNum lit => number_fits lit
  | JArr l => forallb numbers_fit l
  | JObj m => forallb (λ kv, numbers_fit kv.2) m
  | _ => true
  end.

(** [json.Marshal], [json.Unmarshal] into [interface{}], and again. *)
Definition CanonicalJSON (v : json) : option bytes :=
  match parse (marshal v) with
  | Some obj => if numbers_fit obj then Some (canonicalMarshal obj) else None
  | None => None
  end.

Definition node_data (kind : string) (canonicalPayload : bytes) : bytes :=
  bytes_of kind ++ [Byte.x0a] ++ canonicalPayload.

Definition NodeID `{Blake3} (kind : string) (payload : json) : option bytes :=
  match CanonicalJSON payload with
  | Some canonicalPayload => Some (Blake3Hash (node_data kind canonicalPayload))
  | None => None
  end.

(** Large integers lose their low digits on the way. *)
Example canonical_floats :
  canonical_number (bytes_of "1.50") = bytes_of "1.5" ∧
  canonical_number (bytes_of "1e21") = bytes_of "1e+21" ∧
  canonical_number (bytes_of "100000000000000000000") = bytes_of "100000000000000000000".
Proof. vm_compute. repeat split. Qed.
Example huge_number_refused :
  CanonicalJSON (JArr [JNum (bytes_of "1e400")]) = None ∧
  CanonicalJSON (JArr [JNum (bytes_of "1e300")]) = Some (bytes_of "[1e+300]").
Proof. by vm_compute. Qed.
Example float_text_exact : float_text 1754000000123 = 1754000000123 ∧ float_text (-7) = -7.
Proof. vm_compute. done. Qed.
Example float_text_rounds :
  float_text 9007199254740993 = 9007199254740992 ∧
  float_text (2^63 - 1) = 9223372036854776000 ∧ float_text 123456789123456789 = 123456789123456780.
Proof. vm_compute. done. Qed.

(** ** Payloads *)

(** Integers that a float64 holds exactly, and distinct keys. *)
Definition ok_number (lit : bytes) : Prop := ∃ z, - 2^53 < z < 2^53 ∧ lit = int_lit z.
Fixpoint ok_payload (v : json) : Prop :=
  match v with
  | JNum lit => ok_number lit
  | JStr s => valid_utf8 s
  | JArr l => foldr (λ v P, ok_payload v ∧ P) True l
  | JObj l => NoDup l.*1 ∧ foldr (λ kv P, (valid_utf8 kv.1 ∧ ok_payload kv.2) ∧ P) True l
  | _ => True
  end.

(** Equal up to the order of fields. *)
Inductive same_json : json → json → Prop :=
| same_null : same_json JNull JNull
| same_bool b : same_json (JBool b) (JBool b)
| same_num lit : same_json (JNum lit) (JNum lit)
| same_str s : same_json (JStr s) (JStr s)
| same_arr l k : Forall2 same_json l k → same_json (JArr l) (JArr k)
| same_obj l m k : Forall2 (λ x y, x.1 = y.1 ∧ same_json x.2 y.2) l m → m ≡ₚ k →
    same_json (JObj l) (JObj k).

(** ** Lemmas: numbers *)

Lemma float_of_nat_small n : 0 ≤ n < 2^53 → float_of_nat n = n.
Proof.
  intros Hn. unfold float_of_nat. rewrite (proj2 (Z.leb_le _ _)); [done|].
  destruct (decide (n = 0)) as [->|]; [done|]. assert (Z.log2 n < 53) by (apply Z.log2_lt_pow2; lia). lia.
Qed.

Lemma float_of_nat_large n : 2^53 ≤ n → 2^53 ≤ float_of_nat n.
Proof.
  intros Hn. unfold float_of_nat. case_match eqn:E; [done|]. bool_to_prop.
  set (e := Z.log2 n + 1 - 53) in *. assert (0 < e) by lia.
  assert (2^(52 + e) ≤ n) as Hl.
  { replace (52 + e) with (Z.log2 n) by lia. apply Z.log2_spec. lia. }
  rewrite Z.pow_add_r in Hl by lia. assert (0 < 2^e) by lia.
  assert (2^52 ≤ n `div` 2^e) as Hq by (apply Z.div_le_lower_bound; lia).
  assert (n `div` 2^e ≤ round_shift n e) as Hr.
  { unfold round_shift. pose proof (Z.mod_pos_bound (n `div` 2^e) 2). repeat case_match; lia. }
  assert (2 ≤ 2^e) by (change 2 with (2^1) at 1; apply Z.pow_le_mono_r; lia).
  nia.
Qed.

Lemma float_of_nat_inv c f : 0 ≤ c → f < 2^53 → float_of_nat c = f → c = f.
Proof.
  intros Hc Hf E. destruct (decide (c < 2^53)) as [Hs|Hs].
  - by rewrite float_of_nat_small in E.
  - pose proof (float_of_nat_large c). lia.
Qed.

Lemma shortest_small fuel digits k f : 0 ≤ f < 2^53 → shortest fuel digits k f = f.
Proof.
  intros Hf. revert k. induction fuel as [|fuel IH]; intros k; [done|]. cbn [shortest].
  set (p := 10^(digits - k)). assert (0 ≤ p) by (apply Z.pow_nonneg; lia).
  set (lo := f `div` p * p). assert (0 ≤ lo).
  { destruct (decide (p = 0)) as [E|]; [unfold lo; rewrite E; lia|].
    pose proof (Z.div_pos f p). unfold lo. nia. }
  destruct (float_of_nat lo =? f) eqn:El, (float_of_nat (lo + p) =? f) eqn:Eh; bool_to_prop;
    try (apply float_of_nat_inv in El; [|lia..]); try (apply float_of_nat_inv in Eh; [|lia..]);
    [case_match; lia|done|done|apply IH].
Qed.

Lemma float_text_small z : - 2^53 < z < 2^53 → float_text z = z.
Proof.
  intros Hz. unfold float_text, float_digits. rewrite float_of_nat_small by lia.
  rewrite shortest_small by lia. lia.
Qed.

Lemma canonical_number_ok lit : ok_number lit → canonical_number lit = lit ∧ ok_json (JNum lit).
Proof.
  intros (z & Hz & ->). unfold canonical_number.
  destruct (int_lit_ok z) as [Hj ->]; [lia|]. by rewrite float_text_small.
Qed.

(** ** Lemmas: canonical values

    The canonical text is the encoding of the payload with sorted fields. *)
Fixpoint canonical (v : json) : json :=
  match v with
  | JObj m => JMap (map (λ kv, (kv.1, canonical kv.2)) m)
  | JArr arr => JArr (map canonical arr)
  | _ => v
  end.

Lemma last_fields_nodup {A} (l : list (bytes * A)) : NoDup l.*1 → last_fields l = l.
Proof.
  induction l as [|kv l IH]; intros Hnd; [done|]. simpl in Hnd. apply NoDup_cons in Hnd as [Hk Hnd].
  cbn [last_fields]. rewrite bool_decide_eq_false_2 by done. by rewrite IH.
Qed.

Lemma sort_unique {A} (l k : list (bytes * A)) :
  NoDup l.*1 → l ≡ₚ k → merge_sort key_le l = merge_sort key_le k.
Proof.
  intros Hnd Hp. apply (Sorted_unique_strong key_le).
  - intros x y Hx Hy Hxy Hyx. rewrite merge_sort_Permutation in Hx. rewrite merge_sort_Permutation, <-Hp in Hy.
    assert (x.1 = y.1) as Ek by (by apply bytes_leb_antisym).
    apply list_elem_of_lookup in Hx as [i Hi]. apply list_elem_of_lookup in Hy as [j Hj].
    assert (i = j) as <-; [|congruence].
    eapply NoDup_lookup; [exact Hnd|..]; rewrite list_lookup_fmap; [by rewrite Hi|by rewrite Hj, Ek].
  - apply Sorted_merge_sort, _.
  - apply Sorted_merge_sort, _.
  - by rewrite !merge_sort_Permutation.
Qed.

(** Sorting looks at the keys only. *)
Lemma sort_map {A B} (f : A → B) (l : list (bytes * A)) :
  NoDup l.*1 →
  merge_sort key_le (map (λ kv, (kv.1, f kv.2)) l) = map (λ kv, (kv.1, f kv.2)) (merge_sort key_le l).
Proof.
  intros Hnd. apply (Sorted_unique_strong key_le).
  - intros x y Hx Hy Hxy Hyx. rewrite merge_sort_Permutation in Hx.
    assert (y ∈ map (λ kv, (kv.1, f kv.2)) l) as Hy'.
    { apply list_elem_of_In, in_map_iff in Hy as (z & <- & Hz). apply list_elem_of_In, in_map_iff.
      exists z. split; [done|]. apply list_elem_of_In. apply list_elem_of_In in Hz.
      by rewrite merge_sort_Permutation in Hz. }
    assert (x.1 = y.1) as Ek by (by apply bytes_leb_antisym).
    apply list_elem_of_lookup in Hx as [i Hi]. apply list_elem_of_lookup in Hy' as [j Hj].
    assert (NoDup (map (λ kv : bytes * A, (kv.1, f kv.2)) l).*1) as Hnd'.
    { change (map ?g l) with (g <$> l). by rewrite <-list_fmap_compose. }
    assert (i = j) as <-; [|congruence].
    eapply NoDup_lookup; [exact Hnd'|..]; rewrite list_lookup_fmap; [by rewrite Hi|by rewrite Hj, Ek].
  - apply Sorted_merge_sort, _.
  - assert (Sorted key_le (merge_sort key_le l)) as Hs
      by (apply Sorted_merge_sort, _).
    induction Hs as [|x k Hk IH Hh]; [constructor|]. cbn [map]. constructor; [done|].
    destruct Hh; constructor. done.
  - rewrite merge_sort_Permutation. change (map ?g ?k) with (g <$> k). by rewrite merge_sort_Permutation.
Qed.

Lemma ok_payload_arr l : ok_payload (JArr l) ↔ Forall ok_payload l.
Proof.
  cbn [ok_payload]. induction l as [|v l IH]; [by split|]. rewrite Forall_cons. cbn [foldr]. by rewrite <-IH.
Qed.
Lemma ok_payload_obj l :
  ok_payload (JObj l) ↔ NoDup l.*1 ∧ Forall (λ kv, valid_utf8 kv.1 ∧ ok_payload kv.2) l.
Proof.
  cbn [ok_payload]. apply and_iff_compat_l.
  induction l as [|v l IH]; [by split|]. rewrite Forall_cons. cbn [foldr]. by rewrite <-IH.
Qed.

Lemma ok_json_arr l : ok_json (JArr l) ↔ Forall ok_json l.
Proof.
  cbn [ok_json]. induction l as [|v l IH]; [by split|]. rewrite Forall_cons. cbn [foldr]. by rewrite <-IH.
Qed.

Lemma ok_payload_json v : ok_payload v → ok_json v.
Proof.
  induction v as [|b|lit|s|l IH|l IH] using json_nested_ind; intros Hv; try done.
  - by apply canonical_number_ok.
  - apply ok_json_arr. apply ok_payload_arr in Hv. rewrite Forall_forall in *. eauto.
  - apply ok_json_obj. apply ok_payload_obj in Hv as [_ Hv]. rewrite Forall_forall in *.
    intros kv Hin. split; [by apply Hv|]. apply (IH kv Hin), Hv, Hin.
Qed.

(** The code writes the canonical value. *)
Lemma canonicalMarshal_eq v : ok_payload v → canonicalMarshal v = marshal (canonical v).
Proof.
  induction v as [|b|lit|s|l IH|l IH] using json_nested_ind; intros Hv; try done.
  - by apply canonical_number_ok.
  - apply ok_payload_arr in Hv. cbn [canonicalMarshal canonical marshal]. unfold marshalArray.
    rewrite map_map. do 3 f_equal. apply map_ext_in. intros v Hin%list_elem_of_In.
    rewrite Forall_forall in *. by apply IH, Hv.
  - apply ok_payload_obj in Hv as [Hnd Hv]. cbn [canonicalMarshal canonical]. unfold JMap.
    cbn [marshal]. unfold marshalSortedMap.
    rewrite last_fields_nodup by (change (map ?g l) with (g <$> l); by rewrite <-list_fmap_compose).
    change (merge_sort field_le) with (merge_sort (@key_le json)).
    rewrite !sort_map, !map_map by done. do 3 f_equal. apply map_ext_in.
    intros kv Hin%list_elem_of_In. cbn [fst snd]. do 2 f_equal.
    rewrite merge_sort_Permutation in Hin. rewrite Forall_forall in *. apply IH; [done|]. by apply Hv.
Qed.

Lemma ok_json_canonical v : ok_payload v → ok_json (canonical v).
Proof.
  induction v as [|b|lit|s|l IH|l IH] using json_nested_ind; intros Hv; try done.
  - by apply canonical_number_ok.
  - apply ok_payload_arr in Hv. apply ok_json_arr, Forall_map.
    rewrite Forall_forall in *. intros v Hin. exact (IH v Hin (Hv v Hin)).
  - apply ok_payload_obj in Hv as [_ Hv]. apply ok_json_map, Forall_map.
    rewrite Forall_forall in *. intros kv Hin. destruct (Hv kv Hin) as [? ?]. split; [done|]. by apply (IH kv Hin).
Qed.

Lemma numbers_fit_ok v : ok_payload v → numbers_fit v = true.
Proof.
  induction v as [|b|lit|s|l IH|l IH] using json_nested_ind; intros Hv; try done.
  - destruct Hv as (z & Hz & ->). cbn. unfold number_fits. by destruct (int_lit_ok z) as [_ ->]; [lia|].
  - apply ok_payload_arr in Hv. cbn. apply forallb_forall. intros v Hin%list_elem_of_In.
    rewrite Forall_forall in *. by apply IH, Hv.
  - apply ok_payload_obj in Hv as [_ Hv]. cbn. apply forallb_forall. intros kv Hin%list_elem_of_In.
    rewrite Forall_forall in *. by apply IH, Hv.
Qed.

Lemma CanonicalJSON_ok v : ok_payload v → CanonicalJSON v = Some (marshal (canonical v)).
Proof.
  intros Hv. unfold CanonicalJSON. rewrite parse_marshal by (by apply ok_payload_json).
  by rewrite numbers_fit_ok, canonicalMarshal_eq.
Qed.

(** ** Lemmas: payloads that differ in the order of fields *)

Lemma JMap_perm l k : NoDup l.*1 → l ≡ₚ k → JMap l = JMap k.
Proof. intros Hnd Hp. unfold JMap. f_equal. by apply sort_unique. Qed.

Lemma same_json_canonical v : ∀ w, ok_payload v → same_json v w → canonical v = canonical w.
Proof.
  induction v as [|b|lit|s|l IH|l IH] using json_nested_ind; intros w Hv Hs; inversion Hs; subst; try done.
  - cbn [canonical]. f_equal. apply ok_payload_arr in Hv. clear Hs.
    induction H0 as [|x y l k Hxy Hlk IHl]; [done|].
    apply Forall_cons in IH as [Hx IH]. apply Forall_cons in Hv as [Hx' Hv].
    cbn [map]. f_equal; [by apply Hx|by apply IHl].
  - match goal with Hf : Forall2 _ l ?m, Hq : ?m ≡ₚ _ |- _ => rename Hf into Hlm, Hq into Hmk end.
    apply ok_payload_obj in Hv as [Hnd Hv]. cbn [canonical].
    assert (map (λ kv, (kv.1, canonical kv.2)) l = map (λ kv, (kv.1, canonical kv.2)) m) as ->.
    { clear Hs Hnd Hmk. induction Hlm as [|x y l m [Hk Hxy] Hlm IHl]; [done|].
      apply Forall_cons in IH as [Hx IH]. apply Forall_cons in Hv as [[_ Hx'] Hv].
      cbn [map]. rewrite Hk, (Hx y.2 Hx' Hxy). f_equal. by apply IHl. }
    apply JMap_perm; [|by apply Permutation_map].
    change (map ?g m) with (g <$> m). rewrite <-list_fmap_compose.
    assert (m.*1 = l.*1) as Em; [|by change (_ <$> m) with (m.*1); rewrite Em].
    clear -Hlm. induction Hlm as [|x y l m [Hk _] _ IHl]; [done|]. rewrite !fmap_cons. by rewrite Hk, IHl.
Qed.

Lemma same_json_refl v : same_json v v.
Proof.
  induction v as [|b|lit|s|l IH|l IH] using json_nested_ind; try constructor.
  - by apply Forall_Forall2_diag.
  - econstructor; [|done]. apply Forall_Forall2_diag. eapply Forall_impl; [exact IH|]. done.
Qed.

Lemma canonical_same_json v : ∀ w, canonical v = canonical w → same_json v w.
Proof.
  induction v as [|b|lit|s|l IH|l IH] using json_nested_ind; intros w Hc;
    destruct w as [|b'|lit'|s'|k|k]; try discriminate Hc; try (injection Hc as ->; constructor).
  - constructor.
  - cbn [canonical] in Hc. injection Hc as Hc. constructor. revert k Hc.
    induction IH as [|x l Hx _ IHl]; intros [|y k] Hc; try discriminate Hc; [constructor|].
    cbn [map] in Hc. injection Hc as Hxy Hlk. constructor; [by apply Hx|by apply IHl].
  - cbn [canonical] in Hc. apply JMap_inj in Hc.
    apply Permutation_map_inv in Hc as (m & Hlm & Hp). econstructor; [|symmetry; exact Hp].
    clear -IH Hlm. revert m Hlm. induction IH as [|x l Hx _ IHl]; intros [|y m] Hlm; try discriminate Hlm;
      [constructor|].
    cbn [map] in Hlm. injection Hlm as Hk Hxy Hlm. constructor; [split; [done|by apply Hx]|by apply IHl].
Qed.

Lemma same_json_sorted v : same_json v (canonical v).
Proof.
  induction v as [|b|lit|s|l IH|l IH] using json_nested_ind; try constructor.
  - induction IH as [|x l Hx _ IHl]; constructor; done.
  - apply (same_obj l (map (λ kv, (kv.1, canonical kv.2)) l)).
    + induction IH as [|x l Hx _ IHl]; constructor; done.
    + symmetry. apply merge_sort_Permutation.
Qed.

(** ** Properties *)

Lemma node_data_inj kind kind' a b :
  Byte.x0a ∉ bytes_of kind → Byte.x0a ∉ bytes_of kind' →
  node_data kind a = node_data kind' b → kind = kind' ∧ a = b.
Proof.
  intros Hk Hk' E. unfold node_data in E.
  pose proof (cut_byte_app Byte.x0a (bytes_of kind) a Hk) as H1.
  pose proof (cut_byte_app Byte.x0a (bytes_of kind') b Hk') as H2.
  cbn [app] in E. rewrite E, H2 in H1. injection H1 as H1 ->. split; [|done]. symmetry. by apply bytes_of_inj.
Qed.


#[local] Existing Instance demo_hash.

Definition demo_v : json := JObj [(bytes_of "b", JInt 1); (bytes_of "a", JArr [JNull; JStr (bytes_of "x")])].
Definition demo_w : json := JObj [(bytes_of "a", JArr [JNull; JStr (bytes_of "x")]); (bytes_of "b", JInt 1)].

Example demo_canonical : CanonicalJSON demo_v = Some (bytes_of "{" ++ [quote] ++ bytes_of "a" ++ [quote]
  ++ bytes_of ":[null," ++ [quote] ++ bytes_of "x" ++ [quote] ++ bytes_of "]," ++ [quote]
  ++ bytes_of "b" ++ [quote] ++ bytes_of ":1}").
Proof. vm_compute. done. Qed.

