(* ===== verification/RefLog.v ===== *)
(** * The reference log (kailab/store/sqlite.go)

    What the sequence of reference updates guarantees: the refs table is what
    the log says, the log is a hash chain per reference, and the identifier of
    the last entry commits to the whole history. *)

From S2P Require Import Prelude Sha1 Json Store.
Local Open Scope Z_scope.

(** ** Steps

    One transaction around one update; a failed one is rolled back.  Targets
    are digests, so they are not empty, and clock and texts are what Go can
    hold and JSON can carry. *)
Section log.
Context `{DriverLaws, Blake3Laws}.

Definition ok_text (s : string) : Prop := valid_utf8 (bytes_of s).
Definition ok_call (ts : Z) (name actor pushID : string) : Prop :=
  - 2^63 ≤ ts < 2^63 ∧ ok_text name ∧ ok_text actor ∧ ok_text pushID.

Inductive ref_step : DB → DB → Prop :=
| step_SetRefFF ts name old new actor pushID d :
    ok_call ts name actor pushID → new ≠ Some [] →
    ref_step d (transact (SetRefFF ts name old new actor pushID) d).1
| step_ForceSetRef ts name new actor pushID d :
    ok_call ts name actor pushID → new ≠ Some [] →
    ref_step d (transact (ForceSetRef ts name new actor pushID) d).1
| step_DeleteRef ts name old actor pushID d :
    ok_call ts name actor pushID →
    ref_step d (transact (DeleteRef ts name old actor pushID) d).1.

Definition reachable (d : DB) : Prop := rtc ref_step empty_db d.

(** ** The invariant *)

(** Each entry names its predecessor and starts from the target it left. *)
Fixpoint chained (prev : option bytes) (target : bytes) (l : list RefHistoryEntry) : Prop :=
  match l with
  | [] => True
  | e :: l => rh_Parent e = prev ∧ slice (rh_Old e) = target ∧
              chained (Some (rh_ID e)) (rh_New e) l
  end.

(** The stored text is the encoding of the entry, and the identifier its
    hash. *)
Definition entry_ok (e : RefHistoryEntry) : Prop :=
  rh_ID e = Blake3Hash (rh_Meta e) ∧
  ∃ pushID extra new, ok_call (rh_Time e) (rh_Ref e) (rh_Actor e) pushID ∧
    extra ∈ [[]; force_mark; delete_mark] ∧ slice new = rh_New e ∧
    rh_Meta e = marshal (historyEntry (rh_Time e) (rh_Actor e) (rh_Ref e) (rh_Old e) new
                           pushID extra (rh_Parent e)).

(** What the log says a reference points to. *)
Definition logged_target (l : list RefHistoryEntry) : option bytes :=
  last l ≫= λ e, if decide (rh_New e = []) then None else Some (rh_New e).

Record log_wf (d : DB) : Prop := mk_log_wf {
  lw_ids : NoDup (rh_ID <$> db_ref_history d);
  lw_entries : Forall entry_ok (db_ref_history d);
  lw_chain : ∀ name, chained None [] (history_of name d);
  lw_seq : StronglySorted Z.lt (rh_Seq <$> db_ref_history d);
  lw_counter : Forall (λ e, rh_Seq e ≤ db_history_seq d) (db_ref_history d);
  lw_refs : ∀ name, ref_Target <$> db_refs d !! name = logged_target (history_of name d);
}.

Lemma chained_snoc prev target l e :
  chained prev target (l ++ [e]) ↔
  chained prev target l ∧
  rh_Parent e = (match last l with Some x => Some (rh_ID x) | None => prev end) ∧
  slice (rh_Old e) = (match last l with Some x => rh_New x | None => target end).
Proof.
  revert prev target. induction l as [|x l IH]; intros prev target; cbn [app chained].
  - cbn. tauto.
  - rewrite IH. destruct l as [|y l]; [cbn; tauto|].
    change (last (x :: y :: l)) with (last (y :: l)).
    destruct (last (y :: l)) eqn:E; [tauto|]. by apply last_None in E.
Qed.

Lemma scan_hash data : scan_blob (Blake3Hash data) = Some (Blake3Hash data).
Proof.
  apply scan_nonempty. intros E. pose proof (blake3_length data) as Hl.
  unfold Blake3Hash in E. by rewrite E in Hl.
Qed.

Lemma scan_slice b : slice (scan_blob b) = b.
Proof.
  destruct b as [|x b]; [by destruct scan_empty as [->| ->]|]. by rewrite scan_nonempty.
Qed.

(** Under the invariant the driver's nil slices carry no information. *)
Lemma parent_of_wf d name :
  log_wf d → parent_of d name = rh_ID <$> last (history_of name d).
Proof.
  intros W. unfold parent_of. destruct (last (history_of name d)) as [e|] eqn:E; [|done].
  cbn. apply last_Some_elem_of, list_elem_of_filter in E as [_ Hin].
  pose proof (lw_entries d W) as He. rewrite Forall_forall in He.
  destruct (He e Hin) as [-> _]. apply scan_hash.
Qed.

Lemma current_wf d name :
  log_wf d → slice (current d name)
    = match last (history_of name d) with Some e => rh_New e | None => [] end.
Proof.
  intros W. pose proof (lw_refs d W name) as Hr. unfold current, logged_target in *.
  destruct (db_refs d !! name) as [r|]; cbn in *.
  - rewrite scan_slice. destruct (last _) as [e|]; [|done]. cbn in Hr. case_decide; congruence.
  - destruct (last _) as [e|]; [|done]. cbn in Hr. by case_decide.
Qed.

Lemma history_of_snoc name d l e :
  db_ref_history d = l ++ [e] →
  history_of name d = filter (λ e, rh_Ref e = name) l ++ (if decide (rh_Ref e = name) then [e] else []).
Proof.
  intros E. unfold history_of. rewrite E, filter_app. done.
Qed.

(** One appended entry with the matching change of the refs table. *)
Lemma append_log_wf d d1 ts actor name old new jnew pushID extra d' :
  log_wf d → ok_call ts name actor pushID → extra ∈ [[]; force_mark; delete_mark] →
  slice jnew = new → slice old = slice (current d name) →
  (∃ refs, d1 = set_refs refs d ∧
     (∀ n, n ≠ name → refs !! n = db_refs d !! n) ∧
     ref_Target <$> refs !! name = (if decide (new = []) then None else Some new)) →
  append_log (log_entry d ts actor name old new jnew pushID extra) d1 = (d', Ok ()) →
  log_wf d'.
Proof.
  intros W Hcall Hx Hj Ho (refs & -> & Hrn & Hrt) Ha. unfold append_log in Ha.
  case_decide as Hid; [done|]. injection Ha as <-.
  set (e := log_entry _ _ _ _ _ _ _ _ _) in *.
  set (d' := set_history _ _ _).
  assert (db_ref_history d' = db_ref_history d ++ [e]) as Eh by done.
  assert (∀ n, history_of n d' = history_of n d ++ (if decide (name = n) then [e] else []))
    as Ehn by (intros n; by rewrite (history_of_snoc n d' _ _ Eh)).
  assert (entry_ok e) as He.
  { split; [done|]. exists pushID, extra, jnew. done. }
  split.
  - rewrite Eh, fmap_app. apply NoDup_app. split; [apply W|]. split; [|apply NoDup_singleton].
    intros x Hx' Hx2. apply list_elem_of_singleton in Hx2 as ->. by apply Hid.
  - rewrite Eh. apply Forall_app. split; [apply W|]. by apply Forall_singleton.
  - intros n. rewrite Ehn.
    destruct (decide (name = n)) as [<-|Hn]; [|rewrite app_nil_r; apply W].
    apply chained_snoc. split; [apply W|].
    change (rh_Parent e) with (parent_of d name). change (rh_Old e) with old.
    rewrite Ho, current_wf, parent_of_wf by done.
    destruct (last (history_of name d)); done.
  - rewrite Eh, fmap_app. apply StronglySorted_app_2; [|apply W|by repeat constructor].
    intros x y Hx1 Hy. apply list_elem_of_singleton in Hy as ->.
    apply list_elem_of_fmap in Hx1 as (e0 & -> & Hin).
    pose proof (lw_counter d W) as Hc. rewrite Forall_forall in Hc. specialize (Hc _ Hin).
    change (rh_Seq e) with (db_history_seq d + 1). lia.
  - rewrite Eh. change (db_history_seq d') with (db_history_seq d + 1). apply Forall_app. split.
    + eapply Forall_impl; [apply (lw_counter d W)|]. cbn. intros x Hx1. lia.
    + apply Forall_singleton. done.
  - intros n. rewrite Ehn. change (db_refs d') with refs.
    destruct (decide (name = n)) as [<-|Hn].
    + unfold logged_target. by rewrite last_snoc.
    + rewrite app_nil_r, Hrn by done. apply W.
Qed.

Lemma empty_wf : log_wf empty_db.
Proof.
  split; [apply NoDup_nil_2|apply Forall_nil_2|done|constructor|apply Forall_nil_2|].
  intros name. done.
Qed.

Lemma ref_step_wf d d' : ref_step d d' → log_wf d → log_wf d'.
Proof.
  intros Hs W. destruct Hs as [ts name old new actor push d Hc Hn|ts name new actor push d Hc Hn
                              |ts name old actor push d Hc]; unfold transact.
  - rewrite SetRefFF_eq. case_decide as Hx; [|done]. destruct new as [t|]; [|done].
    destruct (append_log _ _) as [d' [[]|e|]] eqn:E; [|done..]. cbn.
    eapply append_log_wf in E; [done|done|done|set_solver|done|by rewrite Hx|].
    eexists; split; [done|]. split; [intros n ?; by apply lookup_insert_ne|].
    rewrite lookup_insert_eq. cbn. rewrite decide_False; congruence.
  - rewrite ForceSetRef_eq. destruct new as [t|]; [|done].
    destruct (append_log _ _) as [d' [[]|e|]] eqn:E; [|done..]. cbn.
    eapply append_log_wf in E; [done|done|done|set_solver|done|done|].
    eexists; split; [done|]. split; [intros n ?; by apply lookup_insert_ne|].
    rewrite lookup_insert_eq. cbn. rewrite decide_False; congruence.
  - rewrite DeleteRef_eq. destruct (db_refs d !! name) as [r|] eqn:Er; [|done].
    case_decide as Hx; [|done].
    destruct (append_log _ _) as [d' [[]|e|]] eqn:E; [|done..]. cbn.
    eapply append_log_wf in E; [done|done|done|set_solver|done|done|].
    eexists; split; [done|]. split; [intros n ?; by apply lookup_delete_ne|].
    by rewrite lookup_delete_eq.
Qed.

Lemma reachable_wf d : reachable d → log_wf d.
Proof.
  unfold reachable. intros Hr. pose proof empty_wf as W. revert W.
  induction Hr as [|x y z Hs _ IH]; intros W; [done|]. apply IH. by eapply ref_step_wf.
Qed.

(** ** Commitment *)

Lemma hex_bytes_inj a b : hex_encode_bytes a = hex_encode_bytes b → a = b.
Proof. intros E. apply hex_encode_inj. unfold hex_encode. by rewrite E. Qed.

Definition entry_fields ts actor name old new pushID extra (parent : option bytes)
  : list (bytes * json) :=
  [(bytes_of "time", JInt ts); str_field "actor" actor; str_field "ref" name;
   hex_field "old" old; hex_field "new" new; str_field "pushId" pushID] ++ extra
  ++ match parent with Some _ => [hex_field "parent" parent] | None => [] end.

Lemma entry_fields_ok ts actor name old new pushID extra parent :
  ok_call ts name actor pushID → extra ∈ [[]; force_mark; delete_mark] →
  Forall ok_field (entry_fields ts actor name old new pushID extra parent).
Proof.
  intros (Ht & Hn & Ha & Hp) Hx. unfold entry_fields.
  repeat (apply Forall_app; split); repeat apply Forall_cons_2; try apply Forall_nil_2;
    try (split; [by apply valid_utf8_ascii|apply hex_encode_bytes_utf8||done]).
  - split; [by apply valid_utf8_ascii|]. by apply int_lit_ok.
  - repeat (apply elem_of_cons in Hx as [->|Hx]; [by repeat constructor; apply valid_utf8_ascii|]).
    by apply elem_of_nil in Hx.
  - destruct parent; [|apply Forall_nil_2]. apply Forall_singleton.
    split; [by apply valid_utf8_ascii|apply hex_encode_bytes_utf8].
Qed.

(** The value of a field in a list with known keys. *)
Lemma fields_value (l k : list (bytes * json)) key v w :
  l ≡ₚ k → (key, v) ∈ l → Forall (λ kv, kv.1 = key → kv.2 = w) k → v = w.
Proof.
  intros Hp Hin Hk. rewrite Hp in Hin. rewrite Forall_forall in Hk. by apply (Hk _ Hin).
Qed.

(** The parent field is there exactly when there is a parent. *)
Lemma parent_fields ts actor name old new pushID extra parent :
  extra ∈ [[]; force_mark; delete_mark] →
  ∀ p, hex_field "parent" p ∈ entry_fields ts actor name old new pushID extra parent ↔
       ∃ q, parent = Some q ∧ slice p = q.
Proof.
  intros Hx p. unfold entry_fields. rewrite !elem_of_app. split.
  - intros [Hin|[Hin|Hin]].
    + repeat (apply elem_of_cons in Hin as [[=]|Hin]). by apply elem_of_nil in Hin.
    + repeat (apply elem_of_cons in Hx as [->|Hx];
        [repeat (apply elem_of_cons in Hin as [[=]|Hin]); by apply elem_of_nil in Hin|]).
      by apply elem_of_nil in Hx.
    + destruct parent as [q|]; [|by apply elem_of_nil in Hin].
      apply list_elem_of_singleton in Hin. unfold hex_field in Hin.
      injection Hin as Hin. apply hex_bytes_inj in Hin. by exists q.
  - intros (q & -> & Hq). right. right. apply list_elem_of_singleton.
    unfold hex_field. by rewrite Hq.
Qed.

Lemma historyEntry_inj ts actor name old new pushID extra parent
    ts' actor' name' old' new' pushID' extra' parent' :
  ok_call ts name actor pushID → ok_call ts' name' actor' pushID' →
  extra ∈ [[]; force_mark; delete_mark] → extra' ∈ [[]; force_mark; delete_mark] →
  marshal (historyEntry ts actor name old new pushID extra parent)
  = marshal (historyEntry ts' actor' name' old' new' pushID' extra' parent') →
  ts = ts' ∧ actor = actor' ∧ name = name' ∧ slice old = slice old' ∧
  slice new = slice new' ∧ pushID = pushID' ∧ slice parent = slice parent' ∧
  is_nil parent = is_nil parent'.
Proof.
  intros Hc Hc' Hx Hx' Hm.
  pose proof (marshal_map_inj _ _ (entry_fields_ok _ _ _ old new _ _ parent Hc Hx)
                (entry_fields_ok _ _ _ old' new' _ _ parent' Hc' Hx') Hm) as Hp.
  unfold entry_fields in Hp.
  assert (∀ key v w,
    (key, v) ∈ [(bytes_of "time", JInt ts); str_field "actor" actor; str_field "ref" name;
      hex_field "old" old; hex_field "new" new; str_field "pushId" pushID] →
    Forall (λ kv, kv.1 = key → kv.2 = w)
      (entry_fields ts' actor' name' old' new' pushID' extra' parent') → v = w) as Hv.
  { intros key v w Hin Hk. eapply fields_value; [exact Hp| |exact Hk].
    apply elem_of_app. by left. }
  assert (∀ key w, key ∉ [bytes_of "force"; bytes_of "delete"; bytes_of "parent"] →
    Forall (λ kv : bytes * json, kv.1 = key → kv.2 = w)
      (extra' ++ match parent' with Some _ => [hex_field "parent" parent'] | None => [] end))
    as Hrest.
  { intros key w Hkey. rewrite !not_elem_of_cons in Hkey. destruct Hkey as (N1 & N2 & N3 & _).
    apply Forall_app. split.
    - repeat (apply elem_of_cons in Hx' as [->|Hx']; [repeat constructor; by intros <-|]).
      by apply elem_of_nil in Hx'.
    - destruct parent'; repeat constructor. by intros <-. }
  assert (∀ key v w,
    (key, v) ∈ [(bytes_of "time", JInt ts); str_field "actor" actor; str_field "ref" name;
      hex_field "old" old; hex_field "new" new; str_field "pushId" pushID] →
    key ∉ [bytes_of "force"; bytes_of "delete"; bytes_of "parent"] →
    Forall (λ kv : bytes * json, kv.1 = key → kv.2 = w)
      [(bytes_of "time", JInt ts'); str_field "actor" actor'; str_field "ref" name';
       hex_field "old" old'; hex_field "new" new'; str_field "pushId" pushID'] → v = w) as Hv'.
  { intros key v w Hin Hkey Hk. apply (Hv key v w Hin). apply Forall_app.
    split; [done|by apply Hrest]. }
  clear Hrest Hv.
  assert (JInt ts = JInt ts') as E1
    by (apply (Hv' (bytes_of "time")); [set_solver|set_solver|by repeat constructor]).
  assert (JStr (bytes_of actor) = JStr (bytes_of actor')) as E2
    by (apply (Hv' (bytes_of "actor")); [set_solver|set_solver|by repeat constructor]).
  assert (JStr (bytes_of name) = JStr (bytes_of name')) as E3
    by (apply (Hv' (bytes_of "ref")); [set_solver|set_solver|by repeat constructor]).
  assert (JStr (bytes_of pushID) = JStr (bytes_of pushID')) as E4
    by (apply (Hv' (bytes_of "pushId")); [set_solver|set_solver|by repeat constructor]).
  assert (JStr (hex_encode_bytes (slice old)) = JStr (hex_encode_bytes (slice old'))) as E5
    by (apply (Hv' (bytes_of "old")); [set_solver|set_solver|by repeat constructor]).
  assert (JStr (hex_encode_bytes (slice new)) = JStr (hex_encode_bytes (slice new'))) as E6
    by (apply (Hv' (bytes_of "new")); [set_solver|set_solver|by repeat constructor]).
  apply JInt_inj in E1; [|apply Hc|apply Hc'].
  injection E2 as E2%(inj bytes_of). injection E3 as E3%(inj bytes_of).
  injection E4 as E4%(inj bytes_of). injection E5 as E5%hex_bytes_inj.
  injection E6 as E6%hex_bytes_inj.
  pose proof (parent_fields ts actor name old new pushID extra parent Hx) as P1.
  pose proof (parent_fields ts' actor' name' old' new' pushID' extra' parent' Hx') as P2.
  assert (∀ p, hex_field "parent" p ∈ entry_fields ts actor name old new pushID extra parent ↔
    hex_field "parent" p ∈ entry_fields ts' actor' name' old' new' pushID' extra' parent') as Hpp.
  { intros p. unfold entry_fields. by rewrite Hp. }
  repeat (split; [done|]).
  destruct parent as [x|], parent' as [y|]; [| | |done].
  - destruct (proj1 (P2 (Some x))) as (? & [= <-] & Hs); [|by rewrite Hs].
    apply Hpp, P1. by eexists.
  - destruct (proj1 (P2 (Some x))) as (? & [=] & _). apply Hpp, P1. by eexists.
  - destruct (proj1 (P1 (Some y))) as (? & [=] & _). apply Hpp, P2. by eexists.
Qed.

(** An entry without its row number. *)
Definition content (e : RefHistoryEntry) :=
  (rh_ID e, rh_Parent e, rh_Time e, rh_Actor e, rh_Ref e, slice (rh_Old e), rh_New e, rh_Meta e).

Lemma chain_commits l1 l2 :
  Forall entry_ok l1 → Forall entry_ok l2 → chained None [] l1 → chained None [] l2 →
  (∀ e1 e2, e1 ∈ l1 → e2 ∈ l2 → Blake3Hash (rh_Meta e1) = Blake3Hash (rh_Meta e2) →
     rh_Meta e1 = rh_Meta e2) →
  rh_ID <$> last l1 = rh_ID <$> last l2 → content <$> l1 = content <$> l2.
Proof.
  revert l2. induction l1 as [|e1 l1 IH] using rev_ind; intros l2 L1 L2 C1 C2 Hcol Hlast.
  { destruct l2 as [|e2 l2 _] using rev_ind; [done|]. by rewrite last_snoc in Hlast. }
  rewrite last_snoc in Hlast. destruct l2 as [|e2 l2 _] using rev_ind; [done|].
  rewrite last_snoc in Hlast. cbn in Hlast. injection Hlast as Hid.
  apply Forall_app in L1 as [L1 [I1 (p1 & x1 & n1 & K1 & X1 & N1 & M1)]%Forall_singleton].
  apply Forall_app in L2 as [L2 [I2 (p2 & x2 & n2 & K2 & X2 & N2 & M2)]%Forall_singleton].
  apply chained_snoc in C1 as (C1 & P1 & O1). apply chained_snoc in C2 as (C2 & P2 & O2).
  assert (rh_Meta e1 = rh_Meta e2) as Em.
  { apply Hcol; [set_solver|set_solver|congruence]. }
  pose proof Em as Em'. rewrite M1, M2 in Em'.
  apply historyEntry_inj in Em' as (T & A & R & O & N & _ & P & Pn); [|done..].
  assert (rh_Parent e1 = rh_Parent e2) as Ep.
  { destruct (rh_Parent e1), (rh_Parent e2); cbn in *; congruence. }
  rewrite !fmap_app. f_equal.
  - apply IH; [done|done|done|done| |].
    + intros a b Ha Hb. apply Hcol; set_solver.
    + rewrite P1, P2 in Ep. destruct (last l1), (last l2); cbn in *; congruence.
  - cbn. unfold content. by rewrite Hid, Ep, T, A, R, O, <-N1, <-N2, N, Em.
Qed.
End log.

(** ** Properties *)

(** C5: a reference update is a compare-and-swap.  [SetRefFF] succeeds only if
    the expected old target is what the table holds (nil meaning that there is
    no such reference); it then stores the new target, changes no other
    reference, and appends one log entry that records both targets, whose
    identifier is the hash of its text and whose parent is the previous entry
    of the reference.  On a mismatch nothing changes, and if the expectation
    holds the call can only fail on a nil new target or a repeated log
    identifier. *)
Theorem SetRefFF_spec `{DriverLaws, Blake3Laws} (ts : Z) (name : string)
    (old new : option bytes) (actor pushID : string) (d : DB) :
  log_wf d →
  match transact (SetRefFF ts name old new actor pushID) d with
  | (d', Ok _) =>
    old = current d name ∧
    ∃ target e, new = Some target ∧
      db_refs d' = <[name := mk_Ref name target ts actor pushID]> (db_refs d) ∧
      db_ref_history d' = db_ref_history d ++ [e] ∧
      rh_Ref e = name ∧ rh_Old e = old ∧ rh_New e = target ∧
      rh_ID e = Blake3Hash (rh_Meta e) ∧ rh_Parent e = rh_ID <$> last (history_of name d)
  | (d', Err err) =>
    d' = d ∧
    (err = ErrRefMismatch ∧ old ≠ current d name ∨
     old = current d name ∧ (err = ErrNotNull "refs.target" ∧ new = None ∨
                             err = ErrUnique "ref_history.id"))
  | (_, Panic) => False
  end.
Proof.
  intros W. unfold transact. rewrite SetRefFF_eq. unfold expects.
  case_decide as Hx; [|by split; [|left]].
  destruct new as [t|]; [|split; [done|]; by right; split; [|left]].
  unfold append_log. case_decide; [split; [done|]; by right; split; [|right]|].
  split; [done|]. eexists t, _. do 7 (split; [done|]). by apply parent_of_wf.
Qed.

(** C2: the refs table follows the log.  After any sequence of updates,
    forced updates and deletions, successful or not, every reference points to
    what the last log entry of its name says - to nothing if there is none or
    it is a deletion -, every entry of a name continues the entry before it,
    by identifier and by target, and log identifiers are unique and row
    numbers increase. *)
Theorem refs_follow_log `{DriverLaws, Blake3Laws} (d : DB) :
  reachable d →
  (∀ name, ref_Target <$> db_refs d !! name = logged_target (history_of name d) ∧
           chained None [] (history_of name d)) ∧
  NoDup (rh_ID <$> db_ref_history d) ∧ StronglySorted Z.lt (rh_Seq <$> db_ref_history d).
Proof.
  intros Hr%reachable_wf. split; [|split; apply Hr].
  intros name. split; apply Hr.
Qed.

(** C1: the log head commits to the history.  If two stores, after any
    updates, have the same identifier on the last log entry of a reference,
    and the hash does not collide on the texts of their entries for it, their
    histories of that reference agree in every field but the row number. *)
Theorem log_head_commits `{DriverLaws, Blake3Laws} (d1 d2 : DB) (name : string) :
  reachable d1 → reachable d2 →
  (∀ e1 e2, e1 ∈ history_of name d1 → e2 ∈ history_of name d2 →
     Blake3Hash (rh_Meta e1) = Blake3Hash (rh_Meta e2) → rh_Meta e1 = rh_Meta e2) →
  rh_ID <$> last (history_of name d1) = rh_ID <$> last (history_of name d2) →
  content <$> history_of name d1 = content <$> history_of name d2.
Proof.
  intros W1%reachable_wf W2%reachable_wf Hcol Hlast.
  apply chain_commits; [| |apply W1|apply W2|done|done]; apply Forall_filter_of; [apply W1|apply W2].
Qed.

#[local] Existing Instances demo_driver demo_hash demo_driver_laws demo_hash_laws.

Definition demo_target : bytes := bytes_of "target".
Definition log_one : DB :=
  (transact (SetRefFF 5 "snap.main" None (Some demo_target) "bob" "p1") empty_db).1.
Definition log_two : DB :=
  (transact (ForceSetRef 6 "snap.dev" (Some demo_target) "eve" "p2") log_one).1.

Lemma demo_call ts name actor push :
  (ts =? 5) || (ts =? 6) = true → is_ascii (bytes_of name) = true →
  is_ascii (bytes_of actor) = true → is_ascii (bytes_of push) = true →
  ok_call ts name actor push.
Proof.
  intros Ht Hn Ha Hp. apply orb_true_iff in Ht. split; [destruct Ht; bool_to_prop; lia|].
  split; [by apply valid_utf8_ascii|]. split; by apply valid_utf8_ascii.
Qed.

Lemma log_one_reachable : reachable log_one.
Proof. apply rtc_once, step_SetRefFF; [by apply demo_call|done]. Qed.
Lemma log_two_reachable : reachable log_two.
Proof.
  eapply rtc_r; [apply log_one_reachable|].
  apply step_ForceSetRef; [by apply demo_call|done].
Qed.

Lemma SetRefFF_spec_witness :
  ∃ d', transact (SetRefFF 5 "snap.main" (Some []) (Some demo_target) "bob" "p1") log_one
        = (d', Err ErrRefMismatch) ∧ d' = log_one.
Proof.
  pose proof (SetRefFF_spec 5 "snap.main" (Some []) (Some demo_target) "bob" "p1" log_one
    (reachable_wf _ log_one_reachable)) as H.
  assert ((transact (SetRefFF 5 "snap.main" (Some []) (Some demo_target) "bob" "p1") log_one).2
          = Err ErrRefMismatch) as E by (vm_compute; reflexivity).
  revert H E. generalize (transact (SetRefFF 5 "snap.main" (Some []) (Some demo_target) "bob" "p1") log_one).
  intros [d' r] H E. cbn in E. subst r. exists d'. split; [reflexivity|apply H].
Defined.

Lemma refs_follow_log_witness :
  reachable log_two ∧ ref_Target <$> db_refs log_two !! "snap.dev" = Some demo_target ∧
  NoDup (rh_ID <$> db_ref_history log_two).
Proof.
  split; [exact log_two_reachable|]. split; [vm_compute; reflexivity|].
  apply (refs_follow_log log_two log_two_reachable).
Defined.

Lemma log_head_commits_witness :
  content <$> history_of "snap.main" log_one = content <$> history_of "snap.main" log_two.
Proof.
  apply (log_head_commits log_one log_two "snap.main" log_one_reachable log_two_reachable).
  - intros e1 e2 H1 H2 _.
    assert (history_of "snap.main" log_two = history_of "snap.main" log_one) as E
      by (vm_compute; reflexivity).
    rewrite E in H2.
    assert (∃ e, history_of "snap.main" log_one = [e]) as [e Ee]
      by (eexists; vm_compute; reflexivity).
    rewrite Ee in H1, H2. apply list_elem_of_singleton in H1, H2. by subst.
  - vm_compute. reflexivity.
Defined.
