(* ===== verification/StoreProps.v ===== *)
(** * Queries, the enrichment queue and edges (kailab/store/sqlite.go)

    Properties of the parts of the store that do not touch the reference
    log. *)

From S2P Require Import Prelude Json Store.
Local Open Scope Z_scope.

(** ** Enrichment queue *)

Inductive queue_op :=
| OpEnqueue (ts : Z) (nodeID : bytes) (kind : string)
| OpClaim (ts : Z)
| OpComplete (ts id : Z) (errMsg : string).

(** A run of operations, with the items the claims handed out. *)
Fixpoint run_queue (ops : list queue_op) (d : DB) : res store_error (DB * list EnrichQueueItem) :=
  match ops with
  | [] => Ok (d, [])
  | op :: ops =>
    let '(d, r) := match op with
      | OpEnqueue ts nodeID kind => (_ ← EnqueueForEnrichment ts nodeID kind; mret None) d
      | OpClaim ts => ClaimEnrichmentItem ts d
      | OpComplete ts id errMsg => (_ ← CompleteEnrichmentItem ts id errMsg; mret None) d
      end in
    item ← r;
    '(d, items) ← run_queue ops d;
    Ok (d, match item with Some it => it :: items | None => items end)
  end.

Definition pending (it : EnrichQueueItem) : Prop := eq_Status it = "pending".

(** Keys increase and stay below the counter; [low] bounds what was claimed. *)
Record queue_ok (low : Z) (d : DB) : Prop := mk_queue_ok {
  qo_sorted : StronglySorted Z.lt (eq_ID <$> db_enrich_queue d);
  qo_counter : Forall (λ it, eq_ID it ≤ db_queue_seq d) (db_enrich_queue d);
  qo_low : Forall (λ it, pending it → low < eq_ID it) (db_enrich_queue d);
  qo_seq : low ≤ db_queue_seq d;
}.

Lemma queue_ok_update low d id f :
  queue_ok low d → (∀ it, eq_ID (f it) = eq_ID it) →
  (∀ it, pending (f it) → pending it) →
  queue_ok low (update_item id f d).1.
Proof.
  intros [Q1 Q2 Q3 Q4] Hid Hp. cbn.
  assert (∀ it, eq_ID (if eq_ID it =? id then f it else it) = eq_ID it) as E.
  { intros it. destruct (eq_ID it =? id); [apply Hid|done]. }
  split; cbn; [|apply Forall_fmap|apply Forall_fmap|done].
  - rewrite <-list_fmap_compose.
    replace (eq_ID <$> db_enrich_queue d) with
      (eq_ID ∘ (λ it, if eq_ID it =? id then f it else it) <$> db_enrich_queue d) in Q1; [done|].
    apply list_fmap_ext. intros ? it _. apply E.
  - eapply Forall_impl; [exact Q2|]. intros it. cbn. by rewrite E.
  - eapply Forall_impl; [exact Q3|]. intros it H. cbn. rewrite E. intros Hpe. apply H.
    destruct (eq_ID it =? id); auto.
Qed.

Lemma queue_ok_weaken low low' d :
  queue_ok low d → low' ≤ low → queue_ok low' d.
Proof.
  intros [Q1 Q2 Q3 Q4] Hl. split; [done|done| |lia].
  eapply Forall_impl; [exact Q3|]. intros it H Hp. specialize (H Hp). lia.
Qed.

Lemma filter_sorted {A} (f : A → Z) (P : A → Prop) `{∀ x, Decision (P x)} l :
  StronglySorted Z.lt (f <$> l) → StronglySorted Z.lt (f <$> filter P l).
Proof.
  induction l as [|x l IH]; [done|]. rewrite fmap_cons, filter_cons.
  intros [Hx Hs]%StronglySorted_cons. case_decide; [|by apply IH].
  rewrite fmap_cons. apply StronglySorted_cons. split; [|by apply IH].
  rewrite Forall_fmap in *. by apply Forall_filter_of.
Qed.

Lemma claim_ok low ts d :
  queue_ok low d →
  match ClaimEnrichmentItem ts d with
  | (d', Ok None) => d' = d ∧ Forall (λ it, ¬ pending it) (db_enrich_queue d)
  | (d', Ok (Some it)) => low < eq_ID it ∧ queue_ok (eq_ID it) d' ∧
      ∃ it0, it0 ∈ db_enrich_queue d ∧ pending it0 ∧ eq_ID it = eq_ID it0
  | _ => False
  end.
Proof.
  intros Q. unfold ClaimEnrichmentItem, transact. st_simpl. cbn [id].
  destruct (filter _ (db_enrich_queue d)) as [|it rest] eqn:E.
  { split; [done|]. apply Forall_forall. intros it Hin Hp.
    assert (it ∈ filter (λ it, eq_Status it = "pending") (db_enrich_queue d)) as Hx
      by (by apply list_elem_of_filter).
    rewrite E in Hx. by apply elem_of_nil in Hx. }
  assert (it ∈ filter (λ it, eq_Status it = "pending") (db_enrich_queue d)) as Hx
    by (rewrite E; left).
  apply list_elem_of_filter in Hx as [Hp Hin].
  pose proof (qo_low _ _ Q) as Hl. rewrite Forall_forall in Hl. specialize (Hl it Hin Hp).
  pose proof (qo_counter _ _ Q) as Hc. rewrite Forall_forall in Hc. specialize (Hc it Hin).
  pose proof (filter_sorted eq_ID (λ it, eq_Status it = "pending") _ (qo_sorted _ _ Q)) as Hs.
  rewrite E, fmap_cons in Hs. apply StronglySorted_cons in Hs as [Hlt _].
  rewrite Forall_fmap, Forall_forall in Hlt.
  set (f := λ it0, mk_EnrichQueueItem _ _ _ _ _ _ _ _).
  assert (queue_ok low (update_item (eq_ID it) f d).1) as [U1 U2 U3 U4].
  { apply queue_ok_update; [done|done|]. intros x Hx. discriminate Hx. }
  cbv [update_item modify] in *. cbn [fst] in *. cbn [eq_ID].
  split; [done|]. split; [|by exists it].
  split; [exact U1|exact U2| |exact Hc]. cbn [db_enrich_queue set_queue].
  apply Forall_fmap, Forall_forall. intros j Hj. cbn. destruct (eq_ID j =? eq_ID it) eqn:Ej.
  { intros Hx. discriminate Hx. }
  intros Hpj. assert (j ∈ it :: rest) as Hjr by (rewrite <-E; by apply list_elem_of_filter).
  apply elem_of_cons in Hjr as [->|Hjr]; [by rewrite Z.eqb_refl in Ej|]. by apply Hlt.
Qed.

Lemma queue_ok_enqueue low ts nodeID kind d :
  queue_ok low d → queue_ok low (EnqueueForEnrichment ts nodeID kind d).1.
Proof.
  intros [Q1 Q2 Q3 Q4]. cbn. split; cbn.
  - rewrite fmap_app. apply StronglySorted_app_2; [|done|by repeat constructor].
    intros x y Hx Hy. apply list_elem_of_singleton in Hy as ->.
    apply list_elem_of_fmap in Hx as (it & -> & Hit). rewrite Forall_forall in Q2.
    specialize (Q2 it Hit). cbn. lia.
  - apply Forall_app. split; [|by apply Forall_singleton].
    eapply Forall_impl; [exact Q2|]. cbn. lia.
  - apply Forall_app. split; [done|]. apply Forall_singleton. cbn. lia.
  - lia.
Qed.

Lemma run_queue_ok ops low d :
  queue_ok low d →
  ∃ d' items, run_queue ops d = Ok (d', items) ∧
    StronglySorted Z.lt (eq_ID <$> items) ∧ Forall (λ it, low < eq_ID it) items.
Proof.
  revert low d. induction ops as [|op ops IH]; intros low d Q.
  { exists d, []. split; [done|]. split; constructor. }
  cbn [run_queue]. destruct op as [ts n k|ts|ts i e].
  - destruct (IH low (EnqueueForEnrichment ts n k d).1) as (d' & items & Hr & Hs & Hl).
    { by apply queue_ok_enqueue. }
    exists d', items. split; [|by split]. st_simpl. cbv [EnqueueForEnrichment modify] in *.
    cbn [fst] in Hr. res_simpl. by rewrite Hr.
  - pose proof (claim_ok low ts d Q) as Hc.
    destruct (ClaimEnrichmentItem ts d) as [d1 [[it|]|e|]]; [| |done|done]; res_simpl.
    + destruct Hc as (Hlt & Q' & _). destruct (IH _ _ Q') as (d' & items & -> & Hs & Hl).
      exists d', (it :: items). split; [done|]. split.
      * rewrite fmap_cons. apply StronglySorted_cons. split; [|done].
        by apply Forall_fmap.
      * apply Forall_cons. split; [done|]. eapply Forall_impl; [exact Hl|]. cbn. lia.
    + destruct Hc as [-> _]. destruct (IH low d Q) as (d' & items & -> & Hs & Hl).
      by exists d', items.
  - destruct (IH low (CompleteEnrichmentItem ts i e d).1) as (d' & items & Hr & Hs & Hl).
    { unfold CompleteEnrichmentItem. case_decide; apply queue_ok_update; try done;
        intros it Hx; discriminate Hx. }
    exists d', items. split; [|by split]. st_simpl. unfold CompleteEnrichmentItem in *.
    case_decide; cbv [update_item modify] in *; cbn [fst] in Hr; res_simpl; by rewrite Hr.
Qed.

(** ** Edges *)

Lemma same_key_refl e : same_key e e = true ↔ edge_At e ≠ None.
Proof. unfold same_key. rewrite bool_decide_eq_true_2 by done. cbn. by rewrite negb_true_iff, bool_decide_eq_false. Qed.

(** ** References by prefix *)

(** A prefix without wildcards matches letter by letter, case ignored. *)
Lemma sql_like_prefix p t :
  Forall no_wildcard p →
  sql_like (p ++ bytes_of "%") t = true ↔ lower <$> p = lower <$> take (length p) t.
Proof.
  intros Hp. rewrite like_word by done. split.
  - intros (u & r & -> & Hf & _). rewrite <-Hf. f_equal. apply (f_equal length) in Hf.
    rewrite !length_fmap in Hf. by rewrite <-Hf, take_app_length.
  - intros E. exists (take (length p) t), (drop (length p) t). rewrite take_drop. split; [done|].
    split; [done|]. change (bytes_of "%") with [Byte.x25]. apply like_percent.
    exists (drop (length p) t), []. by rewrite app_nil_r.
Qed.

Lemma filter_nodup_snoc e l :
  NoDup (filter (λ x, edge_At x ≠ None) l) → (edge_At e ≠ None → e ∉ l) →
  NoDup (filter (λ x, edge_At x ≠ None) (l ++ [e])).
Proof.
  intros Hn He. rewrite filter_app. apply NoDup_app. split; [done|].
  rewrite filter_cons. case_decide as Ha; [|split; [|apply NoDup_nil_2]].
  - split; [|apply NoDup_singleton]. intros x Hx Hx2. apply list_elem_of_singleton in Hx2 as ->.
    apply list_elem_of_filter in Hx as [_ Hx]. by apply He.
  - by intros x _ ?%elem_of_nil.
Qed.

(** What a batch of edges does to the table. *)
Lemma insert_edges_ok ts edges d :
  NoDup (filter (λ e, edge_At e ≠ None) (db_edges d).*1) →
  let d' := foldl (insert_edge ts) d edges in
  NoDup (filter (λ e, edge_At e ≠ None) (db_edges d').*1) ∧
  (∀ e, e ∈ (db_edges d').*1 ↔ e ∈ (db_edges d).*1 ∨ e ∈ edges) ∧
  filter (λ e, edge_At e = None) (db_edges d').*1
    = filter (λ e, edge_At e = None) (db_edges d).*1 ++ filter (λ e, edge_At e = None) edges.
Proof.
  revert d. induction edges as [|e edges IH]; intros d Hn; cbn zeta; cbn [foldl].
  { split; [done|]. split; [|by rewrite app_nil_r]. intros e. split; [by left|].
    by intros [?|?%elem_of_nil]. }
  set (d1 := insert_edge ts d e).
  assert (NoDup (filter (λ e, edge_At e ≠ None) (db_edges d1).*1) ∧
          (∀ x, x ∈ (db_edges d1).*1 ↔ x ∈ (db_edges d).*1 ∨ x = e) ∧
          filter (λ e, edge_At e = None) (db_edges d1).*1
            = filter (λ e, edge_At e = None) (db_edges d).*1
              ++ filter (λ e, edge_At e = None) [e]) as (H1 & H2 & H3).
  { subst d1. unfold insert_edge. destruct (existsb _ _) eqn:E.
    - apply existsb_elem in E as (row & Hrow & Hk). unfold same_key in Hk. bool_to_prop.
      assert (e ∈ (db_edges d).*1) as Hin by (apply list_elem_of_fmap; by exists row; subst).
      split; [done|]. split; [set_solver|].
      rewrite (filter_cons_False _ e []) by done. by rewrite app_nil_r.
    - assert (edge_At e ≠ None → e ∉ (db_edges d).*1) as Hnot.
      { intros Ha (row & -> & Hrow)%list_elem_of_fmap.
        assert (existsb (λ row0, same_key row.1 row0.1) (db_edges d) = true) as Hc; [|congruence].
        apply existsb_elem. exists row. split; [done|]. by apply same_key_refl. }
      cbn [db_edges set_edges]. rewrite fmap_app. cbn [fmap list_fmap fst].
      split; [by apply filter_nodup_snoc|]. split; [|by rewrite filter_app].
      intros x. rewrite elem_of_app, list_elem_of_singleton. done. }
  destruct (IH d1 H1) as (I1 & I2 & I3). split; [done|]. split.
  - intros x. rewrite I2, H2, elem_of_cons. tauto.
  - rewrite I3, H3, <-app_assoc. by rewrite <-filter_app.
Qed.

(** ** Properties *)

(** Existence queries.  Whatever the number of digests, the queries in
    batches of 500 terminate without a panic and answer exactly the requested
    digests that are stored, in hexadecimal. *)
Theorem HasObjects_spec (d : DB) (digests : list bytes) :
  ∃ r, HasObjects d digests = Ok r ∧
    ∀ g, hex_encode g ∈ r ↔ g ∈ digests ∧ is_Some (db_objects d !! g).
Proof.
  unfold HasObjects. destruct (zlen digests =? 0) eqn:E; bool_to_prop.
  - exists ∅. split; [done|]. intros g. destruct digests; [|unfold zlen in E; simpl in E; lia].
    split; [set_solver|]. by intros [?%elem_of_nil _].
  - destruct (HasObjects_loop_ok (length digests) 0 d digests ∅) as (r & Hr & Hx); [lia|].
    exists r. split; [done|]. intros g. rewrite Hx, drop_0, select_digests_elem. split.
    + intros [?|(h & Hh & Hin & Hs)]; [set_solver|]. apply hex_encode_inj in Hh as ->. done.
    + intros [??]. right. by exists g.
Qed.

(** The enrichment queue hands each item out once, oldest first.  For any
    sequence of enqueue, claim and completion calls on a new store, no call
    fails and the keys of the claimed items strictly increase. *)
Theorem claims_increase (ops : list queue_op) :
  ∃ d items, run_queue ops empty_db = Ok (d, items) ∧ StronglySorted Z.lt (eq_ID <$> items).
Proof.
  destruct (run_queue_ok ops 0 empty_db) as (d & items & Hr & Hs & _); [|by exists d, items].
  split; [constructor|constructor|constructor|done].
Qed.

(** Edges with a snapshot are a set, edges without one are not.  Inserting
    a batch into a table without duplicate snapshot edges keeps it so and adds
    exactly the edges of the batch; but every edge without a snapshot is
    appended again each time it is inserted. *)
Theorem InsertEdgesBatch_spec (ts : Z) (edges : list Edge) (d : DB) :
  NoDup (filter (λ e, edge_At e ≠ None) (db_edges d).*1) →
  ∃ d', InsertEdgesBatch ts edges d = (d', Ok ()) ∧
    NoDup (filter (λ e, edge_At e ≠ None) (db_edges d').*1) ∧
    (∀ e, e ∈ (db_edges d').*1 ↔ e ∈ (db_edges d).*1 ∨ e ∈ edges) ∧
    filter (λ e, edge_At e = None) (db_edges d').*1
      = filter (λ e, edge_At e = None) (db_edges d).*1 ++ filter (λ e, edge_At e = None) edges.
Proof.
  intros Hn. pose proof (insert_edges_ok ts edges d Hn) as H. cbn zeta in H.
  unfold InsertEdgesBatch. destruct (zlen edges =? 0) eqn:E.
  - bool_to_prop. destruct edges; [|unfold zlen in E; simpl in E; lia]. by exists d.
  - by exists (foldl (insert_edge ts) d edges).
Qed.

Definition call_edge (at_ : option bytes) : Edge :=
  mk_Edge (bytes_of "f") "CALLS" (bytes_of "g") at_.

Lemma InsertEdgesBatch_spec_witness :
  ∃ d, InsertEdgesBatch 1 [call_edge None; call_edge None] empty_db = (d, Ok ()) ∧
       GetEdgesFrom d (bytes_of "f") "" = [call_edge None; call_edge None] ∧
       (∀ e, e ∈ (db_edges d).*1 ↔ e ∈ ([] : list Edge) ∨ e ∈ [call_edge None; call_edge None]).
Proof.
  destruct (InsertEdgesBatch_spec 1 [call_edge None; call_edge None] empty_db)
    as (d & H1 & _ & H2 & _); [constructor|].
  exists d. split; [exact H1|]. split; [|exact H2].
  assert (d = (InsertEdgesBatch 1 [call_edge None; call_edge None] empty_db).1) as ->
    by (rewrite H1; reflexivity).
  vm_compute. reflexivity.
Defined.

(** Listing by prefix.  For a prefix without the wildcards of LIKE the
    list is in increasing order of names and holds exactly the references
    whose name starts with the prefix, except that ASCII letters match in
    either case. *)
Theorem ListRefs_spec (d : DB) (prefix : string) :
  Forall (λ b, b ≠ Byte.x25 ∧ b ≠ Byte.x5f) (bytes_of prefix) →
  StronglySorted name_le (ListRefs d prefix) ∧
  ∀ r, r ∈ ListRefs d prefix ↔
    (∃ k, db_refs d !! k = Some r) ∧
    lower <$> bytes_of prefix
      = lower <$> take (length (bytes_of prefix)) (bytes_of (ref_Name r)).
Proof.
  intros Hp. unfold ListRefs. split.
  - assert (Total name_le) as Ht by (intros x y; apply (total str_le)).
    assert (Transitive name_le) as Htr by (intros x y z; apply (transitivity (R:=str_le))).
    by apply Sorted_StronglySorted, Sorted_merge_sort.
  - intros r. rewrite merge_sort_Permutation.
    assert (r ∈ (map_to_list (db_refs d)).*2 ↔ ∃ k, db_refs d !! k = Some r) as Hm.
    { rewrite list_elem_of_fmap. split.
      - intros ([k x] & -> & Hin). exists k. by apply elem_of_map_to_list in Hin.
      - intros [k Hk]. exists (k, r). split; [done|]. by apply elem_of_map_to_list. }
    case_decide as E.
    + rewrite Hm, E. cbn. naive_solver.
    + rewrite list_elem_of_filter, Hm, sql_like_prefix by done. tauto.
Qed.

Definition two_refs : DB :=
  set_refs (<["snap.main" := mk_Ref "snap.main" (bytes_of "a") 1 "x" "p"]>
              (<["SNAP.old" := mk_Ref "SNAP.old" (bytes_of "b") 1 "x" "p"]> ∅)) empty_db.

Lemma ListRefs_spec_witness :
  ref_Name <$> ListRefs two_refs "snap." = ["SNAP.old"; "snap.main"] ∧
  StronglySorted name_le (ListRefs two_refs "snap.").
Proof.
  split; [vm_compute; reflexivity|].
  apply (ListRefs_spec two_refs "snap.").
  repeat constructor; discriminate.
Defined.
