(* ===== verification/Segment.v ===== *)
(** * Segments (kailab/pack/segment.go, kailab/proto)

    Building, ingesting and reading packs of content-addressed objects.  The
    pack is a header length, a JSON header and the objects' bytes, compressed
    with zstd, which [Zstd] abstracts. *)

From S2P Require Import Prelude Json Store.
Local Open Scope Z_scope.

(** ** Outside code

    klauspost/compress/zstd: what an encoder emits, and what reading a decoder
    to its end gives: the bytes and whether the stream ended well. *)
Class Zstd := {
  zstd_encode : bytes → bytes;
  zstd_read : bytes → bytes * bool;
}.
Class ZstdLaws `{Zstd} := {
  zstd_read_encode d : zstd_read (zstd_encode d) = (d, true);
}.

(** ** Data *)

Definition HeaderLengthSize : nat := 4.
Definition MaxHeaderSize : Z := 10 * 1024 * 1024.

Record PackObjectEntry := mk_PackObjectEntry {
  pe_Digest : bytes;
  pe_Kind : string;
  pe_Offset : Z;
  pe_Length : Z;
}.

Record PackObject := mk_PackObject {
  po_Digest : bytes;
  po_Kind : string;
  po_Content : bytes;
}.

Inductive segment_error :=
| ErrHeaderLength
| ErrHeaderTooLarge (n : Z)
| ErrReadHeader
| ErrParseHeader
| ErrReadData
| ErrExtendsBeyondData
| ErrDigestMismatch (offset : Z)
| ErrStore (e : store_error).

(** ** The header in JSON *)

Definition entry_json (e : PackObjectEntry) : json :=
  JObj [(bytes_of "digest", JStr (b64_encode (pe_Digest e)));
        (bytes_of "kind", JStr (bytes_of (pe_Kind e)));
        (bytes_of "offset", JInt (pe_Offset e));
        (bytes_of "length", JInt (pe_Length e))].

(** A nil slice of objects is written as null. *)
Definition header_json (objects : list PackObjectEntry) : json :=
  JObj [(bytes_of "objects",
         match objects with [] => JNull | _ => JArr (map entry_json objects) end)].

(** Reading a field: absent or null leaves the zero value. *)
Definition read_field_with {A} (zero : A) (read : json → option A) (k : string) (v : json)
  : option A :=
  match field (bytes_of k) v with
  | None | Some JNull => Some zero
  | Some w => read w
  end.
Definition read_int (v : json) : option Z :=
  match v with JNum lit => int_value lit | _ => None end.
Definition read_string (v : json) : option string :=
  match v with JStr s => Some (string_of s) | _ => None end.
Definition read_blob (v : json) : option bytes :=
  match v with JStr s => b64_decode s | _ => None end.

Definition read_entry (v : json) : option PackObjectEntry :=
  match v with
  | JNull | JObj _ =>
    digest ← read_field_with [] read_blob "digest" v;
    kind ← read_field_with "" read_string "kind" v;
    offset ← read_field_with 0 read_int "offset" v;
    length ← read_field_with 0 read_int "length" v;
    Some (mk_PackObjectEntry digest kind offset length)
  | _ => None
  end.
Definition read_entries (v : json) : option (list PackObjectEntry) :=
  match v with JArr l => mapM read_entry l | _ => None end.

(** [json.Unmarshal(headerData, &header)] *)
Definition unmarshal_header (data : bytes) : option (list PackObjectEntry) :=
  match parse data with
  | Some v => match v with
              | JNull | JObj _ => read_field_with [] read_entries "objects" v
              | _ => None
              end
  | None => None
  end.

(** [binary.BigEndian] *)
Definition put_uint32 (n : Z) : bytes :=
  [byte_of_int (n `div` 2^24); byte_of_int (n `div` 2^16); byte_of_int (n `div` 2^8);
   byte_of_int n].
Definition get_uint32 (l : bytes) : Z := foldl (λ acc b, acc * 256 + int_of_byte b) 0 l.

(** ** Operations *)

Definition isSemanticKind (kind : string) : bool :=
  bool_decide (kind ∈ ["Snapshot"; "ChangeSet"; "Symbol"; "Module"; "File"; "ChangeType";
                       "Workspace"]).

Section segment.
Context `{Driver, Blake3, Zstd}.

(** The entries and the data, built side by side. *)
Definition build_step (acc : list PackObjectEntry * bytes) (obj : PackObject)
  : list PackObjectEntry * bytes :=
  let '(objects, data) := acc in
  (objects ++ [mk_PackObjectEntry (po_Digest obj) (po_Kind obj) (zlen data)
                 (zlen (po_Content obj))],
   data ++ po_Content obj).

Definition BuildPack (objects : list PackObject) : bytes :=
  let '(header, data) := foldl build_step ([], []) objects in
  let headerJSON := marshal (header_json header) in
  zstd_encode (put_uint32 (u32 (zlen headerJSON)) ++ headerJSON ++ data).

(** The reading half of an ingest: header, data and checksum. *)
Definition read_pack (r : bytes) : res segment_error (list PackObjectEntry * bytes * bytes) :=
  let '(stream, ended) := zstd_read r in
  '(headerLenBuf, rest) ← map_err (λ _, ErrHeaderLength) (read_full HeaderLengthSize stream);
  let headerLen := get_uint32 headerLenBuf in
  _ ← guard_err (MaxHeaderSize <? headerLen) (ErrHeaderTooLarge headerLen);
  '(headerData, rest) ← map_err (λ _, ErrReadHeader) (read_full (Z.to_nat headerLen) rest);
  match unmarshal_header headerData with
  | None => Err ErrParseHeader
  | Some objects =>
    _ ← guard_err (negb ended) ErrReadData;
    Ok (objects, rest, Blake3Hash stream)
  end.

Definition st_map_err {S E F A} (f : E → F) (m : stM S E A) : stM S F A :=
  λ s, let '(s', r) := m s in (s', map_err f r).

(** [obj.Digest[:8]] in an error message: base64 text of n bytes is decoded
    into a slice with room for the next multiple of three. *)
Definition digest_head (digest : bytes) : res segment_error () :=
  if 3 * ((zlen digest + 2) `div` 3) <? 8 then Panic else Ok ().

(** The bounds and the digest of one entry. *)
Definition check_entry (objectBytes : bytes) (obj : PackObjectEntry)
  : res segment_error () :=
  let e := i64 (pe_Offset obj + pe_Length obj) in
  if zlen objectBytes <? e then (_ ← digest_head (pe_Digest obj); Err ErrExtendsBeyondData)
  else
    content ← or_panic (go_slice objectBytes (pe_Offset obj) e);
    guard_err (negb (bool_decide (Blake3Hash content = pe_Digest obj)))
      (ErrDigestMismatch (pe_Offset obj)).

(** What a semantic object triggers besides its row; only the method on
    [store.DB] announces nodes. *)
Definition announce (ts : Z) (actor : string) (obj : PackObjectEntry) : stM DB segment_error () :=
  if isSemanticKind (pe_Kind obj) then
    _ ← st_map_err ErrStore (RecordNodePublish ts (pe_Digest obj) (pe_Kind obj) actor);
    if decide (pe_Kind obj = "Snapshot")
    then st_map_err ErrStore (EnqueueForEnrichment ts (pe_Digest obj) (pe_Kind obj))
    else mret ()
  else mret ().
Definition enqueue_only (ts : Z) (obj : PackObjectEntry) : stM DB segment_error () :=
  if decide (pe_Kind obj = "Snapshot")
  then st_map_err ErrStore (EnqueueForEnrichmentTx ts (pe_Digest obj) (pe_Kind obj))
  else mret ().

(** The indexing loop; [clock i] is the time while entry [i] is handled. *)
Fixpoint index_objects (after : Z → PackObjectEntry → stM DB segment_error ())
    (clock : nat → Z) (segmentID : Z) (objectBytes : bytes) (indexed : nat)
    (objects : list PackObjectEntry) : stM DB segment_error nat :=
  match objects with
  | [] => mret indexed
  | obj :: objects =>
    _ ← lift (check_entry objectBytes obj);
    _ ← st_map_err ErrStore (InsertObject (clock indexed) (pe_Digest obj) segmentID
          (pe_Offset obj) (pe_Length obj) (pe_Kind obj));
    _ ← after (clock indexed) obj;
    index_objects after clock segmentID objectBytes (S indexed) objects
  end.

Definition ingest (after : Z → PackObjectEntry → stM DB segment_error ()) (clock : nat → Z)
    (r : bytes) : stM DB segment_error (Z * nat) :=
  '(objects, objectBytes, checksum) ← lift (read_pack r);
  transact (
    segmentID ← st_map_err ErrStore (InsertSegment (clock O) checksum objectBytes);
    indexed ← index_objects after clock segmentID objectBytes O objects;
    mret (segmentID, indexed)).

Definition IngestSegment (clock : nat → Z) (r : bytes) (actor : string)
  : stM DB segment_error (Z * nat) :=
  ingest (λ ts obj, announce ts actor obj) clock r.
Definition IngestSegmentToDB (clock : nat → Z) (r : bytes) (actor : string)
  : stM DB segment_error (Z * nat) :=
  ingest enqueue_only clock r.

Definition ExtractObject (d : DB) (digest : bytes) : res store_error (bytes * string) :=
  info ← GetObject d digest;
  blob ← GetSegmentBlob d (oi_SegmentID info);
  _ ← guard_err (zlen blob <? i64 (oi_Off info + oi_Len info)) ErrBeyondSegment;
  content ← or_panic (go_slice blob (oi_Off info) (i64 (oi_Off info + oi_Len info)));
  Ok (content, oi_Kind info).
Definition ExtractObjectFromDB := ExtractObject.
End segment.

(** ** Lemmas: the header *)

Definition entry_range (e : PackObjectEntry) : Prop :=
  - 2^63 ≤ pe_Offset e < 2^63 ∧ - 2^63 ≤ pe_Length e < 2^63.
Definition entry_text (e : PackObjectEntry) : Prop := valid_utf8 (bytes_of (pe_Kind e)).

Lemma int_value_range lit z : int_value lit = Some z → - 2^63 ≤ z < 2^63.
Proof.
  unfold int_value. destruct lit as [|b r]; [done|].
  generalize (if int_of_byte b =? 45 then Z.opp <$> dec_value 0 r else dec_value 0 (b :: r)).
  intros [x|]; [|done]. case_match eqn:E; [|done]. intros [= ->]. bool_to_prop. lia.
Qed.

Lemma read_entry_range v e : read_entry v = Some e → entry_range e.
Proof.
  assert (∀ k w z, read_field_with 0 read_int k w = Some z → - 2^63 ≤ z < 2^63) as Hr.
  { intros k w z. unfold read_field_with, read_int.
    repeat case_match; intros; simplify_eq; try lia; by eapply int_value_range. }
  unfold read_entry. intros H.
  assert (∃ digest kind offset length,
    read_field_with 0 read_int "offset" v = Some offset ∧
    read_field_with 0 read_int "length" v = Some length ∧
    e = mk_PackObjectEntry digest kind offset length) as (g & k & o & l & Ho & Hl & ->).
  { destruct v; try done;
      repeat match type of H with
      | _ ≫= _ = Some _ => apply bind_Some in H as (? & ? & H)
      end; simplify_eq; eauto 10. }
  split; [by eapply Hr|by eapply Hr].
Qed.

Lemma unmarshal_header_range data objects :
  unmarshal_header data = Some objects → Forall entry_range objects.
Proof.
  unfold unmarshal_header, read_field_with. intros H. destruct (parse data) as [v|]; [|done].
  assert (∀ w, read_entries w = Some objects → Forall entry_range objects) as Hw.
  { intros w Hw. destruct w; try done. cbn in Hw. apply mapM_Some in Hw.
    clear -Hw. induction Hw; constructor; [by eapply read_entry_range|done]. }
  repeat case_match; simplify_eq; try apply Forall_nil_2; by eapply Hw.
Qed.

Lemma entry_json_ok e : entry_text e → entry_range e → ok_json (entry_json e).
Proof.
  intros Ht [Ho Hl]. apply ok_json_obj.
  repeat (apply Forall_cons_2; [split; [by apply valid_utf8_ascii|]|]); [..|apply Forall_nil_2].
  - apply b64_encode_utf8.
  - done.
  - by apply int_lit_ok.
  - by apply int_lit_ok.
Qed.

Lemma read_entry_json e : entry_range e → read_entry (entry_json e) = Some e.
Proof.
  intros [Ho Hl]. destruct e as [g k o l]. cbn [pe_Offset pe_Length] in *.
  unfold read_entry, entry_json. cbn [pe_Digest pe_Kind pe_Offset pe_Length].
  set (v := JObj _).
  change (read_field_with [] read_blob "digest" v) with (b64_decode (b64_encode g)).
  change (read_field_with "" read_string "kind" v) with (Some (string_of (bytes_of k))).
  change (read_field_with 0 read_int "offset" v) with (int_value (int_lit o)).
  change (read_field_with 0 read_int "length" v) with (int_value (int_lit l)).
  rewrite b64_decode_encode, string_of_bytes_of.
  destruct (int_lit_ok o Ho) as [_ ->]. destruct (int_lit_ok l Hl) as [_ ->]. done.
Qed.

(** The header survives JSON. *)
Lemma unmarshal_header_json objects :
  Forall entry_text objects → Forall entry_range objects →
  unmarshal_header (marshal (header_json objects)) = Some objects.
Proof.
  intros Ht Hr. unfold unmarshal_header.
  assert (ok_json (header_json objects)) as Hok.
  { apply ok_json_obj. apply Forall_singleton. split; [by apply valid_utf8_ascii|].
    destruct objects as [|e es]; [done|]. cbn [snd]. revert Ht Hr.
    generalize (e :: es). clear. intros l Ht Hr.
    induction l as [|x l IH]; [done|]. apply Forall_cons in Ht as [? ?].
    apply Forall_cons in Hr as [? ?]. split; [by apply entry_json_ok|by apply IH]. }
  rewrite parse_marshal by done. destruct objects as [|e es]; [done|].
  change (mapM read_entry (map entry_json (e :: es)) = Some (e :: es)).
  apply mapM_Some. clear -Hr. induction Hr as [|x l Hx _ IH]; [constructor|].
  cbn [map]. constructor; [by apply read_entry_json|done].
Qed.

Lemma get_put_uint32 n : 0 ≤ n < 2^32 → get_uint32 (put_uint32 n) = n.
Proof.
  intros Hn. unfold get_uint32, put_uint32. cbn [foldl]. rewrite !int_of_byte_of_int.
  lia_div.
Qed.

(** ** Lemmas: the store's integrity *)

Section integrity.
Context `{Driver, Blake3, Zstd}.

(** Every row of the object table points into a stored segment, at bytes
    with the row's digest. *)
Record store_ok (d : DB) : Prop := mk_store_ok {
  so_seq : ∀ id seg, db_segments d !! id = Some seg → id ≤ db_segment_seq d;
  so_size : ∀ id seg, db_segments d !! id = Some seg → zlen (seg_blob seg) < 2^63;
  so_rows : ∀ digest info, db_objects d !! digest = Some info →
    ∃ seg content, db_segments d !! oi_SegmentID info = Some seg ∧
      i64 (oi_Off info + oi_Len info) ≤ zlen (seg_blob seg) ∧
      go_slice (seg_blob seg) (oi_Off info) (i64 (oi_Off info + oi_Len info)) = Some content ∧
      Blake3Hash content = digest;
}.

Lemma ExtractObject_ok d digest :
  store_ok d →
  match db_objects d !! digest with
  | Some info => ∃ content, ExtractObject d digest = Ok (content, oi_Kind info) ∧
                            Blake3Hash content = digest
  | None => ExtractObject d digest = Err ErrObjectNotFound
  end.
Proof.
  intros W. unfold ExtractObject, GetObject, GetSegmentBlob.
  destruct (db_objects d !! digest) as [info|] eqn:E; [|done].
  destruct (so_rows d W _ _ E) as (seg & content & Hs & Hb & Hc & Hh).
  exists content. res_simpl. rewrite Hs. res_simpl.
  rewrite (proj2 (Z.ltb_ge _ _)) by done. res_simpl. by rewrite Hc.
Qed.

Lemma check_entry_ok data e :
  check_entry data e = Ok () ↔
  i64 (pe_Offset e + pe_Length e) ≤ zlen data ∧
  ∃ content, go_slice data (pe_Offset e) (i64 (pe_Offset e + pe_Length e)) = Some content ∧
             Blake3Hash content = pe_Digest e.
Proof.
  unfold check_entry. cbv zeta. destruct (zlen data <? _) eqn:E; bool_to_prop.
  - split; [|lia]. intros Hd. by res_inv.
  - destruct (go_slice _ _ _) as [content|]; res_simpl; [|naive_solver].
    case_bool_decide as Hd; simpl; naive_solver.
Qed.

Definition same_objects (d d' : DB) : Prop :=
  db_segments d' = db_segments d ∧ db_segment_seq d' = db_segment_seq d ∧
  db_objects d' = db_objects d.

Definition quiet (after : Z → PackObjectEntry → stM DB segment_error ()) : Prop :=
  ∀ ts obj d, ∃ d', after ts obj d = (d', Ok ()) ∧ same_objects d d'.

Lemma announce_quiet actor : quiet (λ ts obj, announce ts actor obj).
Proof.
  intros ts obj d. unfold announce, RecordNodePublish, EnqueueForEnrichment, st_map_err.
  destruct (isSemanticKind _); [|by exists d]. st_simpl. cbn [id].
  destruct (decide (_ ∈ np_ID <$> _)); cbn [map_err];
    destruct (decide (pe_Kind obj = "Snapshot")); eexists; (split; [reflexivity|done]).
Qed.

Lemma enqueue_only_quiet : quiet enqueue_only.
Proof.
  intros ts obj d. unfold enqueue_only, EnqueueForEnrichmentTx, EnqueueForEnrichment, st_map_err.
  destruct (decide (pe_Kind obj = "Snapshot")); st_simpl; eexists; (split; [reflexivity|done]).
Qed.

(** The row an entry gets in segment [sid]. *)
Definition row_of (sid : Z) (e : PackObjectEntry) (info : ObjectInfo) : Prop :=
  oi_Digest info = pe_Digest e ∧ oi_SegmentID info = sid ∧ oi_Off info = pe_Offset e ∧
  oi_Len info = pe_Length e ∧ oi_Kind info = pe_Kind e.

Definition first_entry (g : bytes) (objects : list PackObjectEntry) : option PackObjectEntry :=
  head (filter (λ e, pe_Digest e = g) objects).

(** What indexing adds: rows for the digests that had none. *)
Definition indexed_as (sid : Z) (objects : list PackObjectEntry) (d d' : DB) : Prop :=
  db_segments d' = db_segments d ∧ db_segment_seq d' = db_segment_seq d ∧
  ∀ g, match db_objects d !! g with
       | Some info => db_objects d' !! g = Some info
       | None => match first_entry g objects with
                 | Some e => ∃ info, db_objects d' !! g = Some info ∧ row_of sid e info
                 | None => db_objects d' !! g = None
                 end
       end.

Lemma first_entry_cons g e objects :
  first_entry g (e :: objects)
  = if decide (pe_Digest e = g) then Some e else first_entry g objects.
Proof. unfold first_entry. rewrite filter_cons. by case_decide. Qed.

(** Indexing entries that all pass their check. *)
Lemma index_objects_all after clock sid data indexed objects d :
  quiet after → Forall (λ e, check_entry data e = Ok ()) objects →
  ∃ d', index_objects after clock sid data indexed objects d
        = (d', Ok (indexed + length objects)%nat) ∧ indexed_as sid objects d d'.
Proof.
  intros Hq Hc. revert indexed d. induction Hc as [|e objects He _ IH]; intros indexed d.
  { exists d. rewrite Nat.add_0_r. split; [done|]. repeat split.
    intros g. by destruct (db_objects d !! g). }
  cbn [index_objects]. unfold lift at 1. unfold mbind at 1, stM_bind at 1. rewrite He.
  set (ts := clock indexed).
  set (d1 := (InsertObject ts (pe_Digest e) sid (pe_Offset e) (pe_Length e) (pe_Kind e) d).1).
  unfold mbind at 1, stM_bind at 1, st_map_err at 1.
  change (InsertObject ts _ _ _ _ _ d) with (d1, @Ok store_error () ()). cbn [map_err].
  destruct (Hq ts e d1) as (d2 & Ha & Hs2 & Hn2 & Ho2).
  unfold mbind at 1, stM_bind at 1. rewrite Ha.
  destruct (IH (S indexed) d2) as (d3 & Hi & Hs3 & Hn3 & Ho3).
  exists d3. rewrite Hi. split; [f_equal; f_equal; cbn [length]; lia|].
  assert (db_segments d1 = db_segments d ∧ db_segment_seq d1 = db_segment_seq d) as [Hs1 Hn1].
  { subst d1. cbn. by destruct (db_objects d !! pe_Digest e). }
  split; [congruence|]. split; [congruence|]. intros g. specialize (Ho3 g).
  rewrite Ho2 in Ho3. rewrite first_entry_cons. subst d1. cbn in Ho3.
  destruct (db_objects d !! pe_Digest e) as [info|] eqn:Ee.
  - destruct (db_objects d !! g) eqn:Eg; [done|]. case_decide; [congruence|done].
  - cbn in Ho3. case_decide as Hg.
    + subst g. rewrite lookup_insert_eq in Ho3. rewrite Ee. by eexists.
    + by rewrite lookup_insert_ne in Ho3.
Qed.

(** If indexing succeeds, every entry passed its check. *)
Lemma index_objects_checked after clock sid data indexed objects d d' n :
  quiet after → index_objects after clock sid data indexed objects d = (d', Ok n) →
  Forall (λ e, check_entry data e = Ok ()) objects.
Proof.
  intros Hq. revert indexed d. induction objects as [|e objects IH]; intros indexed d Hi;
    [constructor|]. cbn [index_objects] in Hi.
  apply stM_bind_ok in Hi as (s1 & u & He & Hi). unfold lift in He. injection He as <- He.
  apply stM_bind_ok in Hi as (s2 & u2 & _ & Hi).
  apply stM_bind_ok in Hi as (s3 & u3 & _ & Hi).
  apply Forall_cons. split; [by destruct u|]. by eapply IH.
Qed.

(** Rows of checked entries keep the store intact. *)
Lemma indexed_store_ok sid ts checksum data objects d d' :
  store_ok d → sid = db_segment_seq d + 1 → zlen data < 2^63 →
  Forall (λ e, check_entry data e = Ok ()) objects →
  indexed_as sid objects
    (set_segments (<[sid := mk_Segment ts checksum (zlen data) data]> (db_segments d)) sid d) d' →
  store_ok d'.
Proof.
  intros W -> Hlen Hc (Hs & Hn & Ho). cbn in Hs, Hn, Ho.
  assert (db_segments d !! (db_segment_seq d + 1) = None) as Hfresh.
  { destruct (db_segments d !! _) as [seg|] eqn:E; [|done].
    pose proof (so_seq d W _ _ E). lia. }
  split.
  - intros id seg. rewrite Hs, Hn, lookup_insert_Some. intros [[<- _]|[_ Hid]]; [lia|].
    pose proof (so_seq d W _ _ Hid). lia.
  - intros id seg. rewrite Hs, lookup_insert_Some. intros [[_ <-]|[_ Hid]]; [done|].
    by eapply so_size.
  - intros digest info Hi. specialize (Ho digest). rewrite Hs.
    destruct (db_objects d !! digest) as [info0|] eqn:E.
    + rewrite Hi in Ho. injection Ho as ->.
      destruct (so_rows d W _ _ E) as (seg & content & Hseg & Hrest).
      exists seg, content. rewrite lookup_insert_ne; [done|]. intros Heq. rewrite <-Heq in Hseg.
      congruence.
    + destruct (first_entry digest objects) as [e|] eqn:Ef; [|congruence].
      destruct Ho as (info' & Hi' & R1 & R2 & R3 & R4 & _). rewrite Hi in Hi'.
      injection Hi' as <-. unfold first_entry in Ef.
      apply head_Some_elem_of, list_elem_of_filter in Ef as [Hd Hin].
      rewrite Forall_forall in Hc. specialize (Hc e Hin).
      apply check_entry_ok in Hc as (Hb & content & Hsl & Hh).
      exists (mk_Segment ts checksum (zlen data) data), content.
      rewrite R2, lookup_insert_eq, R3, R4. cbn [seg_blob].
      split; [done|]. split; [done|]. split; [done|]. congruence.
Qed.

Lemma read_pack_ok r objects data checksum :
  read_pack r = Ok (objects, data, checksum) →
  zlen data ≤ zlen (zstd_read r).1 ∧ Forall entry_range objects.
Proof.
  unfold read_pack. destruct (zstd_read r) as [stream ended]. cbn [fst]. intros H'.
  apply bind_ok_inv in H' as ([l1 rest1] & K1%map_err_ok_inv%read_full_ok & H').
  apply bind_ok_inv in H' as ([] & _ & H').
  apply bind_ok_inv in H' as ([l2 rest2] & K2%map_err_ok_inv%read_full_ok & H').
  destruct (unmarshal_header l2) as [objs|] eqn:Eu; [|done].
  apply bind_ok_inv in H' as ([] & _ & H'). injection H' as <- <- <-.
  destruct K1 as [-> _], K2 as [-> _]. split; [|by eapply unmarshal_header_range].
  unfold zlen. rewrite !length_app. lia.
Qed.

Lemma InsertSegment_eq ts checksum blob d :
  st_map_err ErrStore (InsertSegment ts checksum blob) d
  = (set_segments (<[db_segment_seq d + 1 := mk_Segment ts checksum (zlen blob) blob]>
       (db_segments d)) (db_segment_seq d + 1) d, Ok (db_segment_seq d + 1)).
Proof. done. Qed.

Lemma ingest_ok after clock r d :
  quiet after → store_ok d → zlen (zstd_read r).1 < 2^63 →
  match ingest after clock r d with
  | (d', Ok (sid, n)) =>
    store_ok d' ∧ ∃ objects data checksum,
      read_pack r = Ok (objects, data, checksum) ∧ n = length objects ∧
      sid = db_segment_seq d + 1 ∧
      indexed_as sid objects
        (set_segments (<[sid := mk_Segment (clock O) checksum (zlen data) data]>
           (db_segments d)) sid d) d'
  | (d', _) => d' = d
  end.
Proof.
  intros Hq W Hlen. unfold ingest.
  destruct (read_pack r) as [[[objects data] checksum]|e|] eqn:Er; [|done|done].
  unfold mbind at 1, stM_bind at 1, lift at 1. cbv beta iota.
  destruct (transact _ d) as [d' [[sid n]|e|]] eqn:Et.
  2,3: by eapply transact_not_ok in Et.
  apply transact_ok, stM_bind_ok in Et as (s1 & sid' & Hins & Et).
  rewrite InsertSegment_eq in Hins. injection Hins as <- <-.
  apply stM_bind_ok in Et as (s2 & n' & Hi & Et). injection Et as -> <- ->.
  pose proof (index_objects_checked _ _ _ _ _ _ _ _ _ Hq Hi) as Hc.
  destruct (index_objects_all after clock (db_segment_seq d + 1) data O objects
    (set_segments (<[db_segment_seq d + 1 := mk_Segment (clock O) checksum (zlen data) data]>
       (db_segments d)) (db_segment_seq d + 1) d) Hq Hc) as (d2 & Hi2 & Hx).
  rewrite Hi in Hi2. injection Hi2 as <- ->.
  destruct (read_pack_ok _ _ _ _ Er) as [Hd _].
  split; [eapply indexed_store_ok; [exact W|done| |exact Hc|exact Hx]; lia|].
  by exists objects, data, checksum.
Qed.

(** ** Lemmas: building *)

Definition entries_of (objects : list PackObject) : list PackObjectEntry :=
  (foldl build_step ([], []) objects).1.
Definition data_of (objects : list PackObject) : bytes :=
  (foldl build_step ([], []) objects).2.

Lemma build_steps objects es data :
  Forall (λ e, 0 ≤ pe_Offset e ∧ 0 ≤ pe_Length e ∧ pe_Offset e + pe_Length e ≤ zlen data) es →
  let r := foldl build_step (es, data) objects in
  (∃ es', r.1 = es ++ es' ∧
     Forall2 (λ o e, pe_Digest e = po_Digest o ∧ pe_Kind e = po_Kind o ∧
        go_slice r.2 (pe_Offset e) (pe_Offset e + pe_Length e) = Some (po_Content o))
       objects es') ∧
  (∃ tail, r.2 = data ++ tail) ∧
  Forall (λ e, 0 ≤ pe_Offset e ∧ 0 ≤ pe_Length e ∧ pe_Offset e + pe_Length e ≤ zlen r.2) r.1.
Proof.
  revert es data. induction objects as [|o objects IH]; intros es data Hes; cbn [foldl].
  { split; [exists []; rewrite app_nil_r; by split|]. split; [exists []; by rewrite app_nil_r|done]. }
  set (e := mk_PackObjectEntry (po_Digest o) (po_Kind o) (zlen data) (zlen (po_Content o))).
  assert (build_step (es, data) o = (es ++ [e], data ++ po_Content o)) as -> by done.
  destruct (IH (es ++ [e]) (data ++ po_Content o)) as ((es' & E1 & E2) & (tail & E3) & E4).
  { pose proof (zlen_nonneg data). pose proof (zlen_nonneg (po_Content o)).
    apply Forall_app. split; [|apply Forall_singleton; cbn; rewrite zlen_app; lia].
    eapply Forall_impl; [exact Hes|]. intros x. cbn. rewrite zlen_app. lia. }
  split; [|split; [exists (po_Content o ++ tail); by rewrite app_assoc|done]].
  exists (e :: es'). rewrite E1, <-app_assoc. split; [done|].
  constructor; [|done]. split; [done|]. split; [done|]. rewrite E3, <-app_assoc. cbn.
  apply go_slice_middle.
Qed.

(** The part of a pack the ingest reads back. *)
Lemma read_pack_build `{!ZstdLaws} objects :
  Forall (λ o, valid_utf8 (bytes_of (po_Kind o))) objects →
  zlen (data_of objects) < 2^63 →
  zlen (marshal (header_json (entries_of objects))) ≤ MaxHeaderSize →
  ∃ checksum, read_pack (BuildPack objects) = Ok (entries_of objects, data_of objects, checksum).
Proof.
  intros Ht Hd Hh. unfold BuildPack, entries_of, data_of in *.
  destruct (build_steps objects [] []) as ((es' & E1 & E2) & _ & E4); [constructor|].
  destruct (foldl build_step ([], []) objects) as [es data]. cbn [fst snd] in *.
  cbn [app] in E1. subst es'.
  assert (Forall entry_text es) as Htext.
  { apply Forall_forall. intros e He. apply list_elem_of_lookup in He as [i Hi].
    destruct (Forall2_lookup_r _ _ _ _ _ E2 Hi) as (o & Ho & _ & Hk & _).
    rewrite Forall_forall in Ht. unfold entry_text. rewrite Hk.
    apply Ht. by eapply list_elem_of_lookup_2. }
  assert (Forall entry_range es) as Hrange.
  { eapply Forall_impl; [exact E4|]. intros e He. unfold entry_range. cbn in He. lia. }
  set (text := marshal (header_json es)) in *.
  pose proof (zlen_nonneg text). unfold MaxHeaderSize in Hh.
  eexists. unfold read_pack. rewrite zstd_read_encode.
  rewrite (read_full_app (put_uint32 _)). res_simpl.
  rewrite u32_small, get_put_uint32 by lia.
  rewrite (proj2 (Z.ltb_ge _ _)) by (unfold MaxHeaderSize; lia). res_simpl.
  unfold zlen. rewrite Nat2Z.id, read_full_app. res_simpl.
  unfold text. rewrite unmarshal_header_json by done. done.
Qed.

(** An entry of a built pack describes its object. *)
Definition describes (data : bytes) (o : PackObject) (e : PackObjectEntry) : Prop :=
  pe_Digest e = po_Digest o ∧ pe_Kind e = po_Kind o ∧
  i64 (pe_Offset e + pe_Length e) ≤ zlen data ∧
  go_slice data (pe_Offset e) (i64 (pe_Offset e + pe_Length e)) = Some (po_Content o).

Lemma entries_describe objects :
  zlen (data_of objects) < 2^63 →
  Forall2 (describes (data_of objects)) objects (entries_of objects).
Proof.
  intros Hd. unfold data_of, entries_of in *.
  destruct (build_steps objects [] []) as ((es' & E1 & E2) & _ & E4); [constructor|].
  cbn [app] in E1. rewrite E1 in *.
  eapply Forall2_impl; [exact (Forall2_with_r _ _ _ _ E2 E4)|].
  intros o e [(Hg & Hk & Hs) (He1 & He2 & He3)]. unfold describes.
  rewrite i64_small by lia. done.
Qed.

Lemma entries_checked objects :
  zlen (data_of objects) < 2^63 →
  Forall (λ o, po_Digest o = Blake3Hash (po_Content o)) objects →
  Forall (λ e, check_entry (data_of objects) e = Ok ()) (entries_of objects).
Proof.
  intros Hd Hh. pose proof (Forall2_with_l _ _ _ _ (entries_describe objects Hd) Hh) as H2.
  apply Forall_forall. intros e He. apply list_elem_of_lookup in He as [i Hi].
  destruct (Forall2_lookup_r _ _ _ _ _ H2 Hi) as (o & _ & (Hg & _ & Hb & Hs) & Hh').
  apply check_entry_ok. split; [done|]. exists (po_Content o). split; [done|]. congruence.
Qed.

Lemma first_entry_described data pre o post es :
  Forall2 (describes data) (pre ++ o :: post) es → po_Digest o ∉ po_Digest <$> pre →
  ∃ e, first_entry (po_Digest o) es = Some e ∧ describes data o e.
Proof.
  revert es. induction pre as [|x pre IH]; intros es H2 Hn.
  - apply Forall2_cons_inv_l in H2 as (e & es' & He & _ & ->). exists e.
    rewrite first_entry_cons, decide_True by apply He. done.
  - apply Forall2_cons_inv_l in H2 as (e & es' & He & H2 & ->).
    rewrite fmap_cons in Hn. apply not_elem_of_cons in Hn as [Hx Hn].
    destruct (IH es' H2 Hn) as (e' & He' & Hd). exists e'.
    rewrite first_entry_cons, decide_False; [done|]. destruct He as (-> & _). congruence.
Qed.

(** Reading an object through its row. *)
Lemma extract_row d sid seg e info o :
  db_objects d !! po_Digest o = Some info → row_of sid e info →
  db_segments d !! sid = Some seg → describes (seg_blob seg) o e →
  ExtractObject d (po_Digest o) = Ok (po_Content o, po_Kind o).
Proof.
  intros Hi (_ & R2 & R3 & R4 & R5) Hs (_ & Hk & Hb & Hsl).
  unfold ExtractObject, GetObject, GetSegmentBlob. rewrite Hi. res_simpl.
  rewrite R2, Hs. res_simpl. rewrite R3, R4, (proj2 (Z.ltb_ge _ _)) by done. res_simpl.
  rewrite Hsl. res_simpl. by rewrite R5, Hk.
Qed.

(** An ingest whose pack reads well and whose entries pass their checks. *)
Lemma ingest_all after clock r d objects data checksum :
  quiet after → read_pack r = Ok (objects, data, checksum) →
  Forall (λ e, check_entry data e = Ok ()) objects →
  let sid := db_segment_seq d + 1 in
  ∃ d', ingest after clock r d = (d', Ok (sid, length objects)) ∧
    indexed_as sid objects
      (set_segments (<[sid := mk_Segment (clock O) checksum (zlen data) data]> (db_segments d))
         sid d) d'.
Proof.
  intros Hq Hr Hc sid.
  set (d1 := set_segments _ sid d).
  destruct (index_objects_all after clock sid data O objects d1 Hq Hc) as (d2 & Hi & Hx).
  exists d2. split; [|done]. unfold ingest. rewrite Hr.
  unfold mbind at 1, stM_bind at 1, lift at 1. cbv beta iota.
  apply transact_ok. unfold mbind at 1, stM_bind at 1. rewrite InsertSegment_eq.
  fold sid. fold d1. unfold mbind at 1, stM_bind at 1. by rewrite Hi.
Qed.
End integrity.

(** ** Properties *)

(** C4: an upload cannot corrupt the store.  Whatever bytes are ingested, a
    store in which every object row points at bytes with its digest stays so;
    if the call fails or panics the store is unchanged; if it succeeds, every
    entry of the header is stored, under the new segment unless its digest was
    stored before, and no existing row has changed. *)
Theorem IngestSegment_integrity `{Driver, Blake3, Zstd} (clock : nat → Z) (r : bytes)
    (actor : string) (d : DB) :
  store_ok d → zlen (zstd_read r).1 < 2^63 →
  match IngestSegment clock r actor d with
  | (d', Ok (sid, n)) =>
    store_ok d' ∧ (∀ g info, db_objects d !! g = Some info → db_objects d' !! g = Some info) ∧
    ∃ objects data checksum, read_pack r = Ok (objects, data, checksum) ∧ n = length objects ∧
      ∀ e, e ∈ objects → ∃ info, db_objects d' !! pe_Digest e = Some info ∧
        (db_objects d !! pe_Digest e = Some info ∨ oi_SegmentID info = sid)
  | (d', _) => d' = d
  end.
Proof.
  intros W Hlen. unfold IngestSegment.
  pose proof (ingest_ok _ clock r d (announce_quiet actor) W Hlen) as Hi.
  destruct (ingest _ _ _ _) as [d' [[sid n]|e|]]; [|done..].
  destruct Hi as (W' & objects & data & checksum & Hr & -> & -> & _ & _ & Ho).
  split; [done|]. cbn in Ho. split.
  { intros g info Hg. specialize (Ho g). by rewrite Hg in Ho. }
  exists objects, data, checksum. split; [done|]. split; [done|].
  intros e He. specialize (Ho (pe_Digest e)).
  destruct (db_objects d !! pe_Digest e) as [info|]; [exists info; auto|].
  destruct (first_entry (pe_Digest e) objects) as [e'|] eqn:Ef.
  - destruct Ho as (info & Hi & _ & Hs & _). eauto.
  - exfalso. apply head_None in Ef.
    assert (e ∈ filter (λ x, pe_Digest x = pe_Digest e) objects) as Hin
      by (by apply list_elem_of_filter).
    rewrite Ef in Hin. by apply elem_of_nil in Hin.
Qed.

(** reading objects.  From such a store an object is extracted without a
    panic exactly when its digest is recorded, and what is extracted hashes to
    that digest. *)
Theorem ExtractObject_spec `{Driver, Blake3, Zstd} (d : DB) (digest : bytes) :
  store_ok d →
  match ExtractObject d digest with
  | Ok (content, kind) => Blake3Hash content = digest ∧
      ∃ info, db_objects d !! digest = Some info ∧ oi_Kind info = kind
  | Err e => e = ErrObjectNotFound ∧ db_objects d !! digest = None
  | Panic => False
  end.
Proof.
  intros W. pose proof (ExtractObject_ok d digest W) as Hx.
  destruct (db_objects d !! digest) as [info|].
  - destruct Hx as (content & -> & Hh). split; [done|]. by exists info.
  - by rewrite Hx.
Qed.

(** C3: pack round trip.  A pack built from objects that are named by their
    hash is ingested completely into any intact store, provided its header is
    within the limit; every object whose digest is new and that comes first
    with its digest is then extracted with exactly its content and kind. *)
Theorem BuildPack_IngestSegment `{Driver, Blake3, ZstdLaws} (clock : nat → Z)
    (objects : list PackObject) (actor : string) (d : DB) :
  store_ok d →
  Forall (λ o, po_Digest o = Blake3Hash (po_Content o) ∧ valid_utf8 (bytes_of (po_Kind o)))
    objects →
  zlen (data_of objects) < 2^63 →
  zlen (marshal (header_json (entries_of objects))) ≤ MaxHeaderSize →
  ∃ d' sid, IngestSegment clock (BuildPack objects) actor d = (d', Ok (sid, length objects)) ∧
    store_ok d' ∧
    ∀ o pre post, objects = pre ++ o :: post → db_objects d !! po_Digest o = None →
      po_Digest o ∉ po_Digest <$> pre →
      ExtractObject d' (po_Digest o) = Ok (po_Content o, po_Kind o).
Proof.
  intros W Hob Hd Hh. apply Forall_and in Hob as [Hob Ht].
  destruct (read_pack_build objects Ht Hd Hh) as [checksum Hr].
  pose proof (entries_checked objects Hd Hob) as Hc.
  pose proof (entries_describe objects Hd) as H2'.
  destruct (ingest_all _ clock _ d _ _ _ (announce_quiet actor) Hr Hc) as (d' & Hi & Hx).
  exists d', (db_segment_seq d + 1). split; [|split].
  - unfold IngestSegment. by rewrite Hi, (Forall2_length _ _ _ H2').
  - eapply indexed_store_ok; [exact W|reflexivity|exact Hd|exact Hc|exact Hx].
  - intros o pre post Hsplit Hnew Hfirst. destruct Hx as (Hs & _ & Ho).
    specialize (Ho (po_Digest o)). cbn in Ho. rewrite Hnew in Ho. rewrite Hsplit in H2' at 2.
    destruct (first_entry_described _ _ _ _ _ H2' Hfirst) as (e & He & Hd').
    rewrite He in Ho. destruct Ho as (info & Hinfo & Hrow).
    eapply extract_row; [exact Hinfo|exact Hrow|rewrite Hs; apply lookup_insert_eq|exact Hd'].
Qed.

(** Offsets are not checked against zero.  A pack whose first entry has a
    negative offset, and an end that lies within the data, is not refused with
    an error: the slice expression panics and the transaction is rolled
    back. *)
Theorem IngestSegment_negative_offset `{Driver, Blake3, Zstd} (clock : nat → Z) (r : bytes)
    (actor : string) (d : DB) (e : PackObjectEntry) (es : list PackObjectEntry)
    (data checksum : bytes) :
  read_pack r = Ok (e :: es, data, checksum) → pe_Offset e < 0 →
  0 ≤ pe_Length e → pe_Offset e + pe_Length e ≤ zlen data →
  IngestSegment clock r actor d = (d, Panic).
Proof.
  intros Hr Hneg Hpos Hend. destruct (read_pack_ok _ _ _ _ Hr) as [_ Hrange].
  apply Forall_cons in Hrange as [[Ho Hl] _].
  unfold IngestSegment, ingest. rewrite Hr.
  unfold mbind at 1, stM_bind at 1, lift at 1. cbv beta iota. unfold transact.
  unfold mbind at 1, stM_bind at 1. rewrite InsertSegment_eq.
  cbn [index_objects]. unfold lift, check_entry.
  rewrite i64_small by lia. rewrite (proj2 (Z.ltb_ge _ _)) by done.
  unfold go_slice. rewrite (proj2 (Z.leb_gt 0 (pe_Offset e))) by done. done.
Qed.

(** A codec to run the examples with. *)
Definition demo_zstd : Zstd := {| zstd_encode d := d; zstd_read d := (d, true) |}.
Lemma demo_zstd_laws : @ZstdLaws demo_zstd.
Proof. by split. Qed.
#[local] Existing Instances demo_driver demo_hash demo_zstd demo_zstd_laws.

Definition demo_object : PackObject :=
  mk_PackObject (Blake3Hash (bytes_of "hello")) "Snapshot" (bytes_of "hello").

Lemma empty_store_ok : store_ok empty_db.
Proof. split; intros ? ? H; vm_compute in H; discriminate H. Qed.

Definition negative_pack : bytes :=
  let header := marshal (header_json [mk_PackObjectEntry (po_Digest demo_object) "File" (-1) 1]) in
  put_uint32 (zlen header) ++ header ++ bytes_of "data".

Lemma IngestSegment_negative_offset_witness :
  IngestSegment (λ _, 0) negative_pack "eve" empty_db = (empty_db, Panic).
Proof.
  apply (IngestSegment_negative_offset (λ _, 0) negative_pack "eve" empty_db
    (mk_PackObjectEntry (po_Digest demo_object) "File" (-1) 1) [] (bytes_of "data")
    (Blake3Hash negative_pack)).
  - vm_compute. reflexivity.
  - reflexivity.
  - discriminate.
  - vm_compute. discriminate.
Defined.

Definition demo_ingested : DB :=
  (IngestSegment (λ _, 7) (BuildPack [demo_object]) "bob" empty_db).1.

Lemma IngestSegment_integrity_witness :
  store_ok demo_ingested ∧ is_Some (db_objects demo_ingested !! po_Digest demo_object).
Proof.
  split; [|eexists; vm_compute; reflexivity].
  pose proof (IngestSegment_integrity (λ _, 7) (BuildPack [demo_object]) "bob" empty_db
    empty_store_ok) as H.
  unfold demo_ingested.
  assert (is_ok (IngestSegment (λ _, 7) (BuildPack [demo_object]) "bob" empty_db).2 = true) as E
    by (vm_compute; reflexivity).
  revert H E. generalize (IngestSegment (λ _, 7) (BuildPack [demo_object]) "bob" empty_db).
  intros [d [[sid n]|e|]] H E; [|discriminate E|discriminate E].
  apply H. vm_compute. reflexivity.
Defined.

Lemma ExtractObject_spec_witness :
  ∃ content kind, ExtractObject demo_ingested (po_Digest demo_object) = Ok (content, kind) ∧
    Blake3Hash content = po_Digest demo_object.
Proof.
  pose proof (ExtractObject_spec demo_ingested (po_Digest demo_object)) as H.
  assert (store_ok demo_ingested) as W.
  { pose proof (ingest_ok _ (λ _, 7) (BuildPack [demo_object]) empty_db
      (announce_quiet "bob") empty_store_ok) as Hi.
    assert (is_ok (IngestSegment (λ _, 7) (BuildPack [demo_object]) "bob" empty_db).2 = true) as E
      by (vm_compute; reflexivity).
    unfold demo_ingested. unfold IngestSegment in *. revert Hi E.
    generalize (ingest (λ ts obj, announce ts "bob" obj) (λ _, 7) (BuildPack [demo_object]) empty_db).
    intros [d [[sid n]|e|]] Hi E; [|discriminate E|discriminate E].
    apply Hi. vm_compute. reflexivity. }
  specialize (H W).
  assert (is_ok (ExtractObject demo_ingested (po_Digest demo_object)) = true) as E
    by (vm_compute; reflexivity).
  revert H E. generalize (ExtractObject demo_ingested (po_Digest demo_object)).
  intros [[content kind]|e|] H E; [|discriminate E|discriminate E].
  exists content, kind. split; [reflexivity|apply H].
Defined.

Lemma BuildPack_IngestSegment_witness :
  ∃ d sid, IngestSegment (λ _, 7) (BuildPack [demo_object]) "bob" empty_db = (d, Ok (sid, 1%nat)) ∧
    ExtractObject d (po_Digest demo_object) = Ok (bytes_of "hello", "Snapshot").
Proof.
  destruct (BuildPack_IngestSegment (λ _, 7) [demo_object] "bob" empty_db) as (d & sid & H1 & _ & H2).
  - exact empty_store_ok.
  - apply Forall_singleton. split; [reflexivity|]. apply valid_utf8_ascii. reflexivity.
  - reflexivity.
  - vm_compute. discriminate.
  - exists d, sid. split; [exact H1|].
    apply (H2 demo_object [] []); [reflexivity|vm_compute; reflexivity|apply not_elem_of_nil].
Defined.
