(* ===== verification/SnapshotTree.v ===== *)
(** * Git trees of a snapshot (kailab/sshserver/snapshot_adapter.go)

    A snapshot names files by path and content digest; git clients are served
    blobs and trees.  This file models how the files of a snapshot are read
    from the store, put into a tree of directories and written as git tree
    objects, and shows that reading the tree objects back gives the files.

    A directory is a map; its children are kept as an association list in the
    order they were made, and the order in which Go ranges over the map is an
    argument ([TreeRanging]). *)

From S2P Require Import Prelude Sha1 Json Store GitPack ObjectGraph Segment.
Local Open Scope Z_scope.

(** ** The files of a snapshot *)

Record snapshotFile := mk_snapshotFile { sf_Path : string; sf_ContentDigest : string }.

Inductive snapshot_error :=
| ErrExtract (e : store_error)
| ErrNotASnapshot
| ErrPayload
| ErrInvalidOID (oid : string).

(** Everything after the first line feed; the whole content if there is none. *)
Definition parsePayload (content : bytes) : bytes :=
  match cut_byte Byte.x0a content with Some (_, payload) => payload | None => content end.

(** A null element of an array leaves the zero value. *)
Definition read_elem {A} (zero : A) (read : json → option A) (v : json) : option A :=
  match v with JNull => Some zero | _ => read v end.
Definition read_array {A} (read : json → option A) (v : json) : option (list A) :=
  match v with JArr l => mapM read l | _ => None end.

(** An element of [files]: the content digest, or else the digest. *)
Definition read_file (v : json) : option snapshotFile :=
  match v with
  | JNull | JObj _ =>
    path ← read_field_with "" read_string "path" v;
    digest ← read_field_with "" read_string "digest" v;
    contentDigest ← read_field_with "" read_string "contentDigest" v;
    Some (mk_snapshotFile path (if decide (contentDigest = "") then digest else contentDigest))
  | _ => None
  end.

(** [json.Unmarshal(payload, &snapshotPayload)] *)
Definition unmarshal_snapshot (payload : bytes) : option (list string * list snapshotFile) :=
  match parse payload with
  | Some v =>
    match v with
    | JNull | JObj _ =>
      fileDigests ← read_field_with [] (read_array (read_elem "" read_string)) "fileDigests" v;
      files ← read_field_with [] (read_array read_file) "files" v;
      Some (fileDigests, files)
    | _ => None
    end
  | None => None
  end.

(** [json.Unmarshal(filePayload, &file)] *)
Definition unmarshal_file (payload : bytes) : option snapshotFile :=
  match parse payload with
  | Some v =>
    match v with
    | JNull | JObj _ =>
      path ← read_field_with "" read_string "path" v;
      digest ← read_field_with "" read_string "digest" v;
      Some (mk_snapshotFile path digest)
    | _ => None
    end
  | None => None
  end.

(** One round of the loop over [fileDigests]: whatever fails is skipped. *)
Definition file_of_digest (d : DB) (files : list snapshotFile) (fileDigestHex : string)
  : res snapshot_error (list snapshotFile) :=
  match hex_decode fileDigestHex with
  | None => Ok files
  | Some fileDigest =>
    match ExtractObjectFromDB d fileDigest with
    | Ok (fileContent, fileKind) =>
      if negb (bool_decide (fileKind = "File")) then Ok files
      else match unmarshal_file (parsePayload fileContent) with
           | Some file => Ok (files ++ [file])
           | None => Ok files
           end
    | Err _ => Ok files
    | Panic => Panic
    end
  end.

Definition getSnapshotFiles (d : DB) (snapshotDigest : bytes)
  : res snapshot_error (list snapshotFile) :=
  '(content, kind) ← map_err ErrExtract (ExtractObjectFromDB d snapshotDigest);
  _ ← guard_err (negb (bool_decide (kind = "Snapshot"))) ErrNotASnapshot;
  match unmarshal_snapshot (parsePayload content) with
  | None => Err ErrPayload
  | Some (fileDigests, files) =>
    match files with
    | _ :: _ => Ok files
    | [] => foldM (file_of_digest d) [] fileDigests
    end
  end.

(** ** The tree of directories *)

Inductive treeNode := mk_treeNode (dirs : list (string * treeNode)) (blobs : gmap string string).
Definition tn_dirs (n : treeNode) := let 'mk_treeNode ds _ := n in ds.
Definition tn_blobs (n : treeNode) := let 'mk_treeNode _ bs := n in bs.
Definition empty_node : treeNode := mk_treeNode [] ∅.

(** [node.dirs[part]], made if absent, and updated. *)
Fixpoint update_dir (f : treeNode → treeNode) (part : string) (ds : list (string * treeNode))
  : list (string * treeNode) :=
  match ds with
  | [] => [(part, f empty_node)]
  | (name, child) :: ds =>
    if decide (name = part) then (name, f child) :: ds
    else (name, child) :: update_dir f part ds
  end.

(** The walk of [insertPath] on the split path: empty parts are skipped, the
    last part is the name of the blob. *)
Fixpoint insert_parts (parts : list string) (blobOID : string) (node : treeNode) : treeNode :=
  match parts with
  | [] => node
  | [name] =>
    if decide (name = "") then node
    else mk_treeNode (tn_dirs node) (<[name := blobOID]> (tn_blobs node))
  | part :: parts =>
    if decide (part = "") then insert_parts parts blobOID node
    else mk_treeNode (update_dir (insert_parts parts blobOID) part (tn_dirs node)) (tn_blobs node)
  end.
Definition split_path (path : string) : list string :=
  string_of <$> split_byte Byte.x2f (bytes_of path).
Definition insertPath (root : treeNode) (path blobOID : string) : treeNode :=
  insert_parts (split_path path) blobOID root.

(** ** Tree objects *)

Record treeEntry := mk_treeEntry { en_mode : string; en_name : string; en_oid : string }.
Record treeBuildResult := mk_treeBuildResult { tb_oid : string; tb_objects : list GitObject }.

Definition name_before (x y : treeEntry) : Prop := str_le (en_name x) (en_name y).

(** What the language leaves open: the orders in which Go ranges over the two
    maps of a node, and how [sort.Slice] orders entries of the same name. *)
Class TreeRanging := {
  range_dirs : list (string * res snapshot_error treeBuildResult) →
               list (string * res snapshot_error treeBuildResult);
  range_blobs : list (string * string) → list (string * string);
  sort_entries : list treeEntry → list treeEntry;
}.
Class TreeRangingLaws `{TreeRanging} := {
  range_dirs_perm l : range_dirs l ≡ₚ l;
  range_blobs_perm l : range_blobs l ≡ₚ l;
  sort_entries_perm l : sort_entries l ≡ₚ l;
  sort_entries_sorted l : Sorted name_before (sort_entries l);
}.

(** [fmt.Fprintf(&data, "%s %s\x00", mode, name)] and the raw identifier *)
Definition write_entry (data : bytes) (entry : treeEntry) : res snapshot_error bytes :=
  match hex_decode (en_oid entry) with
  | Some oidBytes =>
    if decide (length oidBytes = 20%nat) then
      Ok (data ++ bytes_of (en_mode entry) ++ [Byte.x20] ++ bytes_of (en_name entry)
            ++ [Byte.x00] ++ oidBytes)
    else Err (ErrInvalidOID (en_oid entry))
  | None => Err (ErrInvalidOID (en_oid entry))
  end.

Section trees.
Context `{TreeRanging}.

(** One round of the loop over the directories. *)
Definition add_dir (acc : list treeEntry * list GitObject)
    (child : string * res snapshot_error treeBuildResult)
  : res snapshot_error (list treeEntry * list GitObject) :=
  let '(entries, objects) := acc in
  let '(name, result) := child in
  result ← result;
  Ok (entries ++ [mk_treeEntry "40000" name (tb_oid result)], objects ++ tb_objects result).

Fixpoint buildTreeObjects (node : treeNode) : res snapshot_error treeBuildResult :=
  let 'mk_treeNode ds bs := node in
  let children := map (λ '(name, child), (name, buildTreeObjects child)) ds in
  '(entries, objects) ← foldM add_dir ([], []) (range_dirs children);
  let entries := entries ++
    map (λ '(name, oid), mk_treeEntry "100644" name oid) (range_blobs (map_to_list bs)) in
  data ← foldM write_entry [] (sort_entries entries);
  let oid := computeGitOID "tree" data in
  Ok (mk_treeBuildResult oid (objects ++ [mk_GitObject ObjectTree data oid])).

(** One round of the loop over the files. *)
Definition add_file (d : DB) (acc : treeNode * list GitObject) (file : snapshotFile)
  : res snapshot_error (treeNode * list GitObject) :=
  let '(root, blobs) := acc in
  if decide (sf_Path file = "" ∨ sf_ContentDigest file = "") then Ok acc
  else match hex_decode (sf_ContentDigest file) with
  | None => Ok acc
  | Some contentDigest =>
    match ExtractObjectFromDB d contentDigest with
    | Ok (content, _) =>
      let blobOID := computeGitOID "blob" content in
      Ok (insertPath root (sf_Path file) blobOID,
          blobs ++ [mk_GitObject ObjectBlob content blobOID])
    | Err _ => Ok acc
    | Panic => Panic
    end
  end.

Definition buildTreeFromFiles (d : DB) (files : list snapshotFile)
  : res snapshot_error (treeBuildResult * list GitObject) :=
  '(root, blobs) ← foldM (add_file d) (empty_node, []) files;
  tree ← buildTreeObjects root;
  Ok (tree, blobs).

Definition SnapshotObjects (d : DB) (snapshotDigest : bytes)
  : res snapshot_error (string * list GitObject) :=
  files ← getSnapshotFiles d snapshotDigest;
  '(tree, blobs) ← buildTreeFromFiles d files;
  Ok (tb_oid tree, blobs ++ tb_objects tree).
End trees.

(** ** The files in a tree of directories *)

(** The components of a split path; a path that ends in a slash names no file. *)
Fixpoint parts_path (parts : list string) : option (list string) :=
  match parts with
  | [] => None
  | [name] => if decide (name = "") then None else Some [name]
  | part :: parts =>
    if decide (part = "") then parts_path parts else cons part <$> parts_path parts
  end.

(** The file at a path below a node, by the identifier of its blob. *)
Inductive file_in : treeNode → list string → string → Prop :=
| file_here n name oid : tn_blobs n !! name = Some oid → file_in n [name] oid
| file_below n name child p oid :
    (name, child) ∈ tn_dirs n → file_in child p oid → file_in n (name :: p) oid.

Definition ok_name (name : string) : Prop := Byte.x00 ∉ bytes_of name.
Definition ok_oid (oid : string) : Prop := ∃ h, length h = 20%nat ∧ oid = hex_encode h.

(** Directories have different names, and everything can be written into a
    tree object. *)
Inductive wf_node : treeNode → Prop :=
| wf_mk ds bs :
    NoDup (ds.*1) →
    (∀ name oid, bs !! name = Some oid → ok_name name) →
    (∀ name oid, bs !! name = Some oid → ok_oid oid) →
    (∀ name child, (name, child) ∈ ds → ok_name name) →
    (∀ name child, (name, child) ∈ ds → wf_node child) →
    wf_node (mk_treeNode ds bs).

Lemma wf_empty : wf_node empty_node.
Proof. constructor; [constructor|done|done|by intros ?? ?%elem_of_nil..]. Qed.

Lemma file_in_empty p oid : ¬ file_in empty_node p oid.
Proof. inversion 1 as [n name o Hb|n name c q o Hd]; subst; [done|by apply elem_of_nil in Hd]. Qed.

Lemma file_in_cons n name p oid : p ≠ [] →
  file_in n (name :: p) oid ↔ ∃ child, (name, child) ∈ tn_dirs n ∧ file_in child p oid.
Proof.
  intros Hp. split.
  - inversion 1; subst; [done|eauto].
  - intros (child & Hc & Hf). by econstructor.
Qed.

Lemma file_in_nil n oid : ¬ file_in n [] oid.
Proof. inversion 1. Qed.

Lemma file_in_single n name oid : file_in n [name] oid ↔ tn_blobs n !! name = Some oid.
Proof.
  split; [|by constructor]. inversion 1; subst; [done|]. exfalso. by eapply file_in_nil.
Qed.

(** What [update_dir] does to the entries, and to their names. *)
Lemma update_dir_elem f part ds name child :
  NoDup (ds.*1) →
  (name, child) ∈ update_dir f part ds ↔
  (name ≠ part ∧ (name, child) ∈ ds) ∨
  (name = part ∧ child = f (default empty_node (list_to_map (M:=gmap string treeNode) ds !! part))).
Proof.
  induction ds as [|[nm c] ds IH]; intros Hnd.
  { simpl. rewrite list_elem_of_singleton. split; [intros [= -> ->]; by right|].
    intros [[_ ?%elem_of_nil]|[-> ->]]; done. }
  rewrite fmap_cons in Hnd. apply NoDup_cons in Hnd as [Hnm Hnd]. cbn [update_dir]. rewrite list_to_map_cons.
  cbn in Hnm. destruct (decide (nm = part)) as [->|Hne].
  - rewrite elem_of_cons. rewrite lookup_insert_eq. simpl.
    split.
    + intros [[= -> ->]|Hin]; [by right|]. left. rewrite elem_of_cons.
      split; [|by right]. intros ->. apply Hnm, list_elem_of_fmap. by exists (part, child).
    + intros [[Hn Hin]|[-> ->]]; [|by left]. apply elem_of_cons in Hin as [[= -> ->]|?]; [done|by right].
  - rewrite !elem_of_cons. rewrite lookup_insert_ne by done.
    rewrite IH by done. split.
    + intros [[= -> ->]|[[? ?]|?]]; [left; split; [done|by left]|left; split; [done|by right]|by right].
    + intros [[Hn [[= -> ->]|?]]|?]; [by left|right; by left|right; by right].
Qed.

Lemma update_dir_names f part ds :
  NoDup (ds.*1) →
  NoDup ((update_dir f part ds).*1) ∧ ∀ x, x ∈ (update_dir f part ds).*1 → x = part ∨ x ∈ ds.*1.
Proof.
  induction ds as [|[nm c] ds IH]; intros Hnd; cbn [update_dir].
  { split; [apply NoDup_singleton|]. intros x Hx. left. by apply list_elem_of_singleton in Hx. }
  rewrite fmap_cons in *. apply NoDup_cons in Hnd as [Hnm Hnd]. destruct (IH Hnd) as [IH1 IH2].
  destruct (decide (nm = part)) as [->|Hne]; rewrite fmap_cons; cbn [fst] in *.
  - split; [by apply NoDup_cons|]. set_solver.
  - split; [|set_solver]. apply NoDup_cons. split; [|done]. intros [?|?]%IH2; done.
Qed.

(** The directory a walk goes to. *)
Definition child_of (ds : list (string * treeNode)) (part : string) : treeNode :=
  default empty_node (list_to_map (M:=gmap string treeNode) ds !! part).

Lemma file_in_child ds part p oid : NoDup (ds.*1) →
  file_in (child_of ds part) p oid ↔ ∃ child, (part, child) ∈ ds ∧ file_in child p oid.
Proof.
  intros Hnd. unfold child_of. destruct (list_to_map _ !! part) as [c|] eqn:E; simpl.
  - apply elem_of_list_to_map_2 in E. split; [eauto|]. intros (c' & Hc' & Hf).
    apply (elem_of_list_to_map_1 (M:=gmap string)) in Hc', E; [|done..]. congruence.
  - split; [by intros ?%file_in_empty|]. intros (c & Hc & _).
    apply (elem_of_list_to_map_1 (M:=gmap string)) in Hc; [congruence|done].
Qed.

Lemma wf_child ds bs part : wf_node (mk_treeNode ds bs) → wf_node (child_of ds part).
Proof.
  inversion 1 as [? ? Hnd _ _ _ Hc]; subst. unfold child_of.
  destruct (list_to_map _ !! part) as [c|] eqn:E; [|apply wf_empty].
  apply elem_of_list_to_map_2 in E. by eapply Hc.
Qed.

Lemma parts_path_nonempty parts q : parts_path parts = Some q → q ≠ [].
Proof.
  revert q. induction parts as [|part [|part2 parts] IH]; intros q; [done| |].
  - simpl. case_decide; [done|]. by intros [= <-].
  - change (parts_path (part :: part2 :: parts)) with
      (if decide (part = "") then parts_path (part2 :: parts)
       else cons part <$> parts_path (part2 :: parts)).
    case_decide; [apply IH|]. by intros (q' & _ & ->)%fmap_Some.
Qed.

(** [insertPath] adds one file and keeps all others. *)
Lemma insert_parts_spec parts oid node :
  wf_node node → Forall ok_name parts → ok_oid oid →
  wf_node (insert_parts parts oid node) ∧
  ∀ p o, file_in (insert_parts parts oid node) p o ↔
    match parts_path parts with
    | Some q => (p = q ∧ o = oid) ∨ (p ≠ q ∧ file_in node p o)
    | None => file_in node p o
    end.
Proof.
  revert node. induction parts as [|part [|part2 parts] IH]; intros node Hwf Hok Hoid; [done| |].
  - destruct node as [ds bs]. inversion Hwf as [? ? H1 H2 H3 H4 H5]; subst.
    apply Forall_cons in Hok as [Hp _]. simpl. case_decide as Hpe; [done|]. split.
    { constructor; [done| | |done|done]; intros nm o [[<- <-]|[_ ?]]%lookup_insert_Some; eauto. }
    intros [|nm [|nm2 p]] o.
    + split; [by intros ?%file_in_nil|]. intros [[? _]|[_ ?%file_in_nil]]; done.
    + rewrite !file_in_single. simpl. rewrite lookup_insert_Some. naive_solver.
    + rewrite !file_in_cons by done. simpl. naive_solver.
  - change (insert_parts (part :: part2 :: parts) oid node) with
      (if decide (part = "") then insert_parts (part2 :: parts) oid node
       else mk_treeNode (update_dir (insert_parts (part2 :: parts) oid) part (tn_dirs node))
              (tn_blobs node)).
    change (parts_path (part :: part2 :: parts)) with
      (if decide (part = "") then parts_path (part2 :: parts)
       else cons part <$> parts_path (part2 :: parts)).
    apply Forall_cons in Hok as [Hp Hok]. case_decide as Hpe; [by apply IH|].
    destruct node as [ds bs]. cbn [tn_dirs tn_blobs].
    pose proof (wf_child ds bs part Hwf) as Hchild.
    inversion Hwf as [? ? H1 H2 H3 H4 H5]; subst.
    destruct (IH (child_of ds part) Hchild Hok Hoid) as [IHw IHf]. clear IH. split.
    { constructor; [by apply update_dir_names|done|done| |].
      - intros nm c [[_ ?]|[-> _]]%update_dir_elem; [by eapply H4|done|done].
      - intros nm c [[_ ?]|[_ ->]]%update_dir_elem; [by eapply H5|exact IHw|done]. }
    intros [|nm [|nm2 p]] o.
    + split; [by intros ?%file_in_nil|].
      destruct (parts_path (part2 :: parts)) as [q|]; simpl; [|by intros ?%file_in_nil].
      intros [[? _]|[_ ?%file_in_nil]]; done.
    + rewrite !file_in_single. cbn [tn_blobs].
      destruct (parts_path (part2 :: parts)) as [q|] eqn:Eq; simpl; rewrite ?file_in_single; [|tauto].
      apply parts_path_nonempty in Eq. simpl. naive_solver.
    + rewrite (file_in_cons (mk_treeNode (update_dir _ _ _) _)) by done. cbn [tn_dirs].
      assert ((∃ child, (nm, child) ∈ update_dir (insert_parts (part2 :: parts) oid) part ds ∧
        file_in child (nm2 :: p) o) ↔
        (nm ≠ part ∧ ∃ child, (nm, child) ∈ ds ∧ file_in child (nm2 :: p) o) ∨
        (nm = part ∧ file_in (insert_parts (part2 :: parts) oid (child_of ds part)) (nm2 :: p) o)) as ->.
      { setoid_rewrite update_dir_elem; [|done]. fold (child_of ds part). naive_solver. }
      rewrite IHf. destruct (parts_path (part2 :: parts)) as [q|]; cbn [fmap option_fmap option_map].
      * rewrite file_in_child, (file_in_cons (mk_treeNode ds bs) nm (nm2 :: p)) by done. cbn [tn_dirs].
        destruct (decide (nm = part)) as [->|Hne].
        -- assert (part :: nm2 :: p = part :: q ↔ nm2 :: p = q) as Hq by (split; congruence).
           rewrite Hq. tauto.
        -- assert (nm :: nm2 :: p ≠ part :: q) as Hq by congruence. tauto.
      * rewrite file_in_child, (file_in_cons (mk_treeNode ds bs) nm (nm2 :: p)) by done. cbn [tn_dirs].
        destruct (decide (nm = part)) as [->|Hne]; tauto.
Qed.

(** ** Tree objects read back *)

Definition to_git (e : treeEntry) : gitTreeEntry :=
  mk_gitTreeEntry (en_mode e) (en_name e) (en_oid e).
Definition dir_entry (x : string * treeBuildResult) : treeEntry :=
  mk_treeEntry "40000" x.1 (tb_oid x.2).
Definition blob_entry (x : string * string) : treeEntry := mk_treeEntry "100644" x.1 x.2.

Definition ok_entry (e : treeEntry) : Prop :=
  (en_mode e = "40000" ∨ en_mode e = "100644") ∧ ok_name (en_name e) ∧ ok_oid (en_oid e).

Lemma ok_oid_computed kind data : ok_oid (computeGitOID kind data).
Proof. exists (sha1 (git_object_bytes kind data)). split; [apply length_sha1|done]. Qed.

Lemma parse_entry fuel e h rest :
  (en_mode e = "40000" ∨ en_mode e = "100644") → ok_name (en_name e) → length h = 20%nat →
  en_oid e = hex_encode h →
  parseTreeEntries_loop (S fuel)
    (bytes_of (en_mode e) ++ [Byte.x20] ++ bytes_of (en_name e) ++ [Byte.x00] ++ h ++ rest)
  = to_git e :: parseTreeEntries_loop fuel rest.
Proof.
  intros Hm Hn Hh He. cbn [parseTreeEntries_loop app].
  rewrite cut_byte_app; [|destruct Hm as [-> | ->]; by vm_compute; set_solver].
  cbn [app]. rewrite cut_byte_app by done.
  destruct (Z.ltb_spec (zlen (h ++ rest)) 20) as [Hlt|_].
  { rewrite zlen_app in Hlt. unfold zlen in Hlt. lia. }
  rewrite take_app_length', drop_app_length' by done.
  unfold to_git. by rewrite He, !string_of_bytes_of.
Qed.

Lemma write_entries es : Forall ok_entry es → ∀ acc, ∃ tail,
  foldM write_entry acc es = Ok (acc ++ tail) ∧ (length es ≤ length tail)%nat ∧
  ∀ fuel, (length es ≤ fuel)%nat → parseTreeEntries_loop fuel tail = to_git <$> es.
Proof.
  induction 1 as [|e es (Hm & Hn & h & Hh & He) _ IH]; intros acc.
  { exists []. split; [by rewrite app_nil_r|]. split; [done|]. by intros [|fuel] _. }
  assert (write_entry acc e = Ok (acc ++ bytes_of (en_mode e) ++ [Byte.x20] ++ bytes_of (en_name e)
    ++ [Byte.x00] ++ h)) as Hwe.
  { unfold write_entry. by rewrite He, hex_decode_encode, decide_True. }
  cbn [foldM]. rewrite Hwe. res_simpl.
  destruct (IH (acc ++ bytes_of (en_mode e) ++ [Byte.x20] ++ bytes_of (en_name e) ++ [Byte.x00] ++ h))
    as (tail & Hf & Hlen & Hp).
  exists (bytes_of (en_mode e) ++ [Byte.x20] ++ bytes_of (en_name e) ++ [Byte.x00] ++ h ++ tail).
  split; [rewrite Hf; f_equal; by rewrite <-!app_assoc|]. split.
  - rewrite !length_app. simpl. lia.
  - intros [|fuel] Hfuel; [simpl in Hfuel; lia|]. rewrite parse_entry by done.
    rewrite fmap_cons. f_equal. apply Hp. simpl in Hfuel. lia.
Qed.

Lemma write_entries_parse es : Forall ok_entry es →
  ∃ data, foldM write_entry [] es = Ok data ∧ parseTreeEntries data = to_git <$> es.
Proof.
  intros H. destruct (write_entries es H []) as (data & Hf & Hlen & Hp).
  exists data. split; [done|]. by apply Hp.
Qed.

Section build.
Context `{TreeRangingLaws}.

Lemma add_dirs_spec L es os :
  foldM add_dir (es, os) (map (λ x : string * treeBuildResult, (x.1, Ok x.2)) L)
  = Ok (es ++ map dir_entry L, os ++ concat (map (λ x, tb_objects x.2) L)).
Proof.
  revert es os. induction L as [|x L IH]; intros es os; simpl; [by rewrite !app_nil_r|].
  rewrite IH. f_equal. f_equal; by rewrite <-app_assoc.
Qed.

(** What a directory is built into: its subdirectories are built, in some
    order, and listed with its blobs. *)
Record built (node : treeNode) (res : treeBuildResult) (L : list (string * treeBuildResult))
    (bl : list (string * string)) (data : bytes) : Prop := mk_built {
  bt_dirs : L.*1 ≡ₚ (tn_dirs node).*1;
  bt_child : ∀ name r, (name, r) ∈ L ↔
    ∃ child, (name, child) ∈ tn_dirs node ∧ buildTreeObjects child = Ok r;
  bt_blobs : bl ≡ₚ map_to_list (tn_blobs node);
  bt_data : foldM write_entry [] (sort_entries (map dir_entry L ++ map blob_entry bl))
            = Ok data;
  bt_parse : parseTreeEntries data
             = to_git <$> sort_entries (map dir_entry L ++ map blob_entry bl);
  bt_res : res = mk_treeBuildResult (computeGitOID "tree" data)
    (concat (map (λ x, tb_objects x.2) L) ++ [mk_GitObject ObjectTree data (computeGitOID "tree" data)]);
}.

(** A list of successful results, in any order. *)
Lemma all_ok_list (l : list (string * res snapshot_error treeBuildResult)) :
  (∀ x, x ∈ l → ∃ r, x.2 = Ok r) → ∃ L, l = map (λ x : string * treeBuildResult, (x.1, Ok x.2)) L.
Proof.
  induction l as [|[n x] l IH]; intros H1; [by exists []|].
  destruct (H1 (n, x)) as [r Hr]; [by left|]. destruct IH as [L ->]; [intros y Hy; apply H1; by right|].
  exists ((n, r) :: L). simpl in *. by rewrite Hr.
Qed.

Lemma buildTreeObjects_built node : wf_node node →
  ∃ res L bl data, buildTreeObjects node = Ok res ∧ built node res L bl data.
Proof.
  induction 1 as [ds bs Hnd Hbn Hbo Hdn Hdw IH].
  set (children := map (λ '(name, child), (name, buildTreeObjects child)) ds).
  assert (∀ x, x ∈ range_dirs children → ∃ r, x.2 = Ok r) as Hok.
  { intros x. rewrite (range_dirs_perm children). unfold children.
    intros ([nm c] & -> & Hc)%list_elem_of_fmap. destruct (IH nm c Hc) as (r & ? & ? & ? & Hr & _).
    by exists r. }
  destruct (all_ok_list _ Hok) as [L HL].
  assert (map (λ x : string * treeBuildResult, (x.1, @Ok snapshot_error _ x.2)) L ≡ₚ children) as HLp
    by (rewrite <-HL; apply range_dirs_perm).
  assert (L.*1 ≡ₚ ds.*1) as Hnames.
  { apply (fmap_Permutation fst) in HLp. revert HLp. unfold children.
    rewrite <-!list_fmap_compose. intros E.
    etransitivity; [|etransitivity; [exact E|]]; apply Permutation_refl'; apply list_fmap_ext;
      [done|by intros ? [? ?] _]. }
  assert (∀ name r, (name, r) ∈ L ↔ ∃ child, (name, child) ∈ ds ∧ buildTreeObjects child = Ok r) as Hchild.
  { intros name r.
    assert ((name, r) ∈ L ↔ (name, @Ok snapshot_error _ r) ∈ children) as ->.
    { rewrite <-HLp. split.
      - intros Hin. apply list_elem_of_fmap. by exists (name, r).
      - intros ([n' r'] & [= -> ->] & Hin)%list_elem_of_fmap. done. }
    unfold children. rewrite list_elem_of_fmap. split.
    - intros ([n' c] & [= -> E] & Hin). by exists c.
    - intros (c & Hin & E). exists (name, c). split; [|done]. cbn beta iota. by rewrite E. }
  set (bl := range_blobs (map_to_list bs)).
  assert (bl ≡ₚ map_to_list bs) as Hbl by apply range_blobs_perm.
  assert (Forall ok_entry (sort_entries (map dir_entry L ++ map blob_entry bl))) as Hes.
  { rewrite sort_entries_perm, Forall_app. split; apply Forall_forall.
    - intros e ([nm r] & -> & Hin)%list_elem_of_fmap. split; [by left|]. simpl.
      apply Hchild in Hin as (c & Hc & Hr). split; [by eapply Hdn|].
      destruct (IH nm c Hc) as (r' & ? & ? & data & Hr' & Hbt).
      assert (r = r') as -> by congruence. rewrite (bt_res _ _ _ _ _ Hbt). apply ok_oid_computed.
    - intros e ([nm o] & -> & Hin)%list_elem_of_fmap. split; [by right|]. simpl.
      rewrite Hbl in Hin. apply elem_of_map_to_list in Hin. split; [by eapply Hbn|by eapply Hbo]. }
  destruct (write_entries_parse _ Hes) as (data & Hw & Hp).
  eexists _, L, bl, data. split; [|by split].
  cbn [buildTreeObjects]. fold children. rewrite HL, add_dirs_spec. res_simpl. cbn [app].
  fold bl. assert (map (λ '(name, oid), mk_treeEntry "100644" name oid) bl = map blob_entry bl) as ->
    by (apply map_ext; by intros []).
  rewrite Hw. by res_simpl.
Qed.
End build.

(** The file at a path below a tree object, by the identifier of its blob: what
    a git client finds that has the objects. *)
Inductive tree_at (objects : gmap string GitObject) : string → list string → string → Prop :=
| at_blob oid obj name boid :
    objects !! oid = Some obj → go_Type obj = ObjectTree →
    mk_gitTreeEntry "100644" name boid ∈ parseTreeEntries (go_Data obj) →
    tree_at objects oid [name] boid
| at_dir oid obj name coid p boid :
    objects !! oid = Some obj → go_Type obj = ObjectTree →
    mk_gitTreeEntry "40000" name coid ∈ parseTreeEntries (go_Data obj) →
    tree_at objects coid p boid → tree_at objects oid (name :: p) boid.

Section readback.
Context `{TreeRangingLaws}.

Lemma built_entries node res L bl data m name oid :
  built node res L bl data →
  mk_gitTreeEntry m name oid ∈ parseTreeEntries data ↔
  (m = "40000" ∧ ∃ child r, (name, child) ∈ tn_dirs node ∧ buildTreeObjects child = Ok r ∧
     oid = tb_oid r) ∨
  (m = "100644" ∧ tn_blobs node !! name = Some oid).
Proof.
  intros Hb. rewrite (bt_parse _ _ _ _ _ Hb), list_elem_of_fmap.
  setoid_rewrite sort_entries_perm. setoid_rewrite elem_of_app. split.
  - intros (e & He & [Hin|Hin]); apply list_elem_of_fmap in Hin as ([nm x] & -> & Hin);
      injection He as -> -> ->.
    + left. split; [done|]. apply (bt_child _ _ _ _ _ Hb) in Hin as (c & ? & ?). by exists c, x.
    + right. split; [done|]. rewrite (bt_blobs _ _ _ _ _ Hb) in Hin. by apply elem_of_map_to_list in Hin.
  - intros [(-> & c & r & Hc & Hr & ->)|[-> Hn]].
    + exists (dir_entry (name, r)). split; [done|]. left. apply list_elem_of_fmap.
      exists (name, r). split; [done|]. apply (bt_child _ _ _ _ _ Hb). by exists c.
    + exists (blob_entry (name, oid)). split; [done|]. right. apply list_elem_of_fmap.
      exists (name, oid). split; [done|]. rewrite (bt_blobs _ _ _ _ _ Hb). by apply elem_of_map_to_list.
Qed.

Definition holds_all (objects : gmap string GitObject) (l : list GitObject) : Prop :=
  ∀ o, o ∈ l → objects !! go_OID o = Some o.

(** The objects of a directory are its own tree and those of its children. *)
Lemma built_objects node res L bl data o :
  built node res L bl data →
  o ∈ tb_objects res ↔
  o = mk_GitObject ObjectTree data (tb_oid res) ∨
  ∃ name child r, (name, child) ∈ tn_dirs node ∧ buildTreeObjects child = Ok r ∧ o ∈ tb_objects r.
Proof.
  intros Hb. rewrite (bt_res _ _ _ _ _ Hb). simpl. rewrite elem_of_app, list_elem_of_singleton.
  split; intros [Ho|Ho]; [|by left|by right|].
  - right. apply elem_of_concat in Ho as (os & Hos & Ho).
    apply list_elem_of_fmap in Hos as ([nm r] & -> & Hin).
    apply (bt_child _ _ _ _ _ Hb) in Hin as (c & ? & ?). by exists nm, c, r.
  - left. destruct Ho as (nm & c & r & Hc & Hr & Ho). apply elem_of_concat.
    exists (tb_objects r). split; [|done]. apply list_elem_of_fmap. exists (nm, r). split; [done|].
    apply (bt_child _ _ _ _ _ Hb). by exists c.
Qed.

(** The tree objects of a directory say which files are in it. *)
Lemma tree_at_build node : wf_node node → ∀ res objects,
  buildTreeObjects node = Ok res → holds_all objects (tb_objects res) →
  ∀ p boid, tree_at objects (tb_oid res) p boid ↔ file_in node p boid.
Proof.
  intros Hwf. induction Hwf as [ds bs Hnd Hbn Hbo Hdn Hdw IH].
  intros res objects Hres Hall.
  destruct (buildTreeObjects_built _ (wf_mk ds bs Hnd Hbn Hbo Hdn Hdw)) as (r0 & L & bl & data & Hr0 & Hb).
  assert (r0 = res) as -> by congruence. clear Hr0.
  pose proof (Hall _ (proj2 (built_objects _ _ _ _ _ _ Hb) (or_introl eq_refl))) as Hown. cbn [go_OID] in Hown.
  intros p boid. split.
  - inversion 1 as [? obj nm ? Ho Ht He|? obj nm co q ? Ho Ht He Hc]; subst;
      rewrite Hown in Ho; injection Ho as <-; cbn [go_Data] in He;
      apply (built_entries _ _ _ _ _ _ _ _ Hb) in He as [[Hm He]|[Hm He]]; try discriminate Hm.
    + by constructor.
    + destruct He as (c & r & Hin & Hr & ->). econstructor; [exact Hin|].
      eapply IH; [exact Hin|exact Hr| |exact Hc].
      intros o Hin'. apply Hall, (built_objects _ _ _ _ _ _ Hb). right. by exists nm, c, r.
  - inversion 1 as [n nm o Hbl|n nm c q o Hin Hf]; subst.
    + eapply at_blob; [exact Hown|done|]. apply (built_entries _ _ _ _ _ _ _ _ Hb). by right.
    + destruct (buildTreeObjects_built c (Hdw _ _ Hin)) as (r & ? & ? & ? & Hr & _).
      eapply at_dir; [exact Hown|done| |].
      * apply (built_entries _ _ _ _ _ _ _ _ Hb). left. split; [done|]. by exists c, r.
      * eapply IH; [exact Hin|exact Hr| |exact Hf].
        intros o' Hin'. apply Hall, (built_objects _ _ _ _ _ _ Hb). right. by exists nm, c, r.
Qed.

(** Every object has the identifier of its content, and every entry of a tree
    is another tree or the blob of a file. *)
Lemma build_closed node : wf_node node → ∀ res, buildTreeObjects node = Ok res →
  (∃ o, o ∈ tb_objects res ∧ go_OID o = tb_oid res) ∧
  ∀ o, o ∈ tb_objects res →
    go_Type o = ObjectTree ∧ go_OID o = computeGitOID "tree" (go_Data o) ∧
    ∀ e, e ∈ parseTreeEntries (go_Data o) →
      te_oid e ∈ go_OID <$> tb_objects res ∨ ∃ p, file_in node p (te_oid e).
Proof.
  intros Hwf. induction Hwf as [ds bs Hnd Hbn Hbo Hdn Hdw IH]. intros res Hres.
  destruct (buildTreeObjects_built _ (wf_mk ds bs Hnd Hbn Hbo Hdn Hdw)) as (r0 & L & bl & data & Hr0 & Hb).
  assert (r0 = res) as -> by congruence. clear Hr0.
  split.
  { eexists. split; [by apply (built_objects _ _ _ _ _ _ Hb); left|done]. }
  intros o [->|(nm & c & r & Hin & Hr & Ho)]%(built_objects _ _ _ _ _ _ Hb).
  - split; [done|]. split; [by rewrite (bt_res _ _ _ _ _ Hb)|]. intros [m nm oid].
    intros [(-> & c & r & Hc & Hr & ->)|[-> Hn]]%(built_entries _ _ _ _ _ _ _ _ Hb).
    + left. destruct (IH nm c Hc r Hr) as [(o & Ho & Hoid) _]. cbn [te_oid]. rewrite <-Hoid.
      apply list_elem_of_fmap. exists o. split; [done|].
      apply (built_objects _ _ _ _ _ _ Hb). right. by exists nm, c, r.
    + right. exists [nm]. by constructor.
  - destruct (IH nm c Hin r Hr) as [_ Hall]. destruct (Hall o Ho) as (? & ? & Hents).
    split; [done|]. split; [done|]. intros e He. destruct (Hents e He) as [Hl|(p & Hf)].
    + left. apply list_elem_of_fmap in Hl as (o' & -> & Ho'). apply list_elem_of_fmap.
      exists o'. split; [done|]. apply (built_objects _ _ _ _ _ _ Hb). right. by exists nm, c, r.
    + right. exists (nm :: p). by econstructor.
Qed.
End readback.

(** ** From files to trees *)

(** The content of a listed file, if it can be read. *)
Definition file_content (d : DB) (file : snapshotFile) : option bytes :=
  if decide (sf_Path file = "" ∨ sf_ContentDigest file = "") then None
  else match hex_decode (sf_ContentDigest file) with
       | None => None
       | Some contentDigest =>
         match ExtractObjectFromDB d contentDigest with Ok (content, _) => Some content | _ => None end
       end.

(** What a checkout of the files should have: the content at each path, the
    last entry counting. *)
Definition checkout_step (d : DB) (m : gmap (list string) bytes) (file : snapshotFile) :
    gmap (list string) bytes :=
  match file_content d file, parts_path (split_path (sf_Path file)) with
  | Some content, Some p => <[p := content]> m
  | _, _ => m
  end.
Definition checkout (d : DB) (files : list snapshotFile) : gmap (list string) bytes :=
  foldl (checkout_step d) ∅ files.

Definition blob_of (content : bytes) : GitObject :=
  mk_GitObject ObjectBlob content (computeGitOID "blob" content).

(** The file at a path of a tree, by its content. *)
Definition tree_file (objects : gmap string GitObject) (oid : string) (p : list string)
    (content : bytes) : Prop :=
  ∃ boid obj, tree_at objects oid p boid ∧ objects !! boid = Some obj ∧
    go_Type obj = ObjectBlob ∧ go_Data obj = content.

Lemma split_byte_sub c l x : x ∈ split_byte c l → ∀ b, b ∈ x → b ∈ l.
Proof.
  revert x. induction l as [|a l IH]; intros x; simpl.
  { intros ->%list_elem_of_singleton b Hb. done. }
  destruct (decide (a = c)).
  - intros [->|Hx]%elem_of_cons b Hb; [by apply elem_of_nil in Hb|right; by eapply IH].
  - destruct (split_byte c l) as [|y ys] eqn:E.
    + intros ->%list_elem_of_singleton b Hb%list_elem_of_singleton. subst. by left.
    + intros [->|Hx]%elem_of_cons b Hb.
      * apply elem_of_cons in Hb as [->|Hb]; [by left|]. right. eapply IH; [by left|done].
      * right. eapply IH; [by right|done].
Qed.

Lemma split_path_ok path : Byte.x00 ∉ bytes_of path → Forall ok_name (split_path path).
Proof.
  intros H. apply Forall_forall. intros x (y & -> & Hy)%list_elem_of_fmap.
  unfold ok_name. rewrite bytes_of_string_of. intros Hx. apply H. by eapply split_byte_sub.
Qed.

(** The state of the loop over the files describes the checkout so far. *)
Record files_inv (m : gmap (list string) bytes) (root : treeNode) (blobs : list GitObject) : Prop := {
  fi_wf : wf_node root;
  fi_in : ∀ p boid, file_in root p boid ↔ ∃ c, m !! p = Some c ∧ boid = computeGitOID "blob" c;
  fi_blobs : ∀ p c, m !! p = Some c → blob_of c ∈ blobs;
  fi_valid : ∀ o, o ∈ blobs → o = blob_of (go_Data o);
}.

Lemma files_inv_empty : files_inv ∅ empty_node [].
Proof.
  split; [apply wf_empty|..].
  - intros p boid. split; [by intros ?%file_in_empty|]. by intros (c & Hc & _).
  - by intros ?? ?.
  - by intros ? ?%elem_of_nil.
Qed.

Lemma add_file_inv d m root blobs file :
  (∀ digest, ExtractObjectFromDB d digest ≠ Panic) → Byte.x00 ∉ bytes_of (sf_Path file) →
  files_inv m root blobs →
  ∃ root' blobs', add_file d (root, blobs) file = Ok (root', blobs') ∧
    files_inv (checkout_step d m file) root' blobs'.
Proof.
  intros Hnp Hpath [Hwf Hin Hbl Hval]. unfold add_file, checkout_step, file_content.
  case_decide; [by exists root, blobs|].
  destruct (hex_decode (sf_ContentDigest file)) as [dg|]; [|by exists root, blobs].
  destruct (ExtractObjectFromDB d dg) as [[content k]|e|] eqn:E; [|by exists root, blobs|by apply Hnp in E].
  eexists _, _. split; [done|].
  destruct (insert_parts_spec (split_path (sf_Path file)) (computeGitOID "blob" content) root Hwf
    (split_path_ok _ Hpath) (ok_oid_computed _ _)) as [Hwf' Hin'].
  fold (insertPath root (sf_Path file) (computeGitOID "blob" content)) in Hwf', Hin'.
  assert (∀ o, o ∈ blobs ++ [blob_of content] → o = blob_of (go_Data o)) as Hval'.
  { intros o [?|Ho]%elem_of_app; [auto|]. by apply list_elem_of_singleton in Ho as ->. }
  destruct (parts_path (split_path (sf_Path file))) as [q|] eqn:Eq.
  - split; [done| | |done].
    + intros p boid. rewrite Hin', Hin. split.
      * intros [[-> ->]|[Hpq (c & Hc & ->)]].
        -- exists content. by rewrite lookup_insert_eq.
        -- exists c. by rewrite lookup_insert_ne.
      * intros (c & [[-> ->]|[Hne Hc]]%lookup_insert_Some & ->); [by left|]. right. split; [done|]. eauto.
    + intros p c [[-> ->]|[Hne Hc]]%lookup_insert_Some; apply elem_of_app; [right; by left|left; eauto].
  - split; [done| | |done].
    + intros p boid. by rewrite Hin'.
    + intros p c Hc. apply elem_of_app. left. eauto.
Qed.

Lemma add_files_inv d files m root blobs :
  (∀ digest, ExtractObjectFromDB d digest ≠ Panic) →
  (∀ file, file ∈ files → Byte.x00 ∉ bytes_of (sf_Path file)) →
  files_inv m root blobs →
  ∃ root' blobs', foldM (add_file d) (root, blobs) files = Ok (root', blobs') ∧
    files_inv (foldl (checkout_step d) m files) root' blobs'.
Proof.
  intros Hnp. revert m root blobs. induction files as [|f files IH]; intros m root blobs Hf Hinv.
  { by exists root, blobs. }
  destruct (add_file_inv d m root blobs f Hnp) as (r1 & b1 & E1 & H1); [apply Hf; by left|done|].
  destruct (IH _ r1 b1 (λ file Hin, Hf file (list_elem_of_further _ _ _ Hin)) H1) as (r2 & b2 & E2 & H2).
  exists r2, b2. split; [|done]. cbn [foldM]. rewrite E1. by res_simpl.
Qed.

(** The git objects made from the files of a snapshot are complete and
    say exactly what the files are.  Every object carries the identifier of
    its content; every entry of a tree refers to an object that is sent along;
    and a client that keeps the objects by identifier finds, walking the trees
    from the root, exactly the paths and contents of the checkout - of every
    listed file that can be read, the last one where a path is listed twice. *)
Lemma buildTreeFromFiles_ok `{TreeRangingLaws} d files :
  (∀ digest, ExtractObjectFromDB d digest ≠ Panic) →
  (∀ file, file ∈ files → Byte.x00 ∉ bytes_of (sf_Path file)) →
  ∃ tree blobs, buildTreeFromFiles d files = Ok (tree, blobs) ∧
    let objs := blobs ++ tb_objects tree in
    (∀ o, o ∈ objs → go_OID o = computeGitOID (type_name (go_Type o)) (go_Data o)) ∧
    (∀ o e, o ∈ objs → go_Type o = ObjectTree → e ∈ parseTreeEntries (go_Data o) →
       te_oid e ∈ go_OID <$> objs) ∧
    tb_oid tree ∈ go_OID <$> objs ∧
    ∀ objects, holds_all objects objs →
      ∀ p content, tree_file objects (tb_oid tree) p content ↔ checkout d files !! p = Some content.
Proof.
  intros Hnp Hf.
  destruct (add_files_inv d files ∅ empty_node [] Hnp Hf files_inv_empty)
    as (root & blobs & Efold & [Hwf Hin Hbl Hval]).
  destruct (buildTreeObjects_built root Hwf) as (tree & L & bl & data & Etree & Hb).
  destruct (build_closed root Hwf tree Etree) as [Hroot Hclosed].
  exists tree, blobs. split.
  { unfold buildTreeFromFiles. rewrite Efold. res_simpl. rewrite Etree. by res_simpl. }
  cbv zeta. split; [|split; [|split]].
  - intros o [Ho|Ho]%elem_of_app; [by rewrite (Hval o Ho)|].
    destruct (Hclosed o Ho) as (-> & -> & _). done.
  - intros o e [Ho|Ho]%elem_of_app Hty He; [by rewrite (Hval o Ho) in Hty|].
    rewrite fmap_app, elem_of_app.
    destruct (Hclosed o Ho) as (_ & _ & Hents). destruct (Hents e He) as [?|(p & Hp)]; [by right|left].
    apply Hin in Hp as (c & Hc & ->). apply list_elem_of_fmap. exists (blob_of c).
    split; [done|by eapply Hbl].
  - destruct Hroot as (o & Ho & <-). rewrite fmap_app, elem_of_app. right.
    apply list_elem_of_fmap. by exists o.
  - intros objects Hall p content.
    assert (holds_all objects (tb_objects tree)) as Htrees by (intros o Ho; apply Hall, elem_of_app; by right).
    unfold tree_file. setoid_rewrite (tree_at_build root Hwf tree objects Etree Htrees).
    setoid_rewrite Hin.
    assert (∀ c, checkout d files !! p = Some c → objects !! computeGitOID "blob" c = Some (blob_of c)) as Hget.
    { intros c Hc. apply (Hall (blob_of c)), elem_of_app. left. by eapply Hbl. }
    split.
    + intros (boid & obj & (c & Hc & ->) & Hobj & _ & <-). rewrite (Hget c Hc) in Hobj.
      by injection Hobj as <-.
    + intros Hc. exists (computeGitOID "blob" content), (blob_of content). repeat split; eauto.
Qed.

(** ** Independence of the map orders *)

(** No directory has a file and a subdirectory of one name. *)
Inductive no_clash : treeNode → Prop :=
| no_clash_mk ds bs :
    (∀ name child oid, (name, child) ∈ ds → bs !! name = Some oid → False) →
    (∀ name child, (name, child) ∈ ds → no_clash child) →
    no_clash (mk_treeNode ds bs).

(** Two sorted lists of the same entries agree if the names are different. *)
Lemma sorted_entries_unique (l k : list treeEntry) :
  Sorted name_before l → Sorted name_before k → l ≡ₚ k → NoDup (en_name <$> l) → l = k.
Proof.
  intros Hl Hk Hlk Hnd.
  assert (Transitive name_before) as Htr by (intros x y z; apply str_le_trans).
  apply (Sorted_unique_strong name_before); [|done..].
  intros x y Hx Hy Hxy Hyx. rewrite <-Hlk in Hy.
  pose proof (str_le_antisym _ _ Hxy Hyx) as Hn.
  apply list_elem_of_lookup in Hx as [i Hi]. apply list_elem_of_lookup in Hy as [j Hj].
  assert (i = j) as ->; [|congruence].
  eapply (NoDup_lookup _ i j (en_name x) Hnd); rewrite list_lookup_fmap; [by rewrite Hi|by rewrite Hj, Hn].
Qed.

Lemma built_names ds bs res L bl data `{TreeRanging} :
  NoDup (ds.*1) → (∀ name child oid, (name, child) ∈ ds → bs !! name = Some oid → False) →
  built (mk_treeNode ds bs) res L bl data →
  NoDup (L.*1) ∧ NoDup (en_name <$> map dir_entry L ++ map blob_entry bl).
Proof.
  intros Hnd Hcl Hb. pose proof (bt_dirs _ _ _ _ _ Hb) as HL. cbn [tn_dirs] in HL.
  pose proof (bt_blobs _ _ _ _ _ Hb) as Hbl. cbn [tn_blobs] in Hbl.
  assert (en_name <$> map dir_entry L = L.*1) as HLn
    by (rewrite <-list_fmap_compose; by apply list_fmap_ext).
  assert (en_name <$> map blob_entry bl = bl.*1) as Hbn
    by (rewrite <-list_fmap_compose; by apply list_fmap_ext).
  assert (NoDup (L.*1)) as HLnd by (by rewrite HL). split; [done|].
  rewrite fmap_app, HLn, Hbn. apply NoDup_app. split; [done|]. split.
  - intros nm. rewrite HL, Hbl. intros ([? c] & -> & Hc)%list_elem_of_fmap
      ([? o] & ? & Ho)%list_elem_of_fmap. simpl in *. subst.
    apply elem_of_map_to_list in Ho. by eapply Hcl.
  - rewrite Hbl. apply NoDup_fst_map_to_list.
Qed.

Section deterministic.
Context (R1 R2 : TreeRanging) {L1 : @TreeRangingLaws R1} {L2 : @TreeRangingLaws R2}.

(** The tree objects of a snapshot do not depend on the order in which Go
    ranges over its maps, provided no directory has a file and a subdirectory
    of one name: the identifier of the root is the same - so an identifier
    that was advertised can be fetched - and so are the objects. *)
Theorem buildTreeObjects_deterministic node :
  wf_node node → no_clash node →
  ∃ r1 r2, @buildTreeObjects R1 node = Ok r1 ∧ @buildTreeObjects R2 node = Ok r2 ∧
    tb_oid r1 = tb_oid r2 ∧ ∀ o, o ∈ tb_objects r1 ↔ o ∈ tb_objects r2.
Proof.
  intros Hwf. induction Hwf as [ds bs Hnd Hbn Hbo Hdn Hdw IH]. intros Hcl.
  inversion Hcl as [? ? Hcl1 Hcl2]; subst.
  pose proof (wf_mk ds bs Hnd Hbn Hbo Hdn Hdw) as Hwf.
  destruct (@buildTreeObjects_built R1 L1 _ Hwf) as (r1 & M1 & b1 & d1 & E1 & B1).
  destruct (@buildTreeObjects_built R2 L2 _ Hwf) as (r2 & M2 & b2 & d2 & E2 & B2).
  destruct (built_names _ _ _ _ _ _ Hnd Hcl1 B1) as [N1 NE1].
  destruct (built_names _ _ _ _ _ _ Hnd Hcl1 B2) as [N2 NE2].
  assert (∀ name oid, (∃ r, (name, r) ∈ M1 ∧ oid = tb_oid r) ↔ (∃ r, (name, r) ∈ M2 ∧ oid = tb_oid r)) as Hoids.
  { intros nm oid. setoid_rewrite (bt_child _ _ _ _ _ B1). setoid_rewrite (bt_child _ _ _ _ _ B2).
    split; intros (r & (c & Hc & Hr) & ->);
      destruct (IH nm c Hc (Hcl2 nm c Hc)) as (x1 & x2 & X1 & X2 & Ex & _);
      [exists x2|exists x1]; (split; [by exists c|]); congruence. }
  assert (map dir_entry M1 ++ map blob_entry b1 ≡ₚ map dir_entry M2 ++ map blob_entry b2) as Hperm.
  { rewrite (bt_blobs _ _ _ _ _ B1), (bt_blobs _ _ _ _ _ B2). apply Permutation_app_tail.
    rewrite fmap_app in NE1, NE2.
    apply NoDup_app in NE1 as [NE1 _]. apply NoDup_app in NE2 as [NE2 _].
    apply NoDup_fmap_1 in NE1. apply NoDup_fmap_1 in NE2.
    apply NoDup_Permutation; [done|done|]. intros [m nm oid]. rewrite !list_elem_of_fmap.
    specialize (Hoids nm oid). unfold dir_entry. split.
    - intros ([n' r] & [= -> <- Ho] & Hin). destruct (proj1 Hoids) as (r' & ? & Er); [by exists r|].
      exists (nm, r'). simpl. by rewrite <-Er.
    - intros ([n' r] & [= -> <- Ho] & Hin). destruct (proj2 Hoids) as (r' & ? & Er); [by exists r|].
      exists (nm, r'). simpl. by rewrite <-Er. }
  assert (d1 = d2) as ->.
  { pose proof (bt_data _ _ _ _ _ B1) as X1. pose proof (bt_data _ _ _ _ _ B2) as X2.
    rewrite (sorted_entries_unique (@sort_entries R1 (map dir_entry M1 ++ map blob_entry b1))
      (@sort_entries R2 (map dir_entry M2 ++ map blob_entry b2))) in X1; [congruence|..].
    - apply sort_entries_sorted.
    - apply sort_entries_sorted.
    - rewrite (@sort_entries_perm R1 L1), (@sort_entries_perm R2 L2). exact Hperm.
    - rewrite (@sort_entries_perm R1 L1). exact NE1. }
  assert (tb_oid r1 = tb_oid r2) as Hoid
    by (by rewrite (bt_res _ _ _ _ _ B1), (bt_res _ _ _ _ _ B2)).
  exists r1, r2. split; [done|]. split; [done|]. split; [done|]. intros o.
  rewrite (built_objects _ _ _ _ _ _ B1), (built_objects _ _ _ _ _ _ B2), Hoid. cbn [tn_dirs].
  split; (intros [?|(nm & c & r & Hc & Hr & Ho)]; [by left|right];
    destruct (IH nm c Hc (Hcl2 nm c Hc)) as (x1 & x2 & X1 & X2 & _ & Ex)).
  - exists nm, c, x2. split; [done|]. split; [done|]. apply Ex. congruence.
  - exists nm, c, x1. split; [done|]. split; [done|]. apply Ex. congruence.
Qed.
End deterministic.

(** ** A concrete snapshot *)

#[export] Instance name_before_dec : RelDecision name_before.
Proof. intros x y. unfold name_before. apply _. Defined.

Definition tree_ranging : TreeRanging :=
  {| range_dirs l := l; range_blobs l := l; sort_entries l := merge_sort name_before l |}.
Definition tree_ranging_laws : @TreeRangingLaws tree_ranging.
Proof.
  split; intros l; simpl; [done|done|apply merge_sort_Permutation|].
  apply Sorted_merge_sort. intros x y. apply str_le_total.
Defined.

(** Two objects in one segment: "hi" under the digest 01, a file "a.txt"
    object under 02. *)
Definition demo_db : DB :=
  set_objects (<[[Byte.x01] := mk_ObjectInfo [Byte.x01] 1 0 2 "File" 0]>
              (<[[Byte.x02] := mk_ObjectInfo [Byte.x02] 1 2 3 "File" 0]> ∅))
    (set_segments {[1 := mk_Segment 0 [] 5 (bytes_of "hiyes")]} 1 empty_db).

Lemma demo_db_extract digest : ExtractObjectFromDB demo_db digest ≠ Panic.
Proof.
  unfold ExtractObjectFromDB, ExtractObject, GetObject.
  destruct (db_objects demo_db !! digest) as [info|] eqn:E; [|done].
  unfold demo_db in E. cbn [db_objects set_objects] in E.
  apply lookup_insert_Some in E as [[_ <-]|[_ E]]; [by vm_compute|].
  apply lookup_insert_Some in E as [[_ <-]|[_ E]]; [by vm_compute|].
  by rewrite lookup_empty in E.
Qed.

Definition demo_snapshot_files : list snapshotFile :=
  [mk_snapshotFile "src/a" "01"; mk_snapshotFile "b" "02"; mk_snapshotFile "src/a" "02"].

Definition keep (l : list GitObject) : gmap string GitObject :=
  list_to_map ((λ o, (go_OID o, o)) <$> l).

Definition demo_node : treeNode :=
  mk_treeNode [("a", mk_treeNode [] {["x" := computeGitOID "blob" []]})]
    {["a.txt" := computeGitOID "blob" []]}.

Definition tree_ranging_rev : TreeRanging :=
  {| range_dirs l := reverse l; range_blobs l := reverse l;
     sort_entries l := merge_sort name_before (reverse l) |}.
Definition tree_ranging_rev_laws : @TreeRangingLaws tree_ranging_rev.
Proof.
  split; intros l; simpl.
  - apply reverse_Permutation.
  - apply reverse_Permutation.
  - rewrite merge_sort_Permutation. apply reverse_Permutation.
  - apply Sorted_merge_sort. intros x y. apply str_le_total.
Defined.

Lemma buildTreeObjects_deterministic_witness :
  ∃ r1 r2, @buildTreeObjects tree_ranging demo_node = Ok r1 ∧
    @buildTreeObjects tree_ranging_rev demo_node = Ok r2 ∧ tb_oid r1 = tb_oid r2.
Proof.
  destruct (@buildTreeObjects_deterministic tree_ranging tree_ranging_rev tree_ranging_laws
    tree_ranging_rev_laws demo_node) as (r1 & r2 & E1 & E2 & E & _).
  - assert (∀ x name oid, ({[x := computeGitOID "blob" []]} : gmap string string) !! name = Some oid →
      name = x ∧ oid = computeGitOID "blob" []) as Hs
      by (intros x nm o [-> <-]%lookup_singleton_Some; done).
    constructor.
    + apply NoDup_singleton.
    + intros nm o [-> _]%Hs. refine (bool_decide_unpack _ _). vm_compute. exact I.
    + intros nm o [_ ->]%Hs. apply ok_oid_computed.
    + intros nm c [= -> _]%list_elem_of_singleton. refine (bool_decide_unpack _ _). vm_compute. exact I.
    + intros nm c [= _ ->]%list_elem_of_singleton. constructor.
      * constructor.
      * intros nm' o [-> _]%Hs. refine (bool_decide_unpack _ _). vm_compute. exact I.
      * intros nm' o [_ ->]%Hs. apply ok_oid_computed.
      * by intros ?? ?%elem_of_nil.
      * by intros ?? ?%elem_of_nil.
  - constructor.
    + intros nm c o [= -> _]%list_elem_of_singleton. by intros [? _]%lookup_singleton_Some.
    + intros nm c [= _ ->]%list_elem_of_singleton. constructor; [by intros ??? ?%elem_of_nil|by intros ?? ?%elem_of_nil].
  - exists r1, r2. exact (conj E1 (conj E2 E)).
Defined.

(** Git orders the entries of a tree as if the names of directories ended in a
    slash: [a.txt] comes before the directory [a].  The tree of [demo_node]
    has them the other way round, so its identifier is not the one git gives
    to a tree of these files. *)
Definition git_sort_name (e : gitTreeEntry) : string :=
  if decide (te_mode e = "40000") then te_name e +:+ "/" else te_name e.
Example tree_order_not_git :
  match @buildTreeObjects tree_ranging demo_node with
  | Ok r => match last (tb_objects r) with
            | Some o => te_name <$> parseTreeEntries (go_Data o) = ["a"; "a.txt"] ∧
                bool_decide (Sorted str_le (git_sort_name <$> parseTreeEntries (go_Data o))) = false
            | None => False
            end
  | _ => False
  end.
Proof. vm_compute. done. Qed.

(** A file [a] beside a directory [a] gives a tree with two entries of that
    name, whose order - and with it the identifier - the language leaves open. *)
Definition clash_node : treeNode :=
  mk_treeNode [("a", mk_treeNode [] {["x" := computeGitOID "blob" []]})]
    {["a" := computeGitOID "blob" []]}.
Example clash_not_deterministic :
  match @buildTreeObjects tree_ranging clash_node, @buildTreeObjects tree_ranging_rev clash_node with
  | Ok r1, Ok r2 => bool_decide (tb_oid r1 = tb_oid r2) = false
  | _, _ => False
  end.
Proof. vm_compute. done. Qed.
