(* ===== verification/GitRefs.v ===== *)
(** * References as git sees them (kailab/sshserver/gitpack.go, ref_adapter.go, handler.go)

    A reference of the store is served as a git reference: its name is mapped,
    and its target - a snapshot, or a change set that a push recorded - is
    resolved to a commit with the objects the commit needs.  Snapshots become
    synthetic commits over the trees of [SnapshotTree]; pushed change sets lead
    back to the packs that were pushed. *)

From S2P Require Import Prelude Sha1 Json Store GitPack ObjectStore ObjectGraph PackBuilder Segment SnapshotTree.
Local Open Scope Z_scope.

(** ** Names *)

(** [strings.HasPrefix] and [strings.TrimPrefix] in one: what follows the
    prefix. *)
Fixpoint strip (p s : string) : option string :=
  match p, s with
  | EmptyString, _ => Some s
  | String a p, String b s => if decide (a = b) then strip p s else None
  | _, _ => None
  end.

Definition MapRefName (name : string) : string :=
  match strip "snap." name with
  | Some x => "refs/heads/" +:+ x
  | None => match strip "ws." name with
  | Some x => "refs/heads/" +:+ x
  | None => match strip "cs." name with
  | Some x => "refs/kai/cs/" +:+ x
  | None => match strip "tag." name with
  | Some x => "refs/tags/" +:+ x
  | None => "refs/kai/" +:+ name
  end end end end.

Definition MapGitRefName (name : string) : option string :=
  match strip "refs/heads/" name with
  | Some x => if decide (x = "") then None else Some ("snap." +:+ x)
  | None => match strip "refs/tags/" name with
  | Some x => if decide (x = "") then None else Some ("tag." +:+ x)
  | None => match strip "refs/kai/cs/" name with
  | Some x => if decide (x = "") then None else Some ("cs." +:+ x)
  | None => match strip "refs/kai/" name with
  | Some x => if decide (x = "") then None else Some x
  | None => None
  end end end end.

(** ** From targets to commits *)

Inductive ref_error :=
| ErrEmptyTarget
| ErrNoCommitOID (refName : string)
| ErrNoPacks
| ErrNoObjects
| ErrRefExtract (e : store_error)
| ErrRefPayload
| ErrRefHex
| ErrSnapshot (e : snapshot_error)
| ErrNoResolvableRefs
| ErrRefFuel.

Record changesetPackInfo := mk_changesetPackInfo {
  ci_packDigest : bytes; ci_gitUpdates : list json }.

(** The change set as [resolveGitPackObjects] reads it; an update is a JSON
    object or null. *)
Record changeset := mk_changeset { cs_GitPack : string; cs_GitUpdates : list json; cs_Head : string }.
Definition read_update (v : json) : option json :=
  match v with JNull | JObj _ => Some v | _ => None end.
Definition unmarshal_changeset (payload : bytes) : option changeset :=
  match parse payload with
  | Some v =>
    match v with
    | JNull | JObj _ =>
      gitPack ← read_field_with "" read_string "gitPack" v;
      gitUpdates ← read_field_with [] (read_array read_update) "gitUpdates" v;
      head ← read_field_with "" read_string "head" v;
      Some (mk_changeset gitPack gitUpdates head)
    | _ => None
    end
  | None => None
  end.
(** The one field [resolveSnapshotDigest] reads. *)
Definition unmarshal_head (payload : bytes) : option string :=
  match parse payload with
  | Some v => match v with JNull | JObj _ => read_field_with "" read_string "head" v | _ => None end
  | None => None
  end.

(** [s, _ := update[k].(string)] *)
Definition string_field (k : string) (update : json) : string :=
  match field (bytes_of k) update with Some (JStr s) => string_of s | _ => "" end.

Definition zeroOID : string := "0000000000000000000000000000000000000000".

(** The first update of the reference that names a commit. *)
Definition find_commit (refName : string) (updates : list json) : string :=
  match List.find (λ update, bool_decide (string_field "ref" update = refName) &&
           negb (bool_decide (string_field "new" update = "")) &&
           negb (bool_decide (string_field "new" update = zeroOID))) updates with
  | Some update => string_field "new" update
  | None => ""
  end.

Section resolve.
Context `{TreeRanging, Zlib}.

(** The loop that follows the change sets to their heads, newest first; any
    failure ends it. *)
Fixpoint collect_changesets (depth : nat) (d : DB) (refName : string) (current : bytes)
    (commitOID : string) (acc : list changesetPackInfo)
  : res ref_error (string * list changesetPackInfo) :=
  match depth with
  | O => Ok (commitOID, acc)
  | S depth =>
    match ExtractObjectFromDB d current with
    | Panic => Panic
    | Err _ => Ok (commitOID, acc)
    | Ok (content, kind) =>
      if negb (bool_decide (kind = "ChangeSet")) then Ok (commitOID, acc)
      else match unmarshal_changeset (parsePayload content) with
      | None => Ok (commitOID, acc)
      | Some cs =>
        let commitOID := if decide (commitOID = "") then find_commit refName (cs_GitUpdates cs)
                         else commitOID in
        let acc := if decide (cs_GitPack cs = "") then acc
                   else match hex_decode (cs_GitPack cs) with
                        | Some packDigest => acc ++ [mk_changesetPackInfo packDigest (cs_GitUpdates cs)]
                        | None => acc
                        end in
        if decide (cs_Head cs = "") then Ok (commitOID, acc)
        else match hex_decode (cs_Head cs) with
             | None => Ok (commitOID, acc)
             | Some next => collect_changesets depth d refName next commitOID acc
             end
      end
    end
  end.

(** The prefix a stored pack carries. *)
Definition unpack_prefix (packContent : bytes) : bytes :=
  if (8 <? zlen packContent) && has_prefix_b (bytes_of "GitPack" ++ [Byte.x0a]) packContent
  then drop 8 packContent else packContent.

(** One round of the loop over the packs, oldest first. *)
Definition add_pack (d : DB) (allObjects : gmap string GitObject) (csInfo : changesetPackInfo)
  : res ref_error (gmap string GitObject) :=
  match ExtractObjectFromDB d (ci_packDigest csInfo) with
  | Panic => Panic
  | Err _ => Ok allObjects
  | Ok (packContent, _) =>
    match parseGitPackWithBases (unpack_prefix packContent) allObjects with
    | Ok objects => Ok (objects ∪ allObjects)
    | Err _ => Ok allObjects
    | Panic => Panic
    end
  end.

Definition resolveGitPackObjects (d : DB) (target : bytes) (refName : string)
  : res ref_error (list GitObject * string) :=
  if bool_decide (target = []) then Err ErrEmptyTarget
  else
    '(commitOID, changesets) ← collect_changesets 20 d refName target "" [];
    _ ← guard_err (bool_decide (commitOID = "")) (ErrNoCommitOID refName);
    _ ← guard_err (bool_decide (changesets = [])) ErrNoPacks;
    allObjects ← foldM (add_pack d) ∅ (reverse changesets);
    _ ← guard_err (bool_decide (allObjects = ∅)) ErrNoObjects;
    result ← map_err (λ _, ErrRefFuel) (collectCommitObjects allObjects commitOID);
    Ok (result, commitOID).

(** The loop of [resolveSnapshotDigest]; [None] is the nil digest. *)
Fixpoint follow_heads (depth : nat) (d : DB) (current : bytes) : res ref_error (option bytes) :=
  match depth with
  | O => Ok None
  | S depth =>
    '(content, kind) ← map_err ErrRefExtract (ExtractObjectFromDB d current);
    if decide (kind = "Snapshot") then Ok (Some current)
    else if decide (kind ≠ "ChangeSet") then Ok None
    else match unmarshal_head (parsePayload content) with
    | None => Err ErrRefPayload
    | Some head =>
      if decide (head = "") then Ok None
      else match hex_decode head with
           | None => Err ErrRefHex
           | Some next => follow_heads depth d next
           end
    end
  end.
Definition resolveSnapshotDigest (d : DB) (target : bytes) : res ref_error (option bytes) :=
  if bool_decide (target = []) then Ok None else follow_heads 10 d target.

Record refBuild := mk_refBuild { rb_refName : string; rb_commit : GitObject; rb_objects : list GitObject }.
Record snapshotObjects := mk_snapshotObjects { so_treeOID : string; so_objects : list GitObject }.
Abbreviation ref_cache := (gmap string snapshotObjects).

Definition no_object : GitObject := mk_GitObject 0 [] "".

(** The commit among the objects - the last one of that identifier - and the
    others. *)
Definition split_commit (gitObjs : list GitObject) (gitCommitOID : string)
  : GitObject * list GitObject :=
  foldl (λ '(commit, objects) obj,
    if decide (go_OID obj = gitCommitOID) then (obj, objects) else (commit, objects ++ [obj]))
    (no_object, []) gitObjs.

(** The synthetic commit of a target that no push explains. *)
Definition synthetic (d : DB) (ref : Ref) (cache : ref_cache)
  : res ref_error (refBuild * ref_cache) :=
  let refName := MapRefName (ref_Name ref) in
  snapshotDigest ← (match resolveSnapshotDigest d (ref_Target ref) with
                    | Ok sd => Ok sd | Err _ => Ok None | Panic => Panic end);
  '(objects, cache) ←
    match snapshotDigest with
    | Some sd =>
      let key := hex_encode sd in
      match cache !! key with
      | Some cached => Ok (cached, cache)
      | None =>
        '(treeOID, objs) ← map_err ErrSnapshot (SnapshotObjects d sd);
        let so := mk_snapshotObjects treeOID objs in
        Ok (so, <[key := so]> cache)
      end
    | None => Ok (mk_snapshotObjects emptyTreeOID [buildEmptyTreeObject], cache)
    end;
  let commit := buildCommitObject refName (hex_encode (ref_Target ref)) (so_treeOID objects) in
  Ok (mk_refBuild refName commit (so_objects objects), cache).

Definition buildRef (d : DB) (ref : Ref) (cache : ref_cache)
  : res ref_error (refBuild * ref_cache) :=
  let refName := MapRefName (ref_Name ref) in
  match resolveGitPackObjects d (ref_Target ref) refName with
  | Panic => Panic
  | Ok (gitObjs, gitCommitOID) =>
    if negb (bool_decide (gitObjs = [])) && negb (bool_decide (gitCommitOID = "")) then
      let '(commit, objects) := split_commit gitObjs gitCommitOID in
      if decide (go_OID commit ≠ "") then Ok (mk_refBuild refName commit objects, cache)
      else synthetic d ref cache
    else synthetic d ref cache
  | Err _ => synthetic d ref cache
  end.

(** One round of the loop over the references. *)
Definition build_step (d : DB)
    (acc : gmap string RefCommitInfo * gmap string string * ref_cache) (ref : Ref)
  : res ref_error (gmap string RefCommitInfo * gmap string string * ref_cache) :=
  let '(result, refToOID, cache) := acc in
  '(built, cache) ← buildRef d ref cache;
  let oid := go_OID (rb_commit built) in
  Ok (<[oid := mk_RefCommitInfo (rb_commit built) (rb_objects built)]> result,
      <[rb_refName built := oid]> refToOID, cache).

Definition buildRefCommits (d : DB)
  : res ref_error (gmap string RefCommitInfo * gmap string string) :=
  '(result, refToOID, _) ← foldM (build_step d) (∅, ∅, ∅) (Store.ListRefs d "");
  Ok (result, refToOID).

(** ** The advertised references *)

Record GitRef := mk_GitRef { gr_Name : string; gr_OID : string }.

Definition longer_than_prefix (p name : string) : bool :=
  match strip p name with Some x => negb (bool_decide (x = "")) | None => false end.
Definition refPriority (name : string) : Z :=
  if decide (name = "refs/heads/main") then 0
  else if decide (name = "refs/heads/master") then 1
  else if longer_than_prefix "refs/heads/" name then 2
  else if longer_than_prefix "refs/tags/" name then 3
  else 4.

(** The inner step: exchange two entries that are in the wrong order. *)
Definition exchange (i : nat) (refs : list GitRef) (j : nat) : list GitRef :=
  match refs !! i, refs !! j with
  | Some a, Some b =>
    if refPriority (gr_Name b) <? refPriority (gr_Name a) then <[i := b]> (<[j := a]> refs)
    else refs
  | _, _ => refs
  end.
Definition sort_pass (n : nat) (refs : list GitRef) (i : nat) : list GitRef :=
  foldl (exchange i) refs (seq (S i) (n - S i)).
Definition sortRefs (refs : list GitRef) : list GitRef :=
  let n := length refs in foldl (sort_pass n) refs (seq 0 n).

(** The names of the mapped references, in the order of the store. *)
Definition selectHeadRef (mapped : list string) : string :=
  match List.find (λ name, bool_decide (is_Some (strip "refs/heads/" name))) mapped with
  | Some name => name
  | None => match mapped with name :: _ => name | [] => "" end
  end.

(** One reference: kept with its identifier, if it has one. *)
Definition map_ref (refToOID : gmap string string) (ref : Ref) : option GitRef :=
  let name := MapRefName (ref_Name ref) in mk_GitRef name <$> refToOID !! name.

(** The explicit HEAD. *)
Definition add_head (headRef : string) (gitRefs : list GitRef) : list GitRef :=
  if decide (headRef = "") then gitRefs
  else match List.find (λ r, bool_decide (gr_Name r = headRef)) gitRefs with
       | Some r => mk_GitRef "HEAD" (gr_OID r) :: gitRefs
       | None => gitRefs
       end.

(** [DBRefAdapter.ListRefs] *)
Definition ListRefs (d : DB) : res ref_error (list GitRef * string) :=
  let refs := Store.ListRefs d "" in
  if bool_decide (refs = []) then Ok ([], "")
  else
    '(_, refToOID) ← buildRefCommits d;
    let gitRefs := omap (map_ref refToOID) refs in
    _ ← guard_err (bool_decide (gitRefs = [])) ErrNoResolvableRefs;
    let headRef := selectHeadRef (gr_Name <$> gitRefs) in
    Ok (add_head headRef (sortRefs gitRefs), headRef).
End resolve.

(** ** The sort of the references *)

Definition prio (r : GitRef) : Z := refPriority (gr_Name r).

(** The first [i] entries are in place: none has a later one that should come
    before it. *)
Definition placed (i : nat) (l : list GitRef) : Prop :=
  ∀ a b x y, (a < i)%nat → (a < b)%nat → l !! a = Some x → l !! b = Some y → prio x ≤ prio y.

Lemma exchange_perm i l j : exchange i l j ≡ₚ l.
Proof.
  unfold exchange. destruct (l !! i) as [a|] eqn:Ei; [|done]. destruct (l !! j) as [b|] eqn:Ej; [|done].
  case_match; [|reflexivity]. exact (Permutation_insert_swap l j i b a Ej Ei).
Qed.

Lemma exchange_lookup i l j k :
  exchange i l j !! k = l !! k ∨
  (k = i ∧ exchange i l j !! k = l !! j) ∨ (k = j ∧ exchange i l j !! k = l !! i).
Proof.
  unfold exchange. destruct (l !! i) as [a|] eqn:Ei; [|by left]. destruct (l !! j) as [b|] eqn:Ej; [|by left].
  case_match; [|by left]. pose proof (lookup_lt_Some _ _ _ Ei). pose proof (lookup_lt_Some _ _ _ Ej).
  destruct (decide (k = i)) as [->|Hi].
  { right. left. by rewrite list_lookup_insert_eq by (rewrite length_insert; lia). }
  rewrite list_lookup_insert_ne by done. destruct (decide (k = j)) as [->|Hj].
  { right. right. by rewrite list_lookup_insert_eq by lia. }
  left. by rewrite list_lookup_insert_ne by done.
Qed.

(** An exchange with a later entry moves nothing that is in place. *)
Lemma exchange_placed i l j : (i < j)%nat → placed i l → placed i (exchange i l j).
Proof.
  intros Hij Hp a b x y Ha Hab Hx Hy.
  assert (l !! a = Some x) as Hx'.
  { destruct (exchange_lookup i l j a) as [E|[[-> _]|[-> _]]]; [by rewrite <-E|lia|lia]. }
  destruct (exchange_lookup i l j b) as [E|[[-> E]|[-> E]]]; rewrite E in Hy.
  - by eapply Hp.
  - eapply (Hp a j); [done|lia|done|done].
  - eapply (Hp a i); [done|lia|done|done].
Qed.

(** Entry [i] after an exchange comes before entry [j], and not after what was
    there. *)
Lemma exchange_min i l j x :
  (i < j)%nat → exchange i l j !! i = Some x →
  (∀ y, exchange i l j !! j = Some y → prio x ≤ prio y) ∧
  (∀ z, l !! i = Some z → prio x ≤ prio z).
Proof.
  intros Hij Hx. unfold exchange in *.
  destruct (l !! i) as [a|] eqn:Ei; [|congruence].
  destruct (l !! j) as [b|] eqn:Ej; [|].
  2: { rewrite Ei in Hx. injection Hx as <-. rewrite Ej. split; [done|]. by intros z [= <-]. }
  pose proof (lookup_lt_Some _ _ _ Ei). pose proof (lookup_lt_Some _ _ _ Ej).
  fold (prio b) in *. fold (prio a) in *.
  destruct (Z.ltb_spec (prio b) (prio a)) as [Hlt|Hge].
  - rewrite list_lookup_insert_eq in Hx by (rewrite length_insert; lia). injection Hx as <-.
    rewrite list_lookup_insert_ne by lia. rewrite list_lookup_insert_eq by lia.
    split; [intros y [= <-]|intros z [= <-]]; lia.
  - rewrite Ei in Hx. injection Hx as <-. rewrite Ej.
    split; [by intros y [= <-]|by intros z [= <-]].
Qed.

Lemma sort_pass_inner i m l :
  placed i l → (∀ x, l !! i = Some x → ∀ b y, (i < b)%nat → (b < m)%nat → l !! b = Some y → prio x ≤ prio y) →
  (i < m)%nat → ∀ k,
  let l' := foldl (exchange i) l (seq m k) in
  l' ≡ₚ l ∧ placed i l' ∧
  (∀ x, l' !! i = Some x → ∀ b y, (i < b)%nat → (b < m + k)%nat → l' !! b = Some y → prio x ≤ prio y).
Proof.
  intros Hp Hmin Him k. revert m l Hp Hmin Him. induction k as [|k IH]; intros m l Hp Hmin Him; simpl.
  { split; [done|]. split; [done|]. by rewrite Nat.add_0_r. }
  destruct (IH (S m) (exchange i l m)) as (H1 & H2 & H3).
  - apply exchange_placed; [lia|done].
  - intros x Hx b y Hib Hbm Hy. destruct (exchange_min i l m x Him Hx) as [Hj Hz].
    destruct (decide (b = m)) as [->|Hne]; [by apply Hj|].
    destruct (exchange_lookup i l m b) as [E|[[-> _]|[-> _]]]; [|lia|lia]. rewrite E in Hy.
    destruct (l !! i) as [z|] eqn:Ei.
    + specialize (Hz z eq_refl). assert (prio z ≤ prio y); [|lia]. eapply (Hmin z eq_refl b y); [done|lia|done].
    + unfold exchange in Hx. rewrite Ei in Hx. congruence.
  - lia.
  - split; [rewrite H1; apply exchange_perm|]. split; [done|].
    intros x Hx b y Hib Hb Hy. eapply H3; [done|done|lia|done].
Qed.

Lemma sort_pass_placed n l i : length l = n → (i < n)%nat → placed i l →
  sort_pass n l i ≡ₚ l ∧ placed (S i) (sort_pass n l i).
Proof.
  intros Hn Hi Hp. unfold sort_pass.
  destruct (sort_pass_inner i (S i) l Hp) with (k := (n - S i)%nat) as (H1 & H2 & H3); [lia..|].
  split; [done|]. set (l' := foldl _ _ _) in *.
  intros a b x y Ha Hab Hx Hy. destruct (decide (a = i)) as [->|Hne].
  - apply (H3 x Hx b y Hab); [|done]. apply lookup_lt_Some in Hy.
    rewrite (Permutation_length H1) in Hy. lia.
  - eapply (H2 a b); [lia|done..].
Qed.

Lemma placed_sorted l : placed (length l) l → Sorted (λ x y, prio x ≤ prio y) l.
Proof.
  induction l as [|x l IH]; intros Hp; [constructor|]. constructor.
  - apply IH. intros a b u v Ha Hab Hu Hv. eapply (Hp (S a) (S b)); simpl; [lia|lia|done|done].
  - destruct l as [|y l]; constructor. eapply (Hp 0%nat 1%nat); simpl; [lia|lia|done|done].
Qed.

(** [sortRefs] sorts by priority. *)
Lemma sortRefs_ok l : sortRefs l ≡ₚ l ∧ Sorted (λ x y, prio x ≤ prio y) (sortRefs l).
Proof.
  unfold sortRefs. set (n := length l).
  assert (∀ k, (k ≤ n)%nat → foldl (sort_pass n) l (seq 0 k) ≡ₚ l ∧
    placed k (foldl (sort_pass n) l (seq 0 k))) as H.
  { induction k as [|k IH]; intros Hk.
    - split; [done|]. intros a b x y Ha. lia.
    - destruct IH as [IH1 IH2]; [lia|]. rewrite seq_S, foldl_app. cbn [foldl].
      destruct (sort_pass_placed n (foldl (sort_pass n) l (seq 0 k)) (0 + k)) as [H1 H2];
        [by rewrite (Permutation_length IH1)|simpl; lia|done|].
      split; [by rewrite H1|done]. }
  destruct (H n (le_n _)) as [H1 H2]. split; [done|]. apply placed_sorted.
  by rewrite (Permutation_length H1).
Qed.

(** ** The advertisement *)

Section advertise.
Context `{TreeRanging, Zlib}.

Lemma synthetic_name d ref cache built cache' :
  synthetic d ref cache = Ok (built, cache') → rb_refName built = MapRefName (ref_Name ref).
Proof. unfold synthetic. intros Hs. res_inv. case_match. res_inv. done. Qed.

Lemma buildRef_name d ref cache built cache' :
  buildRef d ref cache = Ok (built, cache') → rb_refName built = MapRefName (ref_Name ref).
Proof.
  unfold buildRef. intros Hb.
  destruct (resolveGitPackObjects _ _ _) as [[objs oid]|e|]; [|by eapply synthetic_name|done].
  case_match; [|by eapply synthetic_name].
  destruct (split_commit objs oid) as [commit objects].
  case_decide; [by injection Hb as <- _|by eapply synthetic_name].
Qed.

(** Every identifier given to a name belongs to a commit that is kept. *)
Definition commits_ok (rc : gmap string RefCommitInfo) (rt : gmap string string) : Prop :=
  ∀ name oid, rt !! name = Some oid → ∃ info, rc !! oid = Some info ∧ go_OID (rc_Commit info) = oid.

Lemma build_steps_ok d refs rc rt cache r :
  foldM (build_step d) (rc, rt, cache) refs = Ok r →
  commits_ok rc rt →
  commits_ok r.1.1 r.1.2 ∧
  (∀ name, is_Some (rt !! name) → is_Some (r.1.2 !! name)) ∧
  ∀ ref, ref ∈ refs → is_Some (r.1.2 !! MapRefName (ref_Name ref)).
Proof.
  revert rc rt cache. induction refs as [|ref refs IH]; intros rc rt cache Hr Hok; cbn [foldM] in Hr.
  { injection Hr as <-. split; [done|]. split; [done|]. by intros ref ?%elem_of_nil. }
  apply bind_ok_inv in Hr as ([[rc1 rt1] c1] & Hstep & Hr).
  unfold build_step in Hstep. apply bind_ok_inv in Hstep as ([built c2] & Hb & Hstep).
  injection Hstep as <- <- <-.
  pose proof (buildRef_name _ _ _ _ _ Hb) as Hname.
  destruct (IH _ _ _ Hr) as (H1 & H2 & H3).
  { intros name oid [[<- <-]|[Hne Hn]]%lookup_insert_Some.
    - eexists. by rewrite lookup_insert_eq.
    - destruct (Hok name oid Hn) as (info & Hi & Ho).
      destruct (decide (go_OID (rb_commit built) = oid)) as [<-|Hoid].
      + eexists. by rewrite lookup_insert_eq.
      + exists info. by rewrite lookup_insert_ne. }
  split; [done|]. split.
  - intros name Hn. apply H2. rewrite lookup_insert_is_Some. destruct (decide (rb_refName built = name)); auto.
  - intros x [->|Hx]%elem_of_cons; [|by apply H3]. apply H2. rewrite <-Hname, lookup_insert_eq. eauto.
Qed.

Lemma selectHeadRef_elem names : names ≠ [] → selectHeadRef names ∈ names.
Proof.
  intros Hn. unfold selectHeadRef. destruct (List.find _ names) as [y|] eqn:E.
  - by apply find_elem in E as [? _].
  - destruct names; [done|by left].
Qed.

Lemma MapRefName_nonempty name : MapRefName name ≠ "".
Proof. unfold MapRefName. by repeat case_match. Qed.

Lemma omap_map_ref rt (refs : list Ref) :
  (∀ ref, ref ∈ refs → is_Some (rt !! MapRefName (ref_Name ref))) →
  omap (map_ref rt) refs =
    map (λ ref, mk_GitRef (MapRefName (ref_Name ref)) (default "" (rt !! MapRefName (ref_Name ref)))) refs.
Proof.
  induction refs as [|ref refs IH]; intros Hall; [done|].
  destruct (Hall ref) as [oid Hoid]; [by left|].
  assert (map_ref rt ref = Some (mk_GitRef (MapRefName (ref_Name ref)) oid)) as Hm
    by (unfold map_ref; by rewrite Hoid).
  cbn [omap list_omap map]. rewrite Hm, Hoid. simpl. f_equal. apply IH. intros x Hx. apply Hall. by right.
Qed.
End advertise.

(** What is advertised. *)
Lemma advertised_refs_ok `{TreeRanging, Zlib} d refs head :
  ListRefs d = Ok (refs, head) →
  (Store.ListRefs d "" = [] ∧ refs = [] ∧ head = "") ∨
  ∃ rc rt oid rest, buildRefCommits d = Ok (rc, rt) ∧
    refs = mk_GitRef "HEAD" oid :: rest ∧
    rest ≡ₚ map (λ ref, mk_GitRef (MapRefName (ref_Name ref))
                          (default "" (rt !! MapRefName (ref_Name ref)))) (Store.ListRefs d "") ∧
    Sorted (λ x y, refPriority (gr_Name x) ≤ refPriority (gr_Name y)) rest ∧
    mk_GitRef head oid ∈ rest ∧
    (∀ r, r ∈ refs → ∃ info, rc !! gr_OID r = Some info ∧ go_OID (rc_Commit info) = gr_OID r) ∧
    ∀ wants haves, (∀ w, w ∈ wants → w ∈ gr_OID <$> refs) →
      is_ok (buildPackObjects (Some rc) wants haves) = true.
Proof.
  unfold ListRefs. case_bool_decide as Hne; [intros [= <- <-]; by left|].
  intros Hl. right. apply bind_ok_inv in Hl as ([rc rt] & Hb & Hl).
  pose proof Hb as Hb'. unfold buildRefCommits in Hb'.
  apply bind_ok_inv in Hb' as ([[rc0 rt0] c0] & Hf & [= -> ->]).
  destruct (build_steps_ok _ _ _ _ _ _ Hf) as (Hcommits & _ & Hall); [by intros ? ? ?|]. cbn [fst snd] in *.
  rewrite (omap_map_ref rt) in Hl by done.
  set (gitRefs := map _ (Store.ListRefs d "")) in *.
  apply bind_ok_inv in Hl as (? & Hg & [= <- <-]).
  apply guard_err_ok_inv in Hg. apply bool_decide_eq_false in Hg.
  destruct (sortRefs_ok gitRefs) as [Hperm Hsorted].
  set (head := selectHeadRef (gr_Name <$> gitRefs)).
  assert (head ∈ gr_Name <$> gitRefs) as Hhead.
  { apply selectHeadRef_elem. by destruct gitRefs. }
  assert (∀ r, r ∈ gitRefs → ∃ info, rc !! gr_OID r = Some info ∧ go_OID (rc_Commit info) = gr_OID r) as Hoids.
  { intros r (ref & -> & Hin)%list_elem_of_fmap. destruct (Hall ref Hin) as [oid Hoid].
    simpl. rewrite Hoid. simpl. by eapply Hcommits. }
  assert (∃ oid, add_head head (sortRefs gitRefs) = mk_GitRef "HEAD" oid :: sortRefs gitRefs ∧
    mk_GitRef head oid ∈ gitRefs) as (oid & Hadd & Hoid).
  { apply list_elem_of_fmap in Hhead as (r & Hr & Hin). unfold add_head. rewrite decide_False.
    - destruct (find_exists (λ r, bool_decide (gr_Name r = head)) (sortRefs gitRefs) r) as (y & Hy & Hyin & Hyn).
      + by rewrite Hperm.
      + by apply bool_decide_eq_true.
      + rewrite Hy. exists (gr_OID y). split; [done|]. apply bool_decide_eq_true in Hyn.
        rewrite <-Hperm, <-Hyn. by destruct y.
    - rewrite Hr. unfold gitRefs in Hin. apply list_elem_of_fmap in Hin as (ref & -> & _).
      apply MapRefName_nonempty. }
  assert (∀ r, r ∈ add_head head (sortRefs gitRefs) →
    ∃ info, rc !! gr_OID r = Some info ∧ go_OID (rc_Commit info) = gr_OID r) as Hadv.
  { rewrite Hadd. intros r [->|Hr]%elem_of_cons; [|apply Hoids; by rewrite <-Hperm].
    apply (Hoids _ Hoid). }
  exists rc, rt, oid, (sortRefs gitRefs).
  split; [done|]. split; [done|]. split; [done|]. split; [done|]. split; [by rewrite Hperm|].
  split; [done|]. intros wants haves Hw.
  pose proof (buildPackObjects_ok rc wants haves) as Hp.
  destruct (buildPackObjects _ _ _) as [os|e|]; [done| |done].
  destruct Hp as (w & -> & Hin & _ & Hnone). exfalso.
  apply Hw, list_elem_of_fmap in Hin as (r & -> & Hr). destruct (Hadv r Hr) as (info & Hi & _). congruence.
Qed.

(** C33: the references the server advertises.  If there are any references in
    the store, the advertisement starts with HEAD and lists every reference
    under its mapped name, branches first (main and master ahead of all);
    HEAD is one of them; and every identifier in it is the one of a commit
    that can be fetched: whatever of them a client wants and whatever it has,
    the selection of the objects to send succeeds. *)
Theorem advertised_refs_spec `{TreeRanging, Zlib} d refs head :
  ListRefs d = Ok (refs, head) →
  (Store.ListRefs d "" = [] ∧ refs = [] ∧ head = "") ∨
  ∃ rc rt oid rest, buildRefCommits d = Ok (rc, rt) ∧
    refs = mk_GitRef "HEAD" oid :: rest ∧
    rest ≡ₚ map (λ ref, mk_GitRef (MapRefName (ref_Name ref))
                          (default "" (rt !! MapRefName (ref_Name ref)))) (Store.ListRefs d "") ∧
    Sorted (λ x y, refPriority (gr_Name x) ≤ refPriority (gr_Name y)) rest ∧
    mk_GitRef head oid ∈ rest ∧
    (∀ r, r ∈ refs → ∃ info, rc !! gr_OID r = Some info ∧ go_OID (rc_Commit info) = gr_OID r) ∧
    ∀ wants haves, (∀ w, w ∈ wants → w ∈ gr_OID <$> refs) →
      is_ok (buildPackObjects (Some rc) wants haves) = true.
Proof. apply advertised_refs_ok. Qed.

(** ** A reference to a snapshot *)

Lemma bytes_of_string_app s t : bytes_of (s +:+ t) = bytes_of s ++ bytes_of t.
Proof.
  induction s as [|a s IH]; [done|]. change (String a s +:+ t) with (String a (s +:+ t)).
  assert (∀ u, bytes_of (String a u) = Ascii.byte_of_ascii a :: bytes_of u) as Hc by done.
  by rewrite !Hc, IH.
Qed.

Lemma hex_digits_only h b : b ∈ hex_encode_bytes h → b ≠ Byte.x0a.
Proof.
  intros Hb ->. assert (∃ d, hex_value Byte.x0a = Some d) as [d Hd]; [|by vm_compute in Hd].
  induction h as [|x h IH]; simpl in Hb; [by apply elem_of_nil in Hb|].
  pose proof (int_of_byte_range x).
  apply elem_of_cons in Hb as [->|[->|Hb]%elem_of_cons]; [..|by apply IH].
  - exists (int_of_byte x `div` 16). apply hex_value_digit. lia_div.
  - exists (int_of_byte x `mod` 16). apply hex_value_digit. lia_div.
Qed.

Lemma length_oid kind data : length (bytes_of (computeGitOID kind data)) = 40%nat.
Proof.
  unfold computeGitOID, hex_encode. rewrite bytes_of_string_of.
  assert (∀ h, length (hex_encode_bytes h) = (2 * length h)%nat) as Hl.
  { intros h. induction h as [|x h IH]; [done|]. cbn [hex_encode_bytes length]. lia. }
  by rewrite Hl, length_sha1.
Qed.

(** The tree of a synthetic commit. *)
Lemma extractTreeOID_commit refName targetHex kind data :
  @extractTreeOID () (go_Data (buildCommitObject refName targetHex (computeGitOID kind data)))
  = Ok (computeGitOID kind data).
Proof.
  unfold buildCommitObject. cbn [go_Data].
  pose proof (length_oid kind data) as Hlen. set (oid := computeGitOID kind data) in *.
  assert (∀ rest, @extractTreeOID () (bytes_of ("tree " +:+ oid +:+ newline +:+ rest)) = Ok oid) as H;
    [|apply H].
  intros rest. rewrite !bytes_of_string_app.
  change (bytes_of newline ++ bytes_of rest) with (Byte.x0a :: bytes_of rest).
  rewrite app_assoc. unfold extractTreeOID.
  assert (Byte.x0a ∉ bytes_of "tree " ++ bytes_of oid) as Hnl.
  { assert (Byte.x0a ∉ bytes_of "tree ") by (refine (bool_decide_unpack _ _); vm_compute; exact I).
    intros [Hin|Hin]%elem_of_app; [done|].
    unfold oid, computeGitOID, hex_encode in Hin. rewrite bytes_of_string_of in Hin.
    by apply hex_digits_only in Hin. }
  rewrite split_byte_app by done. cbn [first_tree_line].
  assert (has_prefix_b (bytes_of "tree ") (bytes_of "tree " ++ bytes_of oid) = true) as ->.
  { unfold has_prefix_b. apply bool_decide_eq_true. by rewrite take_app_length. }
  assert (go_slice (bytes_of "tree " ++ bytes_of oid) 5 45 = Some (bytes_of oid)) as ->.
  { pose proof (go_slice_middle (bytes_of "tree ") (bytes_of oid) []) as Hm.
    rewrite app_nil_r in Hm. unfold zlen in Hm. rewrite Hlen in Hm. exact Hm. }
  res_simpl. by rewrite string_of_bytes_of.
Qed.

(** A snapshot ends the walks along the change sets. *)
Lemma collect_snapshot `{Zlib} n d refName dg oid acc content :
  ExtractObjectFromDB d dg = Ok (content, "Snapshot") →
  collect_changesets (S n) d refName dg oid acc = Ok (oid, acc).
Proof. intros Hex. cbn [collect_changesets]. by rewrite Hex. Qed.

Lemma follow_snapshot n d dg content :
  ExtractObjectFromDB d dg = Ok (content, "Snapshot") → follow_heads (S n) d dg = Ok (Some dg).
Proof. intros Hex. cbn [follow_heads]. by rewrite Hex. Qed.

(** C32: a reference to a snapshot, as a git client gets it.  The reference is
    built into a commit and its objects, each under the identifier of its
    content; the commit names a tree that is among them, so is everything a
    tree of theirs refers to; and walking the trees from the commit gives
    exactly the checkout of the snapshot: the paths and contents of all its
    files that can be read. *)
Theorem buildRef_snapshot `{TreeRangingLaws, Zlib} d ref cache content files :
  (∀ digest, ExtractObjectFromDB d digest ≠ Panic) →
  ref_Target ref ≠ [] → ExtractObjectFromDB d (ref_Target ref) = Ok (content, "Snapshot") →
  getSnapshotFiles d (ref_Target ref) = Ok files →
  (∀ file, file ∈ files → Byte.x00 ∉ bytes_of (sf_Path file)) →
  cache !! hex_encode (ref_Target ref) = None →
  ∃ built cache' treeOID, buildRef d ref cache = Ok (built, cache') ∧
    rb_refName built = MapRefName (ref_Name ref) ∧
    let objs := rb_commit built :: rb_objects built in
    (∀ o, o ∈ objs → go_OID o = computeGitOID (type_name (go_Type o)) (go_Data o)) ∧
    extractTreeOID (go_Data (rb_commit built)) = @Ok () _ treeOID ∧
    treeOID ∈ go_OID <$> objs ∧
    (∀ o e, o ∈ objs → go_Type o = ObjectTree → e ∈ parseTreeEntries (go_Data o) →
       te_oid e ∈ go_OID <$> objs) ∧
    ∀ objects, holds_all objects objs →
      ∀ p c, tree_file objects treeOID p c ↔ checkout d files !! p = Some c.
Proof.
  intros Hnp Hne Hex Hfiles Hok Hcache.
  destruct (buildTreeFromFiles_ok d files Hnp Hok) as (tree & blobs & Htree & Hoids & Hclosed & Hroot & Hall).
  cbv zeta in Hoids, Hclosed, Hroot, Hall.
  assert (resolveGitPackObjects d (ref_Target ref) (MapRefName (ref_Name ref))
    = Err (ErrNoCommitOID (MapRefName (ref_Name ref)))) as Hgp.
  { unfold resolveGitPackObjects. rewrite bool_decide_eq_false_2 by done.
    rewrite (collect_snapshot 19 _ _ _ _ _ _ Hex). by res_simpl. }
  assert (resolveSnapshotDigest d (ref_Target ref) = Ok (Some (ref_Target ref))) as Hsd.
  { unfold resolveSnapshotDigest. rewrite bool_decide_eq_false_2 by done.
    exact (follow_snapshot 9 _ _ _ Hex). }
  assert (SnapshotObjects d (ref_Target ref) = Ok (tb_oid tree, blobs ++ tb_objects tree)) as Hso.
  { unfold SnapshotObjects. rewrite Hfiles. res_simpl. rewrite Htree. by res_simpl. }
  unfold buildRef. rewrite Hgp. unfold synthetic. rewrite Hsd. res_simpl. rewrite Hcache, Hso. res_simpl.
  eexists _, _, (tb_oid tree). split; [reflexivity|]. split; [reflexivity|].
  cbn [rb_commit rb_objects so_treeOID so_objects]. cbv zeta.
  set (commit := buildCommitObject _ _ (tb_oid tree)).
  assert (∃ kind data, tb_oid tree = computeGitOID kind data) as (kind & data & Ekd).
  { apply list_elem_of_fmap in Hroot as (o & -> & Ho). rewrite (Hoids o Ho). eauto. }
  split; [|split; [|split; [|split]]].
  - intros o [->|Ho]%elem_of_cons; [done|by apply Hoids].
  - unfold commit. rewrite Ekd. apply extractTreeOID_commit.
  - rewrite fmap_cons. by right.
  - intros o e [->|Ho]%elem_of_cons Hty He; [discriminate Hty|].
    rewrite fmap_cons. right. by eapply Hclosed.
  - intros objects Hobjs. apply Hall. intros o Ho. apply Hobjs. by right.
Qed.

(** ** A concrete repository *)

Definition demo_payload : bytes :=
  marshal (JObj [(bytes_of "files",
    JArr [JObj [str_field "path" "src/a"; str_field "contentDigest" "01"]])]).
Definition demo_content : bytes := bytes_of "Snapshot" ++ [Byte.x0a] ++ demo_payload.

(** Two references, of which the first in the order of the store is not main. *)
Definition demo_refs : gmap string Ref :=
  list_to_map [("snap.main", mk_Ref "snap.main" [Byte.x03] 0 "" "");
               ("snap.dev", mk_Ref "snap.dev" [Byte.x03] 0 "" "")].
Definition demo_repo : DB :=
  set_refs demo_refs
  (set_objects (<[[Byte.x01] := mk_ObjectInfo [Byte.x01] 1 0 2 "File" 0]>
              (<[[Byte.x03] := mk_ObjectInfo [Byte.x03] 1 2 (zlen demo_content) "Snapshot" 0]> ∅))
    (set_segments {[1 := mk_Segment 0 [] 5 (bytes_of "hi" ++ demo_content)]} 1 empty_db)).

Lemma demo_repo_extract digest : ExtractObjectFromDB demo_repo digest ≠ Panic.
Proof.
  unfold ExtractObjectFromDB, ExtractObject, GetObject.
  destruct (db_objects demo_repo !! digest) as [info|] eqn:E; [|done].
  unfold demo_repo in E. cbn [db_objects set_objects set_refs] in E.
  apply lookup_insert_Some in E as [[_ <-]|[_ E]]; [by vm_compute|].
  apply lookup_insert_Some in E as [[_ <-]|[_ E]]; [by vm_compute|].
  by rewrite lookup_empty in E.
Qed.

Lemma buildRef_snapshot_witness :
  ∃ built cache treeOID,
    @buildRef tree_ranging stored_zlib demo_repo (mk_Ref "snap.main" [Byte.x03] 0 "" "") ∅
      = Ok (built, cache) ∧
    tree_file (keep (rb_commit built :: rb_objects built)) treeOID ["src"; "a"] (bytes_of "hi").
Proof.
  destruct (@buildRef_snapshot tree_ranging tree_ranging_laws stored_zlib demo_repo
    (mk_Ref "snap.main" [Byte.x03] 0 "" "") ∅ demo_content [mk_snapshotFile "src/a" "01"]
    demo_repo_extract) as (built & cache & treeOID & E & _ & _ & _ & _ & _ & Hall).
  - discriminate.
  - vm_compute. reflexivity.
  - vm_compute. reflexivity.
  - intros file Hf. apply list_elem_of_singleton in Hf as ->.
    refine (bool_decide_unpack _ _). vm_compute. exact I.
  - apply lookup_empty.
  - exists built, cache, treeOID. split; [exact E|].
    vm_compute in E. injection E as <- <-.
    apply Hall; [|vm_compute; reflexivity].
    intros o Ho. repeat (apply elem_of_cons in Ho as [->|Ho]; [vm_compute; reflexivity|]).
    by apply elem_of_nil in Ho.
Defined.

(** HEAD is the first branch in the order of the store's names, not the main
    branch, which is listed first. *)
Example head_is_not_main :
  match @ListRefs tree_ranging stored_zlib demo_repo with
  | Ok (refs, head) => gr_Name <$> refs = ["HEAD"; "refs/heads/main"; "refs/heads/dev"] ∧
                       head = "refs/heads/dev"
  | _ => False
  end.
Proof. vm_compute. done. Qed.

Lemma advertised_refs_spec_witness : ∃ refs head rest oid,
  @ListRefs tree_ranging stored_zlib demo_repo = Ok (refs, head) ∧
  refs = mk_GitRef "HEAD" oid :: rest ∧ length rest = 2%nat.
Proof.
  destruct (@ListRefs tree_ranging stored_zlib demo_repo) as [[refs head]| |] eqn:E;
    [|exfalso; vm_compute in E; discriminate E..].
  destruct (@advertised_refs_spec tree_ranging stored_zlib demo_repo refs head E)
    as [(Hn & _)|(rc & rt & oid & rest & _ & Hr & Hp & _)].
  - exfalso. vm_compute in Hn. discriminate Hn.
  - exists refs, head, rest, oid. split; [reflexivity|]. split; [exact Hr|].
    rewrite (Permutation_length Hp). vm_compute. reflexivity.
Defined.
