(* ===== verification/ReceivePack.v ===== *)
(** * Receiving pushes (kailab/sshserver/receive_pack.go)

    A push is a list of reference updates and a pack.  The pack and a change
    set that describes the push are stored as objects, and every updated
    reference is pointed at the change set, in one transaction.

    Readings of the clock are numbered ([clock]); the random checksum of a
    stored pack is an argument; failures of the random source are not
    modelled. *)

From S2P Require Import Prelude PktLine Json GoStrings Store RefLog Cas Sha1 GitPack ObjectGraph Segment SnapshotTree GitRefs.
Local Open Scope Z_scope.

(** ** The request *)

Record receivePackUpdate := mk_receivePackUpdate {
  ru_Old : string; ru_New : string; ru_Ref : string }.
Record receivePackRequest := mk_receivePackRequest {
  rr_Updates : list receivePackUpdate; rr_Pack : bytes; rr_Caps : list string }.

Inductive push_error :=
| ErrPushPkt (e : pkt_error)
| ErrInvalidLine (line : bytes)
| ErrNoRepository
| ErrJSON
| ErrUnsupportedRef (name : string)
| ErrPushStore (e : store_error).

Definition parseCaps (raw : bytes) : list string :=
  if bool_decide (raw = []) then [] else string_of <$> Fields raw.

(** What one line says: an update, and the capabilities if it carries any. *)
Definition parse_update (line : bytes) (caps : list string)
  : res push_error (receivePackUpdate * list string) :=
  let '(text, caps) :=
    match cut_byte Byte.x00 line with
    | Some (text, rest) => (text, if bool_decide (caps = []) then parseCaps rest else caps)
    | None => (line, caps)
    end in
  match Fields text with
  | old :: new :: ref :: _ =>
    Ok (mk_receivePackUpdate (string_of old) (string_of new) (string_of ref), caps)
  | _ => Err (ErrInvalidLine text)
  end.

(** The lines up to a flush; each takes at least four bytes. *)
Fixpoint read_updates (fuel : nat) (r : bytes) (updates : list receivePackUpdate)
    (caps : list string) : res push_error (list receivePackUpdate * list string * bytes) :=
  match fuel with
  | O => Panic
  | S fuel =>
    '(line, flush, r) ← map_err ErrPushPkt (readPktLine r);
    if (flush : bool) then Ok (updates, caps, r)
    else
      let line := TrimSpace (bytes_of line) in
      if bool_decide (line = []) then read_updates fuel r updates caps
      else
        '(update, caps) ← parse_update line caps;
        read_updates fuel r (updates ++ [update]) caps
  end.

Definition readReceivePackRequest (r : bytes) : res push_error receivePackRequest :=
  '(updates, caps, rest) ← read_updates (S (length r)) r [] [];
  Ok (mk_receivePackRequest updates rest caps).

(** ** Storing objects *)

Section push.
Context `{Driver, Blake3}.

Abbreviation push := (stM DB push_error).

Definition computeBlake3 (data : bytes) : bytes := blake3_sum256 data.

(** One segment that holds one object. *)
Definition store_object (ts ts' : Z) (checksum content digest : bytes) (kind : string) : push bytes :=
  transact (
    segmentID ← st_map_err ErrPushStore (InsertSegmentTx ts checksum content);
    _ ← st_map_err ErrPushStore (InsertObjectTx ts' digest segmentID 0 (zlen content) kind);
    mret digest).

Definition storeRawObject (ts ts' : Z) (random : bytes) (kind : string) (payload : bytes)
  : push bytes :=
  let content := node_data kind payload in
  store_object ts ts' random content (computeBlake3 content) kind.

Definition storeNodeObject (ts ts' : Z) (kind : string) (payload : json) : push bytes :=
  match NodeID kind payload, CanonicalJSON payload with
  | Some digest, Some payloadJSON =>
    let content := node_data kind payloadJSON in
    store_object ts ts' (computeBlake3 content) content digest kind
  | _, _ => lift (Err ErrJSON)
  end.

(** The empty snapshot a repository without [snap.main] starts from. *)
Definition empty_snapshot (ts : Z) : json :=
  JMap [str_field "sourceType" "git"; str_field "sourceRef" "receive-pack";
        (bytes_of "fileCount", JInt 0); (bytes_of "fileDigests", JArr []);
        (bytes_of "files", JArr []); (bytes_of "createdAt", JInt ts)].

Definition resolveBaseSnapshot (clock : nat → Z) : push bytes :=
  d ← gets id;
  match GetRef d "snap.main" with
  | Ok ref => mret (ref_Target ref)
  | _ => storeNodeObject (clock 1%nat) (clock 2%nat) "Snapshot" (empty_snapshot (clock 0%nat))
  end.

(** ** The change set of a push *)

Definition update_json (u : receivePackUpdate) : json :=
  JMap [str_field "ref" (ru_Ref u); str_field "old" (ru_Old u); str_field "new" (ru_New u)].

Definition changeset_json (ts : Z) (baseDigest : bytes) (updates : list receivePackUpdate)
    (packDigestHex : string) : json :=
  JMap ([hex_field "base" (Some baseDigest); hex_field "head" (Some baseDigest);
         (bytes_of "createdAt", JInt ts); str_field "sourceType" "git";
         str_field "sourceRef" "receive-pack"; str_field "title" "git push";
         (bytes_of "gitUpdates", JArr (update_json <$> updates))]
        ++ if decide (packDigestHex = "") then [] else [str_field "gitPack" packDigestHex]).

Definition isZeroOID (oid : string) : bool :=
  if negb (zlen (bytes_of oid) =? 40) then false
  else forallb (λ b, bool_decide (b = Byte.x30)) (bytes_of oid).

(** ** The updates *)

Definition apply_update (ts : Z) (csDigest : bytes) (update : receivePackUpdate) : push string :=
  match MapGitRefName (ru_Ref update) with
  | None => lift (Err (ErrUnsupportedRef (ru_Ref update)))
  | Some kaiRef =>
    _ ← st_map_err ErrPushStore (
          if isZeroOID (ru_New update) then DeleteRef ts kaiRef None "ssh" "git-receive-pack"
          else if isZeroOID (ru_Old update) then
            SetRefFF ts kaiRef None (Some csDigest) "ssh" "git-receive-pack"
          else ForceSetRef ts kaiRef (Some csDigest) "ssh" "git-receive-pack");
    mret kaiRef
  end.

(** Update [i] happens at [clock i]. *)
Fixpoint apply_updates (clock : nat → Z) (csDigest : bytes) (i : nat)
    (updates : list receivePackUpdate) : push (list string) :=
  match updates with
  | [] =>
    _ ← st_map_err ErrPushStore
          (ForceSetRef (clock i) "cs.latest" (Some csDigest) "ssh" "git-receive-pack");
    mret ["cs.latest"]
  | update :: updates =>
    kaiRef ← apply_update (clock i) csDigest update;
    updatedRefs ← apply_updates clock csDigest (S i) updates;
    mret (kaiRef :: updatedRefs)
  end.

Definition createChangeSetFromPack (clock : nat → Z) (random : bytes) (req : receivePackRequest)
  : push (bytes * list string) :=
  baseDigest ← resolveBaseSnapshot clock;
  packDigestHex ← (if bool_decide (rr_Pack req = []) then mret ""
                   else packDigest ← storeRawObject (clock 3%nat) (clock 4%nat) random "GitPack" (rr_Pack req);
                        mret (hex_encode packDigest));
  let payload := changeset_json (clock 5%nat) baseDigest (rr_Updates req) packDigestHex in
  csDigest ← storeNodeObject (clock 6%nat) (clock 7%nat) "ChangeSet" payload;
  updatedRefs ← transact (apply_updates clock csDigest 8 (rr_Updates req));
  mret (csDigest, updatedRefs).

(** ** The session *)

Fixpoint write_lines (w : option writer) (lines : list string)
  : option writer * res pkt_error () :=
  match lines with
  | [] => (w, Ok ())
  | line :: lines =>
    match writePktLine w line with
    | (w, Ok _) => write_lines w lines
    | (w, r) => (w, r)
    end
  end.

Definition writeReceivePackStatus (w : option writer) (req : receivePackRequest)
  : option writer * res pkt_error () :=
  match write_lines w (("unpack ok" +:+ newline)
          :: ((λ u, "ok " +:+ ru_Ref u +:+ newline) <$> rr_Updates req)) with
  | (w, Ok _) => writeFlush w
  | (w, r) => (w, r)
  end.

(** A nil database is [None]. *)
Definition handleReceivePack (clock : nat → Z) (random : bytes) (db : option DB) (r : bytes)
    (w : option writer) : option DB * option writer * res push_error (list string) :=
  match readReceivePackRequest r with
  | Err e => (db, w, Err e)
  | Panic => (db, w, Panic)
  | Ok req =>
    match db with
    | None => (None, w, Err ErrNoRepository)
    | Some d =>
      match createChangeSetFromPack clock random req d with
      | (d, Ok (csDigest, updatedRefs)) =>
        match writeReceivePackStatus w req with
        | (w, Ok _) => (Some d, w, Ok updatedRefs)
        | (w, Err e) => (Some d, w, Err (ErrPushPkt e))
        | (w, Panic) => (Some d, w, Panic)
        end
      | (d, Err e) => (Some d, w, Err e)
      | (d, Panic) => (Some d, w, Panic)
      end
    end
  end.
End push.

(** ** What a push does to the references *)

Section refs.
Context `{DriverLaws, Blake3Laws}.

(** The targets of the references; in every store the server writes they are
    digests, so they are not empty. *)
Definition targets (d : DB) : gmap string bytes := ref_Target <$> db_refs d.
Definition targets_ok (d : DB) : Prop := ∀ name, targets d !! name ≠ Some [].

(** The specification: an update deletes an existing reference, creates a
    missing one, or overwrites whatever is there. *)
Definition push_target (cs : bytes) (m : gmap string bytes) (u : receivePackUpdate)
  : option (string * gmap string bytes) :=
  name ← MapGitRefName (ru_Ref u);
  if isZeroOID (ru_New u) then (_ ← m !! name; Some (name, delete name m))
  else if isZeroOID (ru_Old u) then
    match m !! name with None => Some (name, <[name := cs]> m) | Some _ => None end
  else Some (name, <[name := cs]> m).

Fixpoint push_targets (cs : bytes) (m : gmap string bytes) (updates : list receivePackUpdate)
  : option (list string * gmap string bytes) :=
  match updates with
  | [] => Some (["cs.latest"], <["cs.latest" := cs]> m)
  | u :: updates =>
    '(name, m) ← push_target cs m u;
    '(names, m) ← push_targets cs m updates;
    Some (name :: names, m)
  end.

(** An update of the references touches nothing else but the log. *)
Definition log_names (d : DB) : list string := rh_Ref <$> db_ref_history d.

Definition log_collision : push_error := ErrPushStore (ErrUnique "ref_history.id").

(** What one step does: it succeeds as specified, or fails. *)
Definition step_as (spec : option (list string * gmap string bytes)) {A} (names_of : A → list string)
    (d d' : DB) (r : res push_error A) : Prop :=
  match r with
  | Ok a => spec = Some (names_of a, targets d') ∧ targets_ok d' ∧ same_objects d d' ∧
            log_names d' = log_names d ++ names_of a
  | Err e => spec = None ∨ e = log_collision
  | Panic => False
  end.

Lemma current_targets d name : targets_ok d → current d name = targets d !! name.
Proof.
  intros Hd. specialize (Hd name). unfold current, targets in *. rewrite lookup_fmap in *.
  destruct (db_refs d !! name) as [r|]; [|done]. cbn in *. apply scan_nonempty. congruence.
Qed.

Lemma append_log_cases e d :
  (∃ d', append_log e d = (d', Ok ()) ∧ targets d' = targets d ∧ same_objects d d' ∧
         log_names d' = log_names d ++ [rh_Ref e]) ∨
  append_log e d = (d, Err (ErrUnique "ref_history.id")).
Proof.
  unfold append_log. case_decide; [by right|left]. eexists. split; [done|]. split; [done|].
  split; [done|]. unfold log_names. cbn. by rewrite fmap_app.
Qed.

Lemma targets_ok_insert d d' name cs :
  targets_ok d → cs ≠ [] → targets d' = <[name := cs]> (targets d) → targets_ok d'.
Proof.
  intros Hd Hcs E n. rewrite E. destruct (decide (name = n)) as [<-|].
  - rewrite lookup_insert_eq. congruence.
  - by rewrite lookup_insert_ne.
Qed.

Lemma put_ref_targets d name target ts actor pushID :
  targets (put_ref name target ts actor pushID d) = <[name := target]> (targets d).
Proof. unfold targets, put_ref. cbn. by rewrite fmap_insert. Qed.

(** Setting a reference and logging it. *)
Lemma put_log_step e d name cs ts actor pushID :
  targets_ok d → cs ≠ [] → rh_Ref e = name →
  let '(d', r) := append_log e (put_ref name cs ts actor pushID d) in
  step_as (Some ([name], <[name := cs]> (targets d))) (λ _ : (), [name]) d d'
    (map_err ErrPushStore r).
Proof.
  intros Hd Hcs He. destruct (append_log_cases e (put_ref name cs ts actor pushID d))
    as [(d' & -> & Ht & Ho & Hl)| ->]; cbn [map_err step_as]; [|by right].
  rewrite put_ref_targets in Ht. rewrite Ht, Hl, He. split; [done|].
  split; [by eapply targets_ok_insert|]. split; [exact Ho|done].
Qed.

Lemma apply_update_step ts cs u d :
  targets_ok d → cs ≠ [] →
  let '(d', r) := apply_update ts cs u d in
  step_as ('(name, m) ← push_target cs (targets d) u; Some ([name], m)) (λ name, [name]) d d' r.
Proof.
  intros Hd Hcs. unfold apply_update, push_target.
  destruct (MapGitRefName (ru_Ref u)) as [name|]; [|by left]. cbn [mbind option_bind].
  assert (∀ (m : stM DB store_error ()) spec,
    (let '(d', r) := m d in step_as spec (λ _, [name]) d d' (map_err ErrPushStore r)) →
    let '(d', r) := (_ ← st_map_err ErrPushStore m; mret name : stM DB push_error string) d in
    step_as spec (λ name, [name]) d d' r) as Hbind.
  { intros m spec Hm. unfold mbind, stM_bind, st_map_err. destruct (m d) as [d' [[]|e|]]; exact Hm. }
  apply Hbind. destruct (isZeroOID (ru_New u)); [|destruct (isZeroOID (ru_Old u))].
  - rewrite DeleteRef_eq. rewrite (lookup_fmap ref_Target (db_refs d) name : targets d !! name = _).
    destruct (db_refs d !! name) as [r0|] eqn:Er; [|by left]. cbn [fmap option_fmap option_map mbind option_bind].
    rewrite decide_True by (by left).
    destruct (append_log_cases (log_entry d ts "ssh" name (current d name) [] None "git-receive-pack" delete_mark)
      (set_refs (delete name (db_refs d)) d)) as [(d' & -> & Ht & Ho & Hl)| ->]; [|by right].
    assert (targets d' = delete name (targets d)) as Ht' by (rewrite Ht; unfold targets; cbn; by rewrite fmap_delete).
    split; [by rewrite Ht'|]. split; [|split; [exact Ho|exact Hl]].
    intros n. rewrite Ht'. destruct (decide (name = n)) as [<-|].
    + by rewrite lookup_delete_eq.
    + rewrite lookup_delete_ne by done. apply Hd.
  - rewrite SetRefFF_eq. case_decide as Hx; unfold expects in Hx; rewrite (current_targets d name Hd) in Hx.
    + rewrite <-Hx. by apply put_log_step.
    + destruct (targets d !! name); [by left|done].
  - rewrite ForceSetRef_eq. cbn [mbind option_bind]. by apply put_log_step.
Qed.

Lemma apply_updates_step clock cs updates : ∀ i d,
  targets_ok d → cs ≠ [] →
  let '(d', r) := apply_updates clock cs i updates d in
  step_as (push_targets cs (targets d) updates) (λ names, names) d d' r.
Proof.
  induction updates as [|u updates IH]; intros i d Hd Hcs; cbn [apply_updates push_targets].
  - unfold mbind, stM_bind, st_map_err. rewrite ForceSetRef_eq.
    pose proof (put_log_step (log_entry d (clock i) "ssh" "cs.latest" (current d "cs.latest") cs (Some cs)
      "git-receive-pack" force_mark) d "cs.latest" cs (clock i) "ssh" "git-receive-pack" Hd Hcs eq_refl) as Hs.
    destruct (append_log _ _) as [d' [[]|e|]]; exact Hs.
  - pose proof (apply_update_step (clock i) cs u d Hd Hcs) as Hu.
    unfold mbind at 1. unfold stM_bind at 1.
    destruct (apply_update (clock i) cs u d) as [d1 [name|e|]]; [|cbn [step_as] in *|done].
    + destruct Hu as (Hu & Hd1 & Ho1 & Hl1).
      destruct (push_target cs (targets d) u) as [[name' m]|]; [|done].
      cbn [mbind option_bind] in Hu |- *. injection Hu as -> ->.
      specialize (IH (S i) d1 Hd1 Hcs). unfold mbind, stM_bind.
      destruct (apply_updates clock cs (S i) updates d1) as [d2 [names|e|]]; [|cbn [step_as] in *|done].
      * destruct IH as (Hs & Hd2 & Ho2 & Hl2). cbn [step_as mret stM_ret]. rewrite Hs. cbn.
        split; [done|]. split; [done|]. split.
        { destruct Ho1 as (A1 & A2 & A3), Ho2 as (B1 & B2 & B3).
          split; [congruence|]. split; congruence. }
        rewrite Hl2, Hl1. by rewrite <-app_assoc.
      * destruct IH as [->| ->]; [by left|by right].
    + destruct Hu as [Hu| ->]; [left|by right]. by destruct (push_target cs (targets d) u) as [[??]|].
Qed.
End refs.

(** ** What a push does to the objects *)

Section objects.
Context `{DriverLaws, Blake3Laws, Zstd}.

(** Objects stay what they are. *)
Definition grows (d d' : DB) : Prop :=
  ∀ g x, ExtractObject d g = Ok x → ExtractObject d' g = Ok x.
Definition same_refs (d d' : DB) : Prop :=
  db_refs d' = db_refs d ∧ db_ref_history d' = db_ref_history d.

Lemma same_row_extract d d' g info :
  db_objects d !! g = Some info → db_objects d' !! g = Some info →
  db_segments d' !! oi_SegmentID info = db_segments d !! oi_SegmentID info →
  ExtractObject d' g = ExtractObject d g.
Proof.
  intros E E' Hs. unfold ExtractObject, GetObject, GetSegmentBlob. rewrite E, E'. res_simpl. by rewrite Hs.
Qed.

Lemma same_objects_grows d d' : same_objects d d' → grows d d' ∧ (store_ok d → store_ok d').
Proof.
  intros (Hs & Hn & Ho). split.
  - intros g x. unfold ExtractObject, GetObject, GetSegmentBlob. by rewrite Ho, Hs.
  - intros [W1 W2 W3]. split; rewrite ?Hs, ?Hn, ?Ho; done.
Qed.

(** What a store gains: objects that start with their kind. *)
Definition of_kind (c : bytes) (kind : string) : Prop :=
  (Byte.x0a ∉ bytes_of kind) ∧ ∃ payload, c = node_data kind payload.
Record stores (d d' : DB) : Prop := mk_stores {
  st_ok : store_ok d';
  st_grows : grows d d';
  st_new : ∀ g c kind, ExtractObject d' g = Ok (c, kind) →
             ExtractObject d g = Ok (c, kind) ∨ of_kind c kind;
}.

Lemma stores_trans d1 d2 d3 : stores d1 d2 → stores d2 d3 → stores d1 d3.
Proof.
  intros [A1 A2 A3] [B1 B2 B3]. split; [done| |].
  - intros g x Hg. by apply B2, A2.
  - intros g c kind Hg. destruct (B3 g c kind Hg) as [Hg'|]; [by apply A3|by right].
Qed.

Lemma same_objects_stores d d' : store_ok d → same_objects d d' → stores d d'.
Proof.
  intros W Hs. destruct (same_objects_grows d d' Hs) as [Hg Hok]. split; [by apply Hok|done|].
  intros g c kind Hx. left. destruct Hs as (Es & En & Eo).
  unfold ExtractObject, GetObject, GetSegmentBlob in *. by rewrite <-Eo, <-Es.
Qed.

Definition stored (d : DB) (g : bytes) : Prop := ∃ c kind, ExtractObject d g = Ok (c, kind).

(** Storing one object. *)
Lemma store_object_ok ts ts' checksum content kind d :
  store_ok d → zlen content < 2^63 → of_kind content kind →
  ∃ d', store_object ts ts' checksum content (Blake3Hash content) kind d
        = (d', Ok (Blake3Hash content)) ∧ stores d d' ∧ stored d' (Blake3Hash content).
Proof.
  intros W Hlen Hkind. set (id := db_segment_seq d + 1). set (seg := mk_Segment ts checksum (zlen content) content).
  set (e := mk_PackObjectEntry (Blake3Hash content) kind 0 (zlen content)).
  set (d1 := set_segments (<[id := seg]> (db_segments d)) id d).
  set (d2 := (InsertObject ts' (Blake3Hash content) id 0 (zlen content) kind d1).1).
  exists d2. split; [done|].
  pose proof (zlen_nonneg content) as Hz0.
  assert (i64 (0 + zlen content) = zlen content) as Hi by (apply i64_small; lia).
  assert (go_slice content 0 (zlen content) = Some content) as Hsl.
  { pose proof (go_slice_tail [] content) as Ht. cbn [app] in Ht. exact Ht. }
  assert (indexed_as id [e] d1 d2) as Hx.
  { unfold d2, InsertObject, modify. cbn [fst].
    destruct (db_objects d1 !! Blake3Hash content) as [info|] eqn:E;
      (split; [done|split; [done|]]); intros g; rewrite first_entry_cons; cbn [pe_Digest e first_entry].
    - destruct (db_objects d1 !! g) eqn:Eg; [done|]. rewrite decide_False by congruence. done.
    - cbn [db_objects set_objects]. destruct (decide (Blake3Hash content = g)) as [<-|Hg].
      + rewrite E, lookup_insert_eq. by eexists.
      + rewrite lookup_insert_ne by done. by destruct (db_objects d1 !! g). }
  assert (check_entry content e = Ok ()) as Hc.
  { apply check_entry_ok. unfold e. cbn [pe_Offset pe_Length pe_Digest]. rewrite Hi. split; [lia|].
    exists content. done. }
  assert (store_ok d2) as W2.
  { eapply (indexed_store_ok id ts checksum content [e] d d2); [done|done|done| |exact Hx].
    apply Forall_singleton. exact Hc. }
  destruct Hx as (Hs & _ & Ho). change (db_objects d1) with (db_objects d) in Ho.
  assert (∀ g info, db_objects d !! g = Some info → ExtractObject d2 g = ExtractObject d g) as Hold.
  { intros g info E. specialize (Ho g). rewrite E in Ho. apply (same_row_extract d d2 g info); [done|done|].
    rewrite Hs. unfold d1. cbn [db_segments set_segments].
    rewrite lookup_insert_ne; [done|]. intros Hid.
    destruct (so_rows d W _ _ E) as (s0 & c0 & Hs0 & _). pose proof (so_seq d W _ _ Hs0). lia. }
  assert (db_objects d !! Blake3Hash content = None →
          ExtractObject d2 (Blake3Hash content) = Ok (content, kind)) as Hnew.
  { intros Hnew. specialize (Ho (Blake3Hash content)). rewrite Hnew, first_entry_cons in Ho.
    cbn [pe_Digest e] in Ho. rewrite decide_True in Ho by done.
    destruct Ho as (info & Hinfo & R1 & R2 & R3 & R4 & R5). unfold ExtractObject, GetObject, GetSegmentBlob.
    rewrite Hinfo. res_simpl. rewrite R2, Hs. unfold d1. cbn [db_segments set_segments].
    rewrite lookup_insert_eq. res_simpl. rewrite R3, R4, R5. cbn [pe_Offset pe_Length pe_Kind e seg_blob seg].
    rewrite Hi, (proj2 (Z.ltb_ge _ _)) by lia. res_simpl. by rewrite Hsl. }
  split; [split; [done| |]|].
  - intros g x Hg. pose proof (ExtractObject_ok d g W) as Hok.
    destruct (db_objects d !! g) as [info|] eqn:E; [|congruence]. by rewrite (Hold g info).
  - intros g c k Hg. destruct (db_objects d !! g) as [info|] eqn:E; [left; by rewrite <-(Hold g info)|].
    destruct (decide (Blake3Hash content = g)) as [<-|Hne].
    + rewrite Hnew in Hg by done. injection Hg as <- <-. by right.
    + specialize (Ho g). rewrite E, first_entry_cons in Ho. cbn [pe_Digest e] in Ho.
      rewrite decide_False in Ho by done. change (db_objects d2 !! g = None) in Ho.
      pose proof (ExtractObject_ok d2 g W2) as Hok. rewrite Ho in Hok. congruence.
  - destruct (db_objects d !! Blake3Hash content) as [info|] eqn:E; [|exists content, kind; by apply Hnew].
    pose proof (ExtractObject_ok d (Blake3Hash content) W) as Hok. rewrite E in Hok.
    destruct Hok as (c & Hc' & _). exists c, (oi_Kind info). by rewrite (Hold _ info).
Qed.
End objects.

(** ** The push as a whole *)

Section whole.
Context `{DriverLaws, Blake3Laws, Zstd}.

(** Whether a push is accepted depends on which references exist, not on
    their targets. *)
Lemma push_target_dom cs cs' m m' u :
  (∀ n, is_Some (m !! n) ↔ is_Some (m' !! n)) →
  match push_target cs m u, push_target cs' m' u with
  | Some (k, m1), Some (k', m1') => k = k' ∧ ∀ n, is_Some (m1 !! n) ↔ is_Some (m1' !! n)
  | None, None => True
  | _, _ => False
  end.
Proof.
  intros Hm. unfold push_target. destruct (MapGitRefName (ru_Ref u)) as [k|]; [|done].
  cbn [mbind option_bind].
  assert (∀ n, is_Some (<[k:=cs]> m !! n) ↔ is_Some (<[k:=cs']> m' !! n)) as Hins.
  { intros n. destruct (decide (k = n)) as [<-|]; [by rewrite !lookup_insert_eq|].
    by rewrite !lookup_insert_ne. }
  assert (∀ n, is_Some (delete k m !! n) ↔ is_Some (delete k m' !! n)) as Hdel.
  { intros n. destruct (decide (k = n)) as [<-|]; [by rewrite !lookup_delete_eq|].
    by rewrite !lookup_delete_ne. }
  specialize (Hm k). rewrite <-!not_eq_None_Some in Hm.
  destruct (isZeroOID (ru_New u)), (isZeroOID (ru_Old u)), (m !! k), (m' !! k); cbn; naive_solver.
Qed.

Lemma push_targets_dom cs cs' updates : ∀ m m',
  (∀ n, is_Some (m !! n) ↔ is_Some (m' !! n)) →
  push_targets cs m updates = None → push_targets cs' m' updates = None.
Proof.
  induction updates as [|u updates IH]; intros m m' Hm; [done|]. cbn [push_targets].
  pose proof (push_target_dom cs cs' m m' u Hm) as Hu.
  destruct (push_target cs m u) as [[k m1]|], (push_target cs' m' u) as [[k' m1']|]; try done.
  destruct Hu as [<- Hm1]. cbn [mbind option_bind]. specialize (IH m1 m1' Hm1).
  destruct (push_targets cs m1 updates) as [[??]|]; [done|]. by rewrite IH.
Qed.

(** The base of a push, and the change set it stores. *)
Definition base_of (clock : nat → Z) (d : DB) : option bytes :=
  match db_refs d !! "snap.main" with
  | Some ref => Some (ref_Target ref)
  | None => NodeID "Snapshot" (empty_snapshot (clock 0%nat))
  end.
Definition pack_content (req : receivePackRequest) : bytes := node_data "GitPack" (rr_Pack req).
Definition pack_hex (req : receivePackRequest) : string :=
  if bool_decide (rr_Pack req = []) then "" else hex_encode (Blake3Hash (pack_content req)).
Definition pushed_text (clock : nat → Z) (req : receivePackRequest) (d : DB) : option bytes :=
  base ← base_of clock d;
  CanonicalJSON (changeset_json (clock 5%nat) base (rr_Updates req) (pack_hex req)).

(** Texts of less than 2^62 bytes. *)
Definition fits (clock : nat → Z) (req : receivePackRequest) (d : DB) : Prop :=
  zlen (rr_Pack req) < 2^62 ∧
  (∀ text, CanonicalJSON (empty_snapshot (clock 0%nat)) = Some text → zlen text < 2^62) ∧
  (∀ text, pushed_text clock req d = Some text → zlen text < 2^62).

Lemma store_object_run ts ts' checksum kind payload d :
  let content := node_data kind payload in
  ∃ d', store_object ts ts' checksum content (Blake3Hash content) kind d = (d', Ok (Blake3Hash content)) ∧
    same_refs d d' ∧
    (store_ok d → zlen payload < 2^62 → zlen (bytes_of kind) < 2^61 → Byte.x0a ∉ bytes_of kind →
     stores d d' ∧ stored d' (Blake3Hash content)).
Proof.
  intros content. eexists. split; [done|]. split.
  - unfold InsertObjectTx, InsertObject, same_refs, modify. cbn [fst]. by destruct (_ !! Blake3Hash content).
  - intros W Hp Hk Hn. destruct (store_object_ok ts ts' checksum content kind d W) as (d' & E & Hs & Hst).
    + unfold content, node_data. rewrite !zlen_app. change (zlen [Byte.x0a]) with 1. lia.
    + split; [done|]. by exists payload.
    + by injection E as <-.
Qed.

Lemma storeNodeObject_cases ts ts' kind payload d :
  match CanonicalJSON payload with
  | Some text => NodeID kind payload = Some (Blake3Hash (node_data kind text)) ∧
     storeNodeObject ts ts' kind payload d =
     store_object ts ts' (computeBlake3 (node_data kind text)) (node_data kind text)
       (Blake3Hash (node_data kind text)) kind d
  | None => NodeID kind payload = None ∧ storeNodeObject ts ts' kind payload d = (d, Err ErrJSON)
  end.
Proof. unfold storeNodeObject, NodeID. by destruct (CanonicalJSON payload) as [text|]. Qed.

Lemma same_refs_trans d1 d2 d3 : same_refs d1 d2 → same_refs d2 d3 → same_refs d1 d3.
Proof. intros [??] [??]. split; congruence. Qed.

Lemma resolveBaseSnapshot_run clock d :
  match base_of clock d with
  | Some base => ∃ d1, resolveBaseSnapshot clock d = (d1, Ok base) ∧ same_refs d d1 ∧
      (store_ok d →
       (∀ text, CanonicalJSON (empty_snapshot (clock 0%nat)) = Some text → zlen text < 2^62) → stores d d1)
  | None => resolveBaseSnapshot clock d = (d, Err ErrJSON)
  end.
Proof.
  unfold base_of, resolveBaseSnapshot, mbind, stM_bind, gets, GetRef. cbn [id].
  destruct (db_refs d !! "snap.main") as [r|].
  - exists d. split; [done|]. split; [done|]. intros W _. by apply same_objects_stores.
  - pose proof (storeNodeObject_cases (clock 1%nat) (clock 2%nat) "Snapshot" (empty_snapshot (clock 0%nat)) d) as Hc.
    destruct (CanonicalJSON _) as [text|] eqn:E; destruct Hc as [-> ->]; [|done].
    destruct (store_object_run (clock 1%nat) (clock 2%nat) (computeBlake3 (node_data "Snapshot" text))
      "Snapshot" text d) as (d1 & E1 & Hr & Hs).
    exists d1. split; [exact E1|]. split; [done|]. intros W Hsz.
    apply Hs; [done|by apply Hsz|done|]. refine (bool_decide_unpack _ _). vm_compute. exact I.
Qed.

Lemma pack_run clock random req d :
  ∃ d1, (if bool_decide (rr_Pack req = []) then mret ""
     else packDigest ← storeRawObject (clock 3%nat) (clock 4%nat) random "GitPack" (rr_Pack req);
          mret (hex_encode packDigest) : stM DB push_error string) d = (d1, Ok (pack_hex req)) ∧
    same_refs d d1 ∧
    (store_ok d → zlen (rr_Pack req) < 2^62 →
     stores d d1 ∧ (rr_Pack req ≠ [] → stored d1 (Blake3Hash (pack_content req)))).
Proof.
  unfold pack_hex. case_bool_decide as Hp.
  { exists d. split; [done|]. split; [done|]. intros W _. split; [by apply same_objects_stores|done]. }
  destruct (store_object_run (clock 3%nat) (clock 4%nat) random "GitPack" (rr_Pack req) d) as (d1 & E & Hr & Hs).
  exists d1. split; [|split; [done|]].
  - unfold storeRawObject. cbv zeta. change computeBlake3 with Blake3Hash. by rewrite (stM_bind_run _ _ _ _ _ E).
  - intros W Hsz. destruct Hs as [Hs Hst]; [done|done|done| |by split].
    refine (bool_decide_unpack _ _). vm_compute. exact I.
Qed.

Lemma same_refs_targets d d' : same_refs d d' → targets d' = targets d ∧ log_names d' = log_names d.
Proof. intros [E1 E2]. unfold targets, log_names. by rewrite E1, E2. Qed.

(** What is done before the references are touched. *)
Lemma push_prefix clock random req d :
  match pushed_text clock req d with
  | Some text =>
    let cs := Blake3Hash (node_data "ChangeSet" text) in
    ∃ d2, same_refs d d2 ∧
      createChangeSetFromPack clock random req d =
        (names ← transact (apply_updates clock cs 8 (rr_Updates req)); mret (cs, names)) d2 ∧
      (store_ok d → fits clock req d →
       stores d d2 ∧ stored d2 cs ∧ (rr_Pack req ≠ [] → stored d2 (Blake3Hash (pack_content req))))
  | None => ∃ d2, same_refs d d2 ∧ createChangeSetFromPack clock random req d = (d2, Err ErrJSON)
  end.
Proof.
  unfold pushed_text, createChangeSetFromPack. pose proof (resolveBaseSnapshot_run clock d) as Hb.
  destruct (base_of clock d) as [base|] eqn:Ebase; cbn [mbind option_bind].
  2: { exists d. split; [done|]. by apply stM_bind_fail. }
  destruct Hb as (d1 & Hb & Hr1 & Hs1). destruct (pack_run clock random req d1) as (d1' & Hp & Hr2 & Hs2).
  set (payload := changeset_json _ _ _ _).
  pose proof (storeNodeObject_cases (clock 6%nat) (clock 7%nat) "ChangeSet" payload d1') as Hc.
  destruct (CanonicalJSON payload) as [text|] eqn:Et; destruct Hc as [_ Hn].
  - destruct (store_object_run (clock 6%nat) (clock 7%nat) (computeBlake3 (node_data "ChangeSet" text))
      "ChangeSet" text d1') as (d2 & E & Hr3 & Hs3).
    exists d2. split; [by eapply same_refs_trans; [|eapply same_refs_trans]|]. split.
    + rewrite (stM_bind_run _ _ _ _ _ Hb), (stM_bind_run _ _ _ _ _ Hp). cbv zeta. fold payload.
      by rewrite (stM_bind_run _ _ _ _ _ (eq_trans Hn E)).
    + intros W (Hf1 & Hf2 & Hf3). specialize (Hs1 W Hf2).
      destruct (Hs2 (st_ok _ _ Hs1) Hf1) as [Hs2' Hst2].
      destruct Hs3 as [Hs3 Hst3]; [apply Hs2'| |done| |].
      * apply Hf3. unfold pushed_text. by rewrite Ebase.
      * refine (bool_decide_unpack _ _). vm_compute. exact I.
      * split; [by eapply stores_trans; [|eapply stores_trans]|]. split; [done|].
        intros Hne. destruct (Hst2 Hne) as (c & k & Hc). exists c, k. by apply (st_grows _ _ Hs3).
  - exists d1'. split; [by eapply same_refs_trans|].
    rewrite (stM_bind_run _ _ _ _ _ Hb), (stM_bind_run _ _ _ _ _ Hp). cbv zeta. fold payload.
    by apply stM_bind_fail.
Qed.

Lemma hash_nonempty data : Blake3Hash data ≠ [].
Proof. intros E. pose proof (blake3_length data) as Hl. unfold Blake3Hash in E. by rewrite E in Hl. Qed.

(** C30: the references after a push.  An accepted push applies its updates in
    order - each deletes an existing reference, creates a missing one, or
    overwrites one whatever it pointed to - then points cs.latest at the new
    change set, and logs one entry per reference named in the answer.  A
    failed push leaves every reference and the log alone; unless the JSON
    encoder fails or log identifiers collide it is one whose updates are not
    acceptable: an unsupported name, a deletion of a missing reference or a
    creation of an existing one. *)
Theorem createChangeSetFromPack_refs clock random req d :
  targets_ok d →
  match createChangeSetFromPack clock random req d with
  | (d', Ok (cs, names)) =>
    push_targets cs (targets d) (rr_Updates req) = Some (names, targets d') ∧
    targets_ok d' ∧ log_names d' = log_names d ++ names
  | (d', Err e) =>
    same_refs d d' ∧
    (e = ErrJSON ∨ e = log_collision ∨ ∀ cs, push_targets cs (targets d) (rr_Updates req) = None)
  | (_, Panic) => False
  end.
Proof.
  intros Hd. pose proof (push_prefix clock random req d) as Hp.
  destruct (pushed_text clock req d) as [text|]; [destruct Hp as (d2 & Hs & -> & _)|destruct Hp as (d2 & Hs & ->); by auto].
  set (cs := Blake3Hash _). destruct (same_refs_targets d d2 Hs) as [Ht Hl].
  assert (targets_ok d2) as Hd2 by (intros n; rewrite Ht; apply Hd).
  pose proof (apply_updates_step clock cs (rr_Updates req) 8 d2 Hd2 (hash_nonempty _)) as Hu.
  unfold mbind, stM_bind, transact.
  destruct (apply_updates clock cs 8 (rr_Updates req) d2) as [d' [names|e|]]; cbn [step_as] in Hu; [| |done].
  - destruct Hu as (Hu & Hd' & _ & Hlog). rewrite Ht in Hu. rewrite Hl in Hlog. done.
  - split; [done|]. destruct Hu as [Hu|Hu]; [|by auto]. right. right. intros cs'. rewrite Ht in Hu.
    by eapply push_targets_dom; [|exact Hu].
Qed.
End whole.

(** ** Reading a stored change set *)

(** The field of an object with distinct keys. *)
Lemma field_unique (l : list (bytes * json)) k v :
  NoDup l.*1 → (k, v) ∈ l → field k (JObj l) = Some v.
Proof.
  intros Hnd Hin. unfold field.
  assert (omap (λ kv : bytes * json, if decide (kv.1 = k) then Some kv.2 else None) l = [v]) as ->; [|done].
  induction l as [|[k' v'] l IH]; [by apply elem_of_nil in Hin|].
  rewrite fmap_cons in Hnd. apply NoDup_cons in Hnd as [Hk Hnd].
  assert (∀ l', k ∉ l'.*1 →
    omap (λ kv : bytes * json, if decide (kv.1 = k) then Some kv.2 else None) l' = []) as Hnone.
  { clear. induction l' as [|[k1 v1] l' IH]; [done|]. rewrite fmap_cons. intros Hn.
    apply not_elem_of_cons in Hn as [??]. cbn. rewrite decide_False by done. by apply IH. }
  cbn. apply elem_of_cons in Hin as [[= <- <-]|Hin].
  - rewrite decide_True by done. f_equal. by apply Hnone.
  - case_decide as E; cbn in E; [|by apply IH]. subst k'. exfalso. apply Hk.
    apply list_elem_of_fmap. by exists (k, v).
Qed.
Lemma field_absent (l : list (bytes * json)) k : k ∉ l.*1 → field k (JObj l) = None.
Proof.
  intros Hk. unfold field.
  assert (omap (λ kv : bytes * json, if decide (kv.1 = k) then Some kv.2 else None) l = []) as ->; [|done].
  induction l as [|[k1 v1] l IH]; [done|]. rewrite fmap_cons in Hk.
  apply not_elem_of_cons in Hk as [??]. cbn. rewrite decide_False by done. by apply IH.
Qed.

Lemma canonical_map l : NoDup l.*1 →
  ∃ m, canonical (JMap l) = JObj m ∧ m ≡ₚ map (λ kv, (kv.1, canonical kv.2)) l ∧ NoDup m.*1.
Proof.
  intros Hnd. eexists. split; [done|].
  assert (merge_sort field_le (map (λ kv : bytes * json, (kv.1, canonical kv.2)) (merge_sort field_le l))
    ≡ₚ map (λ kv, (kv.1, canonical kv.2)) l) as Hp.
  { rewrite merge_sort_Permutation. apply Permutation_map, merge_sort_Permutation. }
  split; [done|]. rewrite Hp. change (map ?g l) with (g <$> l). by rewrite <-list_fmap_compose.
Qed.

(** Looking up a field of a canonical map. *)
Lemma field_canonical l k v : NoDup l.*1 → (k, v) ∈ l → field k (canonical (JMap l)) = Some (canonical v).
Proof.
  intros Hnd Hin. destruct (canonical_map l Hnd) as (m & -> & Hm & Hndm). apply field_unique; [done|].
  rewrite Hm. apply list_elem_of_In, in_map_iff. exists (k, v). split; [done|]. by apply list_elem_of_In.
Qed.
Lemma field_canonical_none l k : NoDup l.*1 → k ∉ l.*1 → field k (canonical (JMap l)) = None.
Proof.
  intros Hnd Hk. destruct (canonical_map l Hnd) as (m & -> & Hm & _). apply field_absent. rewrite Hm.
  change (map ?g l) with (g <$> l). by rewrite <-list_fmap_compose.
Qed.

Definition ok_update (u : receivePackUpdate) : Prop :=
  ok_text (ru_Ref u) ∧ ok_text (ru_Old u) ∧ ok_text (ru_New u).
Definition ok_clock (ts : Z) : Prop := - 2^53 < ts < 2^53.

Lemma ok_payload_map l :
  NoDup l.*1 → Forall (λ kv, valid_utf8 kv.1 ∧ ok_payload kv.2) l → ok_payload (JMap l).
Proof.
  intros Hnd Hl. apply ok_payload_obj. by rewrite !merge_sort_Permutation.
Qed.

Ltac nodup_keys := refine (bool_decide_unpack _ _); vm_compute; exact I.

Lemma hex_text b : ok_text (hex_encode b).
Proof. unfold ok_text, hex_encode. rewrite bytes_of_string_of. apply hex_encode_bytes_utf8. Qed.

Definition changeset_fields (ts : Z) (base : bytes) (updates : list receivePackUpdate) (packHex : string) :=
  [hex_field "base" (Some base); hex_field "head" (Some base);
   (bytes_of "createdAt", JInt ts); str_field "sourceType" "git";
   str_field "sourceRef" "receive-pack"; str_field "title" "git push";
   (bytes_of "gitUpdates", JArr (update_json <$> updates))]
  ++ if decide (packHex = "") then [] else [str_field "gitPack" packHex].

Lemma changeset_keys ts base updates packHex :
  NoDup (changeset_fields ts base updates packHex).*1 ∧
  (bytes_of "gitPack" ∈ (changeset_fields ts base updates packHex).*1 → packHex ≠ "").
Proof.
  unfold changeset_fields. destruct (decide (packHex = "")) as [->|]; (split; [nodup_keys|]); [|done].
  intros Hin _. revert Hin. change (bytes_of "gitPack" ∉
    [bytes_of "base"; bytes_of "head"; bytes_of "createdAt"; bytes_of "sourceType"; bytes_of "sourceRef";
     bytes_of "title"; bytes_of "gitUpdates"]). nodup_keys.
Qed.

Lemma update_json_ok u : ok_update u → ok_payload (update_json u).
Proof.
  intros (Hr & Ho & Hn). apply ok_payload_map; [nodup_keys|].
  repeat apply Forall_cons_2; try apply Forall_nil_2; (split; [by apply valid_utf8_ascii|done]).
Qed.

Lemma changeset_json_ok ts base updates packHex :
  ok_clock ts → Forall ok_update updates → ok_text packHex →
  ok_payload (changeset_json ts base updates packHex).
Proof.
  intros Hts Hu Hp. change (ok_payload (JMap (changeset_fields ts base updates packHex))).
  apply ok_payload_map; [apply changeset_keys|]. unfold changeset_fields. apply Forall_app. split.
  - repeat apply Forall_cons_2; try apply Forall_nil_2; (split; [by apply valid_utf8_ascii|]);
      try (by apply valid_utf8_ascii); try apply hex_encode_bytes_utf8.
    + exists ts. done.
    + apply ok_payload_arr, Forall_map. eapply Forall_impl; [exact Hu|]. apply update_json_ok.
  - case_decide; [constructor|]. apply Forall_singleton. split; [by apply valid_utf8_ascii|done].
Qed.

Lemma read_updates_canonical updates :
  read_array read_update (JArr (map canonical (update_json <$> updates)))
  = Some (map canonical (update_json <$> updates)).
Proof.
  cbn [read_array]. induction updates as [|u updates IH]; [done|].
  rewrite fmap_cons. cbn [map]. cbn [mapM].
  assert (read_update (canonical (update_json u)) = Some (canonical (update_json u))) as -> by done.
  cbn [mbind option_bind]. by rewrite IH.
Qed.

Lemma string_field_canonical l k s :
  NoDup l.*1 → str_field k s ∈ l → string_field k (canonical (JMap l)) = s.
Proof.
  intros Hnd Hin. unfold string_field. rewrite (field_canonical l (bytes_of k) (JStr (bytes_of s)) Hnd Hin).
  apply string_of_bytes_of.
Qed.

Lemma update_json_fields u :
  string_field "ref" (canonical (update_json u)) = ru_Ref u ∧
  string_field "old" (canonical (update_json u)) = ru_Old u ∧
  string_field "new" (canonical (update_json u)) = ru_New u.
Proof.
  split; [|split]; (apply string_field_canonical; [nodup_keys|set_solver]).
Qed.

(** The change set that a push stores, as a fetch reads it. *)
Lemma changeset_reads ts base updates packHex :
  ok_clock ts → Forall ok_update updates → ok_text packHex →
  ∃ text, CanonicalJSON (changeset_json ts base updates packHex) = Some text ∧
    unmarshal_changeset (parsePayload (node_data "ChangeSet" text)) =
    Some (mk_changeset packHex (map canonical (update_json <$> updates)) (hex_encode base)).
Proof.
  intros Hts Hu Hp. pose proof (changeset_json_ok ts base updates packHex Hts Hu Hp) as Hok.
  eexists. split; [by apply CanonicalJSON_ok|].
  assert (parsePayload (node_data "ChangeSet" (marshal (canonical (changeset_json ts base updates packHex))))
    = marshal (canonical (changeset_json ts base updates packHex))) as ->.
  { unfold parsePayload, node_data. cbn [app]. rewrite cut_byte_app; [done|nodup_keys]. }
  unfold unmarshal_changeset. rewrite parse_marshal by (by apply ok_json_canonical).
  destruct (changeset_keys ts base updates packHex) as [Hnd Hgp].
  change (changeset_json ts base updates packHex) with (JMap (changeset_fields ts base updates packHex)).
  assert (∀ k v, (bytes_of k, v) ∈ changeset_fields ts base updates packHex →
    field (bytes_of k) (canonical (JMap (changeset_fields ts base updates packHex))) = Some (canonical v)) as Hf
    by (intros k v; by apply field_canonical).
  assert (∀ {A} (z : A) read k v, (bytes_of k, v) ∈ changeset_fields ts base updates packHex →
    canonical v ≠ JNull →
    read_field_with z read k (canonical (JMap (changeset_fields ts base updates packHex)))
    = read (canonical v)) as Hr.
  { intros A z read k v Hin Hv. unfold read_field_with. rewrite (Hf k v Hin). by destruct (canonical v). }
  assert (read_field_with "" read_string "gitPack" (canonical (JMap (changeset_fields ts base updates packHex)))
    = Some packHex) as Hpk.
  { destruct (decide (packHex = "")) as [->|Hne].
    - unfold read_field_with. rewrite field_canonical_none; [done|done|]. intros Hin. by apply Hgp in Hin.
    - rewrite (Hr _ "" read_string "gitPack" (JStr (bytes_of packHex))); [by cbn; rewrite string_of_bytes_of| |done].
      unfold changeset_fields. rewrite decide_False by done. apply elem_of_app. right. by left. }
  assert (read_field_with [] (read_array read_update) "gitUpdates"
    (canonical (JMap (changeset_fields ts base updates packHex)))
    = Some (map canonical (update_json <$> updates))) as Hup.
  { rewrite (Hr _ [] _ "gitUpdates" (JArr (update_json <$> updates))); [apply read_updates_canonical| |done].
    unfold changeset_fields. apply elem_of_app. left. do 6 right. by left. }
  assert (read_field_with "" read_string "head" (canonical (JMap (changeset_fields ts base updates packHex)))
    = Some (hex_encode base)) as Hh.
  { rewrite (Hr _ "" _ "head" (JStr (hex_encode_bytes base))); [done| |done].
    unfold changeset_fields. apply elem_of_app. left. right. by left. }
  destruct (canonical_map _ Hnd) as (m & Em & _). rewrite Em in *. rewrite Hpk. cbn [mbind option_bind].
  rewrite Hup. cbn [mbind option_bind]. by rewrite Hh.
Qed.

(** ** From a push to a fetch *)

Section fetch.
Context `{DriverLaws, Blake3Laws, TreeRanging, Zlib}.

(** Once the commit is known, the walk along the change sets only collects
    packs. *)
Lemma collect_acc n d refName cur oid acc :
  oid ≠ "" →
  collect_changesets n d refName cur oid acc =
  ('(oid, more) ← collect_changesets n d refName cur oid []; Ok (oid, acc ++ more)).
Proof.
  intros Hoid. revert cur acc. induction n as [|n IH]; intros cur acc; cbn [collect_changesets].
  { res_simpl. by rewrite app_nil_r. }
  destruct (ExtractObjectFromDB d cur) as [[content kind]|e|]; [|res_simpl; by rewrite app_nil_r|done].
  destruct (negb _); [res_simpl; by rewrite app_nil_r|].
  destruct (unmarshal_changeset _) as [cs|]; [|res_simpl; by rewrite app_nil_r].
  rewrite !(decide_False (P := oid = "")) by done.
  set (pk := if decide (cs_GitPack cs = "") then [] else
               match hex_decode (cs_GitPack cs) with
               | Some packDigest => [mk_changesetPackInfo packDigest (cs_GitUpdates cs)] | None => [] end).
  assert (∀ acc, (if decide (cs_GitPack cs = "") then acc
                   else match hex_decode (cs_GitPack cs) with
                        | Some packDigest => acc ++ [mk_changesetPackInfo packDigest (cs_GitUpdates cs)]
                        | None => acc
                        end) = acc ++ pk) as Hacc.
  { intros acc'. unfold pk. case_decide; [by rewrite app_nil_r|].
    destruct (hex_decode (cs_GitPack cs)); [done|by rewrite app_nil_r]. }
  rewrite !Hacc. cbn [app].
  destruct (decide (cs_Head cs = "")); [by res_simpl|].
  destruct (hex_decode (cs_Head cs)) as [next|]; [|by res_simpl].
  rewrite (IH next (acc ++ pk)), (IH next pk).
  destruct (collect_changesets n d refName next oid []) as [[oid' more]|e|]; res_simpl; [|done|done].
  by rewrite app_assoc.
Qed.

(** The walk keeps the commit it has. *)
Lemma collect_oid n d refName cur oid acc oid' l :
  oid ≠ "" → collect_changesets n d refName cur oid acc = Ok (oid', l) → oid' = oid.
Proof.
  intros Hoid. revert cur acc. induction n as [|n IH]; intros cur acc Hc; cbn [collect_changesets] in Hc.
  { by injection Hc as -> _. }
  destruct (ExtractObjectFromDB d cur) as [[content kind]|e|]; [|by injection Hc as -> _|done].
  destruct (negb _); [by injection Hc as -> _|].
  destruct (unmarshal_changeset _) as [cs|]; [|by injection Hc as -> _].
  rewrite (decide_False (P := oid = "")) in Hc by done.
  destruct (decide (cs_Head cs = "")); [by injection Hc as -> _|].
  destruct (hex_decode (cs_Head cs)) as [next|]; [by apply IH in Hc|by injection Hc as -> _].
Qed.

(** The packs of the change sets a push builds on. *)
Definition older_packs (d : DB) (refName : string) (base : bytes) (oid : string)
  : res ref_error (gmap string GitObject) :=
  '(_, olds) ← (if decide (hex_encode base = "") then Ok (oid, [])
               else collect_changesets 19 d refName base oid []);
  foldM (add_pack d) ∅ (reverse olds).

Lemma unpack_pack_content req : rr_Pack req ≠ [] → unpack_prefix (pack_content req) = rr_Pack req.
Proof.
  intros Hne. unfold unpack_prefix, pack_content, node_data.
  change (bytes_of "GitPack" ++ [Byte.x0a] ++ rr_Pack req) with ((bytes_of "GitPack" ++ [Byte.x0a]) ++ rr_Pack req).
  assert ((8 <? zlen ((bytes_of "GitPack" ++ [Byte.x0a]) ++ rr_Pack req)) = true) as ->.
  { rewrite zlen_app. change (zlen (bytes_of "GitPack" ++ [Byte.x0a])) with 8.
    destruct (rr_Pack req); [done|]. rewrite zlen_cons. pose proof (zlen_nonneg l). lia. }
  unfold has_prefix_b. rewrite take_app_length, bool_decide_eq_true_2 by done. done.
Qed.

(** A stored object with a given content. *)
Lemma known_content d d' x kind :
  (∀ g c k, ExtractObject d g = Ok (c, k) → of_kind c k) → stores d d' → stored d' (Blake3Hash (node_data kind x)) →
  Byte.x0a ∉ bytes_of kind →
  (∀ c k, ExtractObject d' (Blake3Hash (node_data kind x)) = Ok (c, k) → c = node_data kind x) →
  ExtractObject d' (Blake3Hash (node_data kind x)) = Ok (node_data kind x, kind).
Proof.
  intros Hk Hs (c & k & Hx) Hnl Hcol. rewrite Hx. pose proof (Hcol c k Hx) as ->.
  assert (of_kind (node_data kind x) k) as (Hnk & payload & E).
  { destruct (st_new _ _ Hs _ _ _ Hx) as [Hd|]; [by eapply Hk|done]. }
  by apply node_data_inj in E as [-> _].
Qed.

Lemma foldM_snoc {E S A} (f : S → A → res E S) s l x : foldM f s (l ++ [x]) = (s' ← foldM f s l; f s' x).
Proof.
  rewrite foldM_app. destruct (foldM f s l) as [s'|e|]; [|done|done]. cbn.
  by destruct (f s' x).
Qed.

(** What the commit of a push and its objects are. *)
Lemma split_commit_nodup objs commit :
  NoDup (go_OID <$> objs) → commit ∈ objs →
  ∃ rest, split_commit objs (go_OID commit) = (commit, rest) ∧ commit :: rest ≡ₚ objs.
Proof.
  intros Hnd Hin. unfold split_commit.
  assert (∀ l acc c, (go_OID commit ∉ go_OID <$> l) →
    foldl (λ '(commit', objects) obj, if decide (go_OID obj = go_OID commit) then (obj, objects)
      else (commit', objects ++ [obj])) (c, acc) l = (c, acc ++ l)) as Hnone.
  { clear. induction l as [|o l IH]; intros acc c Hn; [by rewrite app_nil_r|].
    rewrite fmap_cons in Hn. apply not_elem_of_cons in Hn as [Ho Hn]. cbn [foldl].
    rewrite decide_False by congruence. rewrite IH by done. by rewrite <-app_assoc. }
  apply list_elem_of_split in Hin as (l1 & l2 & ->).
  rewrite fmap_app, fmap_cons in Hnd. apply NoDup_app in Hnd as (Hnd1 & Hdis & Hnd2).
  apply NoDup_cons in Hnd2 as [Hn2 _].
  exists (l1 ++ l2). rewrite foldl_app, Hnone; [|intros Hx; apply (Hdis _ Hx); by left].
  cbn [foldl]. rewrite decide_True by done. rewrite Hnone by done. cbn [app].
  split; [done|]. by rewrite Permutation_middle.
Qed.

Lemma buildRef_of_pack d ref cache objs commit :
  resolveGitPackObjects d (ref_Target ref) (MapRefName (ref_Name ref)) = Ok (objs, go_OID commit) →
  NoDup (go_OID <$> objs) → commit ∈ objs → go_OID commit ≠ "" →
  ∃ rest, buildRef d ref cache = Ok (mk_refBuild (MapRefName (ref_Name ref)) commit rest, cache) ∧
    commit :: rest ≡ₚ objs.
Proof.
  intros Hr Hnd Hin Hne. destruct (split_commit_nodup objs commit Hnd Hin) as (rest & Hs & Hp).
  exists rest. split; [|done]. unfold buildRef. cbv zeta. rewrite Hr, Hs.
  rewrite (bool_decide_eq_false_2 (objs = [])) by (intros ->; by apply elem_of_nil in Hin).
  rewrite (bool_decide_eq_false_2 (go_OID commit = "")) by done. cbn [negb andb].
  by rewrite decide_True.
Qed.

(** Resolving a change set a push stored. *)
Lemma resolve_pushed d cs refName base req text older pushed u all :
  ExtractObject d cs = Ok (node_data "ChangeSet" text, "ChangeSet") → cs ≠ [] →
  unmarshal_changeset (parsePayload (node_data "ChangeSet" text)) =
    Some (mk_changeset (pack_hex req) (map canonical (update_json <$> [u])) (hex_encode base)) →
  rr_Pack req ≠ [] →
  ExtractObject d (Blake3Hash (pack_content req)) = Ok (pack_content req, "GitPack") →
  ru_Ref u = refName → ru_New u ≠ "" → ru_New u ≠ zeroOID →
  older_packs d refName base (ru_New u) = Ok older →
  parseGitPackWithBases (rr_Pack req) older = Ok pushed → all = pushed ∪ older → all ≠ ∅ →
  resolveGitPackObjects d cs refName =
    (result ← map_err (λ _, ErrRefFuel) (collectCommitObjects all (ru_New u)); Ok (result, ru_New u)).
Proof.
  intros Hx Hcs Hread Hpack Hpx Href Hnew Hnz Holder Hparse -> Hall.
  assert (pack_hex req = hex_encode (Blake3Hash (pack_content req)) ∧ pack_hex req ≠ "") as [Eh Hph].
  { unfold pack_hex. rewrite bool_decide_eq_false_2 by done. split; [done|]. intros E.
    apply (f_equal String.length) in E. rewrite length_hex_encode in E. unfold Blake3Hash in E.
    rewrite blake3_length in E. done. }
  assert (find_commit refName (map canonical (update_json <$> [u])) = ru_New u) as Hfind.
  { unfold find_commit. cbn [fmap list_fmap map List.find].
    destruct (update_json_fields u) as (Er & _ & En). rewrite Er, En.
    by rewrite bool_decide_eq_true_2, !bool_decide_eq_false_2. }
  assert (collect_changesets 20 d refName cs "" [] =
    '(oid, olds) ← (if decide (hex_encode base = "") then Ok (ru_New u, [])
                    else collect_changesets 19 d refName base (ru_New u) []);
    Ok (oid, mk_changesetPackInfo (Blake3Hash (pack_content req)) (map canonical (update_json <$> [u])) :: olds))
    as Hcol.
  { assert (∀ n, collect_changesets (S n) d refName cs "" [] =
      '(oid, olds) ← (if decide (hex_encode base = "") then Ok (ru_New u, [])
                      else collect_changesets n d refName base (ru_New u) []);
      Ok (oid, mk_changesetPackInfo (Blake3Hash (pack_content req)) (map canonical (update_json <$> [u])) :: olds))
      as H'; [|apply H'].
    intros n. cbn [collect_changesets]. unfold ExtractObjectFromDB. rewrite Hx.
    rewrite bool_decide_eq_true_2 by done. cbn [negb]. rewrite Hread. cbn [cs_GitPack cs_GitUpdates cs_Head].
    rewrite (decide_True (P := "" = "")) by done. rewrite Hfind. rewrite (decide_False (P := pack_hex req = "")) by done.
    rewrite Eh, hex_decode_encode. cbn [app].
    destruct (decide (hex_encode base = "")); [by res_simpl|].
    rewrite hex_decode_encode, collect_acc by done. done. }
  unfold resolveGitPackObjects. rewrite bool_decide_eq_false_2 by done. rewrite Hcol.
  unfold older_packs in Holder.
  destruct (if decide (hex_encode base = "") then _ else _) as [[oid olds]|e|] eqn:Eolds; [|done|done].
  assert (oid = ru_New u) as ->.
  { destruct (decide (hex_encode base = "")); [by injection Eolds as -> _|by eapply collect_oid]. }
  res_simpl. rewrite bool_decide_eq_false_2 by done. res_simpl. rewrite bool_decide_eq_false_2 by done. res_simpl.
  rewrite reverse_cons, foldM_snoc. cbn in Holder. rewrite Holder. res_simpl.
  unfold add_pack. cbn [ci_packDigest]. unfold ExtractObjectFromDB. rewrite Hpx.
  rewrite unpack_pack_content, Hparse by done. res_simpl. rewrite bool_decide_eq_false_2 by done. by res_simpl.
Qed.
End fetch.

(** ** Properties of pushes *)

Section properties.
Context `{DriverLaws, Blake3Laws, TreeRanging, Zlib}.

(** Stored objects start with their kind, as everything the server and its
    clients store does. *)
Definition kinds_ok (d : DB) : Prop := ∀ g c kind, ExtractObject d g = Ok (c, kind) → of_kind c kind.

(** The contents a push stores and reads back. *)
Definition pushed_content (clock : nat → Z) (req : receivePackRequest) (d : DB) (content : bytes) : Prop :=
  content = pack_content req ∨
  ∃ text, pushed_text clock req d = Some text ∧ content = node_data "ChangeSet" text.

(** What an accepted push leaves. *)
Lemma push_accepted clock random req d d' cs names :
  store_ok d → targets_ok d → kinds_ok d → fits clock req d →
  createChangeSetFromPack clock random req d = (d', Ok (cs, names)) →
  (∀ content c kind, pushed_content clock req d content →
     ExtractObject d' (Blake3Hash content) = Ok (c, kind) → c = content) →
  push_targets cs (targets d) (rr_Updates req) = Some (names, targets d') ∧
  store_ok d' ∧ kinds_ok d' ∧ targets_ok d' ∧
  (∃ text, pushed_text clock req d = Some text ∧ cs = Blake3Hash (node_data "ChangeSet" text) ∧
     ExtractObject d' cs = Ok (node_data "ChangeSet" text, "ChangeSet")) ∧
  (rr_Pack req ≠ [] → ExtractObject d' (Blake3Hash (pack_content req)) = Ok (pack_content req, "GitPack")).
Proof.
  intros W Hd Hk Hf Hpush Hcol. pose proof (push_prefix clock random req d) as Hp.
  destruct (pushed_text clock req d) as [text|] eqn:Et; cycle 1.
  { destruct Hp as (d2 & _ & E). congruence. }
  cbv zeta in Hp. destruct Hp as (d2 & Hr & E & Hs). rewrite E in Hpush.
  set (cs' := Blake3Hash (node_data "ChangeSet" text)) in *.
  apply stM_bind_ok in Hpush as (d3 & names' & Ha & [= -> <- ->]). apply (proj1 (transact_ok _ _ _ _)) in Ha.
  destruct (same_refs_targets d d2 Hr) as [Ht _].
  assert (targets_ok d2) as Hd2 by (intros n; rewrite Ht; apply Hd).
  pose proof (apply_updates_step clock cs' (rr_Updates req) 8 d2 Hd2 (hash_nonempty _)) as Hu.
  rewrite Ha in Hu. destruct Hu as (Hu & Hd' & Hso & _). rewrite Ht in Hu.
  destruct (Hs W Hf) as (Hs2 & Hst & Hstp).
  assert (stores d d') as Hsd
    by (eapply stores_trans; [exact Hs2|]; by apply same_objects_stores; [apply Hs2|]).
  assert (∀ g, stored d2 g → stored d' g) as Hkeep.
  { intros g (c & k & Hg). exists c, k. by apply (same_objects_grows d2 d' Hso). }
  split; [done|]. split; [apply Hsd|]. split; [|split; [done|split]].
  - intros g c k Hg. destruct (st_new _ _ Hsd _ _ _ Hg) as [Hg'|]; [by eapply Hk|done].
  - exists text. split; [done|]. split; [done|].
    apply (known_content d d' text "ChangeSet" Hk Hsd (Hkeep _ Hst)).
    + refine (bool_decide_unpack _ _). vm_compute. exact I.
    + intros c k. apply Hcol. right. by exists text.
  - intros Hne. apply (known_content d d' (rr_Pack req) "GitPack" Hk Hsd (Hkeep _ (Hstp Hne))).
    + refine (bool_decide_unpack _ _). vm_compute. exact I.
    + intros c k. apply Hcol. by left.
Qed.

(** The references of a push to one branch. *)
Lemma push_one_target cs old new x m names m' :
  push_targets cs m [mk_receivePackUpdate old new ("refs/heads/" +:+ x)] = Some (names, m') →
  isZeroOID new = false → m' !! ("snap." +:+ x) = Some cs.
Proof.
  cbn [push_targets]. unfold push_target. cbn [ru_Ref ru_New ru_Old].
  change (MapGitRefName ("refs/heads/" +:+ x)) with (if decide (x = "") then None else Some ("snap." +:+ x)).
  intros Hp Hz. case_decide; [done|]. cbn [mbind option_bind] in Hp. rewrite Hz in Hp.
  assert (m' = <["cs.latest" := cs]> (<["snap." +:+ x := cs]> m)) as ->.
  { destruct (isZeroOID old); [destruct (m !! _); [done|]|]; cbn in Hp; congruence. }
  rewrite lookup_insert_ne by done. by rewrite lookup_insert_eq.
Qed.

(** Under a snapshot there are no older packs. *)
Lemma older_packs_snapshot d refName base oid content :
  ExtractObject d base = Ok (content, "Snapshot") → older_packs d refName base oid = Ok ∅.
Proof.
  intros Hsnap. unfold older_packs. destruct (decide (hex_encode base = "")); [done|].
  by rewrite (collect_snapshot 18 _ _ _ _ _ _ Hsnap).
Qed.

(** Building the reference a pack was pushed to. *)
Lemma push_fetch_ok clock random req d d' cs names old new x base older pushed commit :
  store_ok d → targets_ok d → kinds_ok d → fits clock req d → ok_clock (clock 5%nat) →
  rr_Updates req = [mk_receivePackUpdate old new ("refs/heads/" +:+ x)] → x ≠ "" →
  ok_update (mk_receivePackUpdate old new ("refs/heads/" +:+ x)) →
  isZeroOID new = false → rr_Pack req ≠ [] →
  createChangeSetFromPack clock random req d = (d', Ok (cs, names)) →
  (∀ content c kind, pushed_content clock req d content →
     ExtractObject d' (Blake3Hash content) = Ok (c, kind) → c = content) →
  base_of clock d = Some base → older_packs d' ("refs/heads/" +:+ x) base new = Ok older →
  parseGitPackWithBases (rr_Pack req) older = Ok pushed →
  let all := pushed ∪ older in
  well_typed all → ¬ malformed all → all !! new = Some commit → go_Type commit ≠ ObjectTree → new ≠ "" →
  targets d' !! ("snap." +:+ x) = Some cs ∧
  ∀ ref cache, ref_Name ref = "snap." +:+ x → ref_Target ref = cs →
    ∃ objs, buildRef d' ref cache = Ok (mk_refBuild ("refs/heads/" +:+ x) commit objs, cache) ∧
      NoDup (go_OID <$> commit :: objs) ∧
      ∀ o, o ∈ commit :: objs ↔ ∃ y, rtc (links all) new y ∧ all !! y = Some o.
Proof.
  intros W Hd Hk Hf Hclock Hup Hx Hok Hz Hpack Hpush Hcol Hbase Holder Hparse all Hwt Hmal Hcommit Hty Hnew.
  destruct (push_accepted _ _ _ _ _ _ _ W Hd Hk Hf Hpush Hcol)
    as (Ht & _ & _ & _ & (text & Htext & -> & Hcs) & Hgp).
  specialize (Hgp Hpack). rewrite Hup in Ht. split; [by eapply push_one_target|].
  intros ref cache Hn Htg.
  unfold pushed_text in Htext. rewrite Hbase in Htext. cbn [mbind option_bind] in Htext.
  rewrite Hup in Htext.
  destruct (changeset_reads (clock 5%nat) base [mk_receivePackUpdate old new ("refs/heads/" +:+ x)] (pack_hex req))
    as (text' & Et' & Hread); [done|by apply Forall_singleton| |].
  { unfold pack_hex. case_bool_decide; [done|apply hex_text]. }
  rewrite Htext in Et'. injection Et' as <-.
  assert (MapRefName (ref_Name ref) = "refs/heads/" +:+ x) as Hmap by by rewrite Hn.
  assert (new ≠ zeroOID) as Hnz by (intros ->; by vm_compute in Hz).
  assert (all ≠ ∅) as Hall by (intros E; rewrite E in Hcommit; by rewrite lookup_empty in Hcommit).
  pose proof (resolve_pushed d' _ ("refs/heads/" +:+ x) base req text older pushed _ all Hcs (hash_nonempty _)
    Hread Hpack Hgp eq_refl Hnew Hnz Holder Hparse eq_refl Hall) as Hres. cbn [ru_New] in Hres.
  assert (∀ o, all !! new = Some o → go_Type o ≠ ObjectTree) as Hroot by (intros o Ho; congruence).
  pose proof (collect_objects_ok all 0 new Hwt Hroot) as Hc.
  unfold collectCommitObjects in Hres.
  destruct (collectCommitObjectsWithDepth all 0 new) as [[result shallow]| |]; [|done|done].
  destruct Hc as (Hnd & Hin & _ & _ & Hfull). destruct (Hfull (Z.le_refl 0)) as [_ Hreach].
  assert (go_OID commit = new) as Eoid by (by eapply wt_keyed).
  cbn [mbind res_bind map_err] in Hres. rewrite <-Hmap, <-Htg, <-Eoid in Hres.
  destruct (buildRef_of_pack d' ref cache result commit Hres Hnd) as (objs & Hb & Hp).
  { eapply Hreach; [reflexivity|]. done. }
  { by rewrite Eoid. }
  exists objs. rewrite <-Hmap. split; [exact Hb|]. rewrite Hp. split; [done|].
  intros o. rewrite Hp. split.
  - intros Ho. destruct (Hin o Ho) as [Ho1 Ho2]. by exists (go_OID o).
  - intros (y & Hy & Ho). by eapply Hreach.
Qed.

(** The client's repository holds everything below [tip], and agrees with what
    the server finds on the objects that both have. *)
Record client_repo (world all : gmap string GitObject) (tip : string) : Prop := {
  cr_closed y : rtc (links world) tip y → is_Some (world !! y);
  cr_agree y o o' : world !! y = Some o → all !! y = Some o' → o = o' }.

(** When the server finds everything below the tip, what can be reached among
    the objects it finds is what can be reached in the client's repository. *)
Lemma reachable_found world all tip :
  client_repo world all tip → (∀ y, rtc (links world) tip y → is_Some (all !! y)) →
  ∀ o, (∃ y, rtc (links all) tip y ∧ all !! y = Some o) ↔ (∃ y, rtc (links world) tip y ∧ world !! y = Some o).
Proof.
  intros [Hcl Hag] Hall.
  assert (∀ y, rtc (links world) tip y → world !! y = all !! y) as Hsame.
  { intros y Hy. destruct (Hcl y Hy) as [o Ho], (Hall y Hy) as [o' Ho'].
    rewrite Ho, Ho'. f_equal. by eapply Hag. }
  assert (∀ y, rtc (links world) tip y ↔ rtc (links all) tip y) as Hiff.
  { intros y. split.
    - apply (rtc_ind_r (λ y, rtc (links all) tip y)); [done|]. intros x z Hx (obj & Hobj & Hl) IH.
      eapply rtc_r; [exact IH|]. exists obj. split; [|done]. by rewrite <-Hsame.
    - apply (rtc_ind_r (λ y, rtc (links world) tip y)); [done|]. intros x z _ (obj & Hobj & Hl) IH.
      eapply rtc_r; [exact IH|]. exists obj. split; [|done]. by rewrite Hsame. }
  intros o. split; intros (y & Hy & Ho); exists y.
  - apply Hiff in Hy. split; [done|]. by rewrite Hsame.
  - split; [by apply Hiff|]. by rewrite <-Hsame.
Qed.

(** C29: a fetch after a push.  When a pack is pushed to a branch, the branch
    points at the new change set, whatever it pointed to before.  Building the
    reference then looks for objects in the pushed pack and in the packs of
    the change sets below the repository's base, and only there: what the
    branch had before does not count.  It finds the pushed commit and serves
    with it, each once, exactly the objects that are reachable from it through
    objects found there.  So when everything reachable from the commit in the
    client's repository is found there (a push that carries its whole history,
    for one), the reference serves exactly the objects reachable from the
    commit; a push that leaves out objects which only the branch had loses
    them, as [second_push_loses_first] below shows. *)
Theorem push_fetch clock random req d d' cs names old new x base older pushed commit :
  store_ok d → targets_ok d → kinds_ok d → fits clock req d → ok_clock (clock 5%nat) →
  rr_Updates req = [mk_receivePackUpdate old new ("refs/heads/" +:+ x)] → x ≠ "" →
  ok_update (mk_receivePackUpdate old new ("refs/heads/" +:+ x)) →
  isZeroOID new = false → rr_Pack req ≠ [] →
  createChangeSetFromPack clock random req d = (d', Ok (cs, names)) →
  (∀ content c kind, pushed_content clock req d content →
     ExtractObject d' (Blake3Hash content) = Ok (c, kind) → c = content) →
  base_of clock d = Some base → older_packs d' ("refs/heads/" +:+ x) base new = Ok older →
  parseGitPackWithBases (rr_Pack req) older = Ok pushed →
  let found := pushed ∪ older in
  well_typed found → ¬ malformed found → found !! new = Some commit → go_Type commit ≠ ObjectTree → new ≠ "" →
  targets d' !! ("snap." +:+ x) = Some cs ∧
  ∀ ref cache, ref_Name ref = "snap." +:+ x → ref_Target ref = cs →
    ∃ objs, buildRef d' ref cache = Ok (mk_refBuild ("refs/heads/" +:+ x) commit objs, cache) ∧
      NoDup (go_OID <$> commit :: objs) ∧
      (∀ o, o ∈ commit :: objs ↔ ∃ y, rtc (links found) new y ∧ found !! y = Some o) ∧
      (∀ world, client_repo world found new → (∀ y, rtc (links world) new y → is_Some (found !! y)) →
         ∀ o, o ∈ commit :: objs ↔ ∃ y, rtc (links world) new y ∧ world !! y = Some o).
Proof.
  intros W Hd Hk Hf Hclock Hup Hx Hok Hz Hpack Hpush Hcol Hbase Holder Hparse found Hwt Hmal Hcommit Hty Hnew.
  destruct (push_fetch_ok clock random req d d' cs names old new x base older pushed commit W Hd Hk Hf Hclock Hup Hx
    Hok Hz Hpack Hpush Hcol Hbase Holder Hparse Hwt Hmal Hcommit Hty Hnew) as [Ht Hb].
  split; [exact Ht|]. intros ref cache Hn Htg. destruct (Hb ref cache Hn Htg) as (objs & E & Hnd & Hall).
  exists objs. split; [exact E|]. split; [exact Hnd|]. split; [exact Hall|].
  intros world Hw Hfound o. rewrite Hall. by apply reachable_found.
Qed.

(** a push forgets what its branch had.  In a repository whose snap.main
    is a snapshot, or is missing, a push to a branch makes the branch serve
    objects of its own pack only: a parent of the pushed commit, or any other
    object, that the server had served for the branch before and that the
    client therefore did not send again is no longer served. *)
Theorem branch_push_forgets clock random req d d' cs names old new x base content pushed commit :
  store_ok d → targets_ok d → kinds_ok d → fits clock req d → ok_clock (clock 5%nat) →
  rr_Updates req = [mk_receivePackUpdate old new ("refs/heads/" +:+ x)] → x ≠ "" →
  ok_update (mk_receivePackUpdate old new ("refs/heads/" +:+ x)) →
  isZeroOID new = false → rr_Pack req ≠ [] →
  createChangeSetFromPack clock random req d = (d', Ok (cs, names)) →
  (∀ content c kind, pushed_content clock req d content →
     ExtractObject d' (Blake3Hash content) = Ok (c, kind) → c = content) →
  base_of clock d = Some base → ExtractObject d' base = Ok (content, "Snapshot") →
  parseGitPackWithBases (rr_Pack req) ∅ = Ok pushed →
  well_typed pushed → ¬ malformed pushed → pushed !! new = Some commit → go_Type commit ≠ ObjectTree → new ≠ "" →
  ∀ ref cache, ref_Name ref = "snap." +:+ x → ref_Target ref = cs →
    ∃ objs, buildRef d' ref cache = Ok (mk_refBuild ("refs/heads/" +:+ x) commit objs, cache) ∧
      ∀ oid, pushed !! oid = None → oid ∉ go_OID <$> commit :: objs.
Proof.
  intros W Hd Hk Hf Hclock Hup Hx Hok Hz Hpack Hpush Hcol Hbase Hsnap Hparse Hwt Hmal Hcommit Hty Hnew ref cache Hn Htg.
  assert (older_packs d' ("refs/heads/" +:+ x) base new = Ok ∅) as Holder.
  { by apply older_packs_snapshot with content. }
  pose proof (push_fetch_ok clock random req d d' cs names old new x base ∅ pushed commit W Hd Hk Hf Hclock Hup Hx
    Hok Hz Hpack Hpush Hcol Hbase Holder Hparse) as Hfetch. cbv zeta in Hfetch. rewrite right_id_L in Hfetch by apply _.
  destruct (Hfetch Hwt Hmal Hcommit Hty Hnew) as [_ Hb].
  destruct (Hb ref cache Hn Htg) as (objs & Hbuild & _ & Hall). exists objs. split; [done|].
  intros oid Hnone (o & -> & Ho)%list_elem_of_fmap. apply Hall in Ho as (y & _ & Hy).
  rewrite (wt_keyed _ Hwt _ _ Hy) in Hnone. congruence.
Qed.
End properties.

(** ** The request on the wire *)

Section wire.

(** Reading the request ends within its fuel. *)
Lemma read_updates_total fuel r updates caps :
  (length r < fuel)%nat → read_updates fuel r updates caps ≠ Panic.
Proof.
  revert r updates caps. induction fuel as [|fuel IH]; intros r updates caps Hf; [lia|].
  cbn [read_updates]. pose proof (readPktLine_no_panic r) as Hnp.
  destruct (readPktLine r) as [[[line flush] rest]|e|] eqn:E; [|done|done]. res_simpl.
  apply readPktLine_consumes in E. destruct flush; [done|].
  case_bool_decide; [apply IH; lia|].
  unfold parse_update. destruct (match cut_byte _ _ with Some _ => _ | None => _ end) as [text caps'].
  destruct (Fields text) as [|? [|? [|? ?]]]; try done. res_simpl. apply IH. lia.
Qed.

(** What a client sends: a line per update, the first one with the
    capabilities, a flush and the pack. *)
Definition update_text (u : receivePackUpdate) : bytes :=
  sep_by Byte.x20 [bytes_of (ru_Old u); bytes_of (ru_New u); bytes_of (ru_Ref u)].
Definition caps_text (caps : list string) : bytes :=
  match caps with [] => [] | _ => Byte.x00 :: sep_by Byte.x20 (bytes_of <$> caps) end.
Definition request_lines (updates : list receivePackUpdate) (caps : list string) : list bytes :=
  match updates with
  | [] => []
  | u :: updates => (update_text u ++ caps_text caps) :: (update_text <$> updates)
  end.
Definition client_request (updates : list receivePackUpdate) (caps : list string) (pack : bytes) : bytes :=
  concat ((λ line, frame (line ++ [Byte.x0a])) <$> request_lines updates caps) ++ bytes_of "0000" ++ pack.

Definition word_update (u : receivePackUpdate) : Prop :=
  word (bytes_of (ru_Old u)) ∧ word (bytes_of (ru_New u)) ∧ word (bytes_of (ru_Ref u)).

Lemma sep_by_edges w ws : Forall word (w :: ws) → edges (sep_by Byte.x20 (w :: ws)).
Proof.
  revert w. induction ws as [|x ws IH]; intros w Hw; apply Forall_cons in Hw as [Hw Hws].
  - cbn. rewrite app_nil_r. by apply word_edges.
  - rewrite sep_by_cons. change (Byte.x20 :: ?l) with ([Byte.x20] ++ l).
    apply edges_app; [by apply word_edges|by apply IH].
Qed.

Lemma visible_no_nul w : Forall visible w → Byte.x00 ∉ w.
Proof. intros Hw Hin. eapply Forall_forall in Hw; [|exact Hin]. by destruct Hw. Qed.

Lemma update_text_words u : word_update u →
  Forall word [bytes_of (ru_Old u); bytes_of (ru_New u); bytes_of (ru_Ref u)].
Proof. intros (?&?&?). by repeat apply Forall_cons_2. Qed.

Lemma update_text_no_nul u : word_update u → Byte.x00 ∉ update_text u.
Proof.
  intros ([_ Ho] & [_ Hn] & [_ Hr]). unfold update_text. cbn. rewrite app_nil_r.
  rewrite !elem_of_app, !elem_of_cons, !elem_of_app, !elem_of_cons.
  pose proof (visible_no_nul _ Ho). pose proof (visible_no_nul _ Hn). pose proof (visible_no_nul _ Hr).
  intros [?|[?|[?|[?|?]]]]; done.
Qed.

Lemma string_words (l : list string) : string_of <$> (bytes_of <$> l) = l.
Proof.
  rewrite <-list_fmap_compose. induction l as [|s l IH]; [done|]. rewrite fmap_cons, IH. cbn.
  by rewrite string_of_bytes_of.
Qed.

Lemma parse_update_text u caps seen :
  word_update u → Forall (λ c, word (bytes_of c)) caps →
  parse_update (update_text u ++ caps_text caps) seen =
  Ok (u, match caps, seen with _ :: _, [] => caps | _, _ => seen end).
Proof.
  intros Hu Hc. unfold parse_update.
  assert (Fields (update_text u) = [bytes_of (ru_Old u); bytes_of (ru_New u); bytes_of (ru_Ref u)]) as Hf
    by (apply Fields_words; by apply update_text_words).
  destruct u as [old new ref]. cbn [ru_Old ru_New ru_Ref] in *. destruct caps as [|c caps].
  - cbn [caps_text]. rewrite app_nil_r.
    assert (cut_byte Byte.x00 (update_text (mk_receivePackUpdate old new ref)) = None) as ->.
    { destruct (cut_byte _ _) as [[a b]|] eqn:E; [|done]. apply cut_byte_some in E.
      exfalso. apply (update_text_no_nul _ Hu). rewrite E. apply elem_of_app. right. by left. }
    rewrite Hf, !string_of_bytes_of. done.
  - cbn [caps_text]. rewrite cut_byte_app by (by apply update_text_no_nul).
    rewrite Hf, !string_of_bytes_of. destruct seen as [|s seen]; [|done].
    rewrite bool_decide_eq_true_2 by done. unfold parseCaps.
    rewrite bool_decide_eq_false_2.
    + rewrite Fields_words by (by apply Forall_fmap). by rewrite string_words.
    + rewrite fmap_cons. apply Forall_cons in Hc as [[Hne _] _].
      destruct (bytes_of <$> caps); cbn [sep_by fmap list_fmap concat]; destruct (bytes_of c); done.
Qed.

Lemma request_line_edges u caps : word_update u → Forall (λ c, word (bytes_of c)) caps →
  edges (update_text u ++ caps_text caps).
Proof.
  intros Hu Hc. pose proof (sep_by_edges _ _ (update_text_words u Hu)) as He. fold (update_text u) in He.
  destruct caps as [|c caps]; cbn [caps_text]; [by rewrite app_nil_r|].
  change (Byte.x00 :: ?l) with ([Byte.x00] ++ l). apply edges_app; [done|].
  rewrite fmap_cons. apply sep_by_edges. rewrite <-fmap_cons. by apply Forall_fmap.
Qed.

Lemma read_updates_line fuel line rest updates caps u caps' :
  edges line → zlen line + 5 ≤ 0xffff → parse_update line caps = Ok (u, caps') →
  read_updates (S fuel) (frame (line ++ [Byte.x0a]) ++ rest) updates caps =
  read_updates fuel rest (updates ++ [u]) caps'.
Proof.
  intros He Hlen Hp. cbn [read_updates]. unfold readPktLine.
  rewrite readPktLineV2_frame by (rewrite zlen_app; change (zlen [Byte.x0a]) with 1; lia).
  cbn [mbind res_bind map_err]. rewrite bytes_of_string_of, TrimSpace_edges by done.
  rewrite bool_decide_eq_false_2; [by rewrite Hp|].
  intros ->. destruct He as [(a & r & E & _) _]. discriminate E.
Qed.

Lemma read_updates_more us : ∀ fuel rest updates caps,
  Forall word_update us → Forall (λ u, zlen (update_text u) + 5 ≤ 0xffff) us →
  read_updates (length us + fuel) (concat ((λ line, frame (line ++ [Byte.x0a])) <$> (update_text <$> us)) ++ rest)
    updates caps = read_updates fuel rest (updates ++ us) caps.
Proof.
  induction us as [|u us IH]; intros fuel rest updates caps Hw Hl; [by rewrite app_nil_r|].
  apply Forall_cons in Hw as [Hu Hw]. apply Forall_cons in Hl as [Hlu Hl].
  cbn [length Nat.add]. rewrite !fmap_cons. cbn [concat]. rewrite <-app_assoc.
  pose proof (parse_update_text u [] caps Hu ltac:(constructor)) as Hp. cbn [caps_text] in Hp.
  rewrite app_nil_r in Hp.
  assert (edges (update_text u)) as He.
  { pose proof (request_line_edges u [] Hu ltac:(constructor)) as He. cbn [caps_text] in He.
    by rewrite app_nil_r in He. }
  rewrite (read_updates_line _ _ _ _ _ u caps He Hlu) by (rewrite Hp; by destruct caps).
  rewrite IH by done. by rewrite <-app_assoc.
Qed.

(** The request of a push.  Reading ends on every input; and what a client
    sends - the updates, the capabilities behind the first, a flush and the
    pack - is read as exactly these updates, capabilities and pack. *)
Theorem readReceivePackRequest_roundtrip :
  (∀ r, readReceivePackRequest r ≠ Panic) ∧
  ∀ u us caps pack,
    Forall word_update (u :: us) → Forall (λ c, word (bytes_of c)) caps →
    Forall (λ line, zlen line + 5 ≤ 0xffff) (request_lines (u :: us) caps) →
    readReceivePackRequest (client_request (u :: us) caps pack) =
    Ok (mk_receivePackRequest (u :: us) pack caps).
Proof.
  split.
  - intros r. unfold readReceivePackRequest. pose proof (read_updates_total (S (length r)) r [] [] ltac:(lia)) as Hn.
    destruct (read_updates _ _ _ _) as [[[? ?] ?]|e|]; done.
  - intros u us caps pack Hw Hc Hl. unfold readReceivePackRequest, client_request, request_lines.
    apply Forall_cons in Hw as [Hu Hus]. cbn [request_lines] in Hl. apply Forall_cons in Hl as [Hl1 Hl].
    apply (proj1 (Forall_fmap _ _ _)) in Hl.
    rewrite fmap_cons. cbn [concat]. rewrite <-app_assoc.
    set (rest := concat _ ++ bytes_of "0000" ++ pack).
    assert (∃ fuel, length (frame ((update_text u ++ caps_text caps) ++ [Byte.x0a]) ++ rest)
      = (length us + S fuel)%nat) as [fuel Ef].
    { assert (length us + 4 ≤ length rest)%nat as Hr.
      { unfold rest. rewrite !length_app. change (length (bytes_of "0000")) with 4%nat. clear.
        induction us as [|x us IH]; cbn [fmap list_fmap concat length]; [lia|]. rewrite length_app.
        unfold frame at 1. rewrite length_app. change (length (pkt_header _)) with 4%nat. lia. }
      exists (length (frame ((update_text u ++ caps_text caps) ++ [Byte.x0a]) ++ rest) - length us - 1)%nat.
      rewrite length_app in *. lia. }
    rewrite Ef.
    rewrite (read_updates_line _ _ _ _ _ u caps); [|by apply request_line_edges|done|].
    2: { rewrite parse_update_text by done. by destruct caps. }
    unfold rest. rewrite read_updates_more by done. cbn [read_updates].
    assert (readPktLine (bytes_of "0000" ++ pack) = Ok (EmptyString, true, pack)) as -> by done.
    by res_simpl.
Qed.
End wire.

(** ** Concrete pushes *)

#[local] Existing Instances demo_driver demo_hash demo_driver_laws demo_hash_laws.

Definition demo_clock (i : nat) : Z := 1754000000000 + Z.of_nat i.

(** A commit on the empty tree, and one on top of it. *)
Definition commit_one : GitObject := Eval vm_compute in
  makeGitObject ObjectCommit (bytes_of ("tree " +:+ emptyTreeOID +:+ newline +:+ newline +:+ "one")).
Definition commit_two : GitObject := Eval vm_compute in
  makeGitObject ObjectCommit (bytes_of ("tree " +:+ emptyTreeOID +:+ newline
    +:+ "parent " +:+ go_OID commit_one +:+ newline +:+ newline +:+ "two")).
Definition pack_of (objs : list GitObject) : bytes := w_out (@writePack stored_zlib _ _ (buffer []) objs).1.

Definition pack_one : bytes := Eval vm_compute in pack_of [commit_one; buildEmptyTreeObject].
Definition pack_two : bytes := Eval vm_compute in pack_of [commit_two].

Definition push_one : receivePackRequest :=
  mk_receivePackRequest [mk_receivePackUpdate zeroOID (go_OID commit_one) "refs/heads/dev"]
    pack_one [].
Definition push_two : receivePackRequest :=
  mk_receivePackRequest [mk_receivePackUpdate (go_OID commit_one) (go_OID commit_two) "refs/heads/dev"]
    pack_two [].

Definition after_one : DB * res push_error (bytes * list string) :=
  createChangeSetFromPack demo_clock (replicate 32 Byte.x00) push_one empty_db.
Definition after_two : DB * res push_error (bytes * list string) :=
  createChangeSetFromPack demo_clock (replicate 32 Byte.x01) push_two after_one.1.

(** What the two pushes answer. *)
Example pushes_accepted :
  match after_one.2, after_two.2 with
  | Ok (_, names), Ok (_, names') => names = ["snap.dev"; "cs.latest"] ∧ names' = names
  | _, _ => False
  end.
Proof. vm_compute. done. Qed.

Definition served (d : DB) : res ref_error (list string) :=
  match db_refs d !! "snap.dev" with
  | Some ref => '(built, _) ← @buildRef tree_ranging stored_zlib d ref ∅;
                Ok (go_OID <$> rb_commit built :: rb_objects built)
  | None => Err ErrEmptyTarget
  end.

(** The first push is served whole.  The second one replaces the change set of
    the branch by one whose head is the base of the repository, not the change
    set it replaces: its parent commit and its tree are no longer found. *)
Example second_push_loses_first :
  served after_one.1 = Ok [go_OID commit_one; emptyTreeOID] ∧
  served after_two.1 = Ok [go_OID commit_two].
Proof. vm_compute. done. Qed.

(** A push whose old value is out of date is not refused. *)
Definition stale_push : receivePackRequest :=
  mk_receivePackRequest [mk_receivePackUpdate emptyTreeOID (go_OID commit_one) "refs/heads/dev"]
    pack_one [].
Example stale_push_accepted :
  is_ok (createChangeSetFromPack demo_clock (replicate 32 Byte.x02) stale_push after_two.1).2 = true.
Proof. vm_compute. done. Qed.

Definition digest_of (r : DB * res push_error (bytes * list string)) : bytes :=
  match r.2 with Ok (cs, _) => cs | _ => [] end.
Definition names_of (r : DB * res push_error (bytes * list string)) : list string :=
  match r.2 with Ok (_, names) => names | _ => [] end.
Definition objects_of (req : receivePackRequest) : gmap string GitObject :=
  match @parseGitPackWithBases stored_zlib (rr_Pack req) ∅ with Ok m => m | _ => ∅ end.

Lemma answered r : is_ok r.2 = true → r = (r.1, Ok (digest_of r, names_of r)).
Proof. by destruct r as [d [[cs names]|e|]]. Qed.
Lemma objects_parse req :
  is_ok (@parseGitPackWithBases stored_zlib (rr_Pack req) ∅) = true →
  @parseGitPackWithBases stored_zlib (rr_Pack req) ∅ = Ok (objects_of req).
Proof. unfold objects_of. by destruct (parseGitPackWithBases _ _). Qed.

Lemma after_one_answer : after_one = (after_one.1, Ok (digest_of after_one, names_of after_one)).
Proof. apply answered. vm_compute. reflexivity. Qed.
Lemma after_two_answer : after_two = (after_two.1, Ok (digest_of after_two, names_of after_two)).
Proof. apply answered. vm_compute. reflexivity. Qed.
Lemma push_one_objects : @parseGitPackWithBases stored_zlib (rr_Pack push_one) ∅ = Ok (objects_of push_one).
Proof. apply objects_parse. vm_compute. reflexivity. Qed.
Lemma push_two_objects : @parseGitPackWithBases stored_zlib (rr_Pack push_two) ∅ = Ok (objects_of push_two).
Proof. apply objects_parse. vm_compute. reflexivity. Qed.

Lemma empty_kinds_ok : kinds_ok empty_db.
Proof. intros g c kind. unfold ExtractObject, GetObject. cbn. by rewrite lookup_empty. Qed.
Lemma empty_targets_ok : targets_ok empty_db.
Proof. intros n. unfold targets. cbn. by rewrite lookup_fmap, lookup_empty. Qed.

Lemma not_malformed_b (m : gmap string GitObject) :
  forallb (λ x, is_ok (@extractTreeOID () (go_Data x.2))) (map_to_list m) = true → ¬ malformed m.
Proof.
  rewrite forallb_elem. intros Hall (x & obj & Hx & _ & Hp).
  specialize (Hall (x, obj)). cbn in Hall. rewrite Hp in Hall. discriminate Hall.
  by apply elem_of_map_to_list.
Qed.

(** The hypotheses of the theorems as tests. *)
Definition text_fits (text : option bytes) : bool :=
  match text with Some t => zlen t <? 2^62 | None => true end.
Definition fits_b clock req d : bool :=
  (zlen (rr_Pack req) <? 2^62) && text_fits (CanonicalJSON (empty_snapshot (clock 0%nat)))
  && text_fits (pushed_text clock req d).
Lemma fits_b_ok clock req d : fits_b clock req d = true → fits clock req d.
Proof.
  unfold fits_b, fits, text_fits. intros Hf. apply andb_prop in Hf as [Hf H3].
  apply andb_prop in Hf as [H1 H2]. split; [by apply Z.ltb_lt|].
  split; intros text E; rewrite E in *; by apply Z.ltb_lt.
Qed.

Definition holds_b (d : DB) (content : bytes) : bool :=
  match ExtractObject d (Blake3Hash content) with Ok (c, _) => bool_decide (c = content) | _ => true end.
Definition no_collision_b clock req d d' : bool :=
  holds_b d' (pack_content req) &&
  match pushed_text clock req d with Some text => holds_b d' (node_data "ChangeSet" text) | None => true end.
Lemma no_collision_b_ok clock req d d' : no_collision_b clock req d d' = true →
  ∀ content c kind, pushed_content clock req d content →
    ExtractObject d' (Blake3Hash content) = Ok (c, kind) → c = content.
Proof.
  intros Hb. apply andb_prop in Hb as [H1 H2].
  intros content c kind [->|(text & E & ->)] Hx; [|rewrite E in H2]; unfold holds_b in *;
    rewrite Hx in *; by apply bool_decide_eq_true in H1 || apply bool_decide_eq_true in H2.
Qed.

Definition base_b clock d : bool := match base_of clock d with Some _ => true | None => false end.
Lemma base_b_ok clock d : base_b clock d = true → base_of clock d = Some (default [] (base_of clock d)).
Proof. unfold base_b. by destruct (base_of clock d). Qed.

Definition snapshot_content (d : DB) (g : bytes) : bytes :=
  match ExtractObject d g with Ok (c, _) => c | _ => [] end.
Definition is_snapshot (d : DB) (g : bytes) : bool :=
  match ExtractObject d g with Ok (_, kind) => bool_decide (kind = "Snapshot") | _ => false end.
Lemma is_snapshot_ok d g : is_snapshot d g = true → ExtractObject d g = Ok (snapshot_content d g, "Snapshot").
Proof.
  unfold is_snapshot, snapshot_content. destruct (ExtractObject d g) as [[c k]|e|]; [|done|done].
  intros ->%bool_decide_eq_true. done.
Qed.

Definition is_object (m : gmap string GitObject) (oid : string) (o : GitObject) : bool :=
  match m !! oid with
  | Some o' => (go_Type o' =? go_Type o) && bool_decide (go_Data o' = go_Data o) && bool_decide (go_OID o' = go_OID o)
  | None => false
  end.
Lemma is_object_ok m oid o : is_object m oid o = true → m !! oid = Some o.
Proof.
  unfold is_object. destruct (m !! oid) as [o'|]; [|done]. intros Hb. bool_to_prop.
  destruct o, o'. cbn in *. by subst.
Qed.

Ltac ok_update_tac :=
  split; [|split]; apply valid_utf8_ascii; vm_compute; reflexivity.

Lemma after_one_accepted :
  store_ok after_one.1 ∧ kinds_ok after_one.1 ∧ targets_ok after_one.1.
Proof.
  destruct (push_accepted demo_clock (replicate 32 Byte.x00) push_one empty_db after_one.1
    (digest_of after_one) (names_of after_one)) as (_ & ? & ? & ? & _).
  - exact empty_store_ok.
  - exact empty_targets_ok.
  - exact empty_kinds_ok.
  - apply fits_b_ok. vm_compute. reflexivity.
  - exact after_one_answer.
  - apply no_collision_b_ok. vm_compute. reflexivity.
  - done.
Qed.

Lemma createChangeSetFromPack_refs_witness :
  push_targets (digest_of after_one) (targets empty_db) (rr_Updates push_one)
    = Some (names_of after_one, targets after_one.1) ∧
  names_of after_one = ["snap.dev"; "cs.latest"].
Proof.
  pose proof (createChangeSetFromPack_refs demo_clock (replicate 32 Byte.x00) push_one empty_db empty_targets_ok) as Hr.
  assert (createChangeSetFromPack demo_clock (replicate 32 Byte.x00) push_one empty_db
    = (after_one.1, Ok (digest_of after_one, names_of after_one))) as E by exact after_one_answer.
  rewrite E in Hr. destruct Hr as (Hr & _ & Hl). split; [exact Hr|].
  refine (bool_decide_unpack _ _). vm_compute. exact I.
Defined.

(** The repository of the first client: its commit and the empty tree. *)
Definition client_one : gmap string GitObject := objects_of push_one.
Lemma client_one_below y : rtc (links client_one) (go_OID commit_one) y → is_Some (client_one !! y).
Proof.
  intros Hy. assert (y ∈ [go_OID commit_one; emptyTreeOID]) as Hin.
  { revert y Hy. apply (rtc_ind_r (λ y, y ∈ _)); [by left|]. intros x y _ (obj & Hobj & Hl) _.
    assert (Forall (λ xo : string * GitObject, Forall (λ z, z ∈ [go_OID commit_one; emptyTreeOID])
      (tree_links xo.2 ++ parent_links xo.2)) (map_to_list client_one)) as Hf
      by (refine (bool_decide_unpack _ _); vm_compute; exact I).
    apply elem_of_map_to_list in Hobj. rewrite Forall_forall in Hf. specialize (Hf _ Hobj).
    rewrite Forall_forall in Hf. apply Hf. apply elem_of_app. exact Hl. }
  rewrite !elem_of_cons in Hin.
  destruct Hin as [->|[->|Hin%elem_of_nil]]; [..|destruct Hin];
    refine (bool_decide_unpack _ _); vm_compute; exact I.
Qed.

Lemma push_fetch_witness :
  targets after_one.1 !! "snap.dev" = Some (digest_of after_one) ∧
  ∃ objs, @buildRef tree_ranging stored_zlib after_one.1
      (mk_Ref "snap.dev" (digest_of after_one) 0 "" "") ∅
    = Ok (mk_refBuild "refs/heads/dev" commit_one objs, ∅) ∧
    ∀ o, o ∈ commit_one :: objs ↔
      ∃ y, rtc (links client_one) (go_OID commit_one) y ∧ client_one !! y = Some o.
Proof.
  destruct (@push_fetch _ _ _ _ tree_ranging stored_zlib demo_clock (replicate 32 Byte.x00) push_one empty_db after_one.1
    (digest_of after_one) (names_of after_one) zeroOID (go_OID commit_one) "dev"
    (default [] (base_of demo_clock empty_db)) ∅ (objects_of push_one) commit_one) as [Ht Hb].
  - exact empty_store_ok.
  - exact empty_targets_ok.
  - exact empty_kinds_ok.
  - apply fits_b_ok. vm_compute. reflexivity.
  - unfold ok_clock. vm_compute. done.
  - reflexivity.
  - vm_compute. discriminate.
  - ok_update_tac.
  - vm_compute. reflexivity.
  - vm_compute. discriminate.
  - exact after_one_answer.
  - apply no_collision_b_ok. vm_compute. reflexivity.
  - apply base_b_ok. vm_compute. reflexivity.
  - rewrite (older_packs_snapshot _ _ _ _ (snapshot_content after_one.1 (default [] (base_of demo_clock empty_db)))); [reflexivity|].
    apply is_snapshot_ok. vm_compute. reflexivity.
  - exact push_one_objects.
  - apply well_typed_b_ok. vm_compute. reflexivity.
  - apply not_malformed_b. vm_compute. reflexivity.
  - apply is_object_ok. vm_compute. reflexivity.
  - vm_compute. discriminate.
  - vm_compute. discriminate.
  - split; [exact Ht|].
    destruct (Hb (mk_Ref "snap.dev" (digest_of after_one) 0 "" "") ∅ eq_refl eq_refl) as (objs & E & _ & _ & Hw).
    exists objs. split; [exact E|]. rewrite right_id_L in Hw by apply _. apply Hw; [|exact client_one_below].
    split; [exact client_one_below|]. intros y o o' H1 H2. unfold client_one in H1. congruence.
Defined.

Lemma branch_push_forgets_witness :
  ∃ objs, @buildRef tree_ranging stored_zlib after_two.1
      (mk_Ref "snap.dev" (digest_of after_two) 0 "" "") ∅
    = Ok (mk_refBuild "refs/heads/dev" commit_two objs, ∅) ∧
    go_OID commit_one ∉ go_OID <$> commit_two :: objs.
Proof.
  destruct after_one_accepted as (W & Hk & Ht).
  destruct (@branch_push_forgets _ _ _ _ tree_ranging stored_zlib demo_clock (replicate 32 Byte.x01) push_two after_one.1 after_two.1
    (digest_of after_two) (names_of after_two) (go_OID commit_one) (go_OID commit_two) "dev"
    (default [] (base_of demo_clock after_one.1))
    (snapshot_content after_two.1 (default [] (base_of demo_clock after_one.1)))
    (objects_of push_two) commit_two)
    with (ref := mk_Ref "snap.dev" (digest_of after_two) 0 "" "") (cache := ∅ : gmap string snapshotObjects)
    as (objs & E & Hnone).
  - exact W.
  - exact Ht.
  - exact Hk.
  - apply fits_b_ok. vm_compute. reflexivity.
  - unfold ok_clock. vm_compute. done.
  - reflexivity.
  - vm_compute. discriminate.
  - ok_update_tac.
  - vm_compute. reflexivity.
  - vm_compute. discriminate.
  - exact after_two_answer.
  - apply no_collision_b_ok. vm_compute. reflexivity.
  - apply base_b_ok. vm_compute. reflexivity.
  - apply is_snapshot_ok. vm_compute. reflexivity.
  - exact push_two_objects.
  - apply well_typed_b_ok. vm_compute. reflexivity.
  - apply not_malformed_b. vm_compute. reflexivity.
  - apply is_object_ok. vm_compute. reflexivity.
  - vm_compute. discriminate.
  - vm_compute. discriminate.
  - reflexivity.
  - reflexivity.
  - exists objs. split; [exact E|]. apply Hnone. vm_compute. reflexivity.
Defined.

Definition demo_updates : list receivePackUpdate :=
  [mk_receivePackUpdate zeroOID (go_OID commit_one) "refs/heads/dev"; mk_receivePackUpdate (go_OID commit_one) zeroOID "refs/heads/old"].

Definition word_b (w : bytes) : bool := bool_decide (w ≠ []) && forallb (λ b, bool_decide (visible b)) w.
Lemma word_b_ok w : word_b w = true → word w.
Proof.
  unfold word_b. intros [Hn Hv]%andb_prop. split; [by apply bool_decide_eq_true in Hn|].
  apply Forall_forall. intros b Hb. eapply forallb_elem in Hv; [|exact Hb]. by apply bool_decide_eq_true in Hv.
Qed.

Lemma readReceivePackRequest_roundtrip_witness :
  readReceivePackRequest (client_request demo_updates ["report-status"; "ofs-delta"] pack_one)
  = Ok (mk_receivePackRequest demo_updates pack_one ["report-status"; "ofs-delta"]).
Proof.
  apply (proj2 readReceivePackRequest_roundtrip).
  - repeat apply Forall_cons_2; try apply Forall_nil_2;
      (split; [|split]); apply word_b_ok; vm_compute; reflexivity.
  - repeat apply Forall_cons_2; try apply Forall_nil_2; apply word_b_ok; vm_compute; reflexivity.
  - repeat constructor; vm_compute; discriminate.
Defined.
