(* ===== verification/UploadPack.v ===== *)
(** * Serving fetches and the SSH handler (kailab/sshserver/handler.go)

    The upload-pack side of the server: the advertisement of references and
    capabilities, the request of a client in protocol version 1, the command
    loop of version 2, and the reply - acknowledgements, shallow boundaries and
    the pack, on the side band or not.  The handler that dispatches a session
    to upload-pack or receive-pack closes the file.

    A connection is the bytes still to come from the client, the writer to it
    and the object store that the server shares between fetches. *)

From S2P Require Import Prelude Sha1 PktLine Json GoStrings Store Delta GitPack ObjectStore ObjectGraph PackBuilder.
From S2P Require Import SnapshotTree GitRefs Cas ReceivePack.
Local Open Scope Z_scope.

(** ** Data *)

Record uploadPackRequest := mk_uploadPackRequest {
  up_Wants : list string;
  up_Haves : list string;
  up_Shallow : list string;
  up_Deepen : list string;
  up_Caps : list string;
  up_Raw : list string;
  up_Done : bool;
}.
Definition empty_request : uploadPackRequest := mk_uploadPackRequest [] [] [] [] [] [] false.

Record CapabilitiesConfig := mk_CapabilitiesConfig {
  cc_Agent : string; cc_Extra : list string; cc_Disable : list string }.

Inductive up_error :=
| ErrUpPkt (e : pkt_error)
| ErrUpPack (e : pack_error)
| ErrUpRefs (e : ref_error)
| ErrUpBuild (e : build_error)
| ErrUpPush (e : push_error)
| ErrNotAvailable
| ErrMultipleDeepen
| ErrOnlyDeepenOne
| ErrInvalidCommand (line : string)
| ErrUnsupportedCommand (command : string)
| ErrRepoPath
| ErrRepoLookup
| ErrReceiveDisabled.

(** [strings.TrimSpace] and [strings.Fields] of a string *)
Definition trim (s : string) : string := string_of (TrimSpace (bytes_of s)).
Definition fields (s : string) : list string := string_of <$> Fields (bytes_of s).

(** ** Requests *)

Definition hasCapability (caps : list string) (name : string) : bool :=
  existsb (λ cap, bool_decide (cap = name)) caps.

(** The largest packet of the side band the client can take, if any. *)
Definition selectSideBand (caps : list string) : option Z :=
  if hasCapability caps "side-band-64k" then Some 65515
  else if hasCapability caps "side-band" then Some 995
  else None.

Definition validateShallowRequest (req : uploadPackRequest) : res up_error () :=
  match up_Deepen req with
  | [] => Ok ()
  | [deepen] => guard_err (negb (bool_decide (deepen = "1"))) ErrOnlyDeepenOne
  | _ => Err ErrMultipleDeepen
  end.

Definition parseDepth (deepen : string) : Z := if decide (deepen = "1") then 1 else 0.

Definition add_want (want : string) (req : uploadPackRequest) : uploadPackRequest :=
  let '(mk_uploadPackRequest w h s d c r f) := req in mk_uploadPackRequest (w ++ [want]) h s d c r f.
Definition add_have (have : string) (req : uploadPackRequest) : uploadPackRequest :=
  let '(mk_uploadPackRequest w h s d c r f) := req in mk_uploadPackRequest w (h ++ [have]) s d c r f.
Definition add_shallow (shallow : string) (req : uploadPackRequest) : uploadPackRequest :=
  let '(mk_uploadPackRequest w h s d c r f) := req in mk_uploadPackRequest w h (s ++ [shallow]) d c r f.
Definition add_deepen (deepen : string) (req : uploadPackRequest) : uploadPackRequest :=
  let '(mk_uploadPackRequest w h s d c r f) := req in mk_uploadPackRequest w h s (d ++ [deepen]) c r f.
Definition set_caps (caps : list string) (req : uploadPackRequest) : uploadPackRequest :=
  let '(mk_uploadPackRequest w h s d c r f) := req in mk_uploadPackRequest w h s d caps r f.
Definition add_raw (line : string) (req : uploadPackRequest) : uploadPackRequest :=
  let '(mk_uploadPackRequest w h s d c r f) := req in mk_uploadPackRequest w h s d c (r ++ [line]) f.
Definition set_done (req : uploadPackRequest) : uploadPackRequest :=
  let '(mk_uploadPackRequest w h s d c r f) := req in mk_uploadPackRequest w h s d c r true.

(** One line of a version-1 request; the flag says that the capabilities were
    read. *)
Definition parseUploadPackLine (st : uploadPackRequest * bool) (line : string)
  : uploadPackRequest * bool :=
  let '(req, capsParsed) := st in
  match strip "want " line with
  | Some _ =>
    match fields line with
    | _ :: want :: caps =>
      let req := add_want want req in
      if negb capsParsed && negb (bool_decide (caps = [])) then (set_caps caps req, true)
      else (req, capsParsed)
    | _ => (req, capsParsed)
    end
  | None =>
  if decide (line = "done") then (set_done req, capsParsed)
  else match strip "have " line with
  | Some have => (add_have (trim have) req, capsParsed)
  | None => match strip "shallow " line with
  | Some shallow => (add_shallow (trim shallow) req, capsParsed)
  | None => match strip "deepen " line with
  | Some deepen => (add_deepen (trim deepen) req, capsParsed)
  | None => match strip "deepen-since " line with
  | Some deepen => (add_deepen (trim deepen) req, capsParsed)
  | None => match strip "deepen-not " line with
  | Some deepen => (add_deepen (trim deepen) req, capsParsed)
  | None => (req, capsParsed)
  end end end end end end.

(** A line, with its white space cut off; an empty one is skipped. *)
Definition request_line (st : uploadPackRequest * bool) (line : string) : uploadPackRequest * bool :=
  let line := trim line in
  if decide (line = "") then st
  else parseUploadPackLine (add_raw line st.1, st.2) line.

(** The lines up to a flush or a delimiter; each takes at least four bytes. *)
Fixpoint read_request (fuel : nat) (r : bytes) (st : uploadPackRequest * bool)
  : res up_error (uploadPackRequest * bytes) :=
  match fuel with
  | O => Panic
  | S fuel =>
    '(line, flush, r) ← map_err ErrUpPkt (readPktLine r);
    if (flush : bool) then Ok (st.1, r)
    else read_request fuel r (request_line st line)
  end.

Definition readUploadPackRequestWithFirstLine (firstLine : string) (r : bytes)
  : res up_error (uploadPackRequest * bytes) :=
  let st := (empty_request, false) in
  let st := if decide (firstLine = "") then st else request_line st firstLine in
  read_request (S (length r)) r st.
Definition readUploadPackRequest (r : bytes) : res up_error (uploadPackRequest * bytes) :=
  readUploadPackRequestWithFirstLine "" r.

(** The arguments of a version-2 fetch. *)
Definition parse_fetch_arg (req : uploadPackRequest) (line : string) : uploadPackRequest :=
  match strip "want " line with
  | Some want => add_want (trim want) req
  | None => match strip "have " line with
  | Some have => add_have (trim have) req
  | None => if decide (line = "done") then set_done req else
  match strip "deepen " line with
  | Some deepen => add_deepen (trim deepen) req
  | None => match strip "shallow " line with
  | Some shallow => add_shallow (trim shallow) req
  | None => req
  end end end end.
Definition parseV2FetchArgs (args : list string) : uploadPackRequest :=
  foldl parse_fetch_arg empty_request args.

(** ** Commands of version 2 *)

(** The command of the next request; none at the end of the input and on a
    flush or a delimiter. *)
Definition read_command (r : bytes) : res up_error (option string * bytes) :=
  match readPktLineV2 r with
  | Err (ErrIO EOF) => Ok (None, r)
  | Err e => Err (ErrUpPkt e)
  | Panic => Panic
  | Ok (line, PktData, r) =>
    match strip "command=" (trim line) with
    | Some command => Ok (Some command, r)
    | None => Err (ErrInvalidCommand (trim line))
    end
  | Ok (_, _, r) => Ok (None, r)
  end.

(** The capabilities behind the command are skipped; the answer says whether
    arguments follow. *)
Fixpoint skip_capabilities (fuel : nat) (r : bytes) : res up_error (bool * bytes) :=
  match fuel with
  | O => Panic
  | S fuel =>
    '(_, pktType, r) ← map_err ErrUpPkt (readPktLineV2 r);
    match pktType with
    | PktDelim => Ok (true, r)
    | PktFlush => Ok (false, r)
    | PktData => skip_capabilities fuel r
    end
  end.
Fixpoint read_args (fuel : nat) (r : bytes) (args : list string)
  : res up_error (list string * bytes) :=
  match fuel with
  | O => Panic
  | S fuel =>
    '(line, pktType, r) ← map_err ErrUpPkt (readPktLineV2 r);
    match pktType with
    | PktFlush => Ok (args, r)
    | PktDelim => read_args fuel r args
    | PktData =>
      let line := trim line in
      read_args fuel r (if decide (line = "") then args else args ++ [line])
    end
  end.

(** The rest of a request behind its command. *)
Definition read_rest (r : bytes) : res up_error (list string * bytes) :=
  '(more, r) ← skip_capabilities (S (length r)) r;
  if (more : bool) then read_args (S (length r)) r [] else Ok ([], r).

(** The lines of a version-2 request inside a version-1 session, up to a flush
    or a delimiter. *)
Fixpoint read_v1_args (fuel : nat) (r : bytes) (args : list string)
  : res up_error (list string * bytes) :=
  match fuel with
  | O => Panic
  | S fuel =>
    '(line, flush, r) ← map_err ErrUpPkt (readPktLine r);
    if (flush : bool) then Ok (args, r)
    else
      let line := trim line in
      read_v1_args fuel r (if decide (line = "") then args else args ++ [line])
  end.

(** ** Capabilities *)

(** Without the disabled ones, the empty ones and repetitions. *)
Definition keep_capability (out : list string) (name : string) : list string :=
  if decide (name = "" ∨ name ∈ out) then out else out ++ [name].
Definition clean_capabilities (disable caps : list string) : list string :=
  foldl keep_capability []
    (match disable with [] => caps | _ => filter (λ name, name ∉ disable) caps end).
Definition join_blank (l : list string) : string :=
  string_of (sep_by Byte.x20 (bytes_of <$> l)).
Definition agent_of (cfg : CapabilitiesConfig) : string :=
  if decide (cc_Agent cfg = "") then "kai" else cc_Agent cfg.

Definition upload_capabilities (headRef : string) (cfg : CapabilitiesConfig) : list string :=
  clean_capabilities (cc_Disable cfg)
    ((if decide (headRef = "") then [] else ["symref=HEAD:" +:+ headRef])
     ++ ["agent=" +:+ agent_of cfg; "side-band-64k"; "shallow"] ++ cc_Extra cfg).
Definition buildCapabilities (headRef : string) (cfg : CapabilitiesConfig) : string :=
  join_blank (upload_capabilities headRef cfg).

Definition receive_capabilities (cfg : CapabilitiesConfig) : list string :=
  clean_capabilities (cc_Disable cfg)
    (["report-status"; "delete-refs"; "agent=" +:+ agent_of cfg] ++ cc_Extra cfg).
Definition buildReceivePackCapabilities (cfg : CapabilitiesConfig) : string :=
  join_blank (receive_capabilities cfg).

(** ** The connection *)

Section upload.
Context {S : Type} `{ObjectStore S, TreeRanging, Zlib}.
(** The order in which [range] visits a map of objects, and the texts of
    errors ([err.Error()]). *)
Variable iter : gmap string GitObject → list GitObject.
Variable error_text : up_error → string.

Record conn := mk_conn { cn_in : bytes; cn_out : option writer; cn_store : option S }.
Abbreviation up := (stM conn up_error).

Definition set_in (r : bytes) (c : conn) : conn := mk_conn r (cn_out c) (cn_store c).
Definition set_out (w : option writer) (c : conn) : conn := mk_conn (cn_in c) w (cn_store c).

(** Reading consumes input; where a failed read leaves it does not matter, the
    session ends. *)
Definition read_in {A} (f : bytes → res up_error (A * bytes)) : up A := λ c,
  match f (cn_in c) with
  | Ok (a, r) => (set_in r c, Ok a)
  | Err e => (c, Err e)
  | Panic => (c, Panic)
  end.
Definition send (f : option writer → option writer * res pkt_error ()) : up () := λ c,
  let '(w, r) := f (cn_out c) in (set_out w c, map_err ErrUpPkt r).
Definition pkt (payload : string) : up () := send (λ w, writePktLine w payload).
Definition flush : up () := send writeFlush.

(** [_ = f()] *)
Definition ignore (m : up ()) : up () := λ c,
  match m c with
  | (c, Panic) => (c, Panic)
  | (c, _) => (c, Ok ())
  end.
(** Tell the client about the error, as far as that is possible, and give up. *)
Definition git_error {A} (e : up_error) : up A :=
  _ ← ignore (send (λ w, writeGitError w (error_text e)));
  _ ← ignore flush;
  lift (Err e).
(** [if err := m; err != nil { tell the client; return err }] *)
Definition or_git_error {A} (m : up A) : up A := λ c,
  match m c with
  | (c, Err e) => git_error e c
  | (c, r) => (c, r)
  end.

Fixpoint send_each {A} (f : A → up ()) (l : list A) : up () :=
  match l with
  | [] => mret ()
  | x :: l => _ ← f x; send_each f l
  end.

Definition send_empty_pack : up () := λ c,
  let '(w, r) := writeEmptyPack (cn_out c) in (set_out w c, map_err ErrUpPack r).

(** ** Advertisements *)

(** The references, the capabilities behind the first one. *)
Definition ref_line (caps : string) (i : nat) (ref : GitRef) : string :=
  (gr_OID ref +:+ " " +:+ gr_Name ref
   +:+ (if (i =? 0)%nat && negb (bool_decide (caps = ""))
        then String (Ascii.ascii_of_nat 0) caps else "")) +:+ newline.
Definition ref_lines (caps : string) (refs : list GitRef) : list string :=
  imap (ref_line caps) refs.

Definition advertiseRefs (d : DB) (cfg : CapabilitiesConfig) : up () :=
  '(refs, headRef) ← lift (map_err ErrUpRefs (ListRefs d));
  match refs with
  | [] => flush
  | _ =>
    _ ← send_each pkt (ref_lines (buildCapabilities headRef cfg) refs);
    flush
  end.

Definition advertiseReceivePackRefs (d : DB) (cfg : CapabilitiesConfig) : up () :=
  '(refs, _) ← lift (map_err ErrUpRefs (ListRefs d));
  let caps := buildReceivePackCapabilities cfg in
  match refs with
  | [] =>
    _ ← pkt (zeroOID +:+ " capabilities^{}" +:+ String (Ascii.ascii_of_nat 0) caps +:+ newline);
    flush
  | _ =>
    _ ← send_each pkt (ref_lines caps refs);
    flush
  end.

Definition v2_capabilities (cfg : CapabilitiesConfig) : list string :=
  (λ line, line +:+ newline) <$>
  ["version 2"; "agent=" +:+ agent_of cfg; "ls-refs"; "fetch=shallow"; "server-option";
   "object-format=sha1"].
Definition advertiseV2Capabilities (cfg : CapabilitiesConfig) : up () :=
  _ ← send_each pkt (v2_capabilities cfg);
  flush.

(** ** ls-refs *)

Definition writeV2LsRefs (d : DB) : up () :=
  '(refs, _) ← lift (map_err ErrUpRefs (ListRefs d));
  _ ← send_each (λ ref, pkt (gr_OID ref +:+ " " +:+ gr_Name ref +:+ newline)) refs;
  flush.

Definition prefixes_of (args : list string) : list string := omap (strip "ref-prefix ") args.
(** A reference is listed if there are no prefixes or one of them fits. *)
Definition listed (prefixes : list string) (ref : GitRef) : bool :=
  bool_decide (prefixes = [])
  || existsb (λ prefix, bool_decide (is_Some (strip prefix (gr_Name ref)))) prefixes.
Definition ls_refs_line (args : list string) (headRef : string) (ref : GitRef) : string :=
  (gr_OID ref +:+ " " +:+ gr_Name ref
   +:+ (if bool_decide ("symrefs" ∈ args) && bool_decide (gr_Name ref = "HEAD")
           && negb (bool_decide (headRef = ""))
        then " symref-target:" +:+ headRef else "")) +:+ newline.
Definition ls_refs_lines (args : list string) (refs : list GitRef) (headRef : string) : list string :=
  ls_refs_line args headRef <$> filter (λ ref, listed (prefixes_of args) ref = true) refs.
Definition writeV2LsRefsWithArgs (d : DB) (args : list string) : up () :=
  '(refs, headRef) ← lift (map_err ErrUpRefs (ListRefs d));
  _ ← send_each pkt (ls_refs_lines args refs headRef);
  flush.

(** ** The reply to a fetch *)

Definition writeShallowLines (wants : list string) (do_flush : bool) : up () :=
  let wants := filter (λ want, want ≠ "") wants in
  _ ← send_each (λ want, pkt ("shallow " +:+ want +:+ newline)) wants;
  if negb (bool_decide (wants = [])) && do_flush then flush else mret ().

(** The last of the client's commits that the server knows. *)
Definition last_known (known : gset string) (haves : list string) : string :=
  foldl (λ ack have, if decide (have ∈ known) then have else ack) "" haves.
Definition writeAcknowledgements (req : uploadPackRequest) (known : gset string) : up () :=
  if bool_decide (up_Haves req = []) || bool_decide (known = ∅) then pkt ("NAK" +:+ newline)
  else
    let ack := last_known known (up_Haves req) in
    if decide (ack = "") then pkt ("NAK" +:+ newline) else pkt ("ACK " +:+ ack +:+ newline).

(** What the adapter answers to the builder. *)
Definition commits_of (d : DB) : up (option (gmap string RefCommitInfo)) :=
  match buildRefCommits d with
  | Ok (refCommits, _) => mret (Some refCommits)
  | Err _ => mret None
  | Panic => lift Panic
  end.

Definition haves_set (haves : list string) : gset string :=
  list_to_set (filter (λ have, have ≠ "") haves).

(** The boundaries of a shallow fetch. *)
Definition shallow_commits (d : DB) (req : uploadPackRequest) (depth : Z) : up (list string) :=
  refCommits ← commits_of d;
  '(_, shallowCommits) ← lift (map_err ErrUpBuild
    (buildPackObjectsWithDepth refCommits (up_Wants req) (haves_set (up_Haves req)) depth));
  mret shallowCommits.

(** The depth asked for; the client is told about unsupported ones. *)
Definition request_depth (req : uploadPackRequest) : up Z :=
  match up_Deepen req with
  | [] => mret 0
  | deepen :: _ => _ ← or_git_error (lift (validateShallowRequest req)); mret (parseDepth deepen)
  end.

(** Build the pack onto a writer that is made from the output and gives it
    back: the output itself or a side band. *)
Definition run_build `{IoWriter W} (make : option writer → W) (out : W → option writer)
    (refCommits : option (gmap string RefCommitInfo)) (preq : PackRequest) : up () := λ c,
  let '(store, (w, r)) := BuildPack iter (Some refCommits) (cn_store c) preq (make (cn_out c)) in
  (mk_conn (cn_in c) (out w) store, map_err ErrUpBuild (_ ← r; Ok ())).
Definition build_onto `{IoWriter W} (make : option writer → W) (out : W → option writer)
    (d : DB) (preq : PackRequest) : up () :=
  refCommits ← commits_of d; run_build make out refCommits preq.
Definition build_side_band (maxData : Z) : DB → PackRequest → up () :=
  build_onto (λ w, mk_sideBandWriter w maxData Byte.x01) sb_w.
Definition build_plain : DB → PackRequest → up () := build_onto id id.

Definition handleUploadPackV2Fetch (d : DB) (args : list string) : up () :=
  let req := parseV2FetchArgs args in
  if bool_decide (up_Wants req = []) then send_empty_pack
  else
    depth ← request_depth req;
    _ ← (if 0 <? depth then
           shallowCommits ← or_git_error (shallow_commits d req depth);
           let boundaries := match shallowCommits with [] => up_Wants req | _ => shallowCommits end in
           _ ← pkt ("shallow-info" +:+ newline);
           _ ← send_each (λ oid, pkt ("shallow " +:+ oid +:+ newline)) boundaries;
           send writeDelim
         else mret ());
    _ ← pkt ("packfile" +:+ newline);
    _ ← build_side_band 65515 d
          (mk_PackRequest (up_Wants req) (up_Haves req) (up_Done req) false false false depth);
    flush.

(** One command of a version-2 session. *)
Definition run_command (d : DB) (command : string) (args : list string) : up () :=
  if decide (command = "ls-refs") then writeV2LsRefsWithArgs d args
  else if decide (command = "fetch") then handleUploadPackV2Fetch d args
  else lift (Err (ErrUnsupportedCommand command)).

(** The loop over the commands; a fetch is the last one. *)
Fixpoint v2_loop (fuel : nat) (d : DB) : up () :=
  match fuel with
  | O => lift Panic
  | Datatypes.S fuel =>
    command ← read_in read_command;
    match command with
    | None => mret ()
    | Some command =>
      args ← read_in read_rest;
      _ ← run_command d command args;
      if decide (command = "fetch") then mret () else v2_loop fuel d
    end
  end.
(** Every command takes at least four bytes. *)
Definition handleUploadPackV2Loop (d : DB) : up () := λ c,
  v2_loop (Datatypes.S (length (cn_in c))) d c.

(** A version-2 request that comes inside a version-1 session. *)
Definition handleUploadPackV2 (db : option DB) : up () :=
  match db with
  | None => git_error ErrNotAvailable
  | Some d =>
    '(cmdLine, is_flush) ← read_in (λ r, '(line, is_flush, r) ← map_err ErrUpPkt (readPktLine r);
                                         Ok ((line, is_flush), r));
    if (is_flush : bool) then mret ()
    else
      match strip "command=" (trim cmdLine) with
      | None => lift (Err (ErrInvalidCommand (trim cmdLine)))
      | Some command =>
        args ← read_in (λ r, read_v1_args (Datatypes.S (length r)) r []);
        if decide (command = "ls-refs") then writeV2LsRefs d
        else if decide (command = "fetch") then handleUploadPackV2Fetch d args
        else lift (Err (ErrUnsupportedCommand command))
      end
  end.

Definition pack_request (req : uploadPackRequest) (depth : Z) : PackRequest :=
  mk_PackRequest (up_Wants req) (up_Haves req) (up_Done req)
    (hasCapability (up_Caps req) "thin-pack") (hasCapability (up_Caps req) "ofs-delta")
    (hasCapability (up_Caps req) "ref-delta") depth.

(** The reply to a version-1 request with wants. *)
Definition reply (d : DB) (req : uploadPackRequest) : up () :=
  '(refCommits, _) ← lift (map_err ErrUpRefs (buildRefCommits d));
  depth ← request_depth req;
  _ ← (if 0 <? depth then
         shallowCommits ← or_git_error (shallow_commits d req depth);
         writeShallowLines (match shallowCommits with [] => up_Wants req | _ => shallowCommits end) true
       else mret ());
  _ ← writeAcknowledgements req (dom refCommits);
  let preq := pack_request req depth in
  _ ← or_git_error (match selectSideBand (up_Caps req) with
                    | Some maxData => build_side_band maxData d preq
                    | None => build_plain d preq
                    end);
  flush.

Definition handleUploadPack (db : option DB) : up () :=
  '(firstLine, is_flush) ← read_in (λ r, '(line, is_flush, r) ← map_err ErrUpPkt (readPktLine r);
                                         Ok ((line, is_flush), r));
  if (is_flush : bool) then send_empty_pack
  else if decide (trim firstLine = "version 2") then handleUploadPackV2 db
  else
    req ← read_in (readUploadPackRequestWithFirstLine firstLine);
    if bool_decide (up_Wants req = []) then send_empty_pack
    else match db with
         | None => git_error ErrNotAvailable
         | Some d => reply d req
         end.

(** ** Sessions *)

Definition TrimSuffix (suffix s : bytes) : bytes :=
  let n := (length s - length suffix)%nat in
  if decide (s = take n s ++ suffix) then take n s else s.

Definition splitRepo (repoPath : string) : res up_error (string * string) :=
  let trimmed := TrimSuffix (bytes_of ".git") (bytes_of (default repoPath (strip "/" repoPath))) in
  match split_byte Byte.x2f trimmed with
  | tenant :: x :: rest =>
    let name := sep_by Byte.x2f (x :: rest) in
    if bool_decide (tenant = []) || bool_decide (name = []) then Err ErrRepoPath
    else Ok (string_of tenant, string_of name)
  | _ => Err ErrRepoPath
  end.

(** Whether a mirror and a notifier are configured, and what is advertised. *)
Record GitHandler := mk_GitHandler {
  gh_mirror : bool; gh_readOnly : bool; gh_requireSigned : bool; gh_disableReceivePack : bool;
  gh_capabilities : CapabilitiesConfig; gh_webhookNotifier : bool }.

(** A message to the client before the session ends. *)
Definition complain {A} (msg : string) (e : up_error) : up A :=
  _ ← ignore (send (λ w, writeGitError w msg));
  _ ← ignore flush;
  lift (Err e).

(** The answer of the registry for a repository is [None] on an error. *)
Variable registry : string → string → option DB.

Definition open_repo (repoPath : string) : up (string * string * DB) :=
  match splitRepo repoPath with
  | Ok (tenant, name) =>
    match registry tenant name with
    | Some d => mret (tenant, name, d)
    | None => complain "repo lookup failed" ErrRepoLookup
    end
  | Err e => complain "invalid repo path" e
  | Panic => lift Panic
  end.

(** [if err := m; err != nil { tell the client that the references failed }] *)
Definition or_complain (m : up ()) : up () := λ c,
  match m c with
  | (c, Err e) => complain "failed to advertise refs" e c
  | (c, r) => (c, r)
  end.

(** [GitHandler.UploadPack] *)
Definition UploadPack (h : GitHandler) (repoPath : string) (protocolVersion : Z) : up () :=
  '(_, _, d) ← open_repo repoPath;
  if protocolVersion =? 2 then
    _ ← advertiseV2Capabilities (gh_capabilities h);
    handleUploadPackV2Loop d
  else
    _ ← or_complain (advertiseRefs d (gh_capabilities h));
    handleUploadPack (Some d).

Definition getRefSHA (d : DB) (refName : string) : string :=
  match GetRef d refName with Ok ref => hex_encode (ref_Target ref) | _ => "" end.

(** What a push sets off: the mirror, the webhooks and a CI run for every
    updated branch. *)
Inductive event :=
| SyncRefs (refs : list string)
| NotifyPush (repo : string) (refs : list string)
| NotifyCI (repo gitRef sha ref : string).

Definition ci_event (d : DB) (repo ref : string) : option event :=
  branch ← strip "snap." ref;
  let branch := if decide (branch = "latest") then "main" else branch in
  Some (NotifyCI repo ("refs/heads/" +:+ branch) (getRefSHA d ref) ref).
Definition push_events (h : GitHandler) (d : DB) (repo : string) (updatedRefs : list string)
  : list event :=
  if bool_decide (updatedRefs = []) then []
  else (if gh_mirror h then [SyncRefs updatedRefs] else [])
    ++ (if gh_webhookNotifier h
        then NotifyPush repo updatedRefs :: omap (ci_event d repo) updatedRefs else []).

(** [GitHandler.ReceivePack]: the new content of the repository, if it was
    opened, and what it sets off. *)
Definition ReceivePack `{Driver, Blake3} (clock : nat → Z) (random : bytes)
    (h : GitHandler) (repoPath : string) (c : conn)
  : conn * option DB * list event * res up_error () :=
  match open_repo repoPath c with
  | (c, Err e) => (c, None, [], Err e)
  | (c, Panic) => (c, None, [], Panic)
  | (c, Ok (tenant, name, d)) =>
    if gh_disableReceivePack h || gh_readOnly h || gh_requireSigned h then
      let '(c, r) := complain "git receive-pack disabled (Kai-only)" ErrReceiveDisabled c in
      (c, Some d, [], r)
    else
      match or_complain (advertiseReceivePackRefs d (gh_capabilities h)) c with
      | (c, Err e) => (c, Some d, [], Err e)
      | (c, Panic) => (c, Some d, [], Panic)
      | (c, Ok _) =>
        let '(d', w, r) := handleReceivePack clock random (Some d) (cn_in c) (cn_out c) in
        match r with
        | Ok updatedRefs =>
          let d := default d d' in
          (set_out w c, Some d, push_events h d (tenant +:+ "/" +:+ name) updatedRefs, Ok ())
        | Err e => let '(c, r) := git_error (ErrUpPush e) (set_out w c) in (c, d', [], r)
        | Panic => (set_out w c, d', [], Panic)
        end
      end
  end.
End upload.
Arguments mk_conn {S}.
Arguments cn_in {S}.
Arguments cn_out {S}.
Arguments cn_store {S}.

(** ** Packets and the side band on a connection that accepts everything *)

Lemma read_full_more n r s p rest :
  read_full n r = Ok (p, rest) → read_full n (r ++ s) = Ok (p, rest ++ s).
Proof.
  intros [-> <-]%read_full_ok. rewrite <-app_assoc. apply read_full_app.
Qed.

Lemma readPktLineV2_more r s payload t rest :
  readPktLineV2 r = Ok (payload, t, rest) → readPktLineV2 (r ++ s) = Ok (payload, t, rest ++ s).
Proof.
  unfold readPktLineV2. intros Hr. apply bind_ok_inv in Hr as ([header r1] & Hh%map_err_ok_inv & Hr).
  rewrite (read_full_more _ _ s _ _ Hh). res_simpl.
  destruct (decide _); [by injection Hr as <- <- <-|].
  destruct (parse_int_hex header) as [k|]; [|done].
  destruct (k =? 0); [by injection Hr as <- <- <-|]. destruct (k <? 4); [done|].
  apply bind_ok_inv in Hr as ([payload' r2] & Hp%map_err_ok_inv & [= <- <- <-]).
  by rewrite (read_full_more _ _ s _ _ Hp).
Qed.

(** De-framing goes on where the first stream ends. *)
Lemma demux_more f1 f2 s1 s2 l1 l2 :
  demux f1 s1 = Some l1 → demux f2 s2 = Some l2 → demux (f1 + f2) (s1 ++ s2) = Some (l1 ++ l2).
Proof.
  revert s1 l1. induction f1 as [|f1 IH]; intros s1 l1 H1 H2.
  - destruct s1; [|done]. injection H1 as <-. done.
  - destruct s1 as [|b s1].
    { injection H1 as <-. eapply demux_fuel_mono; [|exact H2]. lia. }
    cbn [demux Nat.add] in *. cbn [app].
    destruct (readPktLineV2 (b :: s1)) as [[[payload []] rest]|e|] eqn:E; try done.
    apply (readPktLineV2_more _ s2) in E. cbn [app] in E. rewrite E.
    destruct (bytes_of payload) as [|ch data]; [done|].
    destruct (demux f1 rest) as [l|] eqn:Ed; [|done]. injection H1 as <-.
    by rewrite (IH rest l Ed H2).
Qed.

(** Packets of one channel. *)
Definition side_band (ch : byte) (stream p : bytes) : Prop :=
  ∃ pkts, demux (length stream) stream = Some pkts ∧ Forall (λ pkt, pkt.1 = ch) pkts ∧
          concat (pkts.*2) = p.

Lemma side_band_app ch s1 s2 p1 p2 :
  side_band ch s1 p1 → side_band ch s2 p2 → side_band ch (s1 ++ s2) (p1 ++ p2).
Proof.
  intros (l1 & D1 & F1 & <-) (l2 & D2 & F2 & <-). exists (l1 ++ l2). rewrite length_app.
  split; [by apply demux_more|]. split; [by apply Forall_app|].
  by rewrite fmap_app, concat_app.
Qed.

(** On a connection that accepts everything the loop does not fail. *)
Lemma sideBandWriter_loop_room fuel out maxData ch p written :
  0 < maxData ≤ 65530 → (length p ≤ fuel)%nat →
  ∃ out' k, sideBandWriter_loop fuel (mk_sideBandWriter (Some (buffer out)) maxData ch) p written
    = (mk_sideBandWriter (Some (buffer out')) maxData ch, k, Ok ()).
Proof.
  intros Hmax. revert out p written. induction fuel as [|fuel IH]; intros out p written Hf.
  { destruct p; [|simpl in Hf; lia]. by eexists _, _. }
  destruct p as [|b p]; [by eexists _, _|].
  cbn [sideBandWriter_loop sb_w sb_maxData sb_channelID].
  rewrite (proj2 (Z.ltb_ge _ _)) by (pose proof (zlen_nonneg (b :: p)); lia).
  rewrite writePktLineBytes_buffer.
  - apply IH. rewrite length_drop. cbn [length] in *.
    assert (1 ≤ Z.to_nat (Z.min (zlen (b :: p)) maxData))%nat; [|lia].
    rewrite zlen_cons. pose proof (zlen_nonneg p). lia.
  - rewrite zlen_cons. unfold zlen. rewrite length_take. lia.
Qed.

Lemma sideBandWriter_buffer out maxData ch p :
  0 < maxData ≤ 65530 →
  ∃ stream, io_write p (mk_sideBandWriter (Some (buffer out)) maxData ch)
    = (mk_sideBandWriter (Some (buffer (out ++ stream))) maxData ch, Ok ()) ∧ side_band ch stream p.
Proof.
  intros Hmax. destruct (sideBandWriter_loop_room (length p) out maxData ch p 0 Hmax (le_n _))
    as (out' & k & E).
  pose proof E as E'. apply sideBandWriter_loop_spec in E' as
    (w' & stream & cut & pkts & Hw & Hout & Hd & Hf & Hc & _ & Hr); [|done|done].
  destruct Hr as [(_ & Hk & ->)|]; [|done]. injection Hw as <-. cbn in Hout. rewrite app_nil_r in Hout.
  subst out'. exists stream. unfold io_write, sideBandWriter_io, sideBandWriter_Write. rewrite E.
  split; [done|]. exists pkts. split; [done|]. split; [by eapply Forall_impl; [exact Hf|intros ? []]|].
  rewrite Hc, Hk. apply take_ge. unfold zlen. lia.
Qed.

(** ** The builder on any writer

    What it writes does not depend on the writer: a buffer and its checksum,
    in two calls of [Write]. *)
Lemma BuildPack_onto {S} `{ObjectStore S, Zlib} iter (ra : gmap string RefCommitInfo)
    (store store' : option S) req out pk res :
  BuildPack iter (Some (Some ra)) store req (buffer out) = (store', (buffer (out ++ pk), Ok res)) →
  ∃ buf, pk = buf ++ sha1 buf ∧ ∀ W (HW : IoWriter W) (w : W),
    BuildPack iter (Some (Some ra)) store req w = (store', write_result (finish_pack w buf) res).
Proof.
  assert (∀ buf (r : PackResult), write_result (finish_pack (buffer out) buf) r = (buffer (out ++ pk), Ok res) →
    pk = buf ++ sha1 buf ∧ r = res) as Hb.
  { intros buf r. rewrite finish_pack_buffer. intros [= Hpk%(inj (app out)) ->]. done. }
  unfold BuildPack, writeEmptyPack, writePack, writePackWithDeltas.
  repeat case_match; intros E; first [discriminate E|apply pair_equal_spec in E as [<- Hw]];
    apply Hb in Hw as [-> ->]; by eexists.
Qed.

(** ** Sessions on a connection that accepts everything *)

Section session.
Context {S : Type} `{ObjectStore S, TreeRanging, ZlibLaws}.
Variable iter : gmap string GitObject → list GitObject.
Variable error_text : up_error → string.

(** The connection after [out] was written. *)
Definition open_conn (r out : bytes) (st : option S) : conn := mk_conn r (Some (buffer out)) st.

(** A call that answers [Ok ()] and only writes. *)
Definition says (m : stM conn up_error ()) (text : bytes) : Prop :=
  ∀ r out st, m (open_conn r out st) = (open_conn r (out ++ text) st, Ok ()).

Definition short (l : string) : Prop := zlen (bytes_of l) ≤ 65531.
Definition lines_bytes (ls : list string) : bytes := concat ((λ l, frame (bytes_of l)) <$> ls).

Lemma says_bind m text (k : () → stM conn up_error ()) text' :
  says m text → says (k ()) text' → says (m ≫= k) (text ++ text').
Proof.
  intros Hm Hk r out st. rewrite (stM_bind_run _ _ _ _ _ (Hm r out st)), Hk. by rewrite <-app_assoc.
Qed.
Lemma says_ret : says (mret ()) [].
Proof. intros r out st. by rewrite app_nil_r. Qed.
Lemma says_pkt l : short l → says (pkt l) (frame (bytes_of l)).
Proof.
  intros Hl r out st. unfold pkt, send, open_conn. cbn [cn_out].
  change (writePktLine ?w l) with (writePktLineBytes w (bytes_of l)).
  rewrite writePktLineBytes_buffer by (unfold short in Hl; lia). done.
Qed.
Lemma says_flush : says flush (bytes_of "0000").
Proof. done. Qed.
Lemma says_pkts ls : Forall short ls → says (send_each pkt ls) (lines_bytes ls).
Proof.
  induction 1 as [|l ls Hl Hls IH]; [apply says_ret|]. cbn [send_each]. unfold lines_bytes.
  rewrite fmap_cons. cbn [concat]. apply says_bind; [by apply says_pkt|exact IH].
Qed.
Lemma says_lines ls : Forall short ls →
  says (_ ← send_each pkt ls; flush) (lines_bytes ls ++ bytes_of "0000").
Proof. intros Hls. apply says_bind; [by apply says_pkts|apply says_flush]. Qed.

(** ** Packs on the wire *)

(** A pack that parses to exactly the objects [need]. *)
Definition carries (need : list GitObject) (pk : bytes) : Prop :=
  ∃ m, parseGitPack pk = Ok m ∧ (∀ oid, is_Some (m !! oid) ↔ oid ∈ go_OID <$> need) ∧
       (∀ oid o, m !! oid = Some o → o ∈ need ∧ go_OID o = oid).

Definition wanted (rc : gmap string RefCommitInfo) (preq : PackRequest) : list GitObject :=
  needed rc (pr_Wants preq) (haves_set (pr_Haves preq)).

(** A request the builder serves with whole objects. *)
Record servable (rc : gmap string RefCommitInfo) (preq : PackRequest) : Prop := mk_servable {
  sv_depth : pr_Depth preq ≤ 0;
  sv_thin : pr_ThinPack preq = false;
  sv_some : wanted rc preq ≠ [];
  sv_known : ∀ want, want ∈ pr_Wants preq → is_Some (rc !! want);
  sv_valid : Forall valid_object (wanted rc preq);
  sv_count : zlen (wanted rc preq) < 2^32;
}.

Lemma BuildPack_plain rc preq store out :
  servable rc preq → ∃ store' pk, carries (wanted rc preq) pk ∧
    BuildPack iter (Some (Some rc)) store preq (buffer out) = (store', (buffer (out ++ pk), Ok (mk_PackResult []))).
Proof.
  intros [? ? ? ? ? ?].
  destruct (BuildPack_fetch_ok iter store rc preq out) as (store' & pk & m & E & Hp & Hm & Ho); [done..|].
  exists store', pk. split; [|exact E]. by exists m.
Qed.

Lemma build_plain_says d rc rt preq r out st :
  buildRefCommits d = Ok (rc, rt) → servable rc preq →
  ∃ st' pk, carries (wanted rc preq) pk ∧
    build_plain iter d preq (open_conn r out st) = (open_conn r (out ++ pk) st', Ok ()).
Proof.
  intros Hb Hs. destruct (BuildPack_plain rc preq st out Hs) as (st' & pk & Hc & E).
  exists st', pk. split; [done|]. unfold build_plain, build_onto, commits_of. rewrite Hb. st_simpl.
  unfold run_build, open_conn. cbn [cn_out cn_store cn_in].
  destruct (BuildPack_onto _ _ _ _ _ _ _ _ E) as (buf & -> & Hw). rewrite Hw.
  unfold finish_pack, io_write, nilable_io, io_write, writer_io, w_write, buffer.
  cbn. by rewrite <-app_assoc.
Qed.

Lemma build_side_band_says maxData d rc rt preq r out st :
  0 < maxData ≤ 65530 → buildRefCommits d = Ok (rc, rt) → servable rc preq →
  ∃ st' stream pk, carries (wanted rc preq) pk ∧ side_band Byte.x01 stream pk ∧
    build_side_band iter maxData d preq (open_conn r out st) = (open_conn r (out ++ stream) st', Ok ()).
Proof.
  intros Hmax Hb Hs. destruct (BuildPack_plain rc preq st [] Hs) as (st' & pk & Hc & E).
  destruct (BuildPack_onto _ _ _ _ _ _ _ _ E) as (buf & -> & Hw).
  destruct (sideBandWriter_buffer out maxData Byte.x01 buf Hmax) as (s1 & E1 & B1).
  destruct (sideBandWriter_buffer (out ++ s1) maxData Byte.x01 (sha1 buf) Hmax) as (s2 & E2 & B2).
  exists st', (s1 ++ s2), (buf ++ sha1 buf). split; [done|]. split; [by apply side_band_app|].
  unfold build_side_band, build_onto, commits_of. rewrite Hb. st_simpl.
  unfold run_build, open_conn. cbn [cn_out cn_store cn_in]. rewrite Hw. unfold finish_pack.
  rewrite E1, E2. cbn. by rewrite <-app_assoc.
Qed.

(** ** The command loop ends *)

(** Sessions without fuel: a session ends where no command comes, at an error,
    and behind a fetch; behind any other command it goes on. *)
Inductive v2_session (d : DB) : @conn S → @conn S → res up_error () → Prop :=
| v2_end c c' : read_in read_command c = (c', Ok None) → v2_session d c c' (Ok ())
| v2_bad c c' e : read_in read_command c = (c', Err e) → v2_session d c c' (Err e)
| v2_bad_args c c1 command c' e :
    read_in read_command c = (c1, Ok (Some command)) →
    read_in read_rest c1 = (c', Err e) → v2_session d c c' (Err e)
| v2_last c c1 command c2 args c' r :
    read_in read_command c = (c1, Ok (Some command)) →
    read_in read_rest c1 = (c2, Ok args) →
    run_command iter error_text d command args c2 = (c', r) →
    is_ok r = false ∨ command = "fetch" → v2_session d c c' r
| v2_next c c1 command c2 args c3 c' r :
    read_in read_command c = (c1, Ok (Some command)) →
    read_in read_rest c1 = (c2, Ok args) →
    run_command iter error_text d command args c2 = (c3, Ok ()) → command ≠ "fetch" →
    v2_session d c3 c' r → v2_session d c c' r.

Lemma read_command_ok r : match read_command r with
  | Ok (Some _, rest) => (length rest + 4 ≤ length r)%nat
  | Panic => False
  | _ => True
  end.
Proof.
  unfold read_command. pose proof (readPktLineV2_no_panic r) as Hn.
  destruct (readPktLineV2 r) as [[[line []] rest]|e|] eqn:E; [|done..| |done].
  - apply readPktLineV2_consumes in E. by destruct (strip _ _).
  - destruct e as [| | | |[]]; done.
Qed.

Lemma skip_capabilities_ok fuel r : (length r < fuel)%nat → match skip_capabilities fuel r with
  | Ok (_, rest) => (length rest ≤ length r)%nat
  | Err _ => True
  | Panic => False
  end.
Proof.
  revert r. induction fuel as [|fuel IH]; intros r Hf; [lia|]. cbn [skip_capabilities].
  pose proof (readPktLineV2_no_panic r) as Hn.
  destruct (readPktLineV2 r) as [[[line t] rest]|e|] eqn:E; [|done|done]. res_simpl.
  apply readPktLineV2_consumes in E. destruct t; [|lia..].
  specialize (IH rest ltac:(lia)). destruct (skip_capabilities fuel rest) as [[? ?]|?|]; [lia|done|done].
Qed.

Lemma read_args_ok fuel r args : (length r < fuel)%nat → match read_args fuel r args with
  | Ok (_, rest) => (length rest ≤ length r)%nat
  | Err _ => True
  | Panic => False
  end.
Proof.
  revert r args. induction fuel as [|fuel IH]; intros r args Hf; [lia|]. cbn [read_args].
  pose proof (readPktLineV2_no_panic r) as Hn.
  destruct (readPktLineV2 r) as [[[line t] rest]|e|] eqn:E; [|done|done]. res_simpl.
  apply readPktLineV2_consumes in E. destruct t; [|lia|].
  - specialize (IH rest (if decide (trim line = "") then args else args ++ [trim line]) ltac:(lia)).
    destruct (read_args _ _ _) as [[? ?]|?|]; [lia|done|done].
  - specialize (IH rest args ltac:(lia)). destruct (read_args _ _ _) as [[? ?]|?|]; [lia|done|done].
Qed.

Lemma read_rest_ok r : match read_rest r with
  | Ok (_, rest) => (length rest ≤ length r)%nat
  | Err _ => True
  | Panic => False
  end.
Proof.
  unfold read_rest. pose proof (skip_capabilities_ok (Datatypes.S (length r)) r ltac:(lia)) as Hs.
  destruct (skip_capabilities _ _) as [[[] rest]|?|]; [|res_simpl; lia|done|done]. res_simpl.
  pose proof (read_args_ok (Datatypes.S (length rest)) rest [] ltac:(lia)) as Ha.
  destruct (read_args _ _ _) as [[? ?]|?|]; [lia|done|done].
Qed.

Lemma read_request_ok fuel r st : (length r < fuel)%nat → read_request fuel r st ≠ Panic.
Proof.
  revert r st. induction fuel as [|fuel IH]; intros r st Hf; [lia|]. cbn [read_request].
  pose proof (readPktLine_no_panic r) as Hn.
  destruct (readPktLine r) as [[[line fl] rest]|e|] eqn:E; [|done|done]. res_simpl.
  apply readPktLine_consumes in E. destruct fl; [done|]. apply IH. lia.
Qed.

(** Writing does not read. *)
Lemma send_each_in {A} (f : A → stM (@conn S) up_error ()) l c :
  (∀ x c, cn_in (f x c).1 = cn_in c) → cn_in (send_each f l c).1 = cn_in c.
Proof.
  intros Hf. revert c. induction l as [|x l IH]; intros c; [done|]. cbn [send_each].
  unfold mbind, stM_bind. specialize (Hf x c). destruct (f x c) as [c1 [u|e|]]; cbn in *; [|done|done].
  by rewrite IH.
Qed.
Lemma send_in f (c : @conn S) : cn_in (send f c).1 = cn_in c.
Proof. unfold send. by destruct (f (cn_out c)). Qed.
Lemma ls_refs_in d args (c : @conn S) : cn_in (writeV2LsRefsWithArgs d args c).1 = cn_in c.
Proof.
  unfold writeV2LsRefsWithArgs. destruct (ListRefs d) as [[refs head]|e|]; st_simpl; cbn; [|done|done].
  pose proof (send_each_in pkt (ls_refs_lines args refs head) c) as Hf.
  destruct (send_each _ _ c) as [c1 [u|e|]]; cbn in *.
  - unfold flush. rewrite send_in. apply Hf. intros. apply send_in.
  - apply Hf. intros. apply send_in.
  - apply Hf. intros. apply send_in.
Qed.
Lemma run_command_in d command args (c : @conn S) c' u :
  run_command iter error_text d command args c = (c', Ok u) → command ≠ "fetch" → cn_in c' = cn_in c.
Proof.
  unfold run_command. intros Hr Hc. case_decide; [|by rewrite decide_False in Hr].
  pose proof (ls_refs_in d args c) as Hl. by rewrite Hr in Hl.
Qed.

Lemma v2_loop_session fuel d c c' r : (length (cn_in c) < fuel)%nat →
  v2_loop iter error_text fuel d c = (c', r) → v2_session d c c' r.
Proof.
  revert c. induction fuel as [|fuel IH]; intros c Hf; [lia|]. cbn [v2_loop].
  pose proof (read_command_ok (cn_in c)) as Hc.
  destruct (read_in read_command c) as [c1 rc] eqn:Ec. unfold mbind at 1, stM_bind. rewrite Ec.
  unfold read_in in Ec. destruct (read_command (cn_in c)) as [[[command|] rest]|e|] eqn:E1;
    injection Ec as <- <-; [| |intros [= <- <-]; by apply v2_bad; unfold read_in; rewrite E1|done].
  2: { intros [= <- <-]. apply v2_end. unfold read_in. by rewrite E1. }
  assert (read_in read_command c = (set_in rest c, Ok (Some command))) as Ec by (unfold read_in; by rewrite E1).
  pose proof (read_rest_ok (cn_in (set_in rest c))) as Hr.
  destruct (read_in read_rest (set_in rest c)) as [c2 ra] eqn:Ea. unfold mbind at 1, stM_bind. rewrite Ea.
  pose proof Ea as Ea'. unfold read_in in Ea.
  destruct (read_rest (cn_in (set_in rest c))) as [[args rest2]|e|] eqn:E2; injection Ea as <- <-;
    [|intros [= <- <-]; by eapply v2_bad_args; [exact Ec|exact Ea']|done].
  unfold mbind, stM_bind.
  destruct (run_command iter error_text d command args _) as [c3 [[]|e|]] eqn:E3.
  - case_decide as Hfe; [intros [= <- <-]; by eapply v2_last; eauto|]. intros Hl.
    eapply v2_next; [exact Ec|exact Ea'|exact E3|exact Hfe|]. apply IH; [|exact Hl].
    apply run_command_in in E3; [|done]. rewrite E3. cbn in *. lia.
  - intros [= <- <-]. eapply v2_last; eauto.
  - intros [= <- <-]. eapply v2_last; eauto.
Qed.

(** C28: every session ends.  Whatever a client sends, the command loop of
    protocol version 2 runs a finite session that ends where no command comes,
    at an error or behind a fetch, so its fuel never runs out; nor do those of
    the readers of commands, arguments and version-1 requests. *)
Theorem v2_session_ends :
  (∀ d c, let '(c', r) := handleUploadPackV2Loop iter error_text d c in v2_session d c c' r) ∧
  (∀ r, read_command r ≠ Panic) ∧ (∀ r, read_rest r ≠ Panic) ∧ ∀ r, readUploadPackRequest r ≠ Panic.
Proof.
  split; [|split; [|split]].
  - intros d c. destruct (handleUploadPackV2Loop iter error_text d c) as [c' r] eqn:E.
    apply v2_loop_session with (Datatypes.S (length (cn_in c))); [lia|exact E].
  - intros r Hr. pose proof (read_command_ok r) as Hc. by rewrite Hr in Hc.
  - intros r Hr. pose proof (read_rest_ok r) as Hc. by rewrite Hr in Hc.
  - intros r. apply read_request_ok. lia.
Qed.

(** ** What clients send *)

Definition client_line (l : bytes) : bytes := frame (l ++ [Byte.x0a]).
Definition client_lines (ls : list bytes) : bytes := concat (client_line <$> ls).
Definition plain_line (l : bytes) : Prop := edges l ∧ zlen l + 5 ≤ 0xffff.

(** A command of version 2 with its arguments. *)
Definition v2_request (command : string) (args : list string) : bytes :=
  client_line (bytes_of ("command=" +:+ command)) ++ bytes_of "0001"
  ++ client_lines (bytes_of <$> args) ++ bytes_of "0000".

Lemma readPktLineV2_line l rest : plain_line l →
  readPktLineV2 (client_line l ++ rest) = Ok (string_of (l ++ [Byte.x0a]), PktData, rest).
Proof. intros [_ Hl]. apply readPktLineV2_frame. rewrite zlen_app. change (zlen [Byte.x0a]) with 1. lia. Qed.
Lemma readPktLine_line l rest : plain_line l →
  readPktLine (client_line l ++ rest) = Ok (string_of (l ++ [Byte.x0a]), false, rest).
Proof. intros Hl. unfold readPktLine. by rewrite readPktLineV2_line. Qed.
Lemma trim_line l : edges l → trim (string_of (l ++ [Byte.x0a])) = string_of l.
Proof. intros Hl. unfold trim. by rewrite bytes_of_string_of, TrimSpace_edges. Qed.
Lemma edges_nonempty l : edges l → string_of l ≠ "".
Proof. intros [(a & r & -> & _) _]. done. Qed.

Lemma strip_app p x : strip p (p +:+ x) = Some x.
Proof.
  induction p as [|a p IH]; [done|]. change (String a p +:+ x) with (String a (p +:+ x)).
  cbn [strip]. by case_decide.
Qed.

Lemma read_command_request command args rest : plain_line (bytes_of ("command=" +:+ command)) →
  read_command (v2_request command args ++ rest)
  = Ok (Some command, bytes_of "0001" ++ client_lines (bytes_of <$> args) ++ bytes_of "0000" ++ rest).
Proof.
  intros Hc. unfold read_command, v2_request. rewrite <-!app_assoc, readPktLineV2_line by done.
  rewrite trim_line by apply Hc. rewrite string_of_bytes_of, strip_app. done.
Qed.

Lemma read_args_request args : ∀ fuel rest seen,
  (length args < fuel)%nat → Forall (λ a, plain_line (bytes_of a)) args →
  read_args fuel (client_lines (bytes_of <$> args) ++ bytes_of "0000" ++ rest) seen
  = Ok (seen ++ args, rest).
Proof.
  induction args as [|a args IH]; intros fuel rest seen Hf Hall; (destruct fuel as [|fuel]; [cbn in Hf; lia|]).
  - rewrite app_nil_r. done.
  - apply Forall_cons in Hall as [Ha Hall]. unfold client_lines. rewrite !fmap_cons. cbn [concat read_args].
    rewrite <-app_assoc, readPktLineV2_line by done. res_simpl.
    rewrite trim_line, string_of_bytes_of by apply Ha.
    rewrite decide_False by (rewrite <-(string_of_bytes_of a); apply edges_nonempty, Ha).
    change (concat _) with (client_lines (bytes_of <$> args)).
    rewrite IH by (done || cbn in Hf; lia). by rewrite <-app_assoc.
Qed.

Lemma client_lines_long ls : (length ls ≤ length (client_lines ls))%nat.
Proof.
  induction ls as [|l ls IH]; [done|]. unfold client_lines in *. rewrite fmap_cons. cbn [concat length].
  rewrite length_app. unfold client_line at 1, frame. rewrite length_app. cbn. lia.
Qed.

Lemma read_rest_request args rest : Forall (λ a, plain_line (bytes_of a)) args →
  read_rest (bytes_of "0001" ++ client_lines (bytes_of <$> args) ++ bytes_of "0000" ++ rest) = Ok (args, rest).
Proof.
  intros Hall. unfold read_rest. set (r := client_lines _ ++ _).
  assert (∀ fuel, skip_capabilities (Datatypes.S fuel) (bytes_of "0001" ++ r) = Ok (true, r)) as -> by done.
  res_simpl. unfold r. rewrite read_args_request by
    (done || (rewrite length_app; pose proof (client_lines_long (bytes_of <$> args)) as Hl;
              rewrite length_fmap in Hl; lia)).
  done.
Qed.

(** The requests of a client that wants [wants] and has nothing. *)
Definition want_args (wants : list string) : list string := ((λ w, "want " +:+ w) <$> wants) ++ ["done"].
Lemma parseV2FetchArgs_wants wants :
  Forall (λ w, edges (bytes_of w)) wants →
  parseV2FetchArgs (want_args wants) = mk_uploadPackRequest wants [] [] [] [] [] true.
Proof.
  intros Hw. unfold parseV2FetchArgs, want_args. rewrite foldl_app.
  assert (∀ seen, foldl parse_fetch_arg (mk_uploadPackRequest seen [] [] [] [] [] false) ((λ w, "want " +:+ w) <$> wants)
    = mk_uploadPackRequest (seen ++ wants) [] [] [] [] [] false) as E.
  2: { unfold empty_request. rewrite E. done. }
  induction Hw as [|w wants Hw Hall IH]; intros seen; [by rewrite app_nil_r|].
  rewrite fmap_cons. cbn [foldl]. unfold parse_fetch_arg at 2. rewrite (strip_app "want ").
  assert (trim w = w) as ->.
  { unfold trim. destruct Hw as [(a & l & Ha & Hva) (s & b & Hb & Hvb)].
    assert (TrimSpace (bytes_of w) = bytes_of w) as ->; [|apply string_of_bytes_of].
    unfold TrimSpace. rewrite Ha, trim_left_visible, <-Ha by done. rewrite Hb. by apply trim_right_plain. }
  cbn [add_want]. rewrite IH. by rewrite <-app_assoc.
Qed.

(** ** Fetching *)

(** The reply to a version-2 fetch: the section line, packets of the side
    band, a flush. *)
Definition fetch_reply (stream : bytes) : bytes :=
  frame (bytes_of ("packfile" +:+ newline)) ++ stream ++ bytes_of "0000".

Lemma v2_fetch_reply d rc rt wants r out st :
  Forall (λ w, edges (bytes_of w)) wants → wants ≠ [] → buildRefCommits d = Ok (rc, rt) →
  servable rc (mk_PackRequest wants [] true false false false 0) →
  ∃ st' stream pk, carries (needed rc wants ∅) pk ∧ side_band Byte.x01 stream pk ∧
    handleUploadPackV2Fetch iter error_text d (want_args wants) (open_conn r out st)
    = (open_conn r (out ++ fetch_reply stream) st', Ok ()).
Proof.
  intros Hw Hne Hb Hs.
  destruct (build_side_band_says 65515 d rc rt _ r (out ++ frame (bytes_of ("packfile" +:+ newline))) st
    ltac:(lia) Hb Hs) as (st' & stream & pk & Hc & Hsb & E).
  exists st', stream, pk. split; [exact Hc|]. split; [done|].
  unfold handleUploadPackV2Fetch. rewrite parseV2FetchArgs_wants by done.
  cbn [up_Wants up_Haves up_Done up_Deepen request_depth]. rewrite bool_decide_eq_false_2 by done.
  rewrite (stM_bind_run _ _ _ (open_conn r out st) 0) by done. cbv beta.
  change (0 <? 0) with false. cbv iota.
  rewrite (stM_bind_run _ _ _ (open_conn r out st) ()) by done.
  rewrite (stM_bind_run _ _ _ _ () (says_pkt ("packfile" +:+ newline) ltac:(vm_compute; discriminate) r out st)).
  rewrite (stM_bind_run _ _ _ _ () E). unfold fetch_reply. rewrite !app_assoc. apply says_flush.
Qed.

(** A client that has nothing gets the same pack whatever it can take. *)
Definition fresh (wants : list string) : PackRequest := mk_PackRequest wants [] true false false false 0.
Lemma run_build_fresh `{IoWriter W} (make : option writer → W) out rc wants fin thin ofs rf :
  run_build iter make out rc (mk_PackRequest wants [] fin thin ofs rf 0) = run_build iter make out rc (fresh wants).
Proof.
  unfold run_build, BuildPack, fresh. cbn [pr_Wants pr_Haves pr_Depth pr_ThinPack].
  change (0 <? zlen []) with false. by rewrite andb_false_r.
Qed.

Definition want_line (w : string) (caps : list string) : bytes :=
  sep_by Byte.x20 (bytes_of "want" :: bytes_of w :: (bytes_of <$> caps)).
Definition want_lines (w : string) (ws caps : list string) : list bytes :=
  want_line w caps :: ((λ w, want_line w []) <$> ws).

Definition word_s (w : string) : Prop := word (bytes_of w).

Lemma want_line_edges w caps : word_s w → Forall word_s caps → edges (want_line w caps).
Proof.
  intros Hw Hc. apply sep_by_edges. apply Forall_cons_2; [|apply Forall_cons_2; [done|by apply Forall_fmap]].
  split; [done|]. cbn. repeat (apply Forall_cons_2; [by vm_compute|]). constructor.
Qed.

Lemma want_line_text w caps :
  string_of (want_line w caps) = "want " +:+ string_of (sep_by Byte.x20 (bytes_of w :: (bytes_of <$> caps))).
Proof.
  rewrite <-(string_of_bytes_of ("want " +:+ _)), bytes_of_string_app, bytes_of_string_of. f_equal.
Qed.

Lemma want_line_fields w caps : word_s w → Forall word_s caps →
  fields (string_of (want_line w caps)) = "want" :: w :: caps.
Proof.
  intros Hw Hc. unfold fields. rewrite bytes_of_string_of. unfold want_line. rewrite Fields_words.
  - rewrite !fmap_cons, !string_of_bytes_of. by rewrite string_words.
  - apply Forall_cons_2; [|apply Forall_cons_2; [done|by apply Forall_fmap]].
    split; [done|]. cbn. repeat (apply Forall_cons_2; [by vm_compute|]). constructor.
Qed.

Lemma request_line_want wants caps raw p w cs : word_s w → Forall word_s cs →
  request_line (mk_uploadPackRequest wants [] [] [] caps raw false, p) (string_of (want_line w cs ++ [Byte.x0a]))
  = let more := negb p && negb (bool_decide (cs = [])) in
    (mk_uploadPackRequest (wants ++ [w]) [] [] [] (if more then cs else caps)
       (raw ++ [string_of (want_line w cs)]) false, if more then true else p).
Proof.
  intros Hw Hc. pose proof (want_line_edges w cs Hw Hc) as He. unfold request_line.
  rewrite trim_line by done. rewrite decide_False by (by apply edges_nonempty).
  unfold parseUploadPackLine. cbn [fst snd].
  assert (∃ x, strip "want " (string_of (want_line w cs)) = Some x) as [x ->].
  { rewrite want_line_text. eexists. apply (strip_app "want "). }
  rewrite want_line_fields by done. cbn [add_raw add_want].
  destruct (negb p && negb (bool_decide (cs = []))); done.
Qed.

Lemma request_lines_wants ws : ∀ wants caps raw p, Forall word_s ws →
  foldl request_line (mk_uploadPackRequest wants [] [] [] caps raw false, p)
    ((λ l, string_of (l ++ [Byte.x0a])) <$> ((λ w, want_line w []) <$> ws))
  = (mk_uploadPackRequest (wants ++ ws) [] [] [] caps
       (raw ++ (string_of <$> ((λ w, want_line w []) <$> ws))) false, p).
Proof.
  induction ws as [|w ws IH]; intros wants caps raw p Hw; [by rewrite !app_nil_r|].
  apply Forall_cons in Hw as [Hw Hws]. rewrite !fmap_cons. cbn [foldl].
  rewrite request_line_want by (done || constructor). cbn [negb]. rewrite andb_false_r. cbv zeta iota.
  rewrite IH by done. by rewrite <-!app_assoc.
Qed.

Lemma read_request_lines ls : ∀ fuel rest st, (length ls < fuel)%nat → Forall plain_line ls →
  read_request fuel (client_lines ls ++ bytes_of "0000" ++ rest) st
  = Ok ((foldl request_line st ((λ l, string_of (l ++ [Byte.x0a])) <$> ls)).1, rest).
Proof.
  induction ls as [|l ls IH]; intros fuel rest st Hf Hall; (destruct fuel as [|fuel]; [cbn in Hf; lia|]); [done|].
  apply Forall_cons in Hall as [Hl Hall]. unfold client_lines. rewrite !fmap_cons. cbn [concat read_request foldl].
  rewrite <-app_assoc, readPktLine_line by done. res_simpl. change (concat _) with (client_lines ls).
  apply IH; [cbn in Hf; lia|done].
Qed.

Lemma read_wants w ws caps rest : word_s w → Forall word_s ws → Forall word_s caps →
  Forall plain_line ((λ w, want_line w []) <$> ws) →
  ∃ raw, readUploadPackRequestWithFirstLine (string_of (want_line w caps ++ [Byte.x0a]))
      (client_lines ((λ w, want_line w []) <$> ws) ++ bytes_of "0000" ++ rest)
    = Ok (mk_uploadPackRequest (w :: ws) [] [] [] caps raw false, rest).
Proof.
  intros Hw Hws Hc Hp. unfold readUploadPackRequestWithFirstLine.
  rewrite decide_False.
  2: { intros E. apply (f_equal bytes_of) in E. rewrite bytes_of_string_of in E.
       by apply (f_equal length) in E. }
  rewrite read_request_lines.
  - unfold empty_request. rewrite request_line_want by done. cbv zeta. rewrite request_lines_wants by done.
    eexists. cbn [fst app negb andb]. do 2 f_equal. destruct caps; done.
  - rewrite length_app. pose proof (client_lines_long ((λ w, want_line w []) <$> ws)). lia.
  - done.
Qed.

Lemma selectSideBand_range caps maxData : selectSideBand caps = Some maxData → 0 < maxData ≤ 65530.
Proof. unfold selectSideBand. destruct (hasCapability _ _); [|destruct (hasCapability _ _)]; intros [= <-]; lia. Qed.

(** The two ways to send the pack. *)
Lemma build_says caps d rc rt wants fin thin ofs rf r out st :
  buildRefCommits d = Ok (rc, rt) → servable rc (fresh wants) →
  ∃ st' stream pk, carries (needed rc wants ∅) pk ∧
    (match selectSideBand caps with Some _ => side_band Byte.x01 stream pk | None => stream = pk end) ∧
    (match selectSideBand caps with
     | Some maxData => build_side_band iter maxData d (mk_PackRequest wants [] fin thin ofs rf 0)
     | None => build_plain iter d (mk_PackRequest wants [] fin thin ofs rf 0)
     end) (open_conn r out st) = (open_conn r (out ++ stream) st', Ok ()).
Proof.
  intros Hb Hs. destruct (selectSideBand caps) as [maxData|] eqn:Es.
  - apply selectSideBand_range in Es.
    destruct (build_side_band_says maxData d rc rt _ r out st Es Hb Hs) as (st' & stream & pk & ? & ? & E).
    exists st', stream, pk. split; [done|]. split; [done|]. revert E.
    unfold build_side_band, build_onto, commits_of. rewrite Hb. st_simpl. by rewrite run_build_fresh.
  - destruct (build_plain_says d rc rt _ r out st Hb Hs) as (st' & pk & ? & E).
    exists st', pk, pk. split; [done|]. split; [done|]. revert E.
    unfold build_plain, build_onto, commits_of. rewrite Hb. st_simpl. by rewrite run_build_fresh.
Qed.

(** A version-1 fetch.  When the wants of a client - words, the
    capabilities behind the first - are followed by a flush, the server
    answers NAK and the pack of everything the wants need, on the side band if
    the client can take it, and ends the session.  Whatever the client sends
    behind the flush, where git sends what it has, stays unread and changes
    nothing. *)
Theorem v1_fetch_ignores_haves d rc rt w ws caps rest out st :
  word_s w → Forall word_s ws → Forall word_s caps → Forall plain_line (want_lines w ws caps) →
  buildRefCommits d = Ok (rc, rt) → servable rc (fresh (w :: ws)) →
  ∃ st' stream pk, carries (needed rc (w :: ws) ∅) pk ∧
    (match selectSideBand caps with Some _ => side_band Byte.x01 stream pk | None => stream = pk end) ∧
    handleUploadPack iter error_text (Some d)
      (open_conn (client_lines (want_lines w ws caps) ++ bytes_of "0000" ++ rest) out st)
    = (open_conn rest (out ++ frame (bytes_of ("NAK" +:+ newline)) ++ stream ++ bytes_of "0000") st', Ok ()).
Proof.
  intros Hw Hws Hc Hp Hb Hs. apply Forall_cons in Hp as [Hp1 Hp].
  destruct (read_wants w ws caps rest Hw Hws Hc Hp) as [raw Hread].
  destruct (build_says caps d rc rt (w :: ws) false (hasCapability caps "thin-pack") (hasCapability caps "ofs-delta")
    (hasCapability caps "ref-delta") rest (out ++ frame (bytes_of ("NAK" +:+ newline))) st Hb Hs)
    as (st' & stream & pk & Hcarry & Hband & E).
  exists st', stream, pk. split; [done|]. split; [done|]. unfold handleUploadPack, want_lines.
  set (tail := client_lines ((λ w, want_line w []) <$> ws) ++ bytes_of "0000" ++ rest).
  rewrite (stM_bind_run _ _ _ (open_conn tail out st) (string_of (want_line w caps ++ [Byte.x0a]), false)).
  2: { unfold read_in, open_conn. cbn [cn_in]. unfold client_lines. rewrite fmap_cons. cbn [concat].
       rewrite <-app_assoc, readPktLine_line by done. done. }
  cbv beta iota. rewrite decide_False.
  2: { rewrite trim_line by apply Hp1. rewrite want_line_text. discriminate. }
  rewrite (stM_bind_run _ _ _ (open_conn rest out st) (mk_uploadPackRequest (w :: ws) [] [] [] caps raw false)).
  2: { unfold read_in, open_conn. cbn [cn_in]. unfold tail. by rewrite Hread. }
  cbn [up_Wants]. rewrite bool_decide_eq_false_2 by done. unfold reply. rewrite Hb. res_simpl.
  rewrite (stM_bind_run _ _ _ (open_conn rest out st) (rc, rt)) by done. cbv beta iota.
  cbn [request_depth up_Deepen]. rewrite (stM_bind_run _ _ _ (open_conn rest out st) 0) by done. cbv beta.
  change (0 <? 0) with false. cbv iota. rewrite (stM_bind_run _ _ _ (open_conn rest out st) ()) by done.
  unfold writeAcknowledgements. cbn [up_Haves]. rewrite bool_decide_eq_true_2 by done. cbn [orb].
  rewrite (stM_bind_run _ _ _ _ () (says_pkt ("NAK" +:+ newline) ltac:(vm_compute; discriminate) rest out st)).
  unfold pack_request. cbn [up_Wants up_Haves up_Done up_Caps].
  rewrite (stM_bind_run _ _ _ (open_conn rest ((out ++ frame (bytes_of ("NAK" +:+ newline))) ++ stream) st') ()).
  2: { unfold or_git_error. destruct (selectSideBand caps); by rewrite E. }
  rewrite !app_assoc. apply says_flush.
Qed.

(** ** Cloning *)

Lemma hex_visible l : Forall visible (hex_encode_bytes l).
Proof.
  assert (∀ k, 0 ≤ k < 16 → visible (hex_digit k)) as Hd.
  { intros k Hk. unfold visible, hex_digit. rewrite int_of_byte_of_int. destruct (k <? 10) eqn:E; bool_to_prop;
      rewrite Z.mod_small; lia. }
  induction l as [|b l IH]; [constructor|]. cbn [hex_encode_bytes]. pose proof (int_of_byte_range b).
  repeat apply Forall_cons_2; [apply Hd; lia_div..|done].
Qed.

Lemma valid_oid o : valid_object o → word_s (go_OID o) ∧ zlen (bytes_of (go_OID o)) = 40.
Proof.
  intros (_ & -> & _). unfold computeGitOID, word_s, word. set (h := sha1 _).
  assert (length h = 20%nat) as Hl by apply length_sha1.
  unfold hex_encode. rewrite bytes_of_string_of. split; [split|].
  - intros E. by destruct h.
  - apply hex_visible.
  - assert (∀ l, zlen (hex_encode_bytes l) = 2 * zlen l) as ->; [|unfold zlen; lia].
    clear. induction l as [|b l IH]; [done|]. cbn [hex_encode_bytes]. rewrite !zlen_cons. lia.
Qed.

Lemma needed_commit rc wants want info :
  want ∈ wants → rc !! want = Some info → rc_Commit info ∈ needed rc wants ∅.
Proof.
  intros Hw Hi. unfold needed. apply elem_of_concat. eexists. split.
  - apply list_elem_of_fmap. exists want. split; [reflexivity|done].
  - rewrite decide_False by apply not_elem_of_empty. rewrite Hi. by left.
Qed.

Lemma want_args_plain wants : Forall (λ w, word_s w ∧ zlen (bytes_of w) = 40) wants →
  Forall (λ a, plain_line (bytes_of a)) (want_args wants).
Proof.
  intros Hw. apply Forall_app. split.
  - apply Forall_fmap. eapply Forall_impl; [exact Hw|]. intros w [Hww Hl].
    cbn [compose]. unfold plain_line. change ("want " +:+ w) with ("want" +:+ (" " +:+ w)).
    rewrite !bytes_of_string_app. split.
    + apply edges_app; [|by apply word_edges]. apply word_edges. split; [done|]. cbn.
      repeat (apply Forall_cons_2; [by vm_compute|]). constructor.
    + rewrite !zlen_app, Hl. change (zlen (bytes_of "want")) with 4. change (zlen (bytes_of " ")) with 1. lia.
  - apply Forall_cons_2; [|constructor]. split; [|by vm_compute]. apply word_edges. split; [done|]. cbn.
    repeat (apply Forall_cons_2; [by vm_compute|]). constructor.
Qed.

Lemma v2_loop_fuel d c r : handleUploadPackV2Loop iter error_text d c = r →
  v2_loop iter error_text (Datatypes.S (length (cn_in c))) d c = r.
Proof. done. Qed.

(** Two commands of a session: references, then a fetch. *)
Lemma v2_loop_clone d args wants rest out st out1 c' :
  Forall (λ a, plain_line (bytes_of a)) args → Forall (λ a, plain_line (bytes_of a)) (want_args wants) →
  writeV2LsRefsWithArgs d args (open_conn (v2_request "fetch" (want_args wants) ++ rest) out st)
    = (open_conn (v2_request "fetch" (want_args wants) ++ rest) out1 st, Ok ()) →
  handleUploadPackV2Fetch iter error_text d (want_args wants) (open_conn rest out1 st) = (c', Ok ()) →
  handleUploadPackV2Loop iter error_text d
    (open_conn (v2_request "ls-refs" args ++ v2_request "fetch" (want_args wants) ++ rest) out st) = (c', Ok ()).
Proof.
  intros Ha Hw Hls Hf. unfold handleUploadPackV2Loop, open_conn at 1. cbn [cn_in].
  set (n := length (v2_request "ls-refs" args ++ _)).
  assert (∃ n', n = Datatypes.S n') as [n' ->].
  { unfold n, v2_request, client_line, frame. rewrite !length_app. cbn. by eexists. }
  assert (∀ command, command = "ls-refs" ∨ command = "fetch" → plain_line (bytes_of ("command=" +:+ command))) as Hc.
  { intros command Hcm. split; [|by destruct Hcm as [-> | ->]; vm_compute].
    apply word_edges. split; [by destruct Hcm as [-> | ->]|].
    destruct Hcm as [-> | ->]; cbn; repeat (apply Forall_cons_2; [by vm_compute|]); constructor. }
  cbn [v2_loop].
  erewrite stM_bind_run.
  2: { unfold read_in, open_conn. cbn [cn_in]. rewrite read_command_request by (apply Hc; by left). reflexivity. }
  cbv beta iota.
  erewrite stM_bind_run.
  2: { unfold read_in, set_in. cbn [cn_in cn_out cn_store]. rewrite read_rest_request by done. reflexivity. }
  cbv beta iota. unfold set_in. cbn [cn_in cn_out cn_store].
  erewrite stM_bind_run by exact Hls. cbv beta. rewrite decide_False by done.
  erewrite stM_bind_run.
  2: { unfold read_in, open_conn. cbn [cn_in]. rewrite read_command_request by (apply Hc; by right). reflexivity. }
  cbv beta iota.
  erewrite stM_bind_run.
  2: { unfold read_in, set_in. cbn [cn_in cn_out cn_store]. rewrite read_rest_request by done. reflexivity. }
  cbv beta iota. unfold set_in. cbn [cn_in cn_out cn_store].
  erewrite stM_bind_run by exact Hf. done.
Qed.

Lemma v2_capabilities_short cfg : short ("agent=" +:+ agent_of cfg +:+ newline) →
  Forall short (v2_capabilities cfg).
Proof.
  intros Ha. unfold v2_capabilities. cbn [fmap list_fmap].
  repeat apply Forall_cons_2; try apply Forall_nil_2; try (vm_compute; discriminate). exact Ha.
Qed.

(** C27: a clone.  A client of protocol version 2 that lists the references
    and then wants the identifiers it was told is answered, in order: the
    capabilities; the references that match its prefixes, one line each; and a
    pack on the side band that parses to exactly the objects the advertised
    commits need, each under its own identifier. *)
Theorem clone registry h repoPath tenant name d refs head rc rt args st :
  splitRepo repoPath = Ok (tenant, name) → registry tenant name = Some d →
  ListRefs d = Ok (refs, head) → refs ≠ [] → buildRefCommits d = Ok (rc, rt) →
  let wants := gr_OID <$> refs in
  let cfg := gh_capabilities h in
  Forall valid_object (needed rc wants ∅) → zlen (needed rc wants ∅) < 2^32 →
  Forall (λ a, plain_line (bytes_of a)) args → Forall short (ls_refs_lines args refs head) →
  short ("agent=" +:+ agent_of cfg +:+ newline) →
  ∃ st' stream pk, carries (needed rc wants ∅) pk ∧ side_band Byte.x01 stream pk ∧
    UploadPack iter error_text registry h repoPath 2
      (open_conn (v2_request "ls-refs" args ++ v2_request "fetch" (want_args wants)) [] st)
    = (open_conn [] (lines_bytes (v2_capabilities cfg) ++ bytes_of "0000"
                     ++ lines_bytes (ls_refs_lines args refs head) ++ bytes_of "0000"
                     ++ fetch_reply stream) st', Ok ()).
Proof.
  intros Hsplit Hreg Hl Hne Hb wants cfg Hv Hn Hargs Hshort Hagent.
  destruct (advertised_refs_ok d refs head Hl) as [(_ & -> & _)|(rc' & rt' & oid & more & Hb' & -> & _ & _ & _ & Hall & _)];
    [done|].
  assert (rc' = rc) as -> by congruence.
  set (refs := mk_GitRef "HEAD" oid :: more) in *.
  assert (Forall (λ w, word_s w ∧ zlen (bytes_of w) = 40) wants) as Hw.
  { apply Forall_fmap, Forall_forall. intros r Hr. cbn [compose]. destruct (Hall r Hr) as (info & Hi & Ho).
    rewrite <-Ho. apply valid_oid. rewrite Forall_forall in Hv. apply Hv.
    eapply needed_commit; [|exact Hi]. apply list_elem_of_fmap. by exists r. }
  assert (servable rc (fresh wants)) as Hs.
  { assert (∀ want, want ∈ wants → is_Some (rc !! want)) as Hk.
    { intros want (r & -> & Hr)%list_elem_of_fmap. destruct (Hall r Hr) as (info & Hi & _). by exists info. }
    split; [done|done| |exact Hk|exact Hv|exact Hn].
    unfold wanted. cbn [fresh pr_Wants pr_Haves]. intros E.
    destruct (Hk oid) as [info Hi]; [by left|].
    assert (rc_Commit info ∈ needed rc wants ∅) as Hin by (by eapply needed_commit; [left|]).
    change (haves_set []) with (∅ : gset string) in E. rewrite E in Hin. by apply elem_of_nil in Hin. }
  set (ad := lines_bytes (v2_capabilities cfg) ++ bytes_of "0000").
  set (ls := lines_bytes (ls_refs_lines args refs head) ++ bytes_of "0000").
  destruct (v2_fetch_reply d rc rt wants [] (ad ++ ls) st) as (st' & stream & pk & Hc & Hband & E);
    [|done|exact Hb|exact Hs|].
  { eapply Forall_impl; [exact Hw|]. intros w [Hww _]. by apply word_edges. }
  exists st', stream, pk. split; [exact Hc|]. split; [exact Hband|].
  set (input := v2_request "ls-refs" args ++ v2_request "fetch" (want_args wants)).
  assert (says (advertiseV2Capabilities cfg) ad) as Had by (by apply says_lines, v2_capabilities_short).
  assert (open_repo registry repoPath (open_conn input [] st) = (open_conn input [] st, Ok (tenant, name, d))) as Ho.
  { unfold open_repo. by rewrite Hsplit, Hreg. }
  unfold UploadPack. rewrite (stM_bind_run _ _ _ _ _ Ho). cbv beta iota. change (2 =? 2) with true. cbv iota.
  rewrite (stM_bind_run _ _ _ _ _ (Had input [] st)). cbn [app].
  pose proof (v2_loop_clone d args wants [] ad st (ad ++ ls) (open_conn [] ((ad ++ ls) ++ fetch_reply stream) st')) as Hclone.
  rewrite !app_nil_r in Hclone. unfold input. rewrite Hclone.
  - unfold ad, ls. by rewrite <-!app_assoc.
  - exact Hargs.
  - by apply want_args_plain.
  - unfold writeV2LsRefsWithArgs. rewrite Hl. res_simpl.
    rewrite (stM_bind_run _ _ _ (open_conn (v2_request "fetch" (want_args wants)) ad st) (refs, head)) by done.
    cbv beta iota. by apply says_lines.
  - exact E.
Qed.
End session.

(** ** Capabilities *)

Lemma keep_capability_ok caps out :
  NoDup out → (∀ c, c ∈ out → c ≠ "") →
  NoDup (foldl keep_capability out caps) ∧
  ∀ c, c ∈ foldl keep_capability out caps ↔ c ∈ out ∨ (c ∈ caps ∧ c ≠ "").
Proof.
  revert out. induction caps as [|x caps IH]; intros out Hnd Hne.
  { split; [done|]. intros c. split; [by left|]. by intros [?|[?%elem_of_nil ?]]. }
  cbn [foldl]. unfold keep_capability at 2 4. case_decide as Hx.
  - destruct (IH out Hnd Hne) as [H1 H2]. split; [done|]. intros c. rewrite H2, elem_of_cons.
    split; [naive_solver|]. intros [?|[[->|?] ?]]; [by left| |by right]. destruct Hx; [done|by left].
  - assert (x ≠ "" ∧ x ∉ out) as [Hx1 Hx2] by naive_solver. destruct (IH (out ++ [x])) as [H1 H2].
    + apply NoDup_app. split; [done|]. split; [|apply NoDup_singleton].
      by intros c Hc ->%list_elem_of_singleton.
    + intros c [?| ->%list_elem_of_singleton]%elem_of_app; [by apply Hne|done].
    + split; [done|]. intros c. rewrite H2, elem_of_app, list_elem_of_singleton, elem_of_cons. naive_solver.
Qed.

Lemma clean_capabilities_ok disable caps :
  NoDup (clean_capabilities disable caps) ∧
  ∀ c, c ∈ clean_capabilities disable caps ↔ (c ∈ caps ∧ c ≠ "" ∧ c ∉ disable).
Proof.
  unfold clean_capabilities.
  destruct (keep_capability_ok (match disable with [] => caps | _ => filter (λ name, name ∉ disable) caps end) [])
    as [H1 H2]; [constructor|by intros c ?%elem_of_nil|].
  split; [done|]. intros c. rewrite H2. destruct disable as [|x disable].
  - pose proof (not_elem_of_nil c). naive_solver.
  - rewrite list_elem_of_filter. pose proof (not_elem_of_nil c). naive_solver.
Qed.

Lemma parseCaps_join caps : Forall word_s caps → parseCaps (bytes_of (join_blank caps)) = caps.
Proof.
  intros Hc. unfold join_blank. rewrite bytes_of_string_of. unfold parseCaps.
  destruct caps as [|c caps]; [done|]. rewrite bool_decide_eq_false_2.
  - rewrite Fields_words by (by apply Forall_fmap). apply string_words.
  - rewrite fmap_cons. apply Forall_cons in Hc as [[Hne _] _].
    destruct caps; cbn [sep_by fmap list_fmap concat]; destruct (bytes_of c); done.
Qed.

(** Capabilities.  Both advertisements list, without repetition, the
    built-in capabilities and the configured extra ones less the disabled
    ones; a client that splits the text gets exactly this list. *)
Theorem advertised_capabilities headRef cfg :
  Forall word_s (cc_Extra cfg) → word_s (agent_of cfg) → (headRef = "" ∨ word_s headRef) →
  (∀ c, c ∈ parseCaps (bytes_of (buildCapabilities headRef cfg)) ↔
     (c ∈ ["agent=" +:+ agent_of cfg; "side-band-64k"; "shallow"] ++ cc_Extra cfg ∨
      (headRef ≠ "" ∧ c = "symref=HEAD:" +:+ headRef)) ∧ c ∉ cc_Disable cfg) ∧
  (∀ c, c ∈ parseCaps (bytes_of (buildReceivePackCapabilities cfg)) ↔
     c ∈ ["report-status"; "delete-refs"; "agent=" +:+ agent_of cfg] ++ cc_Extra cfg ∧ c ∉ cc_Disable cfg) ∧
  NoDup (parseCaps (bytes_of (buildCapabilities headRef cfg))) ∧
  NoDup (parseCaps (bytes_of (buildReceivePackCapabilities cfg))).
Proof.
  intros Hex Hag Hh.
  assert (∀ p s, Forall visible (bytes_of p) → word_s s → word_s (p +:+ s)) as Hpre.
  { intros p s Hp [Hne Hs]. unfold word_s, word. rewrite bytes_of_string_app. split.
    - intros E. by apply app_eq_nil in E as [_ ?].
    - by apply Forall_app. }
  assert (word_s ("agent=" +:+ agent_of cfg)) as Hagent.
  { apply Hpre; [|done]. cbn. repeat (apply Forall_cons_2; [by vm_compute|]). constructor. }
  assert (∀ s, bool_decide (bytes_of s ≠ []) && forallb (λ b, bool_decide (visible b)) (bytes_of s) = true → word_s s)
    as Hword by (intros s; apply word_b_ok).
  assert (∀ l, Forall word_s l → Forall word_s (clean_capabilities (cc_Disable cfg) l)) as Hclean.
  { intros l Hl. apply Forall_forall. intros c Hc. apply clean_capabilities_ok in Hc as [Hc _].
    rewrite Forall_forall in Hl. by apply Hl. }
  assert (Forall word_s ((if decide (headRef = "") then [] else ["symref=HEAD:" +:+ headRef])
     ++ ["agent=" +:+ agent_of cfg; "side-band-64k"; "shallow"] ++ cc_Extra cfg)) as Hup.
  { apply Forall_app. split.
    - case_decide as Hd; [constructor|]. destruct Hh as [?|Hh]; [done|]. apply Forall_singleton, Hpre; [|done].
      cbn. repeat (apply Forall_cons_2; [by vm_compute|]). constructor.
    - repeat (apply Forall_cons_2; [done || by apply Hword|]). exact Hex. }
  assert (Forall word_s (["report-status"; "delete-refs"; "agent=" +:+ agent_of cfg] ++ cc_Extra cfg)) as Hrc.
  { repeat (apply Forall_cons_2; [done || by apply Hword|]). exact Hex. }
  unfold buildCapabilities, buildReceivePackCapabilities. rewrite !parseCaps_join by (by apply Hclean).
  assert (∀ l, Forall word_s l → ∀ c, c ∈ l → c ≠ "") as Hne.
  { intros l Hl c Hc ->. rewrite Forall_forall in Hl. by destruct (Hl "" Hc). }
  split; [|split; [|split]]; try apply clean_capabilities_ok; intros c.
  - unfold upload_capabilities. rewrite (proj2 (clean_capabilities_ok _ _)), elem_of_app.
    pose proof (Hne _ Hup c) as Hc. rewrite elem_of_app in Hc. case_decide as Hd.
    + pose proof (not_elem_of_nil c). naive_solver.
    + rewrite list_elem_of_singleton in *. naive_solver.
  - unfold receive_capabilities. rewrite (proj2 (clean_capabilities_ok _ _)).
    pose proof (Hne _ Hrc c) as Hc. naive_solver.
Qed.

Lemma advertised_capabilities_witness :
  parseCaps (bytes_of (buildCapabilities "refs/heads/main" (mk_CapabilitiesConfig "" ["x"; "x"] ["shallow"])))
    = ["symref=HEAD:refs/heads/main"; "agent=kai"; "side-band-64k"; "x"] ∧
  "shallow" ∉ parseCaps (bytes_of (buildCapabilities "refs/heads/main" (mk_CapabilitiesConfig "" ["x"; "x"] ["shallow"]))).
Proof.
  destruct (advertised_capabilities "refs/heads/main" (mk_CapabilitiesConfig "" ["x"; "x"] ["shallow"])) as [Hu _].
  - repeat (apply Forall_cons_2; [by apply word_b_ok; vm_compute|]). constructor.
  - by apply word_b_ok; vm_compute.
  - right. by apply word_b_ok; vm_compute.
  - split; [vm_compute; reflexivity|]. intros Hin. apply Hu in Hin as [_ Hin]. apply Hin. by left.
Defined.

(** ** A concrete repository *)

Definition demo_handler : GitHandler :=
  mk_GitHandler false false false false (mk_CapabilitiesConfig "" [] []) false.
Definition demo_registry (tenant name : string) : option DB :=
  if decide (tenant = "acme" ∧ name = "app") then Some demo_repo else None.
Definition demo_listed : list GitRef * string :=
  match @ListRefs tree_ranging stored_zlib demo_repo with Ok l => l | _ => ([], "") end.
Definition demo_commits : gmap string RefCommitInfo :=
  match @buildRefCommits tree_ranging stored_zlib demo_repo with Ok (rc, _) => rc | _ => ∅ end.
Definition demo_oids : gmap string string :=
  match @buildRefCommits tree_ranging stored_zlib demo_repo with Ok (_, rt) => rt | _ => ∅ end.
Definition demo_wants : list string := gr_OID <$> demo_listed.1.

Lemma demo_ListRefs : @ListRefs tree_ranging stored_zlib demo_repo = Ok (demo_listed.1, demo_listed.2).
Proof.
  assert (is_ok (@ListRefs tree_ranging stored_zlib demo_repo) = true) as E by (vm_compute; reflexivity).
  unfold demo_listed. by destruct (ListRefs demo_repo) as [[? ?]| |].
Qed.
Lemma demo_buildRefCommits :
  @buildRefCommits tree_ranging stored_zlib demo_repo = Ok (demo_commits, demo_oids).
Proof.
  assert (is_ok (@buildRefCommits tree_ranging stored_zlib demo_repo) = true) as E by (vm_compute; reflexivity).
  unfold demo_commits, demo_oids. by destruct (buildRefCommits demo_repo) as [[? ?]| |].
Qed.

Definition valid_object_b (o : GitObject) : bool :=
  bool_decide (go_Type o ∈ [ObjectCommit; ObjectTree; ObjectBlob])
  && bool_decide (go_OID o = computeGitOID (type_name (go_Type o)) (go_Data o))
  && (zlen (go_Data o) <=? max_alloc).
Lemma valid_objects_b l : forallb valid_object_b l = true → Forall valid_object l.
Proof.
  rewrite forallb_elem. intros Hl. apply Forall_forall. intros o Ho. specialize (Hl o Ho).
  unfold valid_object_b in Hl. bool_to_prop. done.
Qed.

Lemma demo_needed : Forall valid_object (needed demo_commits demo_wants ∅) ∧
  zlen (needed demo_commits demo_wants ∅) < 2^32.
Proof.
  split; [apply valid_objects_b; vm_compute; reflexivity|apply Z.ltb_lt; vm_compute; reflexivity].
Qed.

Definition short_b (l : string) : bool := zlen (bytes_of l) <=? 65531.
Lemma short_b_ok ls : forallb short_b ls = true → Forall short ls.
Proof.
  rewrite forallb_elem. intros Hl. apply Forall_forall. intros l Hin. by apply Z.leb_le, Hl.
Qed.

Lemma clone_witness : ∃ store' stream pk m,
  @UploadPack MemoryObjectStore _ tree_ranging stored_zlib (λ m, (map_to_list m).*2) (λ _, "") demo_registry
    demo_handler "/acme/app.git" 2
    (open_conn (v2_request "ls-refs" [] ++ v2_request "fetch" (want_args demo_wants)) [] None)
  = (open_conn [] (lines_bytes (v2_capabilities (gh_capabilities demo_handler)) ++ bytes_of "0000"
       ++ lines_bytes (ls_refs_lines [] demo_listed.1 demo_listed.2) ++ bytes_of "0000"
       ++ fetch_reply stream) store', Ok ()) ∧
  side_band Byte.x01 stream pk ∧ @parseGitPack stored_zlib pk = Ok m.
Proof.
  destruct (@clone MemoryObjectStore _ tree_ranging stored_zlib stored_zlib_laws (λ m, (map_to_list m).*2) (λ _, "")
    demo_registry demo_handler "/acme/app.git" "acme" "app" demo_repo demo_listed.1 demo_listed.2
    demo_commits demo_oids [] None) as (st' & stream & pk & (m & Hm & _) & Hb & E).
  - vm_compute. reflexivity.
  - vm_compute. reflexivity.
  - exact demo_ListRefs.
  - intros Hn. apply (f_equal length) in Hn. vm_compute in Hn. discriminate Hn.
  - exact demo_buildRefCommits.
  - exact (proj1 demo_needed).
  - exact (proj2 demo_needed).
  - constructor.
  - apply short_b_ok. vm_compute. reflexivity.
  - apply Z.leb_le. vm_compute. reflexivity.
  - exists st', stream, pk, m. split; [exact E|]. split; [exact Hb|exact Hm].
Defined.

Definition demo_want : string := default "" (head demo_wants).

(** What a client of version 1 sends behind its wants: a commit it has. *)
Definition demo_haves : bytes :=
  client_lines [bytes_of ("have " +:+ demo_want)] ++ bytes_of "0000" ++ client_lines [bytes_of "done"].

Definition known_b (rc : gmap string RefCommitInfo) (want : string) : bool :=
  match rc !! want with Some _ => true | None => false end.
Definition servable_b (rc : gmap string RefCommitInfo) (wants : list string) : bool :=
  negb (bool_decide (length (needed rc wants ∅) = 0%nat)) && forallb (known_b rc) wants
  && forallb valid_object_b (needed rc wants ∅) && (zlen (needed rc wants ∅) <? 2^32).
Lemma servable_b_ok rc wants : servable_b rc wants = true → servable rc (fresh wants).
Proof.
  unfold servable_b. intros Hb. repeat (apply andb_prop in Hb as [Hb ?]). split; try done.
  - apply negb_true_iff, bool_decide_eq_false in Hb. intros E. apply Hb.
    change (wanted rc (fresh wants)) with (needed rc wants ∅) in E. by rewrite E.
  - intros want Hw. assert (known_b rc want = true) as Hk by (by eapply forallb_elem).
    unfold known_b in Hk. by destruct (rc !! want).
  - by apply valid_objects_b.
  - by apply Z.ltb_lt.
Qed.

Lemma v1_fetch_ignores_haves_witness : ∃ store' stream pk,
  @handleUploadPack MemoryObjectStore _ tree_ranging stored_zlib (λ m, (map_to_list m).*2) (λ _, "")
    (Some demo_repo)
    (open_conn (client_lines (want_lines demo_want [] ["side-band-64k"]) ++ bytes_of "0000" ++ demo_haves) [] None)
  = (open_conn demo_haves (frame (bytes_of ("NAK" +:+ newline)) ++ stream ++ bytes_of "0000") store', Ok ()) ∧
  side_band Byte.x01 stream pk.
Proof.
  destruct (@v1_fetch_ignores_haves MemoryObjectStore _ tree_ranging stored_zlib stored_zlib_laws
    (λ m, (map_to_list m).*2) (λ _, "") demo_repo demo_commits demo_oids demo_want [] ["side-band-64k"]
    demo_haves [] None) as (st' & stream & pk & _ & Hb & E).
  - apply word_b_ok. vm_compute. reflexivity.
  - constructor.
  - repeat (apply Forall_cons_2; [by apply word_b_ok; vm_compute|]). constructor.
  - apply Forall_cons_2; [|constructor]. split; [|apply Z.leb_le; vm_compute; reflexivity].
    apply want_line_edges; [apply word_b_ok; vm_compute; reflexivity|].
    repeat (apply Forall_cons_2; [by apply word_b_ok; vm_compute|]). constructor.
  - exact demo_buildRefCommits.
  - apply servable_b_ok. vm_compute. reflexivity.
  - exists st', stream, pk. split; [exact E|exact Hb].
Defined.
