(* ===== verification/Cron.v ===== *)
(** * Cron schedules (kailab-control/internal/cron/cron.go)

    The parser of five-field cron expressions, the matching of times and the
    search for the next match.  A time is the number of nanoseconds since
    January 1 of year 1, UTC, the zero [time.Time]. *)

From S2P Require Import Prelude Json GoStrings.
Local Open Scope Z_scope.

(** ** The calendar of package time *)

Definition second : Z := 10^9.
Definition minute : Z := 60 * second.
Definition hour : Z := 60 * minute.
Definition day : Z := 24 * hour.

Definition Minute (t : Z) : Z := (t `mod` hour) `div` minute.
Definition Hour (t : Z) : Z := (t `mod` day) `div` hour.
(** January 1 of year 1 was a Monday. *)
Definition Weekday (t : Z) : Z := (t `div` day + 1) `mod` 7.

(** Month and day of the month from the day within a 400-year era that starts
    on March 1. *)
Definition civil (doe : Z) : Z * Z :=
  let yoe := (doe - doe `div` 1460 + doe `div` 36524 - doe `div` 146096) `div` 365 in
  let doy := doe - (365 * yoe + yoe `div` 4 - yoe `div` 100) in
  let mp := (5 * doy + 2) `div` 153 in
  (if mp <? 10 then mp + 3 else mp - 9, doy - (153 * mp + 2) `div` 5 + 1).
Definition Month (t : Z) : Z := (civil ((t `div` day + 306) `mod` 146097)).1.
Definition Day (t : Z) : Z := (civil ((t `div` day + 306) `mod` 146097)).2.

(** ** Text *)

(** [strconv.Atoi] *)
Definition Atoi (s : bytes) : option Z :=
  let '(sign, ds) := match s with
    | b :: r => if decide (b = Byte.x2d) then (-1, r)
                else if decide (b = Byte.x2b) then (1, r) else (1, s)
    | [] => (1, [])
    end in
  match ds with
  | [] => None
  | _ => match dec_value 0 ds with
         | Some n => let z := sign * n in
                     if (- 2^63 <=? z) && (z <? 2^63) then Some z else None
         | None => None
         end
  end.

(** ** The parser *)

Record Schedule := mk_Schedule {
  Minutes : list bool;
  Hours : list bool;
  DaysOfMonth : list bool;
  Months : list bool;
  DaysOfWeek : list bool;
}.

Inductive cron_error :=
| ErrFields (n : Z)
| ErrStep (part : bytes)
| ErrRangeStart (part : bytes)
| ErrRangeEnd (part : bytes)
| ErrRangeBounds (lo hi : Z)
| ErrValue (part : bytes)
| ErrValueBounds (v : Z).

Definition slash : byte := Byte.x2f.
Definition dash : byte := Byte.x2d.
Definition star : bytes := [Byte.x2a].
Definition comma_b : byte := Byte.x2c.

(** [for i := lo; i <= hi; i += step { bits[i] = true }] *)
Fixpoint set_loop (fuel : nat) (bits : list bool) (i hi step : Z) : res cron_error (list bool) :=
  if i <=? hi then
    match fuel with
    | O => Panic
    | S fuel =>
      bits ← or_panic (go_store bits i true);
      set_loop fuel bits (i64 (i + step)) hi step
    end
  else Ok bits.
Definition set_range (bits : list bool) (lo hi step : Z) : res cron_error (list bool) :=
  set_loop (Z.to_nat (hi - lo + 1)) bits lo hi step.

Definition parsePart (part : bytes) (bits : list bool) (min max : Z)
  : res cron_error (list bool) :=
  '(part, step) ← match cut_byte slash part with
    | Some (a, b) =>
      match Atoi b with
      | Some step => if step <=? 0 then Err (ErrStep part) else Ok (a, step)
      | None => Err (ErrStep part)
      end
    | None => Ok (part, 1)
    end;
  if decide (part = star) then set_range bits min max step
  else
    match cut_byte dash part with
    | Some (a, b) =>
      match Atoi a with
      | None => Err (ErrRangeStart part)
      | Some lo =>
        match Atoi b with
        | None => Err (ErrRangeEnd part)
        | Some hi =>
          if (lo <? min) || (max <? hi) || (hi <? lo) then Err (ErrRangeBounds lo hi)
          else set_range bits lo hi step
        end
      end
    | None =>
      match Atoi part with
      | None => Err (ErrValue part)
      | Some val =>
        if (val <? min) || (max <? val) then Err (ErrValueBounds val)
        else or_panic (go_store bits val true)
      end
    end.

Definition parseField (field : bytes) (bits : list bool) (min max : Z)
  : res cron_error (list bool) :=
  foldM (λ bits part, parsePart part bits min max) bits (split_byte comma_b field).

Definition zeros (n : nat) : list bool := replicate n false.

Definition Parse (expr : string) : res cron_error Schedule :=
  match Fields (bytes_of expr) with
  | [f0; f1; f2; f3; f4] =>
    m ← parseField f0 (zeros 60) 0 59;
    h ← parseField f1 (zeros 24) 0 23;
    dom ← parseField f2 (zeros 32) 1 31;
    mon ← parseField f3 (zeros 13) 1 12;
    dow ← parseField f4 (zeros 7) 0 6;
    Ok (mk_Schedule m h dom mon dow)
  | fields => Err (ErrFields (zlen fields))
  end.

(** ** Matching *)

Definition Match {E} (s : Schedule) (t : Z) : res E bool :=
  a ← or_panic (go_index (Minutes s) (Minute t));
  if negb a then Ok false else
  b ← or_panic (go_index (Hours s) (Hour t));
  if negb b then Ok false else
  c ← or_panic (go_index (DaysOfMonth s) (Day t));
  if negb c then Ok false else
  d ← or_panic (go_index (Months s) (Month t));
  if negb d then Ok false else
  or_panic (go_index (DaysOfWeek s) (Weekday t)).

(** The loop of [Next]; the zero time is 0. *)
Fixpoint Next_loop {E} (fuel : nat) (s : Schedule) (t limit : Z) : res E Z :=
  if t <? limit then
    match fuel with
    | O => Panic
    | S fuel =>
      m ← Match s t;
      if m : bool then Ok t else Next_loop fuel s (t + minute) limit
    end
  else Ok 0.

Definition Next {E} (s : Schedule) (after : Z) : res E Z :=
  let t := after - after `mod` minute + minute in
  let limit := after + 366 * day in
  Next_loop (Z.to_nat (366 * 24 * 60)) s t limit.

(** The calendar agrees with known dates: February 29 of 2024 was a
    Thursday. *)
Example calendar_2024 :
  let t := (738944 * 24 + 13) * hour + 37 * minute in
  (Month t, Day t, Weekday t, Hour t, Minute t) = (2, 29, 4, 13, 37).
Proof. vm_compute. reflexivity. Qed.

(** ** Specification: what an expression means *)

Inductive cron_part :=
| PAny (step : option Z)
| PRange (lo hi : Z) (step : option Z)
| PValue (v : Z) (step : option Z).

Definition dec (n : Z) : bytes := dec_digits 20 n.
Definition print_step (step : option Z) : bytes :=
  match step with Some s => slash :: dec s | None => [] end.
Definition print_part (p : cron_part) : bytes :=
  match p with
  | PAny step => star ++ print_step step
  | PRange lo hi step => dec lo ++ dash :: dec hi ++ print_step step
  | PValue v step => dec v ++ print_step step
  end.
Definition print_field (ps : list cron_part) : bytes := sep_by comma_b (map print_part ps).

Definition step_of (step : option Z) : Z := default 1 step.

(** A step after a single value has no effect. *)
Definition member (min max : Z) (p : cron_part) (v : Z) : bool :=
  match p with
  | PAny step => (min <=? v) && (v <=? max) && ((v - min) `mod` step_of step =? 0)
  | PRange lo hi step => (lo <=? v) && (v <=? hi) && ((v - lo) `mod` step_of step =? 0)
  | PValue x _ => v =? x
  end.

Definition part_ok (min max : Z) (p : cron_part) : Prop :=
  match p with
  | PAny step => 0 < step_of step < 2^63 - max
  | PRange lo hi step => 0 < step_of step < 2^63 - max ∧ min ≤ lo ≤ hi ∧ hi ≤ max
  | PValue v step => 0 < step_of step < 2^63 - max ∧ min ≤ v ≤ max
  end.

Definition bit (bits : list bool) (v : Z) : bool := default false (go_index bits v).

(** ** Lemmas: text *)

Lemma dec_chars n :
  0 ≤ n < 10^20 → Forall (λ b, is_digit b = true) (dec n) ∧ dec n ≠ [] ∧ dec_value 0 (dec n) = Some n.
Proof.
  intros Hn. destruct (dec_digits_ok 20 n) as (H1 & H2 & b & r & Hb & _); [done|lia|].
  unfold dec. split; [|by rewrite Hb in *].
  apply Forall_forall. intros x Hx. rewrite forallb_forall in H2.
  by apply H2, list_elem_of_In.
Qed.

Lemma digit_not b c : is_digit b = true → in_range 48 57 c = false → b ≠ c.
Proof. intros Hb Hc ->. unfold is_digit in Hb. congruence. Qed.

Lemma dec_without n c : 0 ≤ n < 10^20 → in_range 48 57 c = false → c ∉ dec n.
Proof.
  intros Hn Hc Hin. destruct (dec_chars n Hn) as [Hd _]. rewrite Forall_forall in Hd.
  by apply (digit_not c c (Hd c Hin) Hc).
Qed.

Lemma Atoi_dec n : 0 ≤ n < 2^63 → Atoi (dec n) = Some n.
Proof.
  intros Hn. destruct (dec_chars n) as (Hd & Hne & Hv); [lia|].
  destruct (dec n) as [|b r] eqn:E; [done|]. apply Forall_cons in Hd as [Hb _].
  unfold Atoi. rewrite !decide_False by (by apply (digit_not b _ Hb)).
  cbv iota beta. rewrite Hv, Z.mul_1_l.
  by rewrite (proj2 (Z.leb_le _ _)), (proj2 (Z.ltb_lt _ _)) by lia.
Qed.

Lemma cut_byte_none c l : c ∉ l → cut_byte c l = None.
Proof.
  induction l as [|x l IH]; intros Hc; [done|]. simpl.
  apply not_elem_of_cons in Hc as [??]. rewrite decide_False by done. by rewrite IH.
Qed.

Lemma split_byte_sep c l :
  l ≠ [] → Forall (λ x, c ∉ x) l → split_byte c (sep_by c l) = l.
Proof.
  destruct l as [|x l]; [done|]. intros _. revert x.
  induction l as [|y l IH]; intros x H; apply Forall_cons in H as [Hx H].
  - cbn [sep_by fmap list_fmap concat]. rewrite app_nil_r. by apply split_byte_none.
  - rewrite sep_by_cons, split_byte_app by done. by rewrite IH.
Qed.

(** ** Lemmas: bits *)

Lemma go_store_bit bits v bits' w :
  0 ≤ v → go_store bits v true = Some bits' →
  zlen bits' = zlen bits ∧ bit bits' w = bit bits w || (w =? v).
Proof.
  unfold go_store. intros Hv H. destruct ((0 <=? v) && (v <? zlen bits)) eqn:E; [|done].
  injection H as <-. bool_to_prop. split; [unfold zlen; by rewrite length_insert|].
  unfold bit, go_index. destruct (0 <=? w) eqn:Ew; bool_to_prop.
  - destruct (w =? v) eqn:Ewv; bool_to_prop.
    + subst. rewrite list_lookup_insert_eq by (unfold zlen in *; lia). by rewrite orb_true_r.
    + rewrite list_lookup_insert_ne by lia. by rewrite orb_false_r.
  - rewrite (proj2 (Z.eqb_neq _ _)) by lia. done.
Qed.

Lemma set_loop_ok fuel bits i hi step :
  0 ≤ i → hi < zlen bits → 0 < step < 2^63 - hi → hi - i + 1 ≤ Z.of_nat fuel →
  ∃ bits', set_loop fuel bits i hi step = Ok bits' ∧ zlen bits' = zlen bits ∧
    ∀ v, bit bits' v = bit bits v || ((i <=? v) && (v <=? hi) && ((v - i) `mod` step =? 0)).
Proof.
  revert bits i. induction fuel as [|fuel IH]; intros bits i Hi Hhi Hs Hf; cbn [set_loop].
  all: destruct (i <=? hi) eqn:E; bool_to_prop; [|exists bits; split; [done|]; split; [done|]].
  2,4: intros v; destruct (i <=? v) eqn:E1, (v <=? hi) eqn:E2; bool_to_prop; try lia;
    by rewrite orb_false_r.
  { lia. }
  destruct (go_store bits i true) as [b1|] eqn:Es.
  2: { rewrite go_store_some in Es by lia. discriminate. }
  res_simpl. destruct (go_store_bit bits i b1 0 Hi Es) as [Hl _].
  rewrite i64_small by lia.
  destruct (IH b1 (i + step)) as (b2 & -> & Hl2 & Hb2); [lia..|].
  exists b2. split; [done|]. split; [lia|]. intros v. rewrite Hb2.
  rewrite (proj2 (go_store_bit bits i b1 v Hi Es)), <-orb_assoc. f_equal.
  destruct (v =? i) eqn:Ev; bool_to_prop.
  - subst. rewrite Z.sub_diag, Z.mod_0_l by lia. cbn [orb].
    rewrite (proj2 (Z.leb_le i i)), (proj2 (Z.leb_le i hi)) by lia. done.
  - cbn [orb]. replace ((v - i) `mod` step) with ((v - (i + step)) `mod` step).
    2: { replace (v - i) with (v - (i + step) + 1 * step) by lia. by rewrite Z.mod_add by lia. }
    destruct (v <=? hi); [|by rewrite !andb_false_r]. rewrite !andb_true_r.
    destruct (i + step <=? v) eqn:E1, (i <=? v) eqn:E2; bool_to_prop; try done; [lia|].
    symmetry. apply Z.eqb_neq.
    replace (v - (i + step)) with (v - i - step) by lia.
    rewrite <-(Z.mod_add _ 1) by lia. rewrite Z.mod_small; lia.
Qed.

(** One part sets exactly the bits it denotes. *)
Lemma parsePart_print min max p bits :
  part_ok min max p → 0 ≤ min ≤ max → max < 100 → zlen bits = max + 1 →
  ∃ bits', parsePart (print_part p) bits min max = Ok bits' ∧ zlen bits' = zlen bits ∧
    ∀ v, bit bits' v = bit bits v || member min max p v.
Proof.
  intros Hp Hm H100 Hl. unfold parsePart.
  assert (∃ base step, print_part p = base ++ print_step step ∧ (slash ∉ base) ∧
    0 < step_of step < 2^63 - max ∧
    base = (match p with PAny _ => star | PRange lo hi _ => dec lo ++ dash :: dec hi
            | PValue v _ => dec v end) ∧
    step = (match p with PAny s | PRange _ _ s | PValue _ s => s end))
    as (base & step & Hpr & Hsl & Hst & Hb & Hstep).
  { destruct p as [s|lo hi s|v s]; cbn [part_ok print_part] in *.
    - exists star, s.
      split; [done|]. repeat split; try lia. by intros [=]%list_elem_of_singleton.
    - exists (dec lo ++ dash :: dec hi), s. split; [by rewrite <-app_assoc|]. repeat split; try lia.
      rewrite elem_of_app, elem_of_cons.
      intros [Hx|[Hx|Hx]]; [|discriminate Hx|]; by eapply dec_without in Hx; [|lia|].
    - exists (dec v), s. split; [done|]. repeat split; try lia. apply dec_without; [lia|done]. }
  assert ((match cut_byte slash (print_part p) with
    | Some (a, b) => match Atoi b with
      | Some step => if step <=? 0 then Err (ErrStep (print_part p)) else Ok (a, step)
      | None => Err (ErrStep (print_part p)) end
    | None => Ok (print_part p, 1) end : res cron_error (bytes * Z)) = Ok (base, step_of step)) as ->.
  { rewrite Hpr. destruct step as [st|]; cbn [print_step step_of default from_option id] in *.
    - rewrite cut_byte_app by done. unfold id in Hst. rewrite Atoi_dec by lia.
      by rewrite (proj2 (Z.leb_gt _ _)) by lia.
    - rewrite app_nil_r, cut_byte_none by done. done. }
  res_simpl. cbv beta iota. destruct p as [s|lo hi s|v s]; subst base step; cbn [part_ok member] in *.
  - rewrite decide_True by done. apply set_loop_ok; lia.
  - assert (dec lo ++ dash :: dec hi ≠ star) as Hns.
    { destruct (dec_chars lo) as (Hd & Hne & _); [lia|]. destruct (dec lo) as [|b r]; [done|].
      apply Forall_cons in Hd as [Hd _]. intros [= -> _]. discriminate Hd. }
    rewrite decide_False by done.
    rewrite cut_byte_app by (apply dec_without; [lia|done]).
    rewrite !Atoi_dec by lia.
    rewrite (proj2 (Z.ltb_ge lo min)), (proj2 (Z.ltb_ge max hi)), (proj2 (Z.ltb_ge hi lo)) by lia.
    cbn [orb]. destruct (set_loop_ok (Z.to_nat (hi - lo + 1)) bits lo hi (step_of s))
      as (b' & Hb' & Hl' & Hv); [lia..|]. by exists b'.
  - assert (dec v ≠ star) as Hns.
    { intros Hx. eapply (dec_without v Byte.x2a); [lia|done|]. rewrite Hx. by left. }
    rewrite decide_False by done. rewrite cut_byte_none by (apply dec_without; [lia|done]).
    rewrite Atoi_dec by lia.
    rewrite (proj2 (Z.ltb_ge v min)), (proj2 (Z.ltb_ge max v)) by lia. cbn [orb].
    rewrite go_store_some by lia. eexists; split; [done|].
    assert (go_store bits v true = Some (<[Z.to_nat v:=true]> bits)) as Hst' by (apply go_store_some; lia).
    split; [apply (go_store_bit bits v _ 0); [lia|done]|].
    intros w. by rewrite (proj2 (go_store_bit bits v _ w ltac:(lia) Hst')).
Qed.

(** ** Lemmas: fields *)

Definition field_ok (min max : Z) (ps : list cron_part) : Prop :=
  ps ≠ [] ∧ Forall (part_ok min max) ps.
Definition denotes (min max : Z) (ps : list cron_part) (v : Z) : bool :=
  existsb (λ p, member min max p v) ps.

Lemma parseField_print min max ps n :
  field_ok min max ps → 0 ≤ min ≤ max → max < 100 → Z.of_nat n = max + 1 →
  ∃ bits, parseField (print_field ps) (zeros n) min max = Ok bits ∧ zlen bits = max + 1 ∧
    ∀ v, bit bits v = denotes min max ps v.
Proof.
  intros [Hne Hps] Hm H100 Hn. unfold parseField, print_field.
  assert (Forall (λ x, comma_b ∉ x) (map print_part ps)) as Hc.
  { apply Forall_forall. intros x (p & <- & Hp)%list_elem_of_In%in_map_iff.
    rewrite Forall_forall in Hps. specialize (Hps p ltac:(by apply list_elem_of_In)).
    assert (∀ st, 0 < step_of st < 2^63 - max → comma_b ∉ print_step st) as Hst.
    { intros [st|] Hs; [|by intros ?%elem_of_nil]. cbn in Hs. unfold id in Hs.
      apply not_elem_of_cons. split; [done|]. apply dec_without; [lia|done]. }
    destruct p as [s|lo hi s|v s]; cbn [part_ok print_part] in *;
      rewrite ?elem_of_app, ?elem_of_cons, ?elem_of_app.
    - intros [Hx|Hx]; [by apply list_elem_of_singleton in Hx|by eapply Hst].
    - destruct Hps as [Hs Hr]. intros [Hx|[Hx|[Hx|Hx]]]; [|done| |by eapply Hst];
        by eapply dec_without in Hx; [|lia|].
    - destruct Hps as [Hs Hr]. intros [Hx|Hx]; [|by eapply Hst].
      by eapply dec_without in Hx; [|lia|]. }
  rewrite split_byte_sep; [|by destruct ps|done].
  assert (zlen (zeros n) = max + 1) as Hz by (unfold zlen, zeros; rewrite length_replicate; lia).
  assert (∀ v, bit (zeros n) v = false) as H0.
  { intros v. unfold bit, go_index, zeros. destruct (0 <=? v); [|done].
    destruct (replicate n false !! Z.to_nat v) eqn:E; [|done].
    by apply lookup_replicate_1 in E as [-> _]. }
  assert (∀ qs bits, Forall (part_ok min max) qs → zlen bits = max + 1 →
    ∃ bits', foldM (λ bits part, parsePart part bits min max) bits (map print_part qs) = Ok bits' ∧
      zlen bits' = max + 1 ∧ ∀ v, bit bits' v = bit bits v || denotes min max qs v) as Hf.
  { induction qs as [|q qs IH]; intros bits Hq Hl; cbn [map foldM].
    - exists bits. split; [done|]. split; [done|]. intros v. by rewrite orb_false_r.
    - apply Forall_cons in Hq as [Hq Hqs].
      destruct (parsePart_print min max q bits Hq Hm H100 Hl) as (b1 & -> & Hl1 & Hb1). res_simpl.
      destruct (IH b1 Hqs ltac:(lia)) as (b2 & -> & Hl2 & Hb2). exists b2.
      split; [done|]. split; [done|]. intros v. rewrite Hb2, Hb1. cbn [denotes existsb].
      by rewrite orb_assoc. }
  destruct (Hf ps (zeros n) Hps Hz) as (bits & -> & Hl & Hb). exists bits.
  split; [done|]. split; [done|]. intros v. by rewrite Hb, H0.
Qed.

(** *** Fields of an expression *)

Definition space : byte := Byte.x20.

(** The characters of printed fields. *)
Definition plain (b : byte) : bool :=
  is_digit b || bool_decide (b ∈ [Byte.x2a; slash; dash; comma_b]).

Lemma plain_visible b : plain b = true → visible b.
Proof. unfold visible. destruct b; intros H; try discriminate H; vm_compute; split; congruence. Qed.

(** Splitting at blanks undoes joining with blanks. *)
Lemma Fields_sep ws :
  Forall (λ w, w ≠ [] ∧ forallb plain w = true) ws → Fields (sep_by space ws) = ws.
Proof.
  intros Hws. apply Fields_words. eapply Forall_impl; [exact Hws|]. intros w [Hne Hp].
  split; [done|]. apply Forall_forall. intros b Hb. apply plain_visible.
  rewrite forallb_elem in Hp. by apply Hp.
Qed.

Lemma dec_plain n : 0 ≤ n < 10^20 → forallb plain (dec n) = true.
Proof.
  intros Hn. destruct (dec_chars n Hn) as [Hd _]. apply forallb_forall. intros x Hx.
  rewrite Forall_forall in Hd. unfold plain. by rewrite (Hd x ltac:(by apply list_elem_of_In)).
Qed.

Lemma print_field_plain min max ps :
  field_ok min max ps → 0 ≤ min ≤ max → max < 100 →
  print_field ps ≠ [] ∧ forallb plain (print_field ps) = true.
Proof.
  intros [Hne Hps] Hmm H100.
  assert (∀ st, 0 < step_of st < 2^63 - max → 0 ≤ max → forallb plain (print_step st) = true) as Hst.
  { intros [st|] Hs Hm; [|done]. cbn in Hs. unfold id in Hs. cbn [print_step forallb].
    by rewrite dec_plain by lia. }
  assert (∀ p, part_ok min max p → 0 ≤ max → print_part p ≠ [] ∧ forallb plain (print_part p) = true)
    as Hp.
  { intros p Hp Hm. destruct p as [s|lo hi s|v s]; cbn [part_ok print_part] in *.
    - split; [done|]. rewrite forallb_app. by rewrite Hst by lia.
    - split; [intros [_ ?]%app_eq_nil; done|].
      rewrite forallb_app, dec_plain by lia. cbn [forallb andb].
      rewrite forallb_app, dec_plain by lia. by rewrite Hst by lia.
    - split; [intros [Hx _]%app_eq_nil; by eapply dec_chars in Hx; [|lia]|].
      rewrite forallb_app, dec_plain by lia. by rewrite Hst by lia. }
  assert (0 ≤ max) as Hm by lia.
  destruct ps as [|p ps]; [done|]. unfold print_field. cbn [map sep_by].
  apply Forall_cons in Hps as [Hp1 Hps]. destruct (Hp p Hp1 Hm) as [Hn1 Hpl]. split.
  - by intros [? _]%app_eq_nil.
  - rewrite forallb_app, Hpl. cbn [andb]. clear -Hps Hp Hm.
    induction Hps as [|q qs Hq _ IH]; [done|]. cbn [map fmap list_fmap concat].
    rewrite forallb_app. cbn [forallb]. rewrite (proj2 (Hp q Hq Hm)). done.
Qed.

(** ** Lemmas: the calendar *)

(** The day of the year of a day of an era. *)
Lemma day_of_year doe :
  0 ≤ doe < 146097 →
  let yoe := (doe - doe `div` 1460 + doe `div` 36524 - doe `div` 146096) `div` 365 in
  0 ≤ doe - (365 * yoe + yoe `div` 4 - yoe `div` 100) ≤ 365.
Proof. intros H. cbv zeta. lia_div. Qed.

Lemma civil_range doe :
  0 ≤ doe < 146097 → 1 ≤ (civil doe).1 ≤ 12 ∧ 1 ≤ (civil doe).2 ≤ 31.
Proof.
  intros H%day_of_year. unfold civil. cbv zeta in *. cbn [fst snd].
  set (doy := doe - _) in *. clearbody doy. split; [case_match; bool_to_prop|]; lia_div.
Qed.

Lemma div_below a n k : 0 ≤ a < n * k → 0 < n → 0 ≤ a `div` n ≤ k - 1.
Proof.
  intros Ha Hn. split; [apply Z.div_pos; lia|].
  enough (a `div` n < k) by lia. apply Z.div_lt_upper_bound; lia.
Qed.

Lemma calendar_range t :
  0 ≤ Minute t ≤ 59 ∧ 0 ≤ Hour t ≤ 23 ∧ 1 ≤ Day t ≤ 31 ∧ 1 ≤ Month t ≤ 12 ∧ 0 ≤ Weekday t ≤ 6.
Proof.
  pose proof (civil_range ((t `div` day + 306) `mod` 146097)
    (Z.mod_pos_bound (t `div` day + 306) 146097 eq_refl)) as [Hm Hd].
  split; [apply (div_below (t `mod` hour) minute 60); [apply Z.mod_pos_bound|]; done|].
  split; [apply (div_below (t `mod` day) hour 24); [apply Z.mod_pos_bound|]; done|].
  split; [done|]. split; [done|].
  pose proof (Z.mod_pos_bound (t `div` day + 1) 7 eq_refl). unfold Weekday. lia.
Qed.

Lemma go_index_bit bits v : 0 ≤ v < zlen bits → go_index bits v = Some (bit bits v).
Proof. intros Hv. unfold bit. by destruct (go_index_lt bits v Hv) as [x ->]. Qed.

(** Schedules as the parser builds them. *)
Definition schedule_ok (s : Schedule) : Prop :=
  zlen (Minutes s) = 60 ∧ zlen (Hours s) = 24 ∧ zlen (DaysOfMonth s) = 32 ∧
  zlen (Months s) = 13 ∧ zlen (DaysOfWeek s) = 7.

Definition matches (s : Schedule) (t : Z) : bool :=
  bit (Minutes s) (Minute t) && bit (Hours s) (Hour t) && bit (DaysOfMonth s) (Day t)
  && bit (Months s) (Month t) && bit (DaysOfWeek s) (Weekday t).

Lemma Match_ok {E} s t : schedule_ok s → @Match E s t = Ok (matches s t).
Proof.
  intros (H1 & H2 & H3 & H4 & H5). destruct (calendar_range t) as (R1 & R2 & R3 & R4 & R5).
  unfold Match, matches. rewrite !go_index_bit by lia. res_simpl.
  destruct (bit (Minutes s) _); [|done]. cbn [negb andb].
  destruct (bit (Hours s) _); [|done]. cbn [negb andb].
  destruct (bit (DaysOfMonth s) _); [|done]. cbn [negb andb].
  by destruct (bit (Months s) _).
Qed.

(** The search visits the minutes from [t] on. *)
Lemma Next_loop_ok {E} fuel s t limit :
  schedule_ok s → (limit - t) ≤ Z.of_nat fuel * minute →
  ∃ r, @Next_loop E fuel s t limit = Ok r ∧
    ((∃ k, 0 ≤ k ∧ r = t + k * minute ∧ r < limit ∧ matches s r = true ∧
           ∀ j, 0 ≤ j < k → matches s (t + j * minute) = false) ∨
     (r = 0 ∧ ∀ j, 0 ≤ j → t + j * minute < limit → matches s (t + j * minute) = false)).
Proof.
  intros Hs. revert t. induction fuel as [|fuel IH]; intros t Hf; cbn [Next_loop].
  all: destruct (t <? limit) eqn:Elt; bool_to_prop.
  2,4: exists 0; split; [done|]; right; split; [done|]; intros j Hj Hlt; unfold minute, second in *; lia.
  { lia. }
  rewrite Match_ok by done. res_simpl. destruct (matches s t) eqn:Em.
  - exists t. split; [done|]. left. exists 0. repeat split; try lia. done.
  - destruct (IH (t + minute)) as (r & -> & Hr); [unfold minute, second in *; lia|].
    exists r. split; [done|].
    destruct Hr as [(k & Hk & -> & Hlt & Hmk & Hno)|[-> Hno]].
    + left. exists (k + 1). split; [lia|]. split; [lia|]. split; [done|]. split; [done|].
      intros j Hj. destruct (decide (j = 0)) as [->|]; [by rewrite Z.add_0_r|].
      replace (t + j * minute) with (t + minute + (j - 1) * minute) by lia. apply Hno. lia.
    + right. split; [done|]. intros j Hj Hlt.
      destruct (decide (j = 0)) as [->|]; [by rewrite Z.add_0_r|].
      replace (t + j * minute) with (t + minute + (j - 1) * minute) by lia.
      apply Hno; [lia|]. replace (t + minute + (j - 1) * minute) with (t + j * minute) by lia. done.
Qed.

(** ** Properties *)

(** The five fields of an expression, and its text. *)
Record cron_expr := mk_cron_expr {
  ce_minute : list cron_part; ce_hour : list cron_part; ce_dom : list cron_part;
  ce_month : list cron_part; ce_dow : list cron_part }.
Definition expr_ok (e : cron_expr) : Prop :=
  field_ok 0 59 (ce_minute e) ∧ field_ok 0 23 (ce_hour e) ∧ field_ok 1 31 (ce_dom e) ∧
  field_ok 1 12 (ce_month e) ∧ field_ok 0 6 (ce_dow e).
Definition expr_text (e : cron_expr) : string :=
  string_of (sep_by space (map print_field
    [ce_minute e; ce_hour e; ce_dom e; ce_month e; ce_dow e])).
Definition expr_matches (e : cron_expr) (t : Z) : bool :=
  denotes 0 59 (ce_minute e) (Minute t) && denotes 0 23 (ce_hour e) (Hour t)
  && denotes 1 31 (ce_dom e) (Day t) && denotes 1 12 (ce_month e) (Month t)
  && denotes 0 6 (ce_dow e) (Weekday t).

(** What the parser makes of a well-formed expression. *)
Lemma Parse_print e :
  expr_ok e → ∃ s, Parse (expr_text e) = Ok s ∧ schedule_ok s ∧
    ∀ t, matches s t = expr_matches e t.
Proof.
  intros (E1 & E2 & E3 & E4 & E5). unfold Parse, expr_text. rewrite bytes_of_string_of.
  rewrite Fields_sep.
  2: { cbn [map]. repeat apply Forall_cons_2; try apply Forall_nil_2;
       (eapply print_field_plain; [eassumption|lia..]). }
  cbn [map].
  destruct (parseField_print _ _ _ 60 E1) as (b1 & -> & L1 & B1); [lia..|]. res_simpl.
  destruct (parseField_print _ _ _ 24 E2) as (b2 & -> & L2 & B2); [lia..|]. res_simpl.
  destruct (parseField_print _ _ _ 32 E3) as (b3 & -> & L3 & B3); [lia..|]. res_simpl.
  destruct (parseField_print _ _ _ 13 E4) as (b4 & -> & L4 & B4); [lia..|]. res_simpl.
  destruct (parseField_print _ _ _ 7 E5) as (b5 & -> & L5 & B5); [lia..|]. res_simpl.
  eexists; split; [done|]. split; [by repeat split|]. intros t.
  unfold matches, expr_matches. cbn. by rewrite B1, B2, B3, B4, B5.
Qed.

(** The standard reading of an expression: a value with a step is the range
    from the value to the end of the field, and when neither the day of the
    month nor the day of the week is a star, one of them is enough. *)
Definition std_member (min max : Z) (p : cron_part) (v : Z) : bool :=
  match p with
  | PAny step => (min <=? v) && (v <=? max) && ((v - min) `mod` step_of step =? 0)
  | PRange lo hi step => (lo <=? v) && (v <=? hi) && ((v - lo) `mod` step_of step =? 0)
  | PValue x None => v =? x
  | PValue x (Some step) => (x <=? v) && (v <=? max) && ((v - x) `mod` step =? 0)
  end.
Definition std_denotes (min max : Z) (ps : list cron_part) (v : Z) : bool :=
  existsb (λ p, std_member min max p v) ps.
Definition is_star (ps : list cron_part) : bool :=
  match ps with [PAny None] => true | _ => false end.
Definition std_day (e : cron_expr) (t : Z) : bool :=
  let dom := std_denotes 1 31 (ce_dom e) (Day t) in
  let dow := std_denotes 0 6 (ce_dow e) (Weekday t) in
  if is_star (ce_dom e) || is_star (ce_dow e) then dom && dow else dom || dow.
Definition std_matches (e : cron_expr) (t : Z) : bool :=
  std_denotes 0 59 (ce_minute e) (Minute t) && std_denotes 0 23 (ce_hour e) (Hour t)
  && std_denotes 1 12 (ce_month e) (Month t) && std_day e t.

(** The expressions on which the code and the standard agree. *)
Definition no_value_step (ps : list cron_part) : Prop :=
  Forall (λ p, match p with PValue _ (Some _) => False | _ => True end) ps.
Definition agreed (e : cron_expr) : Prop :=
  Forall no_value_step [ce_minute e; ce_hour e; ce_dom e; ce_month e; ce_dow e] ∧
  is_star (ce_dom e) || is_star (ce_dow e) = true.

Lemma denotes_std min max ps v : no_value_step ps → denotes min max ps v = std_denotes min max ps v.
Proof.
  unfold denotes, std_denotes. induction 1 as [|p ps Hp _ IH]; [done|]. cbn [existsb]. rewrite IH.
  destruct p as [| |x [st|]]; done.
Qed.

Lemma expr_matches_std e t : agreed e → expr_matches e t = std_matches e t.
Proof.
  intros [Hv Hd]. rewrite !Forall_cons in Hv. destruct Hv as (H1 & H2 & H3 & H4 & H5 & _).
  unfold expr_matches, std_matches, std_day. rewrite Hd, !denotes_std by done.
  destruct (std_denotes 0 59 _ _), (std_denotes 0 23 _ _), (std_denotes 1 31 _ _),
    (std_denotes 1 12 _ _), (std_denotes 0 6 _ _); done.
Qed.

(** C25: cron expressions have their standard meaning, where the code follows
    the standard.  Take an expression made of lists of stars, values and
    ranges within the bounds of their fields, with positive steps short of the
    64-bit limit, in which no single value has a step and the day of the month
    or the day of the week is a plain star.  It parses, and the schedule
    matches a time exactly if standard five-field cron does: minute, hour,
    month and the restricted day are all members of their lists.  The
    exceptions are those of the code: it ignores the step after a single
    value, and when both days are restricted it asks for both where the
    standard asks for one.  Names of months and days and 7 for Sunday are
    refused by the parser and no part of the statement. *)
Theorem Parse_denotes (e : cron_expr) :
  expr_ok e → agreed e →
  ∃ s, Parse (expr_text e) = Ok s ∧ ∀ t, @Match cron_error s t = Ok (std_matches e t).
Proof.
  intros He Ha. destruct (Parse_print e He) as (s & Hp & Hs & Hm). exists s.
  split; [done|]. intros t. by rewrite Match_ok, Hm, expr_matches_std.
Qed.

(** The 13th and every Friday, by the standard; Friday the 13th, by the code:
    February 13 of 2024 was a Tuesday. *)
Example days_intersected :
  let e := mk_cron_expr [PValue 0 None] [PValue 0 None] [PValue 13 None] [PAny None] [PValue 5 None] in
  let t := (738944 - 16) * day in
  expr_text e = "0 0 13 * 5" ∧ std_matches e t = true ∧
  (s ← Parse (expr_text e); @Match cron_error s t) = Ok false.
Proof. vm_compute. repeat split. Qed.
(** Minutes 5, 20, 35 and 50, by the standard; minute 5, by the code. *)
Example value_step_ignored :
  let e := mk_cron_expr [PValue 5 (Some 15)] [PAny None] [PAny None] [PAny None] [PAny None] in
  let t := 738944 * day + 20 * minute in
  expr_text e = "5/15 * * * *" ∧ std_matches e t = true ∧
  (s ← Parse (expr_text e); @Match cron_error s t) = Ok false.
Proof. vm_compute. repeat split. Qed.

(** C26: the next run.  For a schedule parsed from a well-formed expression
    (read as the code reads it: all five lists, a step after a single value
    ignored), [Next] returns, within its bound of 366 days of minutes, the
    first matching start of a minute after the given time, or the zero time
    exactly when no minute of the next 366 days matches. *)
Theorem Next_spec (e : cron_expr) (after : Z) :
  expr_ok e → 0 < after →
  ∃ s r, Parse (expr_text e) = Ok s ∧ @Next cron_error s after = Ok r ∧
    let candidate t := after < t < after + 366 * day ∧ t `mod` minute = 0 ∧
                       expr_matches e t = true in
    (candidate r ∧ ∀ t, candidate t → r ≤ t) ∨ (r = 0 ∧ ∀ t, ¬ candidate t).
Proof.
  intros He Ha. destruct (Parse_print e He) as (s & Hp & Hs & Hm).
  set (t0 := after - after `mod` minute + minute).
  destruct (@Next_loop_ok cron_error (Z.to_nat (366 * 24 * 60)) s t0 (after + 366 * day) Hs)
    as (r & Hr & Hcase).
  { subst t0. rewrite Z2Nat.id by lia. pose proof (Z.mod_pos_bound after minute eq_refl).
    unfold day, hour. lia. }
  exists s, r. split; [done|]. split; [exact Hr|].
  assert (t0 `mod` minute = 0 ∧ after < t0 ≤ after + minute) as [Hmod Hrange].
  { subst t0. pose proof (Z.mod_pos_bound after minute eq_refl). split; [|lia].
    rewrite (Z.div_mod after minute) at 1 by done.
    replace (minute * (after `div` minute) + after `mod` minute - after `mod` minute + minute)
      with ((after `div` minute + 1) * minute) by lia. by apply Z.mod_mul. }
  assert (∀ t, after < t → t `mod` minute = 0 → ∃ j, 0 ≤ j ∧ t = t0 + j * minute) as Hgrid.
  { intros t Ht Hmt. exists ((t - t0) `div` minute).
    assert ((t - t0) `mod` minute = 0) as Hd.
    { rewrite Zminus_mod, Hmt, Hmod. done. }
    pose proof (Z.div_mod (t - t0) minute ltac:(done)) as Hdm. rewrite Hd in Hdm.
    unfold minute, second in *. lia. }
  cbv zeta. destruct Hcase as [(k & Hk & -> & Hlt & Hmk & Hno)|[-> Hno]].
  - left. split.
    + rewrite <-Hm. split; [unfold minute, second in *; lia|]. split; [|done].
      by rewrite Z.mod_add.
    + intros t ((Hat & Htl) & Hmt & Het). destruct (Hgrid t Hat Hmt) as (j & Hj & ->).
      destruct (decide (j < k)) as [Hjk|]; [|unfold minute, second in *; lia].
      rewrite <-Hm, Hno in Het by lia. done.
  - right. split; [done|]. intros t ((Hat & Htl) & Hmt & Het).
    destruct (Hgrid t Hat Hmt) as (j & Hj & ->). rewrite <-Hm, Hno in Het by done. done.
Qed.

(** A step may overflow.  In the fields that start at one, a step near the
    64-bit limit makes the counter wrap to a negative index: the parser panics
    on such an expression instead of refusing it. *)
Theorem Parse_step_overflow :
  Parse "0 0 */9223372036854775807 * *" = Panic.
Proof. vm_compute. reflexivity. Qed.

(** Every 15 minutes of the working hours. *)
Definition demo_expr : cron_expr :=
  mk_cron_expr [PAny (Some 15)] [PRange 9 17 None] [PAny None] [PAny None] [PRange 1 5 None].

Lemma demo_expr_ok : expr_ok demo_expr.
Proof.
  repeat split; try discriminate; repeat constructor; cbn; unfold id; lia.
Qed.

Lemma Parse_denotes_witness :
  expr_text demo_expr = "*/15 9-17 * * 1-5" ∧
  ∃ s, Parse "*/15 9-17 * * 1-5" = Ok s ∧ @Match cron_error s (15 * minute) = Ok false.
Proof.
  split; [vm_compute; reflexivity|].
  destruct (Parse_denotes demo_expr demo_expr_ok) as (s & Hp & Hm).
  { split; [repeat constructor|reflexivity]. }
  exists s. split; [exact Hp|]. rewrite Hm. vm_compute. reflexivity.
Defined.

Lemma Next_spec_witness :
  ∃ s r, Parse "*/15 9-17 * * 1-5" = Ok s ∧ @Next cron_error s hour = Ok r.
Proof.
  destruct (Next_spec demo_expr hour demo_expr_ok) as (s & r & H1 & H2 & _).
  - vm_compute. reflexivity.
  - exists s, r. split; [exact H1|exact H2].
Defined.
