(* ===== verification/JobGraph.v ===== *)
(** * Job dependencies (kailab-control/internal/workflow/parser.go, matrix.go)

    The check that the [needs] of a workflow's jobs form an acyclic graph, and
    the order in which jobs are created.  Go leaves open in which order a map
    is visited: the orders are arguments. *)

From S2P Require Import Prelude.
Local Open Scope Z_scope.

(** The jobs of a workflow, with the jobs each one needs. *)
Abbreviation jobs := (gmap string (list string)).

Inductive graph_error :=
| ErrNonExistent (name need : string)
| ErrCircular (name : string)
| ErrCircularOrder.

Definition needs_of (wf : jobs) (name : string) : list string := default [] (wf !! name).

(** ** The cycle check *)

Record dfs_state := mk_dfs_state { df_visited : gset string; df_recStack : gset string }.

Section check.
Variable deps : jobs.

(** The loop over the dependencies of [node], given the recursive call. *)
Fixpoint dfs_deps (hasCycle : dfs_state → string → res graph_error (dfs_state * bool))
    (st : dfs_state) (l : list string) : res graph_error (dfs_state * bool) :=
  match l with
  | [] => Ok (st, false)
  | dep :: l =>
    if decide (dep ∉ df_visited st) then
      '(st, found) ← hasCycle st dep;
      if found : bool then Ok (st, true) else dfs_deps hasCycle st l
    else if decide (dep ∈ df_recStack st) then Ok (st, true)
    else dfs_deps hasCycle st l
  end.

(** Each nested call visits one more job. *)
Fixpoint hasCycle (fuel : nat) (st : dfs_state) (node : string)
  : res graph_error (dfs_state * bool) :=
  match fuel with
  | O => Panic
  | S fuel =>
    let st := mk_dfs_state ({[node]} ∪ df_visited st) ({[node]} ∪ df_recStack st) in
    '(st, found) ← dfs_deps (hasCycle fuel) st (needs_of deps node);
    if found : bool then Ok (st, true)
    else Ok (mk_dfs_state (df_visited st) (df_recStack st ∖ {[node]}), false)
  end.

Definition dfs_root (st : dfs_state) (name : string) : res graph_error dfs_state :=
  if decide (name ∈ df_visited st) then Ok st
  else
    '(st, found) ← hasCycle (S (size deps)) st name;
    if found : bool then Err (ErrCircular name) else Ok st.
End check.

(** [names] and [names'] are the orders in which the jobs are visited by the
    two loops. *)
Definition validateDependencies (names names' : list string) (wf : jobs)
  : res graph_error () :=
  _ ← foldM (λ _ name,
        foldM (λ _ need,
          match wf !! need with
          | Some _ => Ok ()
          | None => Err (ErrNonExistent name need)
          end) () (needs_of wf name)) () names;
  _ ← foldM (dfs_root wf) (mk_dfs_state ∅ ∅) names';
  Ok ().

(** ** The job order *)

(** [deps[need] = append(deps[need], name); inDegree[name]++] *)
Definition add_need (name : string) (acc : gmap string (list string) * gmap string Z)
    (need : string) : gmap string (list string) * gmap string Z :=
  let '(deps, inDegree) := acc in
  (<[need := default [] (deps !! need) ++ [name]]> deps,
   <[name := default 0 (inDegree !! name) + 1]> inDegree).

(** [inDegree[dep]--; if inDegree[dep] == 0 { queue = append(queue, dep) }] *)
Definition release (acc : gmap string Z * list string) (dep : string)
  : gmap string Z * list string :=
  let '(inDegree, queue) := acc in
  let d := default 0 (inDegree !! dep) - 1 in
  (<[dep := d]> inDegree, if d =? 0 then queue ++ [dep] else queue).

Fixpoint order_loop (fuel : nat) (deps : gmap string (list string)) (inDegree : gmap string Z)
    (queue result : list string) : res graph_error (list string) :=
  match queue with
  | [] => Ok result
  | name :: queue =>
    match fuel with
    | O => Panic
    | S fuel =>
      let dependents := merge_sort str_le (default [] (deps !! name)) in
      let '(inDegree, queue) := foldl release (inDegree, queue) dependents in
      order_loop fuel deps inDegree queue (result ++ [name])
    end
  end.

(** [names] is the order in which the second loop visits the jobs; [zeros] the
    order in which the names of in-degree zero are found. *)
Definition GetJobOrder (names : list string) (zeros : gmap string Z → list string) (wf : jobs)
  : res graph_error (list string) :=
  let deps := (λ _, []) <$> wf in
  let inDegree := (λ _, 0) <$> wf in
  let '(deps, inDegree) :=
    foldl (λ acc name, foldl (add_need name) acc (needs_of wf name)) (deps, inDegree) names in
  let queue := merge_sort str_le (zeros inDegree) in
  result ← order_loop (size wf) deps inDegree queue [];
  if negb (zlen result =? Z.of_nat (size wf)) then Err ErrCircularOrder else Ok result.

(** ** Specification *)

Definition edge (wf : jobs) (x y : string) : Prop := y ∈ needs_of wf x.

Definition defined (wf : jobs) : Prop :=
  ∀ name need, is_Some (wf !! name) → need ∈ needs_of wf name → is_Some (wf !! need).

(** A list in which everything comes after what it needs. *)
Fixpoint ordered_from (wf : jobs) (before l : list string) : Prop :=
  match l with
  | [] => True
  | x :: l => (∀ y, edge wf x y → y ∈ before) ∧ ordered_from wf (before ++ [x]) l
  end.
Definition ordered (wf : jobs) (l : list string) : Prop := ordered_from wf [] l.

Lemma ordered_from_app wf before l k :
  ordered_from wf before (l ++ k) ↔ ordered_from wf before l ∧ ordered_from wf (before ++ l) k.
Proof.
  revert before. induction l as [|x l IH]; intros before; cbn [app ordered_from].
  - rewrite app_nil_r. tauto.
  - rewrite IH, <-app_assoc. cbn [app]. tauto.
Qed.

Lemma ordered_snoc wf l x :
  ordered wf (l ++ [x]) ↔ ordered wf l ∧ ∀ y, edge wf x y → y ∈ l.
Proof. unfold ordered. rewrite ordered_from_app. cbn. tauto. Qed.

(** An ordered list has no cycle through its members. *)
Lemma ordered_no_cycle wf l x : ordered wf l → x ∈ l → ¬ tc (edge wf) x x.
Proof.
  intros Hl Hx.
  assert (∀ k y z, ordered wf k → y ∈ k → tc (edge wf) y z → z ∈ k) as Hclosed.
  { intros k y z Hk Hy Htc. revert Hy. induction Htc as [y z He|y z w He _ IH]; intros Hy.
    - apply list_elem_of_split in Hy as (k1 & k2 & ->). unfold ordered in Hk.
      apply ordered_from_app in Hk as [_ [Hk _]]. apply elem_of_app. left. by apply Hk.
    - apply IH. apply list_elem_of_split in Hy as (k1 & k2 & ->). unfold ordered in Hk.
      apply ordered_from_app in Hk as [_ [Hk _]]. apply elem_of_app. left. by apply Hk. }
  induction l as [|y l IH] using rev_ind; [by apply elem_of_nil in Hx|].
  apply ordered_snoc in Hl as [Hl Hy]. intros Htc.
  destruct (decide (x ∈ l)) as [Hin|Hout]; [by apply IH|].
  assert (x = y) as -> by (apply elem_of_app in Hx as [?|Hx]; [done|by apply list_elem_of_singleton in Hx]).
  apply Hout. inversion Htc as [? ? He|? z ? He Htc']; subst; [by apply Hy|].
  eapply Hclosed; [exact Hl| |exact Htc']. by apply Hy.
Qed.

(** ** Lemmas: the depth-first search *)

Section dfs.
Variable deps : jobs.
Hypothesis Hdef : defined deps.

(** [done] lists the finished jobs in the order they finished. *)
Record dfs_inv (st : dfs_state) (done : list string) : Prop := mk_dfs_inv {
  di_nodup : NoDup done;
  di_done : ∀ x, x ∈ done ↔ x ∈ df_visited st ∧ x ∉ df_recStack st;
  di_ordered : ordered deps done;
  di_stack : df_recStack st ⊆ df_visited st;
  di_known : df_visited st ⊆ dom deps;
}.

Definition unvisited (st : dfs_state) : nat := size (dom deps ∖ df_visited st).

(** What a search from [node] leaves behind. *)
Definition dfs_post (st : dfs_state) (done : list string) (targets : list string)
    (r : res graph_error (dfs_state * bool)) : Prop :=
  match r with
  | Ok (st', false) =>
    df_recStack st' = df_recStack st ∧ df_visited st ⊆ df_visited st' ∧
    ∃ more, dfs_inv st' (done ++ more) ∧ ∀ x, x ∈ targets → x ∈ done ++ more
  | Ok (_, true) => ∃ x, tc (edge deps) x x
  | _ => False
  end.

Lemma unvisited_mono st st' : df_visited st ⊆ df_visited st' → (unvisited st' ≤ unvisited st)%nat.
Proof. intros H. unfold unvisited. apply subseteq_size. set_solver. Qed.

Lemma unvisited_visit st node R :
  node ∈ dom deps → node ∉ df_visited st →
  (unvisited (mk_dfs_state ({[node]} ∪ df_visited st) R) < unvisited st)%nat.
Proof. intros Hd Hv. unfold unvisited. apply subset_size. cbn. set_solver. Qed.

Lemma dfs_deps_post fuel node l st fin :
  (∀ st fin dep, dep ∈ dom deps → dep ∉ df_visited st → dfs_inv st fin →
     (∀ r, r ∈ df_recStack st → rtc (edge deps) r dep) → (unvisited st < fuel)%nat →
     dfs_post st fin [dep] (hasCycle deps fuel st dep)) →
  (∀ y, y ∈ l → edge deps node y ∧ y ∈ dom deps) →
  dfs_inv st fin → (∀ r, r ∈ df_recStack st → rtc (edge deps) r node) →
  (unvisited st < fuel)%nat →
  dfs_post st fin l (dfs_deps (hasCycle deps fuel) st l).
Proof.
  intros IH. revert st fin. induction l as [|dep l IHl]; intros st fin Hl Hi Hr Hf; cbn [dfs_deps].
  { split; [done|]. split; [done|]. exists []. rewrite app_nil_r. split; [done|].
    by intros x ?%elem_of_nil. }
  destruct (Hl dep ltac:(by left)) as [He Hd].
  assert (∀ y, y ∈ l → edge deps node y ∧ y ∈ dom deps) as Hl' by (intros y Hy; apply Hl; by right).
  case_decide as Hv.
  - pose proof (IH st fin dep Hd Hv Hi) as Hp.
    assert (dfs_post st fin [dep] (hasCycle deps fuel st dep)) as Hpost.
    { apply Hp; [|done]. intros r Hrs. eapply rtc_r; [by apply Hr|done]. }
    clear Hp. destruct (hasCycle deps fuel st dep) as [[st1 []]|e|]; [done| |done..].
    destruct Hpost as (HR & HV & more & Hi1 & Hin). res_simpl. cbv beta iota.
    pose proof (IHl st1 (fin ++ more) Hl' Hi1) as Hp2. rewrite HR in Hp2.
    specialize (Hp2 Hr ltac:(pose proof (unvisited_mono st st1 HV); lia)).
    destruct (dfs_deps _ st1 l) as [[st2 []]|e|]; [done| |done..].
    destruct Hp2 as (HR2 & HV2 & more2 & Hi2 & Hin2). split; [congruence|].
    split; [by transitivity (df_visited st1)|]. exists (more ++ more2). rewrite app_assoc.
    split; [done|]. intros x [->|Hx]%elem_of_cons; [|by apply Hin2].
    apply elem_of_app. left. apply Hin. by left.
  - case_decide as Hs.
    + exists dep. eapply tc_rtc_l; [by apply Hr|]. by apply tc_once.
    + pose proof (IHl st fin Hl' Hi Hr Hf) as Hp.
      destruct (dfs_deps _ st l) as [[st2 []]|e|]; [done| |done..].
      destruct Hp as (HR2 & HV2 & more2 & Hi2 & Hin2). split; [done|]. split; [done|].
      exists more2. split; [done|]. intros x [->|Hx]%elem_of_cons; [|by apply Hin2].
      apply elem_of_app. left. apply (di_done _ _ Hi). split; [|done].
      by destruct (decide (dep ∈ df_visited st)).
Qed.

Lemma hasCycle_post fuel st fin node :
  node ∈ dom deps → node ∉ df_visited st → dfs_inv st fin →
  (∀ r, r ∈ df_recStack st → rtc (edge deps) r node) → (unvisited st < fuel)%nat →
  dfs_post st fin [node] (hasCycle deps fuel st node).
Proof.
  revert st fin node. induction fuel as [|fuel IH]; intros st fin node Hd Hv Hi Hr Hf; [lia|].
  cbn [hasCycle]. set (st1 := mk_dfs_state _ _).
  assert (dfs_inv st1 fin) as Hi1.
  { destruct Hi as [I1 I2 I3 I4 I5]. split; cbn; [done| |done|set_solver|set_solver].
    intros x. rewrite I2. set_solver. }
  pose proof (unvisited_visit st node ({[node]} ∪ df_recStack st) Hd Hv) as Hlt. fold st1 in Hlt.
  assert (dfs_post st1 fin (needs_of deps node) (dfs_deps (hasCycle deps fuel) st1 (needs_of deps node)))
    as Hp.
  { apply (dfs_deps_post fuel node); [exact IH| |exact Hi1| |lia].
    - intros y Hy. split; [done|]. apply elem_of_dom. apply (Hdef node); [by apply elem_of_dom|done].
    - intros r [->%elem_of_singleton|Hrs]%elem_of_union; [done|by apply Hr]. }
  destruct (dfs_deps _ st1 _) as [[st2 []]|e|]; [done| |done..]. res_simpl. cbv beta iota.
  destruct Hp as (HR & HV & more & [I1 I2 I3 I4 I5] & Hin). cbn in HR, HV.
  assert (node ∉ df_recStack st) as Hns by (intros Hx; apply Hv; by apply (di_stack _ _ Hi)).
  split; [cbn; rewrite HR; set_solver|]. split; [cbn; set_solver|].
  exists (more ++ [node]). rewrite app_assoc.
  split; [|intros x ->%list_elem_of_singleton; apply elem_of_app; right; by left].
  assert (node ∉ fin ++ more) as Hnn by (rewrite I2, HR; set_solver).
  split; cbn.
  - apply NoDup_app. split; [done|]. split; [|apply NoDup_singleton].
    intros x Hx ->%list_elem_of_singleton. done.
  - intros x. rewrite elem_of_app, list_elem_of_singleton, I2, elem_of_difference, elem_of_singleton.
    destruct (decide (x = node)) as [->|]; [set_solver|tauto].
  - apply ordered_snoc. split; [done|]. intros y Hy. by apply Hin.
  - set_solver.
  - done.
Qed.

(** One root, and the roots one after the other. *)
Definition roots_post (fin names : list string) (r : res graph_error dfs_state) : Prop :=
  match r with
  | Ok st => ∃ more, dfs_inv st (fin ++ more) ∧ df_recStack st = ∅ ∧
                     ∀ x, x ∈ names → x ∈ fin ++ more
  | Err e => (∃ name, e = ErrCircular name) ∧ ∃ x, tc (edge deps) x x
  | Panic => False
  end.

Lemma dfs_root_post name st fin :
  name ∈ dom deps → dfs_inv st fin → df_recStack st = ∅ →
  roots_post fin [name] (dfs_root deps st name).
Proof.
  intros Hn Hi He. unfold dfs_root. destruct (decide _) as [Hv|Hv].
  - exists []. rewrite app_nil_r. split; [done|]. split; [done|].
    intros x ->%list_elem_of_singleton. apply (di_done _ _ Hi). by rewrite He.
  - assert (dfs_post st fin [name] (hasCycle deps (S (size deps)) st name)) as Hpost.
    { apply hasCycle_post; [done..|rewrite He; by intros r ?%elem_of_empty|].
      unfold unvisited. rewrite <-size_dom.
      assert (size (dom deps ∖ df_visited st) ≤ size (dom deps))%nat
        by (apply subseteq_size; set_solver). lia. }
    destruct (hasCycle _ _ _ _) as [[st1 []]|e|]; res_simpl; cbv beta iota; [|..|done|done].
    + split; [by eexists|done].
    + destruct Hpost as (HR & HV & more & Hi1 & Hin). exists more. by rewrite HR.
Qed.

Lemma dfs_roots names st fin :
  (∀ x, x ∈ names → x ∈ dom deps) → dfs_inv st fin → df_recStack st = ∅ →
  roots_post fin names (foldM (dfs_root deps) st names).
Proof.
  revert st fin. induction names as [|name names IH]; intros st fin Hn Hi He; cbn [foldM].
  { exists []. rewrite app_nil_r. split; [done|]. split; [done|]. by intros x ?%elem_of_nil. }
  pose proof (dfs_root_post name st fin ltac:(apply Hn; by left) Hi He) as Hp.
  destruct (dfs_root deps st name) as [st1|e|]; res_simpl; [|exact Hp|done].
  destruct Hp as (more & Hi1 & He1 & Hin).
  assert (∀ x, x ∈ names → x ∈ dom deps) as Hn' by (intros x Hx; apply Hn; by right).
  specialize (IH st1 (fin ++ more) Hn' Hi1 He1).
  destruct (foldM _ _ _) as [st2|e|]; [|exact IH|done].
  destruct IH as (more2 & Hi' & He' & Hin2). exists (more ++ more2). rewrite app_assoc.
  split; [done|]. split; [done|]. intros x [->|Hx]%elem_of_cons; [|by apply Hin2].
  apply elem_of_app. left. apply Hin. by left.
Qed.

(** Defined needs are either ordered or have a cycle. *)
Lemma ordered_or_cycle names :
  (∀ x, x ∈ names ↔ x ∈ dom deps) →
  match foldM (dfs_root deps) (mk_dfs_state ∅ ∅) names with
  | Ok _ => ∃ l, NoDup l ∧ (∀ x, x ∈ l ↔ x ∈ dom deps) ∧ ordered deps l
  | Err e => (∃ name, e = ErrCircular name) ∧ ∃ x, tc (edge deps) x x
  | Panic => False
  end.
Proof.
  intros Hn. pose proof (dfs_roots names (mk_dfs_state ∅ ∅) []) as Hp.
  assert (dfs_inv (mk_dfs_state ∅ ∅) []) as Hi.
  { split; cbn; [apply NoDup_nil_2| |done|done|set_solver]. intros x. split; [by intros ?%elem_of_nil|set_solver]. }
  specialize (Hp ltac:(intros x; apply Hn) Hi eq_refl).
  destruct (foldM _ _ _) as [st|e|]; [|exact Hp|done].
  destruct Hp as (l & [I1 I2 I3 I4 I5] & He & Hin). exists l. cbn [app] in *. split; [done|].
  split; [|done]. intros x. split; [|intros Hx; by apply Hin, Hn].
  intros Hx. apply I5. by apply I2.
Qed.
End dfs.

Lemma ordered_NoDup_acyclic wf l :
  (∀ x, x ∈ l ↔ x ∈ dom wf) → ordered wf l → defined wf ∧ ∀ x, ¬ tc (edge wf) x x.
Proof.
  intros Hl Ho. split.
  - intros name need Hn He. apply elem_of_dom, Hl. apply elem_of_dom, Hl in Hn.
    apply list_elem_of_split in Hn as (k1 & k2 & ->). apply ordered_from_app in Ho as [_ [Ho _]].
    apply elem_of_app. left. by apply Ho.
  - intros x Htc. assert (x ∈ dom wf) as Hx.
    { inversion Htc as [? z He|? z ? He]; subst; apply elem_of_dom; unfold edge, needs_of in He;
        destruct (wf !! x); [done|by apply elem_of_nil in He|done|by apply elem_of_nil in He]. }
    by apply (ordered_no_cycle wf l x Ho); [apply Hl|].
Qed.

(** ** Lemmas: the counts of unfinished needs *)

Definition occ (x : string) (l : list string) : nat := length (filter (λ y, y = x) l).
Definition rem (wf : jobs) (finished : list string) (j : string) : nat :=
  length (filter (λ y, y ∉ finished) (needs_of wf j)).

Lemma occ_cons x y l : occ x (y :: l) = ((if decide (y = x) then 1 else 0) + occ x l)%nat.
Proof. unfold occ. rewrite filter_cons. by destruct (decide (y = x)). Qed.

Lemma occ_perm x l k : l ≡ₚ k → occ x l = occ x k.
Proof. intros H. unfold occ. by rewrite H. Qed.

Lemma occ_app x l k : occ x (l ++ k) = (occ x l + occ x k)%nat.
Proof. unfold occ. by rewrite filter_app, length_app. Qed.

Lemma rem_snoc wf finished name j :
  name ∉ finished →
  rem wf finished j = (rem wf (finished ++ [name]) j + occ name (needs_of wf j))%nat.
Proof.
  intros Hn. unfold rem, occ. induction (needs_of wf j) as [|y l IH]; [done|].
  rewrite !filter_cons. assert (y ∈ finished ++ [name] ↔ y ∈ finished ∨ y = name) as Hy
    by (rewrite elem_of_app, list_elem_of_singleton; done).
  destruct (decide (y ∉ finished)), (decide (y ∉ finished ++ [name])), (decide (y = name));
    cbn [length]; try (exfalso; clear IH; subst; tauto); lia.
Qed.

Lemma rem_zero wf finished j :
  rem wf finished j = 0%nat ↔ ∀ y, edge wf j y → y ∈ finished.
Proof.
  unfold rem, edge. split.
  - intros H%nil_length_inv y Hy. destruct (decide (y ∈ finished)) as [|Hn]; [done|].
    assert (y ∈ filter (λ y, y ∉ finished) (needs_of wf j)) as Hf by (by apply list_elem_of_filter).
    rewrite H in Hf. by apply elem_of_nil in Hf.
  - intros H. destruct (filter _ _) as [|y l] eqn:Hf; [done|].
    assert (y ∈ filter (λ y, y ∉ finished) (needs_of wf j)) as Hy by (rewrite Hf; by left).
    apply list_elem_of_filter in Hy as [Hy Hy']. destruct Hy. by apply H.
Qed.

(** Releasing the dependents [l]: [R] counts what remains to be waited for
    afterwards. *)
Definition counted (wf : jobs) (R : string → nat) (pre : list string)
    (inDegree : gmap string Z) (queue : list string) : Prop :=
  NoDup (pre ++ queue) ∧
  (∀ j, j ∈ dom wf → inDegree !! j = Some (Z.of_nat (R j))) ∧
  (∀ j, j ∈ pre ++ queue ↔ j ∈ dom wf ∧ R j = 0%nat).

Lemma release_counted wf R pre l inDegree queue :
  (∀ j, j ∈ l → j ∈ dom wf) →
  counted wf (λ j, R j + occ j l)%nat pre inDegree queue →
  counted wf R pre (foldl release (inDegree, queue) l).1 (foldl release (inDegree, queue) l).2.
Proof.
  revert inDegree queue. induction l as [|x l IH]; intros inDegree queue Hl Hc; cbn [foldl].
  { destruct Hc as (H1 & H2 & H3). split; [done|]. split; intros j.
    - intros Hj. rewrite H2 by done. do 2 f_equal. unfold occ. cbn. lia.
    - rewrite H3. unfold occ. cbn. by rewrite Nat.add_0_r. }
  destruct Hc as (H1 & H2 & H3). assert (x ∈ dom wf) as Hx by (apply Hl; by left).
  destruct (release (inDegree, queue) x) as [inDegree' queue'] eqn:Hr.
  apply IH; [intros j Hj; apply Hl; by right|]. unfold release in Hr.
  rewrite (H2 x Hx) in Hr. cbn [default from_option] in Hr. rewrite occ_cons, decide_True in Hr by done.
  injection Hr as <- <-. cbn [Nat.add] in *.
  assert (x ∉ pre ++ queue) as Hxq by (rewrite H3, occ_cons, decide_True by done; lia).
  assert (∀ j, j ∈ dom wf → j ≠ x → (R j + occ j (x :: l) = R j + occ j l)%nat) as Hne
    by (intros j _ Hj; rewrite occ_cons, decide_False by done; lia).
  split; [|split].
  - case_match; [|done]. rewrite app_assoc. apply NoDup_app. split; [done|].
    split; [|apply NoDup_singleton]. intros y Hy ->%list_elem_of_singleton. done.
  - intros j Hj. destruct (decide (j = x)) as [->|Hj'].
    + rewrite lookup_insert_eq. f_equal. lia.
    + rewrite lookup_insert_ne by done. rewrite (H2 j Hj), (Hne j Hj Hj'). done.
  - intros j. destruct (decide (j = x)) as [->|Hj'].
    + destruct (Z.eqb_spec (Z.of_nat (R x + S (occ x l)) - 1) 0) as [Hz|Hz].
      * split; [intros _; split; [done|lia]|intros _]. rewrite !elem_of_app. right. right. by left.
      * split; [done|]. intros [_ ?]. lia.
    + assert (j ∈ pre ++ (if Z.of_nat (R x + S (occ x l)) - 1 =? 0 then queue ++ [x] else queue)
              ↔ j ∈ pre ++ queue) as ->.
      { case_match; [|done]. rewrite !elem_of_app, list_elem_of_singleton. tauto. }
      rewrite H3. split; intros [Hd Hz]; (split; [done|]); rewrite (Hne j Hd Hj') in *; lia.
Qed.

Section kahn.
Variable wf : jobs.
Variable deps : gmap string (list string).
Hypothesis Hdeps_dom : ∀ n j, j ∈ default [] (deps !! n) → j ∈ dom wf.
Hypothesis Hdeps : ∀ n j, j ∈ dom wf → occ j (default [] (deps !! n)) = occ n (needs_of wf j).

Lemma order_loop_spec fuel inDegree queue result :
  counted wf (rem wf result) result inDegree queue → ordered wf result →
  (size wf ≤ fuel + length result)%nat →
  ∃ l inDegree', order_loop fuel deps inDegree queue result = Ok l ∧
    counted wf (rem wf l) l inDegree' [] ∧ ordered wf l.
Proof.
  revert inDegree queue result. induction fuel as [|fuel IH]; intros inDegree queue result Hc Ho Hf.
  all: destruct queue as [|name queue]; [by exists result, inDegree|].
  all: destruct Hc as (H1 & H2 & H3).
  all: assert (name ∈ dom wf ∧ rem wf result name = 0%nat) as [Hd Hz]
    by (apply H3; apply elem_of_app; right; by left).
  all: assert (name ∉ result) as Hn
    by (apply NoDup_app in H1 as (_ & H1 & _); intros Hin; apply (H1 name Hin); by left).
  - exfalso. assert (length (result ++ name :: queue) ≤ size wf)%nat as Hlen.
    { rewrite <-size_dom, <-(size_list_to_set (C := gset string)) by done. apply subseteq_size.
      intros x Hx%elem_of_list_to_set. by apply H3. }
    rewrite length_app in Hlen. cbn in Hlen. lia.
  - cbn [order_loop]. destruct (foldl release _ _) as [inDegree' queue'] eqn:Hr.
    apply IH; [| |rewrite length_app; cbn; lia].
    + pose proof (release_counted wf (rem wf (result ++ [name])) (result ++ [name])
        (merge_sort str_le (default [] (deps !! name))) inDegree queue) as Hc.
      rewrite Hr in Hc. apply Hc; clear Hc.
      * intros j. rewrite (merge_sort_Permutation str_le). apply Hdeps_dom.
      * assert (∀ j, j ∈ dom wf → (rem wf (result ++ [name]) j +
          occ j (merge_sort str_le (default [] (deps !! name))))%nat = rem wf result j) as Heq.
        { intros j Hj. rewrite (occ_perm j _ _ (merge_sort_Permutation str_le _)), Hdeps by done.
          by rewrite (rem_snoc wf result name j Hn). }
        split; [by rewrite <-app_assoc|]. split.
        -- intros j Hj. by rewrite Heq, H2.
        -- intros j. rewrite <-app_assoc. cbn [app]. rewrite H3.
           split; intros [Hj Hz']; (split; [done|]); rewrite Heq in *; done.
    + apply ordered_snoc. split; [done|]. by apply rem_zero.
Qed.
End kahn.

(** ** Lemmas: the maps of dependents and in-degrees *)

(** [names] is a possible order of visiting a map with the domain [D]. *)
Definition enumerates (D : gset string) (names : list string) : Prop :=
  NoDup names ∧ ∀ x, x ∈ names ↔ x ∈ D.

Lemma enumerates_perm D names names' :
  enumerates D names → enumerates D names' → names ≡ₚ names'.
Proof. intros [H1 H2] [H3 H4]. apply NoDup_Permutation; [done..|]. intros x. by rewrite H2, H4. Qed.

(** The names of in-degree zero, in any order. *)
Definition lists_zeros (zeros : gmap string Z → list string) : Prop :=
  ∀ m, NoDup (zeros m) ∧ ∀ x, x ∈ zeros m ↔ m !! x = Some 0.

Definition dependents (wf : jobs) (names : list string) (n : string) : list string :=
  names ≫= λ x, replicate (occ n (needs_of wf x)) x.

Lemma add_needs name needs d i n :
  default [] ((foldl (add_need name) (d, i) needs).1 !! n) =
  default [] (d !! n) ++ replicate (occ n needs) name.
Proof.
  revert d i. induction needs as [|y needs IH]; intros d i; cbn [foldl add_need].
  { unfold occ. cbn. by rewrite app_nil_r. }
  rewrite IH, occ_cons. destruct (decide (y = n)) as [->|Hne].
  - rewrite lookup_insert_eq. cbn. by rewrite <-app_assoc.
  - by rewrite lookup_insert_ne by done.
Qed.

Lemma add_needs_degree name needs d i j :
  default 0 ((foldl (add_need name) (d, i) needs).2 !! j) =
  default 0 (i !! j) + if decide (j = name) then zlen needs else 0.
Proof.
  revert d i. induction needs as [|y needs IH]; intros d i; cbn [foldl add_need].
  { unfold zlen. cbn. case_decide; lia. }
  rewrite IH, zlen_cons. destruct (decide (j = name)) as [->|].
  - rewrite lookup_insert_eq. cbn [default from_option id]. lia.
  - by rewrite lookup_insert_ne.
Qed.

Lemma add_needs_dom name needs d i :
  name ∈ dom i → dom (foldl (add_need name) (d, i) needs).2 = dom i.
Proof.
  revert d i. induction needs as [|y needs IH]; intros d i Hn; cbn [foldl add_need]; [done|].
  rewrite IH; set_solver.
Qed.

Definition build (wf : jobs) (names : list string) :=
  foldl (λ acc name, foldl (add_need name) acc (needs_of wf name))
    ((λ _, []) <$> wf, (λ _, 0) <$> wf) names.

Lemma build_snoc wf names x :
  build wf (names ++ [x]) = foldl (add_need x) (build wf names) (needs_of wf x).
Proof. unfold build. by rewrite foldl_app. Qed.

Lemma build_deps wf names n :
  default [] ((build wf names).1 !! n) = dependents wf names n.
Proof.
  induction names as [|x names IH] using rev_ind.
  - cbn. rewrite lookup_fmap. by destruct (wf !! n).
  - rewrite build_snoc. destruct (build wf names) as [d i]. rewrite add_needs.
    cbn [fst] in IH. rewrite IH. unfold dependents. rewrite bind_app. cbn. by rewrite app_nil_r.
Qed.

Lemma build_degree wf names j :
  NoDup names →
  default 0 ((build wf names).2 !! j) = if decide (j ∈ names) then zlen (needs_of wf j) else 0.
Proof.
  induction names as [|x names IH] using rev_ind; intros Hnd.
  - cbn. rewrite lookup_fmap. by destruct (wf !! j).
  - apply NoDup_app in Hnd as (Hnd & Hx & _). rewrite build_snoc. specialize (IH Hnd).
    destruct (build wf names) as [d i]. rewrite add_needs_degree. cbn [snd] in IH. rewrite IH.
    destruct (decide (j = x)) as [->|Hne].
    + rewrite decide_False by (intros Hin; by apply (Hx x Hin); left).
      rewrite decide_True; [done|]. apply elem_of_app. right. by left.
    + rewrite Z.add_0_r. apply decide_ext. rewrite elem_of_app, list_elem_of_singleton. tauto.
Qed.

Lemma build_dom wf names : (∀ x, x ∈ names → x ∈ dom wf) → dom (build wf names).2 = dom wf.
Proof.
  induction names as [|x names IH] using rev_ind; intros Hd; [by cbn; rewrite dom_fmap_L|].
  rewrite build_snoc. assert (dom (build wf names).2 = dom wf) as H.
  { apply IH. intros y Hy. apply Hd, elem_of_app. by left. }
  destruct (build wf names) as [d i]. cbn [snd] in H. rewrite add_needs_dom; [done|].
  rewrite H. apply Hd, elem_of_app. right. by left.
Qed.

Lemma build_lookup wf names j :
  enumerates (dom wf) names →
  (build wf names).2 !! j = if decide (j ∈ dom wf) then Some (zlen (needs_of wf j)) else None.
Proof.
  intros [Hnd Hn]. pose proof (build_degree wf names j Hnd) as Hg.
  pose proof (build_dom wf names ltac:(intros x; apply Hn)) as Hd.
  destruct (decide (j ∈ dom wf)) as [Hj|Hj].
  - rewrite decide_True in Hg by by apply Hn. rewrite <-Hd in Hj.
    apply elem_of_dom in Hj as [z Hz]. rewrite Hz in *. cbn in Hg. by subst.
  - rewrite <-Hd in Hj. by apply not_elem_of_dom.
Qed.

Lemma elem_of_dependents wf names n x :
  x ∈ dependents wf names n ↔ x ∈ names ∧ edge wf x n.
Proof.
  unfold dependents, edge. rewrite list_elem_of_bind. setoid_rewrite elem_of_replicate. unfold occ. split.
  - intros (y & [-> Hy] & Hin). split; [done|].
    destruct (filter _ _) as [|w l] eqn:Hf; [done|].
    assert (w ∈ filter (λ z, z = n) (needs_of wf y)) as Hw by (rewrite Hf; by left).
    by apply list_elem_of_filter in Hw as [-> Hw].
  - intros [Hin He]. exists x. split; [|done]. split; [done|]. intros H%nil_length_inv.
    assert (n ∈ filter (λ z, z = n) (needs_of wf x)) as Hw by (by apply list_elem_of_filter).
    rewrite H in Hw. by apply elem_of_nil in Hw.
Qed.

Lemma occ_replicate x y k : occ x (replicate k y) = if decide (y = x) then k else 0%nat.
Proof.
  induction k as [|k IH]; cbn [replicate]; [by case_decide|]. rewrite occ_cons, IH. by case_decide.
Qed.

Lemma occ_dependents wf names n j :
  NoDup names → occ j (dependents wf names n) = if decide (j ∈ names) then occ n (needs_of wf j) else 0%nat.
Proof.
  unfold dependents. induction names as [|x names IH]; intros Hnd; [done|].
  apply NoDup_cons in Hnd as [Hx Hnd]. csimpl. rewrite occ_app, occ_replicate.
  rewrite (IH Hnd).
  destruct (decide (x = j)) as [->|Hne].
  - rewrite decide_False by done. rewrite decide_True; [lia|by left].
  - rewrite Nat.add_0_l. apply decide_ext. rewrite elem_of_cons. naive_solver.
Qed.

Definition need_defined (wf : jobs) (name need : string) : res graph_error () :=
  match wf !! need with Some _ => Ok () | None => Err (ErrNonExistent name need) end.

Lemma needs_defined wf name needs :
  match foldM (λ _, need_defined wf name) () needs with
  | Ok _ => ∀ need, need ∈ needs → is_Some (wf !! need)
  | Err e => ∃ need, e = ErrNonExistent name need ∧ need ∈ needs ∧ wf !! need = None
  | Panic => False
  end.
Proof.
  induction needs as [|y needs IH]; cbn [foldM]; [by intros ? ?%elem_of_nil|].
  assert (need_defined wf name y = match wf !! y with
    | Some _ => Ok () | None => Err (ErrNonExistent name y) end) as -> by done.
  destruct (wf !! y) as [v|] eqn:Hy; res_simpl; [|by exists y; split; [|split; [left|]]].
  destruct (foldM _ () needs) as [u|e|]; [|destruct IH as (need & He & Hin & Hn)|done].
  - intros need [->|Hin]%elem_of_cons; [by eexists|by apply IH].
  - exists need. split; [done|]. split; [by right|done].
Qed.

Lemma all_needs_defined wf names :
  match foldM (λ _ name, foldM (λ _, need_defined wf name) () (needs_of wf name)) () names with
  | Ok _ => ∀ name need, name ∈ names → need ∈ needs_of wf name → is_Some (wf !! need)
  | Err e => ∃ name need, e = ErrNonExistent name need ∧ need ∈ needs_of wf name ∧ wf !! need = None
  | Panic => False
  end.
Proof.
  induction names as [|x names IH]; cbn [foldM]; [by intros ? ? ?%elem_of_nil|].
  pose proof (needs_defined wf x (needs_of wf x)) as Hx.
  destruct (foldM (λ _, need_defined wf x) () (needs_of wf x)) as [[]|e|]; res_simpl; [|by exists x|done].
  destruct (foldM _ () names) as [u|e|]; [|done|done].
  intros name need [->|Hin]%elem_of_cons; [by apply Hx|by apply IH].
Qed.

(** The two checks of [validateDependencies]. *)
Definition validated (wf : jobs) (r : res graph_error ()) : Prop :=
  match r with
  | Ok _ => defined wf ∧ ∃ l, NoDup l ∧ (∀ x, x ∈ l ↔ x ∈ dom wf) ∧ ordered wf l
  | Err (ErrNonExistent name need) => need ∈ needs_of wf name ∧ wf !! need = None
  | Err (ErrCircular _) => defined wf ∧ ∃ x, tc (edge wf) x x
  | _ => False
  end.

Lemma validateDependencies_validated wf names names' :
  enumerates (dom wf) names → enumerates (dom wf) names' →
  validated wf (validateDependencies names names' wf).
Proof.
  intros [_ Hn] [_ Hn']. unfold validateDependencies.
  pose proof (all_needs_defined wf names) as Hd. fold (need_defined wf).
  change (foldM _ () names) with
    (foldM (λ _ name, foldM (λ _, need_defined wf name) () (needs_of wf name)) () names).
  destruct (foldM _ () names) as [[]|e|]; res_simpl; [|by destruct Hd as (? & ? & -> & ?)|done].
  assert (defined wf) as Hdef by (intros name need Hs; apply Hd; by apply Hn, elem_of_dom).
  pose proof (ordered_or_cycle wf Hdef names' Hn') as Hc.
  destruct (foldM _ _ names') as [st|e|]; res_simpl; [done|by destruct Hc as [[? ->] Hc]|done].
Qed.

(** The loop of [GetJobOrder] on the maps it starts with. *)
Lemma GetJobOrder_loop wf names zeros :
  enumerates (dom wf) names → lists_zeros zeros →
  ∃ l inDegree,
    order_loop (size wf) (build wf names).1 (build wf names).2
      (merge_sort str_le (zeros (build wf names).2)) [] = Ok l ∧
    counted wf (rem wf l) l inDegree [] ∧ ordered wf l.
Proof.
  intros Hn Hz. apply order_loop_spec; [..|done|cbn; lia].
  - intros n j. rewrite build_deps, elem_of_dependents. intros [? _]. by apply Hn.
  - intros n j Hj. rewrite build_deps, occ_dependents by apply Hn.
    by rewrite decide_True by by apply Hn.
  - assert (∀ j, rem wf [] j = length (needs_of wf j)) as Hrem.
    { intros j. unfold rem. f_equal. induction (needs_of wf j) as [|y l IH]; [done|].
      rewrite filter_cons_True; [by rewrite IH|]. by intros ?%elem_of_nil. }
    destruct (Hz (build wf names).2) as [Hz1 Hz2]. split; [|split].
    + cbn [app]. by rewrite (merge_sort_Permutation str_le).
    + intros j Hj. rewrite build_lookup by done. rewrite decide_True by done. by rewrite Hrem.
    + intros j. cbn [app]. rewrite (merge_sort_Permutation str_le), Hz2, build_lookup, Hrem by done.
      destruct (decide (j ∈ dom wf)); [|naive_solver]. unfold zlen.
      split; [intros [= ?]; split; [done|lia]|intros [_ ->]; done].
Qed.

Lemma GetJobOrder_build names zeros wf :
  GetJobOrder names zeros wf =
  (result ← order_loop (size wf) (build wf names).1 (build wf names).2
      (merge_sort str_le (zeros (build wf names).2)) [];
   if negb (zlen result =? Z.of_nat (size wf)) then Err ErrCircularOrder else Ok result).
Proof. unfold GetJobOrder. fold (build wf names). by destruct (build wf names). Qed.

(** Everything that [GetJobOrder] leaves out waits for something it leaves
    out, so nothing is left out when an order exists. *)
Lemma counted_covers wf l inDegree k :
  counted wf (rem wf l) l inDegree [] → ordered wf k → (∀ x, x ∈ k ↔ x ∈ dom wf) →
  ∀ x, x ∈ dom wf → x ∈ l.
Proof.
  intros (_ & _ & Hl) Hk Hkd. setoid_rewrite app_nil_r in Hl.
  assert (∀ x, x ∈ k → x ∈ l) as Hkl.
  { assert (∀ x, x ∈ k → x ∈ dom wf) as Hkd' by (intros x; apply Hkd). clear Hkd.
    induction k as [|x k IH] using rev_ind; [by intros ? ?%elem_of_nil|].
    apply ordered_snoc in Hk as [Hk Hx].
    assert (∀ y, y ∈ k → y ∈ l) as Hkl.
    { apply IH; [done|]. intros y Hy. apply Hkd', elem_of_app. by left. }
    intros y [Hy| ->%list_elem_of_singleton]%elem_of_app; [by apply Hkl|].
    apply Hl. split; [apply Hkd', elem_of_app; right; by left|].
    apply rem_zero. intros z Hz. by apply Hkl, Hx. }
  intros x Hx. by apply Hkl, Hkd.
Qed.

Lemma order_loop_ext fuel deps deps' inDegree queue result :
  (∀ n, default [] (deps !! n) ≡ₚ default [] (deps' !! n)) →
  order_loop fuel deps inDegree queue result = order_loop fuel deps' inDegree queue result.
Proof.
  intros Hp. revert inDegree queue result. induction fuel as [|fuel IH]; intros inDegree queue result;
    [done|]. destruct queue as [|name queue]; [done|]. cbn [order_loop].
  rewrite (sort_perm _ _ (Hp name)). destruct (foldl release _ _). apply IH.
Qed.

(** ** Properties *)

(** Checking the needs of a workflow succeeds exactly when every needed job
    exists and no job needs itself, directly or through others; otherwise the
    error names a missing need or reports a cycle, and the order in which the
    map of jobs is visited cannot turn one verdict into another. *)
Theorem validateDependencies_spec names names' wf :
  enumerates (dom wf) names → enumerates (dom wf) names' →
  match validateDependencies names names' wf with
  | Ok _ => defined wf ∧ ∀ x, ¬ tc (edge wf) x x
  | Err (ErrNonExistent name need) => edge wf name need ∧ wf !! need = None
  | Err (ErrCircular _) => defined wf ∧ ∃ x, tc (edge wf) x x
  | Err ErrCircularOrder => False
  | Panic => False
  end.
Proof.
  intros Hn Hn'. pose proof (validateDependencies_validated wf names names' Hn Hn') as Hv.
  destruct (validateDependencies names names' wf) as [u|[]|]; try done.
  destruct Hv as [Hd (l & _ & Hl & Ho)]. by apply (ordered_NoDup_acyclic wf l).
Qed.

Lemma GetJobOrder_checked names names' names'' zeros wf :
  enumerates (dom wf) names → enumerates (dom wf) names' → enumerates (dom wf) names'' →
  lists_zeros zeros →
  match GetJobOrder names zeros wf with
  | Ok l => enumerates (dom wf) l ∧ ordered wf l
  | Err e => e = ErrCircularOrder
  | Panic => False
  end ∧
  is_ok (GetJobOrder names zeros wf) = is_ok (validateDependencies names' names'' wf).
Proof.
  intros Hn Hn' Hn'' Hz. destruct (GetJobOrder_loop wf names zeros Hn Hz) as (l & inD & Hl & Hc & Ho).
  rewrite GetJobOrder_build, Hl. res_simpl.
  pose proof (validateDependencies_validated wf names' names'' Hn' Hn'') as Hv.
  assert (NoDup l ∧ ∀ x, x ∈ l → x ∈ dom wf) as [Hnd Hsub].
  { destruct Hc as (H1 & _ & H3). rewrite app_nil_r in H1. split; [done|].
    intros x Hx. apply H3. by rewrite app_nil_r. }
  assert (size (list_to_set l : gset string) = length l) as Hsz by (by apply size_list_to_set).
  destruct (Z.eqb_spec (zlen l) (Z.of_nat (size wf))) as [Hlen|Hlen]; cbn [negb is_ok]; unfold zlen in Hlen.
  - assert (list_to_set l = dom wf) as Heq.
    { apply set_subseteq_size_eq; [|rewrite Hsz, size_dom; lia].
      intros x Hx%elem_of_list_to_set. by apply Hsub. }
    assert (∀ x, x ∈ l ↔ x ∈ dom wf) as Hiff by (intros x; by rewrite <-Heq, elem_of_list_to_set).
    split; [done|]. destruct (ordered_NoDup_acyclic wf l Hiff Ho) as [Hd Ha].
    destruct (validateDependencies _ _ _) as [u|[name need|name|]|]; try done.
    + destruct Hv as [He Hne]. assert (is_Some (wf !! need)) as [? ?]; [|congruence].
      apply (Hd name); [|done]. unfold needs_of in He. destruct (wf !! name); [done|by apply elem_of_nil in He].
    + destruct Hv as [_ [x Hx]]. by destruct (Ha x).
  - split; [done|]. destruct (validateDependencies _ _ _) as [u|e|]; [|done..]. exfalso.
    destruct Hv as [_ (k & _ & Hk & Hko)].
    pose proof (counted_covers wf l inD k Hc Hko Hk) as Hcov. apply Hlen. f_equal.
    rewrite <-size_dom, <-Hsz. f_equal. apply set_eq. intros x. rewrite elem_of_list_to_set.
    split; [apply Hsub|apply Hcov].
Qed.

(** The order exists exactly for acyclic and defined needs. *)
Lemma GetJobOrder_total names zeros wf :
  enumerates (dom wf) names → lists_zeros zeros →
  match GetJobOrder names zeros wf with
  | Ok l => enumerates (dom wf) l ∧ ordered wf l
  | Err e => e = ErrCircularOrder ∧ ¬ (defined wf ∧ ∀ x, ¬ tc (edge wf) x x)
  | Panic => False
  end.
Proof.
  intros Hn Hz. destruct (GetJobOrder_checked names names names zeros wf Hn Hn Hn Hz) as [Hs He].
  pose proof (validateDependencies_spec names names wf Hn Hn) as Hv.
  destruct (GetJobOrder names zeros wf) as [l|e|]; [done| |done]. split; [done|]. intros [Hd Ha].
  destruct (validateDependencies names names wf) as [u|[name need|name|]|]; try done.
  - destruct Hv as [Hne Hnone]. assert (is_Some (wf !! need)) as [? ?]; [|congruence].
    apply (Hd name); [|done]. unfold edge, needs_of in Hne. destruct (wf !! name); [done|by apply elem_of_nil in Hne].
  - destruct Hv as [_ [x Hx]]. by apply (Ha x).
Qed.

(** The job order lists every job once, each after all the jobs it needs.
    It is found for exactly the workflows that pass the check of the
    dependencies; every other workflow is reported as circular. *)
Theorem GetJobOrder_spec names names' names'' zeros wf :
  enumerates (dom wf) names → enumerates (dom wf) names' → enumerates (dom wf) names'' →
  lists_zeros zeros →
  match GetJobOrder names zeros wf with
  | Ok l => enumerates (dom wf) l ∧ ordered wf l
  | Err e => e = ErrCircularOrder
  | Panic => False
  end ∧
  is_ok (GetJobOrder names zeros wf) = is_ok (validateDependencies names' names'' wf).
Proof. apply GetJobOrder_checked. Qed.

(** The job order does not depend on the order in which Go visits the map
    of jobs and the map of in-degrees. *)
Theorem GetJobOrder_deterministic names names' zeros zeros' wf :
  enumerates (dom wf) names → enumerates (dom wf) names' →
  lists_zeros zeros → lists_zeros zeros' →
  GetJobOrder names zeros wf = GetJobOrder names' zeros' wf.
Proof.
  intros Hn Hn' Hz Hz'. rewrite !GetJobOrder_build.
  assert ((build wf names).2 = (build wf names').2) as ->.
  { apply map_eq. intros j. by rewrite !build_lookup. }
  rewrite (sort_perm (zeros _) (zeros' (build wf names').2)).
  - rewrite (order_loop_ext _ (build wf names).1 (build wf names').1); [done|].
    intros n. rewrite !build_deps. unfold dependents. by rewrite (enumerates_perm _ _ _ Hn Hn').
  - destruct (Hz (build wf names').2) as [H1 H2], (Hz' (build wf names').2) as [H3 H4].
    apply NoDup_Permutation; [done..|]. intros x. by rewrite H2, H4.
Qed.

(** ** Witnesses *)

Definition demo_jobs : jobs :=
  {["build" := []; "deploy" := ["test"; "lint"]; "lint" := []; "test" := ["build"; "build"]]}.

Definition demo_zeros (m : gmap string Z) : list string :=
  (filter (λ kv, kv.2 = 0) (map_to_list m)).*1.

Lemma demo_zeros_lists : lists_zeros demo_zeros.
Proof.
  intros m. unfold demo_zeros. split.
  - apply NoDup_fmap_fst; [|apply NoDup_filter, NoDup_map_to_list].
    intros x y1 y2 [_ H1]%list_elem_of_filter [_ H2]%list_elem_of_filter.
    apply elem_of_map_to_list in H1, H2. congruence.
  - intros x. rewrite list_elem_of_fmap. split.
    + intros ([k z] & -> & [Hz Hk]%list_elem_of_filter). cbn in Hz. subst.
      by apply elem_of_map_to_list in Hk.
    + intros Hx. exists (x, 0). split; [done|]. apply list_elem_of_filter. split; [done|].
      by apply elem_of_map_to_list.
Qed.

Lemma demo_enumerates (wf : jobs) : enumerates (dom wf) (elements (dom wf : gset string)).
Proof. split; [apply NoDup_elements|]. intros x. apply elem_of_elements. Qed.

Example demo_order :
  GetJobOrder (elements (dom demo_jobs : gset string)) demo_zeros demo_jobs = Ok ["build"; "lint"; "test"; "deploy"].
Proof. vm_compute. reflexivity. Qed.

Lemma validateDependencies_spec_witness :
  defined demo_jobs ∧ ∀ x, ¬ tc (edge demo_jobs) x x.
Proof.
  exact (validateDependencies_spec _ _ demo_jobs (demo_enumerates _) (demo_enumerates _)).
Defined.

Lemma GetJobOrder_spec_witness : ordered demo_jobs ["build"; "lint"; "test"; "deploy"].
Proof.
  pose proof (GetJobOrder_spec _ _ _ demo_zeros demo_jobs (demo_enumerates _) (demo_enumerates _)
    (demo_enumerates _) demo_zeros_lists) as [H _].
  rewrite demo_order in H. exact (proj2 H).
Defined.

Lemma GetJobOrder_deterministic_witness :
  GetJobOrder (reverse (elements (dom demo_jobs : gset string))) (reverse ∘ demo_zeros) demo_jobs =
  Ok ["build"; "lint"; "test"; "deploy"].
Proof.
  rewrite <-demo_order. apply GetJobOrder_deterministic.
  - split; [rewrite reverse_Permutation; apply NoDup_elements|]. intros x.
    by rewrite elem_of_reverse, elem_of_elements.
  - apply demo_enumerates.
  - intros m. destruct (demo_zeros_lists m) as [H1 H2]. unfold compose. split; [by rewrite reverse_Permutation|].
    intros x. by rewrite elem_of_reverse.
  - exact demo_zeros_lists.
Defined.
