(* ===== verification/Workflow.v ===== *)
(** * Workflow definitions (kailab-control/internal/workflow/parser.go)

    The data a workflow file is parsed to, the checks of [Validate], the
    triggers a workflow names and the parts of the YAML decoding that the
    package itself writes: the short form of [on] and the keys of a matrix.
    The YAML library is not modelled.

    Names and texts are strings; a map is nil exactly when it is empty, an
    [option] of a list tells a nil slice from an empty one where the code
    does. *)

From S2P Require Import Prelude Json GoStrings Float64 Expr JobGraph.
Local Open Scope Z_scope.

(** ** Data *)

Record PushTrigger := mk_PushTrigger {
  pt_Branches : list string; pt_BranchesIgnore : list string;
  pt_Tags : list string; pt_TagsIgnore : list string;
  pt_Paths : list string; pt_PathsIgnore : list string }.
Record PullRequestTrigger := mk_PullRequestTrigger {
  pr_Branches : list string; pr_BranchesIgnore : list string;
  pr_Paths : list string; pr_PathsIgnore : list string; pr_Types : list string }.
Record ReviewTrigger := mk_ReviewTrigger { rv_Types : list string }.
Record DispatchInput := mk_DispatchInput {
  di_Description : string; di_Required : bool; di_Default : string; di_Type : string;
  di_Options : list string }.
Record WorkflowDispatchTrigger := mk_WorkflowDispatchTrigger { wd_Inputs : gmap string DispatchInput }.
Record WorkflowCallInput := mk_WorkflowCallInput {
  ci_Description : string; ci_Required : bool; ci_Default : string; ci_Type : string }.
Record WorkflowCallOutput := mk_WorkflowCallOutput { co_Description : string; co_Value : string }.
Record WorkflowCallSecret := mk_WorkflowCallSecret { cs_Description : string; cs_Required : bool }.
Record WorkflowCallTrigger := mk_WorkflowCallTrigger {
  wc_Inputs : gmap string WorkflowCallInput; wc_Outputs : gmap string WorkflowCallOutput;
  wc_Secrets : gmap string WorkflowCallSecret }.
Record ScheduleTrigger := mk_ScheduleTrigger { st_Cron : string }.

Record WorkflowTrigger := mk_WorkflowTrigger {
  on_Push : option PushTrigger;
  on_PullRequest : option PullRequestTrigger;
  on_Review : option ReviewTrigger;
  on_WorkflowDispatch : option WorkflowDispatchTrigger;
  on_WorkflowCall : option WorkflowCallTrigger;
  on_Schedule : list ScheduleTrigger }.

Record Step := mk_Step {
  step_ID : string; step_Name : string; step_Uses : string; step_Run : string; step_Shell : string;
  step_With : gmap string string; step_Env : gmap string string; step_If : string;
  step_ContinueOnError : bool; step_TimeoutMinutes : Z; step_WorkingDirectory : string }.
Record Credentials := mk_Credentials { cr_Username : string; cr_Password : string }.
(** Services and the job's container have the same fields. *)
Record Service := mk_Service {
  sv_Image : string; sv_Credentials : option Credentials; sv_Env : gmap string string;
  sv_Ports : list string; sv_Volumes : list string; sv_Options : string }.
Abbreviation matrix_values := (gmap string value).
Record Matrix := mk_Matrix {
  mx_Include : list matrix_values;
  mx_Exclude : list matrix_values;
  mx_Values : gmap string (list value) }.
Record Strategy := mk_Strategy {
  sg_Matrix : Matrix; sg_FailFast : option bool; sg_MaxParallel : Z }.
Record RunDefaults := mk_RunDefaults { rd_Shell : string; rd_WorkingDirectory : string }.
Record Defaults := mk_Defaults { df_Run : option RunDefaults }.
Record Concurrency := mk_Concurrency { cc_Group : string; cc_CancelInProgress : bool }.
Record JobSecrets := mk_JobSecrets { js_Inherit : bool; js_Values : gmap string string }.

Record Job := mk_WfJob {
  j_Name : string;
  j_RunsOn : option (list string);
  j_Uses : string;
  j_With : gmap string string;
  j_Needs : list string;
  j_If : string;
  j_Steps : option (list Step);
  j_Env : gmap string string;
  j_Outputs : gmap string string;
  j_Secrets : JobSecrets;
  j_Services : gmap string Service;
  j_Container : option Service;
  j_Strategy : option Strategy;
  j_Concurrency : option Concurrency;
  j_Timeout : Z;
  j_ContinueOn : option bool;
  j_Permissions : gmap string string }.

Record Workflow := mk_Workflow {
  wf_Name : string;
  wf_On : WorkflowTrigger;
  wf_Env : gmap string string;
  wf_Jobs : gmap string Job;
  wf_Defaults : option Defaults;
  wf_Concurrency : option Concurrency;
  wf_Permissions : gmap string string }.

Definition no_trigger : WorkflowTrigger := mk_WorkflowTrigger None None None None None [].

(** ** Decoding *)

(** The short form of [on]: a list of events. *)
Definition simple_event (t : WorkflowTrigger) (event : string) : WorkflowTrigger :=
  let '(mk_WorkflowTrigger push pr rv wd wc sch) := t in
  if decide (event = "push") then
    mk_WorkflowTrigger (Some (mk_PushTrigger [] [] [] [] [] [])) pr rv wd wc sch
  else if decide (event = "pull_request") then
    mk_WorkflowTrigger push (Some (mk_PullRequestTrigger [] [] [] [] [])) rv wd wc sch
  else if decide (event = "review") then mk_WorkflowTrigger push pr (Some (mk_ReviewTrigger [])) wd wc sch
  else if decide (event = "workflow_dispatch") then
    mk_WorkflowTrigger push pr rv (Some (mk_WorkflowDispatchTrigger ∅)) wc sch
  else if decide (event = "workflow_call") then
    mk_WorkflowTrigger push pr rv wd (Some (mk_WorkflowCallTrigger ∅ ∅ ∅)) sch
  else t.
Definition parseSimple (t : WorkflowTrigger) (events : list string) : WorkflowTrigger :=
  foldl simple_event t events.

Definition map_value (v : value) : option matrix_values :=
  match v with VMap l => Some (list_to_map ((λ kv, (string_of kv.1, kv.2)) <$> l)) | _ => None end.
Definition maps_of (v : value) : list matrix_values :=
  match v with VArr l => omap map_value l | _ => [] end.
(** The keys of a matrix, decoded to values; every list but [include] and
    [exclude] is a dimension. *)
Definition matrix_key (m : Matrix) (kv : string * value) : Matrix :=
  let '(mk_Matrix inc exc values) := m in
  let '(key, val) := kv in
  if decide (key = "include") then mk_Matrix (inc ++ maps_of val) exc values
  else if decide (key = "exclude") then mk_Matrix inc (exc ++ maps_of val) values
  else match val with
       | VArr arr => mk_Matrix inc exc (<[key := arr]> values)
       | _ => m
       end.
(** [raw] in the order in which the map is visited. *)
Definition Matrix_UnmarshalYAML (raw : list (string * value)) : Matrix :=
  foldl matrix_key (mk_Matrix [] [] ∅) raw.

(** ** Validation *)

Definition has_suffix (p s : string) : bool := has_suffix_b (bytes_of p) (bytes_of s).
Definition has_prefix (p s : string) : bool := has_prefix_b (bytes_of p) (bytes_of s).

Definition IsReusableWorkflowCall (j : Job) : bool :=
  (negb (bool_decide (j_Uses j = "")) && has_suffix ".yml" (j_Uses j)) || has_suffix ".yaml" (j_Uses j).

Inductive wf_error :=
| ErrNoName
| ErrNoJobs
| ErrUsesAndSteps (job : string)
| ErrNoRunsOn (job : string)
| ErrNoSteps (job : string)
| ErrStepEmpty (job : string) (step : Z)
| ErrStepBoth (job : string) (step : Z)
| ErrGraph (e : graph_error).

Definition Step_Validate (job : string) (index : Z) (s : Step) : res wf_error () :=
  _ ← guard_err (bool_decide (step_Uses s = "") && bool_decide (step_Run s = "")) (ErrStepEmpty job (index + 1));
  guard_err (negb (bool_decide (step_Uses s = "")) && negb (bool_decide (step_Run s = ""))) (ErrStepBoth job (index + 1)).
Fixpoint steps_validate (job : string) (i : Z) (l : list Step) : res wf_error () :=
  match l with
  | [] => Ok ()
  | s :: l => _ ← Step_Validate job i s; steps_validate job (i + 1) l
  end.
Definition steps_of (j : Job) : list Step := default [] (j_Steps j).
Definition runs_on (j : Job) : list string := default [] (j_RunsOn j).
Definition Job_Validate (name : string) (j : Job) : res wf_error () :=
  if IsReusableWorkflowCall j then guard_err (0 <? zlen (steps_of j)) (ErrUsesAndSteps name)
  else
    _ ← guard_err (zlen (runs_on j) =? 0) (ErrNoRunsOn name);
    _ ← guard_err (zlen (steps_of j) =? 0) (ErrNoSteps name);
    steps_validate name 0 (steps_of j).

(** The names of the jobs in the orders in which the three loops visit them. *)
Definition Validate (names names' names'' : list string) (w : Workflow) : res wf_error () :=
  _ ← guard_err (bool_decide (wf_Name w = "")) ErrNoName;
  _ ← guard_err (Z.of_nat (size (wf_Jobs w)) =? 0) ErrNoJobs;
  _ ← foldM (λ _ name, match wf_Jobs w !! name with Some j => Job_Validate name j | None => Ok () end) () names;
  map_err ErrGraph (validateDependencies names' names'' (j_Needs <$> wf_Jobs w)).

(** ** Names *)

Definition GetTriggerTypes (w : Workflow) : list string :=
  let t := wf_On w in
  (if on_Push t is Some _ then ["push"] else []) ++
  (if on_PullRequest t is Some _ then ["pull_request"] else []) ++
  (if on_Review t is Some _ then ["review"] else []) ++
  (if on_WorkflowDispatch t is Some _ then ["workflow_dispatch"] else []) ++
  (if on_WorkflowCall t is Some _ then ["workflow_call"] else []) ++
  (if 0 <? zlen (on_Schedule t) then ["schedule"] else []).

Definition Step_GetDisplayName (index : Z) (s : Step) : string :=
  if decide (step_Name s ≠ "") then step_Name s
  else if decide (step_Uses s ≠ "") then step_Uses s
  else if decide (step_Run s ≠ "") then
    let run := TrimSpace (bytes_of (step_Run s)) in
    let run := if 50 <? zlen run then take 47 run ++ bytes_of "..." else run in
    string_of (bytes_of "Run " ++ run)
  else string_of (bytes_of "Step " ++ int_lit (index + 1)).
Definition GetJobDisplayName (key : string) (j : Job) : string :=
  if decide (j_Name j ≠ "") then j_Name j else key.
