(* ===== verification/Trigger.v ===== *)
(** * Matching of triggers (kailab-control/internal/workflow/trigger.go)

    Which events start a workflow: the filters of its triggers on branches,
    tags and paths, and the glob patterns they are made of
    ([path/filepath.Match] of the standard library on Unix included). *)

From S2P Require Import Prelude Json GoStrings Float64 Expr JobGraph Workflow.
Local Open Scope Z_scope.

(** ** path/filepath.Match *)

(** [utf8.DecodeRuneInString] of a text that is not empty: the rune and its
    length; an invalid byte is [utf8.RuneError] of length one. *)
Definition rune_error : Z := 0xFFFD.
Definition rune_value (r : bytes) : Z :=
  match r with
  | [] => 0
  | b :: t =>
    foldl (λ c x, Z.lor (Z.shiftl c 6) (Z.land (int_of_byte x) 0x3F))
      (Z.land (int_of_byte b) (Z.shiftr 0x7F (zlen r))) t
  end.
Definition decode_rune (s : bytes) : Z * nat :=
  match s with
  | [] => (rune_error, 0%nat)
  | b :: _ =>
    if int_of_byte b <? 0x80 then (int_of_byte b, 1%nat)
    else match rune_size s with
         | Some n => (rune_value (take n s), n)
         | None => (rune_error, 1%nat)
         end
  end.

Definition sep : byte := Byte.x2f.
Definition star : byte := Byte.x2a.
Definition quest : byte := Byte.x3f.

(** One character of a class, escaped or not; [None] is [ErrBadPattern]. *)
Definition getEsc (chunk : bytes) : option (Z * bytes) :=
  match chunk with
  | [] => None
  | b :: r =>
    if bool_decide (b = Byte.x2d) || bool_decide (b = Byte.x5d) then None
    else
      let chunk := if bool_decide (b = backslash) then r else chunk in
      if bool_decide (chunk = []) then None
      else
        let '(c, n) := decode_rune chunk in
        if (c =? rune_error) && (n =? 1)%nat then None
        else
          let nchunk := drop n chunk in
          if bool_decide (nchunk = []) then None else Some (c, nchunk)
  end.

(** The ranges of a class up to its closing bracket: is the rune in one of
    them?  Every range takes at least one byte. *)
Fixpoint class_loop (fuel : nat) (r : Z) (nrange : nat) (mtch : bool) (chunk : bytes) : option (bool * bytes) :=
  match fuel with
  | O => None
  | S fuel =>
    if starts_with Byte.x5d chunk && (0 <? nrange)%nat then Some (mtch, drop 1 chunk)
    else
      '(lo, chunk) ← getEsc chunk;
      '(hi, chunk) ← (if starts_with Byte.x2d chunk then getEsc (drop 1 chunk) else Some (lo, chunk));
      class_loop fuel r (S nrange) (mtch || ((lo <=? r) && (r <=? hi))) chunk
  end.

(** [matchChunk]: the text behind a match of the chunk at the head of the text.
    A bad pattern is no match; every round takes at least one byte of the
    chunk. *)
Fixpoint matchChunk_loop (fuel : nat) (chunk s : bytes) : option bytes :=
  match fuel with
  | O => None
  | S fuel =>
    match chunk, s with
    | [], _ => Some s
    | _ :: _, [] => None
    | c :: chunk', x :: s' =>
      if bool_decide (c = Byte.x5b) then
        let '(r, n) := decode_rune s in
        let negated := starts_with Byte.x5e chunk' in
        '(mtch, chunk) ← class_loop (S (length chunk')) r 0 false (if negated then drop 1 chunk' else chunk');
        if eqb mtch negated then None else matchChunk_loop fuel chunk (drop n s)
      else if bool_decide (c = quest) then
        if bool_decide (x = sep) then None
        else matchChunk_loop fuel chunk' (drop (decode_rune s).2 s)
      else
        let chunk := if bool_decide (c = backslash) then chunk' else chunk in
        match chunk with
        | [] => None
        | c :: chunk => if bool_decide (c = x) then matchChunk_loop fuel chunk s' else None
        end
    end
  end.
Definition matchChunk (chunk s : bytes) : option bytes := matchChunk_loop (S (length chunk)) chunk s.

(** [scanChunk] behind the stars: the text up to the next star outside of a
    class. *)
Fixpoint chunk_end (inrange : bool) (p : bytes) : bytes * bytes :=
  match p with
  | [] => ([], [])
  | b :: r =>
    if bool_decide (b = backslash) then
      match r with
      | [] => ([b], [])
      | c :: r => let '(chunk, rest) := chunk_end inrange r in (b :: c :: chunk, rest)
      end
    else if bool_decide (b = star) && negb inrange then ([], p)
    else
      let inrange := if bool_decide (b = Byte.x5b) then true
                     else if bool_decide (b = Byte.x5d) then false else inrange in
      let '(chunk, rest) := chunk_end inrange r in (b :: chunk, rest)
  end.
Fixpoint drop_stars (p : bytes) : bool * bytes :=
  match p with
  | b :: r => if bool_decide (b = star) then (true, (drop_stars r).2) else (false, p)
  | [] => (false, [])
  end.
Definition scanChunk (p : bytes) : bool * bytes * bytes :=
  let '(st, p) := drop_stars p in
  let '(chunk, rest) := chunk_end false p in (st, chunk, rest).

(** The loop behind a star: the first match further on, before a separator was
    skipped; the last chunk has to reach the end of the text. *)
Fixpoint star_loop (chunk : bytes) (is_last : bool) (name : bytes) : option bytes :=
  match name with
  | [] => None
  | b :: name =>
    if bool_decide (b = sep) then None
    else match matchChunk chunk name with
         | Some t => if is_last && negb (bool_decide (t = [])) then star_loop chunk is_last name else Some t
         | None => star_loop chunk is_last name
         end
  end.

(** Every round takes at least one byte of the pattern. *)
Fixpoint Match_loop (fuel : nat) (pattern name : bytes) : bool :=
  match pattern with
  | [] => bool_decide (name = [])
  | _ =>
    match fuel with
    | O => false
    | S fuel =>
      let '(st, chunk, pattern) := scanChunk pattern in
      if st && bool_decide (chunk = []) then negb (bool_decide (sep ∈ name))
      else
        let further := if st : bool then star_loop chunk (bool_decide (pattern = [])) name else None in
        let next := match matchChunk chunk name with
                    | Some t => if bool_decide (t = []) || negb (bool_decide (pattern = [])) then Some t else further
                    | None => further
                    end in
        match next with
        | Some name => Match_loop fuel pattern name
        | None => false
        end
    end
  end.
(** [filepath.Match], with a bad pattern no match. *)
Definition filepath_Match (pattern name : bytes) : bool := Match_loop (S (length pattern)) pattern name.

Example match_1 : filepath_Match (bytes_of "release-*") (bytes_of "release-1.2") = true. Proof. done. Qed.
Example match_2 : filepath_Match (bytes_of "*") (bytes_of "feature/x") = false. Proof. done. Qed.
Example match_3 : filepath_Match (bytes_of "v[0-9]*.?x") (bytes_of "v12.é.yx") = true. Proof. done. Qed.

(** ** Patterns *)

(** [strings.Split] at a text that is not empty. *)
Fixpoint Split_loop (fuel : nat) (p s : bytes) : list bytes :=
  match fuel with
  | O => [s]
  | S fuel => match cut p s with
              | Some (before, after) => before :: Split_loop fuel p after
              | None => [s]
              end
  end.
Definition Split (s p : bytes) : list bytes := Split_loop (length s) p s.

Definition slash : bytes := [sep].
Definition doublestar : bytes := bytes_of "**".
(** The last part of a pattern that has several. *)
Definition last_part (parts : list bytes) : option bytes :=
  match parts with _ :: _ :: _ => last parts | _ => None end.

Definition matchDoubleStarPattern (name pattern : bytes) : bool :=
  let parts := Split pattern doublestar in
  if (length parts =? 1)%nat then filepath_Match pattern name
  else
    let first := default [] (head parts) in
    let prefix := trim_suffix slash first in
    if negb (bool_decide (first = [])) && negb (bool_decide (prefix = [])) && negb (has_prefix_b prefix name) then false
    else
      let name := if bool_decide (first = []) then name else trim_prefix slash (trim_prefix prefix name) in
      match last_part parts with
      | Some l =>
        let suffix := trim_prefix slash l in
        bool_decide (l = []) || bool_decide (suffix = []) || has_suffix_b suffix name
      | None => true
      end.

Definition matchPattern (name pattern : bytes) : bool :=
  if contains_b doublestar pattern then matchDoubleStarPattern name pattern
  else filepath_Match pattern name.
Definition matchPatterns (name : string) (patterns : list string) : bool :=
  existsb (λ p, matchPattern (bytes_of name) (bytes_of p)) patterns.

Definition matchDoubleStarPath (path pattern : bytes) : bool :=
  let parts := Split pattern doublestar in
  let first := default [] (head parts) in
  let prefix := trim_suffix slash first in
  if negb (bool_decide (first = [])) && negb (has_prefix_b prefix path) then false
  else
    let path := if bool_decide (first = []) then path else trim_prefix slash (trim_prefix prefix path) in
    match last_part parts with
    | Some l =>
      let suffix := trim_prefix slash l in
      if bool_decide (l = []) then true
      else if has_prefix_b (bytes_of "*.") suffix then has_suffix_b (trim_prefix [star] suffix) path
      else has_suffix_b suffix path
    | None => true
    end.

Definition matchPathPattern (path pattern : bytes) : bool :=
  let path := trim_prefix slash path in
  let pattern := trim_prefix slash pattern in
  if contains_b doublestar pattern then matchDoubleStarPath path pattern
  else
    filepath_Match pattern path ||
    (has_suffix_b (bytes_of "/*") pattern &&
     has_prefix_b (trim_suffix (bytes_of "/*") pattern ++ slash) path).
Definition path_matches (patterns : list string) (file : string) : bool :=
  existsb (λ p, matchPathPattern (bytes_of file) (bytes_of p)) patterns.
Definition matchAnyPath (changedFiles patterns : list string) : bool :=
  existsb (path_matches patterns) changedFiles.
Definition matchAllPaths (changedFiles patterns : list string) : bool :=
  forallb (path_matches patterns) changedFiles.

(** ** Events *)

(** The values of a payload as the code tells them apart: a text, a slice of
    texts, anything else. *)
Inductive payload_value := PString (s : string) | PStrings (l : list string) | POther.
Record TriggerEvent := mk_TriggerEvent {
  te_Type : string; te_Ref : string; te_SHA : string; te_Payload : gmap string payload_value }.

(** [if len(l) > 0 && !matches { return false }] and its negation. *)
Definition wanted (l : list string) (matches : list string → bool) : bool :=
  match l with [] => true | _ => matches l end.
Definition unwanted (l : list string) (matches : list string → bool) : bool :=
  match l with [] => true | _ => negb (matches l) end.

Definition paths_pass (event : TriggerEvent) (paths pathsIgnore : list string) : bool :=
  match te_Payload event !! "changed_files" with
  | Some (PStrings files) => wanted paths (matchAnyPath files) && unwanted pathsIgnore (matchAllPaths files)
  | _ => true
  end.

Definition trim_ref (p ref : string) : string := string_of (trim_prefix (bytes_of p) (bytes_of ref)).
Definition matchPushTrigger (w : Workflow) (event : TriggerEvent) : bool :=
  match on_Push (wf_On w) with
  | None => false
  | Some push =>
    let ref := te_Ref event in
    let isBranch := has_prefix "refs/heads/" ref in
    let isTag := has_prefix "refs/tags/" ref in
    let name := if isBranch then trim_ref "refs/heads/" ref
                else if isTag then trim_ref "refs/tags/" ref else "" in
    (if isTag then
       wanted (pt_Tags push) (matchPatterns name) && unwanted (pt_TagsIgnore push) (matchPatterns name) &&
       match pt_Tags push, pt_TagsIgnore push with
       | [], [] => match pt_Branches push, pt_BranchesIgnore push with [], [] => true | _, _ => false end
       | _, _ => true
       end
     else true) &&
    (if isBranch then
       wanted (pt_Branches push) (matchPatterns name) && unwanted (pt_BranchesIgnore push) (matchPatterns name)
     else true) &&
    paths_pass event (pt_Paths push) (pt_PathsIgnore push)
  end.

(** The action of a review event. *)
Definition review_action (event : TriggerEvent) : option string :=
  if decide (te_Type event = "review_created") then Some "opened"
  else if decide (te_Type event = "review_updated") then Some "synchronize"
  else None.
Definition type_listed (types : list string) (action : string) : bool :=
  match types with [] => true | _ => existsb (λ t, bool_decide (t = action)) types end.

Definition matchReviewTrigger (w : Workflow) (event : TriggerEvent) : bool :=
  match on_Review (wf_On w), review_action event with
  | Some review, Some action => type_listed (rv_Types review) action
  | _, _ => false
  end.
Definition matchPullRequestTrigger (w : Workflow) (event : TriggerEvent) : bool :=
  match on_PullRequest (wf_On w), review_action event with
  | Some pr, Some action =>
    type_listed (pr_Types pr) action &&
    match te_Payload event !! "target_branch" with
    | Some (PString b) =>
      bool_decide (b = "") || (wanted (pr_Branches pr) (matchPatterns b) && unwanted (pr_BranchesIgnore pr) (matchPatterns b))
    | _ => true
    end &&
    paths_pass event (pr_Paths pr) (pr_PathsIgnore pr)
  | _, _ => false
  end.

Definition MatchTrigger (w : Workflow) (event : TriggerEvent) : bool :=
  if decide (te_Type event = "push") then matchPushTrigger w event
  else if decide (te_Type event = "review_created" ∨ te_Type event = "review_updated") then
    matchReviewTrigger w event || matchPullRequestTrigger w event
  else if decide (te_Type event = "workflow_dispatch") then bool_decide (is_Some (on_WorkflowDispatch (wf_On w)))
  else if decide (te_Type event = "schedule") then 0 <? zlen (on_Schedule (wf_On w))
  else if decide (te_Type event = "workflow_call") then bool_decide (is_Some (on_WorkflowCall (wf_On w)))
  else false.

Definition FilterWorkflowsByEvent (workflows : list Workflow) (event : TriggerEvent) : list Workflow :=
  filter (λ w, MatchTrigger w event = true) workflows.

Example path_1 : matchPathPattern (bytes_of "src/a/b.go") (bytes_of "src/**/*.go") = true. Proof. done. Qed.
Example path_2 : matchPathPattern (bytes_of "docs/a/b.md") (bytes_of "docs/*") = true. Proof. done. Qed.
(** No boundary is checked behind the prefix. *)
Example path_3 : matchPathPattern (bytes_of "srcs.txt") (bytes_of "src/**") = true. Proof. done. Qed.
(** The text behind the last double star is taken literally. *)
Example pattern_1 : matchPattern (bytes_of "release/a/v1") (bytes_of "release/**/v*") = false. Proof. done. Qed.

(** ** Globs

    What a pattern without classes and escapes means: a star is any text and a
    question mark one character, both without a slash. *)

Inductive glob : bytes → bytes → Prop :=
| glob_nil : glob [] []
| glob_byte b p s : b ≠ star → b ≠ quest → glob p s → glob (b :: p) (b :: s)
| glob_quest b p s : b ≠ sep → glob p s → glob (quest :: p) (b :: s)
| glob_stop p s : glob p s → glob (star :: p) s
| glob_star b p s : b ≠ sep → glob (star :: p) s → glob (star :: p) (b :: s).

Definition plain_byte (b : byte) : bool := negb (bool_decide (b = Byte.x5b)) && negb (bool_decide (b = backslash)).
Definition plain (p : bytes) : bool := forallb plain_byte p.

(** A pattern character without stars against one of the text. *)
Definition fits (c b : byte) : Prop := (c = quest ∧ b ≠ sep) ∨ (c ≠ quest ∧ b = c).

Section globs.
Implicit Types (p s t u v chunk rest : bytes).

Lemma plain_cons b p : plain (b :: p) = true → b ≠ Byte.x5b ∧ b ≠ backslash ∧ plain p = true.
Proof.
  unfold plain. cbn [forallb]. intros [[H1 H2]%andb_prop H3]%andb_prop.
  apply negb_true_iff in H1, H2. apply bool_decide_eq_false in H1, H2. done.
Qed.

Lemma decode_ascii b s : int_of_byte b < 128 → decode_rune (b :: s) = (int_of_byte b, 1%nat).
Proof. intros Hb. unfold decode_rune. by rewrite (proj2 (Z.ltb_lt _ _)) by lia. Qed.

Lemma matchChunk_loop_plain n chunk s : plain chunk = true → is_ascii s = true → (length chunk < n)%nat →
  ∀ t, matchChunk_loop n chunk s = Some t ↔ ∃ u, s = u ++ t ∧ Forall2 fits chunk u.
Proof.
  revert n s. induction chunk as [|c chunk IH]; intros n s Hp Ha Hn t; (destruct n as [|n]; [lia|]).
  - cbn. split; [intros [= ->]; exists []; by constructor|]. by intros (u & -> & ->%Forall2_nil_inv_l).
  - apply plain_cons in Hp as (H1 & H2 & Hp). cbn [length] in Hn. destruct s as [|x s].
    { cbn. split; [done|]. intros (u & Hu & HF). apply Forall2_cons_inv_l in HF as (y & u' & _ & _ & ->). done. }
    unfold is_ascii in Ha. cbn [forallb] in Ha. apply andb_prop in Ha as [Hx Ha].
    cbn [matchChunk_loop]. rewrite bool_decide_eq_false_2 by done.
    assert (∀ u, x :: s = u ++ t ∧ Forall2 fits (c :: chunk) u ↔
      fits c x ∧ ∃ u', u = x :: u' ∧ s = u' ++ t ∧ Forall2 fits chunk u') as Hcons.
    { intros u. split.
      - intros [E HF]. apply Forall2_cons_inv_l in HF as (y & u' & Hy & HF & ->). injection E as <- ->. eauto.
      - intros (Hf & u' & -> & -> & HF). split; [done|]. by constructor. }
    setoid_rewrite Hcons. unfold fits. case_bool_decide as Hq.
    + case_bool_decide as Hs; [naive_solver|]. rewrite decode_ascii by lia. cbn [snd drop]. rewrite drop_0, IH by (done || lia).
      naive_solver.
    + rewrite (bool_decide_eq_false_2 (c = backslash)) by done. case_bool_decide as Hc; [|naive_solver].
      rewrite IH by (done || lia). naive_solver.
Qed.
Lemma matchChunk_plain chunk s t : plain chunk = true → is_ascii s = true →
  matchChunk chunk s = Some t ↔ ∃ u, s = u ++ t ∧ Forall2 fits chunk u.
Proof. intros. apply matchChunk_loop_plain; [done..|lia]. Qed.

Definition starless (chunk : bytes) : Prop := star ∉ chunk.
Lemma chunk_end_plain p : plain p = true → ∃ chunk rest,
  chunk_end false p = (chunk, rest) ∧ p = chunk ++ rest ∧ starless chunk ∧ (rest = [] ∨ ∃ r, rest = star :: r).
Proof.
  induction p as [|b p IH]; intros Hp.
  - exists [], []. split; [done|]. split; [done|]. split; [apply not_elem_of_nil|by left].
  - apply plain_cons in Hp as (H1 & H2 & Hp). cbn [chunk_end]. rewrite (bool_decide_eq_false_2 (b = backslash)) by done.
    destruct (decide (b = star)) as [->|Hb].
    + exists [], (star :: p). rewrite bool_decide_eq_true_2 by done. cbn. split; [done|]. split; [done|].
      split; [apply not_elem_of_nil|right; eauto].
    + rewrite (bool_decide_eq_false_2 (b = star)) by done. cbn [andb]. rewrite (bool_decide_eq_false_2 (b = Byte.x5b)) by done.
      assert ((if bool_decide (b = Byte.x5d) then false else false) = false) as -> by (by destruct (bool_decide _)).
      destruct (IH Hp) as (chunk & rest & E & -> & Hs & Hr). rewrite E. exists (b :: chunk), rest.
      split; [done|]. split; [done|]. split; [|done]. unfold starless. rewrite not_elem_of_cons. done.
Qed.

Lemma drop_stars_spec p : ∃ n p', p = replicate n star ++ p' ∧ drop_stars p = (bool_decide (0 < n)%nat, p') ∧
  starts_with star p' = false.
Proof.
  induction p as [|b p IH]; [by exists 0%nat, []|]. cbn [drop_stars]. case_bool_decide as Hb.
  - destruct IH as (n & p' & -> & -> & Hs). exists (S n), p'. subst b. cbn. rewrite bool_decide_eq_true_2 by lia. done.
  - exists 0%nat, (b :: p). split; [done|]. split; [done|]. cbn. by apply bool_decide_eq_false.
Qed.

(** *** The declarative side *)

Lemma glob_fits chunk rest s : starless chunk →
  glob (chunk ++ rest) s ↔ ∃ u t, s = u ++ t ∧ Forall2 fits chunk u ∧ glob rest t.
Proof.
  revert s. induction chunk as [|c chunk IH]; intros s Hs; cbn [app].
  - split; [intros Hg; exists [], s; eauto|]. by intros (u & t & -> & ->%Forall2_nil_inv_l & Hg).
  - unfold starless in Hs. rewrite not_elem_of_cons in Hs. destruct Hs as [Hc Hs]. split.
    + intros Hg. inversion Hg as [|b p s' H1 H2 Hg' E|b p s' H1 Hg' E|p s' Hg'|b p s' H1 Hg']; subst; try done.
      * apply IH in Hg' as (u & t & -> & HF & Hg'); [|done]. exists (c :: u), t. split; [done|]. split; [|done].
        constructor; [right; done|done].
      * apply IH in Hg' as (u & t & -> & HF & Hg'); [|done]. exists (b :: u), t. split; [done|]. split; [|done].
        constructor; [left; done|done].
    + intros (u & t & -> & HF & Hg). apply Forall2_cons_inv_l in HF as (b & u' & Hf & HF & ->). cbn [app].
      assert (glob (chunk ++ rest) (u' ++ t)) as Hg' by (apply IH; eauto).
      destruct Hf as [[-> Hb]|[Hq ->]]; [by apply glob_quest|by apply glob_byte].
Qed.

Lemma glob_star_iff p s : glob (star :: p) s ↔ ∃ u t, s = u ++ t ∧ sep ∉ u ∧ glob p t.
Proof.
  split.
  - intros Hg. remember (star :: p) as q eqn:Eq. induction Hg; simplify_eq.
    + exists [], s. split; [done|]. split; [apply not_elem_of_nil|done].
    + destruct (IHHg eq_refl) as (u & t & -> & Hu & Ht). exists (b :: u), t. split; [done|].
      rewrite not_elem_of_cons. split; [|done]. split; [congruence|done].
  - intros (u & t & -> & Hu & Hg). induction u as [|b u IH]; [by apply glob_stop|].
    rewrite not_elem_of_cons in Hu. destruct Hu as [Hb Hu]. apply glob_star; [congruence|by apply IH].
Qed.

Lemma glob_stars n p s : glob (replicate (S n) star ++ p) s ↔ glob (star :: p) s.
Proof.
  induction n as [|n IH]; [done|]. rewrite <-IH. cbn [replicate app]. rewrite (glob_star_iff (star :: _)). split.
  - intros (u & t & -> & Hu & Hg). apply glob_star_iff in Hg as (u' & t' & -> & Hu' & Hg).
    apply glob_star_iff. exists (u ++ u'), t'. rewrite app_assoc. split; [done|]. split; [|done]. set_solver.
  - intros Hg. exists [], s. split; [done|]. split; [apply not_elem_of_nil|done].
Qed.
End globs.

(** *** The algorithm finds what the pattern means *)

Section search.
Variable chunk : bytes.
Hypothesis Hplain : plain chunk = true.

Lemma fits_length u : Forall2 fits chunk u → length u = length chunk.
Proof. intros HF. symmetry. by eapply Forall2_length. Qed.

(** The loop behind a star finds a match further on exactly when there is one
    before the next slash; for a last chunk one that reaches the end. *)
Lemma star_loop_sound is_last s t : is_ascii s = true → star_loop chunk is_last s = Some t →
  (is_last = true → t = []) ∧ ∃ u v, s = u ++ v ++ t ∧ sep ∉ u ∧ Forall2 fits chunk v.
Proof.
  induction s as [|b s IH]; [done|]. unfold is_ascii. cbn [forallb star_loop]. intros [_ Ha]%andb_prop.
  case_bool_decide as Hb; [done|].
  assert (sep ∉ [b]) as Hsb by set_solver.
  destruct (matchChunk chunk s) as [t'|] eqn:E.
  - destruct (is_last && negb (bool_decide (t' = []))) eqn:El.
    + intros Ht. destruct (IH Ha Ht) as (H1 & u & v & -> & Hu & HF). split; [done|].
      exists (b :: u), v. split; [done|]. split; [|done]. rewrite not_elem_of_cons. split; [congruence|done].
    + intros [= ->]. split.
      { intros ->. cbn in El. apply negb_false_iff, bool_decide_eq_true in El. done. }
      apply matchChunk_plain in E as (v & -> & HF); [|done..]. exists [b], v. done.
  - intros Ht. destruct (IH Ha Ht) as (H1 & u & v & -> & Hu & HF). split; [done|].
    exists (b :: u), v. split; [done|]. split; [|done]. rewrite not_elem_of_cons. split; [congruence|done].
Qed.

(** A match at the head or behind it, whichever the loops try first. *)
Definition first_match (is_last : bool) (s : bytes) : option bytes :=
  match matchChunk chunk s with
  | Some t => if bool_decide (t = []) || negb is_last then Some t else star_loop chunk is_last s
  | None => star_loop chunk is_last s
  end.
Lemma star_loop_first is_last b s : b ≠ sep → star_loop chunk is_last (b :: s) = first_match is_last s.
Proof.
  intros Hb. cbn [star_loop]. rewrite bool_decide_eq_false_2 by done. unfold first_match.
  destruct (matchChunk chunk s) as [t|]; [|done].
  destruct is_last; cbn [andb negb]; rewrite ?orb_true_r, ?orb_false_r; [|done].
  by destruct (bool_decide (t = [])).
Qed.
Lemma first_match_sound is_last s t : is_ascii s = true → first_match is_last s = Some t →
  (is_last = true → t = []) ∧ ∃ u v, s = u ++ v ++ t ∧ sep ∉ u ∧ Forall2 fits chunk v.
Proof.
  intros Ha. unfold first_match. destruct (matchChunk chunk s) as [t'|] eqn:E; [|by apply star_loop_sound].
  destruct (_ || _) eqn:Eo; [|by apply star_loop_sound]. intros [= ->]. split.
  - intros ->. cbn in Eo. rewrite orb_false_r in Eo. by apply bool_decide_eq_true in Eo.
  - apply matchChunk_plain in E as (v & -> & HF); [|done..]. exists [], v. split; [done|]. split; [apply not_elem_of_nil|done].
Qed.

(** The match it finds starts no later than any other. *)
Lemma first_match_complete is_last u v t : is_ascii (u ++ v ++ t) = true → sep ∉ u → Forall2 fits chunk v →
  (is_last = true → t = []) →
  ∃ u1 u2 v' t', u = u1 ++ u2 ∧ first_match is_last (u ++ v ++ t) = Some t' ∧ u2 ++ v ++ t = v' ++ t' ∧
    Forall2 fits chunk v'.
Proof.
  intros Ha Hu HF Hl. induction u as [|b u IH]; cbn [app] in *.
  - exists [], [], v, t. split; [done|]. unfold first_match.
    rewrite (proj2 (matchChunk_plain chunk (v ++ t) t Hplain Ha)) by eauto.
    assert (bool_decide (t = []) || negb is_last = true) as ->; [|done].
    destruct is_last; [rewrite Hl by done; done|by rewrite orb_true_r].
  - rewrite not_elem_of_cons in Hu. destruct Hu as [Hb Hu]. pose proof Ha as Ha'.
    unfold is_ascii in Ha'. cbn [forallb] in Ha'. apply andb_prop in Ha' as [_ Ha'].
    destruct (IH Ha' Hu) as (u1 & u2 & v' & t' & -> & E & Ev & HF').
    assert (star_loop chunk is_last (b :: (u1 ++ u2) ++ v ++ t) = Some t') as Es.
    { rewrite star_loop_first by congruence. done. }
    unfold first_match. destruct (matchChunk chunk (b :: (u1 ++ u2) ++ v ++ t)) as [t0|] eqn:Em.
    + destruct (bool_decide (t0 = []) || negb is_last) eqn:Eo.
      * apply matchChunk_plain in Em as (v0 & Ev0 & HF0); [|done..].
        exists [], (b :: u1 ++ u2), v0, t0. split; [done|]. split; [done|]. split; [done|done].
      * exists (b :: u1), u2, v', t'. split; [done|]. split; [exact Es|]. done.
    + exists (b :: u1), u2, v', t'. split; [done|]. split; [exact Es|]. done.
Qed.

(** Text that fits has its slashes where the chunk has them. *)
Lemma fits_slash v i : Forall2 fits chunk v → v !! i = Some sep ↔ chunk !! i = Some sep.
Proof.
  intros HF. rewrite Forall2_lookup in HF. specialize (HF i). split; intros Hi.
  - rewrite Hi in HF. inversion HF as [c b Hf E|]; subst. destruct Hf as [[_ ?]|[_ <-]]; done.
  - rewrite Hi in HF. inversion HF as [c b Hf E|]; subst. destruct Hf as [[? _]|[_ ->]]; done.
Qed.

(** Of two places the chunk fits at, the earlier one is as good when a star
    follows. *)
Lemma earlier_fit u2 v v' t t' : sep ∉ u2 → u2 ++ v ++ t = v' ++ t' → Forall2 fits chunk v → Forall2 fits chunk v' →
  ∃ x, t' = x ++ t ∧ sep ∉ x.
Proof.
  intros Hu E HF HF'. pose proof (fits_length v HF) as Hl. pose proof (fits_length v' HF') as Hl'.
  assert (∃ x, u2 ++ v = v' ++ x ∧ t' = x ++ t) as (x & Ex & ->).
  { rewrite app_assoc in E. apply app_eq_inv in E as [(k & E1 & E2)|(k & E1 & E2)]; [by exists k|].
    destruct k as [|x k]; [exists []; rewrite app_nil_r in *; done|].
    apply (f_equal length) in E1. rewrite !length_app in E1. cbn in E1. lia. }
  exists x. split; [done|]. intros Hx.
  apply list_elem_of_lookup in Hx as [i Hi].
  assert ((v' ++ x) !! (length chunk + i)%nat = Some sep) as Hi'.
  { rewrite lookup_app_r by lia. by replace (length chunk + i - length v')%nat with i by lia. }
  assert (0 < length u2)%nat as Hpos.
  { apply lookup_lt_Some in Hi. apply (f_equal length) in Ex. rewrite !length_app in Ex. lia. }
  assert (∀ k, (u2 ++ v) !! k = Some sep → (length u2 ≤ k)%nat ∧ chunk !! (k - length u2)%nat = Some sep) as Hback.
  { intros k [Hk|[Hge Hk]]%lookup_app_Some; [exfalso; by apply Hu, (list_elem_of_lookup_2 _ _ _ Hk)|].
    split; [done|]. by apply (fits_slash v). }
  (* a slash of the chunk lies in both matches, so there is one further left *)
  assert (∀ k, chunk !! k ≠ Some sep) as Hno.
  { intros k. induction (lt_wf k) as [k _ IH]. intros Hk.
    pose proof (proj2 (fits_slash v' k HF') Hk) as Hk'.
    destruct (Hback k) as [Hge Hc]; [rewrite Ex, lookup_app_l; [done|by eapply lookup_lt_Some]|].
    apply (IH (k - length u2)%nat); [lia|done]. }
  rewrite <-Ex in Hi'. destruct (Hback _ Hi') as [_ Hc]. by apply Hno in Hc.
Qed.
End search.

Lemma plain_app p q : plain (p ++ q) = true ↔ plain p = true ∧ plain q = true.
Proof. unfold plain. rewrite forallb_app, andb_true_iff. done. Qed.
Lemma ascii_app s t : is_ascii (s ++ t) = true ↔ is_ascii s = true ∧ is_ascii t = true.
Proof. unfold is_ascii. rewrite forallb_app, andb_true_iff. done. Qed.

(** A pattern is cut into stars, a chunk without stars and the rest. *)
Lemma scanChunk_plain p : plain p = true → p ≠ [] → ∃ n chunk rest,
  scanChunk p = (bool_decide (0 < n)%nat, chunk, rest) ∧ p = replicate n star ++ chunk ++ rest ∧
  starless chunk ∧ (rest = [] ∨ ∃ r, rest = star :: r) ∧ (chunk = [] → rest = [] ∧ (0 < n)%nat).
Proof.
  intros Hp Hne. unfold scanChunk. destruct (drop_stars_spec p) as (n & p' & -> & -> & Hs).
  apply plain_app in Hp as [_ Hp]. destruct (chunk_end_plain p' Hp) as (chunk & rest & -> & -> & Hl & Hr).
  exists n, chunk, rest. split; [done|]. split; [done|]. split; [done|]. split; [done|]. intros ->.
  destruct Hr as [->|(r & ->)]; [|by cbn in Hs]. split; [done|]. destruct n; [done|lia].
Qed.

Lemma Match_loop_S fuel p name st chunk rest : p ≠ [] → scanChunk p = (st, chunk, rest) →
  Match_loop (S fuel) p name =
  if st && bool_decide (chunk = []) then negb (bool_decide (sep ∈ name))
  else
    let further := if st : bool then star_loop chunk (bool_decide (rest = [])) name else None in
    let next := match matchChunk chunk name with
                | Some t => if bool_decide (t = []) || negb (bool_decide (rest = [])) then Some t else further
                | None => further
                end in
    match next with
    | Some name => Match_loop fuel rest name
    | None => false
    end.
Proof. intros Hne E. destruct p as [|b p]; [done|]. cbn [Match_loop]. by rewrite E. Qed.

Lemma Match_loop_glob fuel p s : plain p = true → is_ascii s = true → (length p < fuel)%nat →
  Match_loop fuel p s = true ↔ glob p s.
Proof.
  revert p s. induction fuel as [|fuel IH]; intros p s Hp Ha Hf; [lia|].
  destruct (decide (p = [])) as [->|Hne].
  { cbn. rewrite bool_decide_eq_true. split; [intros ->; constructor|by inversion 1]. }
  destruct (scanChunk_plain p Hp Hne) as (n & chunk & rest & Escan & E & Hs & Hr & Hemp).
  rewrite (Match_loop_S _ _ _ _ _ _ Hne Escan).
  rewrite E in Hp, Hf. apply plain_app in Hp as [_ Hp]. apply plain_app in Hp as [Hpc Hpr].
  rewrite !length_app, length_replicate in Hf.
  assert (∀ t, (chunk ≠ [] → is_ascii t = true → Match_loop fuel rest t = true ↔ glob rest t)) as IHr.
  { intros t Hc Hat. apply IH; [done..|]. destruct chunk; [done|cbn in Hf; lia]. }
  clear IH. rewrite E. destruct (decide (chunk = [])) as [->|Hc].
  - destruct (Hemp eq_refl) as [-> Hn]. rewrite !bool_decide_eq_true_2 by done. cbn [andb app].
    rewrite negb_true_iff, bool_decide_eq_false. destruct n as [|n]; [lia|]. rewrite glob_stars, glob_star_iff. split.
    + intros Hsep. exists s, []. rewrite app_nil_r. split; [done|]. split; [done|constructor].
    + intros (u & t & -> & Hu & Hg). inversion Hg. by rewrite app_nil_r.
  - rewrite (bool_decide_eq_false_2 (chunk = [])), andb_false_r by done. cbv zeta.
    case_bool_decide as Hn.
    + change (match matchChunk chunk s with Some t => _ | None => _ end)
        with (first_match chunk (bool_decide (rest = [])) s).
      destruct n as [|n]; [lia|]. rewrite glob_stars, glob_star_iff. split.
      * destruct (first_match chunk _ s) as [t|] eqn:Ef; [|done].
        apply first_match_sound in Ef as (_ & u & v & -> & Hu & HF); [|done..].
        apply ascii_app in Ha as [_ Ha]. apply ascii_app in Ha as [_ Ha].
        rewrite IHr by done. intros Hg. exists u, (v ++ t). split; [done|]. split; [done|].
        apply glob_fits; eauto.
      * intros (u & w & -> & Hu & Hg). apply glob_fits in Hg as (v & t & -> & HF & Hg); [|done].
        edestruct (first_match_complete chunk Hpc (bool_decide (rest = [])) u v t) as (u1 & u2 & v' & t' & -> & Ef & Ev & HF');
          [done|done|done| |].
        { intros Hl%bool_decide_eq_true. subst rest. by inversion Hg. }
        rewrite Ef. pose proof (first_match_sound chunk Hpc _ _ _ Ha Ef) as [Hlast (x1 & x2 & Ex & _ & _)].
        assert (is_ascii t' = true) as Hat.
        { rewrite Ex in Ha. apply ascii_app in Ha as [_ Ha]. by apply ascii_app in Ha as [_ Ha]. }
        rewrite IHr by done. destruct Hr as [->|(r & ->)].
        { rewrite Hlast by (by apply bool_decide_eq_true). constructor. }
        destruct (earlier_fit chunk u2 v v' t t') as (x & -> & Hx); [set_solver|done|done|done|].
        apply glob_star_iff in Hg as (y & z & -> & Hy & Hg). apply glob_star_iff. exists (x ++ y), z.
        rewrite app_assoc. split; [done|]. split; [|done]. set_solver.
    + destruct n as [|n]; [|lia]. cbn [replicate app]. rewrite glob_fits by done. split.
      * destruct (matchChunk chunk s) as [t|] eqn:Em; [|done].
        apply matchChunk_plain in Em as (u & -> & HF); [|done..]. destruct (_ || _); [|done].
        rewrite IHr by (done || by apply ascii_app in Ha as [_ Ha]). eauto.
      * intros (u & t & -> & HF & Hg).
        rewrite (proj2 (matchChunk_plain chunk (u ++ t) t Hpc Ha)) by eauto.
        assert (bool_decide (t = []) || negb (bool_decide (rest = [])) = true) as ->.
        { destruct Hr as [->|(r & ->)]; [|by rewrite orb_true_r]. by inversion Hg. }
        apply IHr; [done|by apply ascii_app in Ha as [_ Ha]|done].
Qed.

Lemma filepath_Match_ok p s : plain p = true → is_ascii s = true → filepath_Match p s = true ↔ glob p s.
Proof. intros. apply Match_loop_glob; [done..|lia]. Qed.

(** What the comment of [matchPattern] says a pattern without double stars
    matches: a question mark stands for any single character, a slash
    included. *)
Inductive doc_glob : bytes → bytes → Prop :=
| dg_nil : doc_glob [] []
| dg_byte b p s : b ≠ star → b ≠ quest → doc_glob p s → doc_glob (b :: p) (b :: s)
| dg_quest b p s : doc_glob p s → doc_glob (quest :: p) (b :: s)
| dg_stop p s : doc_glob p s → doc_glob (star :: p) s
| dg_star b p s : b ≠ sep → doc_glob (star :: p) s → doc_glob (star :: p) (b :: s).

(** A question mark of [filepath.Match] is no slash; the two agree when no
    question mark meets a slash. *)
Lemma doc_glob_iff p s : (quest ∉ p) ∨ (sep ∉ s) → doc_glob p s ↔ glob p s.
Proof.
  intros Hc. split; intros Hg; revert Hc.
  - induction Hg as [|b p s H1 H2 _ IH|b p s _ IH|p s _ IH|b p s Hb _ IH]; intros Hc.
    + apply glob_nil.
    + rewrite !not_elem_of_cons in Hc. apply glob_byte; [done..|]. apply IH. tauto.
    + rewrite !not_elem_of_cons in Hc. apply glob_quest; [destruct Hc as [[]|[]]; congruence|]. apply IH. tauto.
    + rewrite not_elem_of_cons in Hc. apply glob_stop, IH. tauto.
    + apply glob_star; [done|]. apply IH. rewrite (not_elem_of_cons s) in Hc. tauto.
  - induction Hg as [|b p s H1 H2 _ IH|b p s Hb _ IH|p s _ IH|b p s Hb _ IH]; intros Hc.
    + apply dg_nil.
    + rewrite !not_elem_of_cons in Hc. apply dg_byte; [done..|]. apply IH. tauto.
    + rewrite !not_elem_of_cons in Hc. apply dg_quest. apply IH. tauto.
    + rewrite not_elem_of_cons in Hc. apply dg_stop, IH. tauto.
    + apply dg_star; [done|]. apply IH. rewrite (not_elem_of_cons s) in Hc. tauto.
Qed.

(** A pattern without double stars, classes and escapes. *)
Definition simple (p : string) : Prop := plain (bytes_of p) = true ∧ contains_b doublestar (bytes_of p) = false.
Definition globs (p name : string) : Prop := glob (bytes_of p) (bytes_of name).
(** The same by the comment, and where the code agrees with it. *)
Definition doc_globs (p name : string) : Prop := doc_glob (bytes_of p) (bytes_of name).
Definition as_documented (name p : string) : Prop :=
  simple p ∧ ((quest ∉ bytes_of p) ∨ (sep ∉ bytes_of name)).

Lemma matchPatterns_spec name patterns : is_ascii (bytes_of name) = true → Forall simple patterns →
  matchPatterns name patterns = true ↔ Exists (λ p, globs p name) patterns.
Proof.
  intros Ha Hp. unfold matchPatterns.
  induction Hp as [|p l [Hp Hd] Hl IH]; [by rewrite Exists_nil|]. cbn [existsb].
  rewrite Exists_cons, orb_true_iff, IH. unfold matchPattern. by rewrite Hd, filepath_Match_ok.
Qed.

Lemma wanted_spec l (f : list string → bool) (P : list string → Prop) : (f l = true ↔ P l) →
  wanted l f = true ↔ l = [] ∨ P l.
Proof. intros Hf. destruct l; cbn; [naive_solver|]. rewrite Hf. naive_solver. Qed.
Lemma unwanted_spec l (f : list string → bool) (P : list string → Prop) : (f l = true ↔ P l) → ¬ P [] →
  unwanted l f = true ↔ ¬ P l.
Proof. intros Hf Hn. destruct l; cbn; [naive_solver|]. rewrite <-Hf, negb_true_iff. by destruct (f _). Qed.

Lemma Exists_doc_globs name l : Forall (as_documented name) l →
  Exists (λ p, globs p name) l ↔ Exists (λ p, doc_globs p name) l.
Proof.
  induction 1 as [|p l [_ Hp] _ IH]; [by rewrite !Exists_nil|].
  rewrite !Exists_cons, IH. unfold globs, doc_globs. by rewrite doc_glob_iff.
Qed.

(** C37: a push to a branch starts a workflow exactly when the workflow has a
    push trigger whose branch filters let the branch pass: it is matched by one
    of the wanted patterns, if there are any, and by none of the ignored ones,
    where a star matches any sequence of characters but slashes and a question
    mark any character.  Filters on tags do not matter.  The statement is for
    a branch name in ASCII, an event whose payload carries no list of changed
    files (so that filters on paths let it pass), and patterns without double
    stars, classes and escapes, in which no question mark meets a branch name
    with a slash: there the code, against its comment, does not let the mark
    stand for the slash. *)
Theorem MatchTrigger_branch w event branch push :
  te_Type event = "push" → te_Ref event = ("refs/heads/" +:+ branch)%string →
  (∀ l, te_Payload event !! "changed_files" ≠ Some (PStrings l)) →
  on_Push (wf_On w) = Some push → is_ascii (bytes_of branch) = true →
  Forall (as_documented branch) (pt_Branches push) → Forall (as_documented branch) (pt_BranchesIgnore push) →
  MatchTrigger w event = true ↔
  (pt_Branches push = [] ∨ Exists (λ p, doc_globs p branch) (pt_Branches push)) ∧
  ¬ Exists (λ p, doc_globs p branch) (pt_BranchesIgnore push).
Proof.
  intros Ht Hr Hp Ho Ha Hbd Hid. rewrite <-!Exists_doc_globs by done.
  assert (Forall simple (pt_Branches push)) as Hb by (eapply Forall_impl; [exact Hbd|]; by intros ? []).
  assert (Forall simple (pt_BranchesIgnore push)) as Hi by (eapply Forall_impl; [exact Hid|]; by intros ? []).
  unfold MatchTrigger. rewrite Ht, decide_True by done.
  unfold matchPushTrigger. rewrite Ho, Hr. unfold has_prefix, trim_ref.
  rewrite bytes_of_app, has_prefix_b_app.
  assert (has_prefix_b (bytes_of "refs/tags/") (bytes_of "refs/heads/" ++ bytes_of branch) = false) as -> by done.
  unfold trim_prefix. rewrite cut_prefix_app. cbn [default id]. rewrite string_of_bytes_of.
  assert (paths_pass event (pt_Paths push) (pt_PathsIgnore push) = true) as ->.
  { unfold paths_pass. destruct (te_Payload event !! "changed_files") as [[]|] eqn:E; [done|by destruct (Hp l)|done..]. }
  rewrite andb_true_r, andb_true_l, andb_true_iff.
  pose proof (matchPatterns_spec branch _ Ha Hb) as Hbs. pose proof (matchPatterns_spec branch _ Ha Hi) as His.
  rewrite (wanted_spec _ _ (Exists (λ p, globs p branch)) Hbs).
  rewrite (unwanted_spec _ _ (Exists (λ p, globs p branch)) His); [done|by inversion 1].
Qed.

(** A question mark and a slash: the comment has it that they match. *)
Example quest_is_no_slash :
  matchPattern (bytes_of "a/b") (bytes_of "a?b") = false ∧ doc_globs "a?b" "a/b".
Proof. split; [vm_compute; reflexivity|]. repeat constructor; discriminate. Qed.

(** A double star at the end of a pattern matches every name that starts
    with what is in front of it; the slash between the two is not looked at. *)
Theorem matchPattern_doublestar p name : p ≠ [] → contains_b doublestar p = false →
  matchPattern name (p ++ bytes_of "/**") = has_prefix_b p name.
Proof.
  intros Hne Hd. unfold matchPattern.
  assert (cut doublestar (p ++ bytes_of "/**") = Some (p ++ slash, [])) as Hcut.
  { change (bytes_of "/**") with (slash ++ doublestar). rewrite app_assoc.
    rewrite <-(app_nil_r doublestar) at 2. apply cut_first.
    - apply contains_snoc; [done..|]. intros q Hq. change doublestar with ([star] ++ [star]) in Hq.
      by apply app_inj_tail in Hq as [_ ?].
    - intros p1 p2 E H1 H2 _ [k Hk]. destruct (exists_last H1) as (q & b & ->). rewrite app_assoc in Hk.
      apply app_inj_tail in Hk as [_ <-]. destruct q as [|? [|? q]]; [done|done|by destruct q]. }
  assert (contains_b doublestar (p ++ bytes_of "/**") = true) as -> by (unfold contains_b; by rewrite Hcut).
  assert (Split (p ++ bytes_of "/**") doublestar = [p ++ slash; []]) as Hsplit.
  { unfold Split. rewrite length_app. destruct (length p + length (bytes_of "/**"))%nat as [|n] eqn:E; [cbn in E; lia|].
    cbn [Split_loop]. rewrite Hcut. f_equal. by destruct n. }
  unfold matchDoubleStarPattern. rewrite Hsplit. cbn [length Nat.eqb head default last_part last]. change (id (p ++ slash)) with (p ++ slash).
  assert (trim_suffix slash (p ++ slash) = p) as ->.
  { unfold trim_suffix, has_suffix_b. rewrite length_app. replace (length p + length slash - length slash)%nat with (length p) by lia.
    rewrite drop_app_length, take_app_length, bool_decide_eq_true_2, (proj2 (Nat.leb_le _ _)) by (done || lia). done. }
  rewrite (bool_decide_eq_false_2 (p ++ slash = [])) by (by destruct p).
  rewrite (bool_decide_eq_false_2 (p = [])) by done. by destruct (has_prefix_b p name).
Qed.

(** A tag starts a workflow without tag filters only when there are no branch
    filters either; a branch starts a workflow that filters tags alone. *)
Example tags_only :
  let w tags branches := mk_Workflow "ci" (mk_WorkflowTrigger
    (Some (mk_PushTrigger branches [] tags [] [] [])) None None None None []) ∅ ∅ None None ∅ in
  let push ref := mk_TriggerEvent "push" ref "" ∅ in
  MatchTrigger (w ["v*"] []) (push "refs/tags/v1") = true ∧
  MatchTrigger (w ["v*"] []) (push "refs/heads/topic") = true ∧
  MatchTrigger (w [] ["main"]) (push "refs/tags/v1") = false ∧
  MatchTrigger (w [] ["main"]) (push "refs/heads/topic") = false.
Proof. done. Qed.

Definition demo_filters : PushTrigger := mk_PushTrigger ["main"; "release-*"] ["*-wip"] ["v*"] [] ["src/**"] [].
Definition demo_push_workflow : Workflow :=
  mk_Workflow "ci" (mk_WorkflowTrigger (Some demo_filters) None None None None []) ∅ ∅ None None ∅.
Definition demo_push_event (branch : string) : TriggerEvent :=
  mk_TriggerEvent "push" ("refs/heads/" +:+ branch) "" {["changed_files" := POther]}.
Ltac documented :=
  repeat first [apply Forall_nil_2|apply Forall_cons_2];
  (split; [by vm_compute|left; refine (bool_decide_unpack _ _); vm_compute; exact I]).
Lemma MatchTrigger_branch_witness :
  Exists (λ p, doc_globs p "release-1") ["main"; "release-*"] ∧ ¬ Exists (λ p, doc_globs p "release-1") ["*-wip"].
Proof.
  destruct (proj1 (MatchTrigger_branch demo_push_workflow (demo_push_event "release-1") "release-1" demo_filters
    eq_refl eq_refl (λ l, ltac:(done)) eq_refl eq_refl
    ltac:(documented) ltac:(documented))) as [[H|H] H']; by vm_compute.
Defined.
Lemma matchPattern_doublestar_witness :
  matchPattern (bytes_of "features") (bytes_of "feature/**") = true.
Proof. apply (matchPattern_doublestar (bytes_of "feature")); by vm_compute. Defined.
