(* ===== verification/Matrix.v ===== *)
(** * Matrix expansion (kailab-control/internal/workflow/matrix.go)

    The combinations of a matrix with its includes and excludes, and the jobs
    they turn into: display names, resolved labels.  Go leaves open in which
    order a map is visited: the orders are arguments. *)

From S2P Require Import Prelude Json GoStrings Float64 Expr JobGraph Workflow.
Local Open Scope Z_scope.

Record MatrixInstance := mk_MatrixInstance { mi_Values : matrix_values; mi_Index : Z }.

(** ** Values *)

Definition toFloat64 (v : value) : option float64 :=
  match v with
  | VInt z => Some (of_int z)
  | VFloat f => Some f
  | _ => None
  end.
Definition valuesEqual (a b : value) : bool :=
  match a, b with
  | VStr s, VStr t => bool_decide (s = t)
  | _, _ =>
    match toFloat64 a, toFloat64 b with
    | Some x, Some y => f_eq x y
    | _, _ => bool_decide (marshal_value a = marshal_value b)
    end
  end.

Definition partialMatch (combo inc : matrix_values) : bool :=
  forallb (λ kv, match combo !! kv.1 with Some v => valuesEqual v kv.2 | None => true end) (map_to_list inc).
Definition fullMatch (combo exclude : matrix_values) : bool :=
  forallb (λ kv, match combo !! kv.1 with Some v => valuesEqual v kv.2 | None => false end) (map_to_list exclude).

(** ** Combinations *)

Definition add_dimension (values : gmap string (list value)) (combos : list matrix_values) (key : string)
  : list matrix_values :=
  combo ← combos; (λ v, <[key := v]> combo) <$> default [] (values !! key).
Definition generateCombinations (values : gmap string (list value)) : list matrix_values :=
  foldl (add_dimension values) [∅] (merge_sort str_le (map_to_list values).*1).

(** A combination that was taken over from the list of includes is the same map
    as its entry there (given by its position), so later includes that are
    merged into it change the entry. *)
Abbreviation combination := (option nat * matrix_values)%type.

Definition apply_include (combos : list combination) (ii : nat * matrix_values) : list combination :=
  let '(i, inc) := ii in
  if existsb (λ c, partialMatch c.2 inc) combos then
    (λ c : combination, if partialMatch c.2 inc then (c.1, inc ∪ c.2) else c) <$> combos
  else combos ++ [(Some i, inc)].
Definition excluded (excludes : list matrix_values) (combo : matrix_values) : bool :=
  existsb (fullMatch combo) excludes.

Definition with_includes (m : Matrix) : list combination :=
  let base := if Z.of_nat (size (mx_Values m)) =? 0 then [] else generateCombinations (mx_Values m) in
  foldl apply_include ((λ c, (None, c)) <$> base) (imap pair (mx_Include m)).
Definition number_instances (l : list matrix_values) : list MatrixInstance :=
  imap (λ i v, mk_MatrixInstance v (Z.of_nat i)) l.
Definition ExpandMatrix (strategy : option Strategy) : list MatrixInstance :=
  match strategy with
  | None => [mk_MatrixInstance ∅ 0]
  | Some s =>
    let m := sg_Matrix s in
    if (Z.of_nat (size (mx_Values m)) =? 0) && (zlen (mx_Include m) =? 0) then [mk_MatrixInstance ∅ 0]
    else number_instances (filter (λ c, excluded (mx_Exclude m) c = false) (with_includes m).*2)
  end.
(** What the expansion leaves of the includes. *)
Definition includes_after (m : Matrix) : list matrix_values :=
  imap (λ i inc, match List.find (λ c : combination, bool_decide (c.1 = Some i)) (with_includes m) with
                 | Some c => c.2
                 | None => inc
                 end) (mx_Include m).

(** ** Texts *)

Definition key_le (x y : bytes * bytes) : Prop := bytes_leb x.1 y.1 = true.
#[export] Instance key_le_dec x y : Decision (key_le x y) := decide (bytes_leb x.1 y.1 = true).

(** [fmt.Sprintf] of [%v]; the members of a map are sorted. *)
Fixpoint sprint_v (v : value) : bytes :=
  match v with
  | VNil => bytes_of "<nil>"
  | VBool b => bytes_of (if b then "true" else "false")
  | VInt z => int_lit z
  | VFloat f => g_text f
  | VStr s => s
  | VArr l => Byte.x5b :: sep_by Byte.x20 (map sprint_v l) ++ [Byte.x5d]
  | VMap l =>
    bytes_of "map[" ++
    sep_by Byte.x20 ((λ kt, kt.1 ++ Byte.x3a :: kt.2) <$>
      merge_sort key_le (map (λ kv, (kv.1, sprint_v kv.2)) l)) ++
    [Byte.x5d]
  | VStruct l => Byte.x7b :: sep_by Byte.x20 (map (λ kv, sprint_v kv.2) l) ++ [Byte.x7d]
  end.

Definition sorted_keys (values : matrix_values) : list string :=
  merge_sort str_le (map_to_list values).*1.
Definition GetMatrixDisplayName (values : matrix_values) : bytes :=
  join_with (bytes_of ", ") ((λ k, sprint_v (default VNil (values !! k))) <$> sorted_keys values).

(** [json.Marshal] of the values *)
Definition MatrixValuesToJSON (values : matrix_values) : bytes :=
  marshal_value (VMap ((λ kv, (bytes_of kv.1, kv.2)) <$> map_to_list values)).
(** [json.Unmarshal]: JSON null is a nil map. *)
Definition MatrixValuesFromJSON (s : bytes) : option matrix_values :=
  v ← parse s;
  match v with
  | JNull => Some ∅
  | _ => v ← of_json v; map_value v
  end.

(** ** Jobs *)

Record ExpandedJob := mk_ExpandedJob {
  ej_Key : string; ej_Name : string; ej_Job : Job; ej_MatrixValues : matrix_values; ej_MatrixIndex : Z }.

Definition matrix_mark (key : string) : bytes := bytes_of "${{ matrix." ++ bytes_of key ++ bytes_of " }}".
(** The values in the order in which the map is visited. *)
Definition resolve_matrix (visited : list (string * value)) (s : bytes) : bytes :=
  foldl (λ s kv, ReplaceAll s (matrix_mark kv.1) (sprint_v kv.2)) s visited.

Definition set_runs_on (r : list string) (j : Job) : Job :=
  mk_WfJob (j_Name j) (Some r) (j_Uses j) (j_With j) (j_Needs j) (j_If j) (j_Steps j) (j_Env j) (j_Outputs j)
    (j_Secrets j) (j_Services j) (j_Container j) (j_Strategy j) (j_Concurrency j) (j_Timeout j)
    (j_ContinueOn j) (j_Permissions j).

(** [visit key index n]: the order of the values in the loop for the name
    ([n = 0]) and for the label [n - 1] of an instance. *)
Abbreviation value_orders := (string → Z → nat → matrix_values → list (string * value)).

Definition expand_job (visit : value_orders) (key : string) (job : Job) (instance : MatrixInstance) : ExpandedJob :=
  let values := mi_Values instance in
  let order n := visit key (mi_Index instance) n values in
  let name := bytes_of (GetJobDisplayName key job) in
  let named := if decide (values = ∅) then name else resolve_matrix (order 0%nat) name in
  let full := if decide (values = ∅) then named
              else if contains_b (bytes_of "${{") named then
                named ++ bytes_of " (" ++ GetMatrixDisplayName values ++ bytes_of ")"
              else named in
  let resolved := if decide (values = ∅) then job
                  else set_runs_on (imap (λ ri l, string_of (resolve_matrix (order (S ri)) (bytes_of l))) (runs_on job)) job in
  mk_ExpandedJob key (string_of full) resolved values (mi_Index instance).

Definition ExpandJobsWithMatrix (visit : value_orders) (wf : Workflow) : gmap string (list ExpandedJob) :=
  map_imap (λ key job, Some (expand_job visit key job <$> ExpandMatrix (j_Strategy job))) (wf_Jobs wf).

(** ** The product *)

(** A combination of values: one of each dimension. *)
Definition combo_of (values : gmap string (list value)) (c : matrix_values) : Prop :=
  map_relation (λ _ l v, v ∈ l) (λ _ _, False) (λ _ _, False) values c.

(** Sorted keys, first key first: the combinations in the order of the nested
    loops. *)
Fixpoint product (values : gmap string (list value)) (keys : list string) (c : matrix_values) : list matrix_values :=
  match keys with
  | [] => [c]
  | k :: keys => v ← default [] (values !! k); product values keys (<[k := v]> c)
  end.

Lemma dimensions_product values keys cs :
  foldl (add_dimension values) cs keys = cs ≫= product values keys.
Proof.
  revert cs. induction keys as [|k keys IH]; intros cs; cbn [foldl product].
  - induction cs as [|c cs IHc]; [done|]. cbn. by rewrite <-IHc.
  - rewrite IH. unfold add_dimension. induction cs as [|c cs IHc]; [done|].
    cbn [mbind list_bind]. rewrite bind_app. rewrite <-IHc. f_equal. clear IHc.
    induction (default [] (values !! k)) as [|v vs IHv]; [done|].
    cbn [fmap list_fmap mbind list_bind] in *. f_equal. exact IHv.
Qed.
Lemma generateCombinations_product values :
  generateCombinations values = product values (merge_sort str_le (map_to_list values).*1) ∅.
Proof. unfold generateCombinations. rewrite dimensions_product. cbn. by rewrite app_nil_r. Qed.

Lemma product_elem values keys c m : NoDup keys → (∀ k, k ∈ keys → is_Some (values !! k)) →
  (∀ k, k ∈ keys → c !! k = None) →
  m ∈ product values keys c ↔
  (∀ k, k ∉ keys → m !! k = c !! k) ∧ (∀ k, k ∈ keys → ∃ l v, values !! k = Some l ∧ m !! k = Some v ∧ v ∈ l).
Proof.
  intros Hnd. revert c. induction Hnd as [|k keys Hk Hnd IH]; intros c Hv Hc; cbn [product].
  - rewrite list_elem_of_singleton. split.
    + intros ->. split; [done|]. intros k ?%elem_of_nil. done.
    + intros [Hm _]. apply map_eq. intros k. apply Hm, not_elem_of_nil.
  - destruct (Hv k) as [l Hl]; [by left|]. rewrite Hl. cbn [default id].
    rewrite list_elem_of_bind. setoid_rewrite IH.
    2: { intros k' Hk'. apply Hv. by right. }
    2: { intros k' Hk'. rewrite lookup_insert_ne by (intros ->; done). apply Hc. by right. }
    split.
    + intros (v & [Hm Hks] & Hvl). split.
      * intros k' Hk'. rewrite not_elem_of_cons in Hk'. destruct Hk' as [Hne Hk'].
        rewrite Hm by done. by rewrite lookup_insert_ne.
      * intros k' [->|Hk']%elem_of_cons; [|by apply Hks]. exists l, v. rewrite Hm by done. by rewrite lookup_insert_eq.
    + intros [Hm Hks]. destruct (Hks k) as (l' & v & El & Hkv & Hvl); [by left|]. simplify_eq. exists v. split; [|done]. split.
      * intros k' Hk'. destruct (decide (k' = k)) as [->|Hne]; [by rewrite lookup_insert_eq|].
        rewrite lookup_insert_ne by done. apply Hm. rewrite not_elem_of_cons. done.
      * intros k' Hk'. apply Hks. by right.
Qed.

Lemma sorted_keys_elem {A} (m : gmap string A) k : k ∈ merge_sort str_le (map_to_list m).*1 ↔ is_Some (m !! k).
Proof.
  rewrite (merge_sort_Permutation str_le). rewrite list_elem_of_fmap. split.
  - intros ([k' v] & -> & Hv%elem_of_map_to_list). eauto.
  - intros [v Hv]. exists (k, v). split; [done|]. by apply elem_of_map_to_list.
Qed.
Lemma sorted_keys_NoDup {A} (m : gmap string A) : NoDup (merge_sort str_le (map_to_list m).*1).
Proof. rewrite (merge_sort_Permutation str_le). apply NoDup_fst_map_to_list. Qed.

Lemma generateCombinations_elem values c : c ∈ generateCombinations values ↔ combo_of values c.
Proof.
  rewrite generateCombinations_product, product_elem.
  - unfold combo_of, map_relation, option_relation. split.
    + intros [Hn Hs] k. destruct (values !! k) as [l|] eqn:El.
      * destruct (Hs k) as (l' & v & E & -> & Hv); [apply sorted_keys_elem; eauto|]. by simplify_eq.
      * rewrite Hn; [by rewrite lookup_empty|]. rewrite sorted_keys_elem, El. by intros [].
    + intros Hc. split.
      * intros k Hk. rewrite sorted_keys_elem in Hk. specialize (Hc k).
        destruct (values !! k); [destruct Hk; eauto|]. rewrite lookup_empty. by destruct (c !! k).
      * intros k [l Hl]%sorted_keys_elem. specialize (Hc k). rewrite Hl in Hc |- *.
        destruct (c !! k) as [v|]; [|done]. eauto.
  - apply sorted_keys_NoDup.
  - intros k. apply sorted_keys_elem.
  - intros k _. apply lookup_empty.
Qed.

(** ** Includes *)

(** An include is merged into a combination it does not contradict. *)
Definition step_include (c inc : matrix_values) : matrix_values := if partialMatch c inc then inc ∪ c else c.
Definition extend (incs : list matrix_values) (c : matrix_values) : matrix_values := foldl step_include c incs.

(** The combinations before the include at a position. *)
Definition combos_before (base : list combination) (incs : list matrix_values) (i : nat) : list combination :=
  foldl apply_include base (take i (imap pair incs)).
(** An include that contradicts all of them is a combination of its own. *)
Definition alone (base : list combination) (incs : list matrix_values) (i : nat) : Prop :=
  existsb (λ c : combination, partialMatch c.2 (default ∅ (incs !! i))) (combos_before base incs i) = false.
#[export] Instance alone_dec base incs i : Decision (alone base incs i).
Proof. unfold alone. apply _. Defined.

Lemma apply_include_step combos i inc :
  apply_include combos (i, inc) = ((λ c : combination, (c.1, step_include c.2 inc)) <$> combos) ++
    (if existsb (λ c : combination, partialMatch c.2 inc) combos then [] else [(Some i, inc)]).
Proof.
  unfold apply_include. destruct (existsb _ combos) eqn:E.
  - rewrite app_nil_r. apply list_fmap_ext. intros _ [o c] _. unfold step_include. cbn. by destruct (partialMatch c inc).
  - f_equal. rewrite <-(list_fmap_id combos) at 1. apply list_fmap_ext. intros k [o c] Hk. unfold step_include. cbn.
    destruct (partialMatch c inc) eqn:Ec; [|done]. exfalso. apply not_true_iff_false in E. apply E.
    apply existsb_elem. exists (o, c). split; [by eapply list_elem_of_lookup_2|done].
Qed.

Lemma extend_snoc incs inc c : extend (incs ++ [inc]) c = step_include (extend incs c) inc.
Proof. unfold extend. by rewrite foldl_app. Qed.

Lemma combos_before_app base incs inc i : (i ≤ length incs)%nat →
  combos_before base (incs ++ [inc]) i = combos_before base incs i.
Proof.
  intros Hi. unfold combos_before. rewrite imap_app, take_app_le; [done|]. by rewrite length_imap.
Qed.
Lemma alone_app base incs inc i : (i < length incs)%nat → alone base (incs ++ [inc]) i ↔ alone base incs i.
Proof. intros Hi. unfold alone. rewrite combos_before_app, lookup_app_l by lia. done. Qed.

Lemma filter_ext_in {A} (P Q : A → Prop) `{∀ x, Decision (P x)} `{∀ x, Decision (Q x)} (l : list A) :
  (∀ x, x ∈ l → P x ↔ Q x) → filter P l = filter Q l.
Proof.
  induction l as [|x l IH]; intros Hl; [done|]. rewrite !filter_cons, IH by (intros y Hy; apply Hl; by right).
  specialize (Hl x ltac:(by left)). by destruct (decide (P x)), (decide (Q x)); naive_solver.
Qed.

Lemma includes_spec base incs :
  foldl apply_include base (imap pair incs) =
  ((λ c : combination, (c.1, extend incs c.2)) <$> base) ++
  ((λ i, (Some i, extend (drop (S i) incs) (default ∅ (incs !! i)))) <$> filter (alone base incs) (seq 0 (length incs))).
Proof.
  induction incs as [|inc incs IH] using rev_ind.
  - cbn. rewrite app_nil_r. 
    induction base as [|[o c] l IHl]; [done|]. cbn. by rewrite <-IHl.
  - rewrite imap_app, foldl_app, IH. cbn [imap foldl]. rewrite apply_include_step, fmap_app, <-!app_assoc.
    rewrite length_app. cbn [length]. rewrite seq_app, filter_app, fmap_app. f_equal; [|f_equal].
    + rewrite <-list_fmap_compose. apply list_fmap_ext. intros _ [o c] _. cbn. by rewrite extend_snoc.
    + rewrite <-list_fmap_compose.
      assert (filter (alone base (incs ++ [inc])) (seq 0 (length incs)) = filter (alone base incs) (seq 0 (length incs))) as ->.
      { apply filter_ext_in. intros i [_ Hi]%elem_of_seq. apply alone_app. lia. }
      apply list_fmap_ext. intros k i Hi. cbn.
      apply list_elem_of_lookup_2, list_elem_of_filter in Hi as [_ [_ Hi]%elem_of_seq].
      rewrite lookup_app_l, drop_app_le by lia. by rewrite extend_snoc.
    + cbn [seq Nat.add]. rewrite filter_cons, filter_nil.
      assert (alone base (incs ++ [inc]) (length incs) ↔
        existsb (λ c : combination, partialMatch c.2 inc) (foldl apply_include base (imap pair incs)) = false) as Ha.
      { unfold alone, combos_before. rewrite imap_app, take_app_length' by (by rewrite length_imap).
        by rewrite lookup_app_r, Nat.sub_diag by lia. }
      rewrite <-IH. destruct (existsb _ _) eqn:E.
      * rewrite decide_False; [done|]. by rewrite Ha.
      * rewrite decide_True by (by rewrite Ha). cbn [fmap list_fmap].
        rewrite drop_ge by (rewrite length_app; cbn; lia). by rewrite lookup_app_r, Nat.sub_diag, ?Nat.add_0_r by lia.
Qed.

Lemma numbered_values l : mi_Values <$> number_instances l = l.
Proof.
  unfold number_instances. apply list_eq. intros i. rewrite list_lookup_fmap, list_lookup_imap. by destruct (l !! i).
Qed.

(** C38: the instances of a matrix.  They are numbered from zero, and they are
    the combinations of one value per dimension, each extended by the includes
    that do not contradict it, followed by the includes that contradict every
    combination there is when their turn comes, each extended by the includes
    behind it - without those that an exclude matches.  An exclude that matches
    an include therefore removes it too. *)
Theorem ExpandMatrix_spec s : mx_Values (sg_Matrix s) ≠ ∅ →
  let incs := mx_Include (sg_Matrix s) in
  let base := (λ c, (None, c)) <$> generateCombinations (mx_Values (sg_Matrix s)) in
  let instances := ExpandMatrix (Some s) in
  (∀ i inst, instances !! i = Some inst → mi_Index inst = Z.of_nat i) ∧
  (∀ c, c ∈ generateCombinations (mx_Values (sg_Matrix s)) ↔ combo_of (mx_Values (sg_Matrix s)) c) ∧
  mi_Values <$> instances =
    filter (λ c, excluded (mx_Exclude (sg_Matrix s)) c = false)
      ((extend incs <$> generateCombinations (mx_Values (sg_Matrix s))) ++
       ((λ i, extend (drop (S i) incs) (default ∅ (incs !! i))) <$> filter (alone base incs) (seq 0 (length incs)))).
Proof.
  intros Hv. cbv zeta. unfold ExpandMatrix.
  assert ((Z.of_nat (size (mx_Values (sg_Matrix s))) =? 0) = false) as Hsize.
  { apply Z.eqb_neq. intros Hs. apply Hv, map_size_empty_inv. lia. }
  rewrite Hsize. cbn [andb]. split; [|split].
  - intros i inst. unfold number_instances. rewrite list_lookup_imap. intros (v & _ & ->)%fmap_Some. done.
  - intros c. apply generateCombinations_elem.
  - rewrite numbered_values. f_equal. unfold with_includes. rewrite Hsize, includes_spec, fmap_app.
    rewrite <-!list_fmap_compose. done.
Qed.

(** A job whose display name has no expression gives all its instances
    that one name, however many there are; the suffix that tells instances apart
    is added only to names with expressions that were not resolved. *)
Theorem expand_job_one_name visit key job inst inst' :
  contains_b (bytes_of "${{") (bytes_of (GetJobDisplayName key job)) = false →
  ej_Name (expand_job visit key job inst) = GetJobDisplayName key job ∧
  ej_Name (expand_job visit key job inst') = ej_Name (expand_job visit key job inst).
Proof.
  intros Hc.
  assert (∀ kvs, resolve_matrix kvs (bytes_of (GetJobDisplayName key job)) = bytes_of (GetJobDisplayName key job)) as Hr.
  { intros kvs. unfold resolve_matrix. induction kvs as [|[k v] kvs IH]; [done|]. cbn [foldl fst].
    change (matrix_mark k) with (bytes_of "${{" ++ bytes_of " matrix." ++ bytes_of k ++ bytes_of " }}").
    by rewrite ReplaceAll_absent by (by apply contains_longer). }
  assert (∀ i, ej_Name (expand_job visit key job i) = GetJobDisplayName key job) as Hn; [|by rewrite !Hn].
  intros i. unfold expand_job. cbn [ej_Name]. rewrite Hr. destruct (decide _); [apply string_of_bytes_of|].
  rewrite Hc. apply string_of_bytes_of.
Qed.

(** With a marked name the instances differ; with a plain one they do not. *)
Definition demo_matrix : Strategy :=
  mk_Strategy (mk_Matrix [{["os" := VStr (bytes_of "linux"); "arch" := VStr (bytes_of "arm")]}; {["os" := VStr (bytes_of "plan9")]}]
    [{["go" := VInt 2]}] {["os" := [VStr (bytes_of "linux"); VStr (bytes_of "darwin")]; "go" := [VInt 1; VInt 2]]}) None 0.
Definition demo_matrix_job (name : string) : Job :=
  mk_WfJob name (Some ["ubuntu"]) "" ∅ [] "" None ∅ ∅ (mk_JobSecrets false ∅) ∅ None (Some demo_matrix) None 0 None ∅.
Definition some_order : value_orders := λ _ _ _ values, map_to_list values.
Example demo_names :
  (ej_Name <$> (expand_job some_order "build" (demo_matrix_job "b ${{ matrix.os }}") <$> ExpandMatrix (Some demo_matrix)))
  = ["b linux"; "b darwin"; "b plan9"] ∧
  (ej_Name <$> (expand_job some_order "build" (demo_matrix_job "") <$> ExpandMatrix (Some demo_matrix)))
  = ["build"; "build"; "build"].
Proof. by vm_compute. Qed.

Lemma ExpandMatrix_spec_witness :
  (mi_Values <$> ExpandMatrix (Some demo_matrix)) =
  [{["go" := VInt 1; "os" := VStr (bytes_of "linux"); "arch" := VStr (bytes_of "arm")]};
   {["go" := VInt 1; "os" := VStr (bytes_of "darwin")]};
   {["os" := VStr (bytes_of "plan9")]}].
Proof.
  destruct (ExpandMatrix_spec demo_matrix) as (_ & _ & E); [done|]. rewrite E. by vm_compute.
Defined.
Lemma expand_job_one_name_witness :
  ej_Name (expand_job some_order "build" (demo_matrix_job "") (mk_MatrixInstance {["os" := VStr (bytes_of "linux")]} 0)) =
  ej_Name (expand_job some_order "build" (demo_matrix_job "") (mk_MatrixInstance {["os" := VStr (bytes_of "darwin")]} 1)).
Proof. apply (expand_job_one_name some_order "build" (demo_matrix_job "")). by vm_compute. Defined.
