(* ===== verification/WorkflowJson.v ===== *)
(** * Workflows as JSON (kailab-control/internal/workflow/parser.go, ToJSON and FromJSON)

    The control plane stores a parsed workflow as JSON and reads it back when
    something happens.  [encoding/json] goes by the struct tags; its codecs are
    instances of a type class, the ones of structs are built from their fields.
    What is read here are texts that were written here: a member that differs
    in case from a field, and members given twice, are not modelled. *)

From S2P Require Import Prelude Json GoStrings Float64 Expr JobGraph Workflow.
Local Open Scope Z_scope.

(** ** Codecs *)

Class JsonCodec (A : Type) := {
  jenc : A → option json;   (** what [json.Marshal] writes *)
  jdec : json → option A;   (** what [json.Unmarshal] reads into a zero value *)
  jzero : A;
  jempty : A → bool;        (** what [omitempty] leaves out *)
}.

(** A field of a struct: its name, and its value when it is not left out. *)
Definition fld {A} `{JsonCodec A} (name : string) (omit : bool) (a : A) : option (bytes * option json) :=
  if omit && jempty a then Some (bytes_of name, None)
  else j ← jenc a; Some (bytes_of name, Some j).
Definition members (fs : list (bytes * option json)) : list (bytes * json) :=
  omap (λ f, (f.1,.) <$> f.2) fs.
Definition struct (fs : list (option (bytes * option json))) : option json :=
  (λ fs, JObj (members fs)) <$> mapM id fs.
Definition read_opt {A} `{JsonCodec A} (r : option json) : option A :=
  match r with None => Some jzero | Some v => jdec v end.
Definition get {A} `{JsonCodec A} (name : string) (v : json) : option A := read_opt (field (bytes_of name) v).
(** A struct is read from an object; null changes nothing. *)
Definition read_struct {A} (zero : A) (f : json → option A) (v : json) : option A :=
  match v with
  | JNull => Some zero
  | JObj _ => f v
  | _ => None
  end.

#[export] Instance string_codec : JsonCodec string := {|
  jenc s := Some (JStr (bytes_of s));
  jdec v := match v with JStr s => Some (string_of s) | JNull => Some "" | _ => None end;
  jzero := ""; jempty s := bool_decide (s = "") |}.
#[export] Instance bool_codec : JsonCodec bool := {|
  jenc b := Some (JBool b);
  jdec v := match v with JBool b => Some b | JNull => Some false | _ => None end;
  jzero := false; jempty b := negb b |}.
#[export] Instance int_codec : JsonCodec Z := {|
  jenc z := Some (JInt z);
  jdec v := match v with JNum lit => int_value lit | JNull => Some 0 | _ => None end;
  jzero := 0; jempty z := z =? 0 |}.
#[export] Instance value_codec : JsonCodec value := {|
  jenc := to_json; jdec := of_json; jzero := VNil;
  jempty v := match v with VNil => true | _ => false end |}.
#[export] Instance list_codec {A} `{JsonCodec A} : JsonCodec (list A) := {|
  jenc l := JArr <$> mapM jenc l;
  jdec v := match v with JArr l => mapM jdec l | JNull => Some [] | _ => None end;
  jzero := []; jempty l := match l with [] => true | _ => false end |}.
(** A pointer, or a slice that may be nil: null. *)
#[export] Instance option_codec {A} `{JsonCodec A} : JsonCodec (option A) := {|
  jenc o := match o with Some a => jenc a | None => Some JNull end;
  jdec v := match v with JNull => Some None | _ => Some <$> jdec v end;
  jzero := None; jempty o := match o with Some _ => false | None => true end |}.
Definition enc_member {A} `{JsonCodec A} (kv : string * A) : option (bytes * json) :=
  j ← jenc kv.2; Some (bytes_of kv.1, j).
Definition dec_member {A} `{JsonCodec A} (kv : bytes * json) : option (string * A) :=
  a ← jdec kv.2; Some (string_of kv.1, a).
#[export] Instance map_codec {A} `{JsonCodec A} : JsonCodec (gmap string A) := {|
  jenc m := JMap <$> mapM enc_member (map_to_list m);
  jdec v := match v with
            | JObj l => (λ l, list_to_map (reverse l)) <$> mapM dec_member l
            | JNull => Some ∅
            | _ => None
            end;
  jzero := ∅; jempty m := Z.of_nat (size m) =? 0 |}.

(** ** Lists that may be written as one text *)

(** [UnmarshalJSON] of [StringOrSlice]: null reads as one empty text. *)
Definition StringOrSlice_UnmarshalJSON (v : json) : option (option (list string)) :=
  match (jdec v : option string), (jdec v : option (option (list string))) with
  | Some single, _ => Some (Some [single])
  | None, multi => multi
  end.
Definition StringOrSlice_MarshalJSON (s : option (list string)) : option json := jenc s.
Definition runs_on_fld (s : option (list string)) : option (bytes * option json) :=
  j ← StringOrSlice_MarshalJSON s; Some (bytes_of "runs_on", Some j).
Definition read_runs_on (v : json) : option (option (list string)) :=
  match field (bytes_of "runs_on") v with
  | None => Some None
  | Some v => StringOrSlice_UnmarshalJSON v
  end.
Definition read_needs (v : json) : option (list string) :=
  match field (bytes_of "needs") v with
  | None => Some []
  | Some v => default [] <$> StringOrSlice_UnmarshalJSON v
  end.

(** ** Secrets of a job *)

Definition JobSecrets_MarshalJSON (s : JobSecrets) : option json :=
  if js_Inherit s then Some (JStr (bytes_of "inherit"))
  else if 0 <? Z.of_nat (size (js_Values s)) then jenc (js_Values s)
  else Some JNull.
Definition JobSecrets_UnmarshalJSON (v : json) : option JobSecrets :=
  match (jdec v : option string) with
  | Some str => Some (mk_JobSecrets (bool_decide (str = "inherit")) ∅)
  | None => m ← jdec v; Some (mk_JobSecrets false m)
  end.
(** [omitempty] never leaves out a struct. *)
#[export] Instance secrets_codec : JsonCodec JobSecrets := {|
  jenc := JobSecrets_MarshalJSON; jdec := JobSecrets_UnmarshalJSON;
  jzero := mk_JobSecrets false ∅; jempty _ := false |}.

(** ** Structs *)

#[export] Instance push_codec : JsonCodec PushTrigger := {|
  jenc t := struct
    [fld "branches" true (pt_Branches t); fld "branches_ignore" true (pt_BranchesIgnore t);
     fld "tags" true (pt_Tags t); fld "tags_ignore" true (pt_TagsIgnore t);
     fld "paths" true (pt_Paths t); fld "paths_ignore" true (pt_PathsIgnore t)];
  jdec := read_struct (mk_PushTrigger [] [] [] [] [] []) (λ v,
    b ← get "branches" v; bi ← get "branches_ignore" v; t ← get "tags" v; ti ← get "tags_ignore" v;
    p ← get "paths" v; pi ← get "paths_ignore" v; Some (mk_PushTrigger b bi t ti p pi));
  jzero := mk_PushTrigger [] [] [] [] [] []; jempty _ := false |}.
#[export] Instance pull_request_codec : JsonCodec PullRequestTrigger := {|
  jenc t := struct
    [fld "branches" true (pr_Branches t); fld "branches_ignore" true (pr_BranchesIgnore t);
     fld "paths" true (pr_Paths t); fld "paths_ignore" true (pr_PathsIgnore t); fld "types" true (pr_Types t)];
  jdec := read_struct (mk_PullRequestTrigger [] [] [] [] []) (λ v,
    b ← get "branches" v; bi ← get "branches_ignore" v;
    p ← get "paths" v; pi ← get "paths_ignore" v; t ← get "types" v; Some (mk_PullRequestTrigger b bi p pi t));
  jzero := mk_PullRequestTrigger [] [] [] [] []; jempty _ := false |}.
#[export] Instance review_codec : JsonCodec ReviewTrigger := {|
  jenc t := struct [fld "types" true (rv_Types t)];
  jdec := read_struct (mk_ReviewTrigger []) (λ v, mk_ReviewTrigger <$> get "types" v);
  jzero := mk_ReviewTrigger []; jempty _ := false |}.
#[export] Instance input_codec : JsonCodec DispatchInput := {|
  jenc i := struct
    [fld "description" true (di_Description i); fld "required" true (di_Required i);
     fld "default" true (di_Default i); fld "type" true (di_Type i); fld "options" true (di_Options i)];
  jdec := read_struct (mk_DispatchInput "" false "" "" []) (λ v,
    d ← get "description" v; r ← get "required" v; df ← get "default" v; t ← get "type" v; o ← get "options" v;
    Some (mk_DispatchInput d r df t o));
  jzero := mk_DispatchInput "" false "" "" []; jempty _ := false |}.
#[export] Instance dispatch_codec : JsonCodec WorkflowDispatchTrigger := {|
  jenc t := struct [fld "inputs" true (wd_Inputs t)];
  jdec := read_struct (mk_WorkflowDispatchTrigger ∅) (λ v, mk_WorkflowDispatchTrigger <$> get "inputs" v);
  jzero := mk_WorkflowDispatchTrigger ∅; jempty _ := false |}.
#[export] Instance call_input_codec : JsonCodec WorkflowCallInput := {|
  jenc i := struct
    [fld "description" true (ci_Description i); fld "required" true (ci_Required i);
     fld "default" true (ci_Default i); fld "type" true (ci_Type i)];
  jdec := read_struct (mk_WorkflowCallInput "" false "" "") (λ v,
    d ← get "description" v; r ← get "required" v; df ← get "default" v; t ← get "type" v;
    Some (mk_WorkflowCallInput d r df t));
  jzero := mk_WorkflowCallInput "" false "" ""; jempty _ := false |}.
#[export] Instance call_output_codec : JsonCodec WorkflowCallOutput := {|
  jenc o := struct [fld "description" true (co_Description o); fld "value" false (co_Value o)];
  jdec := read_struct (mk_WorkflowCallOutput "" "") (λ v,
    d ← get "description" v; x ← get "value" v; Some (mk_WorkflowCallOutput d x));
  jzero := mk_WorkflowCallOutput "" ""; jempty _ := false |}.
#[export] Instance call_secret_codec : JsonCodec WorkflowCallSecret := {|
  jenc s := struct [fld "description" true (cs_Description s); fld "required" true (cs_Required s)];
  jdec := read_struct (mk_WorkflowCallSecret "" false) (λ v,
    d ← get "description" v; r ← get "required" v; Some (mk_WorkflowCallSecret d r));
  jzero := mk_WorkflowCallSecret "" false; jempty _ := false |}.
#[export] Instance call_codec : JsonCodec WorkflowCallTrigger := {|
  jenc t := struct
    [fld "inputs" true (wc_Inputs t); fld "outputs" true (wc_Outputs t); fld "secrets" true (wc_Secrets t)];
  jdec := read_struct (mk_WorkflowCallTrigger ∅ ∅ ∅) (λ v,
    i ← get "inputs" v; o ← get "outputs" v; s ← get "secrets" v; Some (mk_WorkflowCallTrigger i o s));
  jzero := mk_WorkflowCallTrigger ∅ ∅ ∅; jempty _ := false |}.
#[export] Instance schedule_codec : JsonCodec ScheduleTrigger := {|
  jenc t := struct [fld "cron" false (st_Cron t)];
  jdec := read_struct (mk_ScheduleTrigger "") (λ v, mk_ScheduleTrigger <$> get "cron" v);
  jzero := mk_ScheduleTrigger ""; jempty _ := false |}.
#[export] Instance trigger_codec : JsonCodec WorkflowTrigger := {|
  jenc t := struct
    [fld "push" true (on_Push t); fld "pull_request" true (on_PullRequest t); fld "review" true (on_Review t);
     fld "workflow_dispatch" true (on_WorkflowDispatch t); fld "workflow_call" true (on_WorkflowCall t);
     fld "schedule" true (on_Schedule t)];
  jdec := read_struct no_trigger (λ v,
    pu ← get "push" v; pr ← get "pull_request" v; rv ← get "review" v;
    wd ← get "workflow_dispatch" v; wc ← get "workflow_call" v; sc ← get "schedule" v;
    Some (mk_WorkflowTrigger pu pr rv wd wc sc));
  jzero := no_trigger; jempty _ := false |}.

#[export] Instance step_codec : JsonCodec Step := {|
  jenc s := struct
    [fld "id" true (step_ID s); fld "name" true (step_Name s); fld "uses" true (step_Uses s);
     fld "run" true (step_Run s); fld "shell" true (step_Shell s); fld "with" true (step_With s);
     fld "env" true (step_Env s); fld "if" true (step_If s); fld "continue_on_error" true (step_ContinueOnError s);
     fld "timeout_minutes" true (step_TimeoutMinutes s); fld "working_directory" true (step_WorkingDirectory s)];
  jdec := read_struct (mk_Step "" "" "" "" "" ∅ ∅ "" false 0 "") (λ v,
    i ← get "id" v; n ← get "name" v; u ← get "uses" v; r ← get "run" v; sh ← get "shell" v; w ← get "with" v;
    e ← get "env" v; c ← get "if" v; co ← get "continue_on_error" v; t ← get "timeout_minutes" v;
    d ← get "working_directory" v; Some (mk_Step i n u r sh w e c co t d));
  jzero := mk_Step "" "" "" "" "" ∅ ∅ "" false 0 ""; jempty _ := false |}.
#[export] Instance credentials_codec : JsonCodec Credentials := {|
  jenc c := struct [fld "username" false (cr_Username c); fld "password" false (cr_Password c)];
  jdec := read_struct (mk_Credentials "" "") (λ v,
    u ← get "username" v; p ← get "password" v; Some (mk_Credentials u p));
  jzero := mk_Credentials "" ""; jempty _ := false |}.
#[export] Instance service_codec : JsonCodec Service := {|
  jenc s := struct
    [fld "image" false (sv_Image s); fld "credentials" true (sv_Credentials s); fld "env" true (sv_Env s);
     fld "ports" true (sv_Ports s); fld "volumes" true (sv_Volumes s); fld "options" true (sv_Options s)];
  jdec := read_struct (mk_Service "" None ∅ [] [] "") (λ v,
    i ← get "image" v; c ← get "credentials" v; e ← get "env" v; p ← get "ports" v; vo ← get "volumes" v;
    o ← get "options" v; Some (mk_Service i c e p vo o));
  jzero := mk_Service "" None ∅ [] [] ""; jempty _ := false |}.
#[export] Instance matrix_codec : JsonCodec Matrix := {|
  jenc m := struct
    [fld "include" true (mx_Include m); fld "exclude" true (mx_Exclude m); fld "values" true (mx_Values m)];
  jdec := read_struct (mk_Matrix [] [] ∅) (λ v,
    i ← get "include" v; e ← get "exclude" v; vs ← get "values" v; Some (mk_Matrix i e vs));
  jzero := mk_Matrix [] [] ∅; jempty _ := false |}.
#[export] Instance strategy_codec : JsonCodec Strategy := {|
  jenc s := struct
    [fld "matrix" true (sg_Matrix s); fld "fail_fast" true (sg_FailFast s); fld "max_parallel" true (sg_MaxParallel s)];
  jdec := read_struct (mk_Strategy jzero None 0) (λ v,
    m ← get "matrix" v; f ← get "fail_fast" v; p ← get "max_parallel" v; Some (mk_Strategy m f p));
  jzero := mk_Strategy jzero None 0; jempty _ := false |}.
#[export] Instance run_defaults_codec : JsonCodec RunDefaults := {|
  jenc r := struct [fld "shell" true (rd_Shell r); fld "working_directory" true (rd_WorkingDirectory r)];
  jdec := read_struct (mk_RunDefaults "" "") (λ v,
    s ← get "shell" v; w ← get "working_directory" v; Some (mk_RunDefaults s w));
  jzero := mk_RunDefaults "" ""; jempty _ := false |}.
#[export] Instance defaults_codec : JsonCodec Defaults := {|
  jenc d := struct [fld "run" true (df_Run d)];
  jdec := read_struct (mk_Defaults None) (λ v, mk_Defaults <$> get "run" v);
  jzero := mk_Defaults None; jempty _ := false |}.
#[export] Instance concurrency_codec : JsonCodec Concurrency := {|
  jenc c := struct [fld "group" false (cc_Group c); fld "cancel_in_progress" true (cc_CancelInProgress c)];
  jdec := read_struct (mk_Concurrency "" false) (λ v,
    g ← get "group" v; c ← get "cancel_in_progress" v; Some (mk_Concurrency g c));
  jzero := mk_Concurrency "" false; jempty _ := false |}.

(** [ContinueOnError] is a struct of one field. *)
Definition continue_fld (o : option bool) : option (bytes * option json) :=
  match o with
  | None => Some (bytes_of "continue_on_error", None)
  | Some b => j ← struct [fld "Value" false b]; Some (bytes_of "continue_on_error", Some j)
  end.
Definition read_continue (v : json) : option (option bool) :=
  match field (bytes_of "continue_on_error") v with
  | None | Some JNull => Some None
  | Some v => Some <$> read_struct false (get "Value") v
  end.

#[export] Instance job_codec : JsonCodec Job := {|
  jenc j := struct
    [fld "name" true (j_Name j); runs_on_fld (j_RunsOn j); fld "uses" true (j_Uses j); fld "with" true (j_With j);
     fld "needs" true (j_Needs j); fld "if" true (j_If j); fld "steps" false (j_Steps j); fld "env" true (j_Env j);
     fld "outputs" true (j_Outputs j); fld "secrets" true (j_Secrets j); fld "services" true (j_Services j);
     fld "container" true (j_Container j); fld "strategy" true (j_Strategy j);
     fld "concurrency" true (j_Concurrency j); fld "timeout_minutes" true (j_Timeout j);
     continue_fld (j_ContinueOn j); fld "permissions" true (j_Permissions j)];
  jdec := read_struct (mk_WfJob "" None "" ∅ [] "" None ∅ ∅ (mk_JobSecrets false ∅) ∅ None None None 0 None ∅) (λ v,
    n ← get "name" v; r ← read_runs_on v; u ← get "uses" v; w ← get "with" v; ne ← read_needs v; c ← get "if" v;
    st ← get "steps" v; e ← get "env" v; o ← get "outputs" v; se ← get "secrets" v; sv ← get "services" v;
    co ← get "container" v; sg ← get "strategy" v; cc ← get "concurrency" v; t ← get "timeout_minutes" v;
    ce ← read_continue v; p ← get "permissions" v;
    Some (mk_WfJob n r u w ne c st e o se sv co sg cc t ce p));
  jzero := mk_WfJob "" None "" ∅ [] "" None ∅ ∅ (mk_JobSecrets false ∅) ∅ None None None 0 None ∅; jempty _ := false |}.

Definition zero_workflow : Workflow := mk_Workflow "" no_trigger ∅ ∅ None None ∅.
#[export] Instance workflow_codec : JsonCodec Workflow := {|
  jenc w := struct
    [fld "name" false (wf_Name w); fld "on" false (wf_On w); fld "env" true (wf_Env w); fld "jobs" false (wf_Jobs w);
     fld "defaults" true (wf_Defaults w); fld "concurrency" true (wf_Concurrency w);
     fld "permissions" true (wf_Permissions w)];
  jdec := read_struct zero_workflow (λ v,
    n ← get "name" v; o ← get "on" v; e ← get "env" v; j ← get "jobs" v; d ← get "defaults" v;
    c ← get "concurrency" v; p ← get "permissions" v; Some (mk_Workflow n o e j d c p));
  jzero := zero_workflow; jempty _ := false |}.

Definition ToJSON (w : Workflow) : option string := (λ j, string_of (marshal j)) <$> jenc w.
Definition FromJSON (data : string) : option Workflow := v ← parse (bytes_of data); jdec v.

Example from_to_json :
  let w := mk_Workflow "ci" (parseSimple no_trigger ["push"; "review"]) {["A" := "1"]}
    {["build" := mk_WfJob "" (Some ["ubuntu"]) "" ∅ [] "" (Some [mk_Step "" "" "" "make" "" ∅ ∅ "" false 0 ""]) ∅ ∅
                  (mk_JobSecrets false ∅) ∅ None None None 5 (Some true) ∅]} None (Some (mk_Concurrency "g" true)) ∅ in
  (ToJSON w ≫= FromJSON) = Some w.
Proof. by vm_compute. Qed.

(** ** What is written is read back *)

(** The values that are written faithfully, and what becomes of them. *)
Class JsonLaws (A : Type) `{JsonCodec A} := {
  jok : A → Prop;
  jnorm : A → A;
  jlaw a : jok a → ∃ j, jenc a = Some j ∧ ok_json j ∧ jdec j = Some (jnorm a);
  jempty_zero a : jempty a = true → jnorm a = jzero;
}.
(** Types whose values come back as they were. *)
Class JsonExact (A : Type) `{JsonLaws A} := jexact a : jnorm a = a.

Lemma fld_ok {A} `{JsonLaws A} name omit (a : A) : jok a → ∃ r, fld name omit a = Some (bytes_of name, r) ∧
  (∀ j, r = Some j → ok_json j) ∧ read_opt r = Some (jnorm a).
Proof.
  intros Ha. unfold fld. destruct (omit && jempty a) eqn:E.
  - exists None. split; [done|]. split; [done|]. apply andb_prop in E as [_ E]. cbn. by rewrite jempty_zero.
  - destruct (jlaw a Ha) as (j & -> & Hj & Hd). exists (Some j). split; [done|]. split; [|done]. by intros ? [= <-].
Qed.

Lemma field_member k l v : NoDup l.*1 → (k, v) ∈ l → field k (JObj l) = Some v.
Proof.
  intros Hnd Hin. cbn [field]. enough (omap (λ kv : bytes * json, if decide (kv.1 = k) then Some kv.2 else None) l = [v]) as -> by done.
  induction l as [|[k' v'] l IH]; [by apply elem_of_nil in Hin|]. apply NoDup_cons in Hnd as [Hk Hnd]. cbn.
  assert (∀ l, k ∉ l.*1 → omap (λ kv : bytes * json, if decide (kv.1 = k) then Some kv.2 else None) l = []) as Hno.
  { clear. intros l Hk. induction l as [|[k' v'] l IH]; [done|]. cbn in *. rewrite not_elem_of_cons in Hk. 
    rewrite decide_False by naive_solver. apply IH. naive_solver. }
  apply elem_of_cons in Hin as [[= <- <-]|Hin].
  - rewrite decide_True by done. by rewrite Hno.
  - rewrite decide_False; [by apply IH|]. intros ->. apply Hk, list_elem_of_fmap. by exists (k, v).
Qed.
Lemma field_none k l : k ∉ l.*1 → field k (JObj l) = None.
Proof.
  intros Hk. cbn [field]. induction l as [|[k' v'] l IH]; [done|]. cbn in *. rewrite not_elem_of_cons in Hk.
  rewrite decide_False by naive_solver. apply IH. naive_solver.
Qed.

Lemma members_keys fs k : k ∈ (members fs).*1 → k ∈ fs.*1.
Proof.
  unfold members. rewrite !list_elem_of_fmap. intros ([k' v] & -> & ([k2 r] & Hr & E)%list_elem_of_omap).
  cbn in E. destruct r as [j|]; [|done]. injection E as <- <-. by exists (k2, Some j).
Qed.
Lemma members_NoDup fs : NoDup fs.*1 → NoDup (members fs).*1.
Proof.
  induction fs as [|[k r] fs IH]; [intros; constructor|]. cbn. intros [Hk Hnd]%NoDup_cons.
  destruct r as [j|]; cbn; [|by apply IH]. constructor; [|by apply IH]. by intros ?%members_keys.
Qed.
Lemma members_absent fs k : NoDup fs.*1 → (k, None) ∈ fs → k ∉ (members fs).*1.
Proof.
  induction fs as [|[k' r] fs IH]; [by intros _ ?%elem_of_nil|]. cbn. intros [Hk Hnd]%NoDup_cons.
  intros [[= -> <-]|Hin]%elem_of_cons; [by intros ?%members_keys|].
  assert (k ≠ k') as Hne.
  { intros ->. apply Hk, list_elem_of_fmap. by exists (k', None). }
  destruct r as [j|]; cbn; [|by apply IH]. rewrite not_elem_of_cons. split; [done|by apply IH].
Qed.
Lemma field_struct fs k r : NoDup fs.*1 → (k, r) ∈ fs → field k (JObj (members fs)) = r.
Proof.
  intros Hnd Hin. destruct r as [j|].
  - apply field_member; [by apply members_NoDup|]. apply list_elem_of_omap. by exists (k, Some j).
  - apply field_none. by apply members_absent.
Qed.
Lemma get_struct {A} `{JsonCodec A} fs name r : NoDup fs.*1 → (bytes_of name, r) ∈ fs →
  (get name (JObj (members fs)) : option A) = read_opt r.
Proof. intros Hnd Hin. unfold get. by rewrite (field_struct _ _ r). Qed.
Lemma struct_json fs : Forall (λ f : bytes * option json, valid_utf8 f.1 ∧ ∀ j, f.2 = Some j → ok_json j) fs →
  ok_json (JObj (members fs)).
Proof.
  intros Hf. apply ok_json_obj. induction Hf as [|[k r] fs [Hk Hr] Hf IH]; [constructor|]. cbn.
  destruct r as [j|]; [|done]. constructor; [|done]. split; [done|by apply Hr].
Qed.
Lemma struct_enc (fs : list (bytes * option json)) : mapM (M := option) id (Some <$> fs) = Some fs.
Proof. induction fs as [|f fs IH]; [done|]. cbn. by rewrite IH. Qed.

Ltac member := first [apply list_elem_of_here|apply list_elem_of_further; member].
(** Both directions of a struct, given the laws of its fields. *)
Ltac struct_fields :=
  repeat match goal with
  | |- context [fld ?name ?omit ?a] =>
    let r := fresh "r" in let Hj := fresh "Hj" in let Hr := fresh "Hr" in
    destruct (fld_ok name omit a) as (r & -> & Hj & Hr); [by auto|]
  end.
Ltac struct_reads fs Hnd :=
  repeat match goal with
  | H : read_opt ?r = Some _ |- context [get ?name (JObj (members fs))] =>
    rewrite (get_struct fs name r Hnd) by member; rewrite H; cbn [mbind option_bind fmap option_fmap option_map]
  end.
(** Fields with readers of their own are read first. *)
Ltac struct_close own :=
  unfold struct;
  match goal with
  | |- context [mapM id ?l] =>
    let rec unsome l := match l with
                        | Some ?x :: ?l => let k := unsome l in constr:(x :: k)
                        | [] => constr:(@nil (bytes * option json))
                        end in
    let fs := unsome l in
    change l with (Some <$> fs); rewrite (struct_enc fs);
    eexists; split; [reflexivity|]; split;
    [apply struct_json; repeat (apply Forall_cons; split; [split; [apply valid_utf8_ascii; reflexivity|cbn [snd]; by auto]|]); by apply Forall_nil
    |unfold read_struct;
     let Hnd := fresh "Hnd" in
     assert (NoDup fs.*1) as Hnd by (apply (bool_decide_unpack _); by vm_compute);
     own fs Hnd; struct_reads fs Hnd]
  end.
Tactic Notation "struct_law" reference(c) :=
  intros; cbv beta in *; destruct_and?; unfold c; cbn [jenc jdec]; struct_fields;
  struct_close ltac:(fun fs Hnd => idtac); rewrite ?jexact.

#[export, program] Instance string_laws : JsonLaws string := {| jok s := valid_utf8 (bytes_of s); jnorm s := s |}.
Next Obligation. intros s Hs. eexists. split; [done|]. split; [done|]. cbn. by rewrite string_of_bytes_of. Qed.
Next Obligation. intros s ->%bool_decide_eq_true. done. Qed.
#[export] Instance string_exact : JsonExact string. Proof. by intros s. Qed.
#[export, program] Instance bool_laws : JsonLaws bool := {| jok _ := True; jnorm b := b |}.
Next Obligation. intros b _. by eexists. Qed.
Next Obligation. by intros []. Qed.
#[export] Instance bool_exact : JsonExact bool. Proof. by intros s. Qed.
#[export, program] Instance int_laws : JsonLaws Z := {| jok z := - 2^63 ≤ z < 2^63; jnorm z := z |}.
Next Obligation. intros z Hz. destruct (int_lit_ok z Hz) as [? ?]. by eexists. Qed.
Next Obligation. intros z ->%Z.eqb_eq. done. Qed.
#[export] Instance int_exact : JsonExact Z. Proof. by intros s. Qed.

(** *** Containers *)

#[export, program] Instance list_laws {A} `{JsonLaws A} : JsonLaws (list A) := {| jok := Forall jok; jnorm := fmap jnorm |}.
Next Obligation.
  intros A C L l Hl. cbn.
  assert (∃ js, mapM jenc l = Some js ∧ Forall ok_json js ∧ mapM jdec js = Some (jnorm <$> l)) as (js & E & Hj & Hd).
  { induction Hl as [|a l Ha Hl (js & E & Hj & Hd)]; [by exists []|]. destruct (jlaw a Ha) as (j & Ea & Hja & Hda).
    exists (j :: js). cbn. rewrite Ea, E. split; [done|]. split; [by constructor|]. by rewrite Hda, Hd. }
  exists (JArr js). rewrite E. split; [done|]. split; [|done].
  cbn [ok_json]. clear -Hj. induction Hj; [done|]. by split.
Qed.
Next Obligation. by intros A C L []. Qed.
#[export] Instance list_exact {A} `{JsonExact A} : JsonExact (list A).
Proof. intros l. cbn. induction l as [|a l IH]; [done|]. cbn. by rewrite jexact, IH. Qed.

(** A pointer does not point to what reads as null. *)
Class JsonNotNull (A : Type) `{JsonCodec A} := not_null (a : A) : jenc a ≠ Some JNull.
#[export, program] Instance option_laws {A} `{JsonLaws A, !JsonNotNull A} : JsonLaws (option A) :=
  {| jok o := match o with Some a => jok a | None => True end; jnorm := fmap jnorm |}.
Next Obligation.
  intros A C L N [a|] Ha; cbn; [|by eexists]. destruct (jlaw a Ha) as (j & Ea & Hja & Hda). exists j.
  split; [done|]. split; [done|]. rewrite Hda. destruct j; try done. by apply not_null in Ea.
Qed.
Next Obligation. by intros A C L N []. Qed.
#[export] Instance option_exact {A} `{JsonExact A, !JsonNotNull A} : JsonExact (option A).
Proof. intros [a|]; cbn; [by rewrite jexact|done]. Qed.
#[export] Instance list_not_null {A} `{JsonCodec A} : JsonNotNull (list A).
Proof. intros l. cbn. by destruct (mapM jenc l). Qed.
#[export] Instance bool_not_null : JsonNotNull bool. Proof. done. Qed.

Lemma option_mapM_cons {A B} (f : A → option B) x l :
  mapM f (x :: l) = (y ← f x; k ← mapM f l; Some (y :: k)).
Proof. done. Qed.
Lemma mapM_perm {A B} (f : A → option B) l l' k : mapM f l = Some k → l ≡ₚ l' → ∃ k', mapM f l' = Some k' ∧ k ≡ₚ k'.
Proof.
  intros E Hp. revert k E. induction Hp as [|x l l' Hp IH|x y l|l l1 l2 Hp1 IH1 Hp2 IH2]; intros k E.
  - by exists k.
  - cbn in *. destruct (f x) as [b|]; [|done]. cbn in *. destruct (mapM f l) as [k0|]; [|done]. injection E as <-.
    destruct (IH k0 eq_refl) as (k' & -> & Hk). eexists. split; [done|]. by rewrite Hk.
  - cbn in *. destruct (f x) as [b|], (f y) as [c|]; try done. cbn in *. destruct (mapM f l) as [k0|]; [|done].
    injection E as <-. eexists. split; [done|]. constructor.
  - destruct (IH1 k E) as (k1 & E1 & H1). destruct (IH2 k1 E1) as (k2 & E2 & H2). exists k2. split; [done|]. by rewrite H1.
Qed.

#[export, program] Instance map_laws {A} `{JsonLaws A} : JsonLaws (gmap string A) :=
  {| jok m := map_Forall (λ k a, valid_utf8 (bytes_of k) ∧ jok a) m; jnorm := fmap jnorm |}.
Next Obligation.
  intros A C L m Hm. cbn.
  assert (∀ l : list (string * A), Forall (λ kv, valid_utf8 (bytes_of kv.1) ∧ jok kv.2) l →
    ∃ js, mapM enc_member l = Some js ∧ Forall ok_field js ∧
      Forall2 (λ kv kj, bytes_of kv.1 = kj.1 ∧ jdec kj.2 = Some (jnorm kv.2)) l js) as Hl.
  { induction 1 as [|[k a] l [Hk Ha] Hl (js & E & Hj & Hd)]; [by exists []|].
    destruct (jlaw a Ha) as (j & Ea & Hja & Hda). exists ((bytes_of k, j) :: js). rewrite option_mapM_cons.
    change (enc_member (k, a)) with (j ← jenc a; Some (bytes_of k, j)). rewrite Ea. cbn [mbind option_bind]. rewrite E. split; [done|]. split; constructor; done. }
  destruct (Hl (map_to_list m)) as (js & E & Hj & Hd).
  { apply Forall_forall. intros [k a] Hin%elem_of_map_to_list. by apply Hm. }
  exists (JMap js). rewrite E. split; [done|]. split; [by apply ok_json_map|]. unfold JMap.
  assert (mapM dec_member js = Some ((λ kv, (kv.1, jnorm kv.2)) <$> map_to_list m)) as Hdec.
  { clear -Hd. induction Hd as [|[k a] [k' j] l js [Hk Hj] Hd IH]; [done|]. cbn [fst snd] in *. subst k'. rewrite option_mapM_cons.
    change (dec_member (bytes_of k, j)) with (a ← jdec j; Some (string_of (bytes_of k), a)). rewrite Hj. cbn [mbind option_bind]. rewrite IH. cbn. by rewrite string_of_bytes_of. }
  destruct (mapM_perm dec_member js (merge_sort field_le js) _ Hdec) as (l & El & Hp); [symmetry; apply merge_sort_Permutation|].
  rewrite El. cbn. f_equal.
  assert (list_to_map (M := gmap string A) ((λ kv : string * A, (kv.1, jnorm kv.2)) <$> map_to_list m) = jnorm <$> m) as <-.
  { transitivity (list_to_map (M := gmap string A) (prod_map id jnorm <$> map_to_list m)).
    - done.
    - by rewrite list_to_map_fmap, list_to_map_to_list. }
  symmetry. apply list_to_map_proper; [|by rewrite reverse_Permutation].
  rewrite <-list_fmap_compose. apply NoDup_fst_map_to_list.
Qed.
Next Obligation.
  intros A C L m. cbn. intros Hs%Z.eqb_eq. assert (m = ∅) as -> by (apply map_size_empty_inv; lia). apply fmap_empty.
Qed.
#[export] Instance map_exact {A} `{JsonExact A} : JsonExact (gmap string A).
Proof. intros m. cbn. rewrite <-(map_fmap_id m) at 2. apply map_fmap_ext. intros k a _. apply jexact. Qed.

(** *** Values of a matrix

    Texts, booleans and integers; the integers come back as floats. *)

Definition int_float (z : Z) : float64 := of_decimal (z <? 0) (Z.abs z) 0.
Definition norm_value (v : value) : value := match v with VInt z => VFloat (int_float z) | _ => v end.
Definition value_ok (v : value) : Prop :=
  match v with
  | VBool _ => True
  | VInt z => - 2^63 ≤ z < 2^63
  | VStr s => valid_utf8 s
  | _ => False
  end.

Lemma round_int_fin neg n : 0 ≤ n < 2^64 → ∃ q e, round_ratio neg n 1 = Fin neg q e.
Proof.
  intros Hn. unfold round_ratio. destruct (n =? 0) eqn:E0; [eauto|]. apply Z.eqb_neq in E0.
  destruct (scale 2 _ n 1) as [n1 d1]. set (e := Z.max _ _).
  destruct (0 <? e) eqn:He; cbn [andb].
  - apply Z.ltb_lt in He. unfold scale. rewrite (proj2 (Z.ltb_ge _ _)) by lia.
    assert (e ≤ 12) as He'.
    { assert (Z.log2 n < 64) by (apply Z.log2_lt_pow2; lia). assert (Z.log2 1 = 0) by done.
      unfold e. apply Z.max_lub; [|lia]. destruct (n1 <? _); lia. }
    clearbody e.
    rewrite (proj2 (Z.leb_gt _ _)); [eauto|].
    assert (0 < 2^e) as Hp by (apply Z.pow_pos_nonneg; lia).
    assert (2^e ≤ 2^12) by (apply Z.pow_le_mono_r; lia).
    assert (div_even n (1 * 2 ^ e) ≤ n `div` (1 * 2^e) + 1) as Hd.
    { unfold div_even. pose proof (Z.mod_pos_bound (n `div` (1 * 2 ^ e)) 2 ltac:(lia)). destruct (_ <? _); [lia|]. destruct (_ <? _); lia. }
    rewrite Z.mul_1_l in *. pose proof (Z.mul_div_le n (2^e) Hp).
    assert (2^64 + 2^12 < 2^1024) by reflexivity. nia.
  - destruct (scale 2 e n 1). eauto.
Qed.

Lemma span_all ds : Forall (λ b, is_digit b = true) ds → span_digits ds = (ds, []).
Proof. induction 1 as [|b ds Hb Hds IH]; [done|]. cbn. by rewrite Hb, IH. Qed.

Lemma digit_cases b : is_digit b = true → b ∈ digit <$> seqZ 0 10.
Proof.
  intros Hb. unfold is_digit, in_range in Hb. bool_to_prop.
  apply list_elem_of_fmap. exists (int_of_byte b - 48). split; [|apply elem_of_seqZ; lia].
  unfold digit. replace (48 + (int_of_byte b - 48)) with (int_of_byte b) by lia.
  symmetry. by apply byte_of_int_eq.
Qed.

Lemma scan_digits b ds n : Forall (λ b, is_digit b = true) (b :: ds) → dec_value 0 (b :: ds) = Some n → 
  scan_decimal (b :: ds) = Some (of_decimal false n 0, []) ∧
  scan_decimal (Byte.x2d :: b :: ds) = Some (of_decimal true n 0, []).
Proof.
  intros Hd Hv. pose proof (span_all _ Hd) as Hs.
  assert (zlen (@nil byte) = 0) as Hz by done.
  split; unfold scan_decimal.
  - apply Forall_cons in Hd as [Hb _]. apply digit_cases in Hb. vm_compute in Hb.
    repeat (apply elem_of_cons in Hb as [->|Hb]; [cbv beta iota; rewrite Hs; cbv beta iota; rewrite app_nil_r, Hv; done|]).
    by apply elem_of_nil in Hb.
  - cbv beta iota. rewrite Hs. cbv beta iota. rewrite app_nil_r, Hv. done.
Qed.

Lemma int_lit_scan z : - 2^63 ≤ z < 2^63 → ∃ m e, scan_decimal (int_lit z) = Some (int_float z, []) ∧ int_float z = Fin (z <? 0) m e.
Proof.
  intros Hz. unfold int_float.
  assert (∃ m e, of_decimal (z <? 0) (Z.abs z) 0 = Fin (z <? 0) m e) as (m & e & E).
  { unfold of_decimal. destruct (Z.abs z =? 0); [eauto|]. 
    assert (0 ≤ zlen (dec_digits 2000 (Z.abs z))) by (unfold zlen; lia).
    rewrite (proj2 (Z.ltb_ge 700 0)), (proj2 (Z.ltb_ge _ (-400))) by lia. cbn. apply round_int_fin. lia. }
  exists m, e. split; [|done]. unfold int_lit.
  destruct (digits_all 20 (Z.abs z)) as (Hd & Hv & Hne); [lia|lia|].
  destruct (z <? 0) eqn:Ez; bool_to_prop.
  - replace (- z) with (Z.abs z) by lia. destruct (dec_digits 20 (Z.abs z)) as [|b ds]; [done|].
    by destruct (scan_digits b ds _ Hd Hv).
  - replace z with (Z.abs z) at 1 by lia. destruct (dec_digits 20 (Z.abs z)) as [|b ds]; [done|].
    by destruct (scan_digits b ds _ Hd Hv).
Qed.

#[export, program] Instance value_laws : JsonLaws value := {| jok := value_ok; jnorm := norm_value |}.
Next Obligation.
  intros [|b|z|f|s|l|l|l] Hv; try done; cbn.
  - by eexists.
  - destruct (int_lit_ok z Hv) as [Ho _]. destruct (int_lit_scan z Hv) as (m & e & E & Ef).
    eexists. split; [done|]. split; [exact Ho|]. unfold JInt. cbn [of_json]. by rewrite E, Ef.
  - by eexists.
Qed.
Next Obligation. by intros []. Qed.

(** *** Structs *)

Lemma struct_not_null fs : struct fs ≠ Some JNull.
Proof. unfold struct. by destruct (mapM id fs). Qed.
Ltac struct_exact := first [by intros ? | intros a; apply struct_not_null].

#[export, program] Instance push_laws : JsonLaws PushTrigger :=
  {| jok t := jok (pt_Branches t) ∧ jok (pt_BranchesIgnore t) ∧ jok (pt_Tags t) ∧ jok (pt_TagsIgnore t) ∧
       jok (pt_Paths t) ∧ jok (pt_PathsIgnore t); jnorm t := t |}.
Next Obligation. struct_law push_codec. by destruct a. Qed.
Next Obligation. done. Qed.
#[export] Instance push_exact : JsonExact PushTrigger. Proof. struct_exact. Qed.
#[export] Instance push_not_null : JsonNotNull PushTrigger. Proof. struct_exact. Qed.
#[export, program] Instance pull_request_laws : JsonLaws PullRequestTrigger :=
  {| jok t := jok (pr_Branches t) ∧ jok (pr_BranchesIgnore t) ∧ jok (pr_Paths t) ∧ jok (pr_PathsIgnore t) ∧
       jok (pr_Types t); jnorm t := t |}.
Next Obligation. struct_law pull_request_codec. by destruct a. Qed.
Next Obligation. done. Qed.
#[export] Instance pull_request_exact : JsonExact PullRequestTrigger. Proof. struct_exact. Qed.
#[export] Instance pull_request_not_null : JsonNotNull PullRequestTrigger. Proof. struct_exact. Qed.
#[export, program] Instance review_laws : JsonLaws ReviewTrigger :=
  {| jok t := jok (rv_Types t); jnorm t := t |}.
Next Obligation. struct_law review_codec. by destruct a. Qed.
Next Obligation. done. Qed.
#[export] Instance review_exact : JsonExact ReviewTrigger. Proof. struct_exact. Qed.
#[export] Instance review_not_null : JsonNotNull ReviewTrigger. Proof. struct_exact. Qed.
#[export, program] Instance input_laws : JsonLaws DispatchInput :=
  {| jok t := jok (di_Description t) ∧ jok (di_Required t) ∧ jok (di_Default t) ∧ jok (di_Type t) ∧
       jok (di_Options t); jnorm t := t |}.
Next Obligation. struct_law input_codec. by destruct a. Qed.
Next Obligation. done. Qed.
#[export] Instance input_exact : JsonExact DispatchInput. Proof. struct_exact. Qed.
#[export, program] Instance dispatch_laws : JsonLaws WorkflowDispatchTrigger :=
  {| jok t := jok (wd_Inputs t); jnorm t := t |}.
Next Obligation. struct_law dispatch_codec. by destruct a. Qed.
Next Obligation. done. Qed.
#[export] Instance dispatch_exact : JsonExact WorkflowDispatchTrigger. Proof. struct_exact. Qed.
#[export] Instance dispatch_not_null : JsonNotNull WorkflowDispatchTrigger. Proof. struct_exact. Qed.
#[export, program] Instance call_input_laws : JsonLaws WorkflowCallInput :=
  {| jok t := jok (ci_Description t) ∧ jok (ci_Required t) ∧ jok (ci_Default t) ∧ jok (ci_Type t); jnorm t := t |}.
Next Obligation. struct_law call_input_codec. by destruct a. Qed.
Next Obligation. done. Qed.
#[export] Instance call_input_exact : JsonExact WorkflowCallInput. Proof. struct_exact. Qed.
#[export, program] Instance call_output_laws : JsonLaws WorkflowCallOutput :=
  {| jok t := jok (co_Description t) ∧ jok (co_Value t); jnorm t := t |}.
Next Obligation. struct_law call_output_codec. by destruct a. Qed.
Next Obligation. done. Qed.
#[export] Instance call_output_exact : JsonExact WorkflowCallOutput. Proof. struct_exact. Qed.
#[export, program] Instance call_secret_laws : JsonLaws WorkflowCallSecret :=
  {| jok t := jok (cs_Description t) ∧ jok (cs_Required t); jnorm t := t |}.
Next Obligation. struct_law call_secret_codec. by destruct a. Qed.
Next Obligation. done. Qed.
#[export] Instance call_secret_exact : JsonExact WorkflowCallSecret. Proof. struct_exact. Qed.
#[export, program] Instance call_laws : JsonLaws WorkflowCallTrigger :=
  {| jok t := jok (wc_Inputs t) ∧ jok (wc_Outputs t) ∧ jok (wc_Secrets t); jnorm t := t |}.
Next Obligation. struct_law call_codec. by destruct a. Qed.
Next Obligation. done. Qed.
#[export] Instance call_exact : JsonExact WorkflowCallTrigger. Proof. struct_exact. Qed.
#[export] Instance call_not_null : JsonNotNull WorkflowCallTrigger. Proof. struct_exact. Qed.
#[export, program] Instance schedule_laws : JsonLaws ScheduleTrigger :=
  {| jok t := jok (st_Cron t); jnorm t := t |}.
Next Obligation. struct_law schedule_codec. by destruct a. Qed.
Next Obligation. done. Qed.
#[export] Instance schedule_exact : JsonExact ScheduleTrigger. Proof. struct_exact. Qed.
#[export, program] Instance trigger_laws : JsonLaws WorkflowTrigger :=
  {| jok t := jok (on_Push t) ∧ jok (on_PullRequest t) ∧ jok (on_Review t) ∧ jok (on_WorkflowDispatch t) ∧
       jok (on_WorkflowCall t) ∧ jok (on_Schedule t); jnorm t := t |}.
Next Obligation. struct_law trigger_codec. by destruct a. Qed.
Next Obligation. done. Qed.
#[export] Instance trigger_exact : JsonExact WorkflowTrigger. Proof. struct_exact. Qed.
#[export, program] Instance step_laws : JsonLaws Step :=
  {| jok t := jok (step_ID t) ∧ jok (step_Name t) ∧ jok (step_Uses t) ∧ jok (step_Run t) ∧
       jok (step_Shell t) ∧ jok (step_With t) ∧ jok (step_Env t) ∧ jok (step_If t) ∧
       jok (step_ContinueOnError t) ∧ jok (step_TimeoutMinutes t) ∧ jok (step_WorkingDirectory t); jnorm t := t |}.
Next Obligation. struct_law step_codec. by destruct a. Qed.
Next Obligation. done. Qed.
#[export] Instance step_exact : JsonExact Step. Proof. struct_exact. Qed.
#[export, program] Instance credentials_laws : JsonLaws Credentials :=
  {| jok t := jok (cr_Username t) ∧ jok (cr_Password t); jnorm t := t |}.
Next Obligation. struct_law credentials_codec. by destruct a. Qed.
Next Obligation. done. Qed.
#[export] Instance credentials_exact : JsonExact Credentials. Proof. struct_exact. Qed.
#[export] Instance credentials_not_null : JsonNotNull Credentials. Proof. struct_exact. Qed.
#[export, program] Instance service_laws : JsonLaws Service :=
  {| jok t := jok (sv_Image t) ∧ jok (sv_Credentials t) ∧ jok (sv_Env t) ∧ jok (sv_Ports t) ∧
       jok (sv_Volumes t) ∧ jok (sv_Options t); jnorm t := t |}.
Next Obligation. struct_law service_codec. by destruct a. Qed.
Next Obligation. done. Qed.
#[export] Instance service_exact : JsonExact Service. Proof. struct_exact. Qed.
#[export] Instance service_not_null : JsonNotNull Service. Proof. struct_exact. Qed.
#[export, program] Instance matrix_laws : JsonLaws Matrix :=
  {| jok t := jok (mx_Include t) ∧ jok (mx_Exclude t) ∧ jok (mx_Values t); jnorm t := mk_Matrix (jnorm (mx_Include t)) (jnorm (mx_Exclude t)) (jnorm (mx_Values t)) |}.
Next Obligation. struct_law matrix_codec. done. Qed.
Next Obligation. done. Qed.
#[export, program] Instance strategy_laws : JsonLaws Strategy :=
  {| jok t := jok (sg_Matrix t) ∧ jok (sg_FailFast t) ∧ jok (sg_MaxParallel t); jnorm t := mk_Strategy (jnorm (sg_Matrix t)) (sg_FailFast t) (sg_MaxParallel t) |}.
Next Obligation. struct_law strategy_codec. f_equal; f_equal; first [done|apply jexact]. Qed.
Next Obligation. done. Qed.
#[export] Instance strategy_not_null : JsonNotNull Strategy. Proof. struct_exact. Qed.
#[export, program] Instance run_defaults_laws : JsonLaws RunDefaults :=
  {| jok t := jok (rd_Shell t) ∧ jok (rd_WorkingDirectory t); jnorm t := t |}.
Next Obligation. struct_law run_defaults_codec. by destruct a. Qed.
Next Obligation. done. Qed.
#[export] Instance run_defaults_exact : JsonExact RunDefaults. Proof. struct_exact. Qed.
#[export] Instance run_defaults_not_null : JsonNotNull RunDefaults. Proof. struct_exact. Qed.
#[export, program] Instance defaults_laws : JsonLaws Defaults :=
  {| jok t := jok (df_Run t); jnorm t := t |}.
Next Obligation. struct_law defaults_codec. by destruct a. Qed.
Next Obligation. done. Qed.
#[export] Instance defaults_exact : JsonExact Defaults. Proof. struct_exact. Qed.
#[export] Instance defaults_not_null : JsonNotNull Defaults. Proof. struct_exact. Qed.
#[export, program] Instance concurrency_laws : JsonLaws Concurrency :=
  {| jok t := jok (cc_Group t) ∧ jok (cc_CancelInProgress t); jnorm t := t |}.
Next Obligation. struct_law concurrency_codec. by destruct a. Qed.
Next Obligation. done. Qed.
#[export] Instance concurrency_exact : JsonExact Concurrency. Proof. struct_exact. Qed.
#[export] Instance concurrency_not_null : JsonNotNull Concurrency. Proof. struct_exact. Qed.

(** *** Jobs and workflows *)

(** Nil labels come back as one empty label. *)
Definition norm_runs_on (s : option (list string)) : option (list string) :=
  match s with None => Some [""] | Some l => Some l end.
Lemma strings_enc (l : list string) : jok l → ∃ j, jenc l = Some j ∧ ok_json j ∧
  StringOrSlice_UnmarshalJSON j = Some (Some l).
Proof.
  intros Hl. destruct (jlaw l Hl) as (j & E & Hj & Hd). rewrite jexact in Hd. exists j. split; [done|]. split; [done|].
  cbn in E. destruct (mapM _ l) as [js|]; [|done]. injection E as <-. unfold StringOrSlice_UnmarshalJSON. cbn in *.
  by rewrite Hd.
Qed.
Lemma runs_on_ok s : (∀ l, s = Some l → jok l) → ∃ j, runs_on_fld s = Some (bytes_of "runs_on", Some j) ∧
  ok_json j ∧ StringOrSlice_UnmarshalJSON j = Some (norm_runs_on s).
Proof.
  intros Hs. unfold runs_on_fld, StringOrSlice_MarshalJSON. destruct s as [l|]; cbn; [|by exists JNull].
  destruct (strings_enc l) as (j & E & Hj & Hd); [by apply Hs|]. cbn in E. rewrite E. by exists j.
Qed.
Lemma needs_ok l : jok l → ∃ r, fld "needs" true l = Some (bytes_of "needs", r) ∧ (∀ j, r = Some j → ok_json j) ∧
  match r with None => Some [] | Some v => default [] <$> StringOrSlice_UnmarshalJSON v end = Some l.
Proof.
  intros Hl. unfold fld. destruct l as [|x l]; [by exists None|]. cbn [jempty andb list_codec].
  destruct (strings_enc (x :: l) Hl) as (j & -> & Hj & Hd). exists (Some j). split; [done|].
  split; [by intros ? [= <-]|]. by rewrite Hd.
Qed.
Lemma continue_ok o : ∃ r, continue_fld o = Some (bytes_of "continue_on_error", r) ∧ (∀ j, r = Some j → ok_json j) ∧
  match r with None | Some JNull => Some None | Some v => Some <$> read_struct false (get "Value") v end = Some o.
Proof.
  destruct o as [b|]; [|by exists None]. eexists. split; [reflexivity|]. split.
  - intros j [= <-]. cbn. split; [|done]. split; [|done]. by apply valid_utf8_ascii.
  - done.
Qed.

Definition norm_job (j : Job) : Job :=
  mk_WfJob (j_Name j) (norm_runs_on (j_RunsOn j)) (j_Uses j) (j_With j) (j_Needs j) (j_If j) (j_Steps j) (j_Env j)
    (j_Outputs j) (j_Secrets j) (j_Services j) (j_Container j) (jnorm (j_Strategy j)) (j_Concurrency j) (j_Timeout j)
    (j_ContinueOn j) (j_Permissions j).

#[export, program] Instance secrets_laws : JsonLaws JobSecrets :=
  {| jok s := if js_Inherit s then js_Values s = ∅ else jok (js_Values s); jnorm s := s |}.
Next Obligation.
  intros [inh vals] Hs. cbn [js_Inherit js_Values jenc secrets_codec] in *. unfold JobSecrets_MarshalJSON. cbn [js_Inherit js_Values].
  destruct inh.
  { subst. eexists. split; [done|]. split; [by apply valid_utf8_ascii|done]. }
  destruct (0 <? _) eqn:E.
  - destruct (jlaw vals Hs) as (j & Ej & Hj & Hd). rewrite jexact in Hd. exists j. rewrite Ej. split; [done|]. split; [done|].
    cbn [jdec secrets_codec]. unfold JobSecrets_UnmarshalJSON. rewrite Hd.
    cbn in Ej. destruct (mapM _ _) as [l|]; [|done]. injection Ej as <-. cbn [jdec string_codec JMap]. unfold JMap.
    done.
  - exists JNull. split; [done|]. split; [done|]. bool_to_prop. assert (vals = ∅) as -> by (apply map_size_empty_inv; lia). done.
Qed.
Next Obligation. done. Qed.
#[export] Instance secrets_exact : JsonExact JobSecrets. Proof. by intros ?. Qed.

Definition job_ok_json (j : Job) : Prop :=
  jok (j_Name j) ∧ (∀ l, j_RunsOn j = Some l → jok l) ∧ jok (j_Uses j) ∧ jok (j_With j) ∧ jok (j_Needs j) ∧
  jok (j_If j) ∧ jok (j_Steps j) ∧ jok (j_Env j) ∧ jok (j_Outputs j) ∧ jok (j_Secrets j) ∧ jok (j_Services j) ∧
  jok (j_Container j) ∧ jok (j_Strategy j) ∧ jok (j_Concurrency j) ∧ jok (j_Timeout j) ∧ jok (j_Permissions j).

#[export, program] Instance job_laws : JsonLaws Job := {| jok := job_ok_json; jnorm := norm_job |}.
Next Obligation.
  intros a Ha. unfold job_ok_json in Ha.
  destruct (runs_on_ok (j_RunsOn a)) as (jr & Er & Hjr & Hdr); [apply Ha|].
  destruct (needs_ok (j_Needs a)) as (rn & En & Hjn & Hdn); [apply Ha|].
  destruct (continue_ok (j_ContinueOn a)) as (rc & Ec & Hjc & Hdc).
  destruct_and!. cbn [jenc jdec job_codec]. rewrite Er, En, Ec. struct_fields.
  assert (∀ j, Some jr = Some j → ok_json j) as Hjr' by (by intros ? [= <-]).
  struct_close ltac:(fun fs Hnd =>
    unfold read_runs_on, read_needs, read_continue;
    rewrite (field_struct fs (bytes_of "runs_on") (Some jr) Hnd), (field_struct fs (bytes_of "needs") rn Hnd),
      (field_struct fs (bytes_of "continue_on_error") rc Hnd) by member; rewrite Hdr, Hdn, Hdc; cbn [mbind option_bind]).
  unfold norm_job. f_equal. f_equal; first [done|apply jexact].
Qed.
Next Obligation. done. Qed.

Definition norm_workflow (w : Workflow) : Workflow :=
  mk_Workflow (wf_Name w) (wf_On w) (wf_Env w) (norm_job <$> wf_Jobs w) (wf_Defaults w) (wf_Concurrency w)
    (wf_Permissions w).
#[export, program] Instance workflow_laws : JsonLaws Workflow :=
  {| jok w := jok (wf_Name w) ∧ jok (wf_On w) ∧ jok (wf_Env w) ∧ jok (wf_Jobs w) ∧ jok (wf_Defaults w) ∧
       jok (wf_Concurrency w) ∧ jok (wf_Permissions w); jnorm := norm_workflow |}.
Next Obligation. struct_law workflow_codec. unfold norm_workflow. f_equal. f_equal; first [done|apply jexact]. Qed.
Next Obligation. done. Qed.

(** C39: a workflow is read back as it was stored, when its texts are UTF-8,
    its numbers fit and its matrix holds texts, booleans and integers - except
    that the integers of a matrix come back as floats and that a job without
    [runs-on] (one that calls a reusable workflow) comes back with one empty
    label. *)
Theorem FromJSON_ToJSON w : jok w → ∃ data, ToJSON w = Some data ∧ FromJSON data = Some (norm_workflow w).
Proof.
  intros Hw. destruct (jlaw w Hw) as (j & E & Hj & Hd). unfold ToJSON, FromJSON. rewrite E.
  eexists. split; [reflexivity|]. rewrite bytes_of_string_of, parse_marshal by done. cbn [mbind option_bind]. exact Hd.
Qed.

Definition demo_stored : Workflow :=
  mk_Workflow "ci" (mk_WorkflowTrigger (Some (mk_PushTrigger ["main"] [] [] [] [] [])) None None None None [])
    ∅ {["test" := mk_WfJob "" (Some ["ubuntu"]) "" ∅ [] "" (Some [mk_Step "" "" "" "make" "" ∅ ∅ "" false 0 ""]) ∅ ∅
                    (mk_JobSecrets false ∅) ∅ None
                    (Some (mk_Strategy (mk_Matrix [] [] {["n" := [VInt 3]]}) None 0)) None 5 None ∅]}
    None (Some (mk_Concurrency "g" true)) ∅.
Ltac prove_jok :=
  cbn; unfold job_ok_json; cbn;
  repeat match goal with
  | |- _ ∧ _ => split
  | |- True => exact I
  | |- valid_utf8 _ => by apply valid_utf8_ascii
  | |- map_Forall _ ∅ => apply map_Forall_empty
  | |- map_Forall _ {[_ := _]} => apply map_Forall_singleton
  | |- Forall _ [] => apply Forall_nil_2
  | |- Forall _ (_ :: _) => apply Forall_cons_2
  | |- ∀ l, Some _ = Some l → _ => intros ? [= <-]
  | |- _ => progress cbn
  | |- _ => lia
  | |- _ => done
  end.
Lemma demo_stored_ok : jok demo_stored.
Proof. prove_jok. Qed.
Lemma FromJSON_ToJSON_witness : ∃ data, ToJSON demo_stored = Some data ∧ FromJSON data = Some (norm_workflow demo_stored).
Proof. apply FromJSON_ToJSON, demo_stored_ok. Defined.
