(* ===== verification/CiStore.v ===== *)
(** * The CI tables (kailab-control/internal/db/ci.go)

    Workflow runs, jobs and concurrency locks, and the statements that change
    them.  Lists of names are kept as the JSON text of their columns.  New
    identifiers and the clock are arguments. *)

From S2P Require Import Prelude Json.
Local Open Scope Z_scope.

(** ** Rows *)

Definition JobStatusQueued : string := "queued".
Definition JobStatusPending : string := "pending".
Definition JobStatusInProgress : string := "in_progress".
Definition JobStatusCompleted : string := "completed".
Definition RunStatusQueued : string := "queued".
Definition RunStatusInProgress : string := "in_progress".
Definition RunStatusCompleted : string := "completed".
Definition ConclusionSuccess : string := "success".
Definition ConclusionFailure : string := "failure".
Definition ConclusionCancelled : string := "cancelled".

Record Job := mk_Job {
  job_ID : string;
  job_WorkflowRunID : string;
  job_Name : string;
  job_RunnerID : option string;
  job_Status : string;
  job_Conclusion : option string;
  job_MatrixValues : option string;
  job_Needs : option string;
  job_RunnerName : option string;
  job_StartedAt : option Z;
  job_CompletedAt : option Z;
  job_CreatedAt : Z;
  job_RunsOn : string;
  job_Outputs : option string;
  job_Summary : option string;
  job_Heartbeat : option Z;
}.

Record WorkflowRun := mk_WorkflowRun {
  run_ID : string;
  run_WorkflowID : string;
  run_RepoID : string;
  run_RunNumber : Z;
  run_TriggerEvent : string;
  run_TriggerRef : string;
  run_TriggerSHA : string;
  run_TriggerPayload : string;
  run_Status : string;
  run_Conclusion : option string;
  run_StartedAt : option Z;
  run_CompletedAt : option Z;
  run_CreatedAt : Z;
  run_CreatedBy : option string;
}.

Record ConcurrencyLock := mk_ConcurrencyLock {
  lock_ID : string;
  lock_GroupKey : string;
  lock_WorkflowRunID : string;
  lock_JobID : option string;
  lock_RepoID : string;
  lock_CreatedAt : Z;
}.

(** Jobs and runs by their primary key, locks by their unique group key;
    [db_repos] gives the organisation's slug and the name of a repository. *)
Record CiDB := mk_CiDB {
  db_runs : gmap string WorkflowRun;
  db_jobs : gmap string Job;
  db_locks : gmap string ConcurrencyLock;
  db_workflows : gset string;
  db_repos : gmap string (string * string);
}.

Definition set_runs m d := mk_CiDB m (db_jobs d) (db_locks d) (db_workflows d) (db_repos d).
Definition set_jobs m d := mk_CiDB (db_runs d) m (db_locks d) (db_workflows d) (db_repos d).
Definition set_locks m d := mk_CiDB (db_runs d) (db_jobs d) m (db_workflows d) (db_repos d).

Inductive ci_error :=
| ErrNotFound
| ErrUnique (column : string)
| ErrForeignKey (column : string)
| ErrJSON (text : string)
| ErrText (text : string).

Abbreviation citx := (stM CiDB ci_error).

Inductive DriverType := DriverSQLite | DriverPostgres.

(** The database behind the driver: which dialect it speaks, in which order it
    finds rows, and in which order it returns rows of the same second. *)
Class CiDriver := {
  ci_driver : DriverType;
  ci_scan : list Job → list Job;
  ci_by_created : list Job → list Job;
  ci_scan_perm l : ci_scan l ≡ₚ l;
  ci_by_created_perm l : ci_by_created l ≡ₚ l;
  ci_by_created_sorted l :
    StronglySorted (λ x y, job_CreatedAt x ≤ job_CreatedAt y) (ci_by_created l);
}.

Definition created_le (x y : Job) : Prop := job_CreatedAt x ≤ job_CreatedAt y.
#[export] Instance created_le_dec x y : Decision (created_le x y).
Proof. unfold created_le. apply _. Defined.
#[export] Instance created_le_total : Total created_le.
Proof. intros x y. unfold created_le. lia. Qed.
#[export] Instance created_le_trans : Transitive created_le.
Proof. intros x y z. unfold created_le. lia. Qed.

(** A database that keeps rows of the same second in the order of its keys. *)
Definition plain_driver (dr : DriverType) : CiDriver.
Proof.
  refine {| ci_driver := dr; ci_scan := λ l, l; ci_by_created := merge_sort created_le |}.
  - done.
  - apply merge_sort_Permutation.
  - intros l. apply (StronglySorted_merge_sort created_le l).
Defined.

(** ** Text columns *)

(** Text that Postgres takes into a column: UTF-8 without a zero byte. *)
Fixpoint pg_text (fuel : nat) (s : bytes) : bool :=
  match fuel, s with
  | _, [] => true
  | O, _ => false
  | S fuel, b :: s' =>
    if int_of_byte b <? 128 then negb (int_of_byte b =? 0) && pg_text fuel s'
    else match rune_size s with Some n => pg_text fuel (drop n s) | None => false end
  end.

(** Whether a text can be inserted.  Postgres checks the encoding of every
    argument of a statement before it looks at the rows; SQLite takes any
    bytes. *)
Definition storable `{CiDriver} (text : string) : bool :=
  match ci_driver with
  | DriverSQLite => true
  | DriverPostgres => pg_text (length (bytes_of text)) (bytes_of text)
  end.

(** ** JSON columns *)

(** [json.Marshal] of a slice of strings; [None] is the nil slice. *)
Definition marshal_strings (l : option (list string)) : string :=
  string_of (marshal (match l with
                      | Some l => JArr (map (λ s, JStr (bytes_of s)) l)
                      | None => JNull
                      end)).

(** [json.Unmarshal] into a slice of strings. *)
Definition unmarshal_strings (text : string) : list string :=
  match parse (bytes_of text) with
  | Some (JArr l) => map (λ v, match v with JStr s => string_of s | _ => "" end) l
  | _ => []
  end.

(** The text of a JSON value; the null value is the SQL null. *)
Definition elem_text (v : json) : option string :=
  match v with
  | JNull => None
  | JStr s => Some (string_of s)
  | v => Some (string_of (marshal v))
  end.

(** [jsonb_array_elements_text] and [json_each]. *)
Definition json_elements (dr : DriverType) (text : string) : res ci_error (list (option string)) :=
  match parse (bytes_of text), dr with
  | None, _ => Err (ErrJSON text)
  | Some (JArr l), _ => Ok (map elem_text l)
  | Some (JObj l), DriverSQLite => Ok (map (λ kv, elem_text kv.2) l)
  | Some v, DriverSQLite => Ok [elem_text v]
  | Some _, DriverPostgres => Err (ErrJSON text)
  end.

(** [jsonb_typeof(text::jsonb) != 'array'], a disjunct of the Postgres query
    only. *)
Definition not_array (dr : DriverType) (text : string) : res ci_error bool :=
  match dr with
  | DriverSQLite => Ok false
  | DriverPostgres =>
    match parse (bytes_of text) with
    | None => Err (ErrJSON text)
    | Some (JArr _) => Ok false
    | Some _ => Ok true
    end
  end.

(** ** Workflow runs *)

Definition jobs_of (d : CiDB) : list Job := (map_to_list (db_jobs d)).*2.
Definition runs_of (d : CiDB) : list WorkflowRun := (map_to_list (db_runs d)).*2.

Definition GetWorkflowRunByID (d : CiDB) (id : string) : res ci_error WorkflowRun :=
  match db_runs d !! id with Some r => Ok r | None => Err ErrNotFound end.

(** [COALESCE(MAX(run_number), 0) + 1] *)
Definition next_run_number (d : CiDB) (workflowID : string) : Z :=
  match filter (λ r, run_WorkflowID r = workflowID) (runs_of d) with
  | [] => 0
  | r :: l => foldr Z.max (run_RunNumber r) (map run_RunNumber l)
  end + 1.

Definition CreateWorkflowRun (id : string) (now : Z)
    (workflowID repoID triggerEvent triggerRef triggerSHA triggerPayload createdBy : string)
  : citx WorkflowRun :=
  d ← gets (λ d, d);
  let runNumber := next_run_number d workflowID in
  let createdByPtr := if decide (createdBy = "") then None else Some createdBy in
  let run := mk_WorkflowRun id workflowID repoID runNumber triggerEvent triggerRef triggerSHA
    triggerPayload RunStatusQueued None None None now createdByPtr in
  _ ← fail_if (bool_decide (is_Some (db_runs d !! id))) (ErrUnique "workflow_runs.id");
  _ ← fail_if (bool_decide (workflowID ∉ db_workflows d)) (ErrForeignKey "workflow_id");
  _ ← fail_if (bool_decide (db_repos d !! repoID = None)) (ErrForeignKey "repo_id");
  _ ← modify (set_runs (<[id := run]> (db_runs d)));
  d ← gets (λ d, d);
  lift (GetWorkflowRunByID d id).

Definition run_with (status : string) (conclusion : option string) (started completed : option Z)
    (r : WorkflowRun) : WorkflowRun :=
  mk_WorkflowRun (run_ID r) (run_WorkflowID r) (run_RepoID r) (run_RunNumber r)
    (run_TriggerEvent r) (run_TriggerRef r) (run_TriggerSHA r) (run_TriggerPayload r)
    status conclusion started completed (run_CreatedAt r) (run_CreatedBy r).

Definition UpdateWorkflowRunStatus (id status : string) (now : Z) (d : CiDB) : CiDB :=
  if decide (status = RunStatusInProgress) then
    set_runs (alter (λ r, run_with status (run_Conclusion r) (Some now) (run_CompletedAt r) r)
                id (db_runs d)) d
  else
    set_runs (alter (λ r, run_with status (run_Conclusion r) (run_StartedAt r) (run_CompletedAt r) r)
                id (db_runs d)) d.

Definition CompleteWorkflowRun (id conclusion : string) (now : Z) (d : CiDB) : CiDB :=
  set_runs (alter (λ r, run_with RunStatusCompleted (Some conclusion) (run_StartedAt r) (Some now) r)
              id (db_runs d)) d.

(** ** Jobs *)

Definition GetJobByID (d : CiDB) (id : string) : res ci_error Job :=
  match db_jobs d !! id with Some j => Ok j | None => Err ErrNotFound end.

(** [j.Needs] of a job that was read. *)
Definition Needs (j : Job) : list string :=
  match job_Needs j with Some text => unmarshal_strings text | None => [] end.

(** The other texts of the row are identifiers and JSON that [json.Marshal]
    wrote, which every database takes. *)
Definition CreateJob `{CiDriver} (id : string) (now : Z) (workflowRunID name : string)
    (needs : option (list string)) (matrixValues : string) (runsOn : option (list string))
  : citx Job :=
  let matrixPtr := if decide (matrixValues = "") then None else Some matrixValues in
  let job := mk_Job id workflowRunID name None JobStatusQueued None matrixPtr
    (Some (marshal_strings needs)) None None None now (marshal_strings runsOn)
    (Some "{}") (Some "") None in
  _ ← fail_if (negb (storable name)) (ErrText name);
  d ← gets (λ d, d);
  _ ← fail_if (bool_decide (is_Some (db_jobs d !! id))) (ErrUnique "jobs.id");
  _ ← fail_if (bool_decide (db_runs d !! workflowRunID = None)) (ErrForeignKey "workflow_run_id");
  _ ← modify (set_jobs (<[id := job]> (db_jobs d)));
  d ← gets (λ d, d);
  lift (GetJobByID d id).

(** [UPDATE jobs SET ... WHERE id = ?] *)
Definition update_job (id : string) (f : Job → Job) (d : CiDB) : CiDB :=
  set_jobs (alter f id (db_jobs d)) d.

Definition job_claimed (runnerID : string) (j : Job) : Job :=
  mk_Job (job_ID j) (job_WorkflowRunID j) (job_Name j) (Some runnerID) JobStatusPending
    (job_Conclusion j) (job_MatrixValues j) (job_Needs j) (job_RunnerName j) (job_StartedAt j)
    (job_CompletedAt j) (job_CreatedAt j) (job_RunsOn j) (job_Outputs j) (job_Summary j)
    (job_Heartbeat j).
Definition job_started (runnerName : string) (now : Z) (j : Job) : Job :=
  mk_Job (job_ID j) (job_WorkflowRunID j) (job_Name j) (job_RunnerID j) JobStatusInProgress
    (job_Conclusion j) (job_MatrixValues j) (job_Needs j) (Some runnerName) (Some now)
    (job_CompletedAt j) (job_CreatedAt j) (job_RunsOn j) (job_Outputs j) (job_Summary j)
    (job_Heartbeat j).
Definition job_completed (conclusion : string) (now : Z) (j : Job) : Job :=
  mk_Job (job_ID j) (job_WorkflowRunID j) (job_Name j) (job_RunnerID j) JobStatusCompleted
    (Some conclusion) (job_MatrixValues j) (job_Needs j) (job_RunnerName j) (job_StartedAt j)
    (Some now) (job_CreatedAt j) (job_RunsOn j) (job_Outputs j) (job_Summary j)
    (job_Heartbeat j).
Definition job_heartbeat (now : Z) (j : Job) : Job :=
  mk_Job (job_ID j) (job_WorkflowRunID j) (job_Name j) (job_RunnerID j) (job_Status j)
    (job_Conclusion j) (job_MatrixValues j) (job_Needs j) (job_RunnerName j) (job_StartedAt j)
    (job_CompletedAt j) (job_CreatedAt j) (job_RunsOn j) (job_Outputs j) (job_Summary j)
    (Some now).
Definition job_with_results (outputs summary : option string) (j : Job) : Job :=
  mk_Job (job_ID j) (job_WorkflowRunID j) (job_Name j) (job_RunnerID j) (job_Status j)
    (job_Conclusion j) (job_MatrixValues j) (job_Needs j) (job_RunnerName j) (job_StartedAt j)
    (job_CompletedAt j) (job_CreatedAt j) (job_RunsOn j) outputs summary (job_Heartbeat j).

Definition StartJob (id runnerName : string) (now : Z) : CiDB → CiDB :=
  update_job id (job_started runnerName now).
Definition CompleteJob (id conclusion : string) (now : Z) : CiDB → CiDB :=
  update_job id (job_completed conclusion now).
Definition HeartbeatJob (id : string) (now : Z) : CiDB → CiDB :=
  update_job id (λ j, if decide (job_Status j = JobStatusInProgress) then job_heartbeat now j else j).

(** The outputs as the JSON text of the map. *)
Definition marshal_outputs (outputs : gmap string string) : string :=
  string_of (marshal (JMap (map (λ kv, (bytes_of kv.1, JStr (bytes_of kv.2))) (map_to_list outputs)))).
Definition SetJobOutputs (id : string) (outputs : gmap string string) : CiDB → CiDB :=
  update_job id (λ j, job_with_results (Some (marshal_outputs outputs)) (job_Summary j) j).
Definition SetJobSummary (id summary : string) : CiDB → CiDB :=
  update_job id (λ j, job_with_results (job_Outputs j) (Some summary) j).

Section driver.
Context `{CiDriver}.

Definition ListWorkflowRunJobs (d : CiDB) (runID : string) : list Job :=
  ci_by_created (filter (λ j, job_WorkflowRunID j = runID) (jobs_of d)).

(** ** Claiming a job *)

(** The labels a runner stands for. *)
Definition label_expansion (l : string) : list string :=
  if String.prefix "linux" l then ["ubuntu-latest"; "ubuntu-22.04"; "ubuntu-24.04"]
  else if String.prefix "ubuntu" l then ["linux"]
  else if String.prefix "macos" l then ["macos-latest"; "macos-14"; "macos-15"]
  else if String.prefix "windows" l then ["windows-latest"; "windows-2022"]
  else [].
Definition expand_labels (labels : list string) : list string :=
  foldl (λ expanded l, expanded ++ label_expansion l) labels labels.

(** The values of the placeholders in the two texts of the query.  Postgres
    numbers them; SQLite takes them in the order in which they stand. *)
Record claim_args := mk_claim_args {
  ca_status : string;
  ca_dep_status : string;
  ca_dep_conclusion : string;
  ca_labels : string;
  ca_repos : option string;
}.
Definition bind_args (a1 a2 a3 a4 : string) (a5 : option string) : claim_args :=
  match ci_driver with
  | DriverPostgres =>
    {| ca_status := a1; ca_dep_status := a2; ca_labels := a3; ca_dep_conclusion := a4; ca_repos := a5 |}
  | DriverSQLite =>
    {| ca_status := a1; ca_dep_status := a2; ca_dep_conclusion := a3; ca_labels := a4; ca_repos := a5 |}
  end.

Definition is_dep (a : claim_args) (j : Job) (needed : option string) (dep : Job) : bool :=
  bool_decide (job_WorkflowRunID dep = job_WorkflowRunID j)
  && bool_decide (Some (job_Name dep) = needed)
  && bool_decide (job_Status dep = ca_dep_status a)
  && bool_decide (job_Conclusion dep = Some (ca_dep_conclusion a)).

Definition needs_met (a : claim_args) (d : CiDB) (j : Job) : res ci_error bool :=
  match job_Needs j with
  | None => Ok true
  | Some text =>
    if decide (text = "[]" ∨ text = "") then Ok true
    else
      other ← not_array ci_driver text;
      if other : bool then Ok true
      else
        elems ← json_elements ci_driver text;
        Ok (forallb (λ needed, existsb (is_dep a j needed) (jobs_of d)) elems)
  end.

(** A null label is neither in nor not in the list. *)
Definition label_met (a : claim_args) (required : option string) : res ci_error bool :=
  labels ← json_elements ci_driver (ca_labels a);
  Ok (match required with None => true | Some _ => bool_decide (required ∈ labels) end).

Definition runs_on_met (a : claim_args) (j : Job) : res ci_error bool :=
  if decide (job_RunsOn j = "[]" ∨ job_RunsOn j = "") then Ok true
  else
    elems ← json_elements ci_driver (job_RunsOn j);
    foldM (λ met required, m ← label_met a required; Ok (met && m)) true elems.

Definition repo_met (a : claim_args) (d : CiDB) (j : Job) : res ci_error bool :=
  match ca_repos a with
  | None => Ok true
  | Some text =>
    match db_runs d !! job_WorkflowRunID j with
    | None => Ok false
    | Some run =>
      match db_repos d !! run_RepoID run with
      | None => Ok false
      | Some (slug, name) =>
        elems ← json_elements ci_driver text;
        Ok (bool_decide (Some (slug +:+ "/" +:+ name) ∈ elems))
      end
    end
  end.

Definition claimable (a : claim_args) (d : CiDB) (j : Job) : res ci_error bool :=
  if decide (job_Status j = ca_status a) then
    n ← needs_met a d j;
    if n : bool then
      l ← runs_on_met a j;
      if l : bool then repo_met a d j else Ok false
    else Ok false
  else Ok false.

(** [SELECT j.id FROM jobs j WHERE ... ORDER BY j.created_at LIMIT 1] *)
Definition claim_select (a : claim_args) (d : CiDB) : res ci_error (option string) :=
  rows ← foldM (λ rows j, c ← claimable a d j; Ok (if c : bool then rows ++ [j] else rows))
           [] (jobs_of d);
  Ok (job_ID <$> head (ci_by_created rows)).

(** [UPDATE jobs SET runner_id = ?, status = ? WHERE id = ? AND status = ?],
    with the number of rows. *)
Definition claim_update (runnerID id : string) (d : CiDB) : CiDB * Z :=
  match db_jobs d !! id with
  | Some j => if decide (job_Status j = JobStatusQueued)
              then (update_job id (job_claimed runnerID) d, 1) else (d, 0)
  | None => (d, 0)
  end.

Definition claim_query (labels repos : list string) : claim_args :=
  bind_args JobStatusQueued JobStatusCompleted (marshal_strings (Some (expand_labels labels)))
    ConclusionSuccess (match repos with [] => None | _ => Some (marshal_strings (Some repos)) end).

Definition ClaimJob (runnerID : string) (labels repos : list string) : citx (option Job) :=
  d ← gets (λ d, d);
  selected ← lift (claim_select (claim_query labels repos) d);
  match selected with
  | None => mret None
  | Some jobID =>
    let '(d', affected) := claim_update runnerID jobID d in
    _ ← modify (λ _, d');
    if affected =? 0 then mret None
    else
      j ← lift (GetJobByID d' jobID);
      mret (Some j)
  end.

(** ** Stale jobs *)

(** Times in seconds. *)
Definition is_stale (heartbeatCutoff fallbackCutoff : Z) (j : Job) : bool :=
  match job_Heartbeat j with
  | Some hb => bool_decide (job_Status j = JobStatusInProgress) && (hb <? heartbeatCutoff)
  | None =>
    (bool_decide (job_Status j = JobStatusInProgress) || bool_decide (job_Status j = JobStatusPending))
    && match job_StartedAt j with
       | Some s => s <? fallbackCutoff
       | None => job_CreatedAt j <? fallbackCutoff
       end
  end.

Definition fail_stale (now : Z) (acc : CiDB * list string) (j : Job) : CiDB * list string :=
  let '(d, affectedRunIDs) := acc in
  (update_job (job_ID j) (job_completed ConclusionFailure now) d,
   if decide (job_WorkflowRunID j ∈ affectedRunIDs) then affectedRunIDs
   else affectedRunIDs ++ [job_WorkflowRunID j]).

Definition FailStaleJobs (heartbeatTimeout fallbackTimeout now : Z) (d : CiDB)
  : CiDB * list string :=
  let stale := filter (λ j, is_stale (now - heartbeatTimeout) (now - fallbackTimeout) j = true)
                 (ci_scan (jobs_of d)) in
  foldl (fail_stale now) (d, []) stale.
End driver.

(** ** Runner labels *)

Definition runs_on_expansions (runnerLabel : string) : list string :=
  if decide (runnerLabel = "linux") then ["ubuntu-latest"; "ubuntu-22.04"; "ubuntu-24.04"]
  else if decide (runnerLabel = "ubuntu") then ["linux"; "ubuntu-latest"]
  else if decide (runnerLabel = "macos") then ["macos-latest"; "macos-14"; "macos-15"]
  else if decide (runnerLabel = "windows") then ["windows-latest"; "windows-2022"]
  else [].
Definition matchesRunsOn (runnerLabel runsOnLabel : string) : bool :=
  if decide (runnerLabel = runsOnLabel) then true
  else bool_decide (runsOnLabel ∈ runs_on_expansions runnerLabel).

(** ** Concurrency locks *)

Definition GetConcurrencyLock (d : CiDB) (groupKey : string) : res ci_error ConcurrencyLock :=
  match db_locks d !! groupKey with Some l => Ok l | None => Err ErrNotFound end.

Definition insert_lock (l : ConcurrencyLock) : citx () :=
  d ← gets (λ d, d);
  _ ← fail_if (bool_decide (is_Some (db_locks d !! lock_GroupKey l))) (ErrUnique "group_key");
  _ ← fail_if (existsb (λ kl, bool_decide (lock_ID kl.2 = lock_ID l)) (map_to_list (db_locks d)))
        (ErrUnique "concurrency_locks.id");
  _ ← fail_if (bool_decide (db_runs d !! lock_WorkflowRunID l = None)) (ErrForeignKey "workflow_run_id");
  _ ← fail_if (bool_decide (db_repos d !! lock_RepoID l = None)) (ErrForeignKey "repo_id");
  modify (set_locks (<[lock_GroupKey l := l]> (db_locks d))).

Definition AcquireConcurrencyLock (id : string) (now : Z) (groupKey workflowRunID repoID jobID : string)
    (d : CiDB) : CiDB * res ci_error (ConcurrencyLock * bool) :=
  let jobPtr := if decide (jobID = "") then None else Some jobID in
  let lock := mk_ConcurrencyLock id groupKey workflowRunID jobPtr repoID now in
  match insert_lock lock d with
  | (d', Ok _) => (d', Ok (lock, true))
  | (_, Err err) =>
    match GetConcurrencyLock d groupKey with
    | Ok existing => (d, Ok (existing, false))
    | _ => (d, Err err)
    end
  | (_, Panic) => (d, Panic)
  end.

Definition ReleaseConcurrencyLock (workflowRunID : string) (d : CiDB) : CiDB :=
  set_locks (filter (λ kl, lock_WorkflowRunID kl.2 ≠ workflowRunID) (db_locks d)) d.
Definition ReleaseConcurrencyLockByGroup (groupKey : string) (d : CiDB) : CiDB :=
  set_locks (delete groupKey (db_locks d)) d.
Definition ReleaseStaleLocksForRepo (repoID : string) (d : CiDB) : CiDB :=
  set_locks (filter (λ kl, ¬ (lock_RepoID kl.2 = repoID ∧
      (run_Status <$> db_runs d !! lock_WorkflowRunID kl.2) = Some RunStatusCompleted))
    (db_locks d)) d.

(** ** Lemmas: columns *)

Definition utf8 (s : string) : Prop := valid_utf8 (bytes_of s).

Lemma rune_size_take s n : rune_size s = Some n → rune_size (take n s) = Some (length (take n s)).
Proof.
  intros H. destruct s as [|b0 [|b1 [|b2 [|b3 s]]]]; cbn [rune_size] in H; [done|done|..];
    repeat case_match; simplify_eq; cbn [take length rune_size];
    repeat match goal with E : _ = true |- _ => rewrite E; clear E
                         | E : _ = false |- _ => rewrite E; clear E end; done.
Qed.

Lemma rune_no_zero r : rune_size r = Some (length r) → Byte.x00 ∉ r.
Proof.
  intros H Hin. apply list_elem_of_lookup in Hin as [i Hi].
  destruct (rune_size_shape r H) as (b0 & b1 & r' & -> & Hb & Hl).
  destruct r' as [|b2 [|b3 [|b4 r']]]; [..|cbn in Hl; lia]; cbn [rune_size length] in H;
    repeat (case_match; simplify_eq); destruct i as [|[|[|[|i]]]]; simplify_eq/=;
    try (unfold in_range in *; cbn in *; rewrite ?andb_false_r in *; cbn in *; done || lia).
Qed.

(** Postgres takes a text just when it is UTF-8 without a zero byte. *)
Lemma pg_text_ok fuel s :
  (length s ≤ fuel)%nat → pg_text fuel s = true ↔ valid_utf8 s ∧ Byte.x00 ∉ s.
Proof.
  revert s. induction fuel as [|fuel IH]; intros s Hl.
  { destruct s; [|cbn in Hl; lia]. split; [split; [constructor|apply not_elem_of_nil]|done]. }
  destruct s as [|b s]; [split; [split; [constructor|apply not_elem_of_nil]|done]|].
  cbn [length] in Hl. cbn [pg_text]. destruct (Z.ltb_spec (int_of_byte b) 128) as [Hb|Hb].
  - rewrite andb_true_iff, negb_true_iff, Z.eqb_neq, IH by lia.
    rewrite not_elem_of_cons. split.
    + intros (Hz & Hu & Hn). split; [by apply utf8_ascii|]. split; [by intros <-|done].
    + intros (Hu & Hz & Hn). split; [|split; [|done]].
      * intros E. apply Hz. symmetry. by apply (inj int_of_byte b Byte.x00).
      * inversion Hu as [|? ? ? ?|r s' Hr Hs E]; [done|].
        destruct (rune_size_shape r Hr) as (b0 & b1 & r' & -> & Hb0 & _). injection E as -> _. lia.
  - destruct (rune_size (b :: s)) as [n|] eqn:En.
    + pose proof (rune_size_take _ _ En) as Ht. set (r := take n (b :: s)) in *.
      assert (b :: s = r ++ drop n (b :: s)) as Es by (symmetry; apply take_drop).
      assert (n = length r) as Hn.
      { rewrite Es, rune_size_app in En by done. congruence. }
      destruct (rune_size_shape r Ht) as (b0 & b1 & r' & Er & _).
      rewrite IH by (rewrite length_drop; cbn [length]; rewrite Hn, Er; cbn; lia).
      generalize dependent (drop n (b :: s)). intros tl Es.
      split.
      * intros [Hu Hz]. rewrite Es. split; [by apply utf8_rune|].
        rewrite not_elem_of_app. split; [by apply rune_no_zero|done].
      * intros [Hu Hz]. split; [|intros Hd; apply Hz; rewrite Es; apply elem_of_app; by right].
        inversion Hu as [|? ? ? ?|r2 s2 Hr2 Hs2 E]; [lia|].
        rewrite <-E, rune_size_app in En by done. injection En as En.
        assert (r2 ++ s2 = r ++ tl) as E2 by congruence.
        apply app_inj_1 in E2 as [_ <-]; [done|congruence].
    + split; [done|]. intros [Hu _]. inversion Hu as [|? ? ? ?|r s' Hr Hs E]; [lia|].
      rewrite <-E, rune_size_app in En by done. done.
Qed.

Lemma storable_utf8 `{CiDriver} text :
  ci_driver = DriverPostgres → storable text = true → utf8 text.
Proof.
  intros Hd. unfold storable. rewrite Hd, pg_text_ok by done. by intros [].
Qed.

Lemma ok_strings l : Forall utf8 l → ok_json (JArr (map (λ s, JStr (bytes_of s)) l)).
Proof. cbn [ok_json]. induction 1; cbn; done. Qed.

Lemma parse_marshal_strings l :
  Forall utf8 l →
  parse (bytes_of (marshal_strings (Some l))) = Some (JArr (map (λ s, JStr (bytes_of s)) l)).
Proof. intros H. unfold marshal_strings. rewrite bytes_of_string_of. by apply parse_marshal, ok_strings. Qed.

Lemma parse_marshal_nil : parse (bytes_of (marshal_strings None)) = Some JNull.
Proof. vm_compute. reflexivity. Qed.

Lemma unmarshal_marshal l : Forall utf8 l → unmarshal_strings (marshal_strings (Some l)) = l.
Proof.
  intros H. unfold unmarshal_strings. rewrite parse_marshal_strings by done. clear H.
  induction l as [|s l IH]; [done|]. cbn [map]. by rewrite IH, string_of_bytes_of.
Qed.

Lemma json_elements_marshal dr l :
  Forall utf8 l → json_elements dr (marshal_strings (Some l)) = Ok (Some <$> l).
Proof.
  intros H. unfold json_elements. rewrite parse_marshal_strings by done. f_equal. clear H.
  induction l as [|s l IH]; [done|]. cbn [map fmap list_fmap elem_text].
  rewrite string_of_bytes_of. f_equal. exact IH.
Qed.

Lemma marshal_strings_nonempty l : marshal_strings l ≠ "".
Proof.
  intros H. apply (f_equal bytes_of) in H. unfold marshal_strings in H.
  rewrite bytes_of_string_of in H. by destruct l.
Qed.

Lemma marshal_strings_nil l : Forall utf8 l → marshal_strings (Some l) = "[]" → l = [].
Proof.
  intros Hl H. rewrite <-(unmarshal_marshal l Hl), H. reflexivity.
Qed.

(** A row as [CreateJob] writes it. *)
Definition job_ok (j : Job) : Prop :=
  (∃ needs, job_Needs j = Some (marshal_strings needs) ∧ Forall utf8 (default [] needs)) ∧
  (∃ runsOn, job_RunsOn j = marshal_strings (Some runsOn) ∧ Forall utf8 runsOn).

Definition RunsOn (j : Job) : list string := unmarshal_strings (job_RunsOn j).

(** Rows are found under their keys. *)
Definition keys_ok (d : CiDB) : Prop := ∀ id j, db_jobs d !! id = Some j → job_ID j = id.

Lemma elem_of_jobs d j : keys_ok d → j ∈ jobs_of d ↔ db_jobs d !! job_ID j = Some j.
Proof.
  intros Hk. unfold jobs_of. rewrite list_elem_of_fmap. split.
  - intros ([k x] & -> & Hx%elem_of_map_to_list). cbn. by rewrite (Hk _ _ Hx).
  - intros Hj. exists (job_ID j, j). split; [done|]. by apply elem_of_map_to_list.
Qed.

(** ** Lemmas: the claim *)

Section claim.
Context `{CiDriver}.

(** What the WHERE clause means. *)
Definition eligible (labels repos : list string) (d : CiDB) (j : Job) : Prop :=
  job_Status j = JobStatusQueued ∧
  (∀ need, need ∈ Needs j → ∃ dep, dep ∈ jobs_of d ∧ job_WorkflowRunID dep = job_WorkflowRunID j ∧
     job_Name dep = need ∧ job_Status dep = JobStatusCompleted ∧
     job_Conclusion dep = Some ConclusionSuccess) ∧
  (∀ l, l ∈ RunsOn j → l ∈ expand_labels labels) ∧
  (repos ≠ [] → ∃ run slug name, db_runs d !! job_WorkflowRunID j = Some run ∧
     db_repos d !! run_RepoID run = Some (slug, name) ∧ slug +:+ "/" +:+ name ∈ repos).

Lemma is_dep_iff a j need dep :
  is_dep a j (Some need) dep = true ↔
  job_WorkflowRunID dep = job_WorkflowRunID j ∧ job_Name dep = need ∧
  job_Status dep = ca_dep_status a ∧ job_Conclusion dep = Some (ca_dep_conclusion a).
Proof.
  unfold is_dep. rewrite !andb_true_iff, !bool_decide_eq_true.
  split; [intros [[[? [= ?]] ?] ?]; done|intros (? & -> & ? & ?); done].
Qed.

Lemma needs_met_ok a d j :
  ci_driver = DriverPostgres → job_ok j →
  ∃ b, needs_met a d j = Ok b ∧
    (b = true ↔ ∀ need, need ∈ Needs j → ∃ dep, dep ∈ jobs_of d ∧
       job_WorkflowRunID dep = job_WorkflowRunID j ∧ job_Name dep = need ∧
       job_Status dep = ca_dep_status a ∧ job_Conclusion dep = Some (ca_dep_conclusion a)).
Proof.
  intros Hd [(needs & Hn & Hu) _]. unfold needs_met, Needs. rewrite Hn.
  destruct needs as [l|]; cbn [default from_option id] in Hu.
  2: { exists true. split; [|split; [|done]].
       - rewrite decide_False by (intros [?|?]; done). unfold not_array.
         by rewrite Hd, parse_marshal_nil.
       - intros _ need. unfold unmarshal_strings. rewrite parse_marshal_nil. by intros ?%elem_of_nil. }
  rewrite unmarshal_marshal by done. destruct (decide _) as [Ht|Ht].
  { destruct Ht as [Ht|Ht]; [|by apply marshal_strings_nonempty in Ht].
    apply marshal_strings_nil in Ht as ->; [|done]. exists true. split; [done|].
    split; [by intros _ need ?%elem_of_nil|done]. }
  unfold not_array. rewrite Hd, parse_marshal_strings by done. res_simpl. cbv beta iota.
  rewrite json_elements_marshal by done. res_simpl. eexists. split; [done|].
  rewrite forallb_elem. split.
  - intros Hb need Hin. specialize (Hb (Some need)). rewrite existsb_elem in Hb.
    destruct Hb as (dep & Hdep & Hi); [by apply list_elem_of_fmap_2|].
    apply is_dep_iff in Hi. by exists dep.
  - intros Hall x (need & -> & Hin)%list_elem_of_fmap. destruct (Hall need Hin) as (dep & Hdep & Hi).
    apply existsb_elem. exists dep. split; [done|]. by apply is_dep_iff.
Qed.

Lemma labels_fold a labels l met :
  ca_labels a = marshal_strings (Some labels) → Forall utf8 labels →
  ∃ b, foldM (λ met required, m ← label_met a required; Ok (met && m)) met (Some <$> l) = Ok b ∧
    (b = true ↔ met = true ∧ ∀ x, x ∈ l → x ∈ labels).
Proof.
  intros Ha Hu. revert met. induction l as [|x l IH]; intros met; cbn [fmap list_fmap foldM].
  - exists met. split; [done|]. split; [|by intros [? _]]. intros ->. split; [done|].
    by intros x ?%elem_of_nil.
  - assert (label_met a (Some x) = Ok (bool_decide (Some x ∈ Some <$> labels))) as ->
      by (unfold label_met; by rewrite Ha, json_elements_marshal by done).
    res_simpl.
    destruct (IH (met && bool_decide (Some x ∈ Some <$> labels))) as (b & Hb & Hi).
    exists b. split; [exact Hb|]. rewrite Hi, andb_true_iff, bool_decide_eq_true.
    rewrite list_elem_of_fmap_inj by apply _. setoid_rewrite elem_of_cons. naive_solver.
Qed.

Lemma runs_on_met_ok a labels j :
  job_ok j → ca_labels a = marshal_strings (Some labels) → Forall utf8 labels →
  ∃ b, runs_on_met a j = Ok b ∧ (b = true ↔ ∀ l, l ∈ RunsOn j → l ∈ labels).
Proof.
  intros [_ (l & Hl & Hu)] Ha Hlab. unfold runs_on_met, RunsOn. rewrite Hl, unmarshal_marshal by done.
  destruct (decide _) as [Ht|Ht].
  - destruct Ht as [Ht|Ht]; [|by apply marshal_strings_nonempty in Ht].
    apply marshal_strings_nil in Ht as ->; [|done]. exists true. split; [done|].
    split; [by intros _ x ?%elem_of_nil|done].
  - rewrite json_elements_marshal by done. res_simpl.
    destruct (labels_fold a labels l true Ha Hlab) as (b & Hb & Hi). exists b. split; [exact Hb|].
    rewrite Hi. naive_solver.
Qed.

Lemma repo_met_ok a repos d j :
  ca_repos a = match repos with [] => None | _ => Some (marshal_strings (Some repos)) end →
  Forall utf8 repos →
  ∃ b, repo_met a d j = Ok b ∧ (b = true ↔ (repos ≠ [] → ∃ run slug name,
     db_runs d !! job_WorkflowRunID j = Some run ∧
     db_repos d !! run_RepoID run = Some (slug, name) ∧ slug +:+ "/" +:+ name ∈ repos)).
Proof.
  intros Ha Hu. unfold repo_met. rewrite Ha. destruct repos as [|r repos]; [by exists true|].
  destruct (db_runs d !! _) as [run|] eqn:Hr.
  2: { exists false. split; [done|]. split; [done|]. intros Hx. destruct Hx as (? & ? & ? & ? & _); [done|].
       congruence. }
  destruct (db_repos d !! _) as [[slug name]|] eqn:Hp.
  2: { exists false. split; [done|]. split; [done|]. intros Hx.
       destruct Hx as (? & ? & ? & [= <-] & ? & _); [done|]. congruence. }
  rewrite json_elements_marshal by done. res_simpl. eexists. split; [done|].
  rewrite bool_decide_eq_true, list_elem_of_fmap_inj by apply _. split.
  - intros Hin _. by exists run, slug, name.
  - intros Hx. destruct Hx as (? & ? & ? & [= <-] & Hp' & ?); [done|].
    rewrite Hp in Hp'. by injection Hp' as <- <-.
Qed.

Lemma claimable_ok labels repos d j :
  ci_driver = DriverPostgres → job_ok j → Forall utf8 (expand_labels labels) → Forall utf8 repos →
  ∃ b, claimable (claim_query labels repos) d j = Ok b ∧ (b = true ↔ eligible labels repos d j).
Proof.
  intros Hd Hj Hl Hr. set (a := claim_query labels repos).
  assert (ca_status a = JobStatusQueued ∧ ca_dep_status a = JobStatusCompleted ∧
    ca_dep_conclusion a = ConclusionSuccess ∧ ca_labels a = marshal_strings (Some (expand_labels labels)) ∧
    ca_repos a = match repos with [] => None | _ => Some (marshal_strings (Some repos)) end)
    as (A1 & A2 & A3 & A4 & A5) by (unfold a, claim_query, bind_args; by rewrite Hd).
  destruct (needs_met_ok a d j Hd Hj) as (bn & En & In).
  destruct (runs_on_met_ok a _ j Hj A4 Hl) as (bl & El & Il).
  destruct (repo_met_ok a repos d j A5 Hr) as (br & Er & Ir).
  rewrite A2, A3 in In. unfold claimable, eligible. rewrite A1, En, El, Er.
  destruct (decide _) as [Hs|Hs]; [|exists false; split; [done|]; split; [done|]; by intros (? & _)].
  res_simpl. destruct bn; [|exists false; split; [done|]; split; [done|]; intros (_ & ? & _); by apply In].
  destruct bl; res_simpl; [|exists false; split; [done|]; split; [done|]; intros (_ & _ & ? & _); by apply Il].
  exists br. split; [done|]. rewrite Ir. split; [|tauto].
  intros ?. split; [done|]. split; [by apply In|]. split; [by apply Il|done].
Qed.

(** The rows of the query. *)
Lemma claim_rows labels repos d l rows :
  ci_driver = DriverPostgres → Forall job_ok l → Forall utf8 (expand_labels labels) →
  Forall utf8 repos →
  ∃ r, foldM (λ rows j, c ← claimable (claim_query labels repos) d j;
          Ok (if c : bool then rows ++ [j] else rows)) rows l = Ok r ∧
    ∀ j, j ∈ r ↔ j ∈ rows ∨ (j ∈ l ∧ eligible labels repos d j).
Proof.
  intros Hd Hl Hlab Hr. revert rows. induction Hl as [|x l Hx Hl IH]; intros rows; cbn [foldM].
  { exists rows. split; [done|]. intros j. split; [by left|]. by intros [?|[?%elem_of_nil _]]. }
  destruct (claimable_ok labels repos d x Hd Hx Hlab Hr) as (b & Hb & Hi). rewrite Hb. res_simpl.
  destruct (IH (if b then rows ++ [x] else rows)) as (r & Hrr & Hin). exists r. split; [exact Hrr|].
  intros j. rewrite Hin, elem_of_cons. destruct b.
  - rewrite elem_of_app, list_elem_of_singleton. naive_solver.
  - split; [naive_solver|]. intros [?|[[->|?] ?]]; [by left| |by right].
    by assert (false = true) by by apply Hi.
Qed.

Lemma head_by_created l j :
  head (ci_by_created l) = Some j → j ∈ l ∧ ∀ k, k ∈ l → job_CreatedAt j ≤ job_CreatedAt k.
Proof.
  intros Hh. pose proof (ci_by_created_sorted l) as Hs. pose proof (ci_by_created_perm l) as Hp.
  destruct (ci_by_created l) as [|x r]; [done|]. injection Hh as ->.
  setoid_rewrite <-Hp. split; [by left|]. apply StronglySorted_inv in Hs as [_ Hs].
  rewrite Forall_forall in Hs. intros k [->|Hk]%elem_of_cons; [lia|]. by apply Hs.
Qed.

(** The job that the query finds. *)
Lemma claim_select_ok labels repos d :
  ci_driver = DriverPostgres → Forall job_ok (jobs_of d) → Forall utf8 (expand_labels labels) →
  Forall utf8 repos →
  ∃ o, claim_select (claim_query labels repos) d = Ok o ∧
    match o with
    | None => ∀ j, j ∈ jobs_of d → ¬ eligible labels repos d j
    | Some id => ∃ j, job_ID j = id ∧ j ∈ jobs_of d ∧ eligible labels repos d j ∧
        ∀ k, k ∈ jobs_of d → eligible labels repos d k → job_CreatedAt j ≤ job_CreatedAt k
    end.
Proof.
  intros Hd Hj Hl Hr. unfold claim_select.
  destruct (claim_rows labels repos d (jobs_of d) [] Hd Hj Hl Hr) as (r & Er & Hin).
  rewrite Er. res_simpl. eexists. split; [done|].
  assert (∀ j, j ∈ r ↔ j ∈ jobs_of d ∧ eligible labels repos d j) as Hin'
    by (intros j; rewrite Hin, elem_of_nil; tauto).
  destruct (head (ci_by_created r)) as [j|] eqn:Hh; cbn [fmap option_fmap option_map].
  - apply head_by_created in Hh as [Hjr Hmin]. exists j. apply Hin' in Hjr as [??].
    split; [done|]. split; [done|]. split; [done|]. intros k Hk He. by apply Hmin, Hin'.
  - intros j Hjd He. assert (j ∈ r) as Hjr by by apply Hin'.
    rewrite <-ci_by_created_perm in Hjr. destruct (ci_by_created r); [by apply elem_of_nil in Hjr|done].
Qed.
End claim.

(** ** Single statements

    Every call of the server is a sequence of statements, and the statements of
    concurrent calls interleave. *)

Inductive stmt :=
| QCreateRun (id : string) (now : Z) (workflowID repoID event ref sha payload by_ : string)
| QRunStatus (id status : string) (now : Z)
| QRunComplete (id conclusion : string) (now : Z)
| QCreateJob (id : string) (now : Z) (runID name : string) (needs : option (list string))
    (matrix : string) (runsOn : option (list string))
| QClaim (runnerID id : string)
| QStart (id runnerName : string) (now : Z)
| QComplete (id conclusion : string) (now : Z)
| QHeartbeat (id : string) (now : Z)
| QOutputs (id : string) (outputs : gmap string string)
| QSummary (id summary : string)
| QAcquire (id : string) (now : Z) (groupKey runID repoID jobID : string)
| QRelease (runID : string)
| QReleaseGroup (groupKey : string)
| QReleaseStale (repoID : string).

(** The state after a statement, and the job that it claimed. *)
Definition run_stmt `{CiDriver} (q : stmt) (d : CiDB) : CiDB * list (string * string) :=
  match q with
  | QCreateRun id now wf repo ev ref sha payload by_ =>
    ((CreateWorkflowRun id now wf repo ev ref sha payload by_ d).1, [])
  | QRunStatus id status now => (UpdateWorkflowRunStatus id status now d, [])
  | QRunComplete id c now => (CompleteWorkflowRun id c now d, [])
  | QCreateJob id now run name needs matrix runsOn =>
    ((CreateJob id now run name needs matrix runsOn d).1, [])
  | QClaim runner id =>
    let '(d', affected) := claim_update runner id d in
    (d', if affected =? 0 then [] else [(id, runner)])
  | QStart id name now => (StartJob id name now d, [])
  | QComplete id c now => (CompleteJob id c now d, [])
  | QHeartbeat id now => (HeartbeatJob id now d, [])
  | QOutputs id o => (SetJobOutputs id o d, [])
  | QSummary id s => (SetJobSummary id s d, [])
  | QAcquire id now g run repo job => ((AcquireConcurrencyLock id now g run repo job d).1, [])
  | QRelease run => (ReleaseConcurrencyLock run d, [])
  | QReleaseGroup g => (ReleaseConcurrencyLockByGroup g d, [])
  | QReleaseStale repo => (ReleaseStaleLocksForRepo repo d, [])
  end.

Fixpoint run_stmts `{CiDriver} (l : list stmt) (d : CiDB) : CiDB * list (string * string) :=
  match l with
  | [] => (d, [])
  | q :: l =>
    let '(d1, c1) := run_stmt q d in
    let '(d2, c2) := run_stmts l d1 in
    (d2, c1 ++ c2)
  end.

(** ** Lemmas: statements *)

(** A job that has left the queue, and the runner it belongs to. *)
Definition settled (d : CiDB) (id : string) (runner : option string) : Prop :=
  ∃ j, db_jobs d !! id = Some j ∧ job_Status j ≠ JobStatusQueued ∧ job_RunnerID j = runner.

Lemma update_job_settled id' f d id r :
  (∀ j, job_RunnerID (f j) = job_RunnerID j) →
  (∀ j, job_Status j ≠ JobStatusQueued → job_Status (f j) ≠ JobStatusQueued) →
  settled d id r → settled (update_job id' f d) id r.
Proof.
  intros Hr Hs (j & Hj & Hq & Hrr). unfold settled, update_job. cbn [db_jobs set_jobs].
  destruct (decide (id' = id)) as [->|Hne].
  - exists (f j). rewrite lookup_alter_eq, Hj. split; [done|]. split; [by apply Hs|]. by rewrite Hr.
  - exists j. by rewrite lookup_alter_ne.
Qed.

Lemma CreateWorkflowRun_jobs id now wf repo ev ref sha payload by_ d :
  db_jobs (CreateWorkflowRun id now wf repo ev ref sha payload by_ d).1 = db_jobs d.
Proof.
  unfold CreateWorkflowRun. st_simpl. destruct (bool_decide _); [done|].
  destruct (bool_decide _); [done|]. destruct (bool_decide _); [done|]. done.
Qed.

Lemma CreateJob_jobs `{CiDriver} id now run name needs matrix runsOn d :
  db_jobs (CreateJob id now run name needs matrix runsOn d).1 = db_jobs d ∨
  db_jobs d !! id = None ∧ ∃ j, job_Status j = JobStatusQueued ∧ job_ID j = id ∧
    db_jobs (CreateJob id now run name needs matrix runsOn d).1 = <[id := j]> (db_jobs d).
Proof.
  unfold CreateJob. destruct (storable name); st_simpl; [|by left].
  destruct (bool_decide _) eqn:E; [by left|].
  destruct (bool_decide (db_runs d !! run = None)); [by left|]. right.
  split; [|eexists; split; [|split; [|reflexivity]]; done].
  apply bool_decide_eq_false, eq_None_not_Some in E. done.
Qed.

Lemma insert_lock_jobs l d : db_jobs (insert_lock l d).1 = db_jobs d.
Proof.
  unfold insert_lock. st_simpl. destruct (bool_decide _); [done|].
  destruct (existsb _ _); [done|]. destruct (bool_decide _); [done|].
  by destruct (bool_decide _).
Qed.

Lemma AcquireConcurrencyLock_jobs id now g run repo job d :
  db_jobs (AcquireConcurrencyLock id now g run repo job d).1 = db_jobs d.
Proof.
  unfold AcquireConcurrencyLock. set (l := mk_ConcurrencyLock _ _ _ _ _ _).
  pose proof (insert_lock_jobs l d) as E. destruct (insert_lock l d) as [d' [u|e|]]; [done| |done].
  by destruct (GetConcurrencyLock d g).
Qed.

Lemma run_stmt_settled `{CiDriver} q d id r :
  settled d id r → settled (run_stmt q d).1 id r ∧ id ∉ (run_stmt q d).2.*1.
Proof.
  intros Hs. assert (∀ d', db_jobs d' = db_jobs d → settled d' id r) as Hsame
    by (intros d' E; unfold settled; by rewrite E).
  assert (id ∉ ([] : list (string * string)).*1) as Hnil by by intros ?%elem_of_nil.
  destruct q; cbn [run_stmt fst snd].
  - split; [|done]. apply Hsame, CreateWorkflowRun_jobs.
  - split; [|done]. apply Hsame. unfold UpdateWorkflowRunStatus. by destruct (decide _).
  - split; [|done]. by apply Hsame.
  - split; [|done]. destruct (CreateJob_jobs id0 now runID name needs matrix runsOn d)
      as [E|(Hn & j & _ & _ & E)]; [by apply Hsame|].
    destruct Hs as (j' & Hj & ? & ?). exists j'. rewrite E. split; [|done].
    by rewrite lookup_insert_ne by congruence.
  - unfold claim_update. destruct Hs as (j & Hj & Hq & Hr).
    destruct (db_jobs d !! id0) as [j0|] eqn:E; cbn; [|split; [by exists j|done]].
    destruct (decide (job_Status j0 = JobStatusQueued)) as [Hq'|]; cbn; [|split; [by exists j|done]].
    assert (id0 ≠ id) as Hne by congruence. split; [|set_solver].
    exists j. cbn. by rewrite lookup_alter_ne.
  - split; [by apply update_job_settled|done].
  - split; [by apply update_job_settled|done].
  - split; [|done]. apply update_job_settled; [..|done]; intros j; by destruct (decide _).
  - split; [by apply update_job_settled|done].
  - split; [by apply update_job_settled|done].
  - split; [|done]. apply Hsame, AcquireConcurrencyLock_jobs.
  - split; [|done]. by apply Hsame.
  - split; [|done]. by apply Hsame.
  - split; [|done]. by apply Hsame.
Qed.

Lemma run_stmts_settled `{CiDriver} l d id r :
  settled d id r → settled (run_stmts l d).1 id r ∧ id ∉ (run_stmts l d).2.*1.
Proof.
  revert d. induction l as [|q l IH]; intros d Hs; cbn [run_stmts].
  { split; [done|]. by intros ?%elem_of_nil. }
  destruct (run_stmt_settled q d id r Hs) as [H1 H2].
  destruct (run_stmt q d) as [d1 c1]. cbn in H1, H2. destruct (IH d1 H1) as [H3 H4].
  destruct (run_stmts l d1) as [d2 c2]. cbn in *. split; [done|].
  rewrite fmap_app, elem_of_app. tauto.
Qed.

Lemma run_stmt_claims `{CiDriver} q d id r :
  (id, r) ∈ (run_stmt q d).2 →
  (run_stmt q d).2 = [(id, r)] ∧ settled (run_stmt q d).1 id (Some r).
Proof.
  destruct q; cbn [run_stmt snd]; try (by intros ?%elem_of_nil).
  unfold claim_update. destruct (db_jobs d !! id0) as [j|] eqn:E; [|by intros ?%elem_of_nil].
  destruct (decide _) as [Hq|]; [|by intros ?%elem_of_nil]. cbn.
  intros [= -> ->]%list_elem_of_singleton. split; [done|].
  exists (job_claimed runnerID j). cbn. by rewrite lookup_alter_eq, E.
Qed.

(** ** Lemmas: the claim on SQLite *)

Section sqlite.
Context `{CiDriver}.
Hypothesis Hsqlite : ci_driver = DriverSQLite.

Lemma needs_met_sqlite a d j : job_ok j → ∃ b, needs_met a d j = Ok b.
Proof.
  intros [(needs & Hn & Hu) _]. unfold needs_met. rewrite Hn.
  destruct (decide _); [by eexists|]. unfold not_array. rewrite Hsqlite. res_simpl.
  destruct needs as [l|].
  - rewrite json_elements_marshal by done. res_simpl. by eexists.
  - unfold json_elements. rewrite parse_marshal_nil. res_simpl. by eexists.
Qed.

(** The fourth placeholder is the list of labels, and it is bound to the word
    success. *)
Lemma claimable_sqlite labels repos d j :
  job_ok j → RunsOn j ≠ [] →
  claimable (claim_query labels repos) d j = Ok false ∨
  claimable (claim_query labels repos) d j = Err (ErrJSON ConclusionSuccess).
Proof.
  intros Hj Hr. set (a := claim_query labels repos). unfold claimable.
  destruct (decide _); [|by left]. destruct (needs_met_sqlite a d j Hj) as [b ->]. res_simpl.
  destruct b; [|by left]. right. destruct Hj as [_ (l & Hl & Hu)]. unfold RunsOn in Hr.
  unfold runs_on_met. rewrite Hl in *. rewrite unmarshal_marshal in Hr by done.
  rewrite decide_False.
  2: { intros [Ht|Ht]; [|by apply marshal_strings_nonempty in Ht].
       by apply Hr, marshal_strings_nil. }
  rewrite json_elements_marshal by done. res_simpl. destruct l as [|x l]; [done|].
  cbn [fmap list_fmap foldM]. assert (label_met a (Some x) = Err (ErrJSON ConclusionSuccess)) as ->; [|done].
  unfold label_met, a, claim_query, bind_args. rewrite Hsqlite. reflexivity.
Qed.

Lemma claim_rows_sqlite labels repos d l :
  Forall (λ j, job_ok j ∧ RunsOn j ≠ []) l →
  let r := foldM (λ rows j, c ← claimable (claim_query labels repos) d j;
                   Ok (if c : bool then rows ++ [j] else rows)) [] l in
  r = Ok [] ∨ r = Err (ErrJSON ConclusionSuccess).
Proof.
  induction 1 as [|x l [Hj Hr] _ IH]; cbn [foldM]; [by left|].
  destruct (claimable_sqlite labels repos d x Hj Hr) as [-> | ->]; res_simpl; [exact IH|by right].
Qed.
End sqlite.

(** ** Properties *)

(** C12: A job is claimed once.  However the statements of concurrent requests
    interleave, no job is handed to two runners or twice to one, and the runner
    that claimed a job stays its owner. *)
Theorem claims_once `{CiDriver} (d : CiDB) (l : list stmt) :
  let '(d', claims) := run_stmts l d in
  NoDup claims.*1 ∧ ∀ id r, (id, r) ∈ claims → settled d' id (Some r).
Proof.
  revert d. induction l as [|q l IH]; intros d; cbn [run_stmts].
  { split; [apply NoDup_nil_2|]. by intros id r ?%elem_of_nil. }
  destruct (run_stmt q d) as [d1 c1] eqn:Eq. specialize (IH d1).
  destruct (run_stmts l d1) as [d2 c2] eqn:El. destruct IH as [IH1 IH2].
  assert (∀ id r, (id, r) ∈ c1 → c1 = [(id, r)] ∧ settled d1 id (Some r)) as Hc.
  { intros id r. pose proof (run_stmt_claims q d id r) as Hq. by rewrite Eq in Hq. }
  assert (∀ id r, settled d1 id r → settled d2 id r ∧ id ∉ c2.*1) as Hs.
  { intros id r Hr. pose proof (run_stmts_settled l d1 id r Hr) as Hs. by rewrite El in Hs. }
  split.
  - rewrite fmap_app. destruct c1 as [|[id r] c1]; [done|].
    destruct (Hc id r) as [[= ->] Hset]; [by left|]. cbn. apply NoDup_cons. split; [|done].
    by apply (Hs id (Some r)).
  - intros id r [Hin|Hin]%elem_of_app; [|by apply IH2]. by apply Hs, Hc.
Qed.

(** C15: What a runner gets.  On Postgres, a claim that is not interrupted takes
    the oldest queued job whose needed jobs have all completed with success in
    the same run, all of whose labels the runner stands for and whose
    repository the runner accepts; nothing else changes.  Without such a job
    nothing changes at all. *)
Theorem ClaimJob_spec `{CiDriver} runnerID labels repos d :
  ci_driver = DriverPostgres → keys_ok d → Forall job_ok (jobs_of d) →
  Forall utf8 (expand_labels labels) → Forall utf8 repos →
  match ClaimJob runnerID labels repos d with
  | (d', Ok None) => d' = d ∧ ∀ j, j ∈ jobs_of d → ¬ eligible labels repos d j
  | (d', Ok (Some j')) => ∃ j, j ∈ jobs_of d ∧ eligible labels repos d j ∧
      (∀ k, k ∈ jobs_of d → eligible labels repos d k → job_CreatedAt j ≤ job_CreatedAt k) ∧
      j' = job_claimed runnerID j ∧
      d' = set_jobs (<[job_ID j := j']> (db_jobs d)) d
  | _ => False
  end.
Proof.
  intros Hd Hk Hj Hl Hr. destruct (claim_select_ok labels repos d Hd Hj Hl Hr) as (o & Eo & Ho).
  unfold ClaimJob. st_simpl. rewrite Eo. destruct o as [id|]; [|done].
  destruct Ho as (j & <- & Hin & He & Hmin). pose proof (proj1 (elem_of_jobs d j Hk) Hin) as Hlk.
  unfold claim_update. rewrite Hlk. rewrite decide_True by apply He. cbn [Z.eqb].
  unfold GetJobByID. cbn [db_jobs update_job set_jobs]. rewrite lookup_alter_eq, Hlk. cbn [fmap option_fmap option_map].
  exists j. split; [done|]. split; [done|]. split; [done|]. split; [done|].
  unfold update_job. f_equal. apply map_eq. intros i. destruct (decide (i = job_ID j)) as [->|Hne].
  - by rewrite lookup_alter_eq, lookup_insert_eq, Hlk.
  - by rewrite lookup_alter_ne, lookup_insert_ne.
Qed.

(** On SQLite no job with a label in its runs-on can be claimed.  The query
    is written with anonymous placeholders, which are bound in another order
    than the numbered ones of Postgres: the list of labels is compared with the
    conclusions and the word success is parsed as the list of labels.  Either
    nothing is found or the query fails; a runner never gets a job. *)
Theorem ClaimJob_sqlite `{CiDriver} runnerID labels repos d :
  ci_driver = DriverSQLite → Forall (λ j, job_ok j ∧ RunsOn j ≠ []) (jobs_of d) →
  ClaimJob runnerID labels repos d = (d, Ok None) ∨
  ClaimJob runnerID labels repos d = (d, Err (ErrJSON ConclusionSuccess)).
Proof.
  intros Hd Hj. unfold ClaimJob. st_simpl. unfold claim_select.
  destruct (claim_rows_sqlite Hd labels repos d (jobs_of d) Hj) as [-> | ->]; res_simpl; [|by right].
  assert (ci_by_created [] = []) as -> by (by apply Permutation_nil_r, ci_by_created_perm).
  cbn. by left.
Qed.

(** ** Witnesses *)

Definition demo_run (id : string) : WorkflowRun :=
  mk_WorkflowRun id "wf" "repo" 1 "push" "refs/heads/main" "" "{}" RunStatusQueued None None None 100 None.
Definition demo_ci : CiDB :=
  mk_CiDB {["run1" := demo_run "run1"]} ∅ ∅ {["wf"]} {["repo" := ("kai", "server")]}.
Definition demo_jobs_script : list stmt :=
  [QCreateJob "j1" 100 "run1" "build" None "" (Some ["ubuntu-latest"]);
   QCreateJob "j2" 101 "run1" "test" (Some ["build"]) "" (Some ["ubuntu-latest"]);
   QCreateJob "j3" 102 "run1" "deploy" (Some ["test"]) "" (Some ["ubuntu-latest"])].
Definition demo_ci_jobs : CiDB := (@run_stmts (plain_driver DriverPostgres) demo_jobs_script demo_ci).1.

(** Two runners find the same job; one gets it. *)
Definition demo_race : list stmt :=
  demo_jobs_script ++ [QClaim "r1" "j1"; QClaim "r2" "j1"; QStart "j1" "runner 1" 110;
                       QHeartbeat "j1" 111; QComplete "j1" ConclusionSuccess 120; QClaim "r2" "j2"].

Lemma utf8_ascii s : is_ascii (bytes_of s) = true → utf8 s.
Proof. apply valid_utf8_ascii. Qed.

Ltac utf8_all := repeat (apply Forall_cons_2; [by apply utf8_ascii|]); apply Forall_nil_2.

Lemma demo_keys : keys_ok demo_ci_jobs.
Proof.
  intros id j Hj. apply elem_of_map_to_list in Hj. vm_compute in Hj.
  repeat (apply elem_of_cons in Hj as [[= -> ->]|Hj]; [done|]). by apply elem_of_nil in Hj.
Qed.

Lemma demo_rows_ok : Forall (λ j, job_ok j ∧ RunsOn j ≠ []) (jobs_of demo_ci_jobs).
Proof.
  assert (∀ j needs, job_Needs j = Some (marshal_strings needs) →
    job_RunsOn j = marshal_strings (Some ["ubuntu-latest"]) → Forall utf8 (default [] needs) →
    job_ok j ∧ RunsOn j ≠ []) as Hrow.
  { intros j needs Hn Hr Hu. split.
    - split; [by exists needs|]. exists ["ubuntu-latest"]. split; [done|]. utf8_all.
    - unfold RunsOn. rewrite Hr. vm_compute. done. }
  apply Forall_forall. intros j Hj. apply elem_of_jobs in Hj; [|exact demo_keys].
  apply elem_of_map_to_list in Hj. vm_compute in Hj.
  repeat (apply elem_of_cons in Hj as [[= _ ->]|Hj];
    [first [apply (Hrow _ None); [vm_compute; reflexivity..|cbn; utf8_all]
           |apply (Hrow _ (Some ["build"])); [vm_compute; reflexivity..|cbn; utf8_all]
           |apply (Hrow _ (Some ["test"])); [vm_compute; reflexivity..|cbn; utf8_all]]|]).
  by apply elem_of_nil in Hj.
Qed.

Lemma ClaimJob_spec_witness :
  ∃ j', (@ClaimJob (plain_driver DriverPostgres) "r1" ["linux"] ["kai/server"] demo_ci_jobs).2 = Ok (Some j')
        ∧ job_Name j' = "build" ∧ job_RunnerID j' = Some "r1".
Proof.
  assert (∀ d, Forall (λ j, job_ok j ∧ RunsOn j ≠ []) (jobs_of d) → Forall job_ok (jobs_of d)) as Hok
    by (intros d Hd; eapply Forall_impl; [exact Hd|]; by intros ? [? _]).
  pose proof (@ClaimJob_spec (plain_driver DriverPostgres) "r1" ["linux"] ["kai/server"] demo_ci_jobs
    eq_refl demo_keys (Hok _ demo_rows_ok) ltac:(cbn; utf8_all) ltac:(utf8_all)) as Hs.
  destruct (@ClaimJob (plain_driver DriverPostgres) "r1" ["linux"] ["kai/server"] demo_ci_jobs)
    as [d' [[j'|]|e|]] eqn:E; [| |destruct Hs..].
  - exists j'. split; [done|]. vm_compute in E. injection E as _ <-. done.
  - exfalso. vm_compute in E. done.
Defined.

Lemma ClaimJob_sqlite_witness :
  (@ClaimJob (plain_driver DriverSQLite) "r1" ["linux"] [] demo_ci_jobs).2 = Ok None.
Proof.
  destruct (@ClaimJob_sqlite (plain_driver DriverSQLite) "r1" ["linux"] [] demo_ci_jobs eq_refl demo_rows_ok)
    as [E|E]; rewrite E; [done|]. vm_compute in E. done.
Defined.

Example demo_claims : (@run_stmts (plain_driver DriverPostgres) demo_race demo_ci).2 = [("j1", "r1"); ("j2", "r2")].
Proof. vm_compute. reflexivity. Qed.

(** What is said about a label when jobs are created is not what the claim
    does: the label table knows ubuntu as ubuntu-latest, the claim does not,
    and the claim takes every label that starts with linux for linux. *)
Example label_tables_differ :
  (matchesRunsOn "ubuntu" "ubuntu-latest", bool_decide ("ubuntu-latest" ∈ expand_labels ["ubuntu"]),
   matchesRunsOn "linux-arm64" "ubuntu-latest",
   bool_decide ("ubuntu-latest" ∈ expand_labels ["linux-arm64"])) = (true, false, false, true).
Proof. vm_compute. reflexivity. Qed.
