(* ===== verification/CiControl.v ===== *)
(** * The CI control plane (kailab-control/internal/api/ci.go, scheduler.go)

    The handlers that runners, users and the reaper call, as compositions of
    the statements of [CiStore].  The handlers ignore the errors of most
    statements, so they are functions of the state. *)

From S2P Require Import Prelude Json JobGraph CiStore.
Local Open Scope Z_scope.

(** ** The handlers *)

Section handlers.
Context `{CiDriver}.

Definition Handler_StartJob (jobID runnerName : string) (now : Z) (d : CiDB) : CiDB :=
  let d := StartJob jobID runnerName now d in
  let d := HeartbeatJob jobID now d in
  match GetJobByID d jobID with
  | Ok job =>
    match GetWorkflowRunByID d (job_WorkflowRunID job) with
    | Ok run => if decide (run_Status run = RunStatusQueued)
                then UpdateWorkflowRunStatus (run_ID run) RunStatusInProgress now d else d
    | _ => d
    end
  | _ => d
  end.

(** The conclusions of the completed jobs by name; of two jobs with one name
    the later counts. *)
Definition conclusions (l : list Job) : gmap string string :=
  foldl (λ m j, if decide (job_Status j = JobStatusCompleted)
                then <[job_Name j := default "" (job_Conclusion j)]> m else m) ∅ l.

Definition cancel_dependent (now : Z) (acc : CiDB * gmap string string) (job : Job)
  : CiDB * gmap string string :=
  let '(d, conclusionByName) := acc in
  if decide (job_Status job ≠ JobStatusQueued ∧ job_Status job ≠ JobStatusPending) then acc
  else if existsb (λ need, bool_decide (conclusionByName !! need = Some ConclusionFailure)) (Needs job)
  then (CompleteJob (job_ID job) ConclusionCancelled now d,
        <[job_Name job := ConclusionCancelled]> conclusionByName)
  else acc.

(** The loop that looks for an incomplete job; [None] when there is one. *)
Fixpoint run_outcome (anyFailed anyCancelled : bool) (l : list Job) : option (bool * bool) :=
  match l with
  | [] => Some (anyFailed, anyCancelled)
  | j :: l =>
    if decide (job_Status j ≠ JobStatusCompleted) then None
    else run_outcome (anyFailed || bool_decide (default "" (job_Conclusion j) = ConclusionFailure))
           (anyCancelled || bool_decide (default "" (job_Conclusion j) = ConclusionCancelled)) l
  end.

Definition checkAndCompleteWorkflowRun (runID : string) (now : Z) (d : CiDB) : CiDB :=
  let jobs := ListWorkflowRunJobs d runID in
  let '(d, _) := foldl (cancel_dependent now) (d, conclusions jobs) jobs in
  match run_outcome false false (ListWorkflowRunJobs d runID) with
  | None => d
  | Some (anyFailed, anyCancelled) =>
    let conclusion := if anyFailed : bool then ConclusionFailure
                      else if anyCancelled : bool then ConclusionCancelled
                      else ConclusionSuccess in
    ReleaseConcurrencyLock runID (CompleteWorkflowRun runID conclusion now d)
  end.

Definition Handler_CompleteJob (jobID conclusion : string) (outputs : gmap string string)
    (summary : string) (now : Z) (d : CiDB) : CiDB :=
  let d := CompleteJob jobID conclusion now d in
  let d := if decide (outputs = ∅) then d else SetJobOutputs jobID outputs d in
  let d := if decide (summary = "") then d else SetJobSummary jobID summary d in
  match GetJobByID d jobID with
  | Ok job => checkAndCompleteWorkflowRun (job_WorkflowRunID job) now d
  | _ => d
  end.

Definition Handler_Heartbeat (jobID : string) (now : Z) : CiDB → CiDB := HeartbeatJob jobID now.

(** Five minutes without a heartbeat, 45 minutes for a job that never had
    one. *)
Definition reapStaleJobs (now : Z) (d : CiDB) : CiDB :=
  let '(d, affectedRunIDs) := FailStaleJobs (5 * 60) (45 * 60) now d in
  foldl (λ d runID, checkAndCompleteWorkflowRun runID now d) d affectedRunIDs.

Inductive cancel_error := ErrRunNotFound | ErrRunCompleted.

Definition Handler_CancelWorkflowRun (runID : string) (now : Z) (d : CiDB)
  : CiDB * res cancel_error () :=
  match GetWorkflowRunByID d runID with
  | Ok run =>
    if decide (run_Status run = RunStatusCompleted) then (d, Err ErrRunCompleted)
    else
      let d := CompleteWorkflowRun runID ConclusionCancelled now d in
      (foldl (λ d job, if decide (job_Status job ≠ JobStatusCompleted)
                       then CompleteJob (job_ID job) ConclusionCancelled now d else d)
         d (ListWorkflowRunJobs d runID), Ok ())
  | _ => (d, Err ErrRunNotFound)
  end.

(** One matching workflow of a trigger, up to the creation of its jobs, with its
    concurrency group (interpolated) and whether it cancels the run in progress;
    [None] when no run is created. *)
Definition trigger_run (runID lockID : string) (now : Z)
    (workflowID repoID event ref sha payload createdBy : string)
    (concurrency : option (string * bool)) (d : CiDB) : CiDB * option WorkflowRun :=
  let concurrencyGroup := match concurrency with Some (g, _) => g | None => "" end in
  let create (d : CiDB) :=
    match CreateWorkflowRun runID now workflowID repoID event ref sha payload createdBy d with
    | (d', Ok run) =>
      (if decide (concurrencyGroup = "") then d'
       else (AcquireConcurrencyLock lockID now concurrencyGroup (run_ID run) repoID "" d').1,
       Some run)
    | (d', _) => (d', None)
    end in
  match concurrency with
  | None => create d
  | Some (_, cancelInProgress) =>
    match GetConcurrencyLock d concurrencyGroup with
    | Ok existing =>
      if cancelInProgress : bool then
        create (ReleaseConcurrencyLock (lock_WorkflowRunID existing)
                  (CompleteWorkflowRun (lock_WorkflowRunID existing) ConclusionCancelled now d))
      else (d, None)
    | _ => create d
    end
  end.

(** ** The operations of runners and of the reaper *)

Inductive op :=
| OClaim (runnerID : string) (labels repos : list string)
| OStart (id runnerName : string) (now : Z)
| OComplete (id conclusion : string) (outputs : gmap string string) (summary : string) (now : Z)
| OHeartbeat (id : string) (now : Z)
| OReap (now : Z).

Definition run_op (o : op) (d : CiDB) : CiDB :=
  match o with
  | OClaim r labels repos => (ClaimJob r labels repos d).1
  | OStart id name now => Handler_StartJob id name now d
  | OComplete id c outputs summary now => Handler_CompleteJob id c outputs summary now d
  | OHeartbeat id now => Handler_Heartbeat id now d
  | OReap now => reapStaleJobs now d
  end.

(** A runner starts jobs that were claimed and completes jobs that it runs. *)
Definition well_behaved (d : CiDB) (o : op) : Prop :=
  match o with
  | OStart id _ _ => (job_Status <$> db_jobs d !! id) = Some JobStatusPending
  | OComplete id _ _ _ _ => (job_Status <$> db_jobs d !! id) = Some JobStatusPending ∨
                            (job_Status <$> db_jobs d !! id) = Some JobStatusInProgress
  | _ => True
  end.

Inductive steps : CiDB → CiDB → Prop :=
| steps_refl d : steps d d
| steps_op o d d' : well_behaved d o → steps (run_op o d) d' → steps d d'.
End handlers.

(** ** Lemmas: completing many jobs *)

Definition ids (l : list Job) : list string := job_ID <$> l.

(** One statement for each job of a list. *)
Definition complete_all (c : string) (now : Z) (d : CiDB) (l : list Job) : CiDB :=
  foldl (λ d j, CompleteJob (job_ID j) c now d) d l.

Lemma complete_all_other c now l d :
  db_runs (complete_all c now d l) = db_runs d ∧ db_locks (complete_all c now d l) = db_locks d ∧
  db_workflows (complete_all c now d l) = db_workflows d ∧
  db_repos (complete_all c now d l) = db_repos d.
Proof. revert d. induction l as [|j l IH]; intros d; [done|]. cbn [complete_all foldl]. apply (IH (CompleteJob _ _ _ _)). Qed.

Lemma complete_all_lookup c now l d id :
  NoDup (ids l) →
  db_jobs (complete_all c now d l) !! id =
  if decide (id ∈ ids l) then job_completed c now <$> db_jobs d !! id else db_jobs d !! id.
Proof.
  revert d. induction l as [|j l IH]; intros d Hn; cbn [complete_all foldl ids fmap list_fmap].
  { rewrite decide_False; [done|]. by intros ?%elem_of_nil. }
  apply NoDup_cons in Hn as [Hj Hn]. fold (complete_all c now (CompleteJob (job_ID j) c now d) l).
  rewrite IH by done. unfold CompleteJob, update_job. cbn [db_jobs set_jobs]. fold (ids l) in *.
  destruct (decide (id = job_ID j)) as [->|Hne].
  - rewrite decide_False by done. rewrite decide_True by by left. by rewrite lookup_alter_eq.
  - rewrite lookup_alter_ne by done. apply decide_ext. rewrite elem_of_cons. tauto.
Qed.

Lemma NoDup_ids d : keys_ok d → NoDup (ids (jobs_of d)).
Proof.
  intros Hk. unfold ids, jobs_of. rewrite <-list_fmap_compose.
  assert ((λ kj : string * Job, job_ID kj.2) <$> map_to_list (db_jobs d) = (map_to_list (db_jobs d)).*1) as E.
  { apply list_fmap_ext. intros i [k j] Hij. cbn. apply Hk.
    apply elem_of_map_to_list. by eapply list_elem_of_lookup_2. }
  unfold compose. rewrite E. apply NoDup_fst_map_to_list.
Qed.

(** ** Lemmas: what a pass over a run does to its jobs *)

Definition waiting (j : Job) : Prop :=
  job_Status j = JobStatusQueued ∨ job_Status j = JobStatusPending.
#[export] Instance waiting_dec j : Decision (waiting j).
Proof. unfold waiting. apply _. Defined.

Definition dep_failed (concl : gmap string string) (j : Job) : Prop :=
  existsb (λ need, bool_decide (concl !! need = Some ConclusionFailure)) (Needs j) = true.
#[export] Instance dep_failed_dec concl j : Decision (dep_failed concl j).
Proof. unfold dep_failed. apply _. Defined.

Lemma dep_failed_iff concl j :
  dep_failed concl j ↔ ∃ need, need ∈ Needs j ∧ concl !! need = Some ConclusionFailure.
Proof. unfold dep_failed. rewrite existsb_elem. by setoid_rewrite bool_decide_eq_true. Qed.

Lemma cancel_dependent_cases now d concl j :
  cancel_dependent now (d, concl) j = (d, concl) ∧ ¬ (waiting j ∧ dep_failed concl j) ∨
  cancel_dependent now (d, concl) j =
    (CompleteJob (job_ID j) ConclusionCancelled now d, <[job_Name j := ConclusionCancelled]> concl) ∧
  waiting j ∧ dep_failed concl j.
Proof.
  unfold cancel_dependent, dep_failed, waiting. destruct (decide _) as [Hw|Hw].
  - left. split; [done|]. tauto.
  - destruct (existsb _ _); [right|left]; (split; [done|]); [|naive_solver].
    split; [|done]. destruct (decide (job_Status j = JobStatusQueued)); [by left|].
    destruct (decide (job_Status j = JobStatusPending)); [by right|]. tauto.
Qed.

(** Only waiting jobs with a failed need are cancelled. *)
Lemma cascade_sub now concl0 concl l d :
  (∀ n, concl !! n = Some ConclusionFailure → concl0 !! n = Some ConclusionFailure) →
  ∃ l', l' `sublist_of` l ∧ (∀ j, j ∈ l' → waiting j ∧ dep_failed concl0 j) ∧
    (foldl (cancel_dependent now) (d, concl) l).1 = complete_all ConclusionCancelled now d l'.
Proof.
  revert d concl. induction l as [|j l IH]; intros d concl Hc; cbn [foldl].
  { exists []. split; [done|]. split; [by intros j ?%elem_of_nil|done]. }
  destruct (cancel_dependent_cases now d concl j) as [[-> _]|(-> & Hw & Hd)].
  - destruct (IH d concl Hc) as (l' & H1 & H2 & H3). exists l'. split; [by apply sublist_cons|done].
  - destruct (IH (CompleteJob (job_ID j) ConclusionCancelled now d) (<[job_Name j := ConclusionCancelled]> concl))
      as (l' & H1 & H2 & H3).
    { intros n. destruct (decide (job_Name j = n)) as [->|Hne];
        [by rewrite lookup_insert_eq|rewrite lookup_insert_ne by done; apply Hc]. }
    exists (j :: l'). split; [by apply sublist_skip|]. split; [|done].
    intros k [->|Hk]%elem_of_cons; [|by apply H2]. split; [done|]. apply dep_failed_iff.
    apply dep_failed_iff in Hd as (need & ? & ?). exists need. split; [done|]. by apply Hc.
Qed.

(** When no waiting job bears the name of a failed one, all of those are
    cancelled. *)
Lemma cascade_exact now (concl0 concl : gmap string string) l d :
  (∀ n, concl !! n = Some ConclusionFailure ↔ concl0 !! n = Some ConclusionFailure) →
  (∀ j, j ∈ l → waiting j → concl0 !! job_Name j ≠ Some ConclusionFailure) →
  (foldl (cancel_dependent now) (d, concl) l).1 =
  complete_all ConclusionCancelled now d
    (filter (λ j, waiting j ∧ dep_failed concl0 j) l).
Proof.
  revert d concl. induction l as [|j l IH]; intros d concl Hc Hl; cbn [foldl]; [done|].
  assert (∀ k, k ∈ l → waiting k → concl0 !! job_Name k ≠ Some ConclusionFailure) as Hl'
    by (intros k Hk; apply Hl; by right).
  assert (dep_failed concl j ↔ dep_failed concl0 j) as Hd
    by (rewrite !dep_failed_iff; by setoid_rewrite Hc).
  rewrite filter_cons. destruct (cancel_dependent_cases now d concl j) as [[-> Hn]|(-> & Hw & Hf)].
  - rewrite decide_False by (rewrite <-Hd; done). by apply IH.
  - rewrite decide_True by (rewrite <-Hd; done). cbn [complete_all foldl]. apply IH; [|done].
    intros n. destruct (decide (job_Name j = n)) as [<-|Hne].
    + rewrite lookup_insert_eq. split; [done|]. intros E. by destruct (Hl j ltac:(by left) Hw).
    + by rewrite lookup_insert_ne.
Qed.

Lemma conclusions_failure l n :
  conclusions l !! n = Some ConclusionFailure →
  ∃ j, j ∈ l ∧ job_Name j = n ∧ job_Status j = JobStatusCompleted ∧
       job_Conclusion j = Some ConclusionFailure.
Proof.
  unfold conclusions. induction l as [|j l IH] using rev_ind; [done|]. rewrite foldl_app. cbn [foldl].
  set (m := foldl _ _ l) in *. intros Hm.
  assert (m !! n = Some ConclusionFailure ∨ job_Name j = n ∧ job_Status j = JobStatusCompleted ∧
    job_Conclusion j = Some ConclusionFailure) as [H|H].
  { revert Hm. destruct (decide (job_Status j = JobStatusCompleted)); intros Hm; [|by left].
    destruct (decide (job_Name j = n)) as [<-|Hne]; [|rewrite lookup_insert_ne in Hm by done; by left].
    rewrite lookup_insert_eq in Hm. injection Hm as Hm. right. split; [done|]. split; [done|].
    destruct (job_Conclusion j); cbn in Hm; [by rewrite Hm|done]. }
  - destruct (IH H) as (k & ? & ?). exists k. split; [|done]. apply elem_of_app. by left.
  - exists j. split; [|done]. apply elem_of_app. right. by left.
Qed.

(** With distinct names every completed job is found. *)
Lemma conclusions_unique l j :
  NoDup (job_Name <$> l) → j ∈ l → job_Status j = JobStatusCompleted →
  conclusions l !! job_Name j = Some (default "" (job_Conclusion j)).
Proof.
  unfold conclusions. induction l as [|x l IH] using rev_ind; [by intros _ ?%elem_of_nil|].
  rewrite fmap_app. intros (Hn & Hx & _)%NoDup_app Hj Hs. rewrite foldl_app. cbn [foldl].
  apply elem_of_app in Hj as [Hj| ->%list_elem_of_singleton].
  - destruct (decide (job_Status x = JobStatusCompleted)); [|by apply IH].
    rewrite lookup_insert_ne; [by apply IH|]. intros E.
    apply (Hx (job_Name j)); [by apply list_elem_of_fmap_2|]. rewrite <-E. by left.
  - rewrite decide_True by done. by rewrite lookup_insert_eq.
Qed.

Lemma run_outcome_spec l a b :
  match run_outcome a b l with
  | None => ∃ j, j ∈ l ∧ job_Status j ≠ JobStatusCompleted
  | Some (a', b') => (∀ j, j ∈ l → job_Status j = JobStatusCompleted) ∧
      (a' = true ↔ a = true ∨ ∃ j, j ∈ l ∧ job_Conclusion j = Some ConclusionFailure) ∧
      (b' = true ↔ b = true ∨ ∃ j, j ∈ l ∧ job_Conclusion j = Some ConclusionCancelled)
  end.
Proof.
  revert a b. induction l as [|j l IH]; intros a b; cbn [run_outcome].
  { split; [by intros ? ?%elem_of_nil|].
    split; (split; [by left|]); by intros [?|(? & ?%elem_of_nil & _)]. }
  destruct (decide _) as [Hs|Hs]; [exists j; split; [by left|done]|].
  apply dec_stable in Hs.
  assert (∀ c, c ≠ "" → bool_decide (default "" (job_Conclusion j) = c) = true ↔ job_Conclusion j = Some c) as Hb.
  { intros c Hc. rewrite bool_decide_eq_true. destruct (job_Conclusion j); cbn; naive_solver. }
  specialize (IH (a || bool_decide (default "" (job_Conclusion j) = ConclusionFailure))
    (b || bool_decide (default "" (job_Conclusion j) = ConclusionCancelled))).
  destruct (run_outcome _ _ l) as [[a' b']|].
  - destruct IH as (H1 & H2 & H3). rewrite orb_true_iff, Hb in H2, H3 by done.
    split; [|split].
    + intros k [->|Hk]%elem_of_cons; [done|by apply H1].
    + rewrite H2. setoid_rewrite elem_of_cons. naive_solver.
    + rewrite H3. setoid_rewrite elem_of_cons. naive_solver.
  - destruct IH as (k & ? & ?). exists k. split; [by right|done].
Qed.

Section runs.
Context `{CiDriver}.

Lemma elem_of_run_jobs d run j :
  j ∈ ListWorkflowRunJobs d run ↔ j ∈ jobs_of d ∧ job_WorkflowRunID j = run.
Proof. unfold ListWorkflowRunJobs. rewrite ci_by_created_perm, list_elem_of_filter. tauto. Qed.

Lemma NoDup_run_ids d run : keys_ok d → NoDup (ids (ListWorkflowRunJobs d run)).
Proof.
  intros Hk. unfold ids, ListWorkflowRunJobs. rewrite ci_by_created_perm.
  eapply sublist_NoDup; [by apply NoDup_ids|]. apply fmap_sublist, sublist_filter.
Qed.

Lemma elem_of_ids d l j :
  keys_ok d → (∀ k, k ∈ l → k ∈ jobs_of d) → db_jobs d !! job_ID j = Some j →
  job_ID j ∈ ids l ↔ j ∈ l.
Proof.
  intros Hk Hl Hj. unfold ids. rewrite list_elem_of_fmap. split; [|intros ?; by exists j].
  intros (k & E & Hin). apply Hl in Hin as Hin'. apply elem_of_jobs in Hin'; [|done].
  rewrite <-E, Hj in Hin'. by injection Hin' as ->.
Qed.

(** ** Lemmas: what never changes *)

Definition same_job (j j' : Job) : Prop :=
  (job_ID j', job_WorkflowRunID j', job_Name j', job_Needs j', job_RunsOn j', job_CreatedAt j') =
  (job_ID j, job_WorkflowRunID j, job_Name j, job_Needs j, job_RunsOn j, job_CreatedAt j) ∧
  (job_Status j = JobStatusCompleted →
   job_Status j' = JobStatusCompleted ∧ job_Conclusion j' = job_Conclusion j).

Definition frame (d d' : CiDB) : Prop := ∀ id, option_Forall2 same_job (db_jobs d !! id) (db_jobs d' !! id).

Lemma same_job_refl j : same_job j j.
Proof. done. Qed.

#[export] Instance frame_preorder : PreOrder frame.
Proof.
  split.
  - intros d id. destruct (db_jobs d !! id); constructor. apply same_job_refl.
  - intros d1 d2 d3 H1 H2 id. specialize (H1 id). specialize (H2 id).
    destruct H1 as [j1 j2 [E1 S1]|]; inversion H2 as [? j3 [E2 S2]|]; subst; constructor.
    split; [congruence|]. intros Hs. destruct (S1 Hs) as [? ?]. destruct S2; [done|]. split; congruence.
Qed.

Lemma frame_lookup d d' id j :
  frame d d' → db_jobs d !! id = Some j → ∃ j', db_jobs d' !! id = Some j' ∧ same_job j j'.
Proof. intros Hf Hj. specialize (Hf id). rewrite Hj in Hf. inversion Hf; subst. by eexists. Qed.

Lemma frame_lookup_rev d d' id j' :
  frame d d' → db_jobs d' !! id = Some j' → ∃ j, db_jobs d !! id = Some j ∧ same_job j j'.
Proof. intros Hf Hj. specialize (Hf id). rewrite Hj in Hf. inversion Hf; subst. by eexists. Qed.

Lemma frame_keys d d' : frame d d' → keys_ok d → keys_ok d'.
Proof.
  intros Hf Hk id j' Hj. destruct (frame_lookup_rev d d' id j' Hf Hj) as (j & Hj0 & [[= -> _ _ _ _ _] _]).
  by apply Hk.
Qed.

Lemma frame_same d d' : db_jobs d' = db_jobs d → frame d d'.
Proof. intros E id. rewrite E. destruct (db_jobs d !! id); constructor. apply same_job_refl. Qed.

Lemma frame_update id f d :
  (∀ j, db_jobs d !! id = Some j → same_job j (f j)) → frame d (update_job id f d).
Proof.
  intros Hf i. unfold update_job. cbn [db_jobs set_jobs]. destruct (decide (id = i)) as [->|Hne].
  - rewrite lookup_alter_eq. destruct (db_jobs d !! i); constructor. by apply Hf.
  - rewrite lookup_alter_ne by done. destruct (db_jobs d !! i); constructor. apply same_job_refl.
Qed.

Lemma frame_complete_all c now d l :
  keys_ok d → (∀ j, j ∈ l → j ∈ jobs_of d ∧ job_Status j ≠ JobStatusCompleted) → NoDup (ids l) →
  frame d (complete_all c now d l).
Proof.
  intros Hk Hl Hn id. rewrite complete_all_lookup by done.
  destruct (db_jobs d !! id) as [j|] eqn:Hj; [|destruct (decide _); constructor].
  destruct (decide _) as [Hin|]; [|constructor; apply same_job_refl]. constructor.
  split; [done|]. intros Hs. unfold ids in Hin. apply list_elem_of_fmap in Hin as (k & -> & Hin).
  destruct (Hl k Hin) as [Hk1 Hk2]. apply elem_of_jobs in Hk1; [|done]. congruence.
Qed.

(** ** Lemmas: the pass over a run *)

Lemma check_cases run now d :
  let d1 := (foldl (cancel_dependent now) (d, conclusions (ListWorkflowRunJobs d run))
               (ListWorkflowRunJobs d run)).1 in
  db_jobs (checkAndCompleteWorkflowRun run now d) = db_jobs d1 ∧
  match run_outcome false false (ListWorkflowRunJobs d1 run) with
  | None => checkAndCompleteWorkflowRun run now d = d1
  | Some (f, c) => checkAndCompleteWorkflowRun run now d =
      ReleaseConcurrencyLock run (CompleteWorkflowRun run
        (if f then ConclusionFailure else if c then ConclusionCancelled else ConclusionSuccess) now d1)
  end.
Proof.
  cbv zeta. unfold checkAndCompleteWorkflowRun. destruct (foldl _ _ _) as [d1 m]. cbn [fst].
  by destruct (run_outcome _ _ _) as [[f c]|].
Qed.

(** The jobs that a pass cancels. *)
Lemma check_sub run now d :
  keys_ok d →
  ∃ l, NoDup (ids l) ∧
    (∀ j, j ∈ l → j ∈ jobs_of d ∧ job_WorkflowRunID j = run ∧ waiting j ∧
       ∃ need dep, need ∈ Needs j ∧ dep ∈ jobs_of d ∧ job_WorkflowRunID dep = run ∧
         job_Name dep = need ∧ job_Status dep = JobStatusCompleted ∧
         job_Conclusion dep = Some ConclusionFailure) ∧
    (foldl (cancel_dependent now) (d, conclusions (ListWorkflowRunJobs d run))
       (ListWorkflowRunJobs d run)).1 = complete_all ConclusionCancelled now d l.
Proof.
  intros Hk. destruct (cascade_sub now (conclusions (ListWorkflowRunJobs d run)) _
    (ListWorkflowRunJobs d run) d (λ n Hc, Hc)) as (l & Hs & Hl & E).
  exists l. split; [|split; [|exact E]].
  - eapply sublist_NoDup; [by apply NoDup_run_ids|]. by apply fmap_sublist.
  - intros j Hj. destruct (Hl j Hj) as [Hw Hd].
    assert (j ∈ ListWorkflowRunJobs d run) as Hj' by (by eapply elem_of_sublist).
    apply elem_of_run_jobs in Hj' as [??]. split; [done|]. split; [done|]. split; [done|].
    apply dep_failed_iff in Hd as (need & Hn & (dep & Hdep & ? & ? & ?)%conclusions_failure).
    apply elem_of_run_jobs in Hdep as [??]. by exists need, dep.
Qed.

Lemma waiting_not_completed j : waiting j → job_Status j ≠ JobStatusCompleted.
Proof. unfold waiting. by intros [-> | ->]. Qed.

Lemma check_frame run now d : keys_ok d → frame d (checkAndCompleteWorkflowRun run now d).
Proof.
  intros Hk. destruct (check_sub run now d Hk) as (l & Hn & Hl & E).
  transitivity (complete_all ConclusionCancelled now d l).
  - apply frame_complete_all; [done| |done]. intros j Hj. destruct (Hl j Hj) as (? & _ & ? & _).
    split; [done|]. by apply waiting_not_completed.
  - apply frame_same. rewrite <-E. apply check_cases.
Qed.
(** What a failed need is. *)
Definition need_failed (d : CiDB) (j : Job) : Prop :=
  ∃ need dep, need ∈ Needs j ∧ dep ∈ jobs_of d ∧ job_WorkflowRunID dep = job_WorkflowRunID j ∧
    job_Name dep = need ∧ job_Status dep = JobStatusCompleted ∧
    job_Conclusion dep = Some ConclusionFailure.

Lemma unique_name l j k :
  NoDup (job_Name <$> l) → j ∈ l → k ∈ l → job_Name j = job_Name k → j = k.
Proof.
  intros Hn (i1 & Hi)%list_elem_of_lookup_1 (i2 & Hk)%list_elem_of_lookup_1 E.
  assert (i1 = i2) as ->; [|congruence].
  eapply NoDup_lookup; [exact Hn|rewrite list_lookup_fmap, Hi; done|].
  by rewrite list_lookup_fmap, Hk, E.
Qed.

(** The cancelled jobs when names are distinct. *)
Lemma check_exact run now d :
  keys_ok d → NoDup (job_Name <$> ListWorkflowRunJobs d run) →
  ∃ l, NoDup (ids l) ∧
    (∀ j, j ∈ l ↔ j ∈ jobs_of d ∧ job_WorkflowRunID j = run ∧ waiting j ∧ need_failed d j) ∧
    (foldl (cancel_dependent now) (d, conclusions (ListWorkflowRunJobs d run))
       (ListWorkflowRunJobs d run)).1 = complete_all ConclusionCancelled now d l.
Proof.
  intros Hk Hu. set (js := ListWorkflowRunJobs d run) in *.
  exists (filter (λ j, waiting j ∧ dep_failed (conclusions js) j) js). split; [|split].
  - eapply sublist_NoDup; [by apply NoDup_run_ids|]. apply fmap_sublist, sublist_filter.
  - intros j. rewrite list_elem_of_filter. unfold js at 2. rewrite elem_of_run_jobs, dep_failed_iff. split.
    + intros [[Hw (need & Hn & (dep & Hdep & ? & ? & ?)%conclusions_failure)] [Hin <-]].
      apply elem_of_run_jobs in Hdep as [??].
      split; [done|]. split; [done|]. split; [done|]. by exists need, dep.
    + intros (Hin & <- & Hw & need & dep & Hn & Hdep & Hr & Hname & Hs & Hc). split; [|done].
      split; [done|]. exists need. split; [done|].
      rewrite <-Hname, conclusions_unique; [by rewrite Hc|done| |done]. by apply elem_of_run_jobs.
  - apply cascade_exact; [done|]. intros j Hj Hw (dep & Hdep & Hname & Hs & _)%conclusions_failure.
    assert (dep = j) as -> by by apply (unique_name js). by apply waiting_not_completed in Hw.
Qed.

(** ** Lemmas: a run that waits for a cancelled job *)

(** The queued job [c] of [run] needs a job that completed without success and
    without failure, and nothing it needs can still fail. *)
Definition blocked (d : CiDB) (run c : string) : Prop :=
  ∃ j, db_jobs d !! c = Some j ∧ job_WorkflowRunID j = run ∧ job_Status j = JobStatusQueued ∧ job_ok j ∧
    (∀ dep, dep ∈ jobs_of d → job_WorkflowRunID dep = run → job_Name dep ∈ Needs j →
       job_Status dep = JobStatusCompleted ∧ job_Conclusion dep ≠ Some ConclusionFailure) ∧
    (∃ need, need ∈ Needs j ∧ ∀ dep, dep ∈ jobs_of d → job_WorkflowRunID dep = run →
       job_Name dep = need → job_Conclusion dep ≠ Some ConclusionSuccess) ∧
    (run_Status <$> db_runs d !! run) ≠ Some RunStatusCompleted.

Lemma blocked_frame d d' run c :
  keys_ok d → frame d d' → (job_Status <$> db_jobs d' !! c) = Some JobStatusQueued →
  (run_Status <$> db_runs d' !! run) ≠ Some RunStatusCompleted → blocked d run c → blocked d' run c.
Proof.
  intros Hk Hf Hq Hrun (j & Hj & Hr & _ & Hok & Hdeps & (need & Hneed & Hn) & _).
  pose proof (frame_keys _ _ Hf Hk) as Hk'.
  destruct (frame_lookup d d' c j Hf Hj) as (j' & Hj' & [[= E1 E2 E3 E4 E5 E6] _]).
  assert (Needs j' = Needs j) as En by (unfold Needs; by rewrite E4).
  rewrite Hj' in Hq. injection Hq as Hq.
  assert (∀ dep', dep' ∈ jobs_of d' → job_WorkflowRunID dep' = run → job_Name dep' ∈ Needs j →
    ∃ dep, dep ∈ jobs_of d ∧ job_WorkflowRunID dep = run ∧ job_Name dep = job_Name dep' ∧
      job_Status dep' = JobStatusCompleted ∧ job_Conclusion dep' = job_Conclusion dep) as Hold.
  { intros dep' Hdep' Hrd Hnd. apply elem_of_jobs in Hdep'; [|done].
    destruct (frame_lookup_rev d d' _ dep' Hf Hdep') as (dep & Hdep & [[= F1 F2 F3 F4 F5 F6] Fc]).
    assert (dep ∈ jobs_of d) as Hin by (apply elem_of_jobs; [done|]; by rewrite <-F1).
    assert (job_Status dep = JobStatusCompleted) as Hs.
    { apply Hdeps; [done|congruence|by rewrite <-F3]. }
    destruct (Fc Hs). exists dep. split; [done|]. split; [congruence|]. done. }
  exists j'. split; [done|]. split; [congruence|]. split; [done|].
  split; [by unfold job_ok; rewrite E4, E5|]. rewrite En. split; [|split; [|done]].
  - intros dep' Hdep' Hrd Hnd. destruct (Hold dep' Hdep' Hrd Hnd) as (dep & Hin & Hr1 & Hn1 & Hs & ->).
    split; [done|]. apply Hdeps; [done..|]. by rewrite Hn1.
  - exists need. split; [done|]. intros dep' Hdep' Hrd <-.
    destruct (Hold dep' Hdep' Hrd Hneed) as (dep & Hin & Hr1 & Hn1 & Hs & ->). by apply Hn.
Qed.

(** The locks of a run. *)
Definition locks_kept (run : string) (d d' : CiDB) : Prop := ∀ g l,
  db_locks d !! g = Some l → lock_WorkflowRunID l = run → db_locks d' !! g = Some l.

#[export] Instance locks_kept_preorder run : PreOrder (locks_kept run).
Proof. split; [by intros d g l|]. intros d1 d2 d3 H1 H2 g l Hl Hr. apply H2; [|done]. by apply H1. Qed.

(** A pass over any run leaves it blocked, with its locks. *)
Lemma blocked_check d run c run' now :
  keys_ok d → blocked d run c →
  blocked (checkAndCompleteWorkflowRun run' now d) run c ∧
  locks_kept run d (checkAndCompleteWorkflowRun run' now d).
Proof.
  intros Hk Hb. pose proof (check_frame run' now d Hk) as Hf.
  destruct (check_sub run' now d Hk) as (l & Hnd & Hl & E).
  pose proof (check_cases run' now d) as [Ej Er]. cbv zeta in Ej, Er. rewrite E in Ej, Er.
  pose proof Hb as (j & Hj & Hr & Hq & Hok & Hdeps & Hnone & Hrun).
  assert (job_ID j = c) as Hid by by apply Hk.
  assert (c ∉ ids l) as Hcl.
  { unfold ids. intros (k & Ek & Hin)%list_elem_of_fmap.
    destruct (Hl k Hin) as (Hkd & Hkr & _ & need & dep & H1 & H2 & H3 & H4 & H5 & H6).
    apply elem_of_jobs in Hkd; [|done]. rewrite <-Ek, Hj in Hkd. injection Hkd as <-.
    destruct (Hdeps dep H2) as [_ Hne]; [congruence|by rewrite H4|done]. }
  assert (db_jobs (complete_all ConclusionCancelled now d l) !! c = Some j) as Hj'.
  { rewrite complete_all_lookup by done. by rewrite decide_False. }
  destruct (complete_all_other ConclusionCancelled now l d) as (Eruns & Elocks & _).
  set (d1 := complete_all ConclusionCancelled now d l) in *.
  assert ((run_Status <$> db_runs (checkAndCompleteWorkflowRun run' now d) !! run) =
          (run_Status <$> db_runs d !! run) ∧
          locks_kept run d (checkAndCompleteWorkflowRun run' now d)) as [Hst Hlk].
  { destruct (run_outcome _ _ _) as [[f cc]|] eqn:Eo; rewrite Er.
    2: { rewrite Eruns. split; [done|]. intros g lk. by rewrite Elocks. }
    unfold locks_kept. cbn [db_runs db_locks ReleaseConcurrencyLock set_locks CompleteWorkflowRun set_runs].
    destruct (decide (run' = run)) as [->|Hne].
    - pose proof (run_outcome_spec (ListWorkflowRunJobs d1 run) false false) as Hs.
      rewrite Eo in Hs. destruct Hs as [Hall _]. exfalso.
      assert (j ∈ ListWorkflowRunJobs d1 run) as Hin; [|apply Hall in Hin; by rewrite Hq in Hin].
      apply elem_of_run_jobs. split; [|done]. apply elem_of_jobs; [|by rewrite Hid].
      apply (frame_keys d); [|done]. transitivity (checkAndCompleteWorkflowRun run now d); [done|].
      by apply frame_same.
    - rewrite lookup_alter_ne, Eruns by done. split; [done|]. intros g lk Hlk Hrl.
      rewrite map_lookup_filter_Some, Elocks. cbn. split; congruence. }
  split; [|done].
  apply (blocked_frame d); [done|done|by rewrite Ej, Hj'; cbn; rewrite Hq|by rewrite Hst|done].
Qed.

(** The query finds only rows for which the condition holds. *)
Lemma claim_select_claimable a d id :
  claim_select a d = Ok (Some id) → ∃ j, j ∈ jobs_of d ∧ job_ID j = id ∧ claimable a d j = Ok true.
Proof.
  unfold claim_select. intros Hsel. apply bind_ok_inv in Hsel as (rows & Er & Hh).
  injection Hh as Hh.
  assert (∀ j, j ∈ rows → j ∈ jobs_of d ∧ claimable a d j = Ok true) as Hrows.
  { revert Er. assert (∀ l acc, foldM (λ rows j, c ← claimable a d j;
        Ok (if c : bool then rows ++ [j] else rows)) acc l = Ok rows →
      (∀ j, j ∈ acc → j ∈ jobs_of d ∧ claimable a d j = Ok true) →
      (∀ j, j ∈ l → j ∈ jobs_of d) → ∀ j, j ∈ rows → j ∈ jobs_of d ∧ claimable a d j = Ok true) as Hgen.
    { induction l as [|x l IH]; intros acc; cbn [foldM]; [by intros [= <-]|].
      intros E Hacc Hl. apply bind_ok_inv in E as (acc' & E1 & E2).
      apply bind_ok_inv in E1 as (b & Eb & [= <-]).
      apply (IH _ E2); [|intros j Hj; apply Hl; by right].
      destruct b; [|done]. intros j [Hj| ->%list_elem_of_singleton]%elem_of_app; [by apply Hacc|].
      split; [|done]. apply Hl. by left. }
    intros Er. by apply (Hgen (jobs_of d) [] Er); [intros ? ?%elem_of_nil|]. }
  destruct (head (ci_by_created rows)) as [j|] eqn:Eh; [|done]. injection Hh as <-.
  apply head_by_created in Eh as [Hj _]. exists j. by destruct (Hrows j Hj).
Qed.

(** A claim changes one queued job, whose needs are met. *)
Lemma ClaimJob_cases runnerID labels repos d :
  let d' := (ClaimJob runnerID labels repos d).1 in
  d' = d ∨ ∃ j, j ∈ jobs_of d ∧ job_Status j = JobStatusQueued ∧
    claimable (claim_query labels repos) d j = Ok true ∧
    d' = update_job (job_ID j) (job_claimed runnerID) d.
Proof.
  cbv zeta. unfold ClaimJob. st_simpl. destruct (claim_select _ d) as [[id|]|e|] eqn:Es; [|by left..].
  apply claim_select_claimable in Es as (j & Hj & <- & Hc). unfold claim_update.
  destruct (db_jobs d !! job_ID j) as [j0|] eqn:Ej; [|by left].
  destruct (decide (job_Status j0 = JobStatusQueued)); [|by left]. right. exists j.
  split; [done|]. split.
  - unfold claimable in Hc. destruct (decide _) as [Hs|]; [|done].
    rewrite Hs. unfold claim_query, bind_args. by destruct ci_driver.
  - split; [done|]. cbn [Z.eqb]. unfold GetJobByID. cbn [db_jobs update_job set_jobs].
    by rewrite lookup_alter_eq, Ej.
Qed.

Lemma blocked_not_claimable d run c labels repos j :
  ci_driver = DriverPostgres → blocked d run c → db_jobs d !! c = Some j →
  claimable (claim_query labels repos) d j ≠ Ok true.
Proof.
  intros Hd (j' & Hj & Hr & _ & Hok & _ & (need & Hneed & Hn) & _) Hj'. rewrite Hj in Hj'.
  injection Hj' as <-. unfold claimable. destruct (decide _); [|done].
  destruct (needs_met_ok (claim_query labels repos) d j' Hd Hok) as (b & -> & Hb). res_simpl.
  destruct b; [|done]. exfalso. destruct (proj1 Hb eq_refl need Hneed) as (dep & H1 & H2 & H3 & H4 & H5).
  apply (Hn dep H1); [congruence|done|]. rewrite H5. unfold claim_query, bind_args. by rewrite Hd.
Qed.

Lemma blocked_update d run c id f :
  keys_ok d → id ≠ c → (∀ j, db_jobs d !! id = Some j → same_job j (f j)) → blocked d run c →
  blocked (update_job id f d) run c.
Proof.
  intros Hk Hne Hf Hb. apply (blocked_frame d); [done|by apply frame_update| | |done].
  - destruct Hb as (j & Hj & _ & Hq & _). cbn [db_jobs update_job set_jobs].
    rewrite lookup_alter_ne by done. by rewrite Hj; cbn; rewrite Hq.
  - by destruct Hb as (? & _ & _ & _ & _ & _ & _ & ?).
Qed.

(** Changes of a heartbeat, of outputs and of a summary. *)
Lemma blocked_quiet d run c id f :
  keys_ok d → (∀ j, same_job j (f j) ∧ job_Status (f j) = job_Status j) → blocked d run c →
  blocked (update_job id f d) run c.
Proof.
  intros Hk Hf Hb. apply (blocked_frame d); [done|by apply frame_update; intros; apply Hf| | |done].
  - destruct Hb as (j & Hj & _ & Hq & _). cbn [db_jobs update_job set_jobs].
    destruct (decide (id = c)) as [->|Hne].
    + rewrite lookup_alter_eq, Hj. cbn. destruct (Hf j) as [_ ->]. by rewrite Hq.
    + rewrite lookup_alter_ne by done. by rewrite Hj; cbn; rewrite Hq.
  - by destruct Hb as (? & _ & _ & _ & _ & _ & _ & ?).
Qed.

Lemma keys_update id f d :
  (∀ j, job_ID (f j) = job_ID j) → keys_ok d → keys_ok (update_job id f d).
Proof.
  intros Hf Hk i j. unfold update_job. cbn [db_jobs set_jobs]. destruct (decide (id = i)) as [->|Hne].
  - rewrite lookup_alter_eq. destruct (db_jobs d !! i) eqn:E; [|done]. intros [= <-]. rewrite Hf. by apply Hk.
  - rewrite lookup_alter_ne by done. apply Hk.
Qed.

Lemma fail_stale_all now l d acc :
  (foldl (fail_stale now) (d, acc) l).1 = complete_all ConclusionFailure now d l.
Proof. revert d acc. induction l as [|j l IH]; intros d acc; [done|]. cbn [foldl fail_stale]. apply IH. Qed.

Lemma is_stale_status a b j :
  is_stale a b j = true → job_Status j = JobStatusInProgress ∨ job_Status j = JobStatusPending.
Proof.
  unfold is_stale. destruct (job_Heartbeat j); intros [Hs _]%andb_true_iff; bool_to_prop; [by left|].
  apply orb_true_iff in Hs as [?|?]; bool_to_prop; tauto.
Qed.

Lemma locks_kept_eq run d d' : db_locks d' = db_locks d → locks_kept run d d'.
Proof. intros E g l. by rewrite E. Qed.

(** The updates inside the handlers. *)
Lemma blocked_results d run c id outputs summary :
  keys_ok d → blocked d run c →
  let d1 := if decide (outputs = ∅) then d else SetJobOutputs id outputs d in
  let d2 := if decide (summary = "") then d1 else SetJobSummary id summary d1 in
  keys_ok d2 ∧ blocked d2 run c ∧ locks_kept run d d2.
Proof.
  intros Hk Hb. cbv zeta. set (d1 := if decide (outputs = ∅) then _ else _).
  assert (keys_ok d1 ∧ blocked d1 run c ∧ locks_kept run d d1) as (Hk1 & Hb1 & Hl1).
  { unfold d1. destruct (decide _); [done|].
    split; [by apply keys_update|]. split; [by apply blocked_quiet|by apply locks_kept_eq]. }
  clearbody d1. destruct (decide (summary = "")); [done|].
  split; [by apply keys_update|]. split; [by apply blocked_quiet|].
  intros g l Hg Hr. by apply Hl1.
Qed.

Lemma blocked_checks d run c now l :
  keys_ok d → blocked d run c →
  let d' := foldl (λ d r, checkAndCompleteWorkflowRun r now d) d l in
  keys_ok d' ∧ blocked d' run c ∧ locks_kept run d d'.
Proof.
  revert d. induction l as [|r l IH]; intros d Hk Hb; cbv zeta; cbn [foldl]; [done|].
  destruct (blocked_check d run c r now Hk Hb) as [Hb1 Hl1].
  assert (keys_ok (checkAndCompleteWorkflowRun r now d)) as Hk1
    by (eapply frame_keys; [by apply check_frame|done]).
  destruct (IH _ Hk1 Hb1) as (Hk2 & Hb2 & Hl2). split; [done|]. split; [done|].
  by transitivity (checkAndCompleteWorkflowRun r now d).
Qed.

Lemma status_not_blocked d run c id s :
  blocked d run c → (job_Status <$> db_jobs d !! id) = Some s → s ≠ JobStatusQueued → id ≠ c.
Proof. intros (j & Hj & _ & Hq & _) Hs Hne ->. rewrite Hj in Hs. cbn in Hs. congruence. Qed.

Lemma blocked_op d run c o :
  ci_driver = DriverPostgres → keys_ok d → blocked d run c → well_behaved d o →
  keys_ok (run_op o d) ∧ blocked (run_op o d) run c ∧ locks_kept run d (run_op o d).
Proof.
  intros Hd Hk Hb Hw. destruct o as [r labels repos|id name now|id con outputs summary now|id now|now];
    cbn [run_op well_behaved] in *.
  - destruct (ClaimJob_cases r labels repos d) as [->|(j & Hj & Hq & Hc & ->)]; [done|].
    split; [by apply keys_update|]. split; [|by apply locks_kept_eq]. apply elem_of_jobs in Hj; [|done].
    apply blocked_update; [done| | |done].
    + intros <-. by eapply blocked_not_claimable in Hc.
    + intros j' Hj'. split; [done|]. intros Hs. rewrite Hj in Hj'. injection Hj' as <-. by rewrite Hq in Hs.
  - assert (id ≠ c) as Hne by by eapply status_not_blocked.
    unfold Handler_StartJob. set (d1 := StartJob id name now d).
    assert (keys_ok d1) as Hk1 by by apply keys_update.
    assert (blocked d1 run c) as Hb1.
    { apply blocked_update; [done..| |done]. intros j Hj. split; [done|]. intros Hs.
      rewrite Hj in Hw. cbn in Hw. injection Hw as Hw. by rewrite Hs in Hw. }
    set (d2 := HeartbeatJob id now d1). assert (keys_ok d2) as Hk2.
    { apply keys_update; [|done]. intros j. by destruct (decide _). }
    assert (blocked d2 run c) as Hb2 by (apply blocked_quiet; [done| |done]; intros j; by destruct (decide _)).
    assert (locks_kept run d d2) as Hl2 by by apply locks_kept_eq.
    destruct (GetJobByID d2 id) as [job|e|]; [|done..].
    destruct (GetWorkflowRunByID d2 _) as [wr|e|] eqn:Ewr; [|done..].
    destruct (decide _) as [Hrq|]; [|done].
    assert (db_jobs (UpdateWorkflowRunStatus (run_ID wr) RunStatusInProgress now d2) = db_jobs d2) as Ej
      by (unfold UpdateWorkflowRunStatus; by destruct (decide _)).
    split; [|split].
    + intros i j. rewrite Ej. apply Hk2.
    + apply (blocked_frame d2); [done|by apply frame_same| | |done].
      * rewrite Ej. by destruct Hb2 as (j & -> & _ & Hq & _); cbn; rewrite Hq.
      * destruct Hb2 as (_ & _ & _ & _ & _ & _ & _ & Hr). unfold UpdateWorkflowRunStatus.
        rewrite decide_True by done. cbn [db_runs set_runs].
        destruct (decide (run_ID wr = run)) as [->|]; [|by rewrite lookup_alter_ne].
        rewrite lookup_alter_eq. by destruct (db_runs d2 !! run).
    + apply locks_kept_eq. unfold UpdateWorkflowRunStatus. by destruct (decide _).
  - assert (id ≠ c) as Hne by by destruct Hw; eapply status_not_blocked.
    unfold Handler_CompleteJob. set (d1 := CompleteJob id con now d).
    assert (keys_ok d1) as Hk1 by by apply keys_update.
    assert (blocked d1 run c) as Hb1.
    { apply blocked_update; [done..| |done]. intros j Hj. split; [done|]. intros Hs.
      rewrite Hj in Hw. cbn in Hw. rewrite Hs in Hw. by destruct Hw. }
    pose proof (blocked_results d1 run c id outputs summary Hk1 Hb1) as Hres. cbv zeta in Hres.
    set (d3 := if decide (summary = "") then _ else _) in *. destruct Hres as (Hk3 & Hb3 & Hl3).
    destruct (GetJobByID d3 id) as [job|e|]; [|done..].
    destruct (blocked_check d3 run c (job_WorkflowRunID job) now Hk3 Hb3) as [Hb4 Hl4].
    split; [eapply frame_keys; [by apply check_frame|done]|]. split; [done|].
    transitivity d3; [exact Hl3|done].
  - split; [apply keys_update; [intros j; by destruct (decide _)|done]|]. split; [|by apply locks_kept_eq].
    apply blocked_quiet; [done| |done]. intros j. by destruct (decide _).
  - unfold reapStaleJobs, FailStaleJobs. set (l := filter _ _).
    pose proof (fail_stale_all now l d []) as E. destruct (foldl (fail_stale now) (d, []) l) as [d1 affected].
    cbn [fst] in E. subst d1.
    assert (∀ j, j ∈ l → j ∈ jobs_of d ∧ (job_Status j = JobStatusInProgress ∨ job_Status j = JobStatusPending))
      as Hl.
    { intros j [Hs Hj]%list_elem_of_filter. rewrite ci_scan_perm in Hj. split; [done|].
      by eapply is_stale_status. }
    assert (NoDup (ids l)) as Hnd.
    { eapply sublist_NoDup; [|apply fmap_sublist, sublist_filter]. rewrite ci_scan_perm. by apply NoDup_ids. }
    assert (frame d (complete_all ConclusionFailure now d l)) as Hf.
    { apply frame_complete_all; [done| |done]. intros j Hj. destruct (Hl j Hj) as [? [-> | ->]]; done. }
    destruct (complete_all_other ConclusionFailure now l d) as (Eruns & Elocks & _).
    assert (c ∉ ids l) as Hcl.
    { intros (k & -> & Hin)%list_elem_of_fmap. destruct (Hl k Hin) as [Hkd Hs].
      apply elem_of_jobs in Hkd; [|done]. destruct Hb as (j & Hj & _ & Hq & _).
      rewrite Hkd in Hj. injection Hj as <-. rewrite Hq in Hs. by destruct Hs. }
    destruct (blocked_checks (complete_all ConclusionFailure now d l) run c now affected) as (H1 & H2 & H3).
    + by eapply frame_keys.
    + apply (blocked_frame d); [done|done| |rewrite Eruns; by destruct Hb as (? & _ & _ & _ & _ & _ & _ & ?)|done].
      rewrite complete_all_lookup, decide_False by done.
      by destruct Hb as (j & -> & _ & Hq & _); cbn; rewrite Hq.
    + split; [done|]. split; [done|]. etransitivity; [|exact H3]. intros g lk. by rewrite Elocks.
Qed.
End runs.
