(* ===== verification/CiProps.v ===== *)
(** * What the CI control plane guarantees

    The pass over a run, the progress of runs whose jobs succeed, the runs that
    can never finish and the concurrency groups that stay locked. *)

From S2P Require Import Prelude Json JobGraph CiStore CiControl.
Local Open Scope Z_scope.

Section lemmas.
Context `{CiDriver}.

(** ** Lemmas: the needs of a run as a graph *)

Definition run_graph (d : CiDB) (run : string) : jobs :=
  list_to_map ((λ j, (job_Name j, Needs j)) <$> ListWorkflowRunJobs d run).

Lemma run_graph_lookup d run j :
  NoDup (job_Name <$> ListWorkflowRunJobs d run) → j ∈ jobs_of d → job_WorkflowRunID j = run →
  run_graph d run !! job_Name j = Some (Needs j).
Proof.
  intros Hn Hj Hr. apply elem_of_list_to_map.
  - by rewrite <-list_fmap_compose.
  - apply list_elem_of_fmap. exists j. split; [done|]. by apply elem_of_run_jobs.
Qed.

(** Without an eligible job, a run whose jobs have all succeeded or are queued
    has no queued job. *)
Lemma ready_job d run labels :
  NoDup (job_Name <$> ListWorkflowRunJobs d run) →
  defined (run_graph d run) → (∀ x, ¬ tc (edge (run_graph d run)) x x) →
  (∀ j, j ∈ jobs_of d → job_WorkflowRunID j = run →
     job_Status j = JobStatusQueued ∨
     job_Status j = JobStatusCompleted ∧ job_Conclusion j = Some ConclusionSuccess) →
  (∀ j l, j ∈ jobs_of d → job_WorkflowRunID j = run → l ∈ RunsOn j → l ∈ expand_labels labels) →
  (∀ j, j ∈ jobs_of d → ¬ eligible labels [] d j) →
  ∀ j, j ∈ jobs_of d → job_WorkflowRunID j = run → job_Status j = JobStatusCompleted.
Proof.
  intros Hn Hdef Hac Hst Hlab Hne.
  pose proof (ordered_or_cycle (run_graph d run) Hdef (elements (dom (run_graph d run)))
    (λ x, elem_of_elements _ x)) as Ho.
  destruct (foldM _ _ _) as [u|e|]; [|destruct Ho as [_ [x Hx]]; by destruct (Hac x)|done].
  destruct Ho as (l & _ & Hl & Hord).
  assert (∀ x, x ∈ l → ∀ j, j ∈ jobs_of d → job_WorkflowRunID j = run → job_Name j = x →
    job_Status j = JobStatusCompleted) as Hall.
  { assert (∀ x, x ∈ l → x ∈ dom (run_graph d run)) as Hdom by (intros x; apply Hl). clear Hl.
    induction l as [|x l IH] using rev_ind; [by intros ? ?%elem_of_nil|].
    apply ordered_snoc in Hord as [Hord Hx].
    specialize (IH Hord ltac:(intros y Hy; apply Hdom, elem_of_app; by left)).
    intros y [Hy| ->%list_elem_of_singleton]%elem_of_app; [by apply IH|].
    intros j Hj Hr Hname. destruct (Hst j Hj Hr) as [Hq|[? _]]; [|done]. exfalso.
    apply (Hne j Hj). split; [done|]. split; [|split; [intros lb; by apply Hlab|done]].
    intros need Hneed.
    assert (edge (run_graph d run) x need) as He.
    { unfold edge, needs_of. by rewrite <-Hname, (run_graph_lookup d run j Hn Hj Hr). }
    pose proof (Hx need He) as Hin.
    assert (is_Some (run_graph d run !! need)) as [nn Hnn].
    { apply elem_of_dom, Hdom, elem_of_app. by left. }
    apply elem_of_list_to_map_2 in Hnn. apply list_elem_of_fmap in Hnn as (dep & [= -> ->] & Hdep).
    apply elem_of_run_jobs in Hdep as [Hdep Hrd]. exists dep. split; [done|]. split; [congruence|].
    split; [done|]. pose proof (IH _ Hin dep Hdep Hrd eq_refl) as Hc.
    destruct (Hst dep Hdep Hrd) as [Hq'|?]; [by rewrite Hc in Hq'|done]. }
  intros j Hj Hr. apply (Hall (job_Name j)); [|done..]. apply Hl, elem_of_dom.
  by rewrite (run_graph_lookup d run j Hn Hj Hr).
Qed.

(** ** Lemmas: operations that leave a completed run alone *)

Definition run_done (d : CiDB) (run : string) : Prop :=
  ∀ j, j ∈ jobs_of d → job_WorkflowRunID j = run → job_Status j = JobStatusCompleted.

Lemma run_done_frame d d' run : keys_ok d → frame d d' → run_done d run → run_done d' run.
Proof.
  intros Hk Hf Hd j' Hj' Hr. pose proof (frame_keys d d' Hf Hk) as Hk'. apply elem_of_jobs in Hj'; [|done].
  destruct (frame_lookup_rev d d' _ j' Hf Hj') as (j & Hj & [[= E1 E2 _ _ _ _] Hs]).
  apply Hs, Hd; [|congruence]. apply elem_of_jobs; [done|]. by rewrite <-E1.
Qed.

Lemma locks_kept_check d run run' now :
  run' ≠ run → locks_kept run d (checkAndCompleteWorkflowRun run' now d).
Proof.
  intros Hne. unfold checkAndCompleteWorkflowRun.
  destruct (foldl _ _ _) as [d1 m] eqn:Ef.
  assert (db_locks d1 = db_locks d) as El.
  { destruct (cascade_sub now (conclusions (ListWorkflowRunJobs d run')) _ (ListWorkflowRunJobs d run') d
      (λ n Hc, Hc)) as (l & _ & _ & E). rewrite Ef in E. cbn in E. subst d1.
    apply complete_all_other. }
  destruct (run_outcome _ _ _) as [[f c]|]; [|by apply locks_kept_eq].
  intros g lk Hlk Hr. cbn [db_locks ReleaseConcurrencyLock set_locks CompleteWorkflowRun set_runs].
  rewrite map_lookup_filter_Some, El. cbn. split; [done|congruence].
Qed.

Lemma affected_runs now l d acc x :
  x ∈ (foldl (fail_stale now) (d, acc) l).2 → x ∈ acc ∨ ∃ j, j ∈ l ∧ job_WorkflowRunID j = x.
Proof.
  revert d acc. induction l as [|j l IH]; intros d acc; cbn [foldl fail_stale]; [by left|].
  intros Hx. apply IH in Hx as [Hx|(k & Hk & <-)].
  - destruct (decide _); [by left|]. apply elem_of_app in Hx as [?| ->%list_elem_of_singleton]; [by left|].
    right. exists j. split; [by left|done].
  - right. exists k. split; [by right|done].
Qed.

Lemma checks_done d run now l :
  keys_ok d → run ∉ l →
  let d' := foldl (λ d r, checkAndCompleteWorkflowRun r now d) d l in
  keys_ok d' ∧ frame d d' ∧ locks_kept run d d'.
Proof.
  revert d. induction l as [|r l IH]; intros d Hk Hl; cbv zeta; cbn [foldl]; [done|].
  apply not_elem_of_cons in Hl as [Hne Hl].
  assert (keys_ok (checkAndCompleteWorkflowRun r now d)) as Hk1
    by (eapply frame_keys; [by apply check_frame|done]).
  destruct (IH _ Hk1 Hl) as (H1 & H2 & H3). split; [done|]. split.
  - transitivity (checkAndCompleteWorkflowRun r now d); [by apply check_frame|done].
  - transitivity (checkAndCompleteWorkflowRun r now d); [by apply locks_kept_check|done].
Qed.

Lemma same_job_update f j :
  (job_ID (f j), job_WorkflowRunID (f j), job_Name (f j), job_Needs (f j), job_RunsOn (f j), job_CreatedAt (f j)) =
  (job_ID j, job_WorkflowRunID j, job_Name j, job_Needs j, job_RunsOn j, job_CreatedAt j) →
  job_Status j ≠ JobStatusCompleted → same_job j (f j).
Proof. intros E Hs. split; [done|]. by intros ?. Qed.

Lemma frame_status f id d s :
  keys_ok d → (∀ j, (job_ID (f j), job_WorkflowRunID (f j), job_Name (f j), job_Needs (f j),
      job_RunsOn (f j), job_CreatedAt (f j)) =
    (job_ID j, job_WorkflowRunID j, job_Name j, job_Needs j, job_RunsOn j, job_CreatedAt j)) →
  (job_Status <$> db_jobs d !! id) = Some s → s ≠ JobStatusCompleted → frame d (update_job id f d).
Proof.
  intros Hk Hf Hs Hne. apply frame_update. intros j Hj. rewrite Hj in Hs. injection Hs as Hs.
  apply same_job_update; [apply Hf|congruence].
Qed.

Lemma done_frame d run o :
  keys_ok d → run_done d run → well_behaved d o → frame d (run_op o d) ∧ locks_kept run d (run_op o d).
Proof.
  intros Hk Hd Hw.
  destruct o as [r labels repos|id name now|id con outputs summary now|id now|now];
    cbn [run_op well_behaved] in *.
  - destruct (ClaimJob_cases r labels repos d) as [->|(j & Hj & Hq & Hc & ->)]; [done|].
    split; [|by apply locks_kept_eq]. apply elem_of_jobs in Hj; [|done].
    eapply frame_status; [done|done|by rewrite Hj|by rewrite Hq].
  - unfold Handler_StartJob. set (d1 := StartJob id name now d).
    assert (frame d d1) as Hf1 by by eapply frame_status.
    set (d2 := HeartbeatJob id now d1).
    assert (frame d d2) as Hf2.
    { transitivity d1; [done|]. apply frame_update. intros j _. by destruct (decide _). }
    assert (locks_kept run d d2) as Hl2 by by apply locks_kept_eq.
    destruct (GetJobByID d2 id) as [job|e|]; [|done..].
    destruct (GetWorkflowRunByID d2 _) as [wr|e|]; [|done..].
    destruct (decide _); [|done]. unfold UpdateWorkflowRunStatus. rewrite decide_True by done.
    split; [transitivity d2; [done|by apply frame_same]|].
    transitivity d2; [done|by apply locks_kept_eq].
  - unfold Handler_CompleteJob. set (d1 := CompleteJob id con now d).
    assert (frame d d1) as Hf1 by (destruct Hw; by eapply frame_status).
    set (d2 := if decide (outputs = ∅) then _ else _).
    assert (frame d d2 ∧ db_locks d2 = db_locks d) as [Hf2 El2].
    { unfold d2. destruct (decide (outputs = ∅)); [done|]. split; [|done].
      transitivity d1; [done|by apply frame_update]. }
    clearbody d2.
    set (d3 := if decide (summary = "") then _ else _).
    assert (frame d d3 ∧ db_locks d3 = db_locks d) as [Hf3 El3].
    { unfold d3. destruct (decide (summary = "")); [done|]. split; [|done].
      transitivity d2; [done|by apply frame_update]. }
    clearbody d3. assert (locks_kept run d d3) as Hl3 by by apply locks_kept_eq.
    destruct (GetJobByID d3 id) as [job|e|] eqn:Ej; [|done..].
    unfold GetJobByID in Ej. destruct (db_jobs d3 !! id) as [job'|] eqn:Ej'; [|done]. injection Ej as ->.
    destruct (frame_lookup_rev d d3 id job Hf3 Ej') as (j & Hj & [[= _ E2 _ _ _ _] _]).
    assert (job_WorkflowRunID job ≠ run) as Hne.
    { rewrite E2. intros Hr. assert (job_Status j = JobStatusCompleted) as Hs.
      { apply Hd; [|done]. apply elem_of_jobs; [done|]. by rewrite (Hk _ _ Hj). }
      rewrite Hj in Hw. cbn in Hw. rewrite Hs in Hw. by destruct Hw. }
    split; [transitivity d3; [done|]; apply check_frame; by eapply frame_keys|].
    transitivity d3; [done|by apply locks_kept_check].
  - split; [|by apply locks_kept_eq]. apply frame_update. intros j _. by destruct (decide _).
  - unfold reapStaleJobs, FailStaleJobs. set (l := filter _ _).
    pose proof (fail_stale_all now l d []) as E. pose proof (affected_runs now l d []) as Ha.
    destruct (foldl (fail_stale now) (d, []) l) as [d1 affected]. cbn [fst snd] in E, Ha. subst d1.
    assert (∀ j, j ∈ l → j ∈ jobs_of d ∧ job_Status j ≠ JobStatusCompleted) as Hl.
    { intros j [Hs Hj]%list_elem_of_filter. rewrite ci_scan_perm in Hj. split; [done|].
      by apply is_stale_status in Hs as [-> | ->]. }
    assert (NoDup (ids l)) as Hnd.
    { eapply sublist_NoDup; [|apply fmap_sublist, sublist_filter]. rewrite ci_scan_perm. by apply NoDup_ids. }
    assert (frame d (complete_all ConclusionFailure now d l)) as Hf by by apply frame_complete_all.
    destruct (complete_all_other ConclusionFailure now l d) as (_ & Elocks & _).
    assert (run ∉ affected) as Hra.
    { intros Hx. apply Ha in Hx as [Hx%elem_of_nil|(j & Hj & Hr)]; [done|].
      destruct (Hl j Hj) as [Hjd Hs]. by apply Hs, Hd. }
    destruct (checks_done (complete_all ConclusionFailure now d l) run now affected) as (_ & H2 & H3);
      [by eapply frame_keys|done|].
    split; [by transitivity (complete_all ConclusionFailure now d l)|].
    etransitivity; [|exact H3]. by apply locks_kept_eq.
Qed.

Lemma done_op d run o :
  keys_ok d → run_done d run → well_behaved d o →
  keys_ok (run_op o d) ∧ run_done (run_op o d) run ∧ locks_kept run d (run_op o d).
Proof.
  intros Hk Hd Hw. destruct (done_frame d run o Hk Hd Hw) as [Hf Hl].
  split; [by eapply frame_keys|]. split; [by eapply run_done_frame|done].
Qed.

(** ** Lemmas: cancelling a run *)

Lemma cancel_fold now js d :
  foldl (λ d job, if decide (job_Status job ≠ JobStatusCompleted)
           then CompleteJob (job_ID job) ConclusionCancelled now d else d) d js =
  complete_all ConclusionCancelled now d (filter (λ j, job_Status j ≠ JobStatusCompleted) js).
Proof.
  revert d. induction js as [|j js IH]; intros d; cbn [foldl]; [done|].
  rewrite filter_cons. destruct (decide _); cbn [complete_all foldl]; apply IH.
Qed.

(** The state in which a cancellation leaves the tables. *)
Lemma cancel_state run now d d' :
  keys_ok d → Handler_CancelWorkflowRun run now d = (d', Ok ()) →
  db_runs d' = db_runs (CompleteWorkflowRun run ConclusionCancelled now d) ∧
  db_locks d' = db_locks d ∧
  (∀ id, db_jobs d' !! id =
     (λ j, if decide (job_WorkflowRunID j = run ∧ job_Status j ≠ JobStatusCompleted)
           then job_completed ConclusionCancelled now j else j) <$> db_jobs d !! id).
Proof.
  intros Hk. unfold Handler_CancelWorkflowRun. destruct (GetWorkflowRunByID d run) as [r|e|]; [|done..].
  destruct (decide (run_Status r = RunStatusCompleted)); [done|].
  set (d1 := CompleteWorkflowRun run ConclusionCancelled now d). intros [= <-].
  assert (keys_ok d1) as Hk1 by done. rewrite cancel_fold. set (l := filter _ _).
  destruct (complete_all_other ConclusionCancelled now l d1) as (Eruns & Elocks & _).
  split; [done|]. split; [done|]. intros id.
  assert (NoDup (ids l)) as Hn.
  { eapply sublist_NoDup; [by apply (NoDup_run_ids d1 run)|]. apply fmap_sublist, sublist_filter. }
  rewrite complete_all_lookup by done. change (db_jobs d1) with (db_jobs d).
  destruct (db_jobs d !! id) as [j|] eqn:Hj; [|by destruct (decide _)].
  assert (id ∈ ids l ↔ job_WorkflowRunID j = run ∧ job_Status j ≠ JobStatusCompleted) as Hin.
  { rewrite <-(Hk _ _ Hj). rewrite (elem_of_ids d1).
    - unfold l. rewrite list_elem_of_filter, elem_of_run_jobs, elem_of_jobs by done.
      change (db_jobs d1) with (db_jobs d). rewrite (Hk _ _ Hj). tauto.
    - done.
    - intros k [_ Hkk]%list_elem_of_filter. by apply elem_of_run_jobs in Hkk as [? _].
    - change (db_jobs d1) with (db_jobs d). by rewrite (Hk _ _ Hj). }
  cbn [fmap option_fmap option_map]. destruct (decide (id ∈ ids l)), (decide (_ ∧ _)); tauto || done.
Qed.

Lemma cancel_done run now d d' :
  keys_ok d → Handler_CancelWorkflowRun run now d = (d', Ok ()) → keys_ok d' ∧ run_done d' run.
Proof.
  intros Hk Hc. destruct (cancel_state run now d d' Hk Hc) as (_ & _ & Hj).
  assert (∀ id j', db_jobs d' !! id = Some j' → ∃ j, db_jobs d !! id = Some j ∧
    j' = if decide (job_WorkflowRunID j = run ∧ job_Status j ≠ JobStatusCompleted)
         then job_completed ConclusionCancelled now j else j) as Hj'.
  { intros id j' E. rewrite Hj in E. apply fmap_Some in E as (j & ? & ->). by exists j. }
  assert (keys_ok d') as Hk'.
  { intros id j' E. destruct (Hj' id j' E) as (j & Ej & ->). destruct (decide _); by apply (Hk id j). }
  split; [done|]. intros j' E Hr. apply elem_of_jobs in E; [|done].
  destruct (Hj' _ j' E) as (j & Ej & ->). destruct (decide (_ ∧ _)) as [?|Hn]; [done|].
  destruct (decide (job_Status j = JobStatusCompleted)); [done|]. tauto.
Qed.

(** ** Lemmas: a run without jobs *)

Definition no_jobs (d : CiDB) (run : string) : Prop := ∀ j, j ∈ jobs_of d → job_WorkflowRunID j ≠ run.

Lemma no_jobs_done d run : no_jobs d run → run_done d run.
Proof. intros Hn j Hj Hr. by destruct (Hn j Hj). Qed.

Lemma no_jobs_frame d d' run : keys_ok d → frame d d' → no_jobs d run → no_jobs d' run.
Proof.
  intros Hk Hf Hn j' Hj' Hr. apply elem_of_jobs in Hj'; [|by eapply frame_keys].
  destruct (frame_lookup_rev d d' _ j' Hf Hj') as (j & Hj & [[= E1 E2 _ _ _ _] _]).
  apply (Hn j); [|congruence]. apply elem_of_jobs; [done|]. by rewrite <-E1.
Qed.

(** Only the pass over a run completes it. *)
Lemma check_runs run run' now d : run' ≠ run → db_runs (checkAndCompleteWorkflowRun run' now d) !! run = db_runs d !! run.
Proof.
  intros Hne. destruct (cascade_sub now (conclusions (ListWorkflowRunJobs d run')) _ (ListWorkflowRunJobs d run') d
    (λ n Hc, Hc)) as (l & _ & _ & E).
  destruct (check_cases run' now d) as [_ Hc]. cbv zeta in Hc. rewrite E in Hc.
  destruct (complete_all_other ConclusionCancelled now l d) as (Eruns & _).
  destruct (run_outcome _ _ _) as [[f c]|]; rewrite Hc; [|by rewrite Eruns].
  cbn. rewrite lookup_alter_ne by done. by rewrite Eruns.
Qed.

Lemma checks_runs run now l d : run ∉ l →
  db_runs (foldl (λ d r, checkAndCompleteWorkflowRun r now d) d l) !! run = db_runs d !! run.
Proof.
  revert d. induction l as [|r l IH]; intros d Hl; cbn [foldl]; [done|].
  apply not_elem_of_cons in Hl as [Hne Hl]. by rewrite IH, check_runs by done.
Qed.

Lemma job_run_not d run id (j : Job) : keys_ok d → no_jobs d run → db_jobs d !! id = Some j → job_WorkflowRunID j ≠ run.
Proof. intros Hk Hn Hj. apply Hn, elem_of_jobs; [done|]. by rewrite (Hk _ _ Hj). Qed.

Lemma no_jobs_runs d run o :
  keys_ok d → (∀ id r, db_runs d !! id = Some r → run_ID r = id) → no_jobs d run → well_behaved d o →
  db_runs (run_op o d) !! run = db_runs d !! run.
Proof.
  intros Hk Hrk Hn Hw. destruct o as [r labels repos|id name now|id con outputs summary now|id now|now];
    cbn [run_op well_behaved] in *.
  - by destruct (ClaimJob_cases r labels repos d) as [->|(j & _ & _ & _ & ->)].
  - unfold Handler_StartJob. set (d1 := StartJob id name now d). set (d2 := HeartbeatJob id now d1).
    assert (frame d d2) as Hf2.
    { transitivity d1; [by eapply frame_status|]. apply frame_update. intros j _. by destruct (decide _). }
    destruct (GetJobByID d2 id) as [job|e|] eqn:Ej; [|done..].
    unfold GetJobByID in Ej. destruct (db_jobs d2 !! id) as [job'|] eqn:Ej'; [|done]. injection Ej as ->.
    assert (job_WorkflowRunID job ≠ run) as Hne
      by (apply (job_run_not d2 run id); [by eapply frame_keys|by eapply no_jobs_frame|done]).
    unfold GetWorkflowRunByID. change (db_runs d2) with (db_runs d).
    destruct (db_runs d !! job_WorkflowRunID job) as [wr|] eqn:Ewr; [|done].
    destruct (decide _); [|done]. unfold UpdateWorkflowRunStatus. rewrite decide_True by done.
    cbn [db_runs set_runs]. rewrite lookup_alter_ne; [done|]. by rewrite (Hrk _ _ Ewr).
  - unfold Handler_CompleteJob. set (d1 := CompleteJob id con now d).
    assert (frame d d1) as Hf1 by (destruct Hw; by eapply frame_status).
    set (d2 := if decide (outputs = ∅) then _ else _).
    assert (frame d d2 ∧ db_runs d2 = db_runs d) as [Hf2 E2].
    { unfold d2. destruct (decide (outputs = ∅)); [done|]. split; [|done].
      transitivity d1; [done|by apply frame_update]. }
    clearbody d2. set (d3 := if decide (summary = "") then _ else _).
    assert (frame d d3 ∧ db_runs d3 = db_runs d) as [Hf3 E3].
    { unfold d3. destruct (decide (summary = "")); [done|]. split; [|done].
      transitivity d2; [done|by apply frame_update]. }
    clearbody d3. destruct (GetJobByID d3 id) as [job|e|] eqn:Ej; [|by rewrite E3..].
    unfold GetJobByID in Ej. destruct (db_jobs d3 !! id) as [job'|] eqn:Ej'; [|done]. injection Ej as ->.
    rewrite check_runs, E3; [done|].
    apply (job_run_not d3 run id); [by eapply frame_keys|by eapply no_jobs_frame|done].
  - done.
  - unfold reapStaleJobs, FailStaleJobs. set (l := filter _ _).
    pose proof (fail_stale_all now l d []) as E. pose proof (affected_runs now l d []) as Ha.
    destruct (foldl (fail_stale now) (d, []) l) as [d1 affected]. cbn [fst snd] in E, Ha. subst d1.
    rewrite checks_runs; [by destruct (complete_all_other ConclusionFailure now l d) as (-> & _)|].
    intros Hx. apply Ha in Hx as [Hx%elem_of_nil|(j & Hj & Hr)]; [done|].
    apply list_elem_of_filter in Hj as [_ Hj]. rewrite ci_scan_perm in Hj. by apply (Hn j).
Qed.

Lemma no_jobs_op d run o : keys_ok d → no_jobs d run → well_behaved d o → no_jobs (run_op o d) run.
Proof.
  intros Hk Hn Hw. eapply (no_jobs_frame d); [done| |done]. by eapply done_frame; [done|apply no_jobs_done|].
Qed.

(** Operations keep runs under their keys. *)
Definition run_keys (d : CiDB) : Prop := ∀ id r, db_runs d !! id = Some r → run_ID r = id.

Lemma run_keys_eq d d' : db_runs d' = db_runs d → run_keys d → run_keys d'.
Proof. unfold run_keys. by intros ->. Qed.

Lemma run_keys_alter d d' i f :
  db_runs d' = alter f i (db_runs d) → (∀ r, run_ID (f r) = run_ID r) → run_keys d → run_keys d'.
Proof.
  intros E Hf Hk id r. rewrite E. destruct (decide (i = id)) as [->|Hne].
  - rewrite lookup_alter_eq. destruct (db_runs d !! id) eqn:Er; [|done]. intros [= <-]. rewrite Hf. by apply Hk.
  - rewrite lookup_alter_ne by done. apply Hk.
Qed.

Lemma run_keys_check run now d : run_keys d → run_keys (checkAndCompleteWorkflowRun run now d).
Proof.
  intros Hk. destruct (cascade_sub now (conclusions (ListWorkflowRunJobs d run)) _ (ListWorkflowRunJobs d run) d
    (λ n Hc, Hc)) as (l & _ & _ & E).
  destruct (check_cases run now d) as [_ Hc]. cbv zeta in Hc. rewrite E in Hc.
  destruct (complete_all_other ConclusionCancelled now l d) as (Eruns & _).
  destruct (run_outcome _ _ _) as [[f c]|]; rewrite Hc.
  - eapply run_keys_alter; [cbn; by rewrite Eruns|done|done].
  - by eapply run_keys_eq.
Qed.

Lemma run_keys_op d o : run_keys d → run_keys (run_op o d).
Proof.
  intros Hk. destruct o as [r labels repos|id name now|id con outputs summary now|id now|now]; cbn [run_op].
  - by destruct (ClaimJob_cases r labels repos d) as [->|(j & _ & _ & _ & ->)].
  - unfold Handler_StartJob. destruct (GetJobByID _ _); [|done..]. destruct (GetWorkflowRunByID _ _); [|done..].
    destruct (decide _); [|done]. unfold UpdateWorkflowRunStatus. rewrite decide_True by done.
    by eapply (run_keys_alter d); [cbn; reflexivity|..].
  - unfold Handler_CompleteJob. set (d3 := if decide (summary = "") then _ else _).
    assert (run_keys d3) as Hk3.
    { apply (run_keys_eq d); [|done]. unfold d3. by destruct (decide (summary = "")), (decide (outputs = ∅)). }
    destruct (GetJobByID d3 id); [|done..]. by apply run_keys_check.
  - done.
  - unfold reapStaleJobs, FailStaleJobs. set (l := filter _ _).
    pose proof (fail_stale_all now l d []) as E.
    destruct (foldl (fail_stale now) (d, []) l) as [d1 affected]. cbn [fst] in E. subst d1.
    assert (run_keys (complete_all ConclusionFailure now d l)) as Hk1
      by (by apply (run_keys_eq d); [apply complete_all_other|]).
    revert Hk1. generalize (complete_all ConclusionFailure now d l). clear Hk.
    induction affected as [|r rs IH]; intros d1 Hk1; cbn [foldl]; [done|]. by apply IH, run_keys_check.
Qed.

Lemma steps_ind' (P : CiDB → Prop) d d' :
  (∀ d o, P d → well_behaved d o → P (run_op o d)) → P d → steps d d' → P d'.
Proof. intros Hs Hp Hst. induction Hst as [|o d d' Hw _ IH]; [done|]. apply IH. by apply Hs. Qed.
(** A run without jobs stays as it is and keeps its locks. *)
Lemma no_jobs_steps d d' run :
  keys_ok d → run_keys d → no_jobs d run → steps d d' →
  db_runs d' !! run = db_runs d !! run ∧ no_jobs d' run ∧ locks_kept run d d'.
Proof.
  intros Hk Hrk Hn Hs.
  cut ((keys_ok d' ∧ run_keys d' ∧ no_jobs d' run) ∧ db_runs d' !! run = db_runs d !! run ∧ locks_kept run d d').
  { intros ((_ & _ & ?) & ? & ?). done. }
  apply (steps_ind' (λ x, (keys_ok x ∧ run_keys x ∧ no_jobs x run) ∧
    db_runs x !! run = db_runs d !! run ∧ locks_kept run d x) d); [|by split; [|split; [|intros ? ?]]|done].
  intros x o ((H1 & H2 & H3) & H4 & H5) Hw.
  destruct (done_op x run o H1 (no_jobs_done x run H3) Hw) as (H6 & _ & H7).
  split; [split; [done|split; [by apply run_keys_op|by apply no_jobs_op]]|].
  split; [by rewrite no_jobs_runs|by transitivity x].
Qed.
End lemmas.

(** ** Properties *)

(** How a run ends. *)
Definition run_conclusion (d : CiDB) (run c : string) : Prop :=
  let has x := ∃ j, j ∈ jobs_of d ∧ job_WorkflowRunID j = run ∧ job_Conclusion j = Some x in
  (has ConclusionFailure ∧ c = ConclusionFailure) ∨
  (¬ has ConclusionFailure ∧ has ConclusionCancelled ∧ c = ConclusionCancelled) ∨
  (¬ has ConclusionFailure ∧ ¬ has ConclusionCancelled ∧ c = ConclusionSuccess).

Definition cancels (d : CiDB) (run : string) (j : Job) : Prop :=
  job_WorkflowRunID j = run ∧ waiting j ∧ need_failed d j.

(** C16: The pass over a run whose jobs have distinct names.  It cancels exactly
    the waiting jobs of the run that need a failed job and touches no other job.
    If all jobs of the run are then complete, the run is completed, as failed,
    cancelled or successful in this order of precedence, and its locks are
    released; otherwise runs and locks stay as they were. *)
Theorem checkAndCompleteWorkflowRun_spec `{CiDriver} run now d :
  keys_ok d → NoDup (job_Name <$> ListWorkflowRunJobs d run) →
  let d' := checkAndCompleteWorkflowRun run now d in
  (∀ id j, db_jobs d !! id = Some j →
     (cancels d run j → db_jobs d' !! id = Some (job_completed ConclusionCancelled now j)) ∧
     (¬ cancels d run j → db_jobs d' !! id = Some j)) ∧
  (run_done d' run → ∃ c, run_conclusion d' run c ∧
     db_runs d' = db_runs (CompleteWorkflowRun run c now d) ∧
     db_locks d' = db_locks (ReleaseConcurrencyLock run d)) ∧
  (¬ run_done d' run → db_runs d' = db_runs d ∧ db_locks d' = db_locks d).
Proof.
  intros Hk Hu d'. destruct (check_exact run now d Hk Hu) as (l & Hnd & Hl & E).
  pose proof (check_cases run now d) as [Ej Er]. cbv zeta in Ej, Er. rewrite E in Ej, Er.
  fold d' in Ej, Er. assert (keys_ok d') as Hk' by (eapply frame_keys; [by apply check_frame|done]).
  destruct (complete_all_other ConclusionCancelled now l d) as (Eruns & Elocks & _).
  set (d1 := complete_all ConclusionCancelled now d l) in *.
  assert (jobs_of d' = jobs_of d1) as Ejobs by (unfold jobs_of; by rewrite Ej).
  pose proof (run_outcome_spec (ListWorkflowRunJobs d1 run) false false) as Hs.
  unfold run_done. rewrite Ejobs. split; [|split].
  - intros id j Hj. rewrite Ej. unfold d1. rewrite complete_all_lookup by done. rewrite Hj.
    assert (id ∈ ids l ↔ j ∈ l) as Hin.
    { rewrite <-(Hk _ _ Hj). apply (elem_of_ids d); [done|by intros k [? _]%Hl|]. by rewrite (Hk _ _ Hj). }
    split; intros Hc.
    + rewrite decide_True; [done|]. apply Hin, Hl. split; [|done].
      apply elem_of_jobs; [done|]. by rewrite (Hk _ _ Hj).
    + rewrite decide_False; [done|]. intros Hi. apply Hc. by apply Hin, Hl in Hi as [_ Hi].
  - intros Hdone. destruct (run_outcome _ _ _) as [[f c]|] eqn:Eo.
    2: { destruct Hs as (j & [Hj Hr]%elem_of_run_jobs & Hns). by destruct Hns, (Hdone j). }
    eexists. rewrite Er. split; [|split; [cbn; by rewrite Eruns|cbn; by rewrite Elocks]].
    destruct Hs as (_ & Hf & Hc). setoid_rewrite elem_of_run_jobs in Hf. setoid_rewrite elem_of_run_jobs in Hc.
    unfold run_conclusion. rewrite <-Er, Ejobs.
    assert (∀ x (b : bool), (b = true ↔ false = true ∨ ∃ j, (j ∈ jobs_of d1 ∧ job_WorkflowRunID j = run) ∧
      job_Conclusion j = Some x) → if b then ∃ j, j ∈ jobs_of d1 ∧ job_WorkflowRunID j = run ∧ job_Conclusion j = Some x
      else ¬ ∃ j, j ∈ jobs_of d1 ∧ job_WorkflowRunID j = run ∧ job_Conclusion j = Some x) as Hhas.
    { intros x b Hb. destruct b; [|intros (j & ? & ? & ?); by assert (false = true) by (apply Hb; right; by exists j)].
      destruct (proj1 Hb eq_refl) as [?|(j & [? ?] & ?)]; [done|by exists j]. }
    apply Hhas in Hf, Hc. destruct f; [by left|right]. destruct c; [by left|by right].
  - intros Hnd'. destruct (run_outcome _ _ _) as [[f c]|] eqn:Eo.
    + destruct Hs as [Hs _]. destruct Hnd'. intros j Hj Hr. by apply Hs, elem_of_run_jobs.
    + by rewrite Er, Eruns, Elocks.
Qed.

Lemma run_progress_ok `{CiDriver} runnerID labels run d :
  ci_driver = DriverPostgres → keys_ok d → Forall job_ok (jobs_of d) →
  Forall utf8 (expand_labels labels) →
  NoDup (job_Name <$> ListWorkflowRunJobs d run) →
  defined (run_graph d run) → (∀ x, ¬ tc (edge (run_graph d run)) x x) →
  (∀ j, j ∈ jobs_of d → job_WorkflowRunID j = run →
     job_Status j = JobStatusQueued ∨
     job_Status j = JobStatusCompleted ∧ job_Conclusion j = Some ConclusionSuccess) →
  (∀ j l, j ∈ jobs_of d → job_WorkflowRunID j = run → l ∈ RunsOn j → l ∈ expand_labels labels) →
  (∃ j, j ∈ jobs_of d ∧ job_WorkflowRunID j = run ∧ job_Status j = JobStatusQueued) →
  ∃ j, (ClaimJob runnerID labels [] d).2 = Ok (Some j).
Proof.
  intros Hd Hk Hj Hl Hu Hdef Hac Hst Hlab (j & Hjd & Hr & Hq).
  destruct (claim_select_ok labels [] d Hd Hj Hl ltac:(apply Forall_nil_2)) as (o & Eo & Ho).
  unfold ClaimJob. st_simpl. rewrite Eo. destruct o as [id|].
  - destruct Ho as (k & <- & Hkd & He & _). apply elem_of_jobs in Hkd; [|done].
    unfold claim_update. rewrite Hkd, decide_True by apply He. cbn [Z.eqb].
    unfold GetJobByID. cbn [db_jobs update_job set_jobs]. rewrite lookup_alter_eq, Hkd. by eexists.
  - pose proof (ready_job d run labels Hu Hdef Hac Hst Hlab Ho j Hjd Hr) as Hc. by rewrite Hq in Hc.
Qed.

(** Progress.  On Postgres, as long as the needs of a run with distinct job
    names are defined and acyclic, its finished jobs have succeeded and none is
    being worked on, a queued job of the run means that a runner with all the
    labels gets a job: a run cannot get stuck before its first failure. *)
Theorem run_progress `{CiDriver} runnerID labels run d :
  ci_driver = DriverPostgres → keys_ok d → Forall job_ok (jobs_of d) →
  Forall utf8 (expand_labels labels) →
  NoDup (job_Name <$> ListWorkflowRunJobs d run) →
  defined (run_graph d run) → (∀ x, ¬ tc (edge (run_graph d run)) x x) →
  (∀ j, j ∈ jobs_of d → job_WorkflowRunID j = run →
     job_Status j = JobStatusQueued ∨
     job_Status j = JobStatusCompleted ∧ job_Conclusion j = Some ConclusionSuccess) →
  (∀ j l, j ∈ jobs_of d → job_WorkflowRunID j = run → l ∈ RunsOn j → l ∈ expand_labels labels) →
  (∃ j, j ∈ jobs_of d ∧ job_WorkflowRunID j = run ∧ job_Status j = JobStatusQueued) →
  ∃ j, (ClaimJob runnerID labels [] d).2 = Ok (Some j).
Proof. apply run_progress_ok. Qed.

(** A run that does not finish by itself, against the comment of
    [checkAndCompleteWorkflowRun] and the documentation, by which the jobs that
    depend on a failed job are cancelled and the run completes.  Only jobs that
    need a failed job are cancelled, not those that need a cancelled one.  On
    Postgres, once a queued job needs a job that was cancelled (or skipped)
    while nothing else it needs can fail, no sequence of claims, starts,
    completions, heartbeats and reaper rounds of runners that only touch their
    own jobs completes the job or the run, and the locks of the run stay taken.
    Cancelling the run, which is not one of those steps, does complete it. *)
Theorem blocked_forever `{CiDriver} d d' run c :
  ci_driver = DriverPostgres → keys_ok d → blocked d run c → steps d d' →
  (job_Status <$> db_jobs d' !! c) = Some JobStatusQueued ∧
  (run_Status <$> db_runs d' !! run) ≠ Some RunStatusCompleted ∧
  ∀ g l, db_locks d !! g = Some l → lock_WorkflowRunID l = run → db_locks d' !! g = Some l.
Proof.
  intros Hd Hk Hb Hs.
  assert (keys_ok d' ∧ blocked d' run c ∧ locks_kept run d d') as (_ & (j & Hj & _ & Hq & _ & _ & _ & Hr) & Hl).
  { apply (steps_ind' (λ x, keys_ok x ∧ blocked x run c ∧ locks_kept run d x) d); [|split; [done|split; [done|by intros ? ?]]|done].
    intros x o (H1 & H2 & H3) Hw. destruct (blocked_op x run c o Hd H1 H2 Hw) as (H4 & H5 & H6).
    split; [done|]. split; [done|]. by transitivity x. }
  split; [by rewrite Hj, <-Hq|]. split; [done|]. exact Hl.
Qed.

(** Cancelling a run.  An unknown or completed run is refused and nothing
    changes; otherwise the run and all its incomplete jobs are completed as
    cancelled and other jobs are left alone. *)
Theorem Handler_CancelWorkflowRun_spec `{CiDriver} run now d :
  keys_ok d →
  match Handler_CancelWorkflowRun run now d with
  | (d', Ok _) =>
    (∃ r, db_runs d !! run = Some r ∧ run_Status r ≠ RunStatusCompleted) ∧
    db_runs d' = db_runs (CompleteWorkflowRun run ConclusionCancelled now d) ∧
    (∀ id j, db_jobs d !! id = Some j → db_jobs d' !! id = Some
       (if decide (job_WorkflowRunID j = run ∧ job_Status j ≠ JobStatusCompleted)
        then job_completed ConclusionCancelled now j else j))
  | (d', Err ErrRunNotFound) => d' = d ∧ db_runs d !! run = None
  | (d', Err ErrRunCompleted) => d' = d ∧ (run_Status <$> db_runs d !! run) = Some RunStatusCompleted
  | (_, Panic) => False
  end.
Proof.
  intros Hk. destruct (Handler_CancelWorkflowRun run now d) as [d' [[]|e|]] eqn:E.
  - destruct (cancel_state run now d d' Hk E) as (Hr & _ & Hj). revert E.
    unfold Handler_CancelWorkflowRun, GetWorkflowRunByID. destruct (db_runs d !! run) as [r|]; [|done].
    destruct (decide (run_Status r = RunStatusCompleted)); [done|]. intros _. split; [by exists r|].
    split; [done|]. intros id j Ej. by rewrite Hj, Ej.
  - revert E. unfold Handler_CancelWorkflowRun, GetWorkflowRunByID.
    destruct (db_runs d !! run) as [r|]; [|by intros [= <- <-]].
    destruct (decide (run_Status r = RunStatusCompleted)) as [Hs|]; [|done].
    intros [= <- <-]. split; [done|]. cbn. by rewrite Hs.
  - revert E. unfold Handler_CancelWorkflowRun, GetWorkflowRunByID.
    destruct (db_runs d !! run); [|done]. by destruct (decide _).
Qed.

(** A cancelled run keeps its concurrency group.  The handler that cancels
    a run does not release its lock, and afterwards no runner and no reaper
    round does: later triggers of the group that do not cancel the run in
    progress create no run, for ever. *)
Theorem cancelled_group_stuck `{CiDriver} run now d d' d'' g l :
  keys_ok d → Handler_CancelWorkflowRun run now d = (d', Ok ()) →
  db_locks d !! g = Some l → lock_WorkflowRunID l = run → steps d' d'' →
  ∀ runID lockID now' wf repo ev ref sha payload by_,
    trigger_run runID lockID now' wf repo ev ref sha payload by_ (Some (g, false)) d'' = (d'', None).
Proof.
  intros Hk Hc Hg Hr Hs. destruct (cancel_done run now d d' Hk Hc) as [Hk' Hd'].
  destruct (cancel_state run now d d' Hk Hc) as (_ & El & _).
  assert (keys_ok d'' ∧ run_done d'' run ∧ locks_kept run d' d'') as (_ & _ & Hl).
  { apply (steps_ind' (λ x, keys_ok x ∧ run_done x run ∧ locks_kept run d' x) d'); [|split; [done|split; [done|by intros ? ?]]|done].
    intros x o (H1 & H2 & H3) Hw. destruct (done_op x run o H1 H2 Hw) as (H4 & H5 & H6).
    split; [done|]. split; [done|]. by transitivity x. }
  intros runID lockID now' wf repo ev ref sha payload by_. unfold trigger_run.
  unfold GetConcurrencyLock. rewrite (Hl g l); [done| |done]. by rewrite El.
Qed.

(** ** Witnesses *)

#[local] Instance demo_pg : CiDriver := plain_driver DriverPostgres.

(** build, then test, then deploy, with a lock of the run; build fails. *)
Definition demo_locked : CiDB :=
  (AcquireConcurrencyLock "lock1" 103 "deploy-main" "run1" "repo" "" demo_ci_jobs).1.
Definition demo_fails : list op :=
  [OClaim "r1" ["linux"] ["kai/server"]; OStart "j1" "runner 1" 110; OHeartbeat "j1" 115;
   OComplete "j1" ConclusionFailure ∅ "" 120].
Definition run_ops (l : list op) (d : CiDB) : CiDB := foldl (λ d o, run_op o d) d l.
Definition demo_failed : CiDB := run_ops demo_fails demo_locked.

Example demo_statuses :
  map (λ j, (job_ID j, job_Status j, job_Conclusion j)) (jobs_of demo_failed) =
  [("j3", "queued", None); ("j1", "completed", Some "failure"); ("j2", "completed", Some "cancelled")] ∧
  (run_Status <$> db_runs demo_failed !! "run1") = Some "in_progress".
Proof. vm_compute. done. Qed.

Ltac job_cases H :=
  repeat (apply elem_of_cons in H as [->|H]); [..|by apply elem_of_nil in H].

Lemma keys_of_list d :
  Forall (λ kj, job_ID kj.2 = kj.1) (map_to_list (db_jobs d)) → keys_ok d.
Proof. intros Hf id j Hj%elem_of_map_to_list. rewrite Forall_forall in Hf. exact (Hf _ Hj). Qed.

Ltac keys_demo := apply keys_of_list; vm_compute; repeat constructor.

Lemma demo_failed_keys : keys_ok demo_failed.
Proof. keys_demo. Qed.

Lemma demo_locked_keys : keys_ok demo_locked.
Proof. keys_demo. Qed.

Lemma blocked_intro d run c j need label :
  db_jobs d !! c = Some j → job_WorkflowRunID j = run → job_Status j = JobStatusQueued →
  job_Needs j = Some (marshal_strings (Some [need])) →
  job_RunsOn j = marshal_strings (Some [label]) → utf8 need → utf8 label →
  Forall (λ dep, job_Name dep = need → job_Status dep = JobStatusCompleted ∧
    job_Conclusion dep = Some ConclusionCancelled) (jobs_of d) →
  (run_Status <$> db_runs d !! run) ≠ Some RunStatusCompleted → blocked d run c.
Proof.
  intros Hj Hr Hq Hn Hl Hun Hul Hdeps Hrun. rewrite Forall_forall in Hdeps.
  assert (Forall utf8 [need]) as Hu by by apply Forall_singleton.
  assert (Needs j = [need]) as En by (unfold Needs; by rewrite Hn, unmarshal_marshal).
  exists j. split; [done|]. split; [done|]. split; [done|]. rewrite En.
  split; [split|split; [|split; [|done]]].
  - by exists (Some [need]).
  - exists [label]. split; [done|]. by apply Forall_singleton.
  - intros dep Hin _ Hname%list_elem_of_singleton. by destruct (Hdeps dep Hin Hname) as [-> ->].
  - exists need. split; [by left|]. intros dep Hin _ Hname. by destruct (Hdeps dep Hin Hname) as [_ ->].
Qed.

Lemma demo_blocked : blocked demo_failed "run1" "j3".
Proof.
  eapply (blocked_intro _ _ _ _ "test" "ubuntu-latest").
  1: vm_compute; reflexivity.
  1, 2: reflexivity.
  1, 2: vm_compute; reflexivity.
  1, 2: by apply utf8_ascii.
  - vm_compute. repeat constructor; done.
  - vm_compute. done.
Qed.

Lemma blocked_forever_witness :
  (job_Status <$> db_jobs (run_ops [OClaim "r2" ["linux"] []; OReap 100000] demo_failed) !! "j3")
  = Some JobStatusQueued.
Proof.
  apply (@blocked_forever demo_pg demo_failed _ "run1" "j3" eq_refl demo_failed_keys demo_blocked).
  apply (steps_op (OClaim "r2" ["linux"] [])); [done|].
  apply (steps_op (OReap 100000)); [done|]. apply steps_refl.
Defined.

Lemma not_run_done d run c j :
  keys_ok d → db_jobs d !! c = Some j → job_WorkflowRunID j = run → job_Status j = JobStatusQueued →
  ¬ run_done d run.
Proof.
  intros Hk Hj Hr Hq Hd. assert (job_Status j = JobStatusCompleted) as Hs; [|by rewrite Hq in Hs].
  apply Hd; [|done]. apply elem_of_jobs; [done|]. by rewrite (Hk _ _ Hj).
Qed.

Lemma checkAndCompleteWorkflowRun_spec_witness :
  db_runs (checkAndCompleteWorkflowRun "run1" 130 demo_failed) = db_runs demo_failed.
Proof.
  eapply (@checkAndCompleteWorkflowRun_spec demo_pg "run1" 130 demo_failed demo_failed_keys).
  - refine (bool_decide_unpack _ _). vm_compute. exact I.
  - eapply (not_run_done _ _ "j3"); [keys_demo|vm_compute; reflexivity|reflexivity..].
Defined.

Lemma run_progress_witness :
  ∃ j, (ClaimJob "r1" ["linux"] [] demo_ci_jobs).2 = Ok (Some j).
Proof.
  apply (@run_progress demo_pg "r1" ["linux"] "run1").
  - done.
  - exact demo_keys.
  - eapply Forall_impl; [exact demo_rows_ok|]. by intros ? [? _].
  - cbn. utf8_all.
  - refine (bool_decide_unpack _ _). vm_compute. exact I.
  - intros name need Hs Hin. unfold needs_of in Hin. destruct Hs as [l Hl]. rewrite Hl in Hin.
    apply elem_of_map_to_list in Hl. vm_compute in Hl.
    repeat (apply elem_of_cons in Hl as [[= -> ->]|Hl];
      [first [by apply elem_of_nil in Hin
             |apply list_elem_of_singleton in Hin as ->; eexists; vm_compute; reflexivity]|]).
    by apply elem_of_nil in Hl.
  - apply (ordered_NoDup_acyclic (run_graph demo_ci_jobs "run1") ["build"; "test"; "deploy"]).
    + intros y. rewrite <-(elem_of_elements (C := gset string)).
      assert (elements (dom (run_graph demo_ci_jobs "run1") : gset string) = ["build"; "test"; "deploy"]) as ->
        by (vm_compute; reflexivity). done.
    + unfold ordered. cbn [ordered_from]. unfold edge.
      assert (needs_of (run_graph demo_ci_jobs "run1") "build" = []) as -> by (vm_compute; reflexivity).
      assert (needs_of (run_graph demo_ci_jobs "run1") "test" = ["build"]) as -> by (vm_compute; reflexivity).
      assert (needs_of (run_graph demo_ci_jobs "run1") "deploy" = ["test"]) as -> by (vm_compute; reflexivity).
      set_solver.
  - assert (Forall (λ j, job_Status j = JobStatusQueued) (jobs_of demo_ci_jobs)) as Hq
      by (vm_compute; repeat constructor).
    rewrite Forall_forall in Hq. intros j Hj _. left. by apply Hq.
  - assert (forallb (λ j, bool_decide (RunsOn j = ["ubuntu-latest"])) (jobs_of demo_ci_jobs) = true) as Hl
      by (vm_compute; reflexivity).
    rewrite forallb_elem in Hl. intros j l Hj _. apply Hl, bool_decide_eq_true in Hj as ->.
    intros ->%list_elem_of_singleton. refine (bool_decide_unpack _ _). vm_compute. exact I.
  - eexists. split; [vm_compute; left|done].
Defined.

Lemma Handler_CancelWorkflowRun_spec_witness :
  db_runs (Handler_CancelWorkflowRun "run1" 130 demo_locked).1 =
  db_runs (CompleteWorkflowRun "run1" ConclusionCancelled 130 demo_locked).
Proof.
  pose proof (@Handler_CancelWorkflowRun_spec demo_pg "run1" 130 demo_locked demo_locked_keys) as H.
  assert ((Handler_CancelWorkflowRun "run1" 130 demo_locked).2 = Ok ()) as E by (vm_compute; reflexivity).
  destruct (Handler_CancelWorkflowRun "run1" 130 demo_locked) as [d' r]. cbn [snd] in E. subst r.
  exact (proj1 (proj2 H)).
Defined.

Lemma cancelled_group_stuck_witness :
  (trigger_run "run2" "lock2" 200000 "wf" "repo" "push" "refs/heads/main" "" "{}" "" (Some ("deploy-main", false))
     (run_ops [OReap 100000] (Handler_CancelWorkflowRun "run1" 130 demo_locked).1)).2 = None.
Proof.
  destruct (Handler_CancelWorkflowRun "run1" 130 demo_locked) as [d' r] eqn:E.
  assert (r = Ok ()) as -> by (change r with (d', r).2; rewrite <-E; vm_compute; reflexivity).
  erewrite (@cancelled_group_stuck demo_pg "run1" 130 demo_locked d' _ "deploy-main"); [reflexivity|..].
  - exact demo_locked_keys.
  - exact E.
  - vm_compute. reflexivity.
  - reflexivity.
  - apply (steps_op (OReap 100000)); [exact I|]. apply steps_refl.
Defined.

(** A runner that finishes a cancelled job overwrites its conclusion: no status
    is final for the handlers. *)
Example cancelled_job_succeeds :
  let d := run_ops [OClaim "r1" ["linux"] []; OStart "j1" "runner 1" 110] demo_locked in
  let d1 := (Handler_CancelWorkflowRun "run1" 130 d).1 in
  let d2 := Handler_CompleteJob "j1" ConclusionSuccess ∅ "" 140 d1 in
  ((run_Conclusion <$> db_runs d1 !! "run1"), (job_Conclusion <$> db_jobs d2 !! "j1")) =
  (Some (Some "cancelled"), Some (Some "success")).
Proof. vm_compute. reflexivity. Qed.
