(* ===== verification/CiPlan.v ===== *)
(** * From workflow files to queued jobs (kailab-control: api/ci.go, api/scheduler.go, db/ci.go)

    The table of workflows and the table of steps; the handlers that put
    workflow files into the table, and those that create a run of a workflow and
    its jobs: triggers of the data plane, manual dispatches, re-runs and the
    scheduler.  A job of a run is an instance of a job of the workflow file,
    after calls of other workflows were replaced by the jobs of those.

    Identifiers, clock readings and the orders in which Go visits maps come
    from an environment; each use draws a number, so no two uses need agree.
    The YAML decoder and the answers of the data plane are arguments. *)

From S2P Require Import Prelude Json GoStrings Float64 Sha256 Expr Cron JobGraph Workflow Trigger Matrix WorkflowJson CiStore CiControl.
Local Open Scope Z_scope.

(** ** State *)

Record WfRow := mk_WfRow {
  w_ID : string; w_RepoID : string; w_Path : string; w_Name : string; w_ContentHash : string;
  w_ParsedJSON : string; w_TriggersText : string; w_Active : bool; w_CreatedAt : Z; w_UpdatedAt : Z }.
Record StepRow := mk_StepRow {
  sp_ID : string; sp_JobID : string; sp_Number : Z; sp_Name : string; sp_Status : string;
  sp_Conclusion : option string; sp_StartedAt : option Z; sp_CompletedAt : option Z }.

(** [pd_orgs] are the slugs of the organisations, [pd_users] the addresses and
    identifiers of the users, [pd_tick] the number of draws. *)
Record PlanDB := mk_PlanDB {
  pd_ci : CiDB;
  pd_wfs : gmap string WfRow;
  pd_steps : gmap string StepRow;
  pd_orgs : gset string;
  pd_users : list (string * string);
  pd_tick : nat }.

Definition set_ci c s := mk_PlanDB c (pd_wfs s) (pd_steps s) (pd_orgs s) (pd_users s) (pd_tick s).
Definition set_wfs m s := mk_PlanDB (pd_ci s) m (pd_steps s) (pd_orgs s) (pd_users s) (pd_tick s).
Definition set_steps m s := mk_PlanDB (pd_ci s) (pd_wfs s) m (pd_orgs s) (pd_users s) (pd_tick s).
Definition set_tick n s := mk_PlanDB (pd_ci s) (pd_wfs s) (pd_steps s) (pd_orgs s) (pd_users s) n.

Inductive plan_error :=
| ErrDB (e : ci_error)
| ErrStored                    (** the stored workflow cannot be read *)
| ErrYAML
| ErrInvalid (e : wf_error)
| ErrOrder (e : graph_error).

Abbreviation planM := (stM PlanDB plan_error).

(** What the code gets from outside: new identifiers, the clock (in seconds),
    the orders in which maps are visited (the values of matrix instances in the
    loops of [ExpandJobsWithMatrix]), the orders of rows, the comparison of
    addresses. *)
Class Env := {
  uuid : nat → string;
  clock : nat → Z;
  visit : nat → ∀ A, gmap string A → list (string * A);
  visit_perm n A m : visit n A m ≡ₚ map_to_list m;
  visit_values : nat → value_orders;
  visit_values_perm n key i k m : visit_values n key i k m ≡ₚ map_to_list m;
  wf_scan : list WfRow → list WfRow;
  wf_scan_perm l : wf_scan l ≡ₚ l;
  wf_by_name : list WfRow → list WfRow;
  wf_by_name_perm l : wf_by_name l ≡ₚ l;
  fold_email : string → string;
}.
Arguments visit {_} n {A} m.

(** One more draw. *)
Definition draw {E} : stM PlanDB E nat := λ s, (set_tick (S (pd_tick s)) s, Ok (pd_tick s)).
(** A statement on the tables of runs and jobs. *)
Definition on_ci {A} (m : citx A) : planM A := λ s,
  let '(c, r) := m (pd_ci s) in (set_ci c s, map_err ErrDB r).
(** A call whose error the caller looks at. *)
Definition attempt {E A} (m : planM A) : stM PlanDB E (option A) := λ s,
  match m s with
  | (s, Ok a) => (s, Ok (Some a))
  | (s, Err _) => (s, Ok None)
  | (s, Panic) => (s, Panic)
  end.
Definition or_error {E A} (e : E) (o : option A) : res E A :=
  match o with Some a => Ok a | None => Err e end.

(** ** The table of workflows *)

(** The triggers as they are stored; no triggers are a nil slice. *)
Definition triggers_text (triggers : list string) : string :=
  marshal_strings (match triggers with [] => None | _ => Some triggers end).
Definition w_Triggers (w : WfRow) : list string := unmarshal_strings (w_TriggersText w).

Definition wf_rows (s : PlanDB) : list WfRow := (map_to_list (pd_wfs s)).*2.
Definition at_path (repoID path : string) (w : WfRow) : bool :=
  bool_decide (w_RepoID w = repoID) && bool_decide (w_Path w = path).

Definition GetWorkflowByID (s : PlanDB) (id : string) : res plan_error WfRow :=
  or_error (ErrDB ErrNotFound) (pd_wfs s !! id).
Definition GetWorkflowByRepoAndPath (s : PlanDB) (repoID path : string) : res plan_error WfRow :=
  or_error (ErrDB ErrNotFound) (List.find (at_path repoID path) (wf_rows s)).

Section plan.
Context `{CiDriver, Unicode, Env}.

Definition ListRepoWorkflows (s : PlanDB) (repoID : string) : list WfRow :=
  wf_by_name (filter (λ w, w_RepoID w = repoID) (wf_rows s)).

(** [triggers LIKE '%"trigger"%'] *)
Definition like_fold (b : byte) : Z :=
  match ci_driver with DriverSQLite => lower b | DriverPostgres => int_of_byte b end.
Definition has_trigger (trigger : string) (w : WfRow) : bool :=
  like like_fold (bytes_of "%" ++ quote :: bytes_of trigger ++ quote :: bytes_of "%") (bytes_of (w_TriggersText w)).
Definition ListActiveWorkflowsByTrigger (s : PlanDB) (repoID trigger : string) : list WfRow :=
  wf_scan (filter (λ w, w_RepoID w = repoID ∧ w_Active w = true ∧ has_trigger trigger w = true) (wf_rows s)).
Definition ListAllScheduleWorkflows (s : PlanDB) : list WfRow :=
  wf_scan (filter (λ w, w_Active w = true ∧ has_trigger "schedule" w = true) (wf_rows s)).

Definition CreateWorkflow (repoID path name contentHash parsedJSON : string) (triggers : list string)
  : planM WfRow :=
  n ← draw;
  let id := uuid n in
  let now := clock n in
  let w := mk_WfRow id repoID path name contentHash parsedJSON (triggers_text triggers) true now now in
  s ← gets (λ s, s);
  _ ← fail_if (bool_decide (is_Some (pd_wfs s !! id))) (ErrDB (ErrUnique "workflows.id"));
  _ ← fail_if (existsb (at_path repoID path) (wf_rows s)) (ErrDB (ErrUnique "workflows.repo_id, workflows.path"));
  _ ← fail_if (bool_decide (db_repos (pd_ci s) !! repoID = None)) (ErrDB (ErrForeignKey "repo_id"));
  let c := pd_ci s in
  _ ← modify (λ s, set_ci (mk_CiDB (db_runs c) (db_jobs c) (db_locks c) ({[id]} ∪ db_workflows c) (db_repos c))
                      (set_wfs (<[id := w]> (pd_wfs s)) s));
  s ← gets (λ s, s);
  lift (GetWorkflowByID s id).

Definition UpdateWorkflow (id name contentHash parsedJSON : string) (triggers : list string) (active : bool)
  : planM () :=
  n ← draw;
  modify (λ s, set_wfs (alter (λ w, mk_WfRow (w_ID w) (w_RepoID w) (w_Path w) name contentHash parsedJSON
    (triggers_text triggers) active (w_CreatedAt w) (clock n)) id (pd_wfs s)) s).

(** ** The table of steps *)

Definition StepStatusPending : string := "pending".
Definition GetStepByID (s : PlanDB) (id : string) : res plan_error StepRow :=
  or_error (ErrDB ErrNotFound) (pd_steps s !! id).
Definition same_step (jobID : string) (number : Z) (kr : string * StepRow) : bool :=
  bool_decide (sp_JobID kr.2 = jobID) && (sp_Number kr.2 =? number).

Definition CreateStep (jobID : string) (number : Z) (name : string) : planM StepRow :=
  n ← draw;
  let id := uuid n in
  _ ← fail_if (negb (storable name)) (ErrDB (ErrText name));
  s ← gets (λ s, s);
  _ ← fail_if (bool_decide (is_Some (pd_steps s !! id))) (ErrDB (ErrUnique "steps.id"));
  _ ← fail_if (existsb (same_step jobID number) (map_to_list (pd_steps s)))
        (ErrDB (ErrUnique "steps.job_id, steps.number"));
  _ ← fail_if (bool_decide (db_jobs (pd_ci s) !! jobID = None)) (ErrDB (ErrForeignKey "job_id"));
  _ ← modify (λ s, set_steps (<[id := mk_StepRow id jobID number name StepStatusPending None None None]> (pd_steps s)) s);
  s ← gets (λ s, s);
  lift (GetStepByID s id).

(** ** Calls of other workflows *)

Definition at_sign : byte := Byte.x40.
(** [if idx := strings.LastIndex(s, "@"); idx > 0 { s = s[:idx] }] *)
Fixpoint before_last (c : byte) (s : bytes) : option bytes :=
  match s with
  | [] => None
  | b :: s =>
    match before_last c s with
    | Some t => Some (b :: t)
    | None => if decide (b = c) then Some [] else None
    end
  end.
Definition uses_path (usesRef : string) : string :=
  let usesPath := trim_prefix (bytes_of "./") (bytes_of usesRef) in
  string_of (match before_last at_sign usesPath with
             | Some (b :: t) => b :: t
             | _ => usesPath
             end).

Definition with_inputs (visited : list (string * string)) (env : gmap string string) : gmap string string :=
  foldl (λ env kv, <["INPUT_" +:+ string_of (ToUpper (bytes_of kv.1)) := kv.2]> env) env visited.
Definition set_needs_env (needs : list string) (env : gmap string string) (j : Workflow.Job) : Workflow.Job :=
  mk_WfJob (j_Name j) (j_RunsOn j) (j_Uses j) (j_With j) needs (j_If j) (j_Steps j) env (j_Outputs j)
    (j_Secrets j) (j_Services j) (j_Container j) (j_Strategy j) (j_Concurrency j) (j_Timeout j)
    (j_ContinueOn j) (j_Permissions j).
(** [visited] are the inputs of the call in the order of the loop. *)
Definition inlined_job (jobKey : string) (caller : Workflow.Job) (visited : list (string * string))
    (calledJob : Workflow.Job) : Workflow.Job :=
  let inlinedNeeds := match j_Needs calledJob with
                      | [] => j_Needs caller
                      | needs => (λ n, jobKey +:+ "/" +:+ n) <$> needs
                      end in
  set_needs_env inlinedNeeds (with_inputs visited (j_Env calledJob)) calledJob.

Definition inline_job (jobKey : string) (caller : Workflow.Job) (jobs : gmap string Workflow.Job)
    (called : string * Workflow.Job) : planM (gmap string Workflow.Job) :=
  n ← draw;
  mret (<[jobKey +:+ "/" +:+ called.1 := inlined_job jobKey caller (visit n (j_With caller)) called.2]> jobs).

Definition called_workflow (s : PlanDB) (repoID usesRef : string) : option Workflow :=
  match GetWorkflowByRepoAndPath s repoID (uses_path usesRef) with
  | Ok calledWF =>
    calledParsed ← FromJSON (w_ParsedJSON calledWF);
    match on_WorkflowCall (wf_On calledParsed) with Some _ => Some calledParsed | None => None end
  | _ => None
  end.

Definition resolve_ref (repoID : string) (jobs : gmap string Workflow.Job) (ref : string * Workflow.Job)
  : planM (gmap string Workflow.Job) :=
  s ← gets (λ s, s);
  match called_workflow s repoID (j_Uses ref.2) with
  | None => mret jobs
  | Some calledParsed =>
    n ← draw;
    loopM (inline_job ref.1 ref.2) (delete ref.1 jobs) (visit n (wf_Jobs calledParsed))
  end.

Definition set_jobs_of (jobs : gmap string Workflow.Job) (w : Workflow) : Workflow :=
  mk_Workflow (wf_Name w) (wf_On w) (wf_Env w) jobs (wf_Defaults w) (wf_Concurrency w) (wf_Permissions w).
Definition resolveReusableWorkflows (repoID : string) (w : Workflow) : planM Workflow :=
  n ← draw;
  let refs := filter (λ kj, IsReusableWorkflowCall kj.2 = true) (visit n (wf_Jobs w)) in
  jobs ← loopM (resolve_ref repoID) (wf_Jobs w) refs;
  mret (set_jobs_of jobs w).

(** ** The jobs of a run *)

Definition add_names (expanded : gmap string (list ExpandedJob)) (m : gmap string (list string)) (jobKey : string)
  : gmap string (list string) :=
  foldl (λ m ej, <[jobKey := default [] (m !! jobKey) ++ [ej_Name ej]]> m) m (default [] (expanded !! jobKey)).
Definition expand_needs (keyToNames : gmap string (list string)) (needs : list string) : list string :=
  foldl (λ l need, match keyToNames !! need with Some names => l ++ names | None => l end) [] needs.

(** A slice that was only appended to: nil when nothing was. *)
Definition or_nil (l : list string) : option (list string) := match l with [] => None | _ => Some l end.

Definition matrix_json (values : matrix_values) : string :=
  if decide (values = ∅) then "" else string_of (MatrixValuesToJSON values).

Definition create_instance (runID : string) (keyToNames : gmap string (list string)) (_ : ()) (ej : ExpandedJob)
  : planM () :=
  let expandedNeeds := or_nil (expand_needs keyToNames (j_Needs (ej_Job ej))) in
  n ← draw;
  job ← on_ci (CreateJob (uuid n) (clock n) runID (ej_Name ej) expandedNeeds (matrix_json (ej_MatrixValues ej))
                 (j_RunsOn (ej_Job ej)));
  loopM (λ _ istep, _ ← CreateStep (job_ID job) istep.1 (Step_GetDisplayName istep.1 istep.2); mret ())
    () (imap (λ i step, (Z.of_nat i, step)) (steps_of (ej_Job ej))).

(** The order of the jobs; the names of in-degree zero in the order in which
    the map of in-degrees is visited. *)
Definition job_order (w : Workflow) : planM (list string) :=
  n ← draw;
  m ← draw;
  lift (map_err ErrOrder (GetJobOrder (visit n (wf_Jobs w)).*1
    (λ inDegree, (filter (λ kv, kv.2 = 0) (visit m inDegree)).*1) (j_Needs <$> wf_Jobs w))).

Definition createJobsFromWorkflow (wf : WfRow) (run : WorkflowRun) : planM () :=
  parsedWF ← lift (or_error ErrStored (FromJSON (w_ParsedJSON wf)));
  parsedWF ← resolveReusableWorkflows (w_RepoID wf) parsedWF;
  n ← draw;
  let expandedJobs := ExpandJobsWithMatrix (visit_values n) parsedWF in
  jobOrder ← job_order parsedWF;
  let keyToNames := foldl (add_names expandedJobs) ∅ jobOrder in
  loopM (λ _ jobKey, loopM (create_instance (run_ID run) keyToNames) () (default [] (expandedJobs !! jobKey)))
    () jobOrder.

(** ** Creating runs *)

Inductive plan_http_error :=
| HBadRequest (what : string)
| HNotFound (what : string)
| HInternal (what : string).
Abbreviation handlerM := (stM PlanDB plan_http_error).

(** A draw of an identifier and the clock for [CreateWorkflowRun]. *)
Definition create_run (workflowID repoID event ref sha payload createdBy : string) : planM WorkflowRun :=
  n ← draw;
  on_ci (CreateWorkflowRun (uuid n) (clock n) workflowID repoID event ref sha payload createdBy).

(** [json.Marshal] of a payload; a nil map is null. *)
Definition payload_json (payload : option (gmap string value)) : string :=
  string_of (match payload with None => bytes_of "null" | Some m => MatrixValuesToJSON m end).
(** What the type switches of the trigger rules see of a decoded JSON value:
    a JSON array is a slice of [interface{}], never one of strings. *)
Definition payload_seen (v : value) : payload_value :=
  match v with VStr s => PString (string_of s) | _ => POther end.

Record TriggerCIRequest := mk_TriggerCIRequest {
  tr_Repo : string; tr_Event : string; tr_Ref : string; tr_SHA : string;
  tr_Payload : option (gmap string value) }.

Definition trigger_event (req : TriggerCIRequest) : TriggerEvent :=
  mk_TriggerEvent (tr_Event req) (tr_Ref req) (tr_SHA req) (payload_seen <$> default ∅ (tr_Payload req)).

(** [ec.GitHub] *)
Definition trigger_context (orgSlug repoName : string) (req : TriggerCIRequest) (workflowName : string) : ExprContext :=
  mk_ExprContext
    [(bytes_of "repository", VStr (bytes_of (orgSlug +:+ "/" +:+ repoName)));
     (bytes_of "ref", VStr (bytes_of (tr_Ref req)));
     (bytes_of "ref_name", VStr (trim_prefix (bytes_of "refs/tags/")
        (trim_prefix (bytes_of "refs/heads/") (bytes_of (tr_Ref req)))));
     (bytes_of "sha", VStr (bytes_of (tr_SHA req)));
     (bytes_of "event_name", VStr (bytes_of (tr_Event req)));
     (bytes_of "workflow", VStr (bytes_of workflowName))]
    ∅ ∅ [] ∅ ∅ ∅ ∅ ∅ None.

(** The concurrency group, interpolated; an evaluation that does not end in
    [fuel] steps counts as a panic. *)
Definition concurrency_group (fuel : nat) (orgSlug repoName : string) (req : TriggerCIRequest) (wf : WfRow)
    (w : Workflow) : res plan_http_error (option (string * bool)) :=
  match wf_Concurrency w with
  | Some c =>
    if decide (cc_Group c = "") then Ok None
    else
      g ← or_panic (Interpolate (trigger_context orgSlug repoName req (w_Name wf)) fuel (bytes_of (cc_Group c)));
      Ok (Some (string_of g, cc_CancelInProgress c))
  | None => Ok None
  end.

Definition GetUserByEmail (s : PlanDB) (email : string) : option string :=
  snd <$> List.find (λ u : string * string, bool_decide (fold_email u.1 = fold_email email)) (pd_users s).
Definition payload_actor (s : PlanDB) (req : TriggerCIRequest) : string :=
  match default ∅ (tr_Payload req) !! "actor" with
  | Some (VStr actor) => match actor with
                         | [] => ""
                         | _ => default "" (GetUserByEmail s (string_of actor))
                         end
  | _ => ""
  end.

(** One workflow of the list. *)
Definition trigger_workflow (fuel : nat) (orgSlug repoName repoID : string) (req : TriggerCIRequest)
    (runIDs : list string) (wf : WfRow) : handlerM (list string) :=
  match FromJSON (w_ParsedJSON wf) with
  | None => mret runIDs
  | Some parsedWF =>
    if MatchTrigger parsedWF (trigger_event req) then
      concurrency ← lift (concurrency_group fuel orgSlug repoName req wf parsedWF);
      s ← gets (λ s, s);
      n ← draw;
      m ← draw;
      let '(c, created) := trigger_run (uuid n) (uuid m) (clock n) (w_ID wf) repoID (tr_Event req) (tr_Ref req)
        (tr_SHA req) (payload_json (tr_Payload req)) (payload_actor s req) concurrency (pd_ci s) in
      _ ← modify (set_ci c);
      match created with
      | None => mret runIDs
      | Some run =>
        ok ← attempt (createJobsFromWorkflow wf run);
        mret (match ok with Some _ => runIDs ++ [run_ID run] | None => runIDs end)
      end
    else mret runIDs
  end.

Definition trigger_type (event : string) : option string :=
  if decide (event = "push") then Some "push"
  else if decide (event = "review_created") then Some "review"
  else if decide (event = "review_updated") then Some "review"
  else if decide (event = "schedule") then Some "schedule"
  else if decide (event = "workflow_call") then Some "workflow_call"
  else None.

(** [GetOrgBySlug] and [GetRepoByOrgAndName]: the identifier of the repository. *)
Definition find_repo (s : PlanDB) (orgSlug repoName : string) : option string :=
  fst <$> List.find (λ kr : string * (string * string), bool_decide (kr.2 = (orgSlug, repoName)))
            (map_to_list (db_repos (pd_ci s))).
Definition split_repo (repo : string) : option (string * string) :=
  ab ← cut (bytes_of "/") (bytes_of repo); Some (string_of ab.1, string_of ab.2).

(** [sync] is the synchronisation with the data plane, whose error is
    logged. *)
Definition TriggerCI (fuel : nat) (sync : string → handlerM ()) (req : TriggerCIRequest) : handlerM (list string) :=
  '(orgSlug, repoName) ← lift (or_error (HBadRequest "repo") (split_repo (tr_Repo req)));
  s ← gets (λ s, s);
  _ ← fail_if (bool_decide (orgSlug ∉ pd_orgs s)) (HNotFound "org");
  repoID ← lift (or_error (HNotFound "repo") (find_repo s orgSlug repoName));
  _ ← sync repoID;
  triggerType ← lift (or_error (HBadRequest "event") (trigger_type (tr_Event req)));
  s ← gets (λ s, s);
  loopM (trigger_workflow fuel orgSlug repoName repoID req) []
    (ListActiveWorkflowsByTrigger s repoID triggerType).

Definition inputs_json (inputs : option (gmap string string)) : string :=
  string_of (marshal (JObj [(bytes_of "inputs",
    match inputs with
    | None => JNull
    | Some m => JMap ((λ kv, (bytes_of kv.1, JStr (bytes_of kv.2))) <$> map_to_list m)
    end)])).

Definition TriggerWorkflowDispatch : string := "workflow_dispatch".
Definition DispatchWorkflow (repoID userID workflowID ref : string) (inputs : option (gmap string string))
  : handlerM WorkflowRun :=
  s ← gets (λ s, s);
  match GetWorkflowByID s workflowID with
  | Ok wf =>
    _ ← fail_if (negb (bool_decide (w_RepoID wf = repoID))) (HNotFound "workflow");
    _ ← fail_if (negb (existsb (λ t, bool_decide (t = "workflow_dispatch")) (w_Triggers wf))) (HBadRequest "dispatch");
    run ← attempt (create_run (w_ID wf) repoID TriggerWorkflowDispatch ref "" (inputs_json inputs) userID);
    run ← lift (or_error (HInternal "create run") run);
    ok ← attempt (createJobsFromWorkflow wf run);
    _ ← lift (or_error (HInternal "create jobs") ok);
    mret run
  | _ => lift (Err (HNotFound "workflow"))
  end.

Definition RerunWorkflowRun (repoID userID runID : string) : handlerM WorkflowRun :=
  s ← gets (λ s, s);
  match GetWorkflowRunByID (pd_ci s) runID with
  | Ok run =>
    match GetWorkflowByID s (run_WorkflowID run) with
    | Ok wf =>
      newRun ← attempt (create_run (w_ID wf) repoID (run_TriggerEvent run) (run_TriggerRef run) (run_TriggerSHA run)
                          (run_TriggerPayload run) userID);
      newRun ← lift (or_error (HInternal "create run") newRun);
      ok ← attempt (createJobsFromWorkflow wf newRun);
      _ ← lift (or_error (HInternal "create jobs") ok);
      mret newRun
    | _ => lift (Err (HInternal "get workflow"))
    end
  | _ => lift (Err (HNotFound "run"))
  end.

(** ** The scheduler *)

Definition TriggerSchedule : string := "schedule".
Definition schedule_payload (c : string) : string :=
  string_of (marshal (JObj [(bytes_of "schedule", JStr (bytes_of c))])).

(** The first expression that matches the time [now], in nanoseconds. *)
Fixpoint due (now : Z) (l : list ScheduleTrigger) : res plan_http_error (option string) :=
  match l with
  | [] => Ok None
  | sched :: l =>
    match Cron.Parse (st_Cron sched) with
    | Ok cronSched =>
      matches ← Cron.Match cronSched now;
      if matches : bool then Ok (Some (st_Cron sched)) else due now l
    | Err _ => due now l
    | Panic => Panic
    end
  end.

(** A repository has its organisation (a foreign key), so only the repository
    can be missing. *)
Definition checkAndTriggerSchedule (now : Z) (_ : ()) (wf : WfRow) : handlerM () :=
  match FromJSON (w_ParsedJSON wf) with
  | None => mret ()
  | Some parsed =>
    sched ← lift (due now (on_Schedule (wf_On parsed)));
    match sched with
    | None => mret ()
    | Some c =>
      s ← gets (λ s, s);
      match db_repos (pd_ci s) !! w_RepoID wf with
      | None => mret ()
      | Some _ =>
        run ← attempt (create_run (w_ID wf) (w_RepoID wf) TriggerSchedule "refs/heads/main" "" (schedule_payload c) "");
        match run with
        | None => mret ()
        | Some run => _ ← attempt (createJobsFromWorkflow wf run); mret ()
        end
      end
    end
  end.
Definition runScheduledWorkflows (now : Z) : handlerM () :=
  s ← gets (λ s, s);
  loopM (checkAndTriggerSchedule now) () (ListAllScheduleWorkflows s).

(** ** Workflow files *)

Definition ContentHash (content : bytes) : string := string_of (hex_encode_bytes (Sum256 content)).

Variable yaml : bytes → option Workflow.
(** [workflow.Parse] *)
Definition ParseWorkflow (content : bytes) : planM Workflow :=
  w ← lift (or_error ErrYAML (yaml content));
  n ← draw;
  m ← draw;
  k ← draw;
  _ ← lift (map_err ErrInvalid (Validate (visit n (wf_Jobs w)).*1 (visit m (wf_Jobs w)).*1 (visit k (wf_Jobs w)).*1 w));
  mret w.
Definition ToJSON_text (w : Workflow) : string := default "" (ToJSON w).

Record SyncWorkflowsResponse := mk_SyncWorkflowsResponse {
  sr_Synced : list string; sr_Errors : list string; sr_Removed : list string }.
Definition synced (path : string) (r : SyncWorkflowsResponse) :=
  mk_SyncWorkflowsResponse (sr_Synced r ++ [path]) (sr_Errors r) (sr_Removed r).
Definition failed (path : string) (r : SyncWorkflowsResponse) :=
  mk_SyncWorkflowsResponse (sr_Synced r) (sr_Errors r ++ [path]) (sr_Removed r).
Definition removed (path : string) (r : SyncWorkflowsResponse) :=
  mk_SyncWorkflowsResponse (sr_Synced r) (sr_Errors r) (sr_Removed r ++ [path]).

(** An error of the response is the path of the file. *)
Definition sync_file (repoID : string) (existingByPath : gmap string WfRow) (resp : SyncWorkflowsResponse)
    (file : string * bytes) : handlerM SyncWorkflowsResponse :=
  let '(path, content) := file in
  wf ← attempt (ParseWorkflow content);
  match wf with
  | None => mret (failed path resp)
  | Some wf =>
    match existingByPath !! path with
    | Some existing =>
      if decide (w_ContentHash existing = ContentHash content) then mret (synced path resp)
      else
        ok ← attempt (UpdateWorkflow (w_ID existing) (wf_Name wf) (ContentHash content) (ToJSON_text wf)
                        (GetTriggerTypes wf) true);
        mret (match ok with Some _ => synced path resp | None => failed path resp end)
    | None =>
      ok ← attempt (CreateWorkflow repoID path (wf_Name wf) (ContentHash content) (ToJSON_text wf) (GetTriggerTypes wf));
      mret (match ok with Some _ => synced path resp | None => failed path resp end)
    end
  end.
(** Workflows without a file become inactive. *)
Definition sync_missing (files : gmap string bytes) (resp : SyncWorkflowsResponse) (pw : string * WfRow)
  : handlerM SyncWorkflowsResponse :=
  let '(path, wf) := pw in
  match files !! path with
  | Some _ => mret resp
  | None =>
    ok ← attempt (UpdateWorkflow (w_ID wf) (w_Name wf) (w_ContentHash wf) (w_ParsedJSON wf) (w_Triggers wf) false);
    mret (match ok with Some _ => removed path resp | None => resp end)
  end.
Definition by_path (l : list WfRow) : gmap string WfRow := foldl (λ m w, <[w_Path w := w]> m) ∅ l.
Definition SyncWorkflows (repoID : string) (files : gmap string bytes) : handlerM SyncWorkflowsResponse :=
  s ← gets (λ s, s);
  let existingByPath := by_path (ListRepoWorkflows s repoID) in
  n ← draw;
  resp ← loopM (sync_file repoID existingByPath) (mk_SyncWorkflowsResponse [] [] []) (visit n files);
  m ← draw;
  loopM (sync_missing files) resp (visit m existingByPath).

(** The loop over the files of the data plane, from what it lists and what it
    answers for a digest. *)
Definition is_workflow_file (path : string) : bool :=
  has_prefix ".kailab/workflows/" path && has_suffix ".yml" path.
Definition workflow_files (listed : list (string * string)) : gmap string string :=
  foldl (λ m f, if is_workflow_file f.1 then <[f.1 := f.2]> m else m) ∅ listed.

Definition sync_fetched (repoID path : string) (content : bytes) : handlerM () :=
  s ← gets (λ s, s);
  let contentHash := ContentHash content in
  let existing := GetWorkflowByRepoAndPath s repoID path in
  match existing with
  | Ok w => if decide (w_ContentHash w = contentHash) then mret ()
            else
              (** the log line shows [existing.ContentHash[:16]] *)
              _ ← lift (or_panic (go_slice (bytes_of (w_ContentHash w)) 0 16));
              parsed ← attempt (ParseWorkflow content);
              match parsed ≫= λ p, (p,.) <$> ToJSON p with
              | None => mret ()
              | Some (parsed, parsedJSON) =>
                _ ← attempt (UpdateWorkflow (w_ID w) (wf_Name parsed) contentHash parsedJSON (GetTriggerTypes parsed) true);
                mret ()
              end
  | Err (ErrDB ErrNotFound) =>
    parsed ← attempt (ParseWorkflow content);
    match parsed ≫= λ p, (p,.) <$> ToJSON p with
    | None => mret ()
    | Some (parsed, parsedJSON) =>
      _ ← attempt (CreateWorkflow repoID path (wf_Name parsed) contentHash parsedJSON (GetTriggerTypes parsed));
      mret ()
    end
  | _ => mret ()
  end.
Definition syncWorkflowsFromDataPlane (listed : list (string * string)) (content_of : string → option bytes)
    (repoID : string) : handlerM () :=
  n ← draw;
  loopM (λ _ pd, match content_of pd.2 with None => mret () | Some content => sync_fetched repoID pd.1 content end)
    () (visit n (workflow_files listed)).
End plan.
