(* ===== verification/PlanProps.v ===== *)
(** * What comes of workflow files

    The jobs a run gets from its workflow, that a runner can claim one of them,
    the workflows that never start, and those that start and never end. *)

From S2P Require Import Prelude Json GoStrings Float64 Sha256 Expr Cron JobGraph Workflow Trigger Matrix WorkflowJson CiStore CiControl CiProps CiPlan.
Local Open Scope Z_scope.

(** ** Lemmas: rows that are added *)

Definition put_jobs (js : list Job) (m : gmap string Job) : gmap string Job :=
  foldl (λ m j, <[job_ID j := j]> m) m js.
Definition put_steps (ss : list StepRow) (m : gmap string StepRow) : gmap string StepRow :=
  foldl (λ m r, <[sp_ID r := r]> m) m ss.

Lemma put_lookup {A} (key : A → string) (l : list A) (m : gmap string A) id :
  NoDup (key <$> l) →
  foldl (λ m a, <[key a := a]> m) m l !! id =
  match List.find (λ a, bool_decide (key a = id)) l with Some a => Some a | None => m !! id end.
Proof.
  revert m. induction l as [|a l IH]; intros m Hn; cbn [foldl List.find fmap list_fmap]; [done|].
  apply NoDup_cons in Hn as [Ha Hn]. rewrite IH by done. case_bool_decide as E.
  - subst id. destruct (List.find _ l) as [b|] eqn:Ef; [|by rewrite lookup_insert_eq].
    apply find_some in Ef as [Hb E%bool_decide_eq_true]. destruct Ha. rewrite <-E.
    apply list_elem_of_fmap_2. by apply list_elem_of_In.
  - by rewrite lookup_insert_ne.
Qed.

Lemma put_elem {A} (key : A → string) (l : list A) (m : gmap string A) id a :
  NoDup (key <$> l) → (∀ b, b ∈ l → m !! key b = None) →
  foldl (λ m a, <[key a := a]> m) m l !! id = Some a ↔ (a ∈ l ∧ key a = id) ∨ m !! id = Some a.
Proof.
  intros Hn Hm. rewrite put_lookup by done. destruct (List.find _ l) as [b|] eqn:E.
  - apply find_elem in E as [Hb E%bool_decide_eq_true]. split.
    + intros [= <-]. by left.
    + intros [[Ha E']|Hid]; [|specialize (Hm b Hb); rewrite E in Hm; congruence]. f_equal.
      destruct (list_elem_of_lookup_1 _ _ Ha) as [i Hi], (list_elem_of_lookup_1 _ _ Hb) as [j Hj].
      assert (i = j) as ->; [|congruence]. eapply NoDup_lookup; [exact Hn|by rewrite list_lookup_fmap, Hi; cbn|].
      rewrite list_lookup_fmap, Hj. cbn. congruence.
  - split; [by right|]. intros [[Ha E']|Hid]; [|done].
    apply (find_absent _ _ _ E) in Ha. by rewrite bool_decide_eq_true_2 in Ha.
Qed.

Section grown.
Context `{CiDriver, Unicode, Env}.

(** The identifiers still to be drawn are in no table, and rows refer to rows
    that exist. *)
Record plan_ok (s : PlanDB) : Prop := {
  ok_fresh n : (pd_tick s ≤ n)%nat →
    db_jobs (pd_ci s) !! uuid n = None ∧ pd_steps s !! uuid n = None ∧ db_runs (pd_ci s) !! uuid n = None ∧
    pd_wfs s !! uuid n = None ∧ ∀ g l, db_locks (pd_ci s) !! g = Some l → lock_ID l ≠ uuid n;
  ok_keys : keys_ok (pd_ci s);
  ok_run_keys : run_keys (pd_ci s);
  ok_job_run id j : db_jobs (pd_ci s) !! id = Some j → is_Some (db_runs (pd_ci s) !! job_WorkflowRunID j);
  ok_step_job id r : pd_steps s !! id = Some r → is_Some (db_jobs (pd_ci s) !! sp_JobID r) }.

(** What creating jobs changes: rows are added under identifiers that were
    drawn since. *)
Definition drawn (s s' : PlanDB) (id : string) : Prop :=
  ∃ n, id = uuid n ∧ (pd_tick s ≤ n < pd_tick s')%nat.
Record grown (s s' : PlanDB) (js : list Job) (ss : list StepRow) : Prop := {
  gr_ci : pd_ci s' = CiStore.set_jobs (put_jobs js (db_jobs (pd_ci s))) (pd_ci s);
  gr_steps : pd_steps s' = put_steps ss (pd_steps s);
  gr_rest : pd_wfs s' = pd_wfs s ∧ pd_orgs s' = pd_orgs s ∧ pd_users s' = pd_users s;
  gr_tick : (pd_tick s ≤ pd_tick s')%nat;
  gr_drawn : Forall (drawn s s') ((job_ID <$> js) ++ (sp_ID <$> ss));
  gr_NoDup : NoDup ((job_ID <$> js) ++ (sp_ID <$> ss));
  gr_runs : ∀ j, j ∈ js → is_Some (db_runs (pd_ci s) !! job_WorkflowRunID j);
  gr_jobs : ∀ r, r ∈ ss → is_Some (db_jobs (pd_ci s') !! sp_JobID r) }.

Context `{!Inj (=) (=) uuid}.

Lemma grown_refl s n : (pd_tick s ≤ n)%nat → grown s (set_tick n s) [] [].
Proof.
  intros Hn. destruct s as [[] ? ? ? ? ?].
  by split; cbn; first [done|apply Forall_nil_2|apply NoDup_nil_2|intros j ?%elem_of_nil].
Qed.

Lemma drawn_mono s1 s2 s3 s4 id : (pd_tick s1 ≤ pd_tick s2)%nat → (pd_tick s3 ≤ pd_tick s4)%nat →
  drawn s2 s3 id → drawn s1 s4 id.
Proof. intros ?? (n & -> & ?). exists n. split; [done|lia]. Qed.

Lemma drawn_disjoint s1 s2 s3 id : drawn s1 s2 id → drawn s2 s3 id → False.
Proof. intros (n & -> & ?) (m & E%(inj uuid) & ?). lia. Qed.

Lemma put_jobs_some js m id : is_Some (m !! id) → is_Some (put_jobs js m !! id).
Proof.
  revert m. induction js as [|j js IH]; intros m Hm; [done|]. cbn. apply IH.
  destruct (decide (job_ID j = id)) as [->|Hne]; [by rewrite lookup_insert_eq|by rewrite lookup_insert_ne].
Qed.

Lemma grown_trans s1 s2 s3 js1 ss1 js2 ss2 :
  grown s1 s2 js1 ss1 → grown s2 s3 js2 ss2 → grown s1 s3 (js1 ++ js2) (ss1 ++ ss2).
Proof.
  intros [C1 S1 R1 T1 D1 N1 U1 J1] [C2 S2 R2 T2 D2 N2 U2 J2].
  assert ((job_ID <$> js1 ++ js2) ++ (sp_ID <$> ss1 ++ ss2) ≡ₚ
    ((job_ID <$> js1) ++ (sp_ID <$> ss1)) ++ ((job_ID <$> js2) ++ (sp_ID <$> ss2))) as Hp
    by (rewrite !fmap_app; solve_Permutation).
  split.
  - rewrite C2, C1. cbn. unfold put_jobs. by rewrite foldl_app.
  - rewrite S2, S1. unfold put_steps. by rewrite foldl_app.
  - destruct R1 as (?&?&?), R2 as (?&?&?). split; [|split]; congruence.
  - lia.
  - rewrite Hp, Forall_app. split; (eapply Forall_impl; [eassumption|]); intros id; by apply drawn_mono.
  - rewrite Hp. apply NoDup_app. split; [done|]. split; [|done]. intros id A1 A2.
    rewrite Forall_forall in D1, D2. eapply drawn_disjoint; [by apply D1|by apply D2].
  - intros j [Hj|Hj]%elem_of_app; [by apply U1|]. specialize (U2 j Hj). by rewrite C1 in U2.
  - intros r [Hr|Hr]%elem_of_app; [|by apply J2]. rewrite C2. cbn. apply put_jobs_some. by apply J1.
Qed.

Lemma grown_absent s s' js ss : plan_ok s → grown s s' js ss →
  (∀ j, j ∈ js → db_jobs (pd_ci s) !! job_ID j = None) ∧ (∀ r, r ∈ ss → pd_steps s !! sp_ID r = None).
Proof.
  intros Hk Hg. pose proof (gr_drawn _ _ _ _ Hg) as Hd. rewrite Forall_forall in Hd. split.
  - intros j Hj. destruct (Hd (job_ID j)) as (n & -> & Hn); [apply elem_of_app; left; by apply list_elem_of_fmap_2|].
    by destruct (ok_fresh s Hk n) as (? & ? & _); [lia|].
  - intros r Hr. destruct (Hd (sp_ID r)) as (n & -> & Hn); [apply elem_of_app; right; by apply list_elem_of_fmap_2|].
    by destruct (ok_fresh s Hk n) as (? & ? & _); [lia|].
Qed.

Lemma grown_job s s' js ss id j : plan_ok s → grown s s' js ss →
  db_jobs (pd_ci s') !! id = Some j ↔ (j ∈ js ∧ job_ID j = id) ∨ db_jobs (pd_ci s) !! id = Some j.
Proof.
  intros Hk Hg. rewrite (gr_ci _ _ _ _ Hg). cbn. apply put_elem.
  - apply (NoDup_app (job_ID <$> js) (sp_ID <$> ss)), Hg.
  - by eapply grown_absent.
Qed.
Lemma grown_step s s' js ss id r : plan_ok s → grown s s' js ss →
  pd_steps s' !! id = Some r ↔ (r ∈ ss ∧ sp_ID r = id) ∨ pd_steps s !! id = Some r.
Proof.
  intros Hk Hg. rewrite (gr_steps _ _ _ _ Hg). apply put_elem.
  - pose proof (gr_NoDup _ _ _ _ Hg) as Hn. by apply NoDup_app in Hn as (_ & _ & Hn).
  - by eapply grown_absent.
Qed.

Lemma grown_ok s s' js ss : plan_ok s → grown s s' js ss → plan_ok s'.
Proof.
  intros Hk Hg. pose proof (grown_job s s' js ss) as Hj. pose proof (grown_step s s' js ss) as Hs.
  pose proof (gr_ci _ _ _ _ Hg) as Ec. pose proof (gr_tick _ _ _ _ Hg) as Ht.
  pose proof (gr_drawn _ _ _ _ Hg) as Hd. rewrite Forall_forall in Hd. split.
  - intros n Hn. destruct (ok_fresh s Hk n ltac:(lia)) as (F1 & F2 & F3 & F4 & F5).
    assert (∀ id, drawn s s' id → id ≠ uuid n) as Hne by (intros _ (m & -> & ?) ?%(inj uuid); lia).
    split; [|split; [|split; [by rewrite Ec|split; [|by rewrite Ec]]]].
    + apply eq_None_not_Some. intros [j [[Hin E]|E]%Hj]; [|congruence|done..].
      eapply Hne; [|exact E]. apply Hd, elem_of_app. left. by apply list_elem_of_fmap_2.
    + apply eq_None_not_Some. intros [r [[Hin E]|E]%Hs]; [|congruence|done..].
      eapply Hne; [|exact E]. apply Hd, elem_of_app. right. by apply list_elem_of_fmap_2.
    + by destruct (gr_rest _ _ _ _ Hg) as (-> & _).
  - intros id j [[Hin E]|E]%Hj; [done| |done..]. by apply (ok_keys s Hk).
  - intros id r. rewrite Ec. apply (ok_run_keys s Hk).
  - intros id j [[Hin E]|E]%Hj; [| |done..]; rewrite Ec; cbn; [by eapply gr_runs|by eapply ok_job_run].
  - intros id r [[Hin E]|E]%Hs; [| |done..]; [by eapply gr_jobs|].
    rewrite Ec. apply put_jobs_some. by eapply ok_step_job.
Qed.

(** ** Lemmas: creating the rows of a job *)

Definition step_view (r : StepRow) : string * Z * string * string :=
  (sp_JobID r, sp_Number r, sp_Name r, sp_Status r).
Definition step_rows (jobID : string) (l : list Step) : list (string * Z * string * string) :=
  imap (λ i step, (jobID, Z.of_nat i, Step_GetDisplayName (Z.of_nat i) step, StepStatusPending)) l.

Lemma CreateStep_run jobID number name s : plan_ok s → is_Some (db_jobs (pd_ci s) !! jobID) →
  (∀ id r, pd_steps s !! id = Some r → sp_JobID r = jobID → sp_Number r ≠ number) →
  match CreateStep jobID number name s with
  | (s', Ok r) => storable name = true ∧ grown s s' [] [r] ∧ step_view r = (jobID, number, name, StepStatusPending)
  | (s', Err e) => e = ErrDB (ErrText name) ∧ storable name = false ∧ grown s s' [] []
  | (_, Panic) => False
  end.
Proof.
  intros Hk [j Hj] Hn. destruct (ok_fresh s Hk (pd_tick s) ltac:(lia)) as (_ & F2 & _).
  unfold CreateStep, draw. destruct (storable name); cbn [negb]; st_simpl.
  2: { split; [done|]. split; [done|]. apply grown_refl. lia. }
  cbn [set_tick pd_steps pd_ci pd_tick].
  rewrite F2. cbn [bool_decide is_Some]. rewrite bool_decide_eq_false_2 by (by intros []).
  assert (existsb (same_step jobID number) (map_to_list (pd_steps s)) = false) as ->.
  { apply not_true_iff_false. rewrite existsb_elem. intros ([id r] & Hr%elem_of_map_to_list & Hs).
    unfold same_step in Hs. bool_to_prop. by eapply Hn. }
  rewrite Hj, bool_decide_eq_false_2 by done. unfold GetStepByID, or_error. cbn [pd_steps set_steps].
  rewrite lookup_insert_eq. split; [done|]. split; [|done].
  split; cbn; [by destruct (pd_ci s)|done|done|lia| |apply NoDup_singleton|by intros ? ?%elem_of_nil|].
  - apply Forall_singleton. exists (pd_tick s). cbn. split; [done|lia].
  - intros r ->%list_elem_of_singleton. cbn. rewrite Hj. done.
Qed.

Definition step_loop (jobID : string) (l : list Step) : planM () :=
  loopM (λ _ istep, _ ← CreateStep jobID istep.1 (Step_GetDisplayName istep.1 istep.2); mret ())
    () (imap (λ i step, (Z.of_nat i, step)) l).

(** The names under which the steps of a job are stored. *)
Definition step_names (l : list Step) : list string := imap (λ i, Step_GetDisplayName (Z.of_nat i)) l.

Lemma imap_prefix {A B} (f : nat → A → B) l k b k' :
  imap f l = k ++ b :: k' → ∃ l1 a l2, l = l1 ++ a :: l2 ∧ k = imap f l1 ∧ b = f (length l1) a.
Proof.
  revert f k. induction l as [|a l IH]; intros f k E; [by destruct k|]. destruct k as [|c k].
  - injection E as <- _. by exists [], a, l.
  - injection E as <- E. destruct (IH _ _ E) as (l1 & x & l2 & -> & -> & ->). by exists (a :: l1), x, l2.
Qed.

Lemma imap_pair_inj {A B} (f : nat → A) (l k : list B) :
  imap (λ i b, (f i, b)) l = imap (λ i b, (f i, b)) k → l = k.
Proof.
  revert f k. induction l as [|b l IH]; intros f [|c k] E; [done..|]. injection E as -> E.
  f_equal. by apply (IH (f ∘ S)).
Qed.

(** The numbers that are left. *)
Lemma step_number_new s s1 ss jobID k :
  plan_ok s → grown s s1 [] ss → step_view <$> ss = step_rows jobID k →
  (∀ id r, pd_steps s !! id = Some r → sp_JobID r ≠ jobID) →
  ∀ id r, pd_steps s1 !! id = Some r → sp_JobID r = jobID → sp_Number r ≠ Z.of_nat (length k).
Proof.
  intros Hk Hg Hv Hn id r Hr Hjr.
  apply (grown_step s s1 [] ss id r Hk Hg) in Hr as [[Hr _]|Hr]; [|by apply Hn in Hr].
  apply list_elem_of_lookup_1 in Hr as [m Hm].
  apply (f_equal (λ l, l !! m)) in Hv. unfold step_rows in Hv. rewrite list_lookup_fmap, list_lookup_imap, Hm in Hv.
  destruct (k !! m) as [step|] eqn:Em; [|done]. injection Hv as _ -> _ _. apply lookup_lt_Some in Em. lia.
Qed.

Lemma create_steps jobID l s : plan_ok s → is_Some (db_jobs (pd_ci s) !! jobID) →
  (∀ id r, pd_steps s !! id = Some r → sp_JobID r ≠ jobID) →
  match step_loop jobID l s with
  | (s', Ok _) => ∃ ss, grown s s' [] ss ∧ step_view <$> ss = step_rows jobID l ∧
      Forall (λ name, storable name = true) (step_names l)
  | (s', Err e) => ∃ k step k' ss, l = k ++ step :: k' ∧ grown s s' [] ss ∧ step_view <$> ss = step_rows jobID k ∧
      Forall (λ name, storable name = true) (step_names k) ∧
      let name := Step_GetDisplayName (Z.of_nat (length k)) step in e = ErrDB (ErrText name) ∧ storable name = false
  | (_, Panic) => False
  end.
Proof.
  intros Hk Hj Hn. set (number := λ (i : nat) (step : Step), (Z.of_nat i, step)).
  pose (I := λ (k : list (Z * Step)) (_ : ()) s', ∃ k0 ss, k = imap number k0 ∧ grown s s' [] ss ∧
    step_view <$> ss = step_rows jobID k0 ∧ Forall (λ name, storable name = true) (step_names k0)).
  assert (match step_loop jobID l s with
    | (s', Ok b) => I (imap number l) b s'
    | (s', Err e) => ∃ k istep k', imap number l = k ++ istep :: k' ∧ I k () s' ∧
        let name := Step_GetDisplayName istep.1 istep.2 in e = ErrDB (ErrText name) ∧ storable name = false
    | (_, Panic) => False
    end) as Hc.
  { unfold step_loop. apply loopM_cases.
    { exists [], []. split; [done|]. split; [|by repeat split; constructor].
      replace s with (set_tick (pd_tick s) s) at 2 by (by destruct s). by apply grown_refl. }
    intros k istep k' [] s1 El (k0 & ss & -> & Hg & Hv & Hs).
    destruct (imap_prefix _ _ _ _ _ El) as (k1 & step & k2 & -> & Ek & ->).
    assert (k1 = k0) as -> by (symmetry; by apply imap_pair_inj in Ek).
    cbn [fst snd number].
    pose proof (CreateStep_run jobID (Z.of_nat (length k0)) (Step_GetDisplayName (Z.of_nat (length k0)) step) s1) as Hc.
    unfold mbind, stM_bind. destruct (CreateStep _ _ _ s1) as [s2 [r|e|]].
    + destruct Hc as (Hst & Hg2 & Hv2); [by eapply grown_ok|by rewrite (gr_ci _ _ _ _ Hg)|by eapply step_number_new|].
      exists (k0 ++ [step]), (ss ++ [r]). split; [by rewrite imap_app; cbn; rewrite Nat.add_0_r|].
      split; [by apply (grown_trans s s1 s2 [] ss [] [r])|]. unfold step_rows, step_names in *.
      rewrite !fmap_app, !imap_app, Hv. cbn. rewrite Hv2, Nat.add_0_r. split; [done|].
      apply Forall_app. split; [done|]. by constructor.
    + destruct Hc as (-> & Hst & Hg2); [by eapply grown_ok|by rewrite (gr_ci _ _ _ _ Hg)|by eapply step_number_new|].
      split; [|done]. exists k0, ss. split; [done|]. split; [|done].
      rewrite <-(app_nil_r ss). by apply (grown_trans s s1 s2 [] ss [] []).
    + apply Hc; [by eapply grown_ok|by rewrite (gr_ci _ _ _ _ Hg)|by eapply step_number_new]. }
  destruct (step_loop jobID l s) as [s' [b|e|]]; [| |done].
  - destruct Hc as (k0 & ss & Ek & Hg & Hv & Hs).
    assert (k0 = l) as -> by (symmetry; by apply imap_pair_inj in Ek).
    by exists ss.
  - destruct Hc as (k & istep & k' & El & (k0 & ss & -> & Hg & Hv & Hs) & He).
    destruct (imap_prefix _ _ _ _ _ El) as (k1 & step & k2 & -> & Ek & ->).
    assert (k1 = k0) as -> by (symmetry; by apply imap_pair_inj in Ek).
    by exists k0, step, k2, ss.
Qed.

(** The display names of all instances of the jobs that are needed. *)
Definition names_needed (expanded : gmap string (list ExpandedJob)) (needs : list string) : list string :=
  needs ≫= λ need, ej_Name <$> default [] (expanded !! need).

(** A queued job for an instance. *)
Definition instance_row (runID : string) (expanded : gmap string (list ExpandedJob)) (ej : ExpandedJob) (j : Job)
  : Prop :=
  ∃ id now, j = mk_Job id runID (ej_Name ej) None JobStatusQueued None
    (if decide (matrix_json (ej_MatrixValues ej) = "") then None else Some (matrix_json (ej_MatrixValues ej)))
    (Some (marshal_strings (or_nil (names_needed expanded (j_Needs (ej_Job ej)))))) None None None now
    (marshal_strings (j_RunsOn (ej_Job ej))) (Some "{}") (Some "") None.

(** The names of an instance and of its steps can all be stored. *)
Definition names_storable (ej : ExpandedJob) : Prop :=
  storable (ej_Name ej) = true ∧ Forall (λ name, storable name = true) (step_names (steps_of (ej_Job ej))).

Section rows.
Variables (runID : string) (expanded : gmap string (list ExpandedJob)) (keyToNames : gmap string (list string)).
Hypothesis needs_names : ∀ needs, expand_needs keyToNames needs = names_needed expanded needs.

(** The rows of an instance at which the database refused a name. *)
Inductive stopped_at (ej : ExpandedJob) : string → list Job → list StepRow → Prop :=
| stopped_job : stopped_at ej (ej_Name ej) [] []
| stopped_step j k step k' ss :
    instance_row runID expanded ej j → storable (ej_Name ej) = true → steps_of (ej_Job ej) = k ++ step :: k' →
    step_view <$> ss = step_rows (job_ID j) k → Forall (λ name, storable name = true) (step_names k) →
    stopped_at ej (Step_GetDisplayName (Z.of_nat (length k)) step) [j] ss.

Lemma CreateJob_run ej s : plan_ok s → is_Some (db_runs (pd_ci s) !! runID) →
  match on_ci (CreateJob (uuid (pd_tick s)) (clock (pd_tick s)) runID (ej_Name ej)
    (or_nil (names_needed expanded (j_Needs (ej_Job ej)))) (matrix_json (ej_MatrixValues ej)) (j_RunsOn (ej_Job ej)))
    (set_tick (S (pd_tick s)) s) with
  | (s1, Ok j) => storable (ej_Name ej) = true ∧ grown s s1 [j] [] ∧ instance_row runID expanded ej j ∧
      db_jobs (pd_ci s1) !! job_ID j = Some j ∧ pd_steps s1 = pd_steps s ∧ db_jobs (pd_ci s) !! job_ID j = None
  | (s1, Err e) => e = ErrDB (ErrText (ej_Name ej)) ∧ storable (ej_Name ej) = false ∧ grown s s1 [] []
  | (_, Panic) => False
  end.
Proof.
  intros Hk [r Hr]. destruct (ok_fresh s Hk (pd_tick s) ltac:(lia)) as (F1 & _).
  unfold on_ci, CreateJob. destruct (storable (ej_Name ej)); cbn [negb]; st_simpl.
  2: { split; [done|]. split; [done|]. change (set_ci _ _) with (set_tick (S (pd_tick s)) s). apply grown_refl. lia. }
  cbn [pd_ci set_tick]. rewrite F1, Hr.
  rewrite !bool_decide_eq_false_2 by (done || by intros []). unfold GetJobByID. cbn [db_jobs CiStore.set_jobs].
  rewrite lookup_insert_eq. cbn [map_err]. split; [done|]. split; [|split; [by eexists _, _|]].
  2: { cbn. by rewrite lookup_insert_eq. }
  split; cbn; [done..|lia| |apply NoDup_singleton| |by intros ? ?%elem_of_nil].
  - apply Forall_singleton. exists (pd_tick s). cbn. split; [done|lia].
  - intros x ->%list_elem_of_singleton. cbn. by rewrite Hr.
Qed.

Lemma create_instance_run ej s : plan_ok s → is_Some (db_runs (pd_ci s) !! runID) →
  match create_instance runID keyToNames () ej s with
  | (s', Ok _) => ∃ j ss, grown s s' [j] ss ∧ names_storable ej ∧
      instance_row runID expanded ej j ∧ step_view <$> ss = step_rows (job_ID j) (steps_of (ej_Job ej))
  | (s', Err e) => ∃ name js ss, e = ErrDB (ErrText name) ∧ storable name = false ∧
      grown s s' js ss ∧ stopped_at ej name js ss
  | (_, Panic) => False
  end.
Proof.
  intros Hk Hr. unfold create_instance. rewrite needs_names. unfold mbind, stM_bind, draw.
  pose proof (CreateJob_run ej s Hk Hr) as Hc. destruct (on_ci _ _) as [s1 [j|e|]]; [| |done].
  2: { destruct Hc as (-> & Hst & Hg). eexists _, [], []. split; [done|]. split; [done|]. split; [done|constructor]. }
  destruct Hc as (Hst & Hg1 & Hj & Hj1 & Hs1 & Hn).
  pose proof (create_steps (job_ID j) (steps_of (ej_Job ej)) s1 ltac:(by eapply grown_ok) ltac:(by rewrite Hj1)) as Hc.
  change (loopM _ () (imap _ _) s1) with (step_loop (job_ID j) (steps_of (ej_Job ej)) s1).
  destruct (step_loop _ _ s1) as [s2 [[]|e|]]; [| |apply Hc]; try (
    assert (∀ id st, pd_steps s1 !! id = Some st → sp_JobID st ≠ job_ID j) as Hnew;
      [intros id st Hsp E; rewrite Hs1 in Hsp; apply (ok_step_job s Hk) in Hsp as [x Hx]; congruence|]).
  - destruct (Hc Hnew) as (ss & Hg2 & Hv & Hss). exists j, ss.
    split; [by apply (grown_trans s s1 s2 [j] [] [] ss)|]. by repeat split.
  - destruct (Hc Hnew) as (k & step & k' & ss & El & Hg2 & Hv & Hss & -> & Hno). eexists _, [j], ss.
    split; [done|]. split; [done|]. split; [by apply (grown_trans s s1 s2 [j] [] [] ss)|]. by eapply stopped_step.
  - intros id st Hsp E. rewrite Hs1 in Hsp. apply (ok_step_job s Hk) in Hsp as [x Hx]. congruence.
Qed.

(** The rows of the steps of some instances. *)
Definition all_step_rows (ejs : list ExpandedJob) (js : list Job) : list (string * Z * string * string) :=
  concat (zip_with (λ ej j, step_rows (job_ID j) (steps_of (ej_Job ej))) ejs js).

(** What [js] and [ss] hold for each of [ejs]: its row and those of its steps. *)
Definition rows_of (ejs : list ExpandedJob) (js : list Job) (ss : list StepRow) : Prop :=
  Forall2 (instance_row runID expanded) ejs js ∧ Forall names_storable ejs ∧ step_view <$> ss = all_step_rows ejs js.

Lemma create_instances ejs s : plan_ok s → is_Some (db_runs (pd_ci s) !! runID) →
  match loopM (create_instance runID keyToNames) () ejs s with
  | (s', Ok _) => ∃ js ss, grown s s' js ss ∧ rows_of ejs js ss
  | (s', Err e) => ∃ k ej k' js ss name js' ss', ejs = k ++ ej :: k' ∧ e = ErrDB (ErrText name) ∧
      storable name = false ∧ grown s s' (js ++ js') (ss ++ ss') ∧ rows_of k js ss ∧ stopped_at ej name js' ss'
  | (_, Panic) => False
  end.
Proof.
  intros Hk Hr.
  assert (match loopM (create_instance runID keyToNames) () ejs s with
    | (s', Ok _) => ∃ js ss, grown s s' js ss ∧ rows_of ejs js ss
    | (s', Err e) => ∃ k ej k', ejs = k ++ ej :: k' ∧ ∃ js ss name js' ss', e = ErrDB (ErrText name) ∧
        storable name = false ∧ grown s s' (js ++ js') (ss ++ ss') ∧ rows_of k js ss ∧ stopped_at ej name js' ss'
    | (_, Panic) => False
    end) as Hc.
  { apply (loopM_cases (create_instance runID keyToNames) (λ k _ s', ∃ js ss, grown s s' js ss ∧ rows_of k js ss)).
    { exists [], []. split; [|by repeat split]. replace s with (set_tick (pd_tick s) s) at 2 by (by destruct s).
      by apply grown_refl. }
    intros k ej k' [] s1 _ (js & ss & Hg & Hf & Hst & Hv).
    pose proof (create_instance_run ej s1 ltac:(by eapply grown_ok) ltac:(by rewrite (gr_ci _ _ _ _ Hg))) as Hc.
    destruct (create_instance _ _ _ ej s1) as [s2 [[]|e|]]; [| |done].
    - destruct Hc as (j & ss2 & Hg2 & Hst2 & Hj & Hv2). exists (js ++ [j]), (ss ++ ss2).
      split; [by eapply grown_trans|]. split; [apply Forall2_app; [done|by constructor]|].
      split; [apply Forall_app; split; [done|by constructor]|]. unfold all_step_rows.
      rewrite fmap_app, Hv, Hv2. rewrite zip_with_app by (by eapply Forall2_length). rewrite concat_app. cbn.
      by rewrite app_nil_r.
    - destruct Hc as (name & js' & ss' & -> & Hno & Hg2 & Hstop). exists js, ss, name, js', ss'.
      split; [done|]. split; [done|]. split; [by eapply grown_trans|]. by repeat split. }
  destruct (loopM _ () ejs s) as [s' [[]|e|]]; [done| |done].
  destruct Hc as (k & ej & k' & E & js & ss & name & js' & ss' & Hc). by exists k, ej, k', js, ss, name, js', ss'.
Qed.
End rows.

Lemma loopM_bind_list {A B E} (f : () → A → stM PlanDB E ()) (g : B → list A) l s :
  loopM (λ _ k, loopM f () (g k)) () l s = loopM f () (l ≫= g) s.
Proof.
  revert s. induction l as [|k l IH]; intros s; [done|]. cbn [loopM]. rewrite bind_cons, loopM_app.
  unfold mbind, stM_bind. destruct (loopM f () (g k) s) as [s1 [[]|e|]]; [apply IH|done..].
Qed.

(** ** Lemmas: names and orders *)

Lemma add_names_default expanded m key k :
  default [] (add_names expanded m key !! k) =
  default [] (m !! k) ++ (if decide (k = key) then ej_Name <$> default [] (expanded !! key) else []).
Proof.
  unfold add_names. generalize (default [] (expanded !! key)). intros ejs. revert m.
  induction ejs as [|ej ejs IH]; intros m; cbn [foldl].
  - destruct (decide _); by rewrite app_nil_r.
  - rewrite IH. destruct (decide (k = key)) as [->|Hne].
    + rewrite lookup_insert_eq. cbn [default from_option id fmap list_fmap]. by rewrite <-app_assoc.
    + by rewrite lookup_insert_ne.
Qed.

Lemma all_names_default expanded order m k : NoDup order →
  default [] (foldl (add_names expanded) m order !! k) =
  default [] (m !! k) ++ (if decide (k ∈ order) then ej_Name <$> default [] (expanded !! k) else []).
Proof.
  intros Hn. revert m. induction Hn as [|key order Hkey Hn IH]; intros m; cbn [foldl].
  - rewrite decide_False by apply not_elem_of_nil. by rewrite app_nil_r.
  - rewrite IH, add_names_default, <-app_assoc. f_equal.
    destruct (decide (k = key)) as [->|Hne].
    + rewrite decide_False by done. rewrite app_nil_r. by rewrite decide_True by by left.
    + cbn [app]. apply decide_ext. rewrite elem_of_cons. tauto.
Qed.

Lemma expand_needs_names expanded order needs : enumerates (dom expanded) order →
  expand_needs (foldl (add_names expanded) ∅ order) needs = names_needed expanded needs.
Proof.
  intros [Hn Hd]. set (k2n := foldl _ _ _). unfold expand_needs, names_needed.
  assert (∀ l, foldl (λ l need, match k2n !! need with Some names => l ++ names | None => l end) l needs =
    l ++ (needs ≫= λ need, ej_Name <$> default [] (expanded !! need))) as Hf; [|apply Hf].
  induction needs as [|need needs IH]; intros l; cbn [foldl]; [by rewrite app_nil_r|].
  rewrite IH, bind_cons, app_assoc. f_equal.
  assert (default [] (k2n !! need) = ej_Name <$> default [] (expanded !! need)) as <-.
  { unfold k2n. rewrite all_names_default by done. rewrite lookup_empty. cbn [default from_option id app].
    destruct (decide (need ∈ order)) as [|Hni]; [done|]. rewrite Hd, not_elem_of_dom in Hni. by rewrite Hni. }
  destruct (k2n !! need); [done|]. by rewrite app_nil_r.
Qed.

Lemma visit_keys {A} n (m : gmap string A) : enumerates (dom m) (visit n m).*1.
Proof.
  split.
  - rewrite visit_perm. apply NoDup_fst_map_to_list.
  - intros x. rewrite visit_perm, list_elem_of_fmap, elem_of_dom. split.
    + intros ([k v] & -> & Hv%elem_of_map_to_list). by exists v.
    + intros [v Hv]. exists (x, v). split; [done|]. by apply elem_of_map_to_list.
Qed.

Lemma visit_zeros n : lists_zeros (λ inDegree, (filter (λ kv, kv.2 = 0) (visit n inDegree)).*1).
Proof.
  intros m. split.
  - rewrite visit_perm. apply demo_zeros_lists.
  - intros x. rewrite visit_perm. apply demo_zeros_lists.
Qed.

Definition needs_graph (w : Workflow) : jobs := j_Needs <$> wf_Jobs w.
Definition sound_needs (w : Workflow) : Prop :=
  defined (needs_graph w) ∧ ∀ x, ¬ tc (edge (needs_graph w)) x x.

Lemma job_order_run w s :
  match job_order w s with
  | (s', Ok order) => s' = set_tick (S (S (pd_tick s))) s ∧ sound_needs w ∧
      enumerates (dom (wf_Jobs w)) order ∧ ordered (needs_graph w) order
  | (s', Err e) => s' = set_tick (S (S (pd_tick s))) s ∧ e = ErrOrder ErrCircularOrder ∧ ¬ sound_needs w
  | (_, Panic) => False
  end.
Proof.
  unfold job_order, draw. st_simpl. cbn [pd_tick set_tick].
  pose proof (GetJobOrder_total (visit (pd_tick s) (wf_Jobs w)).*1
    (λ inDegree, (filter (λ kv, kv.2 = 0) (visit (S (pd_tick s)) inDegree)).*1) (needs_graph w)) as Ho.
  unfold needs_graph in Ho at 1. rewrite dom_fmap_L in Ho. specialize (Ho (visit_keys _ _) (visit_zeros _)).
  unfold needs_graph in *. destruct (GetJobOrder _ _ _) as [order|e|]; cbn [map_err]; [| |done].
  - destruct Ho as [He Hord]. split; [done|]. unfold sound_needs, needs_graph.
    rewrite dom_fmap_L in He. split; [|done].
    apply (ordered_NoDup_acyclic _ order); [|done]. rewrite dom_fmap_L. apply He.
  - destruct Ho as [-> Hno]. done.
Qed.

(** ** Lemmas: calls of other workflows *)

(** The keys of inlined jobs contain a slash. *)
Definition no_slash (key : string) : Prop := Byte.x2f ∉ bytes_of key.

Lemma slashed a b : ¬ no_slash (a +:+ "/" +:+ b).
Proof.
  unfold no_slash. rewrite !bytes_of_app. intros Hn. apply Hn. rewrite !elem_of_app. right. left. by left.
Qed.

Lemma set_tick_twice n m s : set_tick n (set_tick m s) = set_tick n s.
Proof. done. Qed.
Lemma set_tick_id s : set_tick (pd_tick s) s = s.
Proof. by destruct s. Qed.

Lemma inline_run jobKey caller jobs0 called s :
  ∃ n jobs1, loopM (inline_job jobKey caller) jobs0 called s = (set_tick n s, Ok jobs1) ∧ (pd_tick s ≤ n)%nat ∧
    ∀ key, no_slash key → jobs1 !! key = jobs0 !! key.
Proof.
  destruct (loopM_inv (inline_job jobKey caller) (λ _ js s', ∃ n, s' = set_tick n s ∧ (pd_tick s ≤ n)%nat ∧
    ∀ key, no_slash key → js !! key = jobs0 !! key) called jobs0 s) as (js & s' & E & n & -> & Hn & Hjs).
  - exists (pd_tick s). by rewrite set_tick_id.
  - intros k [ck cj] k' js s1 _ (n & -> & Hn & Hjs). unfold inline_job, draw. st_simpl. eexists _, _.
    split; [reflexivity|]. exists (S n). split; [done|]. split; [lia|]. intros key Hkey. cbn [fst].
    rewrite lookup_insert_ne; [by apply Hjs|]. intros <-. by eapply slashed.
  - by exists n, js.
Qed.

(** Whether a job is a call that can be resolved. *)
Definition resolves (s : PlanDB) (repoID : string) (j : Workflow.Job) : Prop :=
  IsReusableWorkflowCall j = true ∧ is_Some (called_workflow s repoID (j_Uses j)).
#[local] Instance resolves_dec s repoID j : Decision (resolves s repoID j).
Proof. unfold resolves. apply _. Defined.

Lemma resolve_run repoID w s :
  ∃ n w1, resolveReusableWorkflows repoID w s = (set_tick n s, Ok w1) ∧ (pd_tick s ≤ n)%nat ∧
    ∀ key, no_slash key → wf_Jobs w1 !! key =
      match wf_Jobs w !! key with Some j => if decide (resolves s repoID j) then None else Some j | None => None end.
Proof.
  unfold resolveReusableWorkflows. 
  set (refs := filter (λ kj : string * Workflow.Job, IsReusableWorkflowCall kj.2 = true) (visit (pd_tick s) (wf_Jobs w))).
  assert (∀ kj, kj ∈ refs → wf_Jobs w !! kj.1 = Some kj.2 ∧ IsReusableWorkflowCall kj.2 = true) as Hrefs.
  { intros [k j] [Hc Hin]%list_elem_of_filter. split; [|done]. rewrite visit_perm in Hin. by apply elem_of_map_to_list in Hin. }
  destruct (loopM_inv (resolve_ref repoID) (λ k js s', ∃ n, s' = set_tick n s ∧ (pd_tick s ≤ n)%nat ∧
    ∀ key, no_slash key → js !! key =
      match wf_Jobs w !! key with
      | Some j => if decide (key ∈ k.*1 ∧ resolves s repoID j) then None else Some j
      | None => None end) refs (wf_Jobs w) (set_tick (S (pd_tick s)) s)) as (js & s' & E & n & -> & Hn & Hjs).
  - exists (S (pd_tick s)). split; [done|]. split; [lia|]. intros key _. destruct (wf_Jobs w !! key); [|done].
    rewrite decide_False; [done|]. by intros [?%elem_of_nil _].
  - intros k [rk rj] k' js s1 El (n & -> & Hn & Hjs). unfold resolve_ref. st_simpl.
    destruct (Hrefs (rk, rj)) as [Hrk Hcall]; [rewrite El; apply elem_of_app; right; by left|]. cbn [fst snd] in *.
    change (called_workflow (set_tick n s) repoID (j_Uses rj)) with (called_workflow s repoID (j_Uses rj)).
    destruct (called_workflow s repoID (j_Uses rj)) as [called|] eqn:Ec.
    + unfold draw. cbn [pd_tick set_tick].
      destruct (inline_run rk rj (delete rk js) (visit n (wf_Jobs called)) (set_tick (S n) s))
        as (n2 & js2 & E2 & Hn2 & Hjs2). rewrite set_tick_twice, E2. eexists _, _. split; [reflexivity|].
      exists n2. split; [done|]. cbn in Hn2. split; [lia|]. intros key Hkey. rewrite Hjs2 by done.
      rewrite fmap_app. change ([(rk, rj)].*1) with [rk]. destruct (decide (key = rk)) as [->|Hne].
      * rewrite lookup_delete_eq, Hrk. rewrite decide_True; [done|]. split; [apply elem_of_app; right; by left|].
        split; [done|]. by rewrite Ec.
      * rewrite lookup_delete_ne, Hjs by done. destruct (wf_Jobs w !! key); [|done].
        apply decide_ext. rewrite elem_of_app, list_elem_of_singleton. tauto.
    + eexists _, _. split; [reflexivity|]. exists n. split; [done|]. split; [done|]. intros key Hkey.
      rewrite Hjs, fmap_app by done. change ([(rk, rj)].*1) with [rk]. destruct (wf_Jobs w !! key) as [j|] eqn:Ej; [|done]. apply decide_ext.
      rewrite elem_of_app, list_elem_of_singleton. split; [tauto|]. intros [[?| ->] Hr]; [done|]. exfalso.
      rewrite Hrk in Ej. injection Ej as <-. destruct Hr as [_ [? Hr]]. by rewrite Ec in Hr.
  - exists n, (set_jobs_of js w). split; [|split; [cbn in Hn; lia|]].
    + unfold draw. unfold mbind, stM_bind. fold refs. by rewrite E.
    + intros key Hkey. cbn. rewrite Hjs by done. destruct (wf_Jobs w !! key) as [j|] eqn:Ej; [|done].
      apply decide_ext. split; [tauto|]. intros Hr. split; [|done]. apply list_elem_of_fmap. exists (key, j).
      split; [done|]. apply list_elem_of_filter. split; [apply Hr|]. rewrite visit_perm. by apply elem_of_map_to_list.
Qed.

Lemma resolve_nothing repoID w s :
  (∀ key j, wf_Jobs w !! key = Some j → IsReusableWorkflowCall j = false) →
  resolveReusableWorkflows repoID w s = (set_tick (S (pd_tick s)) s, Ok w).
Proof.
  intros Hc. unfold resolveReusableWorkflows, draw. st_simpl.
  assert (filter (λ kj : string * Workflow.Job, IsReusableWorkflowCall kj.2 = true) (visit (pd_tick s) (wf_Jobs w)) = []) as ->.
  { apply elem_of_nil_inv. intros [k j] [Hr Hin]%list_elem_of_filter. rewrite visit_perm in Hin.
    apply elem_of_map_to_list, Hc in Hin. cbn in Hr. congruence. }
  cbn. by destruct w.
Qed.

(** ** Lemmas: the jobs of a run *)

Definition instances (expanded : gmap string (list ExpandedJob)) (order : list string) : list ExpandedJob :=
  order ≫= λ key, default [] (expanded !! key).

Lemma expanded_lookup vis w key :
  ExpandJobsWithMatrix vis w !! key =
  (λ job, expand_job vis key job <$> ExpandMatrix (j_Strategy job)) <$> wf_Jobs w !! key.
Proof. unfold ExpandJobsWithMatrix. rewrite map_lookup_imap. by destruct (wf_Jobs w !! key). Qed.
Lemma expanded_dom vis w : dom (ExpandJobsWithMatrix vis w) = dom (wf_Jobs w).
Proof. apply set_eq. intros k. rewrite !elem_of_dom, expanded_lookup. by rewrite fmap_is_Some. Qed.

Lemma instance_needs vis w key ej :
  ej ∈ default [] (ExpandJobsWithMatrix vis w !! key) →
  ∃ job, wf_Jobs w !! key = Some job ∧ j_Needs (ej_Job ej) = j_Needs job.
Proof.
  rewrite expanded_lookup. destruct (wf_Jobs w !! key) as [job|]; [|by intros ?%elem_of_nil].
  cbn. intros (inst & -> & _)%list_elem_of_fmap. exists job. split; [done|].
  unfold expand_job. cbn. by destruct (decide _).
Qed.

(** Creating the jobs of a run, given the workflow with its calls resolved. *)
Lemma createJobs_ok wf run w w1 s s1 :
  plan_ok s → FromJSON (w_ParsedJSON wf) = Some w → is_Some (db_runs (pd_ci s) !! run_ID run) →
  resolveReusableWorkflows (w_RepoID wf) w s = (s1, Ok w1) →
  let expanded := ExpandJobsWithMatrix (visit_values (pd_tick s1)) w1 in
  match createJobsFromWorkflow wf run s with
  | (s', Ok _) => sound_needs w1 ∧ ∃ order js ss,
      enumerates (dom (wf_Jobs w1)) order ∧ ordered (needs_graph w1) order ∧ grown s s' js ss ∧
      rows_of (run_ID run) expanded (instances expanded order) js ss
  | (s', Err (ErrOrder e)) => e = ErrCircularOrder ∧ ¬ sound_needs w1 ∧ s' = set_tick (pd_tick s') s
  | (s', Err e) => sound_needs w1 ∧ ∃ order done_ ej rest name js ss js' ss',
      enumerates (dom (wf_Jobs w1)) order ∧ ordered (needs_graph w1) order ∧
      instances expanded order = done_ ++ ej :: rest ∧ e = ErrDB (ErrText name) ∧ storable name = false ∧
      grown s s' (js ++ js') (ss ++ ss') ∧ rows_of (run_ID run) expanded done_ js ss ∧
      stopped_at (run_ID run) expanded ej name js' ss'
  | (_, Panic) => False
  end.
Proof.
  intros Hk Hw Hr Hres. cbv zeta. destruct (resolve_run (w_RepoID wf) w s) as (n & w' & E & Hn & _).
  rewrite Hres in E. injection E as -> ->. cbn [pd_tick set_tick].
  unfold createJobsFromWorkflow. rewrite Hw. unfold or_error, lift. unfold mbind at 1, stM_bind at 1.
  rewrite (stM_bind_run _ _ _ _ _ Hres). unfold draw at 1. unfold mbind at 1, stM_bind at 1. cbn [pd_tick set_tick].
  pose proof (job_order_run w' (set_tick (S n) s)) as Ho.
  unfold mbind at 1, stM_bind at 1.
  destruct (job_order w' _) as [s2 [order|e|]]; [| |done].
  2: { destruct Ho as (-> & -> & ?). done. }
  destruct Ho as (-> & Hsound & He & Hord). rewrite loopM_bind_list.
  set (expanded := ExpandJobsWithMatrix (visit_values n) w').
  pose proof (create_instances (run_ID run) expanded (foldl (add_names expanded) ∅ order)
    (λ needs, expand_needs_names expanded order needs ltac:(unfold expanded; by rewrite expanded_dom))
    (instances expanded order) (set_tick (S (S (pd_tick (set_tick (S n) s)))) s)) as Hc.
  cbn [pd_tick set_tick] in *. change (set_tick (S (S (S n))) (set_tick (S n) s)) with (set_tick (S (S (S n))) s) in *.
  assert (grown s (set_tick (S (S (S n))) s) [] []) as Hg0 by (apply grown_refl; lia).
  specialize (Hc ltac:(by eapply grown_ok) Hr). unfold instances in Hc at 1.
  destruct (loopM _ () _ _) as [s' [[]|e|]]; [| |done].
  - destruct Hc as (js & ss & Hg & Hrows). split; [done|]. exists order, js, ss.
    split; [done|]. split; [done|]. split; [|done]. by eapply (grown_trans s _ s' [] [] js ss).
  - destruct Hc as (k & ej & k' & js & ss & name & js' & ss' & E' & -> & Hno & Hg & Hrows & Hstop). split; [done|].
    exists order, k, ej, k', name, js, ss, js', ss'. do 5 (split; [done|]). split; [|done].
    by eapply (grown_trans s _ s' [] [] (js ++ js') (ss ++ ss')).
Qed.

Lemma stopped_unstorable runID expanded ej name js ss :
  stopped_at runID expanded ej name js ss → storable name = false → ¬ names_storable ej.
Proof.
  intros Hstop Hno [Hn Hs]. destruct Hstop as [|j k step k' ss _ _ El _ _]; [congruence|].
  rewrite El in Hs. unfold step_names in Hs. rewrite imap_app in Hs. cbn in Hs. rewrite Nat.add_0_r in Hs.
  apply Forall_app in Hs as [_ [Hs _]%Forall_cons]. congruence.
Qed.

Lemma instances_perm vis w order : enumerates (dom (wf_Jobs w)) order →
  instances (ExpandJobsWithMatrix vis w) order ≡ₚ instances (ExpandJobsWithMatrix vis w) (elements (dom (wf_Jobs w))).
Proof.
  intros He. unfold instances. apply bind_Permutation, NoDup_Permutation; [apply He|apply NoDup_elements|].
  intros x. rewrite elem_of_elements. apply He.
Qed.

(** With sound needs and names that can be stored the jobs are created. *)
Lemma createJobs_run wf run w w1 s s1 :
  plan_ok s → FromJSON (w_ParsedJSON wf) = Some w → is_Some (db_runs (pd_ci s) !! run_ID run) →
  resolveReusableWorkflows (w_RepoID wf) w s = (s1, Ok w1) → sound_needs w1 →
  let expanded := ExpandJobsWithMatrix (visit_values (pd_tick s1)) w1 in
  Forall names_storable (instances expanded (elements (dom (wf_Jobs w1)))) →
  ∃ s' order js ss, createJobsFromWorkflow wf run s = (s', Ok ()) ∧
    enumerates (dom (wf_Jobs w1)) order ∧ ordered (needs_graph w1) order ∧ grown s s' js ss ∧
    Forall2 (instance_row (run_ID run) expanded) (instances expanded order) js.
Proof.
  intros Hk Hw Hr Hres Hs expanded Hall.
  pose proof (createJobs_ok wf run w w1 s s1 Hk Hw Hr Hres) as Hc. cbv zeta in Hc. fold expanded in Hc.
  assert (∀ order k ej k' name js ss, enumerates (dom (wf_Jobs w1)) order → instances expanded order = k ++ ej :: k' →
    storable name = false → stopped_at (run_ID run) expanded ej name js ss → False) as Hno.
  { intros order k ej k' name js ss He Ei Hn Hstop. eapply stopped_unstorable; [exact Hstop|exact Hn|].
    pose proof (instances_perm (visit_values (pd_tick s1)) w1 order He) as Hp. fold expanded in Hp.
    rewrite <-Hp, Forall_forall in Hall. apply Hall. rewrite Ei.
    apply elem_of_app. right. by left. }
  destruct (createJobsFromWorkflow wf run s) as [s' [[]|e|]]; [| |done].
  - destruct Hc as (_ & order & js & ss & He & Hord & Hg & Hf & _). by exists s', order, js, ss.
  - destruct e as [e| | |e|e]; [..|by destruct Hc as (_ & ? & _)];
      destruct Hc as (_ & order & k & ej & k' & name & js & ss & js' & ss' & He & _ & Ei & _ & Hn & _ & _ & Hstop);
      by destruct (Hno order k ej k' name js' ss').
Qed.

(** ** Lemmas: the needs of a run that was just created *)

Lemma ordered_from_block G before l :
  (∀ x y, x ∈ l → edge G x y → y ∈ before) → ordered_from G before l.
Proof.
  revert before. induction l as [|x l IH]; intros before Hl; cbn [ordered_from]; [done|]. split.
  - intros y. apply Hl. by left.
  - apply IH. intros z y Hz Hy. apply elem_of_app. left. apply (Hl z); [by right|done].
Qed.

Lemma ordered_blocks G wf (names : string → list string) order :
  (∀ k x y, k ∈ order → x ∈ names k → edge G x y → ∃ k', edge wf k k' ∧ y ∈ names k') →
  ordered wf order → ordered G (order ≫= names).
Proof.
  induction order as [|k order IH] using rev_ind; intros Hn Ho; [done|].
  apply ordered_snoc in Ho as [Ho Hk]. rewrite bind_app. unfold ordered. rewrite ordered_from_app. split.
  - apply IH; [|done]. intros k' x y Hk'. apply Hn. apply elem_of_app. by left.
  - cbn [app mbind list_bind]. rewrite app_nil_r. apply ordered_from_block. intros x y Hx Hy.
    destruct (Hn k x y) as (k' & He & Hy'); [apply elem_of_app; right; by left|done..|].
    apply list_elem_of_bind. exists k'. split; [done|]. by apply Hk.
Qed.

Lemma row_facts runID expanded ej j :
  instance_row runID expanded ej j → Forall utf8 (names_needed expanded (j_Needs (ej_Job ej))) →
  job_Name j = ej_Name ej ∧ job_WorkflowRunID j = runID ∧ job_Status j = JobStatusQueued ∧
  Needs j = names_needed expanded (j_Needs (ej_Job ej)) ∧
  (∃ needs, job_Needs j = Some (marshal_strings needs) ∧ Forall utf8 (default [] needs)) ∧
  job_RunsOn j = marshal_strings (j_RunsOn (ej_Job ej)).
Proof.
  intros (id & now & ->) Hu. split; [done|]. split; [done|]. split; [done|]. split; [|split; [|done]].
  - unfold Needs. cbn [job_Needs]. destruct (names_needed _ _) as [|x l]; [by vm_compute|].
    cbn [or_nil]. by apply unmarshal_marshal.
  - eexists. split; [reflexivity|]. by destruct (names_needed _ _).
Qed.

Lemma Forall2_elem {A B} (P : A → B → Prop) l k b : Forall2 P l k → b ∈ k → ∃ a, a ∈ l ∧ P a b.
Proof.
  intros Hf [i Hi]%list_elem_of_lookup. destruct (Forall2_lookup_r _ _ _ _ _ Hf Hi) as (a & Ha & Hp).
  exists a. split; [by eapply list_elem_of_lookup_2|done].
Qed.
Lemma Forall2_elem_l {A B} (P : A → B → Prop) l k a : Forall2 P l k → a ∈ l → ∃ b, b ∈ k ∧ P a b.
Proof.
  intros Hf [i Hi]%list_elem_of_lookup. destruct (Forall2_lookup_l _ _ _ _ _ Hf Hi) as (b & Hb & Hp).
  exists b. split; [by eapply list_elem_of_lookup_2|done].
Qed.

Lemma new_run_jobs s s' js ss run :
  plan_ok s → grown s s' js ss → no_jobs (pd_ci s) run → (∀ j, j ∈ js → job_WorkflowRunID j = run) →
  ∀ j, j ∈ jobs_of (pd_ci s') ∧ job_WorkflowRunID j = run ↔ j ∈ js.
Proof.
  intros Hk Hg Hn Hr j. rewrite elem_of_jobs by (by eapply ok_keys, grown_ok).
  rewrite (grown_job s s' js ss _ j Hk Hg). split.
  - intros [[[Hj _]|Hj] Hrj]; [done|]. exfalso. apply (Hn j); [|done]. apply elem_of_jobs; [apply (ok_keys s Hk)|done].
  - intros Hj. split; [by left|by apply Hr].
Qed.

(** The needs of the new jobs, by name, are defined and acyclic. *)
Lemma new_run_graph w order vis runID s s' js ss :
  plan_ok s → grown s s' js ss → no_jobs (pd_ci s) runID →
  let expanded := ExpandJobsWithMatrix vis w in
  enumerates (dom (wf_Jobs w)) order → ordered (needs_graph w) order → sound_needs w →
  Forall2 (instance_row runID expanded) (instances expanded order) js →
  NoDup (ej_Name <$> instances expanded order) →
  (∀ ej, ej ∈ instances expanded order → utf8 (ej_Name ej)) →
  let G := run_graph (pd_ci s') runID in
  NoDup (job_Name <$> ListWorkflowRunJobs (pd_ci s') runID) ∧ defined G ∧ ∀ x, ¬ tc (edge G) x x.
Proof.
  intros Hk Hg Hno expanded He Hord Hsound Hf Hnames Hutf G.
  assert (∀ needs, Forall utf8 (names_needed expanded needs)) as Hu.
  { intros needs. apply Forall_forall. intros x (need & Hx & _)%list_elem_of_bind.
    apply list_elem_of_fmap in Hx as (ej & -> & Hej). apply Hutf, list_elem_of_bind. exists need. split; [done|].
    apply He, elem_of_dom. by destruct (instance_needs _ _ _ _ Hej) as (job & -> & _). }
  assert (∀ j, j ∈ js → ∃ ej, ej ∈ instances expanded order ∧ job_Name j = ej_Name ej ∧ job_WorkflowRunID j = runID ∧
    Needs j = names_needed expanded (j_Needs (ej_Job ej))) as Hrow.
  { intros j Hj. destruct (Forall2_elem _ _ _ _ Hf Hj) as (ej & Hej & Hrow). exists ej.
    destruct (row_facts _ _ _ _ Hrow (Hu _)) as (? & ? & _ & ? & _). done. }
  assert (job_Name <$> js = ej_Name <$> instances expanded order) as Ejs.
  { clear -Hf. induction Hf as [|ej j l k (id & now & ->) _ IH]; [done|]. cbn. by rewrite IH. }
  assert (ListWorkflowRunJobs (pd_ci s') runID ≡ₚ js) as Hperm.
  { apply NoDup_Permutation.
    - eapply NoDup_fmap_1, NoDup_run_ids. by eapply ok_keys, grown_ok.
    - eapply (NoDup_fmap_1 job_Name). by rewrite Ejs.
    - intros j. rewrite elem_of_run_jobs. apply (new_run_jobs s s' js ss runID); [done..|].
      intros k Hkj. by destruct (Hrow k Hkj) as (? & _ & _ & ? & _). }
  assert (NoDup (job_Name <$> ListWorkflowRunJobs (pd_ci s') runID)) as Hnd by (by rewrite Hperm, Ejs).
  split; [done|].
  assert (∀ ej, ej ∈ instances expanded order → G !! ej_Name ej = Some (names_needed expanded (j_Needs (ej_Job ej)))) as HG.
  { intros ej Hej. destruct (Forall2_elem_l _ _ _ _ Hf Hej) as (j & Hj & Hr).
    destruct (row_facts _ _ _ _ Hr (Hu _)) as (<- & Hrun & _ & <- & _).
    rewrite <-Hperm in Hj. apply elem_of_run_jobs in Hj as [Hj _]. by apply run_graph_lookup. }
  apply (ordered_NoDup_acyclic G (order ≫= λ key, ej_Name <$> default [] (expanded !! key))).
  - intros x. rewrite elem_of_dom. split.
    + intros (key & (ej & -> & Hej)%list_elem_of_fmap & Hkey)%list_elem_of_bind.
      rewrite HG; [done|]. apply list_elem_of_bind. by exists key.
    + intros [needs Hx]. apply elem_of_list_to_map_2, list_elem_of_fmap in Hx as (j & [= -> ->] & Hj).
      rewrite Hperm in Hj. destruct (Hrow j Hj) as (ej & (key & Hej & Hkey)%list_elem_of_bind & -> & _).
      apply list_elem_of_bind. exists key. split; [by apply list_elem_of_fmap_2|done].
  - apply (ordered_blocks G (needs_graph w)); [|done]. intros key x y Hkey (ej & -> & Hej)%list_elem_of_fmap Hy.
    unfold edge, needs_of in Hy. rewrite HG in Hy by (apply list_elem_of_bind; by exists key).
    cbn in Hy. apply list_elem_of_bind in Hy as (key' & Hy & Hkey'). exists key'. split; [|done].
    destruct (instance_needs _ _ _ _ Hej) as (job & Hjob & E). rewrite E in Hkey'.
    unfold edge, needs_of, needs_graph. by rewrite lookup_fmap, Hjob.
Qed.

(** A run of a workflow is created: up to the jobs. *)
Lemma trigger_run_new s runN lockN now wfID repo event ref sha payload by_ concurrency :
  plan_ok s → (pd_tick s ≤ runN)%nat → (pd_tick s ≤ lockN)%nat →
  wfID ∈ db_workflows (pd_ci s) → is_Some (db_repos (pd_ci s) !! repo) →
  (∀ g b, concurrency = Some (g, b) → db_locks (pd_ci s) !! g = None) →
  ∃ d' run, trigger_run (uuid runN) (uuid lockN) now wfID repo event ref sha payload by_ concurrency (pd_ci s) = (d', Some run) ∧
    run_ID run = uuid runN ∧ run_Status run = RunStatusQueued ∧
    db_runs d' = <[uuid runN := run]> (db_runs (pd_ci s)) ∧ db_jobs d' = db_jobs (pd_ci s) ∧
    (∀ g l, db_locks d' !! g = Some l → lock_ID l = uuid lockN ∨ db_locks (pd_ci s) !! g = Some l) ∧
    (∀ g b, concurrency = Some (g, b) → g ≠ "" → ∃ l, db_locks d' !! g = Some l ∧ lock_WorkflowRunID l = uuid runN).
Proof.
  intros Hk Hrn Hln Hwf [sl Hrepo] Hlock.
  destruct (ok_fresh s Hk runN Hrn) as (_ & _ & Frun & _). destruct (ok_fresh s Hk lockN Hln) as (_ & _ & _ & _ & Flock).
  set (run := mk_WorkflowRun (uuid runN) wfID repo (next_run_number (pd_ci s) wfID) event ref sha payload
    RunStatusQueued None None None now (if decide (by_ = "") then None else Some by_)).
  set (d1 := set_runs (<[uuid runN := run]> (db_runs (pd_ci s))) (pd_ci s)).
  assert (CreateWorkflowRun (uuid runN) now wfID repo event ref sha payload by_ (pd_ci s) = (d1, Ok run)) as Ecreate.
  { unfold CreateWorkflowRun. st_simpl. rewrite Frun, Hrepo. rewrite !bool_decide_eq_false_2; [|done|by intros ?|by intros []].
    unfold GetWorkflowRunByID. cbn [db_runs set_runs]. by rewrite lookup_insert_eq. }
  unfold trigger_run. destruct concurrency as [[g b]|]; cbv zeta.
  2: { rewrite Ecreate, decide_True by done. exists d1, run. do 5 (split; [done|]). split; [by right|done]. }
  specialize (Hlock g b eq_refl). unfold GetConcurrencyLock. rewrite Hlock, Ecreate. destruct (decide (g = "")) as [->|Hg].
  - exists d1, run. do 5 (split; [done|]). split; [by right|]. by intros g' b' [= <- <-].
  - set (l := mk_ConcurrencyLock (uuid lockN) g (uuid runN) None repo now).
    assert (insert_lock l d1 = (set_locks (<[g := l]> (db_locks (pd_ci s))) d1, Ok ())) as El.
    { unfold insert_lock. st_simpl. cbn [db_locks db_runs db_repos d1 set_runs l lock_GroupKey lock_ID lock_WorkflowRunID lock_RepoID].
      rewrite Hlock, Hrepo, lookup_insert_eq.
      rewrite (bool_decide_eq_false_2 (is_Some None)) by (by intros []).
      assert (existsb (λ kl, bool_decide (lock_ID kl.2 = uuid lockN)) (map_to_list (db_locks (pd_ci s))) = false) as ->.
      { apply not_true_iff_false. rewrite existsb_elem. intros ([k x] & Hx%elem_of_map_to_list & E%bool_decide_eq_true).
        by apply Flock in Hx. }
      by rewrite !bool_decide_eq_false_2. }
    unfold AcquireConcurrencyLock. cbn [run_ID run]. rewrite decide_True by done. fold l. rewrite El.
    eexists _, run. split; [done|]. do 4 (split; [done|]). split.
    + intros g' l'. cbn [fst db_locks set_locks]. destruct (decide (g = g')) as [->|Hne].
      * rewrite lookup_insert_eq. intros [= <-]. by left.
      * rewrite lookup_insert_ne by done. by right.
    + intros g' b' [= <- <-] _. exists l. cbn [fst db_locks set_locks]. by rewrite lookup_insert_eq.
Qed.

(** The state after that. *)
Lemma trigger_run_ok s d' run runN lockN n :
  plan_ok s → (pd_tick s ≤ runN < n)%nat → (pd_tick s ≤ lockN < n)%nat →
  run_ID run = uuid runN → db_runs d' = <[uuid runN := run]> (db_runs (pd_ci s)) → db_jobs d' = db_jobs (pd_ci s) →
  (∀ g l, db_locks d' !! g = Some l → lock_ID l = uuid lockN ∨ db_locks (pd_ci s) !! g = Some l) →
  plan_ok (set_ci d' (set_tick n s)) ∧ no_jobs d' (uuid runN).
Proof.
  intros Hk Hrn Hln Hid Er Ej Hl. destruct (ok_fresh s Hk runN ltac:(lia)) as (_ & _ & Frun & _). split; [split|]; cbn.
  - intros m Hm. destruct (ok_fresh s Hk m ltac:(lia)) as (F1 & F2 & F3 & F4 & F5).
    rewrite Ej, Er. split; [done|]. split; [done|]. split; [|split; [done|]].
    + rewrite lookup_insert_ne; [done|]. intros E%(inj uuid). lia.
    + intros g l [E|E]%Hl; [|by apply F5 in E]. rewrite E. intros E'%(inj uuid). lia.
  - intros id j. rewrite Ej. apply (ok_keys s Hk).
  - intros id r. rewrite Er. destruct (decide (id = uuid runN)) as [->|Hne].
    + rewrite lookup_insert_eq. by intros [= <-].
    + rewrite lookup_insert_ne by done. apply (ok_run_keys s Hk).
  - intros id j. rewrite Ej, Er. intros Hj. apply (ok_job_run s Hk) in Hj. apply lookup_insert_is_Some'. by right.
  - intros id r Hr. rewrite Ej. by apply (ok_step_job s Hk id).
  - intros j Hj Hrj. assert (is_Some (db_runs (pd_ci s) !! job_WorkflowRunID j)) as [x Hx].
    { unfold jobs_of in Hj. rewrite Ej in Hj. apply list_elem_of_fmap in Hj as ([id j'] & -> & Hj%elem_of_map_to_list).
      by eapply ok_job_run. }
    rewrite Hrj in Hx. congruence.
Qed.
End grown.

(** ** Properties *)

(** C13: The jobs of a run.  When the needs of the workflow, with its calls
    replaced, are defined and acyclic and the database takes all names, every
    instance of every job gets one queued row whose needs are the display
    names of all instances of the jobs it needs, and jobs come after those
    they need; every step of an instance has a pending row, numbered from
    zero, and no other row is added or changed.  When the needs are not sound
    the error calls the workflow circular and nothing is added.  When Postgres
    refuses the name of an instance or of a step, the error is that one, and
    the rows of the instances and steps before it stay in the tables: there is
    no transaction. *)
Theorem createJobsFromWorkflow_spec `{CiDriver, Unicode, Env, !Inj (=) (=) uuid} wf run w w1 s s1 :
  plan_ok s → FromJSON (w_ParsedJSON wf) = Some w → is_Some (db_runs (pd_ci s) !! run_ID run) →
  resolveReusableWorkflows (w_RepoID wf) w s = (s1, Ok w1) →
  let expanded := ExpandJobsWithMatrix (visit_values (pd_tick s1)) w1 in
  match createJobsFromWorkflow wf run s with
  | (s', Ok _) => sound_needs w1 ∧ ∃ order js ss,
      enumerates (dom (wf_Jobs w1)) order ∧ ordered (needs_graph w1) order ∧ grown s s' js ss ∧
      rows_of (run_ID run) expanded (instances expanded order) js ss
  | (s', Err (ErrOrder e)) => e = ErrCircularOrder ∧ ¬ sound_needs w1 ∧ s' = set_tick (pd_tick s') s
  | (s', Err e) => sound_needs w1 ∧ ∃ order done_ ej rest name js ss js' ss',
      enumerates (dom (wf_Jobs w1)) order ∧ ordered (needs_graph w1) order ∧
      instances expanded order = done_ ++ ej :: rest ∧ e = ErrDB (ErrText name) ∧ storable name = false ∧
      grown s s' (js ++ js') (ss ++ ss') ∧ rows_of (run_ID run) expanded done_ js ss ∧
      stopped_at (run_ID run) expanded ej name js' ss'
  | (_, Panic) => False
  end.
Proof. apply createJobs_ok. Qed.

(** C14: A new run starts.  On Postgres, when the instances of a workflow with
    sound needs have distinct names, Postgres takes the names of the instances
    and of their steps, and a runner has all the labels, creating the jobs of a
    run without jobs succeeds and the runner gets a job. *)
Theorem new_run_claimable `{CiDriver, Unicode, Env, !Inj (=) (=) uuid} wf run w w1 s s1 runner labels :
  ci_driver = DriverPostgres → plan_ok s → FromJSON (w_ParsedJSON wf) = Some w →
  is_Some (db_runs (pd_ci s) !! run_ID run) → no_jobs (pd_ci s) (run_ID run) → Forall job_ok (jobs_of (pd_ci s)) →
  resolveReusableWorkflows (w_RepoID wf) w s = (s1, Ok w1) → sound_needs w1 → Forall utf8 (expand_labels labels) →
  let all := instances (ExpandJobsWithMatrix (visit_values (pd_tick s1)) w1) (elements (dom (wf_Jobs w1))) in
  all ≠ [] → NoDup (ej_Name <$> all) →
  Forall (λ ej, names_storable ej ∧ ∃ l, j_RunsOn (ej_Job ej) = Some l ∧ Forall (λ x, utf8 x ∧ x ∈ expand_labels labels) l) all →
  ∃ s' j, createJobsFromWorkflow wf run s = (s', Ok ()) ∧ (ClaimJob runner labels [] (pd_ci s')).2 = Ok (Some j).
Proof.
  intros Hd Hk Hw Hr Hno Hrows Hres Hs Hlab all Hne Hnd Hall.
  destruct (createJobs_run wf run w w1 s s1 Hk Hw Hr Hres Hs) as (s' & order & js & ss & Ec & He & Hord & Hg & Hf).
  { eapply Forall_impl; [exact Hall|]. by intros ej []. }
  set (expanded := ExpandJobsWithMatrix _ w1) in *. exists s'.
  pose proof (instances_perm _ w1 order He : instances expanded order ≡ₚ all) as Hp.
  rewrite Forall_forall in Hall. rewrite <-Hp in Hnd. setoid_rewrite <-Hp in Hall.
  destruct (new_run_graph w1 order _ (run_ID run) s s' js ss Hk Hg Hno He Hord Hs Hf Hnd
    (λ ej Hej, storable_utf8 _ Hd (proj1 (proj1 (Hall ej Hej))))) as (Hn & Hdef & Hac).
  assert (∀ j, j ∈ js → ∃ ej, ej ∈ instances expanded order ∧ job_WorkflowRunID j = run_ID run ∧
    job_Status j = JobStatusQueued ∧ job_RunsOn j = marshal_strings (j_RunsOn (ej_Job ej)) ∧ job_ok j) as Hjs.
  { intros j Hj. destruct (Forall2_elem _ _ _ _ Hf Hj) as (ej & Hej & Hrow). exists ej.
    destruct (row_facts _ _ _ _ Hrow) as (_ & ? & ? & _ & ? & Hro).
    - apply Forall_forall. intros x (need & (e & -> & Hx)%list_elem_of_fmap & _)%list_elem_of_bind.
      apply storable_utf8; [done|]. apply Hall, list_elem_of_bind. exists need. split; [done|]. apply He, elem_of_dom.
      by destruct (instance_needs _ _ _ _ Hx) as (job & -> & _).
    - do 4 (split; [done|]). split; [done|]. destruct (Hall ej Hej) as (_ & l & El & Hl). exists l.
      split; [by rewrite Hro, El|]. eapply Forall_impl; [exact Hl|]. by intros ? []. }
  pose proof (new_run_jobs s s' js ss (run_ID run) Hk Hg Hno 
    ltac:(intros j Hj; by destruct (Hjs j Hj) as (? & _ & ? & _))) as Hiff.
  assert (keys_ok (pd_ci s')) as Hk' by (by eapply ok_keys, grown_ok).
  destruct (run_progress_ok runner labels (run_ID run) (pd_ci s') Hd Hk') as [j Hj];
    [|exact Hlab|exact Hn|exact Hdef|exact Hac| | | |exists j; by split].
  - apply Forall_forall. intros j Hj. apply elem_of_jobs in Hj; [|done].
    apply (grown_job s s' js ss _ j Hk Hg) in Hj as [[Hj _]|Hj].
    + by destruct (Hjs j Hj) as (? & _ & _ & _ & _ & ?).
    + rewrite Forall_forall in Hrows. apply Hrows, elem_of_jobs; [apply (ok_keys s Hk)|done].
  - intros j Hj Hrj. left. by destruct (Hjs j (proj1 (Hiff j) (conj Hj Hrj))) as (? & _ & _ & ? & _).
  - intros j l Hj Hrj Hl. destruct (Hjs j (proj1 (Hiff j) (conj Hj Hrj))) as (ej & Hej & _ & _ & Hro & _).
    destruct (Hall ej Hej) as (_ & ls & El & Hls). unfold RunsOn in Hl. rewrite Hro, El, unmarshal_marshal in Hl
      by (eapply Forall_impl; [exact Hls|]; by intros ? []).
    rewrite Forall_forall in Hls. by apply Hls.
  - destruct (instances expanded order) as [|ej l] eqn:E; [by apply Permutation_nil_l in Hp|].
    destruct (Forall2_elem_l _ _ _ ej Hf ltac:(by left)) as (j & Hj & _). exists j.
    destruct (proj2 (Hiff j) Hj) as [? ?]. split; [done|]. split; [done|].
    by destruct (Hjs j Hj) as (? & _ & _ & ? & _).
Qed.

(** A call that others wait for.  When a workflow with a job that needs
    the call of another workflow is triggered, the run is created and takes its
    concurrency group, but the key of the call is gone once it is replaced by
    the jobs of the called workflow, the needs count as circular and no job is
    created.  No sequence of claims, starts, completions, heartbeats and reaper
    rounds then changes the run, and its lock stays taken. *)
Theorem awaited_call_stuck `{CiDriver, Unicode, Env, !Inj (=) (=) uuid} fuel orgSlug repoName repoID req runIDs wf w s
    group call caller waiting job :
  plan_ok s → FromJSON (w_ParsedJSON wf) = Some w → MatchTrigger w (trigger_event req) = true →
  concurrency_group fuel orgSlug repoName req wf w = Ok group →
  (∀ g b, group = Some (g, b) → db_locks (pd_ci s) !! g = None) →
  w_ID wf ∈ db_workflows (pd_ci s) → is_Some (db_repos (pd_ci s) !! repoID) →
  no_slash call → wf_Jobs w !! call = Some caller → resolves s (w_RepoID wf) caller →
  no_slash waiting → wf_Jobs w !! waiting = Some job → ¬ resolves s (w_RepoID wf) job → call ∈ j_Needs job →
  ∃ s' runID, trigger_workflow fuel orgSlug repoName repoID req runIDs wf s = (s', Ok runIDs) ∧
    (run_Status <$> db_runs (pd_ci s') !! runID) = Some RunStatusQueued ∧
    (∀ g b, group = Some (g, b) → g ≠ "" → ∃ l, db_locks (pd_ci s') !! g = Some l ∧ lock_WorkflowRunID l = runID) ∧
    ∀ d', steps (pd_ci s') d' →
      db_runs d' !! runID = db_runs (pd_ci s') !! runID ∧
      ∀ g l, db_locks (pd_ci s') !! g = Some l → lock_WorkflowRunID l = runID → db_locks d' !! g = Some l.
Proof.
  intros Hk Hw Hm Hg Hfree Hwf Hrepo Hs1 Hcall Hres Hs2 Hwait Hnres Hneed.
  set (n := pd_tick s). 
  destruct (trigger_run_new s n (S n) (clock n) (w_ID wf) repoID (tr_Event req) (tr_Ref req) (tr_SHA req)
    (payload_json (tr_Payload req)) (payload_actor s req) group Hk) as (d' & run & Et & Hid & Hq & Er & Ej & Hl & Hlk);
    [lia|lia|done..|].
  destruct (trigger_run_ok s d' run n (S n) (S (S n)) Hk) as [Hk2 Hno]; [lia|lia|done..|].
  set (s2 := set_ci d' (set_tick (S (S n)) s)) in *.
  assert (is_Some (db_runs (pd_ci s2) !! run_ID run)) as Hrun by (rewrite Hid; cbn; by rewrite Er, lookup_insert_eq).
  destruct (resolve_run (w_RepoID wf) w s2) as (k & w1 & Eres & _ & Hjobs).
  pose proof (createJobs_ok wf run w w1 s2 _ Hk2 Hw Hrun Eres) as Hc. cbv zeta in Hc.
  assert (¬ sound_needs w1) as Hns.
  { intros [Hdef _]. assert (wf_Jobs w1 !! waiting = Some job) as Ew.
    { rewrite Hjobs, Hwait by done. by rewrite decide_False. }
    destruct (Hdef waiting call) as [x Hx].
    - unfold needs_graph. by rewrite lookup_fmap, Ew.
    - unfold needs_of, needs_graph. by rewrite lookup_fmap, Ew.
    - unfold needs_graph in Hx. rewrite lookup_fmap, Hjobs, Hcall, decide_True in Hx by done. done. }
  destruct (createJobsFromWorkflow wf run s2) as [s3 [[]|e|]] eqn:Ec; [by destruct Hc| |done].
  destruct e as [e| | |e|e]; try (by destruct Hc as [? _]). destruct Hc as (_ & _ & E3).
  exists s3, (uuid n). split; [|split; [|split]].
  - unfold trigger_workflow. rewrite Hw, Hm, Hg. unfold draw, attempt. st_simpl. cbn [pd_tick set_tick].
    change (pd_ci (set_tick (S (S (pd_tick s))) s)) with (pd_ci s).
    fold n. rewrite Et. cbv beta iota.
    match goal with |- context [createJobsFromWorkflow wf run ?x] => change x with s2 end. by rewrite Ec.
  - rewrite E3. cbn. by rewrite Er, lookup_insert_eq; cbn; rewrite Hq.
  - rewrite E3. cbn. exact Hlk.
  - rewrite E3. cbn. intros d2 Hst.
    destruct (no_jobs_steps d' d2 (uuid n)) as (H1' & _ & H3'); [apply (ok_keys _ Hk2)|apply (ok_run_keys _ Hk2)|done..].
Qed.

(** ** Which workflows an event reaches *)

(** A row as it is written for a workflow file. *)
Definition stored_for (p : Workflow) (wf : WfRow) : Prop := w_TriggersText wf = triggers_text (GetTriggerTypes p).

Lemma has_trigger_stored `{CiDriver} t p wf :
  t ∈ ["push"; "review"; "schedule"; "workflow_call"] → stored_for p wf →
  has_trigger t wf = bool_decide (t ∈ GetTriggerTypes p).
Proof.
  intros Ht Hs. unfold has_trigger, like_fold. rewrite Hs. unfold GetTriggerTypes.
  generalize (0 <? zlen (on_Schedule (wf_On p))). intros sch.
  destruct (wf_On p) as [[] [] [] [] [] l]; cbn [on_Push on_PullRequest on_Review on_WorkflowDispatch on_WorkflowCall];
  destruct sch, ci_driver;
  repeat (apply elem_of_cons in Ht as [->|Ht]; [vm_compute; reflexivity|]); by apply elem_of_nil in Ht.
Qed.

(** The workflows that the data plane's events reach.  For an event with a
    trigger type, the list of candidates has exactly the active workflows of the
    repository whose file names that type - so a pull_request trigger, which is
    stored under its own name, is never looked up. *)
Theorem ListActiveWorkflowsByTrigger_spec `{CiDriver, Unicode, Env} s repoID event t p wf :
  trigger_type event = Some t → stored_for p wf →
  wf ∈ ListActiveWorkflowsByTrigger s repoID t ↔
  wf ∈ wf_rows s ∧ w_RepoID wf = repoID ∧ w_Active wf = true ∧ t ∈ GetTriggerTypes p.
Proof.
  intros Ht Hs. unfold ListActiveWorkflowsByTrigger. rewrite wf_scan_perm, list_elem_of_filter, (has_trigger_stored t p wf).
  - rewrite bool_decide_eq_true. tauto.
  - unfold trigger_type in Ht. set_unfold. repeat (case_decide; [injection Ht as <-; tauto|]). done.
  - done.
Qed.

(** A workflow that is triggered by pull requests and not by reviews matches
    review events, but is not among the candidates for them. *)
Theorem pull_request_unreachable `{CiDriver, Unicode, Env} s repoID event p wf :
  event = "review_created" ∨ event = "review_updated" → on_Review (wf_On p) = None → stored_for p wf →
  ∃ t, trigger_type event = Some t ∧ wf ∉ ListActiveWorkflowsByTrigger s repoID t.
Proof.
  intros He Hr Hs. exists "review". split; [by destruct He as [-> | ->]|]. unfold ListActiveWorkflowsByTrigger.
  rewrite wf_scan_perm, list_elem_of_filter, (has_trigger_stored "review" p wf); [|set_solver|done].
  rewrite bool_decide_eq_true. intros ((_ & _ & Hin) & _). revert Hin. unfold GetTriggerTypes. rewrite Hr.
  destruct (wf_On p) as [[] [] ? [] [] l]; cbn [on_Push on_PullRequest on_WorkflowDispatch on_WorkflowCall];
    destruct (_ <? _); set_solver.
Qed.

(** ** Files that come back *)

Lemma by_path_lookup l p e : by_path l !! p = Some e → e ∈ l ∧ w_Path e = p.
Proof.
  unfold by_path. induction l as [|x l IH] using rev_ind; [done|]. rewrite foldl_app. cbn [foldl].
  destruct (decide (w_Path x = p)) as [E|Hne].
  - rewrite E, lookup_insert_eq. intros [= <-]. split; [apply elem_of_app; right; by left|done].
  - rewrite lookup_insert_ne by done. intros [? ?]%IH. split; [apply elem_of_app; by left|done].
Qed.

Lemma keeps_attempt {E A} P (m : planM A) : keeps P m → keeps P (attempt (E := E) m).
Proof. intros Hm s Hs. specialize (Hm s Hs). unfold attempt. by destruct (m s) as [s1 [a|e|]]. Qed.
Lemma keeps_draw {E} P : (∀ n s, P s → P (set_tick n s)) → keeps P (draw (E := E)).
Proof. intros Hp s Hs. by apply Hp. Qed.
#[export] Hint Resolve keeps_attempt keeps_draw : keeps.

(** A workflow whose file was removed and comes back unchanged stays
    inactive.  When the content of a file has the hash that the inactive row of
    its path has, a synchronisation leaves the row as it is, whatever the other
    files are, so no event finds the workflow again. *)
Theorem SyncWorkflows_stays_inactive `{CiDriver, Unicode, Env} yaml s files wf content :
  (∀ id w, pd_wfs s !! id = Some w → w_ID w = id) →
  (∀ w, w ∈ wf_rows s → at_path (w_RepoID wf) (w_Path wf) w = true → w = wf) →
  pd_wfs s !! w_ID wf = Some wf → w_Active wf = false →
  files !! w_Path wf = Some content → w_ContentHash wf = ContentHash content →
  let s' := (SyncWorkflows yaml (w_RepoID wf) files s).1 in
  pd_wfs s' !! w_ID wf = Some wf ∧ ∀ t, wf ∉ ListActiveWorkflowsByTrigger s' (w_RepoID wf) t.
Proof.
  intros Hkeys Hpath Hwf Hina Hfile Hhash s'. split.
  2: { intros t. unfold ListActiveWorkflowsByTrigger. rewrite wf_scan_perm, list_elem_of_filter.
       intros ((_ & Hact & _) & _). congruence. }
  set (P := λ s : PlanDB, pd_wfs s !! w_ID wf = Some wf).
  set (existing := by_path (ListRepoWorkflows s (w_RepoID wf))).
  assert (∀ p e, existing !! p = Some e → e ∈ wf_rows s ∧ w_RepoID e = w_RepoID wf ∧ w_Path e = p) as Hex.
  { intros p e [He Hp]%by_path_lookup. unfold ListRepoWorkflows in He.
    rewrite wf_by_name_perm, list_elem_of_filter in He. tauto. }
  assert (∀ p e, existing !! p = Some e → p ≠ w_Path wf → w_ID e ≠ w_ID wf) as Hother.
  { intros p e He Hp E. destruct (Hex p e He) as (Hr & _ & <-). apply Hp. f_equal.
    apply list_elem_of_fmap in Hr as ([id e'] & -> & Hr%elem_of_map_to_list). cbn in *.
    rewrite (Hkeys _ _ Hr) in E. rewrite <-E in Hwf. congruence. }
  assert (∀ n s, P s → P (set_tick n s)) as Htick by done.
  assert (∀ id name hash text tr act, id ≠ w_ID wf → keeps P (UpdateWorkflow id name hash text tr act)) as Hupd.
  { intros id name hash text tr act Hne. unfold UpdateWorkflow. apply keeps_bind; [by apply keeps_draw|].
    intros n s0 Hs0. unfold P in *. cbn. by rewrite lookup_alter_ne. }
  assert (∀ p name hash text tr, keeps P (CreateWorkflow (w_RepoID wf) p name hash text tr)) as Hcre.
  { intros p name hash text tr s0 Hs0. unfold P, CreateWorkflow, draw in *. st_simpl. cbn [pd_wfs set_tick].
    destruct (bool_decide _) eqn:Ed; [done|]. destruct (existsb _ _); [done|]. destruct (bool_decide (_ = None)); [done|].
    cbn. rewrite lookup_insert_ne; [done|]. intros E. apply bool_decide_eq_false in Ed. apply Ed. rewrite E. by eexists. }
  assert (∀ c, keeps P (ParseWorkflow yaml c)) as Hparse by (intros c; unfold ParseWorkflow; eauto 20 with keeps).
  assert (∀ resp file, file.1 ∈ dom files → files !! file.1 = Some file.2 →
    keeps P (sync_file yaml (w_RepoID wf) existing resp file)) as Hsf.
  { intros resp [p c] _ Hf. cbn in Hf. unfold sync_file. apply keeps_bind; [by apply keeps_attempt|].
    intros [w|]; [|apply keeps_ret]. destruct (existing !! p) as [e|] eqn:Ee.
    - destruct (decide _) as [|Hne]; [apply keeps_ret|]. apply keeps_bind; [|intros; apply keeps_ret].
      apply keeps_attempt, Hupd, (Hother p e Ee). intros ->. apply Hne.
      destruct (Hex _ e Ee) as (He & Hr & Hp). assert (e = wf) as ->; [|congruence].
      apply Hpath; [done|]. unfold at_path. by rewrite Hr, Hp, !bool_decide_eq_true_2.
    - apply keeps_bind; [|intros; apply keeps_ret]. by apply keeps_attempt. }
  assert (∀ resp pw, existing !! pw.1 = Some pw.2 → keeps P (sync_missing files resp pw)) as Hsm.
  { intros resp [p e] He. cbn in He. unfold sync_missing. destruct (files !! p) eqn:Ef; [apply keeps_ret|].
    apply keeps_bind; [|intros; apply keeps_ret]. apply keeps_attempt, Hupd, (Hother p e He). intros ->. congruence. }
  assert (keeps (E := plan_http_error) P (n ← draw;
    resp ← loopM (sync_file yaml (w_RepoID wf) existing) (mk_SyncWorkflowsResponse [] [] []) (visit n files);
    m ← draw; loopM (sync_missing files) resp (visit m existing))) as Hall; [|exact (Hall s Hwf)].
  apply keeps_bind; [by apply keeps_draw|].
  intros n. apply keeps_bind.
  - apply keeps_loop. intros resp [p c] Hin. rewrite visit_perm in Hin. apply elem_of_map_to_list in Hin.
    apply Hsf; [by eapply elem_of_dom_2|done].
  - intros resp. apply keeps_bind; [by apply keeps_draw|]. intros m. apply keeps_loop. intros r [p e] Hin.
    rewrite visit_perm in Hin. apply elem_of_map_to_list in Hin. by apply Hsm.
Qed.

(** ** Witnesses *)

Fixpoint tally (n : nat) : string := match n with O => "" | S n => "|" +:+ tally n end.
Definition demo_uuid (n : nat) : string := "#" +:+ tally n.
#[local] Instance demo_uuid_inj : Inj (=) (=) demo_uuid.
Proof.
  intros n m [= E]. revert m E. induction n as [|n IH]; intros [|m] E; [done..|]. injection E as E. by rewrite (IH m E).
Qed.
#[local] Instance demo_env : Env := {|
  uuid := demo_uuid; clock := λ n, 1000 + Z.of_nat n;
  visit := λ _ A m, map_to_list m; visit_perm := λ _ A m, reflexivity _;
  visit_values := λ _ _ _ _ m, map_to_list m; visit_values_perm := λ _ _ _ _ m, reflexivity _;
  wf_scan := λ l, l; wf_scan_perm := λ l, reflexivity _;
  wf_by_name := λ l, l; wf_by_name_perm := λ l, reflexivity _;
  fold_email := λ e, e |}.
#[local] Instance demo_unicode : Unicode := ascii_unicode.
#[local] Instance demo_driver : CiDriver := plain_driver DriverPostgres.

Definition demo_step : Step := mk_Step "" "" "" "make" "" ∅ ∅ "" false 0 "".
Definition demo_job (name uses : string) (needs : list string) (strategy : option Strategy) : Workflow.Job :=
  mk_WfJob name (Some ["ubuntu-latest"]) uses ∅ needs "" (if decide (uses = "") then Some [demo_step; demo_step] else None)
    ∅ ∅ (mk_JobSecrets false ∅) ∅ None strategy None 0 None ∅.
Definition demo_push : WorkflowTrigger :=
  mk_WorkflowTrigger (Some (mk_PushTrigger [] [] [] [] [] [])) None None None None [].
Definition demo_two : Strategy :=
  mk_Strategy (mk_Matrix [] [] {["os" := [VStr (bytes_of "linux"); VStr (bytes_of "darwin")]]}) None 0.
(** A matrix of two, and a job that needs it. *)
Definition demo_plain : Workflow :=
  mk_Workflow "Plain" demo_push ∅
    {["build" := demo_job "Build ${{ matrix.os }}" "" [] (Some demo_two); "test" := demo_job "" "" ["build"] None]} None None ∅.
(** A call, and a job that needs the call. *)
Definition demo_main : Workflow :=
  mk_Workflow "Main" demo_push ∅
    {["lib" := demo_job "" "./.kailab/workflows/lib.yml" [] None; "deploy" := demo_job "" "" ["lib"] None]} None
    (Some (mk_Concurrency "deploy" false)) ∅.
Definition demo_lib : Workflow :=
  mk_Workflow "Lib" (mk_WorkflowTrigger None None None None (Some (mk_WorkflowCallTrigger ∅ ∅ ∅)) []) ∅
    {["compile" := demo_job "" "" [] None]} None None ∅.
Definition demo_pull : Workflow :=
  mk_Workflow "Pull" (mk_WorkflowTrigger None (Some (mk_PullRequestTrigger [] [] [] [] [])) None None None []) ∅
    {["compile" := demo_job "" "" [] None]} None None ∅.

Definition demo_row (id path : string) (content : bytes) (active : bool) (w : Workflow) : WfRow :=
  mk_WfRow id "repo" path (wf_Name w) (ContentHash content) (ToJSON_text w) (triggers_text (GetTriggerTypes w)) active 0 0.
Definition demo_path (name : string) : string := ".kailab/workflows/" +:+ name +:+ ".yml".
Definition demo_main_row : WfRow := demo_row "main" (demo_path "main") (bytes_of "main") true demo_main.
Definition demo_plain_row : WfRow := demo_row "plain" (demo_path "plain") (bytes_of "plain") false demo_plain.
Definition demo_pull_row : WfRow := demo_row "pull" (demo_path "pull") (bytes_of "pull") true demo_pull.
Definition demo_run0 : WorkflowRun :=
  mk_WorkflowRun "run0" "plain" "repo" 1 "push" "refs/heads/main" "" "{}" RunStatusQueued None None None 900 None.
Definition demo_db : PlanDB :=
  mk_PlanDB (mk_CiDB {["run0" := demo_run0]} ∅ ∅ (list_to_set ["main"; "lib"; "plain"; "pull"]) {["repo" := ("kai", "server")]})
    {["main" := demo_main_row; "plain" := demo_plain_row; "pull" := demo_pull_row;
      "lib" := demo_row "lib" (demo_path "lib") (bytes_of "lib") true demo_lib]}
    ∅ {["kai"]} [] 0.

Lemma demo_db_ok : plan_ok demo_db.
Proof.
  split.
  - intros n _. split; [done|]. split; [done|]. split; [|split; [|done]]; cbn [pd_ci pd_wfs demo_db db_runs];
      repeat (rewrite lookup_insert_ne by done); by rewrite lookup_singleton_ne.
  - intros id j Hj. change (db_jobs (pd_ci demo_db)) with (∅ : gmap string Job) in Hj. by apply lookup_empty_Some in Hj.
  - intros id r. cbn. intros [<- <-]%lookup_singleton_Some. done.
  - intros id j Hj. change (db_jobs (pd_ci demo_db)) with (∅ : gmap string Job) in Hj. by apply lookup_empty_Some in Hj.
  - intros id r Hr. change (pd_steps demo_db) with (∅ : gmap string StepRow) in Hr. by apply lookup_empty_Some in Hr.
Qed.

Lemma demo_plain_read : FromJSON (w_ParsedJSON demo_plain_row) = Some demo_plain.
Proof. by vm_compute. Qed.
Lemma demo_main_read : FromJSON (w_ParsedJSON demo_main_row) = Some demo_main.
Proof. by vm_compute. Qed.

Example demo_rows :
  (λ j, (job_Name j, job_Needs j, job_RunsOn j)) <$> (jobs_of (pd_ci (createJobsFromWorkflow demo_plain_row demo_run0 demo_db).1)) =
  [("test", Some (marshal_strings (Some ["Build linux"; "Build darwin"])), marshal_strings (Some ["ubuntu-latest"]));
   ("Build darwin", Some "null", marshal_strings (Some ["ubuntu-latest"]));
   ("Build linux", Some "null", marshal_strings (Some ["ubuntu-latest"]))].
Proof. vm_compute. reflexivity. Qed.

(** A command of 51 bytes and more whose byte 47 is inside a character: the
    display name is cut there, Postgres refuses it, and the row of the job
    stays without steps. *)
Definition demo_cut : Workflow :=
  mk_Workflow "Cut" demo_push ∅
    {["greet" := mk_WfJob "" (Some ["ubuntu-latest"]) "" ∅ [] ""
        (Some [mk_Step "" "" "" "echo aaaaaaaaaaaaaaaaaaaaaaaaaaaaaaaaaaaaaaaaaééééé" "" ∅ ∅ "" false 0 ""])
        ∅ ∅ (mk_JobSecrets false ∅) ∅ None None None 0 None ∅]} None None ∅.
Example demo_cut_refused :
  let '(s', r) := createJobsFromWorkflow (demo_row "cut" (demo_path "cut") [] true demo_cut) demo_run0 demo_db in
  (match r with Err (ErrDB (ErrText _)) => true | _ => false end) = true ∧
  job_Name <$> jobs_of (pd_ci s') = ["greet"] ∧ pd_steps s' = ∅.
Proof. vm_compute. repeat split. Qed.

Lemma demo_plain_resolved :
  resolveReusableWorkflows "repo" demo_plain demo_db = (set_tick 1 demo_db, Ok demo_plain).
Proof. by vm_compute. Qed.

Lemma createJobsFromWorkflow_spec_witness : sound_needs demo_plain.
Proof.
  pose proof (createJobsFromWorkflow_spec demo_plain_row demo_run0 demo_plain demo_plain demo_db (set_tick 1 demo_db)
    demo_db_ok demo_plain_read ltac:(by eexists) demo_plain_resolved) as Hc. cbv zeta in Hc.
  assert (is_ok (createJobsFromWorkflow demo_plain_row demo_run0 demo_db).2 = true) as Ho by (by vm_compute).
  destruct (createJobsFromWorkflow demo_plain_row demo_run0 demo_db) as [s' [u|e|]]; [|done..].
  exact (proj1 Hc).
Defined.

Lemma demo_no_jobs run : no_jobs (pd_ci demo_db) run.
Proof. intros j Hj. by apply elem_of_nil in Hj. Qed.

Lemma new_run_claimable_witness :
  ∃ s' j, createJobsFromWorkflow demo_plain_row demo_run0 demo_db = (s', Ok ()) ∧
    (ClaimJob "r1" ["linux"] [] (pd_ci s')).2 = Ok (Some j).
Proof.
  apply (new_run_claimable demo_plain_row demo_run0 demo_plain demo_plain demo_db (set_tick 1 demo_db) "r1" ["linux"]).
  - done.
  - exact demo_db_ok.
  - exact demo_plain_read.
  - by eexists.
  - apply demo_no_jobs.
  - constructor.
  - exact demo_plain_resolved.
  - exact createJobsFromWorkflow_spec_witness.
  - cbn. utf8_all.
  - by vm_compute.
  - refine (bool_decide_unpack _ _). vm_compute. exact I.
  - vm_compute instances.
    repeat constructor; try (by apply utf8_ascii); (eexists; split; [reflexivity|]);
      apply Forall_singleton; (split; [by apply utf8_ascii|]); refine (bool_decide_unpack _ _); vm_compute; exact I.
Defined.

Definition demo_req : TriggerCIRequest := mk_TriggerCIRequest "kai/server" "push" "refs/heads/main" "abc" None.

Lemma awaited_call_stuck_witness :
  ∃ s' runID, trigger_workflow 100 "kai" "server" "repo" demo_req [] demo_main_row demo_db = (s', Ok []) ∧
    ∀ d', steps (pd_ci s') d' → (run_Status <$> db_runs d' !! runID) = Some RunStatusQueued.
Proof.
  destruct (awaited_call_stuck 100 "kai" "server" "repo" demo_req [] demo_main_row demo_main demo_db
    (Some ("deploy", false)) "lib" (demo_job "" "./.kailab/workflows/lib.yml" [] None) "deploy" (demo_job "" "" ["lib"] None))
    as (s' & runID & E & Hq & _ & Hs).
  - exact demo_db_ok.
  - exact demo_main_read.
  - by vm_compute.
  - by vm_compute.
  - by intros g b [= <- <-].
  - refine (bool_decide_unpack _ _). vm_compute. exact I.
  - by eexists.
  - refine (bool_decide_unpack _ _). vm_compute. exact I.
  - done.
  - split; [by vm_compute|]. vm_compute. by eexists.
  - refine (bool_decide_unpack _ _). vm_compute. exact I.
  - done.
  - intros [Hc _]. by vm_compute in Hc.
  - by left.
  - exists s', runID. split; [exact E|]. intros d' Hst. by rewrite (proj1 (Hs d' Hst)).
Defined.

Lemma ListActiveWorkflowsByTrigger_spec_witness : demo_main_row ∈ ListActiveWorkflowsByTrigger demo_db "repo" "push".
Proof.
  apply (ListActiveWorkflowsByTrigger_spec demo_db "repo" "push" "push" demo_main demo_main_row); [done..|].
  split; [|split; [done|split; [done|by left]]]. apply list_elem_of_fmap. exists ("main", demo_main_row).
  split; [done|]. by apply elem_of_map_to_list.
Defined.
Lemma pull_request_unreachable_witness :
  MatchTrigger demo_pull (mk_TriggerEvent "review_created" "refs/heads/main" "" ∅) = true ∧
  ∃ t, trigger_type "review_created" = Some t ∧ demo_pull_row ∉ ListActiveWorkflowsByTrigger demo_db "repo" t.
Proof.
  split; [by vm_compute|].
  apply (pull_request_unreachable demo_db "repo" "review_created" demo_pull demo_pull_row); [by left|done..].
Defined.

Definition demo_files : gmap string bytes := {[demo_path "plain" := bytes_of "plain"]}.
Definition demo_yaml (content : bytes) : option Workflow := Some demo_plain.
Lemma SyncWorkflows_stays_inactive_witness :
  (SyncWorkflows demo_yaml "repo" demo_files demo_db).2 =
    Ok (mk_SyncWorkflowsResponse [demo_path "plain"] [] [demo_path "main"; demo_path "lib"; demo_path "pull"]) ∧
  (w_Active <$> pd_wfs (SyncWorkflows demo_yaml "repo" demo_files demo_db).1 !! "plain") = Some false.
Proof.
  split; [by vm_compute|].
  assert (pd_wfs (SyncWorkflows demo_yaml "repo" demo_files demo_db).1 !! w_ID demo_plain_row = Some demo_plain_row) as E;
    [|change "plain" with (w_ID demo_plain_row); by rewrite E].
  apply (SyncWorkflows_stays_inactive demo_yaml demo_db demo_files demo_plain_row (bytes_of "plain")).
  - intros id w. cbn [pd_wfs demo_db]. intros Hw%elem_of_map_to_list. vm_compute in Hw.
    repeat (apply elem_of_cons in Hw as [[= -> ->]|Hw]; [done|]). by apply elem_of_nil in Hw.
  - intros w Hw. vm_compute in Hw.
    repeat (apply elem_of_cons in Hw as [->|Hw]; [by vm_compute|]). by apply elem_of_nil in Hw.
  - done.
  - done.
  - done.
  - by vm_compute.
Defined.
