(* ===== verification/Accounts.v ===== *)
(** * Users, organisations and their repositories (kailab-control: model/models.go, db/db.go)

    The tables of the control plane that decide who may do what: users and the
    early-access signups, magic links and sessions, organisations with their
    members and repositories, personal access tokens, SSH keys and the audit
    log, with the statements that read and change them.

    New identifiers and the clock are arguments; times of a row are Unix
    seconds.  Columns that are only shown (creation times, the plan of an
    organisation, user agent and address of a session, the answers of a signup)
    are left out. *)

From S2P Require Import Prelude Json GoStrings Sha256 CiStore.
Local Open Scope Z_scope.

(** ** Rows *)

Record User := mk_User {
  us_ID : string; us_Email : string; us_Name : string; us_CIAccess : bool; us_CIRequested : bool;
  us_LastLoginAt : option Z }.
Record Session := mk_Session {
  se_ID : string; se_UserID : string; se_RefreshHash : string; se_ExpiresAt : Z }.
Record MagicLink := mk_MagicLink {
  ml_ID : string; ml_Email : string; ml_TokenHash : string; ml_ExpiresAt : Z; ml_UsedAt : option Z }.
Record Org := mk_Org { og_ID : string; og_Slug : string; og_Name : string; og_OwnerID : string }.
Record Membership := mk_Membership { mb_UserID : string; mb_OrgID : string; mb_Role : string }.
Record Repo := mk_Repo {
  rp_ID : string; rp_OrgID : string; rp_Name : string; rp_Visibility : string; rp_ShardHint : string;
  rp_CreatedBy : string }.
(** The column [scopes] is the JSON text of the list. *)
Record APIToken := mk_APIToken {
  at_ID : string; at_UserID : string; at_OrgID : option string; at_Name : string; at_Hash : string;
  at_ScopesText : string; at_LastUsedAt : option Z }.
Record SSHKey := mk_SSHKey {
  sk_ID : string; sk_UserID : string; sk_Name : string; sk_Fingerprint : string; sk_PublicKey : string;
  sk_LastUsedAt : option Z }.
Record Signup := mk_Signup {
  su_ID : string; su_Name : string; su_Email : string; su_Status : string; su_Notes : string;
  su_UpdatedAt : option Z }.
Record AuditEntry := mk_AuditEntry {
  ae_OrgID : option string; ae_ActorID : option string; ae_Action : string; ae_TargetType : string;
  ae_TargetID : string }.

Definition Scopes (t : APIToken) : list string := unmarshal_strings (at_ScopesText t).

(** Rows by primary key; memberships by organisation and user. *)
Record AccDB := mk_AccDB {
  ac_users : gmap string User;
  ac_sessions : gmap string Session;
  ac_links : gmap string MagicLink;
  ac_orgs : gmap string Org;
  ac_members : gmap (string * string) string;
  ac_repos : gmap string Repo;
  ac_tokens : gmap string APIToken;
  ac_keys : gmap string SSHKey;
  ac_signups : gmap string Signup;
  ac_audit : list AuditEntry }.

Definition set_users m d := mk_AccDB m (ac_sessions d) (ac_links d) (ac_orgs d) (ac_members d) (ac_repos d) (ac_tokens d) (ac_keys d) (ac_signups d) (ac_audit d).
Definition set_sessions m d := mk_AccDB (ac_users d) m (ac_links d) (ac_orgs d) (ac_members d) (ac_repos d) (ac_tokens d) (ac_keys d) (ac_signups d) (ac_audit d).
Definition set_links m d := mk_AccDB (ac_users d) (ac_sessions d) m (ac_orgs d) (ac_members d) (ac_repos d) (ac_tokens d) (ac_keys d) (ac_signups d) (ac_audit d).
Definition set_orgs m d := mk_AccDB (ac_users d) (ac_sessions d) (ac_links d) m (ac_members d) (ac_repos d) (ac_tokens d) (ac_keys d) (ac_signups d) (ac_audit d).
Definition set_members m d := mk_AccDB (ac_users d) (ac_sessions d) (ac_links d) (ac_orgs d) m (ac_repos d) (ac_tokens d) (ac_keys d) (ac_signups d) (ac_audit d).
Definition set_acc_repos m d := mk_AccDB (ac_users d) (ac_sessions d) (ac_links d) (ac_orgs d) (ac_members d) m (ac_tokens d) (ac_keys d) (ac_signups d) (ac_audit d).
Definition set_tokens m d := mk_AccDB (ac_users d) (ac_sessions d) (ac_links d) (ac_orgs d) (ac_members d) (ac_repos d) m (ac_keys d) (ac_signups d) (ac_audit d).
Definition set_keys m d := mk_AccDB (ac_users d) (ac_sessions d) (ac_links d) (ac_orgs d) (ac_members d) (ac_repos d) (ac_tokens d) m (ac_signups d) (ac_audit d).
Definition set_signups m d := mk_AccDB (ac_users d) (ac_sessions d) (ac_links d) (ac_orgs d) (ac_members d) (ac_repos d) (ac_tokens d) (ac_keys d) m (ac_audit d).
Definition set_audit l d := mk_AccDB (ac_users d) (ac_sessions d) (ac_links d) (ac_orgs d) (ac_members d) (ac_repos d) (ac_tokens d) (ac_keys d) (ac_signups d) l.

Inductive db_error :=
| ErrNotFound
| ErrInvalidRole
| ErrConstraint (what : string)   (** a constraint of the schema *)
| ErrDriver.                      (** the database cannot be reached *)
Abbreviation accM := (stM AccDB db_error).

(** The dialect, the order in which rows are found, and the comparison of
    addresses: [LOWER] of the database's locale on Postgres, NOCASE on SQLite. *)
Class AccDriver := {
  acc_driver : DriverType;
  acc_scan : ∀ A, list A → list A;
  acc_scan_perm A l : acc_scan A l ≡ₚ l;
  fold_email : string → string;
}.
Arguments acc_scan {_ A} l.

Definition rows {K A} `{Countable K} (m : gmap K A) : list A := (map_to_list m).*2.
Definition or_not_found {A} (o : option A) : res db_error A :=
  match o with Some a => Ok a | None => Err ErrNotFound end.
Definition taken {K A} `{Countable K} (p : A → bool) (m : gmap K A) : bool := existsb p (rows m).

(** ** Roles and scopes *)

Definition RoleOwner : string := "owner".
Definition RoleAdmin : string := "admin".
Definition RoleMaintainer : string := "maintainer".
Definition RoleDeveloper : string := "developer".
Definition RoleReporter : string := "reporter".
Definition RoleGuest : string := "guest".
Definition RoleHierarchy : gmap string Z :=
  list_to_map [(RoleGuest, 0); (RoleReporter, 1); (RoleDeveloper, 2); (RoleMaintainer, 3); (RoleAdmin, 4);
               (RoleOwner, 5)].
(** A Go map answers zero for a key it does not have. *)
Definition level (role : string) : Z := default 0 (RoleHierarchy !! role).
Definition HasAtLeastRole (role required : string) : bool := level required <=? level role.

Definition ScopeRepoRead : string := "repo:read".
Definition ScopeRepoWrite : string := "repo:write".
Fixpoint HasScope (scopes : list string) (required : string) : bool :=
  match scopes with
  | [] => false
  | s :: scopes => if decide (s = required) then true else HasScope scopes required
  end.

Section accounts.
Context `{AccDriver}.

(** ** Users and signups *)

Definition GetUserByID (id : string) (d : AccDB) : res db_error User := or_not_found (ac_users d !! id).
Definition GetUserByEmail (email : string) (d : AccDB) : res db_error User :=
  or_not_found (List.find (λ u, bool_decide (fold_email (us_Email u) = fold_email email)) (acc_scan (rows (ac_users d)))).

(** Addresses are unique up to case on SQLite and as they are on Postgres. *)
Definition same_email (email : string) (u : User) : bool :=
  match acc_driver with
  | DriverSQLite => bool_decide (fold_email (us_Email u) = fold_email email)
  | DriverPostgres => bool_decide (us_Email u = email)
  end.
Definition CreateUser (id email name : string) : accM User :=
  d ← gets (λ d, d);
  _ ← fail_if (bool_decide (is_Some (ac_users d !! id))) (ErrConstraint "users.id");
  _ ← fail_if (taken (same_email email) (ac_users d)) (ErrConstraint "users.email");
  _ ← modify (λ d, set_users (<[id := mk_User id email name false false None]> (ac_users d)) d);
  d ← gets (λ d, d);
  lift (GetUserByID id d).
Definition GetOrCreateUser (id email name : string) : accM (User * bool) :=
  d ← gets (λ d, d);
  match GetUserByEmail email d with
  | Ok u => mret (u, false)
  | Err ErrNotFound => u ← CreateUser id email name; mret (u, true)
  | Err e => lift (Err e)
  | Panic => lift Panic
  end.
Definition UpdateUserCIAccess (userID : string) (ciAccess : bool) : accM () :=
  modify (λ d, set_users (alter (λ u, mk_User (us_ID u) (us_Email u) (us_Name u) ciAccess (us_CIRequested u)
    (us_LastLoginAt u)) userID (ac_users d)) d).
Definition RequestCIAccess (userID : string) : accM () :=
  modify (λ d, set_users (alter (λ u, mk_User (us_ID u) (us_Email u) (us_Name u) (us_CIAccess u) true
    (us_LastLoginAt u)) userID (ac_users d)) d).
Definition UpdateLastLogin (now : Z) (userID : string) : accM () :=
  modify (λ d, set_users (alter (λ u, mk_User (us_ID u) (us_Email u) (us_Name u) (us_CIAccess u) (us_CIRequested u)
    (Some now)) userID (ac_users d)) d).

Definition GetSignupByID (id : string) (d : AccDB) : res db_error Signup := or_not_found (ac_signups d !! id).
(** One of the signups of the address. *)
Definition GetSignupByEmail (email : string) (d : AccDB) : res db_error Signup :=
  or_not_found (List.find (λ s, bool_decide (su_Email s = email)) (acc_scan (rows (ac_signups d)))).
Definition CreateSignup (id name email : string) : accM Signup :=
  d ← gets (λ d, d);
  _ ← fail_if (bool_decide (is_Some (ac_signups d !! id))) (ErrConstraint "signups.id");
  let s := mk_Signup id name email "pending_review" "" None in
  _ ← modify (λ d, set_signups (<[id := s]> (ac_signups d)) d);
  mret s.
Definition UpdateSignupStatus (now : Z) (id status notes : string) : accM () :=
  modify (λ d, set_signups (alter (λ s, mk_Signup (su_ID s) (su_Name s) (su_Email s) status notes (Some now)) id
    (ac_signups d)) d).

(** ** Magic links and sessions *)

Definition GetMagicLink (tokenHash : string) (d : AccDB) : res db_error MagicLink :=
  or_not_found (List.find (λ l, bool_decide (ml_TokenHash l = tokenHash)) (acc_scan (rows (ac_links d)))).
Definition CreateMagicLink (id email tokenHash : string) (expiresAt : Z) : accM () :=
  d ← gets (λ d, d);
  _ ← fail_if (bool_decide (is_Some (ac_links d !! id))) (ErrConstraint "magic_links.id");
  _ ← fail_if (taken (λ l, bool_decide (ml_TokenHash l = tokenHash)) (ac_links d)) (ErrConstraint "magic_links.token_hash");
  modify (λ d, set_links (<[id := mk_MagicLink id email tokenHash expiresAt None]> (ac_links d)) d).
Definition UseMagicLink (now : Z) (id : string) : accM () :=
  modify (λ d, set_links (alter (λ l, mk_MagicLink (ml_ID l) (ml_Email l) (ml_TokenHash l) (ml_ExpiresAt l)
    (Some now)) id (ac_links d)) d).
Definition CleanupExpiredMagicLinks (now : Z) : accM () :=
  modify (λ d, set_links (filter (λ kl, ¬ ml_ExpiresAt kl.2 < now) (ac_links d)) d).

Definition GetSession (id : string) (d : AccDB) : res db_error Session := or_not_found (ac_sessions d !! id).
Definition GetSessionByRefreshHash (hash : string) (d : AccDB) : res db_error Session :=
  or_not_found (List.find (λ s, bool_decide (se_RefreshHash s = hash)) (acc_scan (rows (ac_sessions d)))).
Definition CreateSession (id userID refreshHash : string) (expiresAt : Z) : accM Session :=
  d ← gets (λ d, d);
  _ ← fail_if (bool_decide (is_Some (ac_sessions d !! id))) (ErrConstraint "sessions.id");
  _ ← fail_if (bool_decide (ac_users d !! userID = None)) (ErrConstraint "sessions.user_id");
  _ ← modify (λ d, set_sessions (<[id := mk_Session id userID refreshHash expiresAt]> (ac_sessions d)) d);
  d ← gets (λ d, d);
  lift (GetSession id d).
Definition DeleteSession (id : string) : accM () := modify (λ d, set_sessions (delete id (ac_sessions d)) d).
Definition DeleteUserSessions (userID : string) : accM () :=
  modify (λ d, set_sessions (filter (λ ks, se_UserID ks.2 ≠ userID) (ac_sessions d)) d).

(** ** Organisations and members *)

Definition GetOrgByID (id : string) (d : AccDB) : res db_error Org := or_not_found (ac_orgs d !! id).
Definition GetOrgBySlug (slug : string) (d : AccDB) : res db_error Org :=
  or_not_found (List.find (λ o, bool_decide (og_Slug o = slug)) (acc_scan (rows (ac_orgs d)))).

(** Two statements: when the second fails the organisation stays. *)
Definition CreateOrg (id slug name ownerID : string) : accM Org :=
  d ← gets (λ d, d);
  _ ← fail_if (bool_decide (is_Some (ac_orgs d !! id))) (ErrConstraint "orgs.id");
  _ ← fail_if (taken (λ o, bool_decide (og_Slug o = slug)) (ac_orgs d)) (ErrConstraint "orgs.slug");
  _ ← fail_if (bool_decide (ac_users d !! ownerID = None)) (ErrConstraint "orgs.owner_id");
  _ ← modify (λ d, set_orgs (<[id := mk_Org id slug name ownerID]> (ac_orgs d)) d);
  d ← gets (λ d, d);
  _ ← fail_if (bool_decide (is_Some (ac_members d !! (id, ownerID)))) (ErrConstraint "memberships.user_id, memberships.org_id");
  _ ← modify (λ d, set_members (<[(id, ownerID) := RoleOwner]> (ac_members d)) d);
  d ← gets (λ d, d);
  lift (GetOrgByID id d).

(** An upsert on both databases. *)
Definition AddMember (orgID userID role : string) : accM () :=
  d ← gets (λ d, d);
  _ ← fail_if (bool_decide (RoleHierarchy !! role = None)) ErrInvalidRole;
  _ ← fail_if (bool_decide (ac_users d !! userID = None)) (ErrConstraint "memberships.user_id");
  _ ← fail_if (bool_decide (ac_orgs d !! orgID = None)) (ErrConstraint "memberships.org_id");
  modify (λ d, set_members (<[(orgID, userID) := role]> (ac_members d)) d).
Definition RemoveMember (orgID userID : string) : accM () :=
  modify (λ d, set_members (delete (orgID, userID) (ac_members d)) d).
Definition GetMembership (orgID userID : string) (d : AccDB) : res db_error Membership :=
  or_not_found (mk_Membership userID orgID <$> ac_members d !! (orgID, userID)).

(** The organisations of a user; by name, in some order among equal names. *)
Definition ListUserOrgs (userID : string) (d : AccDB) : list (Org * string) :=
  acc_scan (omap (λ mr : (string * string) * string,
    if decide (mr.1.2 = userID) then (λ o, (o, mr.2)) <$> ac_orgs d !! mr.1.1 else None) (map_to_list (ac_members d))).

(** ** Repositories *)

Definition GetRepoByID (id : string) (d : AccDB) : res db_error Repo := or_not_found (ac_repos d !! id).
Definition named (orgID name : string) (r : Repo) : bool :=
  bool_decide (rp_OrgID r = orgID) && bool_decide (rp_Name r = name).
Definition GetRepoByOrgAndName (orgID name : string) (d : AccDB) : res db_error Repo :=
  or_not_found (List.find (named orgID name) (acc_scan (rows (ac_repos d)))).
Definition visibilities : list string := ["private"; "public"; "internal"].
Definition CreateRepo (id orgID name visibility shardHint createdBy : string) : accM Repo :=
  d ← gets (λ d, d);
  _ ← fail_if (bool_decide (is_Some (ac_repos d !! id))) (ErrConstraint "repos.id");
  _ ← fail_if (taken (named orgID name) (ac_repos d)) (ErrConstraint "repos.org_id, repos.name");
  _ ← fail_if (bool_decide (visibility ∉ visibilities)) (ErrConstraint "repos.visibility");
  _ ← fail_if (bool_decide (ac_orgs d !! orgID = None)) (ErrConstraint "repos.org_id");
  _ ← fail_if (bool_decide (ac_users d !! createdBy = None)) (ErrConstraint "repos.created_by");
  _ ← modify (λ d, set_acc_repos (<[id := mk_Repo id orgID name visibility shardHint createdBy]> (ac_repos d)) d);
  d ← gets (λ d, d);
  lift (GetRepoByID id d).
(** The row itself may keep its name. *)
Definition renames_onto (id name : string) (d : AccDB) : bool :=
  match ac_repos d !! id with
  | Some r => taken (λ q, named (rp_OrgID r) name q && negb (bool_decide (rp_ID q = id))) (ac_repos d)
  | None => false
  end.
Definition UpdateRepo (id name visibility : string) : accM Repo :=
  d ← gets (λ d, d);
  _ ← fail_if (renames_onto id name d) (ErrConstraint "repos.org_id, repos.name");
  _ ← fail_if (bool_decide (is_Some (ac_repos d !! id)) && bool_decide (visibility ∉ visibilities))
        (ErrConstraint "repos.visibility");
  _ ← modify (λ d, set_acc_repos (alter (λ r, mk_Repo (rp_ID r) (rp_OrgID r) name visibility (rp_ShardHint r)
        (rp_CreatedBy r)) id (ac_repos d)) d);
  d ← gets (λ d, d);
  lift (GetRepoByID id d).
Definition DeleteRepo (id : string) : accM () := modify (λ d, set_acc_repos (delete id (ac_repos d)) d).

(** ** Personal access tokens and SSH keys *)

Definition GetAPIToken (id : string) (d : AccDB) : res db_error APIToken := or_not_found (ac_tokens d !! id).
Definition GetAPITokenByHash (hash : string) (d : AccDB) : res db_error APIToken :=
  or_not_found (List.find (λ t, bool_decide (at_Hash t = hash)) (acc_scan (rows (ac_tokens d)))).
Definition CreateAPIToken (id userID orgID name hash : string) (scopes : list string) : accM APIToken :=
  d ← gets (λ d, d);
  _ ← fail_if (bool_decide (is_Some (ac_tokens d !! id))) (ErrConstraint "api_tokens.id");
  _ ← fail_if (bool_decide (ac_users d !! userID = None)) (ErrConstraint "api_tokens.user_id");
  let org := if decide (orgID = "") then None else Some orgID in
  _ ← modify (λ d, set_tokens (<[id := mk_APIToken id userID org name hash (marshal_strings (Some scopes)) None]>
        (ac_tokens d)) d);
  d ← gets (λ d, d);
  lift (GetAPIToken id d).
Definition DeleteAPIToken (id : string) : accM () := modify (λ d, set_tokens (delete id (ac_tokens d)) d).
Definition UpdateAPITokenLastUsed (now : Z) (id : string) (d : AccDB) : AccDB :=
  set_tokens (alter (λ t, mk_APIToken (at_ID t) (at_UserID t) (at_OrgID t) (at_Name t) (at_Hash t)
    (at_ScopesText t) (Some now)) id (ac_tokens d)) d.

Definition GetSSHKeyByID (id : string) (d : AccDB) : res db_error SSHKey := or_not_found (ac_keys d !! id).
Definition GetSSHKeyByFingerprint (fingerprint : string) (d : AccDB) : res db_error SSHKey :=
  or_not_found (List.find (λ k, bool_decide (sk_Fingerprint k = fingerprint)) (acc_scan (rows (ac_keys d)))).
Definition CreateSSHKey (id userID name fingerprint publicKey : string) : accM SSHKey :=
  d ← gets (λ d, d);
  _ ← fail_if (bool_decide (is_Some (ac_keys d !! id))) (ErrConstraint "ssh_keys.id");
  _ ← fail_if (taken (λ k, bool_decide (sk_Fingerprint k = fingerprint)) (ac_keys d)) (ErrConstraint "ssh_keys.fingerprint");
  _ ← fail_if (bool_decide (ac_users d !! userID = None)) (ErrConstraint "ssh_keys.user_id");
  _ ← modify (λ d, set_keys (<[id := mk_SSHKey id userID name fingerprint publicKey None]> (ac_keys d)) d);
  d ← gets (λ d, d);
  lift (GetSSHKeyByID id d).
Definition DeleteSSHKey (id : string) : accM () := modify (λ d, set_keys (delete id (ac_keys d)) d).
Definition UpdateSSHKeyLastUsed (now : Z) (id : string) (d : AccDB) : AccDB :=
  set_keys (alter (λ k, mk_SSHKey (sk_ID k) (sk_UserID k) (sk_Name k) (sk_Fingerprint k) (sk_PublicKey k)
    (Some now)) id (ac_keys d)) d.

(** ** The audit log; the callers ignore its errors *)

Definition WriteAudit {E} (orgID actorID : option string) (action targetType targetID : string) : stM AccDB E () :=
  modify (λ d, set_audit (ac_audit d ++ [mk_AuditEntry orgID actorID action targetType targetID]) d).
End accounts.

(** ** Lemmas on queries *)

Lemma elem_of_rows {A} (m : gmap string A) x : x ∈ rows m ↔ ∃ i, m !! i = Some x.
Proof.
  unfold rows. rewrite list_elem_of_fmap. split.
  - intros ([i y] & -> & Hy%elem_of_map_to_list). by exists i.
  - intros [i Hi]. exists (i, x). by rewrite elem_of_map_to_list.
Qed.
Lemma taken_false {A} (p : A → bool) (m : gmap string A) : taken p m = false ↔ ∀ i x, m !! i = Some x → p x = false.
Proof.
  unfold taken. rewrite <-not_true_iff_false, existsb_exists. setoid_rewrite <-list_elem_of_In. split.
  - intros Hp i x Hx. apply not_true_iff_false. intros E. apply Hp. exists x. split; [|done]. apply elem_of_rows. by exists i.
  - intros Hp (x & [i Hx]%elem_of_rows & E). by rewrite (Hp i x Hx) in E.
Qed.
(** A query by a column whose values are distinct. *)
Lemma find_row {A} `{AccDriver} (p : A → bool) (m : gmap string A) x :
  (∀ i j y z, m !! i = Some y → m !! j = Some z → p y = true → p z = true → y = z) →
  or_not_found (List.find p (acc_scan (rows m))) = Ok x ↔ (∃ i, m !! i = Some x) ∧ p x = true.
Proof.
  intros Hu. split.
  - unfold or_not_found. destruct (List.find _ _) as [y|] eqn:E; [|done]. intros [= ->].
    apply find_elem in E as [Hx Hp]. by rewrite acc_scan_perm, elem_of_rows in Hx.
  - intros [[i Hx] Hp]. destruct (find_exists p (acc_scan (rows m)) x) as (y & -> & Hy & Hpy); [|done|].
    { rewrite acc_scan_perm, elem_of_rows. by exists i. }
    rewrite acc_scan_perm, elem_of_rows in Hy. destruct Hy as [j Hy]. cbn. f_equal. by eapply Hu.
Qed.
Lemma find_row_sound {A} `{AccDriver} (p : A → bool) (m : gmap string A) x :
  or_not_found (List.find p (acc_scan (rows m))) = Ok x → (∃ i, m !! i = Some x) ∧ p x = true.
Proof.
  unfold or_not_found. destruct (List.find _ _) as [y|] eqn:E; [|done]. intros [= ->].
  apply find_elem in E as [Hx Hp]. by rewrite acc_scan_perm, elem_of_rows in Hx.
Qed.
