(* ===== verification/Routing.v ===== *)
(** * Shards (kailab-control: routing/picker.go)

    Which data-plane shard serves a repository: the picker with its map of
    addresses and its slice of names, the choice by the FNV hash of an
    organisation and the round-robin choice. *)

From S2P Require Import Prelude.
Local Open Scope Z_scope.

Record ShardPicker := mk_ShardPicker {
  pk_shards : gmap string string;
  pk_names : list string;
  pk_next : Z }.

(** [visited] are the names in the order in which the map is visited. *)
Definition NewShardPicker (shards : gmap string string) (visited : list string) : ShardPicker :=
  mk_ShardPicker shards visited 0.
Definition UpdateShards (shards : gmap string string) (visited : list string) (p : ShardPicker) : ShardPicker :=
  mk_ShardPicker shards visited (pk_next p).
Definition GetShardURL (shardName : string) (p : ShardPicker) : string := default "" (pk_shards p !! shardName).
Definition ListShards (p : ShardPicker) : gmap string string := pk_shards p.

(** [p.names[i]] *)
Definition name_at {E} (i : Z) (p : ShardPicker) : res E string :=
  if i <? 0 then Panic else or_panic (pk_names p !! Z.to_nat i).

Definition PickShardRoundRobin {E} : stM ShardPicker E string :=
  p ← gets (λ p, p);
  match pk_names p with
  | [] => mret "default"
  | names =>
    shard ← lift (name_at (pk_next p) p);
    _ ← modify (λ p, mk_ShardPicker (pk_shards p) (pk_names p) ((pk_next p + 1) `rem` zlen names));
    mret shard
  end.

(** [hash/fnv]: FNV-1a of 64 bits. *)
Definition fnv_offset : Z := 14695981039346656037.
Definition fnv_prime : Z := 1099511628211.
Definition u64 (z : Z) : Z := z mod 2 ^ 64.
Definition New64a (s : bytes) : Z :=
  foldl (λ h b, u64 (Z.lxor h (int_of_byte b) * fnv_prime)) fnv_offset s.

Definition PickShardByHash {E} (orgID : string) (p : ShardPicker) : res E string :=
  match pk_names p with
  | [] => Ok "default"
  | names => name_at (New64a (bytes_of orgID) mod zlen names) p
  end.

(** ** Properties *)

Lemma New64a_range s : 0 ≤ New64a s < 2 ^ 64.
Proof.
  unfold New64a. induction s as [|b s IH] using rev_ind; [done|]. rewrite foldl_app. cbn [foldl].
  apply Z.mod_pos_bound. lia.
Qed.

Lemma name_at_some {E} i p : 0 ≤ i < zlen (pk_names p) → ∃ n, @name_at E i p = Ok n ∧ pk_names p !! Z.to_nat i = Some n.
Proof.
  intros Hi. unfold name_at. rewrite (proj2 (Z.ltb_ge _ _)) by lia.
  destruct (lookup_lt_is_Some_2 (pk_names p) (Z.to_nat i)) as [n Hn]; [unfold zlen in Hi; lia|].
  exists n. by rewrite Hn.
Qed.

(** The choice by hash never leaves the slice. *)
Lemma PickShardByHash_ok {E} orgID p :
  ∃ n, @PickShardByHash E orgID p = Ok n ∧ (n ∈ pk_names p ∨ pk_names p = [] ∧ n = "default").
Proof.
  unfold PickShardByHash. destruct (pk_names p) as [|x l] eqn:En; [by exists "default"; auto|].
  destruct (@name_at_some E (New64a (bytes_of orgID) mod zlen (x :: l)) p) as (n & E1 & E2).
  { rewrite En. apply Z.mod_pos_bound. unfold zlen. cbn. lia. }
  rewrite En in E2. exists n. split; [done|]. left. by eapply list_elem_of_lookup_2.
Qed.

(** [k] choices in a row. *)
Fixpoint picks {E} (k : nat) : stM ShardPicker E (list string) :=
  match k with
  | O => mret []
  | S k => n ← PickShardRoundRobin; l ← picks k; mret (n :: l)
  end.

Definition fair (p : ShardPicker) : Prop := 0 ≤ pk_next p < zlen (pk_names p).

(** Round robin.  From a fair state - the next index inside of the slice,
    as in a new picker with shards - any number of choices in a row succeeds,
    the [i]-th of them is the name [i] places behind the next one, around the
    end of the slice, and the state is fair again with the same shards.  After
    [UpdateShards] with fewer shards than the index the choice panics. *)
Theorem round_robin_fair {E} p k :
  fair p →
  (∃ p' l, @picks E k p = (p', Ok l) ∧ fair p' ∧ pk_shards p' = pk_shards p ∧ pk_names p' = pk_names p ∧
    length l = k ∧ ∀ i, (i < k)%nat →
      l !! i = pk_names p !! Z.to_nat ((pk_next p + Z.of_nat i) mod zlen (pk_names p))) ∧
  ∀ shards visited, visited ≠ [] → zlen visited ≤ pk_next p →
    @PickShardRoundRobin E (UpdateShards shards visited p) = (UpdateShards shards visited p, Panic).
Proof.
  intros Hf. split.
  - revert p Hf. induction k as [|k IH]; intros p Hf; cbn [picks].
    { exists p, []. repeat split; try done; try apply Hf. intros i Hi. lia. }
    destruct (@name_at_some E (pk_next p) p Hf) as (n & E1 & E2).
    set (p1 := mk_ShardPicker (pk_shards p) (pk_names p) ((pk_next p + 1) mod zlen (pk_names p))).
    assert (PickShardRoundRobin (E := E) p = (p1, Ok n)) as Ep.
    { unfold PickShardRoundRobin. st_simpl. destruct (pk_names p) as [|x l] eqn:En; [done|].
      rewrite E1. unfold p1. rewrite Z.rem_mod_nonneg; [by rewrite En|unfold fair in Hf; lia|unfold zlen; cbn; lia]. }
    rewrite (stM_bind_run _ _ _ _ _ Ep).
    assert (fair p1) as Hf1 by (unfold fair; cbn; unfold fair in Hf; apply Z.mod_pos_bound; lia).
    destruct (IH p1 Hf1) as (p' & l & El & Hf' & Hs & Hn & Hl & Hi). rewrite (stM_bind_run _ _ _ _ _ El).
    exists p', (n :: l). split; [done|]. split; [done|]. split; [by rewrite Hs|]. split; [by rewrite Hn|].
    split; [by cbn; rewrite Hl|]. intros [|i] Hlt.
    + cbn. rewrite Z.add_0_r, Z.mod_small by apply Hf. done.
    + cbn [lookup list_lookup]. change (l !! i = pk_names p !! Z.to_nat ((pk_next p + Z.of_nat (S i)) mod zlen (pk_names p))).
      rewrite Hi by lia. cbn [pk_names pk_next p1]. do 2 f_equal. unfold fair in Hf.
      rewrite Zplus_mod_idemp_l. f_equal. lia.
  - intros shards visited Hv Hle. unfold PickShardRoundRobin. st_simpl. cbn [pk_names pk_next UpdateShards].
    destruct visited as [|x l]; [done|]. unfold name_at, UpdateShards. cbn [pk_names pk_next]. unfold fair in Hf. rewrite (proj2 (Z.ltb_ge _ _)) by lia.
    rewrite lookup_ge_None_2; [done|]. unfold zlen in Hle. lia.
Qed.

Definition demo_picker : ShardPicker := mk_ShardPicker ∅ ["a"; "b"; "c"] 2.
Lemma round_robin_fair_witness :
  (@picks () 4 demo_picker).2 = Ok ["c"; "a"; "b"; "c"] ∧
  @PickShardRoundRobin () (UpdateShards ∅ ["a"] demo_picker) = (UpdateShards ∅ ["a"] demo_picker, Panic).
Proof.
  split; [reflexivity|]. apply (proj2 (@round_robin_fair () demo_picker 4 ltac:(split; [discriminate|reflexivity])));
    [discriminate|vm_compute; discriminate].
Defined.

Example fnv_known : New64a [] = fnv_offset ∧ New64a (bytes_of "a") = 0xaf63dc4c8601ec8c.
Proof. split; reflexivity. Qed.
