(* ===== verification/Access.v ===== *)
(** * Who may call what (kailab-control: api/middleware.go, api/routes.go, api/proxy.go, api/ssh_keys.go, auth/auth.go)

    The authentication of requests, the guards in front of the handlers, the
    table of routes, and the two decisions about the data plane: the proxy for
    HTTP and the verification of SSH keys.

    The code reads the tables through a few queries.  They are the class
    [Directory]; the tables of [Accounts] are an instance, and the laws the
    theorems use are the class [DirectoryOk].  The JWT library is the class
    [TokenService]. *)

From S2P Require Import Prelude Json GoStrings Sha256 CiStore Accounts Routing.
Local Open Scope Z_scope.

(** ** The queries *)

Class Directory (S : Type) := {
  find_user : string → S → res db_error User;
  find_org : string → S → res db_error Org;
  find_repo_of : string → string → S → res db_error Repo;
  find_member : string → string → S → res db_error Membership;
  find_token : string → S → res db_error APIToken;
  find_key : string → S → res db_error SSHKey;
  touch_token : Z → string → S → S;
  touch_key : Z → string → S → S;
}.

Class DirectoryOk (S : Type) `{Directory S} := {
  find_org_slug slug s o : find_org slug s = Ok o → og_Slug o = slug;
  find_repo_names org name s r : find_repo_of org name s = Ok r → rp_OrgID r = org ∧ rp_Name r = name;
  find_member_keys org user s m : find_member org user s = Ok m → mb_OrgID m = org ∧ mb_UserID m = user;
  touch_token_org now id slug s : find_org slug (touch_token now id s) = find_org slug s;
  touch_token_repo now id org name s : find_repo_of org name (touch_token now id s) = find_repo_of org name s;
  touch_token_member now id org user s : find_member org user (touch_token now id s) = find_member org user s;
}.

#[export] Instance accounts_directory `{AccDriver} : Directory AccDB := {|
  find_user := GetUserByID;
  find_org := GetOrgBySlug;
  find_repo_of := GetRepoByOrgAndName;
  find_member := GetMembership;
  find_token := GetAPITokenByHash;
  find_key := GetSSHKeyByFingerprint;
  touch_token := UpdateAPITokenLastUsed;
  touch_key := UpdateSSHKeyLastUsed;
|}.

(** ** Tokens *)

Record Claims := mk_Claims {
  cl_UserID : string; cl_Email : string; cl_Orgs : list string; cl_Scopes : list string; cl_TokenID : string;
  cl_Audience : string }.

Definition claims_utf8 (c : Claims) : Prop :=
  Forall utf8 ([cl_UserID c; cl_Email c; cl_TokenID c; cl_Audience c] ++ cl_Orgs c ++ cl_Scopes c).

(** The JWT library with the key of the server: a signed token is accepted, and
    gives the claims back, until the second it expires; the encoding of a token
    starts with its header.  The claims are JSON, which keeps UTF-8 only. *)
Class TokenService := {
  jwt_sign : Claims → Z → string;
  jwt_parse : string → Z → option Claims;
  jwt_valid c e now : claims_utf8 c → now < e * 1000000000 → jwt_parse (jwt_sign c e) now = Some c;
  jwt_expired c e now : e * 1000000000 ≤ now → jwt_parse (jwt_sign c e) now = None;
  jwt_header c e : ∃ t, jwt_sign c e = "ey" +:+ t;
}.

Definition second : Z := 1000000000.
(** [jwt.NewNumericDate] drops the fraction of a second. *)
Definition unix (ns : Z) : Z := ns / second.

Definition HashToken (token : string) : string := string_of (hex_encode_bytes (Sum256 (bytes_of token))).
Definition IsPAT (token : string) : bool := has_prefix_b (bytes_of "klc_") (bytes_of token).
Definition ExtractBearerToken (authHeader : string) : string :=
  if decide (authHeader = "") then ""
  else match cut (bytes_of " ") (bytes_of authHeader) with
       | Some (scheme, token) => if decide (lower_ascii <$> scheme = bytes_of "bearer") then string_of token else ""
       | None => ""
       end.

Section tokens.
Context `{TokenService}.
Definition ValidateAccessToken (token : string) (now : Z) : option Claims := jwt_parse token now.
Definition GenerateAccessToken (ttl now : Z) (userID email : string) (orgs scopes : list string) : string :=
  jwt_sign (mk_Claims userID email orgs scopes "" "") (unix (now + ttl)).
Definition GenerateDownstreamToken (now : Z) (userID email org : string) (scopes : list string) : string :=
  jwt_sign (mk_Claims userID email [org] scopes "" "kailabd") (unix (now + 60 * second)).
End tokens.

(** ** Requests and handlers *)

(** A request with its values of the path pattern; [rq_Now] is the clock when
    it is handled, in nanoseconds. *)
Record Request := mk_Request {
  rq_Method : string; rq_Authorization : string; rq_Cookie : option string; rq_PathValue : gmap string string;
  rq_Now : Z }.
Definition PathValue (req : Request) (key : string) : string := default "" (rq_PathValue req !! key).

Record Ctx := mk_Ctx { cx_user : option User; cx_claims : option Claims; cx_org : option Org; cx_repo : option Repo }.
Definition Background : Ctx := mk_Ctx None None None None.
Definition with_user (u : User) (cl : Claims) (c : Ctx) := mk_Ctx (Some u) (Some cl) (cx_org c) (cx_repo c).
Definition with_org (o : Org) (c : Ctx) := mk_Ctx (cx_user c) (cx_claims c) (Some o) (cx_repo c).
Definition with_repo (r : Repo) (c : Ctx) := mk_Ctx (cx_user c) (cx_claims c) (cx_org c) (Some r).

(** An answer by [writeError]; a panic is answered by [withRecovery]. *)
Inductive http_error := HttpError (status : Z) (msg : string).
Definition or_status {A} (status : Z) (msg : string) (o : option A) : res http_error A :=
  match o with Some a => Ok a | None => Err (HttpError status msg) end.
(** [if err == db.ErrNotFound { ... }] in front of a 500. *)
Definition found_or {A} (status : Z) (msg failed : string) (r : res db_error A) : res http_error A :=
  map_err (λ e, match e with ErrNotFound => HttpError status msg | _ => HttpError 500 failed end) r.
Definition any_err {E A} (status : Z) (msg : string) (r : res E A) : res http_error A :=
  map_err (λ _, HttpError status msg) r.

Definition Handler (S A : Type) : Type := Request → Ctx → stM S http_error A.
Definition middleware (S A : Type) : Type := Handler S A → Handler S A.
Definition Chain {S A} (h : Handler S A) (middlewares : list (middleware S A)) : Handler S A :=
  foldr (λ m h, m h) h middlewares.

Definition isReadOnlyRequest (req : Request) : bool :=
  bool_decide (rq_Method req = "GET") || bool_decide (rq_Method req = "HEAD") || bool_decide (rq_Method req = "OPTIONS").
Definition isPublicRepoReadAllowed (repo : option Repo) : bool :=
  match repo with Some r => bool_decide (rp_Visibility r = "public") | None => false end.

(** The header first, then the cookie. *)
Definition request_token (req : Request) : string :=
  let token := ExtractBearerToken (rq_Authorization req) in
  if decide (token = "") then default "" (rq_Cookie req) else token.
Definition pat_claims (user : User) (t : APIToken) : Claims :=
  mk_Claims (us_ID user) (us_Email user) [] (Scopes t) (at_ID t) "".

Section access.
Context {S : Type} `{Directory S, TokenService}.

Definition authenticate (req : Request) (token : string) : stM S http_error (User * Claims) :=
  s ← gets (λ s, s);
  if IsPAT token then
    apiToken ← lift (any_err 401 "invalid token" (find_token (HashToken token) s));
    user ← lift (any_err 401 "invalid token" (find_user (at_UserID apiToken) s));
    _ ← modify (touch_token (unix (rq_Now req)) (at_ID apiToken));
    mret (user, pat_claims user apiToken)
  else
    claims ← lift (or_status 401 "invalid token" (ValidateAccessToken token (rq_Now req)));
    user ← lift (any_err 401 "user not found" (find_user (cl_UserID claims) s));
    mret (user, claims).
Definition WithAuth {A} (next : Handler S A) : Handler S A := λ req c,
  _ ← fail_if (bool_decide (request_token req = "")) (HttpError 401 "missing authorization");
  uc ← authenticate req (request_token req);
  next req (with_user uc.1 uc.2 c).

(** Errors are ignored; the fields of a user that is nil are read. *)
Definition nil_if_err {E A} (r : res E A) : option A := match r with Ok a => Some a | _ => None end.
Definition optional_user (req : Request) : stM S http_error (option User * option Claims) :=
  let token := request_token req in
  if decide (token = "") then mret (None, None)
  else
    s ← gets (λ s, s);
    if IsPAT token then
      match find_token (HashToken token) s with
      | Ok apiToken =>
        let user := nil_if_err (find_user (at_UserID apiToken) s) in
        _ ← modify (touch_token (unix (rq_Now req)) (at_ID apiToken));
        user ← lift (or_panic user);
        mret (Some user, Some (pat_claims user apiToken))
      | _ => mret (None, None)
      end
    else
      match ValidateAccessToken token (rq_Now req) with
      | Some claims => mret (nil_if_err (find_user (cl_UserID claims) s), Some claims)
      | None => mret (None, None)
      end.
Definition WithOptionalAuth {A} (next : Handler S A) : Handler S A := λ req c,
  uc ← optional_user req;
  match uc with
  | (Some user, claims) => next req (mk_Ctx (Some user) claims (cx_org c) (cx_repo c))
  | (None, _) => next req c
  end.

Definition WithOrg {A} (next : Handler S A) : Handler S A := λ req c,
  _ ← fail_if (bool_decide (PathValue req "org" = "")) (HttpError 400 "org required");
  s ← gets (λ s, s);
  org ← lift (found_or 404 "org not found" "failed to get org" (find_org (PathValue req "org") s));
  next req (with_org org c).
Definition WithRepo {A} (next : Handler S A) : Handler S A := λ req c,
  org ← lift (or_status 500 "org not in context" (cx_org c));
  _ ← fail_if (bool_decide (PathValue req "repo" = "")) (HttpError 400 "repo required");
  s ← gets (λ s, s);
  repo ← lift (found_or 404 "repo not found" "failed to get repo" (find_repo_of (og_ID org) (PathValue req "repo") s));
  next req (with_repo repo c).

(** The part the two membership guards share. *)
Definition require_role (minRole : string) (user : User) (org : option Org) : stM S http_error () :=
  org ← lift (or_status 500 "org not in context" org);
  s ← gets (λ s, s);
  membership ← lift (found_or 403 "not a member of this org" "failed to check membership"
                       (find_member (og_ID org) (us_ID user) s));
  fail_if (negb (HasAtLeastRole (mb_Role membership) minRole)) (HttpError 403 "insufficient permissions").
Definition RequireMembership {A} (minRole : string) (next : Handler S A) : Handler S A := λ req c,
  user ← lift (or_status 401 "authentication required" (cx_user c));
  _ ← require_role minRole user (cx_org c);
  next req c.
Definition RequirePublicRepoOrMembership {A} (minRole : string) (next : Handler S A) : Handler S A := λ req c,
  match cx_user c with
  | None =>
    if isReadOnlyRequest req && isPublicRepoReadAllowed (cx_repo c) then next req c
    else lift (Err (HttpError 401 "authentication required"))
  | Some user => _ ← require_role minRole user (cx_org c); next req c
  end.
Definition RequireScope {A} (scope : string) (next : Handler S A) : Handler S A := λ req c,
  claims ← lift (or_status 401 "authentication required" (cx_claims c));
  _ ← fail_if (negb (HasScope (cl_Scopes claims) scope)) (HttpError 403 "missing required scope");
  next req c.
End access.

(** ** The routes *)

Inductive guard :=
| GAuth
| GOptionalAuth
| GOrg
| GRepo
| GMember (minRole : string)
| GPublicOrMember (minRole : string).
Definition run_guard {S A} `{Directory S, TokenService} (g : guard) : middleware S A :=
  match g with
  | GAuth => WithAuth
  | GOptionalAuth => WithOptionalAuth
  | GOrg => WithOrg
  | GRepo => WithRepo
  | GMember minRole => RequireMembership minRole
  | GPublicOrMember minRole => RequirePublicRepoOrMembership minRole
  end.

Record route := mk_route { rt_method : string; rt_path : string; rt_handler : string; rt_guards : list guard }.
Definition in_org (minRole : string) : list guard := [GAuth; GOrg; GMember minRole].
Definition in_repo (minRole : string) : list guard := [GAuth; GOrg; GMember minRole; GRepo].

(** The table of [NewRouter]; an empty method is any method. *)
Definition NewRouter : list route := [
  mk_route "" "/{org}/{repo}/v1/" "ProxyHandler" [];
  mk_route "GET" "/health" "Health" [];
  mk_route "GET" "/healthz" "Health" [];
  mk_route "GET" "/readyz" "Ready" [];
  mk_route "GET" "/install.sh" "InstallScript" [];
  mk_route "GET" "/.well-known/jwks.json" "JWKS" [];
  mk_route "POST" "/api/v1/signups" "SubmitSignup" [];
  mk_route "GET" "/api/v1/signups" "ListSignups" [GAuth];
  mk_route "PATCH" "/api/v1/signups/{id}" "UpdateSignup" [GAuth];
  mk_route "GET" "/api/v1/admin/ci-requests" "ListCIRequests" [GAuth];
  mk_route "POST" "/api/v1/admin/ci-access" "SetUserCIAccess" [GAuth];
  mk_route "POST" "/api/v1/ci/request-access" "RequestCIAccess" [GAuth];
  mk_route "POST" "/api/v1/auth/magic-link" "SendMagicLink" [];
  mk_route "POST" "/api/v1/auth/token" "ExchangeToken" [];
  mk_route "POST" "/api/v1/auth/refresh" "RefreshToken" [];
  mk_route "POST" "/api/v1/auth/logout" "Logout" [GAuth];
  mk_route "GET" "/api/v1/me" "GetMe" [GAuth];
  mk_route "POST" "/api/v1/orgs" "CreateOrg" [GAuth];
  mk_route "GET" "/api/v1/orgs" "ListOrgs" [GAuth];
  mk_route "GET" "/api/v1/orgs/{org}" "GetOrg" [GOptionalAuth; GOrg];
  mk_route "GET" "/api/v1/orgs/{org}/members" "ListMembers" (in_org "reporter");
  mk_route "POST" "/api/v1/orgs/{org}/members" "AddMember" (in_org "admin");
  mk_route "DELETE" "/api/v1/orgs/{org}/members/{user_id}" "RemoveMember" (in_org "admin");
  mk_route "GET" "/api/v1/orgs/{org}/members/search" "SearchMembers" (in_org "reporter");
  mk_route "GET" "/api/v1/orgs/{org}/repos" "ListRepos" (in_org "reporter");
  mk_route "POST" "/api/v1/orgs/{org}/repos" "CreateRepo" (in_org "developer");
  mk_route "GET" "/api/v1/orgs/{org}/repos/{repo}" "GetRepo" [GOptionalAuth; GOrg; GRepo; GPublicOrMember "reporter"];
  mk_route "PATCH" "/api/v1/orgs/{org}/repos/{repo}" "UpdateRepo" (in_repo "admin");
  mk_route "DELETE" "/api/v1/orgs/{org}/repos/{repo}" "DeleteRepo" (in_repo "admin");
  mk_route "GET" "/api/v1/tokens" "ListTokens" [GAuth];
  mk_route "POST" "/api/v1/tokens" "CreateToken" [GAuth];
  mk_route "DELETE" "/api/v1/tokens/{id}" "DeleteToken" [GAuth];
  mk_route "GET" "/api/v1/me/ssh-keys" "ListSSHKeys" [GAuth];
  mk_route "POST" "/api/v1/me/ssh-keys" "CreateSSHKey" [GAuth];
  mk_route "DELETE" "/api/v1/me/ssh-keys/{id}" "DeleteSSHKey" [GAuth];
  mk_route "GET" "/api/v1/orgs/{org}/repos/{repo}/webhooks" "ListWebhooks" [GAuth];
  mk_route "POST" "/api/v1/orgs/{org}/repos/{repo}/webhooks" "CreateWebhook" [GAuth];
  mk_route "PATCH" "/api/v1/orgs/{org}/repos/{repo}/webhooks/{webhook_id}" "UpdateWebhook" [GAuth];
  mk_route "DELETE" "/api/v1/orgs/{org}/repos/{repo}/webhooks/{webhook_id}" "DeleteWebhook" [GAuth];
  mk_route "GET" "/api/v1/orgs/{org}/repos/{repo}/webhooks/{webhook_id}/deliveries" "ListWebhookDeliveries" [GAuth];
  mk_route "GET" "/api/v1/orgs/{org}/repos/{repo}/workflows" "ListWorkflows" (in_repo "reporter");
  mk_route "POST" "/api/v1/orgs/{org}/repos/{repo}/workflows/sync" "SyncWorkflows" (in_repo "maintainer");
  mk_route "POST" "/api/v1/orgs/{org}/repos/{repo}/workflows/discover" "DiscoverWorkflows" (in_repo "reporter");
  mk_route "POST" "/api/v1/orgs/{org}/repos/{repo}/workflows/{workflow_id}/dispatch" "DispatchWorkflow" (in_repo "developer");
  mk_route "GET" "/api/v1/orgs/{org}/repos/{repo}/runs" "ListWorkflowRuns" (in_repo "reporter");
  mk_route "GET" "/api/v1/orgs/{org}/repos/{repo}/runs/events" "WorkflowRunEvents" (in_repo "reporter");
  mk_route "GET" "/api/v1/orgs/{org}/repos/{repo}/runs/{run_id}" "GetWorkflowRun" (in_repo "reporter");
  mk_route "POST" "/api/v1/orgs/{org}/repos/{repo}/runs/{run_id}/cancel" "CancelWorkflowRun" (in_repo "developer");
  mk_route "POST" "/api/v1/orgs/{org}/repos/{repo}/runs/{run_id}/rerun" "RerunWorkflowRun" (in_repo "developer");
  mk_route "GET" "/api/v1/orgs/{org}/repos/{repo}/runs/{run_id}/jobs" "ListJobs" (in_repo "reporter");
  mk_route "GET" "/api/v1/orgs/{org}/repos/{repo}/runs/{run_id}/jobs/{job_id}/logs" "GetJobLogs" (in_repo "reporter");
  mk_route "GET" "/api/v1/orgs/{org}/repos/{repo}/runs/{run_id}/artifacts" "ListArtifacts" (in_repo "reporter");
  mk_route "GET" "/api/v1/orgs/{org}/repos/{repo}/secrets" "ListSecrets" (in_repo "maintainer");
  mk_route "PUT" "/api/v1/orgs/{org}/repos/{repo}/secrets/{secret_name}" "SetSecret" (in_repo "maintainer");
  mk_route "DELETE" "/api/v1/orgs/{org}/repos/{repo}/secrets/{secret_name}" "DeleteSecret" (in_repo "maintainer");
  mk_route "GET" "/api/v1/orgs/{org}/repos/{repo}/variables" "ListVariables" (in_repo "reporter");
  mk_route "PUT" "/api/v1/orgs/{org}/repos/{repo}/variables/{var_name}" "SetVariable" (in_repo "maintainer");
  mk_route "DELETE" "/api/v1/orgs/{org}/repos/{repo}/variables/{var_name}" "DeleteVariable" (in_repo "maintainer");
  mk_route "POST" "/-/ssh/verify" "VerifySSHKey" [];
  mk_route "POST" "/-/webhooks/trigger" "TriggerWebhooks" [];
  mk_route "POST" "/-/notify/comment" "NotifyComment" [];
  mk_route "POST" "/-/notify/review" "NotifyReview" [];
  mk_route "POST" "/-/notify/pipeline" "NotifyPipeline" [];
  mk_route "POST" "/-/notify/request-changes" "NotifyRequestChanges" [];
  mk_route "POST" "/-/notify/review-state" "NotifyReviewState" [];
  mk_route "POST" "/-/ci/trigger" "TriggerCI" [];
  mk_route "POST" "/v1/telemetry/batch" "IngestTelemetry" [];
  mk_route "POST" "/-/ci/runners/register" "RegisterRunner" [];
  mk_route "POST" "/-/ci/runners/claim" "ClaimJob" [];
  mk_route "POST" "/-/ci/jobs/start" "StartJob" [];
  mk_route "POST" "/-/ci/jobs/logs" "AppendLogs" [];
  mk_route "POST" "/-/ci/jobs/step-complete" "CompleteStep" [];
  mk_route "POST" "/-/ci/jobs/complete" "CompleteJob" [];
  mk_route "POST" "/-/ci/jobs/heartbeat" "Heartbeat" [];
  mk_route "POST" "/-/ci/bootstrap-workflow" "BootstrapWorkflow" []
].

(** A handler behind the guards of its route. *)
Definition serve {S A} `{Directory S, TokenService} (r : route) (h : Handler S A) (req : Request) : stM S http_error A :=
  Chain h (run_guard <$> rt_guards r) req Background.

(** ** The proxy *)

(** What is forwarded: where to, with which token and for whom. *)
Record Forwarded := mk_Forwarded { fw_URL : string; fw_Token : option string; fw_Actor : string }.

Section decisions.
Context {S : Type} `{Directory S, TokenService}.

Definition proxy_member (req : Request) (isPublic : bool) (org : Org) (user : User) (claims : option Claims)
  : stM S http_error () :=
  let isReadOnly := isReadOnlyRequest req in
  s ← gets (λ s, s);
  membership ← lift (match find_member (og_ID org) (us_ID user) s with
                     | Ok m => Ok (Some m)
                     | Err ErrNotFound =>
                       if negb isPublic || negb isReadOnly then Err (HttpError 403 "not a member of this org") else Ok None
                     | Err _ => Ok None
                     | Panic => Panic
                     end);
  _ ← match membership with
      | Some m => fail_if (negb (HasAtLeastRole (mb_Role m) (if isReadOnly then RoleReporter else RoleDeveloper)))
                    (HttpError 403 "insufficient permissions")
      | None => mret ()
      end;
  match claims with
  | Some cl => fail_if (negb (HasScope (cl_Scopes cl) (if isReadOnly then ScopeRepoRead else ScopeRepoWrite)))
                 (HttpError 403 "missing scope")
  | None => mret ()
  end.
Definition proxy_check (req : Request) (org : Org) (repo : Repo) (uc : option User * option Claims) : stM S http_error () :=
  let isPublic := bool_decide (rp_Visibility repo = "public") in
  match uc.1 with
  | None => fail_if (negb isPublic || negb (isReadOnlyRequest req)) (HttpError 401 "authentication required")
  | Some user => proxy_member req isPublic org user uc.2
  end.
(** [url_ok] is [url.Parse], [shards] the picker of shards. *)
Definition proxy_forward (shards : ShardPicker) (url_ok : string → bool) (req : Request) (repo : Repo) (user : option User)
  : stM S http_error Forwarded :=
  let shardURL := GetShardURL (rp_ShardHint repo) shards in
  _ ← fail_if (bool_decide (shardURL = "")) (HttpError 500 "shard not available");
  let downstream := (λ u, GenerateDownstreamToken (rq_Now req) (us_ID u) (us_Email u) (PathValue req "org")
                       (if isReadOnlyRequest req then [ScopeRepoRead] else [ScopeRepoRead; ScopeRepoWrite])) <$> user in
  _ ← fail_if (negb (url_ok shardURL)) (HttpError 500 "invalid shard URL");
  mret (mk_Forwarded shardURL downstream (match user with Some u => us_Email u | None => "anonymous" end)).
Definition ProxyHandler (shards : ShardPicker) (url_ok : string → bool) (req : Request) : stM S http_error Forwarded :=
  let orgSlug := PathValue req "org" in
  let repoName := PathValue req "repo" in
  _ ← fail_if (bool_decide (orgSlug = "") || bool_decide (repoName = "")) (HttpError 400 "org and repo required");
  s ← gets (λ s, s);
  org ← lift (found_or 404 "org not found" "failed to get org" (find_org orgSlug s));
  repo ← lift (found_or 404 "repo not found" "failed to get repo" (find_repo_of (og_ID org) repoName s));
  uc ← optional_user req;
  _ ← proxy_check req org repo uc;
  proxy_forward shards url_ok req repo uc.1.

(** ** SSH *)

Definition roleToPermission (role : string) : string :=
  if bool_decide (role = RoleOwner) || bool_decide (role = RoleAdmin) then "admin"
  else if bool_decide (role = RoleMaintainer) || bool_decide (role = RoleDeveloper) then "write"
  else "read".

Inductive SSHVerifyResponse :=
| Denied (reason : string)
| Allowed (userID email permission : string).

(** "internal error" for every error but a missing row. *)
Definition denied_or {A} (reason : string) (r : res db_error A) (k : A → res http_error SSHVerifyResponse)
  : res http_error SSHVerifyResponse :=
  match r with
  | Ok a => k a
  | Err ErrNotFound => Ok (Denied reason)
  | Err _ => Ok (Denied "internal error")
  | Panic => Panic
  end.
Definition repo_permission (repo : string) (user : User) (s : S) : res http_error SSHVerifyResponse :=
  let repoPath := trim_suffix (bytes_of ".git") (bytes_of repo) in
  match cut (bytes_of "/") repoPath with
  | None => Ok (Denied "invalid repo format")
  | Some (orgSlug, repoName) =>
    denied_or "org not found" (find_org (string_of orgSlug) s) (λ org,
    denied_or "repo not found" (find_repo_of (og_ID org) (string_of repoName) s) (λ repo,
    match find_member (og_ID org) (us_ID user) s with
    | Ok membership => Ok (Allowed (us_ID user) (us_Email user) (roleToPermission (mb_Role membership)))
    | Err ErrNotFound =>
      if decide (rp_Visibility repo = "public") then Ok (Allowed (us_ID user) (us_Email user) "read")
      else Ok (Denied "not a member of this org")
    | Err _ => Ok (Denied "internal error")
    | Panic => Panic
    end))
  end.
Definition VerifySSHKey (now : Z) (fingerprint repo : string) : stM S http_error SSHVerifyResponse :=
  if decide (fingerprint = "") then mret (Denied "fingerprint required")
  else
    s ← gets (λ s, s);
    match find_key fingerprint s with
    | Ok key =>
      match find_user (sk_UserID key) s with
      | Ok user =>
        _ ← modify (touch_key (unix now) (sk_ID key));
        s ← gets (λ s, s);
        if decide (repo = "") then mret (Allowed (us_ID user) (us_Email user) "write")
        else lift (repo_permission repo user s)
      | Err _ => mret (Denied "user not found")
      | Panic => lift Panic
      end
    | Err ErrNotFound => mret (Denied "unknown key")
    | Err _ => mret (Denied "internal error")
    | Panic => lift Panic
    end.
End decisions.

(** ** The tables answer the queries *)

#[export] Instance accounts_ok `{AccDriver} : DirectoryOk AccDB.
Proof.
  constructor; cbn; try done.
  - intros slug d o [_ E%bool_decide_eq_true]%find_row_sound. exact E.
  - intros o n d r [_ E]%find_row_sound. unfold named in E. by apply andb_true_iff in E as [?%bool_decide_eq_true ?%bool_decide_eq_true].
  - intros o u d m. unfold GetMembership. destruct (ac_members d !! (o, u)); [|done]. by intros [= <-].
Qed.
