(* ===== verification/AccountsApi.v ===== *)
(** * The account handlers (kailab-control: api/auth.go, api/orgs.go, api/repos.go, api/signups.go, api/ssh_keys.go)

    Logging in by mail, sessions and access tokens, organisations and their
    members, repositories, personal access tokens, SSH keys and signups: what
    each handler does to the tables, from the decoded body of its request and
    the context its guards have filled in.

    New identifiers and tokens, the clock in nanoseconds, and whether a mail was
    accepted are arguments.  The calls to the data plane, whose errors are only
    logged, and the notification mails are left out. *)

From S2P Require Import Prelude Json GoStrings Sha256 CiStore Accounts Routing Access.
Local Open Scope Z_scope.

Record Config := mk_Config {
  cfg_AccessTokenTTL : Z; cfg_RefreshTokenTTL : Z; cfg_MagicLinkTTL : Z; cfg_AdminEmail : string }.

Abbreviation apiM := (stM AccDB http_error).
(** A call whose errors are all answered alike. *)
Definition on_db {A} (status : Z) (msg : string) (m : accM A) : apiM A := λ d,
  let '(d, r) := m d in (d, any_err status msg r).

(** ** Slugs *)

Definition is_lower_or_digit (c : Z) : bool := ((97 <=? c) && (c <=? 122)) || ((48 <=? c) && (c <=? 57)).
Definition is_special (c : Z) : bool := (c =? 95) || (c =? 45) || (c =? 46).
(** The loop over the runes; the first byte of a rune that is not ASCII ends it. *)
Fixpoint slug_chars (i len : Z) (s : bytes) : bool :=
  match s with
  | [] => true
  | b :: s =>
    let c := int_of_byte b in
    if is_lower_or_digit c then slug_chars (i + 1) len s
    else if is_special c then (if (i =? 0) || (i =? len - 1) then false else slug_chars (i + 1) len s)
    else false
  end.
Definition ValidateSlug (slug : string) : bool :=
  let s := bytes_of slug in
  if (zlen s <? 1) || (63 <? zlen s) then false else slug_chars 0 (zlen s) s.
Definition NormalizeSlug `{Unicode} (slug : string) : string := string_of (ToLower (bytes_of slug)).

Section api.
Context `{AccDriver, TokenService, Unicode}.
Variable cfg : Config.

(** ** Logging in *)

Definition SendMagicLink (now : Z) (delivered : bool) (linkID token email : string) : apiM string :=
  _ ← fail_if (bool_decide (email = "")) (HttpError 400 "email required");
  d ← gets (λ d, d);
  _ ← match GetUserByEmail email d with
      | Ok _ => mret ()
      | Err _ =>
        match GetSignupByEmail email d with
        | Ok signup => fail_if (negb (bool_decide (su_Status signup = "approved"))) (HttpError 403 "please request early access first")
        | Err _ => lift (Err (HttpError 403 "please request early access first"))
        | Panic => lift Panic
        end
      | Panic => lift Panic
      end;
  _ ← on_db 500 "failed to create magic link" (CreateMagicLink linkID email (HashToken token) (unix (now + cfg_MagicLinkTTL cfg)));
  _ ← fail_if (negb delivered) (HttpError 500 "failed to send email");
  mret token.

(** [time.Now().After(t)] for a time of a row. *)
Definition after (now sec : Z) : bool := sec * second <? now.
Definition slugs_of (orgs : list (Org * string)) : list string := og_Slug ∘ fst <$> orgs.
Definition session_scopes : list string := ["repo:read"; "repo:write"; "org:read"; "org:write"].
Definition access_token (now : Z) (user : User) (d : AccDB) : string :=
  GenerateAccessToken (cfg_AccessTokenTTL cfg) now (us_ID user) (us_Email user) (slugs_of (ListUserOrgs (us_ID user) d))
    session_scopes.

(** [ExchangeToken] reads the link, and then uses it. *)
Definition check_link (now : Z) (magicToken : string) (d : AccDB) : res http_error MagicLink :=
  _ ← guard_err (bool_decide (magicToken = "")) (HttpError 400 "magic_token required");
  link ← found_or 401 "invalid or expired token" "failed to verify token" (GetMagicLink (HashToken magicToken) d);
  _ ← guard_err (after now (ml_ExpiresAt link)) (HttpError 401 "token expired");
  _ ← guard_err (bool_decide (is_Some (ml_UsedAt link))) (HttpError 401 "token already used");
  Ok link.
Definition redeem_link (now : Z) (userID sessionID refreshToken : string) (link : MagicLink) : apiM (string * string) :=
  _ ← on_db 500 "failed to use token" (UseMagicLink (unix now) (ml_ID link));
  uc ← on_db 500 "failed to get/create user" (GetOrCreateUser userID (ml_Email link) "");
  let user := uc.1 in
  _ ← on_db 500 "" (UpdateLastLogin (unix now) (us_ID user));
  d ← gets (λ d, d);
  let accessToken := access_token now user d in
  _ ← on_db 500 "failed to create session" (CreateSession sessionID (us_ID user) (HashToken refreshToken)
        (unix (now + cfg_RefreshTokenTTL cfg)));
  mret (accessToken, refreshToken).
Definition ExchangeToken (now : Z) (userID sessionID refreshToken magicToken : string) : apiM (string * string) :=
  d ← gets (λ d, d);
  link ← lift (check_link now magicToken d);
  redeem_link now userID sessionID refreshToken link.

(** The token is the one of the cookie, or of the body. *)
Definition RefreshToken (now : Z) (refreshToken : string) : apiM string :=
  _ ← fail_if (bool_decide (refreshToken = "")) (HttpError 400 "refresh_token required");
  d ← gets (λ d, d);
  session ← lift (found_or 401 "invalid refresh token" "failed to verify token" (GetSessionByRefreshHash (HashToken refreshToken) d));
  if after now (se_ExpiresAt session) then
    _ ← on_db 500 "" (DeleteSession (se_ID session));
    lift (Err (HttpError 401 "refresh token expired"))
  else
    user ← lift (any_err 401 "user not found" (GetUserByID (se_UserID session) d));
    mret (access_token now user d).

Definition Logout (user : User) : apiM () := on_db 500 "failed to logout" (DeleteUserSessions (us_ID user)).

(** ** Personal access tokens *)

Definition CreateToken (tokenID token : string) (user : User) (name orgID : string) (scopes : list string) : apiM APIToken :=
  _ ← fail_if (bool_decide (name = "")) (HttpError 400 "name required");
  let scopes := match scopes with [] => ["repo:read"; "repo:write"] | _ => scopes end in
  on_db 500 "failed to create token" (CreateAPIToken tokenID (us_ID user) orgID name (HashToken token) scopes).
Definition DeleteToken (user : User) (tokenID : string) : apiM () :=
  _ ← fail_if (bool_decide (tokenID = "")) (HttpError 400 "invalid token id");
  d ← gets (λ d, d);
  token ← lift (found_or 404 "token not found" "failed to get token" (GetAPIToken tokenID d));
  _ ← fail_if (negb (bool_decide (at_UserID token = us_ID user))) (HttpError 403 "not your token");
  on_db 500 "failed to delete token" (DeleteAPIToken tokenID).

(** ** Organisations and members *)

Definition CreateOrg (orgID : string) (user : User) (slug name : string) : apiM Org :=
  let slug := NormalizeSlug slug in
  _ ← fail_if (negb (ValidateSlug slug)) (HttpError 400 "invalid slug");
  let name := if decide (name = "") then slug else name in
  org ← on_db 500 "failed to create org" (Accounts.CreateOrg orgID slug name (us_ID user));
  _ ← WriteAudit (Some (og_ID org)) (Some (us_ID user)) "org.create" "org" (og_ID org);
  mret org.

Definition AddMember (userID : string) (actor : User) (org : Org) (email role : string) : apiM User :=
  _ ← fail_if (bool_decide (email = "")) (HttpError 400 "email required");
  _ ← fail_if (bool_decide (RoleHierarchy !! role = None)) (HttpError 400 "invalid role");
  uc ← on_db 500 "failed to get/create user" (GetOrCreateUser userID email "");
  _ ← on_db 500 "failed to add member" (Accounts.AddMember (og_ID org) (us_ID uc.1) role);
  _ ← WriteAudit (Some (og_ID org)) (Some (us_ID actor)) "member.add" "user" (us_ID uc.1);
  mret uc.1.
Definition RemoveMember (actor : User) (org : Org) (userID : string) : apiM () :=
  _ ← fail_if (bool_decide (userID = "")) (HttpError 400 "invalid user_id");
  _ ← fail_if (bool_decide (userID = og_OwnerID org)) (HttpError 400 "cannot remove the owner");
  _ ← on_db 500 "failed to remove member" (Accounts.RemoveMember (og_ID org) userID);
  WriteAudit (Some (og_ID org)) (Some (us_ID actor)) "member.remove" "user" userID.

(** ** Repositories *)

Definition CreateRepo (shards : ShardPicker) (repoID : string) (user : User) (org : Org) (name visibility : string)
  : apiM Repo :=
  let name := NormalizeSlug name in
  _ ← fail_if (negb (ValidateSlug name)) (HttpError 400 "invalid repo name");
  let visibility := if decide (visibility = "") then "private" else visibility in
  _ ← fail_if (bool_decide (visibility ∉ visibilities)) (HttpError 400 "invalid visibility");
  shardHint ← lift (PickShardByHash (og_ID org) shards);
  repo ← on_db 500 "failed to create repo" (Accounts.CreateRepo repoID (og_ID org) name visibility shardHint (us_ID user));
  _ ← WriteAudit (Some (og_ID org)) (Some (us_ID user)) "repo.create" "repo" (rp_ID repo);
  mret repo.
Definition UpdateRepo (user : User) (org : Org) (repo : Repo) (name visibility : string) : apiM Repo :=
  name ← (if decide (name = "") then mret (rp_Name repo)
          else _ ← fail_if (negb (ValidateSlug (NormalizeSlug name))) (HttpError 400 "invalid repo name");
               mret (NormalizeSlug name));
  visibility ← (if decide (visibility = "") then mret (rp_Visibility repo)
                else _ ← fail_if (bool_decide (visibility ∉ visibilities)) (HttpError 400 "invalid visibility");
                     mret visibility);
  updated ← on_db 500 "failed to update repo" (Accounts.UpdateRepo (rp_ID repo) name visibility);
  _ ← WriteAudit (Some (og_ID org)) (Some (us_ID user)) "repo.update" "repo" (rp_ID repo);
  mret updated.
Definition DeleteRepo (user : User) (org : Org) (repo : Repo) : apiM () :=
  _ ← on_db 500 "failed to delete repo" (Accounts.DeleteRepo (rp_ID repo));
  WriteAudit (Some (og_ID org)) (Some (us_ID user)) "repo.delete" "repo" (rp_ID repo).

(** ** SSH keys *)

(** [base64.RawStdEncoding]: the standard encoding without padding. *)
Definition base64_raw (s : bytes) : bytes := List.filter (λ b, negb (bool_decide (b = pad))) (b64_encode s).
Definition computeFingerprint (pubKey : bytes) : string := "SHA256:" +:+ string_of (base64_raw (Sum256 pubKey)).

(** [parse_key] is [ssh.ParseAuthorizedKey]: the wire form of the key. *)
Definition CreateSSHKey (parse_key : bytes → option bytes) (keyID : string) (user : User) (name publicKey : string)
  : apiM SSHKey :=
  _ ← fail_if (bool_decide (name = "")) (HttpError 400 "name is required");
  _ ← fail_if (bool_decide (publicKey = "")) (HttpError 400 "public_key is required");
  pubKey ← lift (or_status 400 "invalid SSH public key" (parse_key (bytes_of publicKey)));
  let normalizedKey := string_of (TrimSpace (bytes_of publicKey)) in
  key ← (λ d, let '(d, r) := Accounts.CreateSSHKey keyID (us_ID user) name (computeFingerprint pubKey) normalizedKey d in
              (d, map_err (λ e, match e with
                                | ErrConstraint what =>
                                  if decide (what = "ssh_keys.user_id") then HttpError 500 "failed to create SSH key"
                                  else HttpError 409 "SSH key already exists"
                                | _ => HttpError 500 "failed to create SSH key"
                                end) r));
  _ ← WriteAudit None (Some (us_ID user)) "ssh_key.create" "ssh_key" (sk_ID key);
  mret key.
Definition DeleteSSHKey (user : User) (keyID : string) : apiM () :=
  _ ← fail_if (bool_decide (keyID = "")) (HttpError 400 "key id required");
  d ← gets (λ d, d);
  key ← lift (found_or 404 "SSH key not found" "failed to get SSH key" (GetSSHKeyByID keyID d));
  _ ← fail_if (negb (bool_decide (sk_UserID key = us_ID user))) (HttpError 403 "not authorized to delete this key");
  _ ← on_db 500 "failed to delete SSH key" (Accounts.DeleteSSHKey keyID);
  WriteAudit None (Some (us_ID user)) "ssh_key.delete" "ssh_key" keyID.

(** ** Signups and access to CI *)

Definition SubmitSignup (signupID name email : string) : apiM Signup :=
  _ ← fail_if (bool_decide (name = "")) (HttpError 400 "name required");
  _ ← fail_if (bool_decide (email = "")) (HttpError 400 "email required");
  on_db 500 "failed to create signup" (CreateSignup signupID name email).
Definition require_admin (user : User) : apiM () :=
  fail_if (negb (bool_decide (us_Email user = cfg_AdminEmail cfg))) (HttpError 403 "admin access required").
Definition signup_statuses : list string := ["pending_review"; "approved"; "rejected"; "contacted"].
Definition UpdateSignup (now : Z) (user : User) (id status notes : string) : apiM () :=
  _ ← require_admin user;
  _ ← fail_if (bool_decide (id = "")) (HttpError 400 "id required");
  _ ← fail_if (bool_decide (status ∉ signup_statuses)) (HttpError 400 "invalid status");
  d ← gets (λ d, d);
  _ ← lift (any_err 404 "signup not found" (GetSignupByID id d));
  on_db 500 "failed to update signup" (UpdateSignupStatus (unix now) id status notes).
Definition SetUserCIAccess (user : User) (userID email : string) (ciAccess : bool) : apiM () :=
  _ ← require_admin user;
  d ← gets (λ d, d);
  targetID ← (if decide (userID = "") then
                if decide (email = "") then mret ""
                else u ← lift (any_err 404 "user not found" (GetUserByEmail email d)); mret (us_ID u)
              else mret userID);
  _ ← fail_if (bool_decide (targetID = "")) (HttpError 400 "user_id or email required");
  on_db 500 "failed to update CI access" (UpdateUserCIAccess targetID ciAccess).
Definition RequestCIAccess (user : User) : apiM string :=
  if us_CIAccess user then mret "already_granted"
  else if us_CIRequested user then mret "already_requested"
  else _ ← on_db 500 "failed to request CI access" (Accounts.RequestCIAccess (us_ID user)); mret "requested".

(** ** Behind the guards

    The handlers above take what they read from the context; a handler that is
    called without it answers 401 or 500. *)
Definition for_user {A} (h : User → apiM A) : Handler AccDB A := λ _ c,
  match cx_user c with Some u => h u | None => lift (Err (HttpError 401 "not authenticated")) end.
Definition for_org {A} (h : User → Org → apiM A) : Handler AccDB A := λ _ c,
  match cx_user c, cx_org c with
  | Some u, Some o => h u o
  | _, _ => lift (Err (HttpError 500 "missing context"))
  end.
Definition for_repo {A} (h : User → Org → Repo → apiM A) : Handler AccDB A := λ _ c,
  match cx_user c, cx_org c, cx_repo c with
  | Some u, Some o, Some r => h u o r
  | _, _, _ => lift (Err (HttpError 500 "missing context"))
  end.
End api.

(** ** The API

    The requests that can change the account tables, each behind the guards of
    its route, and the clean-up of the server's background loop. *)
Inductive call :=
| CallSendMagicLink (now : Z) (delivered : bool) (linkID token email : string)
| CallExchangeToken (now : Z) (userID sessionID refreshToken magicToken : string)
| CallRefreshToken (now : Z) (refreshToken : string)
| CallLogout (req : Request)
| CallCreateToken (req : Request) (tokenID token name orgID : string) (scopes : list string)
| CallDeleteToken (req : Request)
| CallCreateOrg (req : Request) (orgID slug name : string)
| CallAddMember (req : Request) (userID email role : string)
| CallRemoveMember (req : Request)
| CallCreateRepo (req : Request) (repoID name visibility : string)
| CallUpdateRepo (req : Request) (name visibility : string)
| CallDeleteRepo (req : Request)
| CallGetRepo (req : Request)
| CallCreateSSHKey (req : Request) (keyID name publicKey : string)
| CallDeleteSSHKey (req : Request)
| CallSubmitSignup (signupID name email : string)
| CallUpdateSignup (req : Request) (status notes : string)
| CallSetUserCIAccess (req : Request) (userID email : string) (ciAccess : bool)
| CallRequestCIAccess (req : Request)
| CallProxy (req : Request)
| CallVerifySSHKey (now : Z) (fingerprint repo : string)
| CallCleanup (now : Z).

Definition route_named (handler : string) : route :=
  default (mk_route "" "" "" []) (List.find (λ r, bool_decide (rt_handler r = handler)) NewRouter).

Section perform.
Context `{AccDriver, TokenService, Unicode}.
Variables (cfg : Config) (shards : ShardPicker) (url_ok : string → bool) (parse_key : bytes → option bytes).

Definition at_route {A} (handler : string) (h : Handler AccDB A) (req : Request) (d : AccDB) : AccDB :=
  (serve (route_named handler) h req d).1.
Definition perform (c : call) (d : AccDB) : AccDB :=
  match c with
  | CallSendMagicLink now delivered linkID token email => (SendMagicLink cfg now delivered linkID token email d).1
  | CallExchangeToken now userID sessionID refreshToken magicToken => (ExchangeToken cfg now userID sessionID refreshToken magicToken d).1
  | CallRefreshToken now refreshToken => (RefreshToken cfg now refreshToken d).1
  | CallLogout req => at_route "Logout" (for_user Logout) req d
  | CallCreateToken req tokenID token name orgID scopes =>
    at_route "CreateToken" (for_user (λ u, CreateToken tokenID token u name orgID scopes)) req d
  | CallDeleteToken req => at_route "DeleteToken" (for_user (λ u, DeleteToken u (PathValue req "id"))) req d
  | CallCreateOrg req orgID slug name => at_route "CreateOrg" (for_user (λ u, CreateOrg orgID u slug name)) req d
  | CallAddMember req userID email role => at_route "AddMember" (for_org (λ u o, AddMember userID u o email role)) req d
  | CallRemoveMember req => at_route "RemoveMember" (for_org (λ u o, RemoveMember u o (PathValue req "user_id"))) req d
  | CallCreateRepo req repoID name visibility =>
    at_route "CreateRepo" (for_org (λ u o, CreateRepo shards repoID u o name visibility)) req d
  | CallUpdateRepo req name visibility => at_route "UpdateRepo" (for_repo (λ u o r, UpdateRepo u o r name visibility)) req d
  | CallDeleteRepo req => at_route "DeleteRepo" (for_repo DeleteRepo) req d
  | CallGetRepo req => at_route "GetRepo" (λ _ c, mret (cx_repo c)) req d
  | CallCreateSSHKey req keyID name publicKey =>
    at_route "CreateSSHKey" (for_user (λ u, CreateSSHKey parse_key keyID u name publicKey)) req d
  | CallDeleteSSHKey req => at_route "DeleteSSHKey" (for_user (λ u, DeleteSSHKey u (PathValue req "id"))) req d
  | CallSubmitSignup signupID name email => (SubmitSignup signupID name email d).1
  | CallUpdateSignup req status notes =>
    at_route "UpdateSignup" (for_user (λ u, UpdateSignup cfg (rq_Now req) u (PathValue req "id") status notes)) req d
  | CallSetUserCIAccess req userID email ciAccess =>
    at_route "SetUserCIAccess" (for_user (λ u, SetUserCIAccess cfg u userID email ciAccess)) req d
  | CallRequestCIAccess req => at_route "RequestCIAccess" (for_user RequestCIAccess) req d
  | CallProxy req => (ProxyHandler shards url_ok req d).1
  | CallVerifySSHKey now fingerprint repo => (VerifySSHKey now fingerprint repo d).1
  | CallCleanup now => (CleanupExpiredMagicLinks now d).1
  end.
Definition perform_all (l : list call) (d : AccDB) : AccDB := foldl (λ d c, perform c d) d l.
End perform.
