(* ===== verification/AccessProps.v ===== *)
(** * Guards and routes: properties

    What the guards in front of the handlers let through, for every database
    that answers the queries of [Access], and which role each route of an
    organisation requires. *)

From S2P Require Import Prelude Json GoStrings Sha256 CiStore Accounts Routing Access AccountsApi.
Local Open Scope Z_scope.

(** ** The guards *)

Section guards.
Context {S : Type} `{DirectoryOk S, TokenService}.

(** What a guard lets through: the context behind it. *)
Definition let_in1 (g : guard) : Request → Ctx → stM S http_error Ctx := λ req c, run_guard g (λ _ c, mret c) req c.
Fixpoint let_in (gs : list guard) (req : Request) (c : Ctx) : stM S http_error Ctx :=
  match gs with
  | [] => mret c
  | g :: gs => c ← let_in1 g req c; let_in gs req c
  end.

Lemma stM_assoc {E A B C} (m : stM S E A) (f : A → stM S E B) (g : B → stM S E C) s :
  ((m ≫= f) ≫= g) s = (m ≫= λ a, f a ≫= g) s.
Proof. unfold mbind, stM_bind. by destruct (m s) as [s1 [a|e|]]. Qed.
Lemma stM_bind_ext {E A B} (m : stM S E A) (f g : A → stM S E B) s :
  (∀ a s, f a s = g a s) → (m ≫= f) s = (m ≫= g) s.
Proof. intros Hf. unfold mbind, stM_bind. by destruct (m s) as [s1 [a|e|]]. Qed.

(** Every guard decides without its handler. *)
Lemma run_guard_admit {A} g (next : Handler S A) req c s :
  run_guard g next req c s = (c ← let_in1 g req c; next req c) s.
Proof.
  unfold let_in1. destruct g; cbn [run_guard];
    unfold WithAuth, WithOptionalAuth, WithOrg, WithRepo, RequireMembership, RequirePublicRepoOrMembership;
    repeat (first [case_match; [..]|rewrite stM_assoc; apply stM_bind_ext; intros ? ?]; try done).
Qed.

Lemma Chain_admit {A} (h : Handler S A) gs req c s :
  Chain h (run_guard <$> gs) req c s = (c ← let_in gs req c; h req c) s.
Proof.
  revert c s. induction gs as [|g gs IH]; intros c s; [done|]. cbn [fmap list_fmap let_in].
  change (Chain h (run_guard g :: (run_guard <$> gs))) with (run_guard g (Chain h (run_guard <$> gs))).
  rewrite run_guard_admit, stM_assoc. apply stM_bind_ext. intros c1 s1. apply IH.
Qed.
End guards.

(** ** What the routes of organisations require *)

Section routes.
Context {S : Type} `{DirectoryOk S, TokenService}.

Definition signed_in (req : Request) (s s1 : S) (u : User) (cl : Claims) : Prop :=
  request_token req ≠ "" ∧ authenticate req (request_token req) s = (s1, Ok (u, cl)).

(** The caller is a member of the organisation of the path. *)
Definition member_of_path (req : Request) (s : S) (u : User) (o : Org) (role : string) : Prop :=
  PathValue req "org" ≠ "" ∧ find_org (PathValue req "org") s = Ok o ∧
  ∃ m, find_member (og_ID o) (us_ID u) s = Ok m ∧ HasAtLeastRole (mb_Role m) role = true.

Lemma authenticate_state req token s s1 r :
  authenticate req token s = (s1, r) → s1 = s ∨ ∃ now id, s1 = touch_token now id s.
Proof.
  unfold authenticate. st_simpl. destruct (IsPAT token).
  - destruct (find_token _ s) as [t|e|]; cbn; [|by intros [= <- _]; left..].
    destruct (find_user _ s) as [u|e|]; cbn; intros [= <- _]; [right; eauto|by left..].
  - destruct (ValidateAccessToken _ _); cbn; [|by intros [= <- _]; left].
    destruct (find_user _ s) as [u|e|]; cbn; intros [= <- _]; by left.
Qed.
Lemma authenticate_same req token s s1 r :
  authenticate req token s = (s1, r) →
  (∀ slug, find_org slug s1 = find_org slug s) ∧ (∀ o n, find_repo_of o n s1 = find_repo_of o n s) ∧
  (∀ o u, find_member o u s1 = find_member o u s).
Proof.
  intros [->|(now & id & ->)]%authenticate_state; [done|].
  split; [|split]; intros; [apply touch_token_org|apply touch_token_repo|apply touch_token_member].
Qed.

Lemma found_or_ok {A} n msg failed (r : res db_error A) a : found_or n msg failed r = Ok a ↔ r = Ok a.
Proof. destruct r; cbn; split; congruence. Qed.

Lemma GAuth_admits req c s s1 c1 :
  let_in1 GAuth req c s = (s1, Ok c1) ↔ ∃ u cl, signed_in req s s1 u cl ∧ c1 = with_user u cl c.
Proof.
  unfold let_in1, run_guard, WithAuth, signed_in. st_simpl. case_bool_decide as Et; [split; [done|]; by intros (? & ? & [? _] & _)|].
  destruct (authenticate req _ s) as [s2 [[u cl]|e|]]; split; try (by intros (? & ? & [_ [=]] & _)); try done.
  - intros [= <- <-]. by exists u, cl.
  - by intros (? & ? & (_ & [= <- <- <-]) & ->).
Qed.
Lemma GOrg_admits req c s s1 c1 :
  let_in1 GOrg req c s = (s1, Ok c1) ↔
  s1 = s ∧ PathValue req "org" ≠ "" ∧ ∃ o, find_org (PathValue req "org") s = Ok o ∧ c1 = with_org o c.
Proof.
  unfold let_in1, run_guard, WithOrg. st_simpl. case_bool_decide as Et; [split; [done|]; by intros (_ & ? & _)|].
  destruct (find_org _ s) as [o|e|]; cbn; split; try (by intros (_ & _ & ? & [=] & _)); try done.
  - intros [= <- <-]. eauto.
  - by intros (-> & _ & ? & [= <-] & ->).
Qed.
Lemma GRepo_admits req c s s1 c1 o :
  cx_org c = Some o →
  let_in1 GRepo req c s = (s1, Ok c1) ↔
  s1 = s ∧ PathValue req "repo" ≠ "" ∧ ∃ rp, find_repo_of (og_ID o) (PathValue req "repo") s = Ok rp ∧ c1 = with_repo rp c.
Proof.
  intros Ho. unfold let_in1, run_guard, WithRepo. st_simpl. rewrite Ho. cbn [or_status].
  case_bool_decide as Et; [split; [done|]; by intros (_ & ? & _)|].
  destruct (find_repo_of _ _ s) as [rp|e|]; cbn; split; try (by intros (_ & _ & ? & [=] & _)); try done.
  - intros [= <- <-]. eauto.
  - by intros (-> & _ & ? & [= <-] & ->).
Qed.
Lemma require_role_ok role u o s s1 :
  require_role role u (Some o) s = (s1, Ok ()) ↔
  s1 = s ∧ ∃ m, find_member (og_ID o) (us_ID u) s = Ok m ∧ HasAtLeastRole (mb_Role m) role = true.
Proof.
  unfold require_role. st_simpl. cbn [or_status]. destruct (find_member _ _ s) as [m|e|]; cbn;
    [|split; [done|]; by intros (_ & ? & [=] & _)..].
  destruct (HasAtLeastRole _ _) eqn:E; cbn; split; try done.
  - intros [= <-]. eauto.
  - by intros (-> & _).
  - intros (_ & ? & [= <-] & ?). congruence.
Qed.
Lemma GMember_admits role req c s s1 c1 u o :
  cx_user c = Some u → cx_org c = Some o →
  let_in1 (GMember role) req c s = (s1, Ok c1) ↔
  s1 = s ∧ c1 = c ∧ ∃ m, find_member (og_ID o) (us_ID u) s = Ok m ∧ HasAtLeastRole (mb_Role m) role = true.
Proof.
  intros Hu Ho. pose proof (require_role_ok role u o s) as Hr. unfold let_in1, run_guard, RequireMembership. st_simpl.
  rewrite Hu, Ho. cbn [or_status]. destruct (require_role role u (Some o) s) as [s2 [[]|e|]].
  - split.
    + intros [= <- <-]. by destruct (proj1 (Hr s2) eq_refl) as [-> ?].
    + intros (-> & -> & Hm). pose proof (proj2 (Hr s) (conj eq_refl Hm)). congruence.
  - split; [done|]. intros (-> & -> & Hm). pose proof (proj2 (Hr s) (conj eq_refl Hm)). congruence.
  - split; [done|]. intros (-> & -> & Hm). pose proof (proj2 (Hr s) (conj eq_refl Hm)). congruence.
Qed.
End routes.

(** The routes below an organisation; the webhook handlers check the role
    themselves. *)
Definition path_contains (p : string) (r : route) : bool := contains_b (bytes_of p) (bytes_of (rt_path r)).
Definition org_route (r : route) : bool :=
  has_prefix_b (bytes_of "/api/v1/orgs/{org}/") (bytes_of (rt_path r)) && negb (path_contains "/webhooks" r).
(** Members and repositories are managed by administrators; workflow files,
    secrets and variables by maintainers; developers change the rest and
    reporters read it and let the server look for workflows. *)
Definition required_level (r : route) : Z :=
  if decide (rt_handler r ∈ ["AddMember"; "RemoveMember"; "UpdateRepo"; "DeleteRepo"]) then 4
  else if decide (rt_handler r ∈ ["SyncWorkflows"; "ListSecrets"; "SetSecret"; "DeleteSecret"; "SetVariable"; "DeleteVariable"]) then 3
  else if decide (rt_method r = "GET" ∨ rt_handler r = "DiscoverWorkflows") then 1 else 2.

#[export] Instance guard_eq_dec : EqDecision guard.
Proof. solve_decision. Defined.
#[export] Instance route_eq_dec : EqDecision route.
Proof. solve_decision. Defined.
Definition role_of (r : route) : string :=
  default "" (foldr (λ g o, match g with GMember role => Some role | _ => o end) None (rt_guards r)).
Definition role_guards (r : route) : list guard := (if path_contains "{repo}" r then in_repo else in_org) (role_of r).

Lemma org_routes_table :
  Forall (λ r, org_route r = true → rt_handler r ≠ "GetRepo" →
    rt_guards r = role_guards r ∧ level (role_of r) = required_level r) NewRouter.
Proof. apply (bool_decide_unpack _). vm_compute. exact I. Qed.

Section org_routes.
Context {S : Type} `{DirectoryOk S, TokenService}.

Lemma stM_bind_iff {E A B} (m : stM S E A) (f : A → stM S E B) s s' b :
  (m ≫= f) s = (s', Ok b) ↔ ∃ s1 a, m s = (s1, Ok a) ∧ f a s1 = (s', Ok b).
Proof. split; [apply stM_bind_ok|]. intros (s1 & a & Hm & Hf). by rewrite (stM_bind_run _ _ _ _ _ Hm). Qed.

Definition repo_of_path (with_repo : bool) (req : Request) (s : S) (o : Org) (rp : option Repo) : Prop :=
  if with_repo then
    ∃ x, rp = Some x ∧ PathValue req "repo" ≠ "" ∧ find_repo_of (og_ID o) (PathValue req "repo") s = Ok x
  else rp = None.
Definition admitted (role : string) (with_repo : bool) (req : Request) (s s1 : S) (c : Ctx) : Prop :=
  ∃ u cl o rp, signed_in req s s1 u cl ∧ member_of_path req s u o role ∧ repo_of_path with_repo req s o rp ∧
    c = mk_Ctx (Some u) (Some cl) (Some o) rp.

Lemma in_org_admits role req s s1 c :
  let_in (in_org role) req Background s = (s1, Ok c) ↔ admitted role false req s s1 c.
Proof.
  unfold in_org, admitted. cbn [let_in]. split.
  - intros (s2 & c2 & (u & cl & Hs & ->)%GAuth_admits & (s3 & c3 & (-> & Hp & o & Ho & ->)%GOrg_admits
      & (s4 & c4 & Hm & [= <- <-])%stM_bind_iff)%stM_bind_iff)%stM_bind_iff.
    apply (GMember_admits _ _ _ _ _ _ u o) in Hm as (-> & -> & m & Hm & Hr); [|done..].
    destruct (authenticate_same _ _ _ _ _ (proj2 Hs)) as (E1 & _ & E3). rewrite E1 in Ho. rewrite E3 in Hm.
    exists u, cl, o, None. split; [exact Hs|]. split; [by split; [|eauto]|done].
  - intros (u & cl & o & rp & Hs & (Hp & Ho & m & Hm & Hr) & -> & ->).
    destruct (authenticate_same _ _ _ _ _ (proj2 Hs)) as (E1 & _ & E3). rewrite <-E1 in Ho. rewrite <-E3 in Hm.
    apply stM_bind_iff. exists s1, (with_user u cl Background). split; [apply GAuth_admits; eauto|].
    apply stM_bind_iff. exists s1, (with_org o (with_user u cl Background)). split; [apply GOrg_admits; eauto|].
    apply stM_bind_iff. exists s1, (with_org o (with_user u cl Background)).
    split; [|done]. apply (GMember_admits _ _ _ _ _ _ u o); eauto.
Qed.

Lemma in_repo_split role req c s :
  let_in (in_repo role) req c s = (c ← let_in (in_org role) req c; let_in1 GRepo req c) s.
Proof.
  unfold in_repo, in_org. cbn [let_in]. rewrite stM_assoc. apply stM_bind_ext. intros c1 s1.
  rewrite stM_assoc. apply stM_bind_ext. intros c2 s2. rewrite stM_assoc. apply stM_bind_ext. intros c3 s3.
  unfold mbind, stM_bind, mret, stM_ret. by destruct (let_in1 GRepo req c3 s3) as [s4 [?|?|]].
Qed.
Lemma in_repo_admits role req s s1 c :
  let_in (in_repo role) req Background s = (s1, Ok c) ↔ admitted role true req s s1 c.
Proof.
  rewrite in_repo_split, stM_bind_iff. unfold admitted. split.
  - intros (s2 & c2 & (u & cl & o & rp & Hs & Hm & -> & ->)%in_org_admits & Hr).
    apply (GRepo_admits _ _ _ _ _ o) in Hr as (-> & Hp & x & Hx & ->); [|done].
    destruct (authenticate_same _ _ _ _ _ (proj2 Hs)) as (_ & E2 & _). rewrite E2 in Hx.
    exists u, cl, o, (Some x). split; [exact Hs|]. split; [exact Hm|]. split; [|done]. by exists x.
  - intros (u & cl & o & rp & Hs & Hm & (x & -> & Hp & Hx) & ->).
    exists s1, (mk_Ctx (Some u) (Some cl) (Some o) None). split; [apply in_org_admits; by exists u, cl, o, None|].
    apply (GRepo_admits _ _ _ _ _ o); [done|]. destruct (authenticate_same _ _ _ _ _ (proj2 Hs)) as (_ & E2 & _).
    rewrite <-E2 in Hx. eauto.
Qed.

Lemma serve_ok {A} r (h : Handler S A) req s s' a :
  r ∈ NewRouter → org_route r = true → rt_handler r ≠ "GetRepo" →
  serve r h req s = (s', Ok a) ↔
  ∃ s1 c, admitted (role_of r) (path_contains "{repo}" r) req s s1 c ∧ h req c s1 = (s', Ok a).
Proof.
  intros Hin Ho Hg. destruct (proj1 (Forall_forall _ _) org_routes_table r Hin Ho Hg) as [Eg _].
  unfold serve. rewrite Chain_admit, stM_bind_iff, Eg. unfold role_guards. destruct (path_contains "{repo}" r).
  - by setoid_rewrite in_repo_admits.
  - by setoid_rewrite in_org_admits.
Qed.

(** C17: The routes of an organisation.  Each route below
    [/api/v1/orgs/{org}/], but for the one that shows a repository and those of
    webhooks, has a role of the required level such that a request is served
    exactly when its token signs in a user who is a member with at least that
    role of the organisation in the path, when the repository in the path (if
    any) is one of that organisation, and when the handler itself accepts; the
    handler runs with that user, organisation and repository. *)
Theorem org_routes_guarded r :
  r ∈ NewRouter → org_route r = true → rt_handler r ≠ "GetRepo" →
  ∃ role, level role = required_level r ∧
    ∀ A (h : Handler S A) req s s' a,
      serve r h req s = (s', Ok a) ↔
      ∃ s1 u cl o rp, signed_in req s s1 u cl ∧ member_of_path req s u o role ∧
        repo_of_path (path_contains "{repo}" r) req s o rp ∧
        h req (mk_Ctx (Some u) (Some cl) (Some o) rp) s1 = (s', Ok a).
Proof.
  intros Hin Ho Hg. exists (role_of r). split.
  - by destruct (proj1 (Forall_forall _ _) org_routes_table r Hin Ho Hg).
  - intros A h req s s' a. rewrite serve_ok by done. unfold admitted. split.
    + intros (s1 & c & (u & cl & o & rp & Hs & Hm & Hr & ->) & Hh). eauto 10.
    + intros (s1 & u & cl & o & rp & Hs & Hm & Hr & Hh). eauto 15.
Qed.
End org_routes.

(** ** A database and a token library for examples *)

#[export] Instance demo_driver : AccDriver.
Proof. by refine {| acc_driver := DriverPostgres; acc_scan _ l := l; fold_email s := s |}. Defined.

#[export] Instance Claims_eq_dec : EqDecision Claims.
Proof. solve_decision. Defined.
#[export] Instance Claims_countable : Countable Claims :=
  inj_countable' (λ c, (cl_UserID c, cl_Email c, cl_Orgs c, cl_Scopes c, cl_TokenID c, cl_Audience c))
    (λ '(a, b, c, d, e, f), mk_Claims a b c d e f) ltac:(by intros []).
Fixpoint bits (p : positive) : string :=
  match p with xH => "" | xO p => "0" +:+ bits p | xI p => "1" +:+ bits p end.
Fixpoint from_bits (s : string) : positive :=
  match s with
  | EmptyString => xH
  | String c s => if decide (String c "" = "1") then xI (from_bits s) else xO (from_bits s)
  end.
Lemma from_bits_bits p : from_bits (bits p) = p.
Proof.
  induction p as [p IH|p IH|]; [| |done].
  - change (from_bits (bits (p~1))) with (if decide ("1" = "1") then xI (from_bits (bits p)) else xO (from_bits (bits p))). by rewrite IH.
  - change (from_bits (bits (p~0))) with (if decide ("0" = "1") then xI (from_bits (bits p)) else xO (from_bits (bits p))). by rewrite IH.
Qed.
Definition demo_sign (c : Claims) (e : Z) : string := "ey" +:+ bits (encode (c, e)).
Definition demo_parse (token : string) (now : Z) : option Claims :=
  match token with
  | String _ (String _ s) => '(c, e) ← decode (from_bits s); if now <? e * 1000000000 then Some c else None
  | _ => None
  end.
Lemma demo_parse_sign c e now : demo_parse (demo_sign c e) now = if now <? e * 1000000000 then Some c else None.
Proof.
  assert (∀ s, demo_parse ("ey" +:+ s) now = ('(c, e) ← decode (from_bits s); if now <? e * 1000000000 then Some c else None)) as E by done.
  unfold demo_sign. rewrite E, from_bits_bits, decode_encode. done.
Qed.
#[export] Instance demo_tokens : TokenService.
Proof.
  refine {| jwt_sign := demo_sign; jwt_parse := demo_parse |}.
  - intros c e now _ Hn. rewrite demo_parse_sign. by rewrite (proj2 (Z.ltb_lt _ _)).
  - intros c e now Hn. rewrite demo_parse_sign. by rewrite (proj2 (Z.ltb_ge _ _)).
  - intros c e. by eexists.
Defined.

(** Ann owns the organisation acme with the private repository app; Bob is a
    developer with a token and a key. *)
Definition ann : User := mk_User "u1" "ann@acme" "" false false None.
Definition bob : User := mk_User "u2" "bob@acme" "" false false None.
Definition acme : Org := mk_Org "o1" "acme" "Acme" "u1".
Definition app_repo : Repo := mk_Repo "r1" "o1" "app" "private" "s1" "u1".
Definition bob_token : APIToken :=
  mk_APIToken "t2" "u2" None "cli" (HashToken "klc_bob") (marshal_strings (Some [ScopeRepoRead; ScopeRepoWrite])) None.
Definition ann_token : APIToken :=
  mk_APIToken "t1" "u1" None "cli" (HashToken "klc_ann") (marshal_strings (Some [ScopeRepoRead])) None.
Definition bob_key : SSHKey := mk_SSHKey "k1" "u2" "laptop" "SHA256:k" "ssh-ed25519 k" None.
Definition demo_db : AccDB :=
  let d := mk_AccDB ∅ ∅ ∅ ∅ ∅ ∅ ∅ ∅ ∅ [] in
  let d := set_users (<["u1" := ann]> (ac_users d)) d in
  let d := set_users (<["u2" := bob]> (ac_users d)) d in
  let d := set_members (<[("o1", "u1") := RoleOwner]> (ac_members d)) (set_orgs (<["o1" := acme]> (ac_orgs d)) d) in
  let d := set_members (<[("o1", "u2") := RoleDeveloper]> (ac_members d)) d in
  let d := set_acc_repos (<["r1" := app_repo]> (ac_repos d)) d in
  let d := set_tokens (<["t1" := ann_token]> (ac_tokens d)) d in
  let d := set_tokens (<["t2" := bob_token]> (ac_tokens d)) d in
  set_keys (<["k1" := bob_key]> (ac_keys d)) d.
Definition demo_path : gmap string string := {["org" := "acme"; "repo" := "app"; "user_id" := "u2"]}.
Definition demo_request (method token : string) : Request :=
  mk_Request method ("Bearer " +:+ token) None demo_path 1000000000000.

Lemma org_routes_guarded_witness :
  ∃ role, level role = 4 ∧
    ((serve (route_named "AddMember") (λ _ c, mret (us_Email <$> cx_user c)) (demo_request "POST" "klc_ann") demo_db).2
       = Ok (Some "ann@acme")) ∧
    ∀ s' a, serve (route_named "AddMember") (λ _ c, mret (us_Email <$> cx_user c)) (demo_request "POST" "klc_bob") demo_db
      ≠ (s', Ok a).
Proof.
  destruct (org_routes_guarded (S := AccDB) (route_named "AddMember")) as (role & Hl & Hr).
  - apply (bool_decide_unpack _). vm_compute. exact I.
  - reflexivity.
  - discriminate.
  - exists role. split; [exact Hl|]. split; [vm_compute; reflexivity|]. intros s' a Hs.
    apply Hr in Hs as (s1 & u & cl & o & rp & [_ Ha] & (_ & Ho & m & Hm & Hrole) & _).
    assert (us_ID u = "u2" ∧ og_ID o = "o1") as [Eu Eo].
    { vm_compute in Ha, Ho. split; [by injection Ha as _ <- _|by injection Ho as <-]. }
    cbn in Hm. unfold GetMembership in Hm. rewrite Eu, Eo in Hm. vm_compute in Hm. injection Hm as <-.
    apply Z.leb_le in Hrole. rewrite Hl in Hrole. vm_compute in Hrole. by destruct Hrole.
Defined.
