(* ===== verification/AccountsProps.v ===== *)
(** * The account tables: properties

    The invariant of the account tables under every request, who can change
    memberships and repositories, logging in by mail, and what the proxy and the
    SSH gate decide on these tables. *)

From S2P Require Import Prelude Json GoStrings Sha256 CiStore Accounts Routing Access AccountsApi AccessProps.
Local Open Scope Z_scope.

(** ** Tables *)

(** Rows carry the key they are stored under. *)
Definition keyed {A} (key : A → string) (m : gmap string A) : Prop := ∀ i x, m !! i = Some x → key x = i.
(** No two rows agree on a column. *)
Definition distinct {A B} (f : A → B) (m : gmap string A) : Prop :=
  ∀ i j x y, m !! i = Some x → m !! j = Some y → f x = f y → i = j.

Lemma keyed_insert {A} key (m : gmap string A) i x : keyed key m → key x = i → keyed key (<[i := x]> m).
Proof. intros Hm Hx j y [[<- <-]|[? Hy]]%lookup_insert_Some; eauto. Qed.
Lemma keyed_alter {A} key (m : gmap string A) f i : keyed key m → (∀ x, key (f x) = key x) → keyed key (alter f i m).
Proof.
  intros Hm Hf j y Hy. destruct (decide (i = j)) as [->|Hne].
  - rewrite lookup_alter_eq in Hy. apply fmap_Some in Hy as (x & Hx & ->). rewrite Hf. by apply Hm.
  - rewrite lookup_alter_ne in Hy by done. by apply Hm.
Qed.
Lemma keyed_subset {A} key (m k : gmap string A) : keyed key m → (∀ i x, k !! i = Some x → m !! i = Some x) → keyed key k.
Proof. intros Hm Hs i x Hx. by apply Hm, Hs. Qed.

Lemma distinct_insert {A B} (f : A → B) (m : gmap string A) i x :
  distinct f m → (∀ j y, m !! j = Some y → f y ≠ f x) → distinct f (<[i := x]> m).
Proof.
  intros Hm Hx j k y z [[<- <-]|[? Hy]]%lookup_insert_Some [[<- <-]|[? Hz]]%lookup_insert_Some E; [done| | |eauto].
  - by destruct (Hx k z Hz).
  - by destruct (Hx j y Hy).
Qed.
Lemma distinct_alter {A B} (f : A → B) (m : gmap string A) g i :
  distinct f m → (∀ x, f (g x) = f x) → distinct f (alter g i m).
Proof.
  intros Hm Hg. assert (∀ j y, alter g i m !! j = Some y → ∃ x, m !! j = Some x ∧ f y = f x) as Hback.
  { intros j y Hy. destruct (decide (i = j)) as [->|Hne].
    - rewrite lookup_alter_eq in Hy. apply fmap_Some in Hy as (x & Hx & ->). by exists x.
    - rewrite lookup_alter_ne in Hy by done. by exists y. }
  intros j k y z (x & Hx & ->)%Hback (w & Hw & ->)%Hback E. eauto.
Qed.
Lemma distinct_subset {A B} (f : A → B) (m k : gmap string A) :
  distinct f m → (∀ i x, k !! i = Some x → m !! i = Some x) → distinct f k.
Proof. intros Hm Hs i j x y Hx Hy. apply Hm; by apply Hs. Qed.

(** Changing a row keeps a condition on rows that the change keeps. *)
Lemma alter_forall {A} (P : A → Prop) (m : gmap string A) g i :
  (∀ j x, m !! j = Some x → P x) → (∀ x, P x → P (g x)) → ∀ j x, alter g i m !! j = Some x → P x.
Proof.
  intros Hm Hg j y Hy. destruct (decide (i = j)) as [->|Hne].
  - rewrite lookup_alter_eq in Hy. apply fmap_Some in Hy as (x & Hx & ->). eauto.
  - rewrite lookup_alter_ne in Hy by done. eauto.
Qed.
Lemma is_Some_insert {A} (m : gmap string A) i j x : is_Some (m !! j) → is_Some (<[i := x]> m !! j).
Proof. intros Hj. destruct (decide (i = j)) as [->|?]; [by rewrite lookup_insert_eq|by rewrite lookup_insert_ne]. Qed.
Lemma is_Some_alter {A} (m : gmap string A) f i j : is_Some (m !! j) → is_Some (alter f i m !! j).
Proof.
  intros [x Hx]. destruct (decide (i = j)) as [->|?]; [rewrite lookup_alter_eq, Hx; by eexists|].
  rewrite lookup_alter_ne by done. by exists x.
Qed.

(** ** The invariant *)

Record accounts_wf `{AccDriver} (d : AccDB) : Prop := {
  wf_user_ids : keyed us_ID (ac_users d);
  wf_session_ids : keyed se_ID (ac_sessions d);
  wf_link_ids : keyed ml_ID (ac_links d);
  wf_org_ids : keyed og_ID (ac_orgs d);
  wf_repo_ids : keyed rp_ID (ac_repos d);
  wf_token_ids : keyed at_ID (ac_tokens d);
  wf_key_ids : keyed sk_ID (ac_keys d);
  wf_emails : ∀ i j u v, ac_users d !! i = Some u → ac_users d !! j = Some v → same_email (us_Email u) v = true → i = j;
  wf_hashes : distinct ml_TokenHash (ac_links d);
  wf_slugs : distinct og_Slug (ac_orgs d);
  wf_names : distinct (λ r, (rp_OrgID r, rp_Name r)) (ac_repos d);
  wf_fingerprints : distinct sk_Fingerprint (ac_keys d);
  wf_members : ∀ o u role, ac_members d !! (o, u) = Some role →
    is_Some (ac_orgs d !! o) ∧ is_Some (ac_users d !! u) ∧ is_Some (RoleHierarchy !! role);
  wf_owners : ∀ i o, ac_orgs d !! i = Some o → is_Some (ac_members d !! (i, og_OwnerID o));
  wf_repos : ∀ i r, ac_repos d !! i = Some r → is_Some (ac_orgs d !! rp_OrgID r) ∧ rp_Visibility r ∈ visibilities;
  wf_sessions : ∀ i s, ac_sessions d !! i = Some s → is_Some (ac_users d !! se_UserID s);
  wf_tokens : ∀ i t, ac_tokens d !! i = Some t → is_Some (ac_users d !! at_UserID t);
  wf_keys : ∀ i k, ac_keys d !! i = Some k → is_Some (ac_users d !! sk_UserID k);
}.

Section wf.
Context `{AccDriver}.

Ltac wf_start Hd := destruct Hd; constructor; cbn; try done.

Lemma accounts_wf_empty : accounts_wf (mk_AccDB ∅ ∅ ∅ ∅ ∅ ∅ ∅ ∅ ∅ []).
Proof. constructor; cbn; repeat intro; by rewrite ?lookup_empty in *. Qed.

Lemma wf_audit d l : accounts_wf d → accounts_wf (set_audit l d).
Proof. intros Hd. by wf_start Hd. Qed.
Lemma wf_signups d m : accounts_wf d → accounts_wf (set_signups m d).
Proof. intros Hd. by wf_start Hd. Qed.

Lemma wf_alter_user d f id :
  accounts_wf d → (∀ u, us_ID (f u) = us_ID u ∧ us_Email (f u) = us_Email u) →
  accounts_wf (set_users (alter f id (ac_users d)) d).
Proof.
  intros Hd Hf. assert (∀ j u, alter f id (ac_users d) !! j = Some u → ∃ v, ac_users d !! j = Some v ∧ us_Email u = us_Email v) as Hb.
  { intros j u Hu. destruct (decide (id = j)) as [->|?].
    - rewrite lookup_alter_eq in Hu. apply fmap_Some in Hu as (v & Hv & ->). exists v. split; [done|apply Hf].
    - rewrite lookup_alter_ne in Hu by done. by exists u. }
  assert (∀ u v w, us_Email v = us_Email w → same_email u v = same_email u w) as Hse.
  { intros u v w E. unfold same_email. by rewrite E. }
  wf_start Hd.
  - apply keyed_alter; [done|]. apply Hf.
  - intros i j u v (u' & Hu & Eu)%Hb (v' & Hv & Ev)%Hb E. rewrite Eu, (Hse _ v v' Ev) in E. eauto.
  - intros o u r Hm. destruct (wf_members0 o u r Hm) as (? & ? & ?). eauto using is_Some_alter.
  - intros i s Hs. eauto using is_Some_alter.
  - intros i s Hs. eauto using is_Some_alter.
  - intros i s Hs. eauto using is_Some_alter.
Qed.
Lemma wf_insert_user d u :
  accounts_wf d → ac_users d !! us_ID u = None → (∀ i v, ac_users d !! i = Some v → same_email (us_Email u) v = false) →
  accounts_wf (set_users (<[us_ID u := u]> (ac_users d)) d).
Proof.
  intros Hd Hnew He. assert (∀ v, same_email (us_Email u) v = same_email (us_Email v) u) as Hsym.
  { intros v. unfold same_email. destruct acc_driver; apply bool_decide_ext; split; congruence. }
  wf_start Hd.
  - by apply keyed_insert.
  - intros i j v w [[<- <-]|[? Hv]]%lookup_insert_Some [[<- <-]|[? Hw]]%lookup_insert_Some E; [done| | |eauto].
    + by rewrite (He j w Hw) in E.
    + by rewrite <-Hsym, (He i v Hv) in E.
  - intros o v r Hm. destruct (wf_members0 o v r Hm) as (? & ? & ?). eauto using is_Some_insert.
  - intros i s Hs. eauto using is_Some_insert.
  - intros i s Hs. eauto using is_Some_insert.
  - intros i s Hs. eauto using is_Some_insert.
Qed.

Lemma wf_sub_sessions d m :
  accounts_wf d → (∀ i s, m !! i = Some s → ac_sessions d !! i = Some s) → accounts_wf (set_sessions m d).
Proof. intros Hd Hm. wf_start Hd; [by eapply keyed_subset|eauto]. Qed.
Lemma wf_insert_session d s :
  accounts_wf d → is_Some (ac_users d !! se_UserID s) → accounts_wf (set_sessions (<[se_ID s := s]> (ac_sessions d)) d).
Proof.
  intros Hd Hu. wf_start Hd; [by apply keyed_insert|]. intros i t [[<- <-]|[? Ht]]%lookup_insert_Some; eauto.
Qed.

Lemma wf_sub_links d m : accounts_wf d → (∀ i s, m !! i = Some s → ac_links d !! i = Some s) → accounts_wf (set_links m d).
Proof. intros Hd Hm. wf_start Hd; [by eapply keyed_subset|by eapply distinct_subset]. Qed.
Lemma wf_alter_link d f id :
  accounts_wf d → (∀ l, ml_ID (f l) = ml_ID l ∧ ml_TokenHash (f l) = ml_TokenHash l) →
  accounts_wf (set_links (alter f id (ac_links d)) d).
Proof. intros Hd Hf. wf_start Hd; [apply keyed_alter|apply distinct_alter]; try done; apply Hf. Qed.
Lemma wf_insert_link d l :
  accounts_wf d → (∀ i k, ac_links d !! i = Some k → ml_TokenHash k ≠ ml_TokenHash l) →
  accounts_wf (set_links (<[ml_ID l := l]> (ac_links d)) d).
Proof. intros Hd Hl. wf_start Hd; [by apply keyed_insert|by apply distinct_insert]. Qed.

Lemma wf_insert_org d o role :
  accounts_wf d → (∀ i p, ac_orgs d !! i = Some p → og_Slug p ≠ og_Slug o) → ac_orgs d !! og_ID o = None →
  is_Some (ac_users d !! og_OwnerID o) → is_Some (RoleHierarchy !! role) →
  accounts_wf (set_members (<[(og_ID o, og_OwnerID o) := role]> (ac_members d)) (set_orgs (<[og_ID o := o]> (ac_orgs d)) d)).
Proof.
  intros Hd Hs Hn Hu Hr. wf_start Hd.
  - by apply keyed_insert.
  - by apply distinct_insert.
  - intros i u r [[E <-]|[? Hm]]%lookup_insert_Some.
    + injection E as <- <-. split; [by rewrite lookup_insert_eq; eexists|done].
    + destruct (wf_members0 i u r Hm) as (? & ? & ?). eauto using is_Some_insert.
  - intros i p [[<- <-]|[? Hp]]%lookup_insert_Some; [by rewrite lookup_insert_eq; eexists|].
    destruct (decide ((og_ID o, og_OwnerID o) = (i, og_OwnerID p))) as [<-|?]; [by rewrite lookup_insert_eq; eexists|].
    rewrite lookup_insert_ne by done. eauto.
  - intros i r Hr'. destruct (wf_repos0 i r Hr') as (? & ?). eauto using is_Some_insert.
Qed.
Lemma wf_set_member d o u role :
  accounts_wf d → is_Some (ac_orgs d !! o) → is_Some (ac_users d !! u) → is_Some (RoleHierarchy !! role) →
  accounts_wf (set_members (<[(o, u) := role]> (ac_members d)) d).
Proof.
  intros Hd Ho Hu Hr. wf_start Hd.
  - intros i v r [[E <-]|[? Hm]]%lookup_insert_Some; [by injection E as <- <-|eauto].
  - intros i p Hp. destruct (decide ((o, u) = (i, og_OwnerID p))) as [<-|?]; [by rewrite lookup_insert_eq; eexists|].
    rewrite lookup_insert_ne by done. eauto.
Qed.
Lemma wf_remove_member d o u :
  accounts_wf d → (∀ p, ac_orgs d !! o = Some p → og_OwnerID p ≠ u) →
  accounts_wf (set_members (delete (o, u) (ac_members d)) d).
Proof.
  intros Hd Ho. wf_start Hd.
  - intros i v r [_ Hm]%lookup_delete_Some. eauto.
  - intros i p Hp. rewrite lookup_delete_ne; [by apply wf_owners0|]. intros [= -> ->]. by apply (Ho p).
Qed.

Lemma wf_sub_repos d m : accounts_wf d → (∀ i s, m !! i = Some s → ac_repos d !! i = Some s) → accounts_wf (set_acc_repos m d).
Proof. intros Hd Hm. wf_start Hd; [by eapply keyed_subset|by eapply distinct_subset|eauto]. Qed.
Lemma wf_insert_repo d r :
  accounts_wf d → (∀ i q, ac_repos d !! i = Some q → named (rp_OrgID r) (rp_Name r) q = false) →
  rp_Visibility r ∈ visibilities → is_Some (ac_orgs d !! rp_OrgID r) →
  accounts_wf (set_acc_repos (<[rp_ID r := r]> (ac_repos d)) d).
Proof.
  intros Hd Hn Hv Ho. wf_start Hd; [by apply keyed_insert| |].
  - apply distinct_insert; [done|]. intros j q Hq [= E1 E2]. specialize (Hn j q Hq). unfold named in Hn.
    by rewrite E1, E2, !bool_decide_eq_true_2 in Hn.
  - intros i q [[<- <-]|[? Hq]]%lookup_insert_Some; eauto.
Qed.
Lemma wf_rename_repo d id name visibility :
  accounts_wf d → renames_onto id name d = false → visibility ∈ visibilities ∨ ac_repos d !! id = None →
  accounts_wf (set_acc_repos (alter (λ r, mk_Repo (rp_ID r) (rp_OrgID r) name visibility (rp_ShardHint r) (rp_CreatedBy r))
    id (ac_repos d)) d).
Proof.
  intros Hd Hn Hv. destruct (ac_repos d !! id) as [r|] eqn:Er.
  2: { apply wf_sub_repos; [done|]. intros i q Hq. destruct (decide (id = i)) as [<-|?].
       - by rewrite lookup_alter_eq, Er in Hq.
       - by rewrite lookup_alter_ne in Hq. }
  destruct Hv as [Hv|?]; [|done]. unfold renames_onto in Hn. rewrite Er in Hn.
  assert (∀ j q, ac_repos d !! j = Some q → j ≠ id → (rp_OrgID q, rp_Name q) ≠ (rp_OrgID r, name)) as Hne.
  { intros j q Hq Hj [= E1 E2]. rewrite taken_false in Hn. specialize (Hn j q Hq). unfold named in Hn.
    rewrite E1, E2, !bool_decide_eq_true_2 in Hn by done. cbn in Hn. rewrite (wf_repo_ids d Hd j q Hq) in Hn.
    by rewrite bool_decide_eq_false_2 in Hn. }
  assert (ac_repos d !! id = Some r) as Er' by done. destruct Hd; constructor; cbn; try done.
  - by apply keyed_alter.
  - intros i j x y Hx Hy E. destruct (decide (id = i)) as [<-|Hi], (decide (id = j)) as [<-|Hj]; [done| | |].
    + rewrite lookup_alter_eq, Er in Hx. rewrite lookup_alter_ne in Hy by done. injection Hx as <-.
      by destruct (Hne j y Hy (not_eq_sym Hj)).
    + rewrite lookup_alter_eq, Er in Hy. rewrite lookup_alter_ne in Hx by done. injection Hy as <-.
      by destruct (Hne i x Hx (not_eq_sym Hi)).
    + rewrite lookup_alter_ne in Hx, Hy by done. eauto.
  - intros i q Hq. destruct (decide (id = i)) as [<-|Hi].
    + rewrite lookup_alter_eq, Er in Hq. injection Hq as <-. split; [|done]. cbn. by destruct (wf_repos0 id r Er').
    + rewrite lookup_alter_ne in Hq by done. eauto.
Qed.

Lemma wf_sub_tokens d m : accounts_wf d → (∀ i s, m !! i = Some s → ac_tokens d !! i = Some s) → accounts_wf (set_tokens m d).
Proof. intros Hd Hm. wf_start Hd; [by eapply keyed_subset|eauto]. Qed.
Lemma wf_alter_token d f id :
  accounts_wf d → (∀ t, at_ID (f t) = at_ID t ∧ at_UserID (f t) = at_UserID t) →
  accounts_wf (set_tokens (alter f id (ac_tokens d)) d).
Proof.
  intros Hd Hf. wf_start Hd; [apply keyed_alter; [done|apply Hf]|].
  apply alter_forall; [done|]. intros t Ht. by rewrite (proj2 (Hf t)).
Qed.
Lemma wf_insert_token d t :
  accounts_wf d → is_Some (ac_users d !! at_UserID t) → accounts_wf (set_tokens (<[at_ID t := t]> (ac_tokens d)) d).
Proof. intros Hd Hu. wf_start Hd; [by apply keyed_insert|]. intros i k [[<- <-]|[? Hk]]%lookup_insert_Some; eauto. Qed.

Lemma wf_sub_keys d m : accounts_wf d → (∀ i s, m !! i = Some s → ac_keys d !! i = Some s) → accounts_wf (set_keys m d).
Proof. intros Hd Hm. wf_start Hd; [by eapply keyed_subset|by eapply distinct_subset|eauto]. Qed.
Lemma wf_alter_key d f id :
  accounts_wf d → (∀ k, sk_ID (f k) = sk_ID k ∧ sk_UserID (f k) = sk_UserID k ∧ sk_Fingerprint (f k) = sk_Fingerprint k) →
  accounts_wf (set_keys (alter f id (ac_keys d)) d).
Proof.
  intros Hd Hf. wf_start Hd; [apply keyed_alter; [done|apply Hf]|apply distinct_alter; [done|apply Hf]|].
  apply alter_forall; [done|]. intros t Ht. by rewrite (proj1 (proj2 (Hf t))).
Qed.
Lemma wf_insert_key d k :
  accounts_wf d → (∀ i q, ac_keys d !! i = Some q → sk_Fingerprint q ≠ sk_Fingerprint k) →
  is_Some (ac_users d !! sk_UserID k) → accounts_wf (set_keys (<[sk_ID k := k]> (ac_keys d)) d).
Proof.
  intros Hd Hk Hu. wf_start Hd; [by apply keyed_insert|by apply distinct_insert|].
  intros i q [[<- <-]|[? Hq]]%lookup_insert_Some; eauto.
Qed.
End wf.

(** ** What each operation may change *)

Section calls.
Context `{AccDriver, TokenService, Unicode}.

(** A well-formed state with given members, organisations and repositories. *)
Definition frame (M : gmap (string * string) string) (O : gmap string Org) (R : gmap string Repo) (d : AccDB) : Prop :=
  accounts_wf d ∧ ac_members d = M ∧ ac_orgs d = O ∧ ac_repos d = R.

Definition touches (d d' : AccDB) : Prop := rtc (λ a b, ∃ now id, b = UpdateAPITokenLastUsed now id a) d d'.
#[export] Instance touches_refl : Reflexive touches.
Proof. intros d. apply rtc_refl. Qed.
#[export] Instance touches_trans : Transitive touches.
Proof. intros d e f. unfold touches. apply transitivity. Qed.
Lemma frame_touch M O R now id d : frame M O R d → frame M O R (UpdateAPITokenLastUsed now id d).
Proof. intros (? & ? & ? & ?). split; [by apply wf_alter_token|done]. Qed.
Lemma frame_touches M O R d d' : frame M O R d → touches d d' → frame M O R d'.
Proof. intros Hf Ht. revert Hf. induction Ht as [|d1 d2 d3 (now & id & ->) _ IH]; [done|]. intros Hf. by apply IH, frame_touch. Qed.

Ltac frame_op := intros d (Hd & <- & <- & <-); st_simpl; repeat case_bool_decide; cbn; try done.

Lemma frame_audit {E} M O R org actor action type id : keeps (frame M O R) (WriteAudit (E := E) org actor action type id).
Proof. frame_op. split; [by apply wf_audit|done]. Qed.

Lemma frame_create_user M O R id email name : keeps (frame M O R) (CreateUser id email name).
Proof.
  unfold CreateUser. frame_op. destruct (taken _ _) eqn:Et; cbn; [done|]. rewrite taken_false in Et. split; [|done].
  apply (wf_insert_user d (mk_User id email name false false None)); [done| |done].
  by apply eq_None_not_Some.
Qed.
Lemma frame_get_or_create_user M O R id email name : keeps (frame M O R) (GetOrCreateUser id email name).
Proof.
  unfold GetOrCreateUser. apply keeps_bind; [apply keeps_gets|]. intros d.
  destruct (GetUserByEmail email d) as [u|[]|]; auto using frame_create_user with keeps.
Qed.
Lemma frame_users M O R f id :
  (∀ u, us_ID (f u) = us_ID u ∧ us_Email (f u) = us_Email u) →
  keeps (frame M O R) (modify (E := db_error) (λ d, set_users (alter f id (ac_users d)) d)).
Proof. intros Hf. frame_op. split; [by apply wf_alter_user|done]. Qed.
Lemma frame_ci_access M O R id b : keeps (frame M O R) (UpdateUserCIAccess id b).
Proof. by apply frame_users. Qed.
Lemma frame_request_ci M O R id : keeps (frame M O R) (Accounts.RequestCIAccess id).
Proof. by apply frame_users. Qed.
Lemma frame_last_login M O R now id : keeps (frame M O R) (UpdateLastLogin now id).
Proof. by apply frame_users. Qed.
Lemma frame_create_signup M O R id name email : keeps (frame M O R) (CreateSignup id name email).
Proof. unfold CreateSignup. frame_op. split; [by apply wf_signups|done]. Qed.
Lemma frame_update_signup M O R now id status notes : keeps (frame M O R) (UpdateSignupStatus now id status notes).
Proof. frame_op. split; [by apply wf_signups|done]. Qed.

Lemma frame_create_link M O R id email hash e : keeps (frame M O R) (CreateMagicLink id email hash e).
Proof.
  unfold CreateMagicLink. frame_op. destruct (taken _ _) eqn:Et; cbn; [done|]. rewrite taken_false in Et. split; [|done].
  apply (wf_insert_link d (mk_MagicLink id email hash e None)); [done|]. intros i k Hk.
  by apply Et, bool_decide_eq_false in Hk.
Qed.
Lemma frame_use_link M O R now id : keeps (frame M O R) (UseMagicLink now id).
Proof. frame_op. split; [by apply wf_alter_link|done]. Qed.
Lemma frame_cleanup M O R now : keeps (frame M O R) (CleanupExpiredMagicLinks now).
Proof. frame_op. split; [|done]. apply wf_sub_links; [done|]. by intros i l [? _]%map_lookup_filter_Some. Qed.

Lemma frame_create_session M O R id user hash e : keeps (frame M O R) (CreateSession id user hash e).
Proof.
  unfold CreateSession. frame_op. split; [|done]. apply (wf_insert_session d (mk_Session id user hash e)); [done|].
  by apply not_eq_None_Some.
Qed.
Lemma frame_delete_session M O R id : keeps (frame M O R) (DeleteSession id).
Proof. frame_op. split; [|done]. apply wf_sub_sessions; [done|]. by intros i s [_ ?]%lookup_delete_Some. Qed.
Lemma frame_delete_sessions M O R id : keeps (frame M O R) (DeleteUserSessions id).
Proof. frame_op. split; [|done]. apply wf_sub_sessions; [done|]. by intros i s [? _]%map_lookup_filter_Some. Qed.

Lemma frame_create_token M O R id user org name hash scopes : keeps (frame M O R) (CreateAPIToken id user org name hash scopes).
Proof.
  unfold CreateAPIToken. frame_op; (split; [|done]); (eapply (wf_insert_token d (mk_APIToken id user _ name hash _ None)); [done|]);
  by apply not_eq_None_Some.
Qed.
Lemma frame_delete_token M O R id : keeps (frame M O R) (DeleteAPIToken id).
Proof. frame_op. split; [|done]. apply wf_sub_tokens; [done|]. by intros i s [_ ?]%lookup_delete_Some. Qed.
Lemma frame_create_key M O R id user name fp key : keeps (frame M O R) (Accounts.CreateSSHKey id user name fp key).
Proof.
  unfold Accounts.CreateSSHKey. frame_op; destruct (taken _ _) eqn:Et; cbn; try done. rewrite taken_false in Et. split; [|done].
  apply (wf_insert_key d (mk_SSHKey id user name fp key None)); [done| |by apply not_eq_None_Some].
  intros i k Hk. by apply Et, bool_decide_eq_false in Hk.
Qed.
Lemma frame_delete_key M O R id : keeps (frame M O R) (Accounts.DeleteSSHKey id).
Proof. frame_op. split; [|done]. apply wf_sub_keys; [done|]. by intros i s [_ ?]%lookup_delete_Some. Qed.
Lemma frame_touch_key M O R now id d : frame M O R d → frame M O R (UpdateSSHKeyLastUsed now id d).
Proof. intros (? & ? & ? & ?). split; [by apply wf_alter_key|done]. Qed.

Lemma keeps_on_db {A} P status msg (m : accM A) : keeps P m → keeps P (on_db status msg m).
Proof. intros Hm d Hd. specialize (Hm d Hd). unfold on_db. by destruct (m d). Qed.
End calls.
#[export] Hint Resolve frame_audit frame_get_or_create_user frame_ci_access frame_request_ci frame_last_login
  frame_create_signup frame_update_signup frame_create_link frame_use_link frame_cleanup frame_create_session
  frame_delete_session frame_delete_sessions frame_create_token frame_delete_token frame_create_key frame_delete_key
  keeps_on_db : keeps.

(** ** Requests *)

Section requests.
Context `{AccDriver, TokenService, Unicode}.

Lemma optional_user_touches req d d1 r : optional_user req d = (d1, r) → touches d d1.
Proof.
  unfold optional_user. st_simpl. case_decide; [by intros [= <- _]|]. destruct (IsPAT _).
  - destruct (find_token _ d) as [t|e|]; [|by intros [= <- _]..].
    destruct (nil_if_err _); cbn; intros [= <- _]; apply rtc_once; by exists (unix (rq_Now req)), (at_ID t).
  - destruct (ValidateAccessToken _ _); by intros [= <- _].
Qed.
Lemma admit1_touches g req c d d1 r : let_in1 g req c d = (d1, r) → touches d d1.
Proof.
  unfold let_in1. destruct g; cbn [run_guard].
  - unfold WithAuth. st_simpl. case_bool_decide; [by intros [= <- _]|].
    destruct (authenticate req _ d) as [d2 r2] eqn:E. intros Hr. assert (d1 = d2) as -> by (by destruct r2 as [[]| |]; injection Hr).
    apply authenticate_state in E as [->|(now & id & ->)]; [done|]. apply rtc_once. by exists now, id.
  - unfold WithOptionalAuth. intros Hr. unfold mbind, stM_bind in Hr.
    destruct (optional_user req d) as [d2 [[[u|] cl]|e|]] eqn:E; apply optional_user_touches in E; by injection Hr as <- _.
  - unfold WithOrg. st_simpl. case_bool_decide; [by intros [= <- _]|].
    destruct (found_or _ _ _ _); by intros [= <- _].
  - unfold WithRepo. st_simpl. destruct (or_status _ _ (cx_org c)); [|by intros [= <- _]..].
    case_bool_decide; [by intros [= <- _]|]. destruct (found_or _ _ _ _); by intros [= <- _].
  - unfold RequireMembership, require_role. st_simpl. destruct (or_status _ _ (cx_user c)); [|by intros [= <- _]..].
    destruct (or_status _ _ (cx_org c)); [|by intros [= <- _]..]. destruct (found_or _ _ _ _); [|by intros [= <- _]..].
    by case_match; intros [= <- _].
  - unfold RequirePublicRepoOrMembership, require_role. st_simpl. destruct (cx_user c).
    + destruct (or_status _ _ (cx_org c)); [|by intros [= <- _]..]. destruct (found_or _ _ _ _); [|by intros [= <- _]..].
      by case_match; intros [= <- _].
    + by case_match; intros [= <- _].
Qed.
Lemma admit_touches gs req c d d1 r : let_in gs req c d = (d1, r) → touches d d1.
Proof.
  revert c d. induction gs as [|g gs IH]; intros c d; cbn [let_in]; [by intros [= <- _]|].
  unfold mbind, stM_bind. destruct (let_in1 g req c d) as [d2 [c2|e|]] eqn:E; apply admit1_touches in E; [|by intros [= <- _]..].
  intros Hr%IH. by etrans.
Qed.

(** A request either changes times of use only, or its handler runs. *)
Lemma serve_state {A} r (h : Handler AccDB A) req d d' res :
  serve r h req d = (d', res) →
  touches d d' ∨ ∃ d1 c, touches d d1 ∧ let_in (rt_guards r) req Background d = (d1, Ok c) ∧ h req c d1 = (d', res).
Proof.
  unfold serve. rewrite Chain_admit. unfold mbind, stM_bind.
  destruct (let_in _ req Background d) as [d1 [c|e|]] eqn:E; pose proof (admit_touches _ _ _ _ _ _ E) as Ht.
  - intros Hh. right. by exists d1, c.
  - intros [= <- _]. by left.
  - intros [= <- _]. by left.
Qed.
Lemma keeps_serve {A} M O R r (h : Handler AccDB A) req :
  (∀ c, keeps (frame M O R) (h req c)) → keeps (frame M O R) (serve r h req).
Proof.
  intros Hh d Hd. destruct (serve r h req d) as [d' res] eqn:E. cbn.
  apply serve_state in E as [Ht|(d1 & c & Ht & _ & E)]; [by eapply frame_touches|].
  apply (frame_touches _ _ _ _ _ Hd) in Ht. specialize (Hh c d1 Ht). by rewrite E in Hh.
Qed.
Lemma keeps_for_user {A} P (h : User → apiM A) req c : (∀ u, keeps P (h u)) → keeps P (for_user h req c).
Proof. intros Hh. unfold for_user. destruct (cx_user c); auto with keeps. Qed.

Lemma frame_login M O R cfg now user session refresh link : keeps (frame M O R) (redeem_link cfg now user session refresh link).
Proof. unfold redeem_link. eauto 20 with keeps. Qed.
Lemma proxy_member_state req pub o u cl d d1 r : proxy_member req pub o u cl d = (d1, r) → d1 = d.
Proof.
  unfold proxy_member. st_simpl. destruct (find_member _ _ d) as [m|[]|]; repeat case_match; congruence.
Qed.
Lemma proxy_check_state req o r uc d d1 res : proxy_check req o r uc d = (d1, res) → d1 = d.
Proof. unfold proxy_check. destruct (uc.1); [apply proxy_member_state|]. st_simpl. by intros [= <- _]. Qed.
Lemma proxy_forward_state shards url_ok req r user d d1 res : proxy_forward (S := AccDB) shards url_ok req r user d = (d1, res) → d1 = d.
Proof. unfold proxy_forward. st_simpl. repeat case_match; congruence. Qed.
Lemma proxy_touches shards url_ok req d d1 r : ProxyHandler shards url_ok req d = (d1, r) → touches d d1.
Proof.
  unfold ProxyHandler. st_simpl. destruct (_ || _); [by intros [= <- _]|]. destruct (found_or _ _ _ (find_org _ d)); [|by intros [= <- _]..].
  destruct (found_or _ _ _ (find_repo_of _ _ d)); [|by intros [= <- _]..].
  destruct (optional_user req d) as [d2 [uc|e|]] eqn:E; apply optional_user_touches in E; [|by intros [= <- _]..].
  destruct (proxy_check _ _ _ uc d2) as [d3 [[]|e|]] eqn:Ep; apply proxy_check_state in Ep as ->; [|by intros [= <- _]..].
  by intros ->%proxy_forward_state.
Qed.
Lemma verify_links now fp repo d d1 r : VerifySSHKey now fp repo d = (d1, r) → ac_links d1 = ac_links d.
Proof.
  unfold VerifySSHKey. st_simpl. case_decide; [by intros [= <- _]|]. destruct (find_key fp d) as [k|[]|]; try (by intros [= <- _]).
  destruct (find_user _ d); [|by intros [= <- _]..]. case_decide; by intros [= <- _].
Qed.
Lemma frame_verify M O R now fp repo : keeps (frame M O R) (VerifySSHKey now fp repo).
Proof.
  unfold VerifySSHKey. case_decide; [auto with keeps|]. apply keeps_bind; [auto with keeps|]. intros d.
  destruct (find_key fp d) as [k|[]|]; auto with keeps. destruct (find_user _ d); auto with keeps.
  apply keeps_bind; [apply keeps_modify; intros; by apply frame_touch_key|]. intros []. apply keeps_bind; [auto with keeps|].
  intros d1. case_decide; auto with keeps.
Qed.
Lemma frame_proxy M O R shards url_ok req : keeps (frame M O R) (ProxyHandler shards url_ok req).
Proof.
  intros d Hd. destruct (ProxyHandler shards url_ok req d) as [d1 r] eqn:E. apply proxy_touches in E. by eapply frame_touches.
Qed.
End requests.

(** ** Every request keeps the invariant *)

Section invariant.
Context `{AccDriver, TokenService, Unicode}.

Variables (cfg : Config) (shards : ShardPicker) (url_ok : string → bool) (parse_key : bytes → option bytes).
#[local] Abbreviation perform := (perform cfg shards url_ok parse_key).

(** The requests that do not touch memberships, organisations and
    repositories. *)
Definition plain_call (c : call) : bool :=
  match c with
  | CallCreateOrg _ _ _ _ | CallAddMember _ _ _ _ | CallRemoveMember _ | CallCreateRepo _ _ _ _ | CallUpdateRepo _ _ _
  | CallDeleteRepo _ => false
  | _ => true
  end.
Lemma keeps_user_route {A} M O R handler (h : User → apiM A) req d :
  (∀ u, keeps (frame M O R) (h u)) → frame M O R d → frame M O R (at_route handler (for_user h) req d).
Proof. intros Hh Hd. unfold at_route. apply keeps_serve; [|done]. intros c. by apply keeps_for_user. Qed.

Lemma plain_call_frame M O R c d : plain_call c = true → frame M O R d → frame M O R (perform c d).
Proof.
  intros Hc Hd. destruct c; try done; cbn [AccountsApi.perform];
    try (apply keeps_user_route; [intros u|done]).
  - revert d Hd. change (keeps (frame M O R) (SendMagicLink cfg now delivered linkID token email)). unfold SendMagicLink.
    do 2 (apply keeps_bind; [auto with keeps|intros ?]). apply keeps_bind; [|eauto 20 with keeps].
    destruct (GetUserByEmail _ _); [auto with keeps| |auto with keeps]. destruct (GetSignupByEmail _ _); auto with keeps.
  - revert d Hd. change (keeps (frame M O R) (ExchangeToken cfg now userID sessionID refreshToken magicToken)).
    unfold ExchangeToken. pose proof (frame_login M O R). eauto 10 with keeps.
  - revert d Hd. change (keeps (frame M O R) (RefreshToken cfg now refreshToken)). unfold RefreshToken.
    do 3 (apply keeps_bind; [auto with keeps|intros ?]). case_match; eauto 10 with keeps.
  - unfold Logout. auto with keeps.
  - unfold CreateToken. auto with keeps.
  - unfold DeleteToken. eauto 20 with keeps.
  - unfold at_route. apply keeps_serve; [|done]. intros c. auto with keeps.
  - unfold CreateSSHKey. do 2 (apply keeps_bind; [auto with keeps|intros ?]). apply keeps_bind; [auto with keeps|intros pubKey].
    apply keeps_bind; [|eauto 20 with keeps].
    intros d1 Hd1. pose proof (frame_create_key M O R keyID (us_ID u) name (computeFingerprint pubKey)
      (string_of (TrimSpace (bytes_of publicKey))) d1 Hd1) as Hk. by destruct (Accounts.CreateSSHKey _ _ _ _ _ d1).
  - unfold DeleteSSHKey. eauto 20 with keeps.
  - revert d Hd. change (keeps (frame M O R) (SubmitSignup signupID name email)). unfold SubmitSignup. eauto 20 with keeps.
  - unfold UpdateSignup, require_admin. eauto 20 with keeps.
  - unfold SetUserCIAccess, require_admin. do 2 (apply keeps_bind; [auto with keeps|intros ?]).
    apply keeps_bind; [|eauto 20 with keeps]. repeat case_decide; eauto 10 with keeps.
  - unfold RequestCIAccess. repeat case_match; eauto 10 with keeps.
  - by apply frame_proxy.
  - by apply frame_verify.
  - by apply frame_cleanup.
Qed.

(** *** Requests inside of an organisation *)

Lemma touches_tables d d1 :
  touches d d1 → ac_orgs d1 = ac_orgs d ∧ ac_members d1 = ac_members d ∧ ac_repos d1 = ac_repos d ∧
    ac_users d1 = ac_users d ∧ ac_links d1 = ac_links d.
Proof. induction 1 as [|d d2 d3 (now & id & ->) _ IH]; [done|exact IH]. Qed.
Lemma touches_wf d d1 : accounts_wf d → touches d d1 → accounts_wf d1.
Proof. intros Hd Ht. by eapply (frame_touches _ _ _ _ _ (conj Hd (conj eq_refl (conj eq_refl eq_refl)))). Qed.

(** The caller of a handler behind the guards of an organisation: a signed-in
    member with the role. *)
Definition member_call (req : Request) (d d1 : AccDB) (u : User) (o : Org) (role : string) : Prop :=
  touches d d1 ∧ (∃ cl, signed_in req d d1 u cl) ∧ ac_orgs d1 !! og_ID o = Some o ∧
  ∃ m, ac_members d1 !! (og_ID o, us_ID u) = Some m ∧ HasAtLeastRole m role = true.
Lemma member_of_path_call req d d1 u cl o role :
  accounts_wf d → touches d d1 → signed_in req d d1 u cl → member_of_path req d u o role → member_call req d d1 u o role.
Proof.
  intros Hd Ht Hs (_ & Ho & m & Hm & Hr). destruct (touches_tables _ _ Ht) as (Eo & Em & _).
  split; [done|]. split; [eauto|]. cbn in Ho, Hm. unfold GetMembership in Hm.
  destruct (ac_members d !! _) as [x|] eqn:Ex; [|done]. injection Hm as <-. split.
  - rewrite Eo. apply find_row_sound in Ho as [[i Hi] _]. by rewrite (wf_org_ids d Hd i o Hi).
  - exists x. by rewrite Em.
Qed.
Lemma org_call {A} handler role (h : User → Org → apiM A) req d :
  accounts_wf d → rt_guards (route_named handler) = in_org role →
  touches d (at_route handler (for_org h) req d) ∨
  ∃ d1 u o, member_call req d d1 u o role ∧ at_route handler (for_org h) req d = (h u o d1).1.
Proof.
  intros Hd Eg. unfold at_route. destruct (serve _ _ req d) as [d' res] eqn:E. cbn.
  apply serve_state in E as [Ht|(d1 & c & Ht & Ha & E)]; [by left|right]. rewrite Eg in Ha.
  apply in_org_admits in Ha as (u & cl & o & rp & Hs & Hm & _ & ->). cbn in E.
  exists d1, u, o. split; [by eapply member_of_path_call|by rewrite E].
Qed.
Lemma repo_call {A} handler role (h : User → Org → Repo → apiM A) req d :
  accounts_wf d → rt_guards (route_named handler) = in_repo role →
  touches d (at_route handler (for_repo h) req d) ∨
  ∃ d1 u o r, member_call req d d1 u o role ∧ ac_repos d1 !! rp_ID r = Some r ∧ rp_OrgID r = og_ID o ∧
    at_route handler (for_repo h) req d = (h u o r d1).1.
Proof.
  intros Hd Eg. unfold at_route. destruct (serve _ _ req d) as [d' res] eqn:E. cbn.
  apply serve_state in E as [Ht|(d1 & c & Ht & Ha & E)]; [by left|right]. rewrite Eg in Ha.
  apply in_repo_admits in Ha as (u & cl & o & rp & Hs & Hm & (r & -> & _ & Hr) & ->). cbn in E, Hr.
  exists d1, u, o, r. split; [by eapply member_of_path_call|].
  destruct (touches_tables _ _ Ht) as (_ & _ & -> & _). apply find_row_sound in Hr as [[i Hi] Hn].
  unfold named in Hn. apply andb_true_iff in Hn as [Hn%bool_decide_eq_true _].
  split; [by rewrite (wf_repo_ids d Hd i r Hi)|]. split; [done|by rewrite E].
Qed.

(** *** The six operations *)

(** Memberships of one organisation may differ. *)
Definition frame_members (k : string) (M : gmap (string * string) string) O R (d : AccDB) : Prop :=
  ∃ M', frame M' O R d ∧ ∀ o v, o ≠ k → M' !! (o, v) = M !! (o, v).
Lemma keeps_members {E A} k M O R (m : stM AccDB E A) :
  (∀ M', keeps (frame M' O R) m) → keeps (frame_members k M O R) m.
Proof. intros Hm d (M' & Hd & Hk). exists M'. split; [by apply Hm|done]. Qed.

Lemma AddMember_frame M O R userID actor o email role :
  keeps (frame_members (og_ID o) M O R) (AddMember userID actor o email role).
Proof.
  assert (∀ u, keeps (frame_members (og_ID o) M O R) (Accounts.AddMember (og_ID o) u role)) as Ha.
  { intros u d (M' & (Hd & <- & <- & <-) & Hk). unfold Accounts.AddMember. st_simpl.
    repeat case_bool_decide; cbn; try (by exists (ac_members d)). exists (<[(og_ID o, u) := role]> (ac_members d)).
    split; [split; [|done]|]; [by apply wf_set_member; try apply not_eq_None_Some|].
    intros p v Hp. rewrite lookup_insert_ne; [by apply Hk|]. congruence. }
  unfold AddMember. do 2 (apply keeps_bind; [auto with keeps|intros ?]).
  apply keeps_bind; [apply keeps_members; auto with keeps|]. intros uc. apply keeps_bind; [by apply keeps_on_db|].
  intros []. apply keeps_bind; [apply keeps_members; auto with keeps|auto with keeps].
Qed.
Lemma RemoveMember_frame M O R actor o userID d :
  O !! og_ID o = Some o → frame M O R d → frame_members (og_ID o) M O R (RemoveMember actor o userID d).1.
Proof.
  intros Ho (Hd & <- & <- & <-). unfold RemoveMember, on_db, Accounts.RemoveMember, WriteAudit. st_simpl.
  case_bool_decide; cbn; [by exists (ac_members d)|]. case_bool_decide; cbn; [by exists (ac_members d)|].
  exists (delete (og_ID o, userID) (ac_members d)). split; [split; [|done]|].
  - apply wf_audit, wf_remove_member; [done|]. intros p Hp. congruence.
  - intros p v Hp. rewrite lookup_delete_ne; [done|]. congruence.
Qed.

(** Repositories of one organisation may differ; [old] says whether rows that
    were there may. *)
Definition frame_repos (old : bool) (k : string) M O (R : gmap string Repo) (d : AccDB) : Prop :=
  ∃ R', frame M O R' d ∧ ∀ i, R' !! i ≠ R !! i →
    (R !! i = None ∧ ∃ r, R' !! i = Some r ∧ rp_OrgID r = k) ∨ (old = true ∧ ∃ r, R !! i = Some r ∧ rp_OrgID r = k).
Lemma keeps_repos {E A} old k M O R (m : stM AccDB E A) :
  (∀ R', keeps (frame M O R') m) → keeps (frame_repos old k M O R) m.
Proof. intros Hm d (M' & Hd & Hk). exists M'. split; [by apply Hm|done]. Qed.
Lemma frame_repos_same old k M O R d : frame M O R d → frame_repos old k M O R d.
Proof. intros Hd. exists R. by split. Qed.

Lemma CreateRepo_frame M O R repoID u o name visibility d :
  frame M O R d → frame_repos false (og_ID o) M O R (CreateRepo shards repoID u o name visibility d).1.
Proof.
  assert (∀ n v s d, frame M O R d → frame_repos false (og_ID o) M O R (Accounts.CreateRepo repoID (og_ID o) n v s (us_ID u) d).1) as Hc.
  { intros n v s e (He & <- & <- & <-). unfold Accounts.CreateRepo. st_simpl.
    case_bool_decide as Hid; cbn; [by apply frame_repos_same|]. destruct (taken _ _) eqn:Et; cbn; [by apply frame_repos_same|].
    repeat (case_bool_decide; cbn; [by apply frame_repos_same|]). rewrite taken_false in Et. apply eq_None_not_Some in Hid.
    exists (<[repoID := mk_Repo repoID (og_ID o) n v s (us_ID u)]> (ac_repos e)). split; [split; [|done]|].
    - apply (wf_insert_repo e (mk_Repo repoID (og_ID o) n v s (us_ID u))); [done|done|done|by apply not_eq_None_Some].
    - intros i Hi. destruct (decide (i = repoID)) as [->|?]; [|by rewrite lookup_insert_ne in Hi].
      left. split; [done|]. rewrite lookup_insert_eq. eauto. }
  intros Hd. unfold CreateRepo. assert (keeps (frame_repos false (og_ID o) M O R) (WriteAudit (E := http_error)
    (Some (og_ID o)) (Some (us_ID u)) "repo.create" "repo" "")) as _ by (apply keeps_repos; auto with keeps).
  st_simpl. destruct (negb _); [by apply frame_repos_same|]. case_bool_decide; [by apply frame_repos_same|].
  destruct (PickShardByHash _ _) as [s|e|]; [|by apply frame_repos_same..]. unfold on_db.
  specialize (Hc (NormalizeSlug name) (if decide (visibility = "") then "private" else visibility) s d Hd).
  destruct (Accounts.CreateRepo _ _ _ _ _ _ d) as [d1 [r|e|]]; cbn in *; [|done..].
  destruct Hc as (R' & (Hd1 & HM & HO & HR) & Hk). exists R'. split; [split; [by apply wf_audit|done]|done].
Qed.
Lemma UpdateRepo_frame M O R u o r name visibility d :
  R !! rp_ID r = Some r → rp_OrgID r = og_ID o → frame M O R d →
  frame_repos true (og_ID o) M O R (UpdateRepo u o r name visibility d).1.
Proof.
  intros Hr Ho Hd. assert (∀ n v d, frame M O R d → frame_repos true (og_ID o) M O R (Accounts.UpdateRepo (rp_ID r) n v d).1) as Hc.
  { intros n v e (He & <- & <- & <-). unfold Accounts.UpdateRepo. st_simpl.
    destruct (renames_onto _ _ _) eqn:En; cbn; [by apply frame_repos_same|].
    destruct (bool_decide _ && bool_decide _) eqn:Ev; cbn; [by apply frame_repos_same|].
    eexists. split; [split; [|by repeat split]|].
    - apply wf_rename_repo; [done|done|]. apply andb_false_iff in Ev as [Ev|Ev]; apply bool_decide_eq_false in Ev.
      + right. by apply eq_None_not_Some.
      + left. by apply dec_stable.
    - intros i Hi. right. split; [done|]. destruct (decide (rp_ID r = i)) as [<-|?]; [by exists r|].
      cbn in Hi. by rewrite lookup_alter_ne in Hi. }
  unfold UpdateRepo, on_db. st_simpl.
  destruct (decide (name = "")), (negb (ValidateSlug (NormalizeSlug name))), (decide (visibility = "")); cbn;
    try (by apply frame_repos_same); try (case_bool_decide; [by apply frame_repos_same|]);
    match goal with |- context [Accounts.UpdateRepo _ ?n ?v d] => specialize (Hc n v d Hd) end;
    destruct (Accounts.UpdateRepo _ _ _ d) as [d1 [q|err|]]; cbn in *; try done;
    destruct Hc as (R' & (Hd1 & HM & HO & HR) & Hk); exists R'; (split; [split; [by apply wf_audit|done]|done]).
Qed.
Lemma DeleteRepo_frame M O R u o r d :
  R !! rp_ID r = Some r → rp_OrgID r = og_ID o → frame M O R d → frame_repos true (og_ID o) M O R (DeleteRepo u o r d).1.
Proof.
  intros Hr Ho (Hd & <- & <- & <-). unfold DeleteRepo, on_db, Accounts.DeleteRepo, WriteAudit. st_simpl. cbn.
  eexists. split; [split; [|by repeat split]|].
  - apply wf_audit, wf_sub_repos; [done|]. by intros i q [_ ?]%lookup_delete_Some.
  - intros i Hi. right. split; [done|]. destruct (decide (rp_ID r = i)) as [<-|?]; [by exists r|].
    cbn in Hi. by rewrite lookup_delete_ne in Hi.
Qed.

Lemma CreateOrg_frame M O R orgID u slug name d :
  frame M O R d →
  frame M O R (CreateOrg orgID u slug name d).1 ∨
  O !! orgID = None ∧ ∃ org, frame (<[(orgID, us_ID u) := RoleOwner]> M) (<[orgID := org]> O) R (CreateOrg orgID u slug name d).1.
Proof.
  intros (Hd & <- & <- & <-). unfold CreateOrg, on_db, Accounts.CreateOrg. st_simpl.
  destruct (ValidateSlug _); [|by left]. cbn [negb]. generalize (if decide (name = "") then NormalizeSlug slug else name). intros nm.
  case_bool_decide as Hid; cbn; [by left|]. destruct (taken _ _) eqn:Et; cbn; [by left|]. case_bool_decide as Hu; cbn; [by left|].
  rewrite taken_false in Et. apply eq_None_not_Some in Hid.
  assert (ac_members d !! (orgID, us_ID u) = None) as Hm.
  { apply eq_None_not_Some. intros [role Hrole]. destruct (wf_members d Hd _ _ _ Hrole) as ([? ?] & _). congruence. }
  rewrite Hm. cbn. unfold GetOrgByID. cbn. rewrite lookup_insert_eq. cbn. right. split; [done|]. eexists.
  split; [|by repeat split]. apply wf_audit.
  apply (wf_insert_org d (mk_Org orgID (NormalizeSlug slug) nm (us_ID u)) RoleOwner); [done| |done|by apply not_eq_None_Some|by eexists].
  intros i p Hp. by apply Et, bool_decide_eq_false in Hp.
Qed.

(** *** All requests *)

Lemma HasAtLeastRole_level role required : HasAtLeastRole role required = true ↔ level required ≤ level role.
Proof. apply Z.leb_le. Qed.

Lemma create_org_call req orgID slug name d :
  let d' := at_route "CreateOrg" (for_user (λ u, CreateOrg orgID u slug name)) req d in
  touches d d' ∨ ∃ d1 u cl, touches d d1 ∧ signed_in req d d1 u cl ∧ d' = (CreateOrg orgID u slug name d1).1.
Proof.
  intros d'. unfold d', at_route. destruct (serve _ _ req d) as [d2 res] eqn:E. cbn.
  apply serve_state in E as [Ht|(d1 & c & Ht & Ha & E)]; [by left|right].
  change (rt_guards (route_named "CreateOrg")) with [GAuth] in Ha. cbn [let_in] in Ha.
  apply stM_bind_iff in Ha as (d3 & c3 & (u & cl & Hs & ->)%GAuth_admits & [= <- <-]). cbn in E.
  exists d3, u, cl. split; [done|]. split; [done|by rewrite E].
Qed.

Definition request_of (c : call) : option Request :=
  match c with
  | CallLogout req | CallCreateToken req _ _ _ _ _ | CallDeleteToken req | CallCreateOrg req _ _ _ | CallAddMember req _ _ _
  | CallRemoveMember req | CallCreateRepo req _ _ _ | CallUpdateRepo req _ _ | CallDeleteRepo req | CallGetRepo req
  | CallCreateSSHKey req _ _ _ | CallDeleteSSHKey req | CallUpdateSignup req _ _ | CallSetUserCIAccess req _ _ _
  | CallRequestCIAccess req | CallProxy req => Some req
  | _ => None
  end.
(** The user whose token the request carries. *)
Definition caller (c : call) (d : AccDB) (u : User) : Prop :=
  ∃ req d1 cl, request_of c = Some req ∧ signed_in req d d1 u cl.
Definition role_in (d : AccDB) (orgID : string) (u : User) (least : string) : Prop :=
  ∃ role, ac_members d !! (orgID, us_ID u) = Some role ∧ level least ≤ level role.

(** What a request did to memberships and repositories. *)
Definition authorised (c : call) (d d' : AccDB) : Prop :=
  (∀ o v, ac_members d' !! (o, v) ≠ ac_members d !! (o, v) →
    ∃ u, caller c d u ∧ (role_in d o u RoleAdmin ∨ ac_orgs d !! o = None ∧ v = us_ID u)) ∧
  (∀ i, ac_repos d' !! i ≠ ac_repos d !! i →
    ∃ u r, caller c d u ∧
      (ac_repos d !! i = Some r ∧ role_in d (rp_OrgID r) u RoleAdmin ∨
       ac_repos d !! i = None ∧ ac_repos d' !! i = Some r ∧ role_in d (rp_OrgID r) u RoleDeveloper)).

Lemma authorised_same c d d' : ac_members d' = ac_members d → ac_repos d' = ac_repos d → authorised c d d'.
Proof. intros Em Er. split; intros *; rewrite ?Em, ?Er; done. Qed.

Lemma member_call_role req c d d1 u o role :
  request_of c = Some req → member_call req d d1 u o role → caller c d u ∧ role_in d (og_ID o) u role.
Proof.
  intros Hc (Ht & [cl Hs] & _ & m & Hm & Hr). destruct (touches_tables _ _ Ht) as (_ & Em & _). split.
  - by exists req, d1, cl.
  - exists m. rewrite <-Em. split; [done|]. by apply HasAtLeastRole_level.
Qed.

Lemma perform_ok c d : accounts_wf d → accounts_wf (perform c d) ∧ authorised c d (perform c d).
Proof.
  intros Hd. assert (∀ d', touches d d' → accounts_wf d' ∧ authorised c d d') as Htouch.
  { intros d' Ht. destruct (touches_tables _ _ Ht) as (_ & Em & Er & _). split; [by eapply touches_wf|by apply authorised_same]. }
  assert (∀ d1, touches d d1 → frame (ac_members d) (ac_orgs d) (ac_repos d) d1) as Hframe.
  { intros d1 Ht. by eapply frame_touches. }
  assert (∀ req d1 u o role d', request_of c = Some req → member_call req d d1 u o role → level RoleAdmin ≤ level role →
    frame_members (og_ID o) (ac_members d) (ac_orgs d) (ac_repos d) d' → accounts_wf d' ∧ authorised c d d') as Hmem.
  { intros req d1 u o role d' Hc Hcall Hl (M' & (Hd' & HM & HO & HR) & Hk). split; [done|].
    destruct (member_call_role _ _ _ _ _ _ _ Hc Hcall) as (Hu & r & Hr & Hlr). split.
    - intros p v Hp. rewrite HM in Hp. destruct (decide (p = og_ID o)) as [->|?]; [|by destruct Hp; apply Hk].
      exists u. split; [done|]. left. exists r. split; [done|lia].
    - intros i Hi. by rewrite HR in Hi. }
  assert (∀ old req d1 u o role d', request_of c = Some req → member_call req d d1 u o role →
    level (if old : bool then RoleAdmin else RoleDeveloper) ≤ level role →
    frame_repos old (og_ID o) (ac_members d) (ac_orgs d) (ac_repos d) d' → accounts_wf d' ∧ authorised c d d') as Hrep.
  { intros old req d1 u o role d' Hc Hcall Hl (R' & (Hd' & HM & HO & HR) & Hk). split; [done|].
    destruct (member_call_role _ _ _ _ _ _ _ Hc Hcall) as (Hu & m & Hm & Hlm). split.
    - intros p v Hp. by rewrite HM in Hp.
    - intros i Hi. rewrite HR in Hi. destruct (Hk i Hi) as [(Hnew & r & Hr & Ho)|(-> & r & Hr & Ho)]; exists u, r.
      + split; [done|]. right. rewrite HR, Ho. split; [done|]. split; [done|]. exists m. split; [done|].
        assert (level RoleDeveloper ≤ level RoleAdmin) by done. destruct old; lia.
      + split; [done|]. left. rewrite Ho. split; [done|]. exists m. split; [done|lia]. }
  destruct (plain_call c) eqn:Hp.
  { destruct (plain_call_frame (ac_members d) (ac_orgs d) (ac_repos d) c d Hp (conj Hd (conj eq_refl (conj eq_refl eq_refl)))) as (? & ? & ? & ?).
    split; [done|by apply authorised_same]. }
  destruct c; try done; cbn [AccountsApi.perform].
  - destruct (create_org_call req orgID slug name d) as [Ht|(d1 & u & cl & Ht & Hs & ->)]; [by apply Htouch|].
    destruct (CreateOrg_frame _ _ _ orgID u slug name d1 (Hframe d1 Ht)) as [(Hd' & HM & HO & HR)|(Hn & org & (Hd' & HM & HO & HR))].
    + split; [done|by apply authorised_same].
    + split; [done|]. split; [|intros i Hi; by rewrite HR in Hi]. intros o v Hv. rewrite HM in Hv. exists u. split; [by exists req, d1, cl|].
      right. destruct (decide ((orgID, us_ID u) = (o, v))) as [[= <- <-]|?]; [done|]. by rewrite lookup_insert_ne in Hv.
  - destruct (org_call "AddMember" "admin" (λ u o, AddMember userID u o email role) req d Hd eq_refl)
      as [Ht|(d1 & u & o & Hc & ->)]; [by apply Htouch|]. apply (Hmem req d1 u o "admin"); [done..|].
    apply AddMember_frame. exists (ac_members d). split; [|done]. apply Hframe, Hc.
  - destruct (org_call "RemoveMember" "admin" (λ u o, RemoveMember u o (PathValue req "user_id")) req d Hd eq_refl)
      as [Ht|(d1 & u & o & Hc & ->)]; [by apply Htouch|]. apply (Hmem req d1 u o "admin"); [done..|].
    apply RemoveMember_frame; [|apply Hframe, Hc]. destruct Hc as (Ht & _ & Ho & _). by rewrite <-(proj1 (touches_tables _ _ Ht)).
  - destruct (org_call "CreateRepo" "developer" (λ u o, CreateRepo shards repoID u o name visibility) req d Hd eq_refl)
      as [Ht|(d1 & u & o & Hc & ->)]; [by apply Htouch|]. apply (Hrep false req d1 u o "developer"); [done..|].
    apply CreateRepo_frame, Hframe, Hc.
  - destruct (repo_call "UpdateRepo" "admin" (λ u o r, UpdateRepo u o r name visibility) req d Hd eq_refl)
      as [Ht|(d1 & u & o & r & Hc & Hr & Ho & ->)]; [by apply Htouch|]. apply (Hrep true req d1 u o "admin"); [done..|].
    apply UpdateRepo_frame; [|done|apply Hframe, Hc]. by destruct (touches_tables _ _ (proj1 Hc)) as (_ & _ & <- & _).
  - destruct (repo_call "DeleteRepo" "admin" DeleteRepo req d Hd eq_refl)
      as [Ht|(d1 & u & o & r & Hc & Hr & Ho & ->)]; [by apply Htouch|]. apply (Hrep true req d1 u o "admin"); [done..|].
    apply DeleteRepo_frame; [|done|apply Hframe, Hc]. by destruct (touches_tables _ _ (proj1 Hc)) as (_ & _ & <- & _).
Qed.

Lemma perform_all_wf l d : accounts_wf d → accounts_wf (perform_all cfg shards url_ok parse_key l d).
Proof.
  intros Hd. unfold perform_all. induction l as [|c l IH] using rev_ind; [done|]. rewrite foldl_app. cbn. by apply perform_ok.
Qed.

(** C18: The invariant of the account tables.  It holds of empty tables and
    is kept by every sequence of requests: every row is stored under its
    identifier; addresses, slugs, the names of an organisation's repositories,
    hashes of magic links and fingerprints of keys are unique; members,
    sessions, tokens and keys belong to users that exist, roles and visibilities
    are among those defined, and the owner of every organisation is one of its
    members. *)
Theorem accounts_invariant :
  accounts_wf (mk_AccDB ∅ ∅ ∅ ∅ ∅ ∅ ∅ ∅ ∅ []) ∧
  ∀ l d, accounts_wf d → accounts_wf (perform_all cfg shards url_ok parse_key l d).
Proof. split; [apply accounts_wf_empty|apply perform_all_wf]. Qed.

(** C19: Who changes memberships and repositories.  When a request changes the
    membership of some user in some organisation, its token is that of an
    administrator of this organisation, or the organisation is new and the user
    is the one who creates it.  When it changes or removes a repository, its
    token is that of an administrator of the repository's organisation; when it
    creates one, that of a developer. *)
Theorem changes_are_authorised c d :
  accounts_wf d →
  let d' := perform c d in
  (∀ o v, ac_members d' !! (o, v) ≠ ac_members d !! (o, v) →
    ∃ u, caller c d u ∧ (role_in d o u RoleAdmin ∨ ac_orgs d !! o = None ∧ v = us_ID u)) ∧
  (∀ i, ac_repos d' !! i ≠ ac_repos d !! i →
    ∃ u r, caller c d u ∧
      (ac_repos d !! i = Some r ∧ role_in d (rp_OrgID r) u RoleAdmin ∨
       ac_repos d !! i = None ∧ ac_repos d' !! i = Some r ∧ role_in d (rp_OrgID r) u RoleDeveloper)).
Proof. intros Hd. apply (perform_ok c d Hd). Qed.
End invariant.

(** *** An example *)

Lemma demo_wf : accounts_wf demo_db.
Proof.
  unfold demo_db. cbv zeta.
  apply (wf_insert_key _ bob_key); [|by intros i q Hq; cbn in Hq; rewrite lookup_empty in Hq|by eexists].
  apply (wf_insert_token _ bob_token); [|by eexists]. apply (wf_insert_token _ ann_token); [|by eexists].
  apply (wf_insert_repo _ app_repo); [|by intros i q Hq; cbn in Hq; rewrite lookup_empty in Hq|cbn; set_solver|by eexists].
  apply wf_set_member; [|by eexists..].
  apply (wf_insert_org _ acme RoleOwner); [|by intros i q Hq; cbn in Hq; rewrite lookup_empty in Hq|done|by eexists|by eexists].
  apply (wf_insert_user _ bob); [|done|].
  - apply (wf_insert_user _ ann); [apply accounts_wf_empty|done|]. by intros i v Hv; cbn in Hv; rewrite lookup_empty in Hv.
  - cbn. intros i v Hv. apply lookup_insert_Some in Hv as [[_ <-]|[_ Hv]]; [reflexivity|by rewrite lookup_empty in Hv].
Qed.

Definition demo_cfg : Config := mk_Config (900 * second) (604800 * second) (900 * second) "root@kai".
Definition demo_shards : ShardPicker := mk_ShardPicker {["s1" := "http://s1"]} ["s1"] 0.
#[export] Instance demo_unicode : Unicode := {| lower_rune s := s; upper_rune s := s |}.

(** Whatever Ann and Bob ask for. *)
Lemma accounts_invariant_witness :
  let d := perform_all demo_cfg demo_shards (λ _, true) (λ _, None)
    [CallAddMember (demo_request "POST" "klc_ann") "u9" "cy@acme" "admin"; CallRemoveMember (demo_request "DELETE" "klc_ann");
     CallDeleteRepo (demo_request "DELETE" "klc_bob"); CallProxy (demo_request "POST" "klc_bob")] demo_db in
  (ac_members d !! ("o1", "u9") = Some RoleAdmin ∧ ac_members d !! ("o1", "u2") = None ∧ ac_repos d !! "r1" = Some app_repo) ∧
  accounts_wf d.
Proof.
  intros d. assert (ac_members d !! ("o1", "u9") = Some RoleAdmin ∧ ac_members d !! ("o1", "u2") = None ∧ ac_repos d !! "r1" = Some app_repo) as E
    by (vm_compute; repeat split).
  split; [exact E|]. exact (proj2 (accounts_invariant demo_cfg demo_shards (λ _, true) (λ _, None)) _ demo_db demo_wf).
Defined.

(** Ann makes Bob an administrator. *)
Lemma changes_are_authorised_witness :
  let c := CallAddMember (demo_request "POST" "klc_ann") "u9" "bob@acme" "admin" in
  let d' := perform demo_cfg demo_shards (λ _, true) (λ _, None) c demo_db in
  ac_members d' !! ("o1", "u2") = Some RoleAdmin ∧ ∃ u, caller c demo_db u ∧ role_in demo_db "o1" u RoleAdmin.
Proof.
  intros c d'. assert (ac_members d' !! ("o1", "u2") = Some RoleAdmin) as E by (vm_compute; reflexivity).
  assert (ac_members demo_db !! ("o1", "u2") = Some RoleDeveloper) as E0 by (vm_compute; reflexivity).
  assert (ac_orgs demo_db !! "o1" = Some acme) as Eo by (vm_compute; reflexivity).
  pose proof (proj1 (changes_are_authorised demo_cfg demo_shards (λ _, true) (λ _, None) c demo_db demo_wf) "o1" "u2") as Hc.
  change (perform demo_cfg demo_shards (λ _, true) (λ _, None) c demo_db) with d' in Hc.
  clearbody c d'. rewrite E, E0, Eo in Hc. split; [exact E|].
  destruct Hc as (u & Hu & [Hr|[[=] _]]); [discriminate|]. exists u. exact (conj Hu Hr).
Defined.
