(* ===== verification/LoginProps.v ===== *)
(** * Logging in: properties

    A magic link leads in, and leads in once, whatever requests come between. *)

From S2P Require Import Prelude Json GoStrings Sha256 CiStore Accounts Routing Access AccountsApi AccessProps AccountsProps.
Local Open Scope Z_scope.

(** ** Logging in *)

Section login.
Context `{AccDriver, TokenService, Unicode}.
Variables (cfg : Config) (shards : ShardPicker) (url_ok : string → bool) (parse_key : bytes → option bytes).
#[local] Abbreviation perform_all := (perform_all cfg shards url_ok parse_key).

(** Every link with the hash was used. *)
Definition spent (hash : string) (d : AccDB) : Prop :=
  ∀ i l, ac_links d !! i = Some l → ml_TokenHash l = hash → is_Some (ml_UsedAt l).

Ltac links_op := intros d Hd; st_simpl; repeat (first [case_match|progress cbn]; try done).
Lemma spent_audit {E} h org actor action type id : keeps (spent h) (WriteAudit (E := E) org actor action type id).
Proof. links_op. Qed.
Lemma spent_create_user h id email name : keeps (spent h) (CreateUser id email name).
Proof. unfold CreateUser. links_op. Qed.
Lemma spent_user h id email name : keeps (spent h) (GetOrCreateUser id email name).
Proof.
  unfold GetOrCreateUser. apply keeps_bind; [apply keeps_gets|]. intros d.
  destruct (GetUserByEmail email d) as [u|[]|]; auto using spent_create_user with keeps.
Qed.
Lemma spent_ci_access h id b : keeps (spent h) (UpdateUserCIAccess id b).
Proof. links_op. Qed.
Lemma spent_request_ci h id : keeps (spent h) (Accounts.RequestCIAccess id).
Proof. links_op. Qed.
Lemma spent_last_login h now id : keeps (spent h) (UpdateLastLogin now id).
Proof. links_op. Qed.
Lemma spent_signup h id name email : keeps (spent h) (CreateSignup id name email).
Proof. unfold CreateSignup. links_op. Qed.
Lemma spent_update_signup h now id status notes : keeps (spent h) (UpdateSignupStatus now id status notes).
Proof. links_op. Qed.
Lemma spent_create_session h id user hash e : keeps (spent h) (CreateSession id user hash e).
Proof. unfold CreateSession. links_op. Qed.
Lemma spent_delete_session h id : keeps (spent h) (DeleteSession id).
Proof. links_op. Qed.
Lemma spent_delete_sessions h id : keeps (spent h) (DeleteUserSessions id).
Proof. links_op. Qed.
Lemma spent_create_token h id user org name hash scopes : keeps (spent h) (CreateAPIToken id user org name hash scopes).
Proof. unfold CreateAPIToken. links_op. Qed.
Lemma spent_delete_token h id : keeps (spent h) (DeleteAPIToken id).
Proof. links_op. Qed.
Lemma spent_create_key h id user name fp key : keeps (spent h) (Accounts.CreateSSHKey id user name fp key).
Proof. unfold Accounts.CreateSSHKey. links_op. Qed.
Lemma spent_delete_key h id : keeps (spent h) (Accounts.DeleteSSHKey id).
Proof. links_op. Qed.
Lemma spent_create_org h id slug name owner : keeps (spent h) (Accounts.CreateOrg id slug name owner).
Proof. unfold Accounts.CreateOrg. links_op. Qed.
Lemma spent_add_member h o u role : keeps (spent h) (Accounts.AddMember o u role).
Proof. unfold Accounts.AddMember. links_op. Qed.
Lemma spent_remove_member h o u : keeps (spent h) (Accounts.RemoveMember o u).
Proof. links_op. Qed.
Lemma spent_create_repo h id o name v s u : keeps (spent h) (Accounts.CreateRepo id o name v s u).
Proof. unfold Accounts.CreateRepo. links_op. Qed.
Lemma spent_update_repo h id name v : keeps (spent h) (Accounts.UpdateRepo id name v).
Proof. unfold Accounts.UpdateRepo. links_op. Qed.
Lemma spent_delete_repo h id : keeps (spent h) (Accounts.DeleteRepo id).
Proof. links_op. Qed.
Lemma spent_create_link h id email hash e : hash ≠ h → keeps (spent h) (CreateMagicLink id email hash e).
Proof.
  intros Hne d Hd. unfold CreateMagicLink. st_simpl. repeat case_match; cbn; try done.
  unfold spent. cbn. intros i l [[<- <-]|[? Hl]]%lookup_insert_Some; [done|by eapply Hd].
Qed.
Lemma spent_use_link h now id : keeps (spent h) (UseMagicLink now id).
Proof.
  intros d Hd. cbn. unfold spent. cbn. intros i l Hl. destruct (decide (id = i)) as [->|?].
  - rewrite lookup_alter_eq in Hl. apply fmap_Some in Hl as (k & _ & ->). by eexists.
  - rewrite lookup_alter_ne in Hl by done. by eapply Hd.
Qed.
Lemma spent_cleanup h now : keeps (spent h) (CleanupExpiredMagicLinks now).
Proof. intros d Hd. unfold spent. cbn. intros i l [Hl _]%map_lookup_filter_Some. by eapply Hd. Qed.
#[local] Hint Resolve spent_audit spent_user spent_ci_access spent_request_ci spent_last_login spent_signup
  spent_update_signup spent_create_session spent_delete_session spent_delete_sessions spent_create_token
  spent_delete_token spent_create_key spent_delete_key spent_create_org spent_add_member spent_remove_member
  spent_create_repo spent_update_repo spent_delete_repo spent_create_link spent_use_link spent_cleanup : keeps.

Lemma spent_touches h d d1 : spent h d → touches d d1 → spent h d1.
Proof. intros Hd Ht. destruct (touches_tables _ _ Ht) as (_ & _ & _ & _ & E). unfold spent. by rewrite E. Qed.
Lemma spent_serve {A} h r (f : Handler AccDB A) req : (∀ c, keeps (spent h) (f req c)) → keeps (spent h) (serve r f req).
Proof.
  intros Hf d Hd. destruct (serve r f req d) as [d' res] eqn:E. cbn.
  apply serve_state in E as [Ht|(d1 & c & Ht & _ & E)]; [by eapply spent_touches|].
  specialize (Hf c d1 (spent_touches _ _ _ Hd Ht)). by rewrite E in Hf.
Qed.
Lemma keeps_for_org {A} P (f : User → Org → apiM A) req c : (∀ u o, keeps P (f u o)) → keeps P (for_org f req c).
Proof. intros Hf. unfold for_org. destruct (cx_user c), (cx_org c); auto with keeps. Qed.
Lemma keeps_for_repo {A} P (f : User → Org → Repo → apiM A) req c :
  (∀ u o r, keeps P (f u o r)) → keeps P (for_repo f req c).
Proof. intros Hf. unfold for_repo. destruct (cx_user c), (cx_org c), (cx_repo c); auto with keeps. Qed.

(** The request does not store a link with the hash. *)
Definition other_link (h : string) (c : call) : Prop :=
  match c with CallSendMagicLink _ _ _ token _ => HashToken token ≠ h | _ => True end.

Lemma perform_spent h c d : other_link h c → spent h d → spent h (AccountsApi.perform cfg shards url_ok parse_key c d).
Proof.
  intros Hc Hd. destruct c; cbn [AccountsApi.perform]; unfold at_route;
    try (apply spent_serve; [intros c; first [apply keeps_for_user; intros u|apply keeps_for_org; intros u o
      |apply keeps_for_repo; intros u o r|auto with keeps]|done]).
  - revert d Hd. change (keeps (spent h) (SendMagicLink cfg now delivered linkID token email)). unfold SendMagicLink.
    do 2 (apply keeps_bind; [auto with keeps|intros ?]). apply keeps_bind; [|eauto 20 with keeps].
    destruct (GetUserByEmail _ _); [auto with keeps| |auto with keeps]. destruct (GetSignupByEmail _ _); auto with keeps.
  - revert d Hd. change (keeps (spent h) (ExchangeToken cfg now userID sessionID refreshToken magicToken)).
    unfold ExchangeToken, redeem_link. eauto 20 with keeps.
  - revert d Hd. change (keeps (spent h) (RefreshToken cfg now refreshToken)). unfold RefreshToken.
    do 3 (apply keeps_bind; [auto with keeps|intros ?]). case_match; eauto 10 with keeps.
  - unfold Logout. auto with keeps.
  - unfold CreateToken. auto with keeps.
  - unfold DeleteToken. eauto 20 with keeps.
  - unfold CreateOrg. eauto 20 with keeps.
  - unfold AddMember. eauto 20 with keeps.
  - unfold RemoveMember. eauto 20 with keeps.
  - unfold CreateRepo. eauto 20 with keeps.
  - unfold UpdateRepo. apply keeps_bind; [case_decide; eauto 10 with keeps|intros n].
    apply keeps_bind; [case_decide; eauto 10 with keeps|intros v]. eauto 20 with keeps.
  - unfold DeleteRepo. eauto 20 with keeps.
  - unfold CreateSSHKey. do 2 (apply keeps_bind; [auto with keeps|intros ?]). apply keeps_bind; [auto with keeps|intros pubKey].
    apply keeps_bind; [|eauto 20 with keeps].
    intros d1 Hd1. pose proof (spent_create_key h keyID (us_ID u) name (computeFingerprint pubKey)
      (string_of (TrimSpace (bytes_of publicKey))) d1 Hd1) as Hk. by destruct (Accounts.CreateSSHKey _ _ _ _ _ d1).
  - unfold DeleteSSHKey. eauto 20 with keeps.
  - revert d Hd. change (keeps (spent h) (SubmitSignup signupID name email)). unfold SubmitSignup. eauto 20 with keeps.
  - unfold UpdateSignup, require_admin. eauto 20 with keeps.
  - unfold SetUserCIAccess, require_admin. do 2 (apply keeps_bind; [auto with keeps|intros ?]).
    apply keeps_bind; [|eauto 20 with keeps]. repeat case_decide; eauto 10 with keeps.
  - unfold RequestCIAccess. repeat case_match; eauto 10 with keeps.
  - destruct (ProxyHandler shards url_ok req d) as [d1 r] eqn:E. cbn. apply proxy_touches in E. by eapply spent_touches.
  - destruct (VerifySSHKey now fingerprint repo d) as [d1 r] eqn:E. cbn. apply verify_links in E. unfold spent. by rewrite E.
  - by apply spent_cleanup.
Qed.

Lemma check_link_ok now token d link :
  check_link now token d = Ok link ↔
  token ≠ "" ∧ GetMagicLink (HashToken token) d = Ok link ∧ after now (ml_ExpiresAt link) = false ∧ ml_UsedAt link = None.
Proof.
  unfold check_link. split.
  - intros Hc. res_inv. rewrite bool_decide_eq_false in *. rewrite found_or_ok in *. by rewrite eq_None_not_Some.
  - intros (Ht & Hg & Ha & Hu). rewrite bool_decide_eq_false_2 by done. cbn. rewrite Hg. cbn. by rewrite Ha, Hu.
Qed.

Lemma redeem_spent now userID sessionID refreshToken link d :
  accounts_wf d → (∃ i, ac_links d !! i = Some link) →
  spent (ml_TokenHash link) (redeem_link cfg now userID sessionID refreshToken link d).1.
Proof.
  intros Hd [i Hi]. unfold redeem_link.
  match goal with |- context [(on_db ?st ?msg ?m ≫= ?f) d] => set (rest := f) end.
  assert (keeps (spent (ml_TokenHash link)) (rest ())) as Hrest by (unfold rest; eauto 20 with keeps).
  apply Hrest. cbn. unfold spent. cbn. intros j l Hl Eh.
  destruct (decide (ml_ID link = j)) as [<-|Hne].
  - rewrite lookup_alter_eq in Hl. apply fmap_Some in Hl as (k & _ & ->). by eexists.
  - rewrite lookup_alter_ne in Hl by done. destruct Hne. rewrite (wf_link_ids d Hd i link Hi).
    by apply (wf_hashes d Hd i j link l).
Qed.

(** C20: A magic link works once.  After a successful exchange of a link's
    token, and whatever requests follow that do not send a link with the same
    hash, exchanging the token again answers 401 and changes nothing. *)
Theorem magic_link_once d now userID sessionID refreshToken token d1 r l now' userID' sessionID' refreshToken' :
  accounts_wf d → ExchangeToken cfg now userID sessionID refreshToken token d = (d1, Ok r) →
  Forall (other_link (HashToken token)) l →
  let d2 := perform_all l d1 in
  ∃ msg, ExchangeToken cfg now' userID' sessionID' refreshToken' token d2 = (d2, Err (HttpError 401 msg)).
Proof.
  intros Hd He Hl. unfold ExchangeToken in He. cbv beta iota zeta delta [mbind stM_bind gets lift] in He.
  destruct (check_link now token d) as [link|e|] eqn:Hc; [|done..]. apply check_link_ok in Hc as (Ht & Hg & _).
  apply find_row_sound in Hg as [Hi Eh%bool_decide_eq_true].
  pose proof (redeem_spent now userID sessionID refreshToken link d Hd Hi) as Hs. rewrite He, Eh in Hs. cbn in Hs.
  assert (spent (HashToken token) (perform_all l d1)) as Hs2.
  { unfold AccountsApi.perform_all. clear He. revert d1 Hs. induction Hl as [|c l Hc _ IH]; intros d1 Hs; [done|].
    cbn. by apply IH, perform_spent. }
  intros d2. unfold ExchangeToken. st_simpl. fold d2 in Hs2. unfold check_link. rewrite bool_decide_eq_false_2 by done. cbn.
  destruct (GetMagicLink (HashToken token) d2) as [link2|e|] eqn:Hg2; cbn.
  - destruct (after now' (ml_ExpiresAt link2)); cbn; [by eexists|]. apply find_row_sound in Hg2 as [[j Hj] E2%bool_decide_eq_true].
    rewrite bool_decide_eq_true_2 by (by eapply Hs2). by eexists.
  - unfold GetMagicLink, or_not_found in Hg2. destruct (List.find _ _); [done|]. injection Hg2 as <-. by eexists.
  - unfold GetMagicLink, or_not_found in Hg2. by destruct (List.find _ _).
Qed.

(** *** The whole way in *)

Lemma bearer_token token :
  token ≠ "" → ∀ req, rq_Authorization req = "Bearer " +:+ token → request_token req = token.
Proof.
  intros Ht req E. assert (ExtractBearerToken (rq_Authorization req) = token) as Ex.
  { rewrite E. unfold ExtractBearerToken. rewrite bytes_of_app.
    assert (cut (bytes_of " ") (bytes_of "Bearer " ++ bytes_of token) = Some (bytes_of "Bearer", bytes_of token)) as -> by reflexivity.
    destruct (decide ("Bearer " +:+ token = "")) as [[=]|_]. rewrite decide_True by reflexivity. by rewrite string_of_bytes_of. }
  unfold request_token. rewrite Ex. by rewrite decide_False.
Qed.

Lemma jwt_signs_in c e req d u :
  claims_utf8 c → rq_Authorization req = "Bearer " +:+ jwt_sign c e → rq_Now req < e * second →
  ac_users d !! cl_UserID c = Some u → signed_in req d d u c.
Proof.
  intros Hc E Hnow Hu. destruct (jwt_header c e) as [t Ht].
  assert (request_token req = jwt_sign c e) as Er by (apply bearer_token; [by rewrite Ht|done]).
  unfold signed_in. rewrite Er, Ht. split; [done|]. rewrite <-Ht. unfold authenticate. st_simpl.
  assert (IsPAT (jwt_sign c e) = false) as ->.
  { unfold IsPAT. rewrite Ht, bytes_of_app. reflexivity. }
  unfold ValidateAccessToken. rewrite jwt_valid by done. cbn. unfold GetUserByID. by rewrite Hu.
Qed.

(** Texts that JSON keeps as they are. *)
Definition texts_utf8 (d : AccDB) : Prop :=
  (∀ i u, ac_users d !! i = Some u → utf8 (us_ID u) ∧ utf8 (us_Email u)) ∧
  ∀ i o, ac_orgs d !! i = Some o → utf8 (og_Slug o).

Lemma slugs_utf8 d userID : texts_utf8 d → Forall utf8 (slugs_of (ListUserOrgs userID d)).
Proof.
  intros [_ Ho]. apply Forall_forall. intros s ((o & role) & -> & Hin)%list_elem_of_fmap. unfold ListUserOrgs in Hin.
  rewrite acc_scan_perm in Hin. apply list_elem_of_omap in Hin as ([[oid uid] r] & _ & E). cbn in E. case_decide; [|done].
  destruct (ac_orgs d !! oid) as [o'|] eqn:Eo; [|done]. injection E as <- <-. by eapply Ho.
Qed.

(** The user of an address after [GetOrCreateUser]. *)
Lemma GetOrCreateUser_ok id email name d :
  accounts_wf d → ac_users d !! id = None →
  ∃ u b d', GetOrCreateUser id email name d = (d', Ok (u, b)) ∧ ac_users d' !! us_ID u = Some u ∧
    fold_email (us_Email u) = fold_email email ∧ ac_orgs d' = ac_orgs d ∧ ac_sessions d' = ac_sessions d ∧
    (∀ i v, ac_users d' !! i = Some v → ac_users d !! i = Some v ∨ i = id ∧ v = mk_User id email name false false None).
Proof.
  intros Hd Hid. unfold GetOrCreateUser. st_simpl. destruct (GetUserByEmail email d) as [u|e|] eqn:Eg.
  - apply find_row_sound in Eg as [[i Hi] E%bool_decide_eq_true]. exists u, false, d. rewrite (wf_user_ids d Hd i u Hi). auto 10.
  - unfold GetUserByEmail, or_not_found in Eg. destruct (List.find _ _) eqn:Ef; [done|]. injection Eg as <-.
    unfold CreateUser. st_simpl. rewrite Hid, bool_decide_eq_false_2 by (by intros []).
    assert (taken (same_email email) (ac_users d) = false) as ->.
    { apply taken_false. intros i u Hu. pose proof (find_absent _ _ u Ef) as Hn. cbv beta in Hn.
      rewrite acc_scan_perm, elem_of_rows in Hn. specialize (Hn (ex_intro _ i Hu)). apply bool_decide_eq_false in Hn.
      unfold same_email. destruct acc_driver; apply bool_decide_eq_false; congruence. }
    cbn. unfold GetUserByID. cbn. rewrite lookup_insert_eq. eexists _, true, _. split; [done|]. cbn.
    rewrite lookup_insert_eq. do 4 (split; [done|]). intros i v [[<- <-]|[_ ?]]%lookup_insert_Some; auto.
  - unfold GetUserByEmail, or_not_found in Eg. by destruct (List.find _ _).
Qed.

(** C21: Logging in.  Who has an account or an approved signup is sent a
    magic link; exchanging its token until the link expires gives an access
    token and a refresh token; and until the access token expires a request
    that bears it is authenticated as a user with the address (up to case). *)
Theorem login d now linkID token email now2 userID sessionID refreshToken :
  accounts_wf d → texts_utf8 d → utf8 email → utf8 userID → email ≠ "" → token ≠ "" →
  (∃ u, GetUserByEmail email d = Ok u) ∨ (∃ s, GetSignupByEmail email d = Ok s ∧ su_Status s = "approved") →
  ac_links d !! linkID = None → (∀ i l, ac_links d !! i = Some l → ml_TokenHash l ≠ HashToken token) →
  ac_users d !! userID = None → ac_sessions d !! sessionID = None →
  now2 ≤ unix (now + cfg_MagicLinkTTL cfg) * second →
  ∃ d1 d2 access u,
    SendMagicLink cfg now true linkID token email d = (d1, Ok token) ∧
    ExchangeToken cfg now2 userID sessionID refreshToken token d1 = (d2, Ok (access, refreshToken)) ∧
    fold_email (us_Email u) = fold_email email ∧
    ∀ req, rq_Authorization req = "Bearer " +:+ access → rq_Now req < unix (now2 + cfg_AccessTokenTTL cfg) * second →
      ∃ cl, signed_in req d2 d2 u cl.
Proof.
  intros Hd Htext He8 Hu8 Hne Htok Hwho Hlid Hhash Huid Hsid Hnow.
  set (link := mk_MagicLink linkID email (HashToken token) (unix (now + cfg_MagicLinkTTL cfg)) None).
  set (d1 := set_links (<[linkID := link]> (ac_links d)) d).
  assert (accounts_wf d1) as Hd1 by (by apply (wf_insert_link d link)).
  assert (SendMagicLink cfg now true linkID token email d = (d1, Ok token)) as E1.
  { unfold SendMagicLink. st_simpl. rewrite bool_decide_eq_false_2 by done.
    assert (on_db 500 "failed to create magic link"
      (CreateMagicLink linkID email (HashToken token) (unix (now + cfg_MagicLinkTTL cfg))) d = (d1, Ok ())) as Ec.
    { unfold on_db, CreateMagicLink. st_simpl. rewrite Hlid, bool_decide_eq_false_2 by (by intros []).
      assert (taken (λ l, bool_decide (ml_TokenHash l = HashToken token)) (ac_links d) = false) as ->; [|done].
      apply taken_false. intros i l Hl. apply bool_decide_eq_false. by eapply Hhash. }
    destruct (GetUserByEmail email d) as [u|e|] eqn:Eg.
    - by rewrite Ec.
    - destruct Hwho as [[u [=]]|(s & -> & ->)]. rewrite bool_decide_eq_true_2 by done. cbn [negb]. by rewrite Ec.
    - unfold GetUserByEmail, or_not_found in Eg. by destruct (List.find _ _). }
  assert (check_link now2 token d1 = Ok link) as Ec.
  { apply check_link_ok. split; [done|]. split; [|split; [by apply Z.ltb_ge|done]]. apply find_row.
    - intros i j y z Hy Hz Ey%bool_decide_eq_true Ez%bool_decide_eq_true.
      assert (i = j) as -> by (apply (wf_hashes d1 Hd1 i j y z Hy Hz); congruence). congruence.
    - split; [exists linkID; apply lookup_insert_eq|by apply bool_decide_eq_true]. }
  set (d2 := set_links (alter (λ l, mk_MagicLink (ml_ID l) (ml_Email l) (ml_TokenHash l) (ml_ExpiresAt l)
    (Some (unix now2))) linkID (ac_links d1)) d1).
  assert (accounts_wf d2) as Hd2 by (by apply wf_alter_link).
  destruct (GetOrCreateUser_ok userID email "" d2 Hd2 Huid) as (u & b & d3 & Eu & Hu & Hfold & Ho & Hs & Hback).
  set (login_user := mk_User (us_ID u) (us_Email u) (us_Name u) (us_CIAccess u) (us_CIRequested u) (Some (unix now2))).
  set (d4 := set_users (alter (λ u, mk_User (us_ID u) (us_Email u) (us_Name u) (us_CIAccess u) (us_CIRequested u)
    (Some (unix now2))) (us_ID u) (ac_users d3)) d3).
  assert (ac_users d4 !! us_ID u = Some login_user) as Hu4 by (unfold d4; cbn; by rewrite lookup_alter_eq, Hu).
  assert (utf8 (us_ID u) ∧ utf8 (us_Email u)) as [Hid8 Hem8].
  { destruct (Hback _ _ Hu) as [Hold|[_ ->]]; [by eapply (proj1 Htext)|done]. }
  assert (texts_utf8 d4) as Htext4.
  { split; [|unfold d4; cbn; rewrite Ho; apply Htext]. unfold d4. cbn. apply alter_forall; [|done].
    intros i v Hv. destruct (Hback _ _ Hv) as [Hold|[_ ->]]; [by eapply (proj1 Htext)|done]. }
  set (d5 := set_sessions (<[sessionID := mk_Session sessionID (us_ID u) (HashToken refreshToken)
    (unix (now2 + cfg_RefreshTokenTTL cfg))]> (ac_sessions d4)) d4).
  exists d1, d5, (access_token cfg now2 u d4), login_user. split; [done|]. split; [|split; [done|]].
  - unfold ExchangeToken. st_simpl. rewrite Ec. unfold redeem_link, on_db. st_simpl. cbn [ml_ID ml_Email link UseMagicLink].
    unfold UseMagicLink. st_simpl. cbn [any_err map_err]. fold d2. rewrite Eu. cbn [any_err map_err fst].
    unfold UpdateLastLogin. st_simpl. cbn [any_err map_err]. fold d4. unfold CreateSession. st_simpl.
    assert (ac_sessions d4 !! sessionID = None) as -> by (unfold d4; cbn; by rewrite Hs).
    rewrite bool_decide_eq_false_2 by (by intros []). rewrite Hu4, bool_decide_eq_false_2 by done. cbn.
    unfold GetSession. cbn. by rewrite lookup_insert_eq.
  - intros req Ha Hn. eexists. eapply jwt_signs_in; [|exact Ha|exact Hn|exact Hu4].
    unfold claims_utf8. cbn. repeat (apply Forall_cons_2; [first [done|by apply utf8_ascii]|]). apply Forall_app_2.
    + by apply slugs_utf8.
    + unfold session_scopes. utf8_all.
Qed.
End login.

(** *** An example: Ann asks for a link, and tries it twice *)

Definition ann_link : MagicLink := mk_MagicLink "l1" "ann@acme" (HashToken "klm_1") 1900 None.
Definition linked_db : AccDB := set_links (<["l1" := ann_link]> (ac_links demo_db)) demo_db.
Lemma linked_wf : accounts_wf linked_db.
Proof. apply (wf_insert_link demo_db ann_link demo_wf). intros i l Hl. change ((∅ : gmap string MagicLink) !! i = Some l) in Hl. rewrite lookup_empty in Hl. discriminate Hl. Qed.

Lemma magic_link_once_witness :
  let between := [CallCreateOrg (demo_request "POST" "klc_ann") "o2" "tools" "Tools"] in
  let x := ExchangeToken demo_cfg 1000000000000 "u9" "s1" "ref" "klm_1" linked_db in
  let d2 := perform_all demo_cfg demo_shards (λ _, true) (λ _, None) between x.1 in
  (og_Slug <$> ac_orgs d2 !! "o2") = Some "tools" ∧
  ∃ msg, ExchangeToken demo_cfg 1000000000001 "u9" "s2" "ref2" "klm_1" d2 = (d2, Err (HttpError 401 msg)).
Proof.
  intros between x d2.
  assert (match x.2 with Ok _ => true | _ => false end = true) as E by (vm_compute; reflexivity).
  assert ((og_Slug <$> ac_orgs d2 !! "o2") = Some "tools") as E2 by (vm_compute; reflexivity).
  pose proof (magic_link_once demo_cfg demo_shards (λ _, true) (λ _, None) linked_db 1000000000000 "u9" "s1" "ref" "klm_1" x.1) as Hm.
  change (ExchangeToken demo_cfg 1000000000000 "u9" "s1" "ref" "klm_1" linked_db) with x in Hm. clearbody x.
  split; [exact E2|]. destruct x as [d1 [r|e|]]; [|discriminate E..].
  apply (Hm r between 1000000000001 "u9" "s2" "ref2" linked_wf eq_refl). apply Forall_singleton. exact I.
Defined.

Lemma demo_utf8 : texts_utf8 demo_db.
Proof.
  split.
  - intros i u Hu. change ((<["u2" := bob]> {["u1" := ann]} : gmap string User) !! i = Some u) in Hu. unfold singletonM, map_singleton in Hu.
    repeat (apply lookup_insert_Some in Hu as [[_ <-]|[_ Hu]]; [split; by apply utf8_ascii|]).
    rewrite lookup_empty in Hu. discriminate Hu.
  - intros i o Ho. change (({["o1" := acme]} : gmap string Org) !! i = Some o) in Ho. unfold singletonM, map_singleton in Ho. apply lookup_insert_Some in Ho as [[_ <-]|[_ Ho]]; [by apply utf8_ascii|].
    rewrite lookup_empty in Ho. discriminate Ho.
Qed.

Lemma login_witness :
  ∃ d1 d2 access u,
    SendMagicLink demo_cfg 1000000000000 true "l1" "klm_1" "ann@acme" demo_db = (d1, Ok "klm_1") ∧
    ExchangeToken demo_cfg 1500000000000 "u9" "s1" "ref" "klm_1" d1 = (d2, Ok (access, "ref")) ∧
    us_Email u = "ann@acme" ∧ ∃ cl, signed_in (mk_Request "GET" ("Bearer " +:+ access) None demo_path 1600000000000) d2 d2 u cl.
Proof.
  destruct (login demo_cfg demo_db 1000000000000 "l1" "klm_1" "ann@acme" 1500000000000 "u9" "s1" "ref") as (d1 & d2 & access & u & E1 & E2 & Eu & Hin).
  - exact demo_wf.
  - exact demo_utf8.
  - by apply utf8_ascii.
  - by apply utf8_ascii.
  - discriminate.
  - discriminate.
  - left. exists ann. vm_compute. reflexivity.
  - vm_compute. reflexivity.
  - intros i l Hl. change ((∅ : gmap string MagicLink) !! i = Some l) in Hl. rewrite lookup_empty in Hl. discriminate Hl.
  - vm_compute. reflexivity.
  - vm_compute. reflexivity.
  - apply Z.leb_le. vm_compute. reflexivity.
  - exists d1, d2, access, u. split; [exact E1|]. split; [exact E2|]. split; [exact Eu|]. apply Hin; [reflexivity|apply Z.ltb_lt; vm_compute; reflexivity].
Defined.
