(* ===== verification/GateProps.v ===== *)
(** * The gates of the data plane: properties

    What the HTTP proxy and the verification of SSH keys decide on intact
    account tables, and that the two agree. *)

From S2P Require Import Prelude Json GoStrings Sha256 CiStore Accounts Routing Access AccountsApi AccessProps AccountsProps.
Local Open Scope Z_scope.

(** ** The gates of the data plane *)

Section gates.
Context `{AccDriver, TokenService}.

(** Whom the token of a request names, if it names anyone. *)
Definition identity (req : Request) (d : AccDB) (who : option (User * Claims)) : Prop :=
  match who with
  | Some (u, cl) => ∃ d1, signed_in req d d1 u cl
  | None => ∀ d1 u cl, ¬ signed_in req d d1 u cl
  end.
(** Reads are open to everyone on public repositories and to reporters;
    writes to developers; a token needs the scope. *)
Definition may_use (d : AccDB) (who : option (User * Claims)) (readOnly : bool) (o : Org) (r : Repo) : Prop :=
  match who with
  | None => readOnly = true ∧ rp_Visibility r = "public"
  | Some (u, cl) =>
    HasScope (cl_Scopes cl) (if readOnly then ScopeRepoRead else ScopeRepoWrite) = true ∧
    match ac_members d !! (og_ID o, us_ID u) with
    | Some role => level (if readOnly then RoleReporter else RoleDeveloper) ≤ level role
    | None => readOnly = true ∧ rp_Visibility r = "public"
    end
  end.
Definition path_repo (req : Request) (d : AccDB) (o : Org) (r : Repo) : Prop :=
  PathValue req "org" ≠ "" ∧ PathValue req "repo" ≠ "" ∧ GetOrgBySlug (PathValue req "org") d = Ok o ∧
  GetRepoByOrgAndName (og_ID o) (PathValue req "repo") d = Ok r.

(** With the tables intact no user is missing, so nothing panics. *)
Lemma optional_user_ok req d :
  accounts_wf d →
  ∃ d1 who cl, optional_user req d = (d1, Ok (fst <$> who, cl)) ∧ identity req d who ∧
    (∀ u c, who = Some (u, c) → cl = Some c).
Proof.
  intros Hd. unfold optional_user, identity, signed_in, authenticate. st_simpl.
  destruct (decide (request_token req = "")) as [Et|Ht].
  { exists d, None, None. repeat split; try done. by intros ? ? ? [? _]. }
  destruct (IsPAT (request_token req)).
  - destruct (find_token (HashToken (request_token req)) d) as [t|e|] eqn:Eg; cbn.
    + apply find_row_sound in Eg as [[i Hi] _]. destruct (wf_tokens d Hd i t Hi) as [u Hu]. unfold GetUserByID. rewrite Hu. cbn.
      exists (UpdateAPITokenLastUsed (unix (rq_Now req)) (at_ID t) d), (Some (u, pat_claims u t)), (Some (pat_claims u t)).
      split; [done|]. split; [by eexists|]. by intros ? ? [= <- <-].
    + exists d, None, None. repeat split; try done. by intros ? ? ? [_ ?].
    + exists d, None, None. repeat split; try done. by intros ? ? ? [_ ?].
  - destruct (ValidateAccessToken _ _) as [c|]; cbn.
    + unfold GetUserByID. destruct (ac_users d !! cl_UserID c) as [u|]; cbn.
      * exists d, (Some (u, c)), (Some c). split; [done|]. split; [by eexists|]. by intros ? ? [= <- <-].
      * exists d, None, (Some c). repeat split; try done. by intros ? ? ? [_ ?].
    + exists d, None, None. repeat split; try done. by intros ? ? ? [_ ?].
Qed.

Lemma identity_functional req d who who' : identity req d who → identity req d who' → who = who'.
Proof.
  destruct who as [[u c]|], who' as [[u' c']|]; cbn; try done.
  - intros [d1 [_ E]] [d2 [_ E']]. congruence.
  - intros [d1 Hs] Hn. by destruct (Hn d1 u c).
  - intros Hn [d1 Hs]. by destruct (Hn d1 u' c').
Qed.

(** What is forwarded for whom: to the shard of the repository, in the name of
    the user, with a token for this organisation and access only. *)
Definition forwarded (shards : ShardPicker) (req : Request) (r : Repo) (who : option (User * Claims)) : Forwarded :=
  mk_Forwarded (GetShardURL (rp_ShardHint r) shards)
    ((λ uc : User * Claims, GenerateDownstreamToken (rq_Now req) (us_ID uc.1) (us_Email uc.1) (PathValue req "org")
       (if isReadOnlyRequest req then [ScopeRepoRead] else [ScopeRepoRead; ScopeRepoWrite])) <$> who)
    (match who with Some (u, _) => us_Email u | None => "anonymous" end).

Lemma proxy_check_ok req o r who cl d :
  (∀ u c, who = Some (u, c) → cl = Some c) →
  proxy_check req o r (fst <$> who, cl) d = (d, Ok ()) ∧ may_use d who (isReadOnlyRequest req) o r ∨
  (∃ e, proxy_check req o r (fst <$> who, cl) d = (d, Err e)) ∧ ¬ may_use d who (isReadOnlyRequest req) o r.
Proof.
  intros Hcl. unfold proxy_check, may_use. destruct who as [[u c]|]; cbn [fst snd fmap option_fmap option_map].
  - rewrite (Hcl u c eq_refl). unfold proxy_member. st_simpl. cbn. unfold GetMembership. destruct (ac_members d !! _) as [role|]; cbn.
    + destruct (HasAtLeastRole role _) eqn:Er; cbn.
      * apply HasAtLeastRole_level in Er. destruct (HasScope _ _); cbn; [by left|]. right. split; [by eexists|]. by intros [? _].
      * right. split; [by eexists|]. intros [_ Hl]. apply HasAtLeastRole_level in Hl. congruence.
    + destruct (bool_decide_reflect (rp_Visibility r = "public")), (isReadOnlyRequest req); cbn; try (right; split; [by eexists|]; by intros (_ & ? & ?)).
      destruct (HasScope _ _); cbn; [by left|]. right. split; [by eexists|]. by intros [? _].
  - st_simpl. destruct (bool_decide_reflect (rp_Visibility r = "public")), (isReadOnlyRequest req); cbn; [by left|right; split; [by eexists|]; by intros [? ?]..].
Qed.
Lemma proxy_forward_ok shards url_ok req r who d :
  let url := GetShardURL (rp_ShardHint r) shards in
  proxy_forward (S := AccDB) shards url_ok req r (fst <$> who) d = (d, Ok (forwarded shards req r who)) ∧ url ≠ "" ∧ url_ok url = true ∨
  (∃ e, proxy_forward (S := AccDB) shards url_ok req r (fst <$> who) d = (d, Err e)) ∧ ¬ (url ≠ "" ∧ url_ok url = true).
Proof.
  unfold proxy_forward, forwarded. st_simpl. case_bool_decide as E; [right; split; [by eexists|by intros []]|].
  destruct (url_ok _); cbn; [left; by destruct who as [[]|]|right; split; [by eexists|by intros []]].
Qed.

(** C22: The proxy.  On intact tables it never panics and changes times of use
    only.  It forwards a request exactly when the repository of the path is
    there, its shard has an address, and the one the token names - or anyone,
    without a token that names someone - may use the repository that way; and
    then to this shard, in the user's name, with a token for this access. *)
Theorem ProxyHandler_spec shards url_ok req d :
  accounts_wf d →
  match ProxyHandler shards url_ok req d with
  | (d', Ok f) => touches d d' ∧ ∃ o r who,
      path_repo req d o r ∧ identity req d who ∧ may_use d who (isReadOnlyRequest req) o r ∧
      GetShardURL (rp_ShardHint r) shards ≠ "" ∧ url_ok (GetShardURL (rp_ShardHint r) shards) = true ∧
      f = forwarded shards req r who
  | (d', Err _) => touches d d' ∧ ¬ ∃ o r who,
      path_repo req d o r ∧ identity req d who ∧ may_use d who (isReadOnlyRequest req) o r ∧
      GetShardURL (rp_ShardHint r) shards ≠ "" ∧ url_ok (GetShardURL (rp_ShardHint r) shards) = true
  | (_, Panic) => False
  end.
Proof.
  intros Hd. destruct (ProxyHandler shards url_ok req d) as [d' res] eqn:E. pose proof (proxy_touches _ _ _ _ _ _ E) as Ht.
  revert E. unfold ProxyHandler, path_repo. st_simpl. cbn [find_org find_repo_of accounts_directory].
  destruct (bool_decide (PathValue req "org" = "")) eqn:E1; cbn [orb].
  { apply bool_decide_eq_true in E1. intros [= <- <-]. split; [done|]. by intros (? & ? & ? & (? & _) & _). }
  destruct (bool_decide (PathValue req "repo" = "")) eqn:E2.
  { apply bool_decide_eq_true in E2. intros [= <- <-]. split; [done|]. by intros (? & ? & ? & (_ & ? & _) & _). }
  apply bool_decide_eq_false in E1, E2.
  destruct (GetOrgBySlug _ d) as [o|e|] eqn:Eo; cbn [found_or map_err];
    [|intros [= <- <-]; split; [done|]; by intros (? & ? & ? & (_ & _ & [=] & _) & _)
     |unfold GetOrgBySlug, or_not_found in Eo; by destruct (List.find _ _)].
  destruct (GetRepoByOrgAndName _ _ d) as [r|e|] eqn:Er; cbn [found_or map_err];
    [|intros [= <- <-]; split; [done|]; intros (? & ? & ? & (_ & _ & [= <-] & ?) & _); congruence
     |unfold GetRepoByOrgAndName, or_not_found in Er; by destruct (List.find _ _)].
  destruct (optional_user_ok req d Hd) as (d1 & who & cl & Eu & Hid & Hcl). rewrite Eu.
  assert (∀ ro, may_use d1 who ro o r ↔ may_use d who ro o r) as Hsame.
  { intros ro. destruct (touches_tables _ _ (optional_user_touches _ _ _ _ Eu)) as (_ & Em & _). unfold may_use. by rewrite Em. }
  (** Nobody else is named, and no other repository. *)
  assert (∀ (P : option (User * Claims) → Repo → Prop), ¬ (may_use d who (isReadOnlyRequest req) o r ∧ P who r) →
    ¬ ∃ o' r' who', (PathValue req "org" ≠ "" ∧ PathValue req "repo" ≠ "" ∧ @Ok db_error Org o = Ok o' ∧
      GetRepoByOrgAndName (og_ID o') (PathValue req "repo") d = Ok r') ∧ identity req d who' ∧
      may_use d who' (isReadOnlyRequest req) o' r' ∧ P who' r') as Hno.
  { intros P Hn (o' & r' & who' & (_ & _ & [= <-] & Hr) & Hid' & Hm & HP). rewrite Er in Hr. injection Hr as <-.
    rewrite (identity_functional _ _ _ _ Hid' Hid) in *. by apply Hn. }
  destruct (proxy_check_ok req o r who cl d1 Hcl) as [[-> Hm]|[[e ->] Hn]]; rewrite Hsame in *.
  - cbn [fst]. destruct (proxy_forward_ok shards url_ok req r who d1) as [(-> & Hs & Hu)|([e ->] & Hn)]; intros [= <- <-]; (split; [done|]).
    + exists o, r, who. by rewrite Er.
    + apply (Hno (λ _ r, _ ∧ _)). by intros [_ ?].
  - intros [= <- <-]. split; [done|]. apply (Hno (λ _ r, _ ∧ _)). by intros [? _].
Qed.

(** *** SSH *)

Lemma trim_suffix_app p s : trim_suffix p (s ++ p) = s.
Proof.
  unfold trim_suffix, has_suffix_b. rewrite length_app.
  replace (length s + length p - length p)%nat with (length s) by lia. rewrite drop_app_length, take_app_length.
  rewrite (proj2 (Nat.leb_le _ _)) by lia. by rewrite bool_decide_eq_true_2.
Qed.
Lemma cut_slash a b : Byte.x2f ∉ a → cut (bytes_of "/") (a ++ Byte.x2f :: b) = Some (a, b).
Proof.
  change (bytes_of "/") with [Byte.x2f]. induction a as [|x a IH]; intros Ha; [done|]. apply not_elem_of_cons in Ha as [Hx Ha].
  cbn [app cut]. rewrite IH by done. unfold cut_prefix, has_prefix_b. cbn. rewrite bool_decide_eq_false_2; [done|].
  intros [= ->]. done.
Qed.

Definition roles : list string := [RoleGuest; RoleReporter; RoleDeveloper; RoleMaintainer; RoleAdmin; RoleOwner].
Lemma role_defined role : is_Some (RoleHierarchy !! role) → role ∈ roles.
Proof.
  intros [n Hn]. apply elem_of_list_to_map_2 in Hn. unfold roles.
  set_unfold. repeat (destruct Hn as [[= -> _]|Hn]; [tauto|]). done.
Qed.

Lemma role_permissions role :
  role ∈ roles →
  (level RoleDeveloper ≤ level role ↔ roleToPermission role ∈ ["write"; "admin"]) ∧
  (level RoleReporter ≤ level role ↔ role ≠ RoleGuest).
Proof.
  intros Hr. unfold roles in Hr. set_unfold. repeat (destruct Hr as [->|Hr]; [vm_compute; split; split; set_solver by done|]). done.
Qed.

(** C23: The SSH gate and the proxy agree.  On intact tables a key is answered
    with its user for every repository [org/name.git] whose organisation's slug
    has no slash; it may write exactly when the proxy would let the user write
    with a token of all scopes, and it may read exactly when the proxy would let
    the user read, or the user is a guest of the organisation. *)
Theorem ssh_proxy_agree d now fingerprint k u o r cl :
  accounts_wf d → fingerprint ≠ "" → GetSSHKeyByFingerprint fingerprint d = Ok k → ac_users d !! sk_UserID k = Some u →
  ac_orgs d !! og_ID o = Some o → ac_repos d !! rp_ID r = Some r → rp_OrgID r = og_ID o →
  Byte.x2f ∉ bytes_of (og_Slug o) →
  HasScope (cl_Scopes cl) ScopeRepoRead = true → HasScope (cl_Scopes cl) ScopeRepoWrite = true →
  ∃ d' resp, VerifySSHKey now fingerprint (og_Slug o +:+ "/" +:+ rp_Name r +:+ ".git") d = (d', Ok resp) ∧
    (may_use d (Some (u, cl)) false o r ↔ ∃ p, resp = Allowed (us_ID u) (us_Email u) p ∧ p ∈ ["write"; "admin"]) ∧
    ((∃ p, resp = Allowed (us_ID u) (us_Email u) p) ↔
     may_use d (Some (u, cl)) true o r ∨ ac_members d !! (og_ID o, us_ID u) = Some RoleGuest).
Proof.
  intros Hd Hfp Hk Hu Ho Hr Hor Hslash Hs1 Hs2.
  set (d1 := UpdateSSHKeyLastUsed (unix now) (sk_ID k) d).
  assert (GetOrgBySlug (og_Slug o) d1 = Ok o) as Eo.
  { apply find_row; [|split; [by exists (og_ID o)|by apply bool_decide_eq_true]]. intros i j y z Hy Hz E1%bool_decide_eq_true E2%bool_decide_eq_true.
    assert (i = j) as -> by (apply (wf_slugs d Hd i j y z Hy Hz); congruence). congruence. }
  assert (GetRepoByOrgAndName (og_ID o) (rp_Name r) d1 = Ok r) as Er.
  { apply find_row.
    - unfold named. intros i j y z Hy Hz [E1%bool_decide_eq_true E2%bool_decide_eq_true]%andb_true_iff
        [E3%bool_decide_eq_true E4%bool_decide_eq_true]%andb_true_iff.
      assert (i = j) as -> by (apply (wf_names d Hd i j y z Hy Hz); cbn; congruence). congruence.
    - split; [by exists (rp_ID r)|]. unfold named. by rewrite Hor, !bool_decide_eq_true_2. }
  assert (ac_members d1 = ac_members d) as Em by done.
  unfold VerifySSHKey. rewrite decide_False by done. st_simpl. cbn [find_key accounts_directory]. rewrite Hk.
  cbn [find_user accounts_directory]. unfold GetUserByID. rewrite Hu. cbn [or_not_found touch_key accounts_directory]. fold d1.
  destruct (decide (_ = "")) as [E|_]; [by destruct (og_Slug o)|]. exists d1.
  unfold repo_permission. rewrite !bytes_of_app, (app_assoc (bytes_of "/")), (app_assoc (bytes_of (og_Slug o))), trim_suffix_app.
  change (bytes_of "/") with [Byte.x2f]. cbn [app]. rewrite cut_slash, !string_of_bytes_of by done.
  cbn [find_org find_repo_of find_member accounts_directory]. rewrite Eo. cbn [denied_or]. rewrite Er. cbn [denied_or].
  unfold GetMembership, may_use. rewrite Em. destruct (ac_members d !! (og_ID o, us_ID u)) as [role|] eqn:Erole; cbn.
  - destruct (role_permissions role) as [Hw Hg]; [apply role_defined; by eapply (wf_members d Hd)|].
    eexists. split; [done|]. rewrite Hs1, Hs2. split.
    + rewrite Hw. split; [intros [_ Hp]; eauto|]. by intros (p & [= <-] & Hp).
    + rewrite Hg. split; [intros _|by eexists]. destruct (decide (role = RoleGuest)) as [->|?]; auto.
  - rewrite Hs1, Hs2. case_decide as Ep; eexists; (split; [done|]); split.
    + split; [by intros (_ & ? & _)|]. intros (p & [= <-] & Hp). set_solver.
    + split; [auto|by eexists].
    + split; [by intros (_ & ? & _)|]. by intros (p & [=] & _).
    + split; [by intros [p [=]]|]. by intros [(_ & _ & ?)|?].
Qed.
End gates.

(** *** An example: Bob, a developer, pushes *)

Definition bob_push : Request := demo_request "POST" "klc_bob".

Lemma ProxyHandler_spec_witness :
  fw_Actor <$> match (ProxyHandler demo_shards (λ _, true) bob_push demo_db).2 with Ok f => Some f | _ => None end = Some "bob@acme" ∧
  ∃ who, identity bob_push demo_db who ∧ may_use demo_db who false acme app_repo.
Proof.
  pose proof (ProxyHandler_spec demo_shards (λ _, true) bob_push demo_db demo_wf) as Hp.
  destruct (ProxyHandler demo_shards (λ _, true) bob_push demo_db) as [d' res] eqn:E.
  assert (fw_Actor <$> match (ProxyHandler demo_shards (λ _, true) bob_push demo_db).2 with Ok f => Some f | _ => None end = Some "bob@acme") as E1
    by (vm_compute; reflexivity).
  rewrite E in E1. split; [exact E1|]. destruct res as [f|e|]; [|discriminate E1..].
  destruct Hp as (_ & o & r & who & (_ & _ & Ho & Hr) & Hid & Hm & _). exists who. split; [exact Hid|].
  vm_compute in Ho. injection Ho as <-. vm_compute in Hr. injection Hr as <-. exact Hm.
Defined.

Definition all_scopes : Claims := mk_Claims "u2" "bob@acme" [] [ScopeRepoRead; ScopeRepoWrite] "" "".
Lemma ssh_proxy_agree_witness :
  (VerifySSHKey 1000000000000 "SHA256:k" "acme/app.git" demo_db).2 = Ok (Allowed "u2" "bob@acme" "write") ∧
  may_use demo_db (Some (bob, all_scopes)) false acme app_repo.
Proof.
  assert ((VerifySSHKey 1000000000000 "SHA256:k" "acme/app.git" demo_db).2 = Ok (Allowed "u2" "bob@acme" "write")) as E by (vm_compute; reflexivity).
  split; [exact E|].
  destruct (ssh_proxy_agree demo_db 1000000000000 "SHA256:k" bob_key bob acme app_repo all_scopes) as (d' & resp & Ev & Hw & _);
    [exact demo_wf|discriminate|vm_compute; reflexivity..| |vm_compute; reflexivity|vm_compute; reflexivity|].
  - apply (bool_decide_unpack _). vm_compute. exact I.
  - change ("acme" +:+ "/" +:+ "app" +:+ ".git") with "acme/app.git" in Ev. cbn [og_Slug rp_Name acme app_repo] in Ev.
    change ("acme" +:+ "/" +:+ "app" +:+ ".git") with "acme/app.git" in Ev. rewrite Ev in E. cbn [snd] in E. apply Hw. exists "write".
    injection E as ->. split; [reflexivity|]. apply (bool_decide_unpack _). vm_compute. exact I.
Defined.
