(* ===== verification/CiRunner.v ===== *)
(** * What runners and the CI tables exchange (kailab-control: db/ci.go, api/ci.go)

    The tables of logs, secrets, variables, runners, caches and artifacts, and
    the handlers that runners call with them: a claim is answered with the
    context of the job - its repository, the secrets and variables it may see,
    the outputs of the jobs it waited for - and a running job reports its steps
    and its log.  The tables of accounts ([Accounts]) and of runs ([CiStore],
    [CiPlan]) are parts of the state.

    New identifiers and the clock (in seconds) are arguments. *)

From S2P Require Import Prelude Json GoStrings Float64 Sha256 Expr Cron JobGraph Workflow Trigger Matrix WorkflowJson CiStore CiControl CiPlan Accounts Routing Access AccountsApi.
Local Open Scope Z_scope.

(** ** Rows *)

Record JobLog := mk_JobLog {
  jl_ID : string; jl_JobID : string; jl_StepID : option string; jl_ChunkSeq : Z; jl_Content : string;
  jl_Timestamp : Z }.
Record Artifact := mk_Artifact {
  af_ID : string; af_WorkflowRunID : string; af_JobID : string; af_Name : string; af_Path : string; af_Size : Z;
  af_ExpiresAt : option Z; af_CreatedAt : Z }.
Record WorkflowSecret := mk_WorkflowSecret {
  ws_ID : string; ws_RepoID : option string; ws_OrgID : option string; ws_Name : string; ws_Encrypted : string;
  ws_CreatedAt : Z; ws_UpdatedAt : Z; ws_CreatedBy : string }.
Record WorkflowVariable := mk_WorkflowVariable {
  wv_ID : string; wv_RepoID : option string; wv_OrgID : option string; wv_Name : string; wv_Value : string;
  wv_CreatedAt : Z; wv_UpdatedAt : Z }.
(** The column [labels] is JSON text. *)
Record Runner := mk_Runner {
  rr_ID : string; rr_Name : string; rr_OrgID : option string; rr_LabelsText : string; rr_Status : string;
  rr_LastSeenAt : option Z; rr_CreatedAt : Z }.
Record WorkflowCache := mk_WorkflowCache {
  wc_ID : string; wc_RepoID : string; wc_CacheKey : string; wc_Path : string; wc_Size : Z; wc_CreatedAt : Z;
  wc_LastUsed : Z }.

(** Rows by primary key; [rn_exits] is the column [exit_code] of the steps. *)
Record RunDB := mk_RunDB {
  rn_plan : PlanDB;
  rn_acc : AccDB;
  rn_exits : gmap string Z;
  rn_logs : gmap string JobLog;
  rn_secrets : gmap string WorkflowSecret;
  rn_vars : gmap string WorkflowVariable;
  rn_runners : gmap string Runner;
  rn_caches : gmap string WorkflowCache;
  rn_artifacts : gmap string Artifact }.
Definition set_plan p d := mk_RunDB p (rn_acc d) (rn_exits d) (rn_logs d) (rn_secrets d) (rn_vars d) (rn_runners d) (rn_caches d) (rn_artifacts d).
Definition set_acc a d := mk_RunDB (rn_plan d) a (rn_exits d) (rn_logs d) (rn_secrets d) (rn_vars d) (rn_runners d) (rn_caches d) (rn_artifacts d).
Definition set_exits m d := mk_RunDB (rn_plan d) (rn_acc d) m (rn_logs d) (rn_secrets d) (rn_vars d) (rn_runners d) (rn_caches d) (rn_artifacts d).
Definition set_logs m d := mk_RunDB (rn_plan d) (rn_acc d) (rn_exits d) m (rn_secrets d) (rn_vars d) (rn_runners d) (rn_caches d) (rn_artifacts d).
Definition set_secrets m d := mk_RunDB (rn_plan d) (rn_acc d) (rn_exits d) (rn_logs d) m (rn_vars d) (rn_runners d) (rn_caches d) (rn_artifacts d).
Definition set_vars m d := mk_RunDB (rn_plan d) (rn_acc d) (rn_exits d) (rn_logs d) (rn_secrets d) m (rn_runners d) (rn_caches d) (rn_artifacts d).
Definition set_runners m d := mk_RunDB (rn_plan d) (rn_acc d) (rn_exits d) (rn_logs d) (rn_secrets d) (rn_vars d) m (rn_caches d) (rn_artifacts d).
Definition set_caches m d := mk_RunDB (rn_plan d) (rn_acc d) (rn_exits d) (rn_logs d) (rn_secrets d) (rn_vars d) (rn_runners d) m (rn_artifacts d).
Definition set_artifacts m d := mk_RunDB (rn_plan d) (rn_acc d) (rn_exits d) (rn_logs d) (rn_secrets d) (rn_vars d) (rn_runners d) (rn_caches d) m.
(** The repositories that the tables of runs refer to are those of accounts. *)
Definition repo_names (a : AccDB) : gmap string (string * string) :=
  omap (λ r, (λ o, (og_Slug o, rp_Name r)) <$> ac_orgs a !! rp_OrgID r) (ac_repos a).
Definition with_repos (m : gmap string (string * string)) (c : CiDB) : CiDB :=
  mk_CiDB (db_runs c) (db_jobs c) (db_locks c) (db_workflows c) m.
Definition rn_ci (d : RunDB) : CiDB := with_repos (repo_names (rn_acc d)) (pd_ci (rn_plan d)).

Abbreviation runM := (stM RunDB ci_error).
Definition found {A} (o : option A) : res ci_error A := match o with Some a => Ok a | None => Err CiStore.ErrNotFound end.
Definition ptr (s : string) : option string := if decide (s = "") then None else Some s.
Definition refers {A} (m : gmap string A) (id : string) : bool := bool_decide (is_Some (m !! id)).

Section store.
Context `{AccDriver}.

(** [ORDER BY]; rows that compare equal come in the order they are found. *)
Definition order_by {A} (R : A → A → Prop) `{∀ x y, Decision (R x y)} (l : list A) : list A := merge_sort R (acc_scan l).

(** ** Steps *)

Definition StepStatusInProgress : string := "in_progress".
Definition StepStatusCompleted : string := "completed".
Definition step_number_le (x y : StepRow) : Prop := sp_Number x ≤ sp_Number y.
#[export] Instance step_number_le_dec x y : Decision (step_number_le x y).
Proof. unfold step_number_le. apply _. Defined.

Definition steps_of (d : RunDB) : list StepRow := rows (pd_steps (rn_plan d)).
Definition GetStepByJobAndNumber (jobID : string) (number : Z) (d : RunDB) : res ci_error StepRow :=
  found (List.find (λ s, bool_decide (sp_JobID s = jobID) && (sp_Number s =? number)) (steps_of d)).
Definition ListJobSteps (jobID : string) (d : RunDB) : list StepRow :=
  order_by step_number_le (filter (λ s, sp_JobID s = jobID) (steps_of d)).
Definition update_step (id : string) (f : StepRow → StepRow) (d : RunDB) : RunDB :=
  set_plan (set_steps (alter f id (pd_steps (rn_plan d))) (rn_plan d)) d.
Definition StartStep (now : Z) (id : string) : RunDB → RunDB :=
  update_step id (λ s, mk_StepRow (sp_ID s) (sp_JobID s) (sp_Number s) (sp_Name s) StepStatusInProgress (sp_Conclusion s)
    (Some now) (sp_CompletedAt s)).
Definition CompleteStep (now : Z) (id conclusion : string) : RunDB → RunDB :=
  update_step id (λ s, mk_StepRow (sp_ID s) (sp_JobID s) (sp_Number s) (sp_Name s) StepStatusCompleted (Some conclusion)
    (sp_StartedAt s) (Some now)).
Definition CompleteStepWithExitCode (now : Z) (id conclusion : string) (exitCode : Z) (d : RunDB) : RunDB :=
  let d' := CompleteStep now id conclusion d in
  if decide (is_Some (pd_steps (rn_plan d) !! id)) then set_exits (<[id := exitCode]> (rn_exits d')) d' else d'.

(** ** Logs *)

Definition chunk_le (x y : JobLog) : Prop := jl_ChunkSeq x ≤ jl_ChunkSeq y.
#[export] Instance chunk_le_dec x y : Decision (chunk_le x y).
Proof. unfold chunk_le. apply _. Defined.

Definition logs_of (jobID : string) (d : RunDB) : list JobLog := filter (λ l, jl_JobID l = jobID) (rows (rn_logs d)).
(** [COALESCE(MAX(chunk_seq), -1) + 1] *)
Definition next_chunk (jobID : string) (d : RunDB) : Z :=
  match logs_of jobID d with
  | [] => -1
  | l :: ls => foldr Z.max (jl_ChunkSeq l) (jl_ChunkSeq <$> ls)
  end + 1.
Definition insert_chunk `{CiDriver} (l : JobLog) : runM () :=
  d ← gets (λ d, d);
  _ ← fail_if (negb (storable (jl_Content l))) (ErrText (jl_Content l));
  _ ← fail_if (refers (rn_logs d) (jl_ID l)) (ErrUnique "job_logs.id");
  _ ← fail_if (negb (refers (db_jobs (rn_ci d)) (jl_JobID l))) (ErrForeignKey "job_id");
  _ ← fail_if (match jl_StepID l with Some s => negb (refers (pd_steps (rn_plan d)) s) | None => false end) (ErrForeignKey "step_id");
  modify (λ d, set_logs (<[jl_ID l := l]> (rn_logs d)) d).
(** Two statements; nothing keeps another call from running between them. *)
Definition AppendJobLog `{CiDriver} (id : string) (now : Z) (jobID stepID content : string) : runM () :=
  chunkSeq ← gets (next_chunk jobID);
  insert_chunk (mk_JobLog id jobID (ptr stepID) chunkSeq content now).
Definition GetJobLogs (jobID : string) (d : RunDB) : list JobLog := order_by chunk_le (logs_of jobID d).
Definition GetJobLogsSince (jobID : string) (afterSeq : Z) (d : RunDB) : list JobLog :=
  order_by chunk_le (filter (λ l, afterSeq < jl_ChunkSeq l) (logs_of jobID d)).

(** ** Artifacts *)

Definition created_at_le (x y : Artifact) : Prop := af_CreatedAt x ≤ af_CreatedAt y.
#[export] Instance created_at_le_dec x y : Decision (created_at_le x y).
Proof. unfold created_at_le. apply _. Defined.

Definition GetArtifactByID (id : string) (d : RunDB) : res ci_error Artifact := found (rn_artifacts d !! id).
Definition CreateArtifact (id : string) (now : Z) (workflowRunID jobID name path : string) (size : Z) (expiresAt : option Z)
  : runM Artifact :=
  d ← gets (λ d, d);
  _ ← fail_if (refers (rn_artifacts d) id) (ErrUnique "artifacts.id");
  _ ← fail_if (negb (refers (db_runs (rn_ci d)) workflowRunID)) (ErrForeignKey "workflow_run_id");
  _ ← fail_if (negb (refers (db_jobs (rn_ci d)) jobID)) (ErrForeignKey "job_id");
  _ ← modify (λ d, set_artifacts (<[id := mk_Artifact id workflowRunID jobID name path size expiresAt now]> (rn_artifacts d)) d);
  d ← gets (λ d, d);
  lift (GetArtifactByID id d).
Definition ListWorkflowRunArtifacts (workflowRunID : string) (d : RunDB) : list Artifact :=
  order_by created_at_le (filter (λ a, af_WorkflowRunID a = workflowRunID) (rows (rn_artifacts d))).
(** Names need not be unique: one of them. *)
Definition GetArtifactByName (workflowRunID name : string) (d : RunDB) : res ci_error Artifact :=
  found (List.find (λ a, bool_decide (af_WorkflowRunID a = workflowRunID) && bool_decide (af_Name a = name))
    (acc_scan (rows (rn_artifacts d)))).
Definition DeleteArtifact (id : string) (d : RunDB) : RunDB := set_artifacts (delete id (rn_artifacts d)) d.
Definition expired_at (now : Z) (a : Artifact) : bool := match af_ExpiresAt a with Some e => e <? now | None => false end.
Definition DeleteExpiredArtifacts (now : Z) (d : RunDB) : RunDB * list Artifact :=
  let expired := acc_scan (filter (λ a, expired_at now a = true) (rows (rn_artifacts d))) in
  (match expired with
   | [] => d
   | _ => set_artifacts (filter (λ ka, expired_at now ka.2 = false) (rn_artifacts d)) d
   end, expired).

(** ** Secrets and variables

    A row belongs to a repository, or to an organisation and no repository. *)

Definition GetWorkflowSecretByID (id : string) (d : RunDB) : res ci_error WorkflowSecret := found (rn_secrets d !! id).
Definition in_scope (repoID orgID : string) (rowRepo rowOrg : option string) : bool :=
  bool_decide (rowRepo = Some repoID) || (bool_decide (rowOrg = Some orgID) && bool_decide (rowRepo = None)).
(** The row a name selects: of the repository, or else of the organisation. *)
Definition selects (repoID orgID name : string) (rowRepo rowOrg : option string) (rowName : string) : bool :=
  (if decide (repoID = "") then bool_decide (rowOrg = Some orgID) && bool_decide (rowRepo = None)
   else bool_decide (rowRepo = Some repoID)) && bool_decide (rowName = name).
Definition GetWorkflowSecretByName (repoID orgID name : string) (d : RunDB) : res ci_error WorkflowSecret :=
  if decide (repoID = "" ∧ orgID = "") then Err CiStore.ErrNotFound
  else found (List.find (λ s, selects repoID orgID name (ws_RepoID s) (ws_OrgID s) (ws_Name s)) (acc_scan (rows (rn_secrets d)))).

(** The partial unique indexes on (repo_id, name) and (org_id, name). *)
Definition same_key (repoID orgID : option string) (name : string) (rowRepo rowOrg : option string) (rowName : string) : bool :=
  bool_decide (rowName = name) &&
  match repoID with
  | Some r => bool_decide (rowRepo = Some r)
  | None => match orgID with Some o => bool_decide (rowOrg = Some o) && bool_decide (rowRepo = None) | None => false end
  end.
Definition dangling {A} (m : gmap string A) (id : option string) : bool :=
  match id with Some i => negb (refers m i) | None => false end.

Definition CreateWorkflowSecret (id : string) (now : Z) (repoID orgID name encrypted createdBy : string) : runM WorkflowSecret :=
  d ← gets (λ d, d);
  _ ← fail_if (refers (rn_secrets d) id) (ErrUnique "workflow_secrets.id");
  _ ← fail_if (taken (λ s, same_key (ptr repoID) (ptr orgID) name (ws_RepoID s) (ws_OrgID s) (ws_Name s)) (rn_secrets d))
        (ErrUnique "workflow_secrets.name");
  _ ← fail_if (dangling (ac_repos (rn_acc d)) (ptr repoID)) (ErrForeignKey "repo_id");
  _ ← fail_if (dangling (ac_orgs (rn_acc d)) (ptr orgID)) (ErrForeignKey "org_id");
  _ ← modify (λ d, set_secrets (<[id := mk_WorkflowSecret id (ptr repoID) (ptr orgID) name encrypted now now createdBy]>
        (rn_secrets d)) d);
  d ← gets (λ d, d);
  lift (GetWorkflowSecretByID id d).
(** [ORDER BY name]: the order of rows with one name, and of names, is the
    database's. *)
Definition ListRepoSecrets (repoID orgID : string) (d : RunDB) : list WorkflowSecret :=
  acc_scan (filter (λ s, in_scope repoID orgID (ws_RepoID s) (ws_OrgID s) = true) (rows (rn_secrets d))).
Definition UpdateWorkflowSecret (now : Z) (id encrypted : string) (d : RunDB) : RunDB :=
  set_secrets (alter (λ s, mk_WorkflowSecret (ws_ID s) (ws_RepoID s) (ws_OrgID s) (ws_Name s) encrypted (ws_CreatedAt s)
    now (ws_CreatedBy s)) id (rn_secrets d)) d.
Definition DeleteWorkflowSecret (id : string) (d : RunDB) : RunDB := set_secrets (delete id (rn_secrets d)) d.

Definition GetVariableByName (repoID orgID name : string) (d : RunDB) : res ci_error WorkflowVariable :=
  if decide (repoID = "" ∧ orgID = "") then Err CiStore.ErrNotFound
  else found (List.find (λ v, selects repoID orgID name (wv_RepoID v) (wv_OrgID v) (wv_Name v)) (acc_scan (rows (rn_vars d)))).
Definition insert_variable (now : Z) (id : string) (repoID orgID : option string) (name value : string) : runM () :=
  d ← gets (λ d, d);
  _ ← fail_if (refers (rn_vars d) id) (ErrUnique "workflow_variables.id");
  _ ← fail_if (taken (λ v, same_key repoID orgID name (wv_RepoID v) (wv_OrgID v) (wv_Name v)) (rn_vars d))
        (ErrUnique "workflow_variables.name");
  _ ← fail_if (dangling (ac_repos (rn_acc d)) repoID) (ErrForeignKey "repo_id");
  _ ← fail_if (dangling (ac_orgs (rn_acc d)) orgID) (ErrForeignKey "org_id");
  modify (λ d, set_vars (<[id := mk_WorkflowVariable id repoID orgID name value now now]> (rn_vars d)) d).
Definition db_SetVariable (now : Z) (id repoID orgID name value : string) : runM () :=
  d ← gets (λ d, d);
  match GetVariableByName repoID orgID name d with
  | Ok existing =>
    modify (λ d, set_vars (alter (λ v, mk_WorkflowVariable (wv_ID v) (wv_RepoID v) (wv_OrgID v) (wv_Name v) value
      (wv_CreatedAt v) now) (wv_ID existing) (rn_vars d)) d)
  | _ => if decide (repoID = "") then insert_variable now id None (Some orgID) name value
         else insert_variable now id (Some repoID) None name value
  end.
Definition ListRepoVariables (repoID orgID : string) (d : RunDB) : list WorkflowVariable :=
  acc_scan (filter (λ v, in_scope repoID orgID (wv_RepoID v) (wv_OrgID v) = true) (rows (rn_vars d))).
Definition db_DeleteVariable (id : string) (d : RunDB) : RunDB := set_vars (delete id (rn_vars d)) d.

(** ** Runners *)

Definition RunnerStatusOnline : string := "online".
Definition RunnerStatusOffline : string := "offline".
Definition GetRunnerByID (id : string) (d : RunDB) : res ci_error Runner := found (rn_runners d !! id).
Definition CreateRunner (id : string) (now : Z) (name orgID : string) (labels : option (list string)) : runM Runner :=
  d ← gets (λ d, d);
  _ ← fail_if (refers (rn_runners d) id) (ErrUnique "runners.id");
  _ ← fail_if (dangling (ac_orgs (rn_acc d)) (ptr orgID)) (ErrForeignKey "org_id");
  _ ← modify (λ d, set_runners (<[id := mk_Runner id name (ptr orgID) (marshal_strings labels) RunnerStatusOffline None now]>
        (rn_runners d)) d);
  d ← gets (λ d, d);
  lift (GetRunnerByID id d).
Definition db_RegisterRunner (now : Z) (id : string) (labels : option (list string)) (d : RunDB) : RunDB :=
  let text := marshal_strings labels in
  set_runners (<[id := match rn_runners d !! id with
                       | Some r => mk_Runner id (rr_Name r) (rr_OrgID r) text RunnerStatusOnline (Some now) (rr_CreatedAt r)
                       | None => mk_Runner id id None text RunnerStatusOnline (Some now) now
                       end]> (rn_runners d)) d.
(** Rows whose labels do not parse are passed over; so is a null. *)
Definition runner_labels (r : Runner) : list string := unmarshal_strings (rr_LabelsText r).
Definition CanRunLabel (now : Z) (label : string) (d : RunDB) : bool :=
  existsb (λ r, (negb (bool_decide (rr_Status r = RunnerStatusOffline)) ||
                 match rr_LastSeenAt r with Some t => now - 5 * 60 <? t | None => false end) &&
                existsb (λ rl, matchesRunsOn rl label) (runner_labels r)) (rows (rn_runners d)).
Definition UpdateRunnerStatus (now : Z) (id status : string) (d : RunDB) : RunDB :=
  set_runners (alter (λ r, mk_Runner (rr_ID r) (rr_Name r) (rr_OrgID r) (rr_LabelsText r) status (Some now) (rr_CreatedAt r))
    id (rn_runners d)) d.
Definition ListRunners (orgID : string) (d : RunDB) : list Runner :=
  acc_scan (filter (λ r, orgID = "" ∨ rr_OrgID r = Some orgID ∨ rr_OrgID r = None) (rows (rn_runners d))).

(** ** Caches *)

Definition cached (repoID cacheKey : string) (c : WorkflowCache) : bool :=
  bool_decide (wc_RepoID c = repoID) && bool_decide (wc_CacheKey c = cacheKey).
Definition last_used_ge (x y : WorkflowCache) : Prop := wc_LastUsed y ≤ wc_LastUsed x.
#[export] Instance last_used_ge_dec x y : Decision (last_used_ge x y).
Proof. unfold last_used_ge. apply _. Defined.

Definition GetCache (repoID cacheKey : string) (d : RunDB) : res ci_error WorkflowCache :=
  found (List.find (cached repoID cacheKey) (acc_scan (rows (rn_caches d)))).
(** [cache_key LIKE prefix || '%']; [LIKE] ignores the case on SQLite. *)
Definition prefix_fold (b : byte) : Z :=
  match acc_driver with DriverSQLite => lower b | DriverPostgres => int_of_byte b end.
Definition GetCacheByPrefix (repoID keyPrefix : string) (d : RunDB) : res ci_error WorkflowCache :=
  found (head (order_by last_used_ge
    (filter (λ c, wc_RepoID c = repoID ∧ like prefix_fold (bytes_of (keyPrefix +:+ "%")) (bytes_of (wc_CacheKey c)) = true)
      (rows (rn_caches d))))).
Definition CreateCache (id : string) (now : Z) (repoID cacheKey path : string) (size : Z) : runM WorkflowCache :=
  d ← gets (λ d, d);
  _ ← match List.find (cached repoID cacheKey) (acc_scan (rows (rn_caches d))) with
      | Some c => modify (λ d, set_caches (<[wc_ID c := mk_WorkflowCache (wc_ID c) repoID cacheKey path size (wc_CreatedAt c) now]>
                    (rn_caches d)) d)
      | None =>
        _ ← fail_if (refers (rn_caches d) id) (ErrUnique "workflow_cache.id");
        _ ← fail_if (negb (refers (ac_repos (rn_acc d)) repoID)) (ErrForeignKey "repo_id");
        modify (λ d, set_caches (<[id := mk_WorkflowCache id repoID cacheKey path size now now]> (rn_caches d)) d)
      end;
  d ← gets (λ d, d);
  lift (GetCache repoID cacheKey d).
Definition TouchCache (now : Z) (id : string) (d : RunDB) : RunDB :=
  set_caches (alter (λ c, mk_WorkflowCache (wc_ID c) (wc_RepoID c) (wc_CacheKey c) (wc_Path c) (wc_Size c) (wc_CreatedAt c) now)
    id (rn_caches d)) d.
Definition DeleteCache (id : string) (d : RunDB) : RunDB := set_caches (delete id (rn_caches d)) d.
Definition DeleteExpiredCaches (threshold : Z) (d : RunDB) : RunDB * list WorkflowCache :=
  let expired := acc_scan (filter (λ c, wc_LastUsed c < threshold) (rows (rn_caches d))) in
  (match expired with
   | [] => d
   | _ => set_caches (filter (λ kc, threshold ≤ wc_LastUsed kc.2) (rn_caches d)) d
   end, expired).
End store.

(** ** Handlers *)

Abbreviation ciM := (stM RunDB http_error).
Definition on_acc {E A} (m : stM AccDB E A) : stM RunDB E A := λ d, let '(a, r) := m (rn_acc d) in (set_acc a d, r).
Definition on_plan {E A} (m : stM PlanDB E A) : stM RunDB E A := λ d, let '(p, r) := m (rn_plan d) in (set_plan p d, r).
(** A statement whose errors are all answered alike. *)
Definition statement {A} (status : Z) (msg : string) (m : runM A) : ciM A := λ d,
  let '(d, r) := m d in (d, any_err status msg r).

Section handlers.
Context `{AccDriver, CiDriver, Unicode, Env}.

(** *** Secrets and variables, behind [in_repo "maintainer"] *)

Definition SetSecret (id : string) (now : Z) (user : User) (org : Org) (repo : Repo) (secretName value : string) : ciM () :=
  _ ← fail_if (bool_decide (secretName = "") || bool_decide (value = "")) (HttpError 400 "name and value are required");
  d ← gets (λ d, d);
  _ ← match GetWorkflowSecretByName (rp_ID repo) "" secretName d with
      | Ok existing => modify (UpdateWorkflowSecret now (ws_ID existing) value)
      | Err CiStore.ErrNotFound =>
        _ ← statement 500 "failed to create secret" (CreateWorkflowSecret id now (rp_ID repo) "" secretName value (us_ID user));
        mret ()
      | Err _ => lift (Err (HttpError 500 "failed to check secret"))
      | Panic => lift Panic
      end;
  on_acc (WriteAudit (Some (og_ID org)) (Some (us_ID user)) "secret.set" "repo" (rp_ID repo)).
Definition DeleteSecret (user : User) (org : Org) (repo : Repo) (secretName : string) : ciM () :=
  d ← gets (λ d, d);
  match GetWorkflowSecretByName (rp_ID repo) "" secretName d with
  | Ok secret =>
    _ ← modify (DeleteWorkflowSecret (ws_ID secret));
    on_acc (WriteAudit (Some (og_ID org)) (Some (us_ID user)) "secret.delete" "repo" (rp_ID repo))
  | Err CiStore.ErrNotFound => lift (Err (HttpError 404 "secret not found"))
  | Err _ => lift (Err (HttpError 500 "failed to get secret"))
  | Panic => lift Panic
  end.
(** What is listed: the name and the scope, not the value. *)
Definition scope_of (repoID : option string) : string := match repoID with None => "org" | Some _ => "repo" end.
Definition ListSecrets (org : Org) (repo : Repo) (d : RunDB) : list (string * string) :=
  (λ s, (ws_Name s, scope_of (ws_RepoID s))) <$> ListRepoSecrets (rp_ID repo) (og_ID org) d.

Definition SetVariable (id : string) (now : Z) (repo : Repo) (varName value : string) : ciM () :=
  _ ← fail_if (bool_decide (varName = "")) (HttpError 400 "variable name is required");
  statement 500 "failed to set variable" (db_SetVariable now id (rp_ID repo) "" varName value).
Definition DeleteVariable (repo : Repo) (varName : string) : ciM () :=
  d ← gets (λ d, d);
  match GetVariableByName (rp_ID repo) "" varName d with
  | Ok v => modify (db_DeleteVariable (wv_ID v))
  | Err CiStore.ErrNotFound => lift (Err (HttpError 404 "variable not found"))
  | Err _ => lift (Err (HttpError 500 "failed to get variable"))
  | Panic => lift Panic
  end.
Definition ListVariables (org : Org) (repo : Repo) (d : RunDB) : list (string * string * string) :=
  (λ v, (wv_Name v, wv_Value v, scope_of (wv_RepoID v))) <$> ListRepoVariables (rp_ID repo) (og_ID org) d.

(** *** What a viewer of a job polls; [after] is the parsed parameter *)

Definition Handler_GetJobLogs (jobID : string) (after : option Z) (d : RunDB) : list JobLog :=
  let afterSeq := default (-1) after in
  if 0 <=? afterSeq then GetJobLogsSince jobID afterSeq d else GetJobLogs jobID d.
Definition ListArtifacts (runID : string) (d : RunDB) : list Artifact := ListWorkflowRunArtifacts runID d.

(** *** What runners call *)

Definition RegisterRunner (now : Z) (runnerID : string) (labels : option (list string)) : ciM () :=
  _ ← fail_if (bool_decide (runnerID = "")) (HttpError 400 "runner_id required");
  modify (db_RegisterRunner now runnerID labels).
Definition AppendLogs (id : string) (now : Z) (jobID stepID content : string) : ciM () :=
  statement 500 "failed to append logs" (AppendJobLog id now jobID stepID content).
Definition Handler_CompleteStep (now : Z) (jobID : string) (stepNumber : Z) (conclusion : string) (exitCode : Z) : ciM () :=
  d ← gets (λ d, d);
  step ← lift (any_err 404 "step not found" (GetStepByJobAndNumber jobID stepNumber d));
  modify (CompleteStepWithExitCode now (sp_ID step) conclusion exitCode).

(** [GetJobOutputs] reads a text that [SetJobOutputs] wrote. *)
Definition read_outputs (text : string) : gmap string string :=
  match parse (bytes_of text) with Some v => default ∅ (jdec v) | None => ∅ end.
Definition GetJobOutputs (d : CiDB) (id : string) : res ci_error (gmap string string) :=
  j ← GetJobByID d id;
  Ok (match job_Outputs j with
      | Some text => if decide (text = "") then ∅ else read_outputs text
      | None => ∅
      end).
Definition GetJobSummary (d : CiDB) (id : string) : res ci_error string :=
  j ← GetJobByID d id; Ok (default "" (job_Summary j)).

(** The configuration that goes into a context; [qualify] is
    [qualifyShardURL]: the address of a shard as runners reach it. *)
Record RunnerConfig := mk_RunnerConfig {
  rcf_Shards : gmap string string; rcf_BaseURL : string; rcf_qualify : string → string }.

(** The context of a job.  A member that is left out is [None]. *)
Record JobContext := mk_JobContext {
  cx_repo_name : string; cx_ref : string; cx_sha : string; cx_event : string; cx_run_id : string;
  cx_clone_url : string; cx_actor : string; cx_workflow_name : string; cx_run_number : Z; cx_job_name : string;
  cx_server_url : string;
  cx_secrets : gmap string string;
  cx_vars : option (gmap string string);
  cx_inputs : option (gmap string string);
  cx_needs : option (gmap string (gmap string string * string)) }.
Record JobClaimResponse := mk_JobClaimResponse {
  cr_Job : Job; cr_WorkflowRun : WorkflowRun; cr_Workflow : WfRow; cr_Steps : list StepRow; cr_Context : JobContext }.

(** A row whose error is dropped and whose fields are read. *)
Definition deref {E A} (r : res E A) : res http_error A := match r with Ok a => Ok a | _ => Panic end.

Definition secrets_map (l : list WorkflowSecret) : gmap string string := foldl (λ m s, <[ws_Name s := ws_Encrypted s]> m) ∅ l.
Definition vars_map (l : list WorkflowVariable) : option (gmap string string) :=
  match l with [] => None | _ => Some (foldl (λ m v, <[wv_Name v := wv_Value v]> m) ∅ l) end.

Definition clone_url (cfg : RunnerConfig) (org : Org) (repo : Repo) : string :=
  let shardURL := rcf_qualify cfg (default "" (rcf_Shards cfg !! "default")) in
  let shardURL := if decide (rp_ShardHint repo = "") then shardURL
                  else match rcf_Shards cfg !! rp_ShardHint repo with Some u => rcf_qualify cfg u | None => shardURL end in
  shardURL +:+ "/" +:+ og_Slug org +:+ "/" +:+ rp_Name repo.

(** The first job definition with this display name, in the order of the loop. *)
Definition job_def (jobName : string) (visited : list (string * Workflow.Job)) : option Workflow.Job :=
  snd <$> List.find (λ kj, negb (bool_decide (j_Name kj.2 = "")) && bool_decide (j_Name kj.2 = jobName)) visited.
Definition input_vars (visited : list (string * string)) : gmap string string :=
  foldl (λ m kv, match cut_prefix (bytes_of "INPUT_") (bytes_of kv.1) with
                 | Some name => <[string_of (ToLower name) := kv.2]> m
                 | None => m
                 end) ∅ visited.
Definition job_inputs (wf : WfRow) (jobName : string) : ciM (option (gmap string string)) :=
  if contains_b (bytes_of "/") (bytes_of jobName) then
    match FromJSON (w_ParsedJSON wf) with
    | None => mret None
    | Some parsedWF =>
      n ← on_plan draw;
      match job_def jobName (visit n (wf_Jobs parsedWF)) with
      | None => mret None
      | Some jobDef =>
        n ← on_plan draw;
        let inputsMap := input_vars (visit n (j_Env jobDef)) in
        mret (if decide (inputsMap = ∅) then None else Some inputsMap)
      end
    end
  else mret None.

Definition need_entry (c : CiDB) (allJobs : list Job) (needsMap : gmap string (gmap string string * string)) (depName : string)
  : gmap string (gmap string string * string) :=
  match List.find (λ j, bool_decide (job_Name j = depName) && bool_decide (job_Status j = JobStatusCompleted)) allJobs with
  | Some depJob =>
    let outputs := match GetJobOutputs c (job_ID depJob) with Ok o => o | _ => ∅ end in
    <[depName := (outputs, default "" (job_Conclusion depJob))]> needsMap
  | None => needsMap
  end.
Definition needs_context (c : CiDB) (runID : string) (needs : list string) : option (gmap string (gmap string string * string)) :=
  match needs with
  | [] => None
  | _ => Some (foldl (need_entry c (ListWorkflowRunJobs c runID)) ∅ needs)
  end.

Definition claim_response (cfg : RunnerConfig) (job : Job) : ciM JobClaimResponse :=
  d ← gets (λ d, d);
  run ← lift (deref (GetWorkflowRunByID (rn_ci d) (job_WorkflowRunID job)));
  wf ← lift (deref (GetWorkflowByID (rn_plan d) (run_WorkflowID run)));
  repo ← lift (deref (GetRepoByID (run_RepoID run) (rn_acc d)));
  org ← lift (deref (GetOrgByID (rp_OrgID repo) (rn_acc d)));
  inputs ← job_inputs wf (job_Name job);
  mret (mk_JobClaimResponse job run wf (ListJobSteps (job_ID job) d)
    (mk_JobContext (og_Slug org +:+ "/" +:+ rp_Name repo) (run_TriggerRef run) (run_TriggerSHA run) (run_TriggerEvent run)
      (run_ID run) (clone_url cfg org repo) (default "" (run_CreatedBy run)) (w_Name wf) (run_RunNumber run) (job_Name job)
      (rcf_BaseURL cfg) (secrets_map (ListRepoSecrets (rp_ID repo) (og_ID org) d))
      (vars_map (ListRepoVariables (rp_ID repo) (og_ID org) d)) inputs (needs_context (rn_ci d) (run_ID run) (Needs job)))).

Definition on_ci {A} (m : citx A) : runM A := λ d,
  let '(c, r) := m (rn_ci d) in (set_plan (set_ci c (rn_plan d)) d, r).
Definition Handler_ClaimJob (cfg : RunnerConfig) (now : Z) (runnerID : string) (labels repos : list string)
  : ciM (option JobClaimResponse) :=
  _ ← modify (UpdateRunnerStatus now runnerID RunnerStatusOnline);
  job ← statement 500 "failed to claim job" (on_ci (ClaimJob runnerID labels repos));
  match job with
  | None => mret None
  | Some job => resp ← claim_response cfg job; mret (Some resp)
  end.
End handlers.
