(* ===== verification/RunnerProps.v ===== *)
(** * What runners and the CI tables exchange: properties

    The secrets, variables and outputs a claimed job is given, and the log that
    a viewer of a running job polls. *)

From S2P Require Import Prelude Json GoStrings Float64 Sha256 Expr Cron JobGraph Workflow Trigger Matrix WorkflowJson CiStore CiControl CiProps CiPlan PlanProps Accounts Routing Access AccountsApi AccessProps CiRunner.
Local Open Scope Z_scope.

(** ** Lemmas: maps that a loop fills *)

Section filled.
Context {X A : Type} (key : X → string) (val : X → A).
Definition filled (m : gmap string A) (l : list X) : gmap string A := foldl (λ m x, <[key x := val x]> m) m l.

Lemma filled_sound l m n a : filled m l !! n = Some a → m !! n = Some a ∨ ∃ x, x ∈ l ∧ key x = n ∧ val x = a.
Proof.
  revert m. induction l as [|x l IH]; intros m Hn; [by left|]. destruct (IH _ Hn) as [Hm|(y & ? & ?)].
  - apply lookup_insert_Some in Hm as [[<- <-]|[_ Hm]]; [|by left]. right. exists x. split; [by left|done].
  - right. exists y. split; [by right|done].
Qed.
Lemma filled_dom l m n : (∃ x, x ∈ l ∧ key x = n) ∨ is_Some (m !! n) → is_Some (filled m l !! n).
Proof.
  revert m. induction l as [|x l IH]; intros m Hn; [by destruct Hn as [(x & ?%elem_of_nil & _)|?]|].
  apply IH. destruct Hn as [(y & [->|Hy]%elem_of_cons & <-)|Hm]; [right|left; by exists y|right].
  - rewrite lookup_insert_eq. by eexists.
  - apply lookup_insert_is_Some. destruct (decide (key x = n)); [by left|by right].
Qed.
(** A key whose entries all have one value. *)
Lemma filled_complete l x :
  x ∈ l → (∀ y, y ∈ l → key y = key x → val y = val x) → filled ∅ l !! key x = Some (val x).
Proof.
  intros Hx Hu. destruct (filled_dom l ∅ (key x)) as [a Ha]; [left; by exists x|].
  destruct (filled_sound _ _ _ _ Ha) as [E|(y & Hy & Ek & <-)]; [by rewrite lookup_empty in E|].
  change (foldl _ ∅ l) with (filled ∅ l) in Ha. rewrite Ha. f_equal. by apply Hu.
Qed.
End filled.

(** ** The claim and its context *)

Section context.
Context `{AccDriver, CiDriver, Unicode, Env}.

Lemma job_inputs_frame wf name d :
  ∃ n, (job_inputs wf name d).1 = set_plan (set_tick n (rn_plan d)) d.
Proof.
  assert (d = set_plan (set_tick (pd_tick (rn_plan d)) (rn_plan d)) d) as E by (by destruct d as [[]]).
  unfold job_inputs, on_plan, draw. destruct (contains_b _ _); [|st_simpl; by eexists].
  destruct (FromJSON _); [|st_simpl; by eexists]. st_simpl. destruct (job_def _ _); st_simpl; [|by eexists].
  by eexists.
Qed.

(** What a successful answer says of the tables. *)
Lemma claim_answer cfg now runnerID labels repos d d' resp :
  Handler_ClaimJob cfg now runnerID labels repos d = (d', Ok (Some resp)) →
  ∃ c run wf repo org inputs,
    ClaimJob runnerID labels repos (rn_ci d) = (c, Ok (Some (cr_Job resp))) ∧ rn_ci d' = c ∧
    cr_WorkflowRun resp = run ∧ db_runs (rn_ci d) !! job_WorkflowRunID (cr_Job resp) = Some run ∧
    pd_wfs (rn_plan d) !! run_WorkflowID run = Some wf ∧
    ac_repos (rn_acc d) !! run_RepoID run = Some repo ∧ ac_orgs (rn_acc d) !! rp_OrgID repo = Some org ∧
    cr_Context resp =
      mk_JobContext (og_Slug org +:+ "/" +:+ rp_Name repo) (run_TriggerRef run) (run_TriggerSHA run) (run_TriggerEvent run)
        (run_ID run) (clone_url cfg org repo) (default "" (run_CreatedBy run)) (w_Name wf) (run_RunNumber run)
        (job_Name (cr_Job resp)) (rcf_BaseURL cfg) (secrets_map (ListRepoSecrets (rp_ID repo) (og_ID org) d))
        (vars_map (ListRepoVariables (rp_ID repo) (og_ID org) d)) inputs (needs_context c (run_ID run) (Needs (cr_Job resp))).
Proof.
  unfold Handler_ClaimJob. st_simpl. unfold statement, on_ci. change (rn_ci (UpdateRunnerStatus _ _ _ d)) with (rn_ci d).
  destruct (ClaimJob runnerID labels repos (rn_ci d)) as [c [[job|]|e|]] eqn:Ec; cbn [any_err map_err]; [|done..].
  pose proof (ClaimJob_cases runnerID labels repos (rn_ci d)) as Hc. cbv zeta in Hc. rewrite Ec in Hc. cbn [fst] in Hc.
  assert (db_runs c = db_runs (rn_ci d)) as Eruns by (by destruct Hc as [->|(j & _ & _ & _ & ->)]).
  assert (db_repos c = repo_names (rn_acc d)) as Erepos by (by destruct Hc as [->|(j & _ & _ & _ & ->)]).
  unfold claim_response. st_simpl.
  change (rn_plan (UpdateRunnerStatus now runnerID RunnerStatusOnline d)) with (rn_plan d).
  set (d1 := set_plan _ _). assert (rn_ci d1 = c) as Eci.
  { unfold rn_ci, with_repos. change (rn_acc d1) with (rn_acc d). rewrite <-Erepos. by destruct c. }
  rewrite Eci. unfold GetWorkflowRunByID. rewrite Eruns. destruct (db_runs (rn_ci d) !! _) as [run|] eqn:Erun; [|done]. cbn [deref].
  unfold GetWorkflowByID. change (pd_wfs (rn_plan d1)) with (pd_wfs (rn_plan d)).
  destruct (pd_wfs (rn_plan d) !! _) as [wf|] eqn:Ewf; [|done]. cbn [deref or_error].
  unfold GetRepoByID. change (rn_acc d1) with (rn_acc d). destruct (ac_repos (rn_acc d) !! _) as [repo|] eqn:Erepo; [|done].
  cbn [deref or_not_found]. unfold GetOrgByID. destruct (ac_orgs (rn_acc d) !! _) as [org|] eqn:Eorg; [|done]. cbn [deref or_not_found].
  destruct (job_inputs_frame wf (job_Name job) d1) as [n En].
  destruct (job_inputs wf (job_Name job) d1) as [d2 [inputs|e|]]; cbn [fst] in En; [|done..]. st_simpl. intros [= <- <-].
  exists c, run, wf, repo, org, inputs. rewrite En.
  split; [done|]. split; [exact Eci|]. by repeat (split; [done|]).
Qed.

(** A row that a job of the repository may see. *)
Definition visible (org : Org) (repo : Repo) (rowRepo rowOrg : option string) : Prop :=
  rowRepo = Some (rp_ID repo) ∨ rowRepo = None ∧ rowOrg = Some (og_ID org).

Lemma in_scope_iff org repo rowRepo rowOrg :
  in_scope (rp_ID repo) (og_ID org) rowRepo rowOrg = true ↔ visible org repo rowRepo rowOrg.
Proof. unfold in_scope, visible. rewrite orb_true_iff, andb_true_iff, !bool_decide_eq_true. tauto. Qed.

(** A map that holds of each name a visible value, and every visible value
    whose name has no other. *)
Definition gives {X} (key : X → string) (val : X → string) (sees : X → Prop) (table : gmap string X) (m : gmap string string) : Prop :=
  (∀ name v, m !! name = Some v → ∃ i x, table !! i = Some x ∧ sees x ∧ key x = name ∧ val x = v) ∧
  (∀ i x, table !! i = Some x → sees x → is_Some (m !! key x)) ∧
  ∀ i x, table !! i = Some x → sees x →
    (∀ j y, table !! j = Some y → sees y → key y = key x → val y = val x) → m !! key x = Some (val x).

Lemma gives_filled {X} (key val : X → string) (sees : X → Prop) (seesb : X → bool) (table : gmap string X) :
  (∀ x, seesb x = true ↔ sees x) →
  gives key val sees table (filled key val ∅ (acc_scan (filter (λ x, seesb x = true) (rows table)))).
Proof.
  intros Hs.
  assert (∀ x, x ∈ acc_scan (filter (λ x, seesb x = true) (rows table)) ↔ sees x ∧ ∃ i, table !! i = Some x) as Hin
    by (intros x; by rewrite acc_scan_perm, list_elem_of_filter, elem_of_rows, Hs).
  split; [|split].
  - intros name v Hv. apply filled_sound in Hv as [Hv|(x & [Hx [i Hi]]%Hin & <- & <-)]; [by rewrite lookup_empty in Hv|].
    by exists i, x.
  - intros i x Hi Hx. apply filled_dom. left. exists x. split; [|done]. apply Hin. split; [done|by exists i].
  - intros i x Hi Hx Hu. apply filled_complete; [apply Hin; split; [done|by exists i]|].
    intros y [Hy [j Hj]]%Hin Ek. by eapply Hu.
Qed.

(** C40: What a claimed job is given.  A claim that is answered with a job is
    the claim of this job; the context names the repository of the job's run;
    and it gives the secrets and the variables of this repository and those
    that its organisation has for all its repositories, and no others: each
    value is a visible row's, each visible name is given, and a name that only
    one value goes by has this value. *)
Theorem claim_context cfg now runnerID labels repos d d' resp :
  Handler_ClaimJob cfg now runnerID labels repos d = (d', Ok (Some resp)) →
  ∃ run repo org,
    ClaimJob runnerID labels repos (rn_ci d) = (rn_ci d', Ok (Some (cr_Job resp))) ∧
    db_runs (rn_ci d) !! job_WorkflowRunID (cr_Job resp) = Some run ∧
    ac_repos (rn_acc d) !! run_RepoID run = Some repo ∧ ac_orgs (rn_acc d) !! rp_OrgID repo = Some org ∧
    cx_repo_name (cr_Context resp) = og_Slug org +:+ "/" +:+ rp_Name repo ∧
    gives ws_Name ws_Encrypted (λ s, visible org repo (ws_RepoID s) (ws_OrgID s)) (rn_secrets d) (cx_secrets (cr_Context resp)) ∧
    gives wv_Name wv_Value (λ v, visible org repo (wv_RepoID v) (wv_OrgID v)) (rn_vars d)
      (default ∅ (cx_vars (cr_Context resp))).
Proof.
  intros Hc. apply claim_answer in Hc as (c & run & wf & repo & org & inputs & Hc & <- & _ & Hrun & _ & Hrepo & Horg & ->).
  exists run, repo, org. do 5 (split; [done|]). cbn. split.
  - apply (gives_filled _ _ _ (λ s, in_scope (rp_ID repo) (og_ID org) (ws_RepoID s) (ws_OrgID s))). intros s. apply in_scope_iff.
  - assert (∀ l, default ∅ (vars_map l) = filled wv_Name wv_Value ∅ l) as -> by by intros [].
    apply (gives_filled _ _ _ (λ v, in_scope (rp_ID repo) (og_ID org) (wv_RepoID v) (wv_OrgID v))). intros v. apply in_scope_iff.
Qed.
End context.

(** ** Completed jobs keep their rows *)

Section outputs.
Context `{CiDriver}.

Definition done_row (j : Job) (d : CiDB) : Prop := db_jobs d !! job_ID j = Some j ∧ job_Status j = JobStatusCompleted.

Lemma done_row_jobs j d d' : db_jobs d' = db_jobs d → done_row j d → done_row j d'.
Proof. unfold done_row. by intros ->. Qed.
Lemma done_row_update j d id f : (id = job_ID j → f j = j) → done_row j d → done_row j (update_job id f d).
Proof.
  intros Hf [Hj Hs]. split; [|done]. unfold update_job. cbn. destruct (decide (id = job_ID j)) as [->|Hne].
  - rewrite lookup_alter_eq, Hj. cbn. f_equal. by apply Hf.
  - by rewrite lookup_alter_ne.
Qed.
Lemma done_row_complete_all j c now d l :
  NoDup (ids l) → (∀ k, k ∈ l → db_jobs d !! job_ID k = Some k ∧ job_Status k ≠ JobStatusCompleted) →
  done_row j d → done_row j (complete_all c now d l).
Proof.
  intros Hn Hl [Hj Hs]. split; [|done]. rewrite complete_all_lookup by done. rewrite decide_False; [done|].
  intros (k & E & Hk)%list_elem_of_fmap. apply Hl in Hk as [Hk Hk']. rewrite <-E, Hj in Hk. injection Hk as ->. done.
Qed.
Lemma done_row_check j run now d : keys_ok d → done_row j d → done_row j (checkAndCompleteWorkflowRun run now d).
Proof.
  intros Hk Hj. destruct (check_cases run now d) as [E _]. destruct (check_sub run now d Hk) as (l & Hn & Hl & El).
  rewrite El in E. eapply done_row_jobs; [exact E|]. apply done_row_complete_all; [done| |done].
  intros k Hin. destruct (Hl k Hin) as (Hk1 & _ & Hw & _). split; [by apply elem_of_jobs|by apply waiting_not_completed].
Qed.
Lemma done_row_checks j now l d : keys_ok d → done_row j d →
  done_row j (foldl (λ d r, checkAndCompleteWorkflowRun r now d) d l).
Proof.
  revert d. induction l as [|r l IH]; intros d Hk Hj; cbn [foldl]; [done|]. apply IH; [|by apply done_row_check].
  eapply frame_keys; [by apply check_frame|done].
Qed.

(** Keys are kept: a run without jobs is done. *)
Lemma keys_op d o : keys_ok d → well_behaved d o → keys_ok (run_op o d).
Proof.
  intros Hk Hw. set (run := fresh (list_to_set (job_WorkflowRunID <$> jobs_of d) : gset string)).
  apply (done_op d run o Hk); [|done]. intros j Hj Hr. exfalso.
  apply (is_fresh (list_to_set (job_WorkflowRunID <$> jobs_of d) : gset string)). fold run. rewrite <-Hr.
  apply elem_of_list_to_set, list_elem_of_fmap. by exists j.
Qed.

Lemma status_differs j d id s : done_row j d → (job_Status <$> db_jobs d !! id) = Some s → s ≠ JobStatusCompleted → id ≠ job_ID j.
Proof. intros [Hj Hs] E Hne ->. rewrite Hj in E. cbn in E. congruence. Qed.

Lemma done_row_results j d id outputs summary :
  id ≠ job_ID j → done_row j d →
  let d1 := if decide (outputs = ∅) then d else SetJobOutputs id outputs d in
  done_row j (if decide (summary = "") then d1 else SetJobSummary id summary d1).
Proof. intros Hne Hj d1. unfold d1. destruct (decide (outputs = ∅)), (decide (summary = "")); by repeat (apply done_row_update; [done|]). Qed.
Lemma keys_results d id outputs summary :
  keys_ok d →
  let d1 := if decide (outputs = ∅) then d else SetJobOutputs id outputs d in
  keys_ok (if decide (summary = "") then d1 else SetJobSummary id summary d1).
Proof. intros Hk d1. unfold d1. destruct (decide (outputs = ∅)), (decide (summary = "")); repeat apply keys_update; done. Qed.

Lemma done_row_op j d o : keys_ok d → well_behaved d o → done_row j d → done_row j (run_op o d).
Proof.
  intros Hk Hw Hj. destruct o as [r labels repos|id name now|id con outputs summary now|id now|now]; cbn [run_op well_behaved] in *.
  - destruct (ClaimJob_cases r labels repos d) as [->|(k & Hin & Hq & _ & ->)]; [done|].
    apply done_row_update; [|done]. intros E. apply elem_of_jobs in Hin; [|done]. rewrite E, (proj1 Hj) in Hin. injection Hin as <-.
    by rewrite (proj2 Hj) in Hq.
  - assert (id ≠ job_ID j) as Hne by by eapply status_differs. unfold Handler_StartJob.
    assert (done_row j (HeartbeatJob id now (StartJob id name now d))) as H2 by (by repeat apply done_row_update).
    destruct (GetJobByID _ id); [|done..]. destruct (GetWorkflowRunByID _ _); [|done..]. destruct (decide _); [|done].
    unfold UpdateWorkflowRunStatus. by rewrite decide_True.
  - assert (id ≠ job_ID j) as Hne by (destruct Hw; by eapply status_differs). unfold Handler_CompleteJob.
    assert (done_row j (CompleteJob id con now d)) as H1 by by apply done_row_update.
    assert (keys_ok (CompleteJob id con now d)) as Hk1 by by apply keys_update.
    pose proof (done_row_results j _ id outputs summary Hne H1) as H2. pose proof (keys_results _ id outputs summary Hk1) as Hk2.
    destruct (GetJobByID _ id); [|done..]. by apply done_row_check.
  - apply done_row_update; [|done]. intros ->. destruct (decide (job_Status j = JobStatusInProgress)) as [E|]; [|done].
    by rewrite (proj2 Hj) in E.
  - unfold reapStaleJobs, FailStaleJobs. set (l := filter _ _). pose proof (fail_stale_all now l d []) as E.
    destruct (foldl (fail_stale now) (d, []) l) as [d1 affected]. cbn [fst] in E. subst d1.
    assert (∀ k, k ∈ l → k ∈ jobs_of d ∧ job_Status k ≠ JobStatusCompleted) as Hl.
    { intros k [Hs Hin]%list_elem_of_filter. rewrite ci_scan_perm in Hin. split; [done|].
      by apply is_stale_status in Hs as [-> | ->]. }
    assert (NoDup (ids l)) as Hnd.
    { eapply sublist_NoDup; [|apply fmap_sublist, sublist_filter]. rewrite ci_scan_perm. by apply NoDup_ids. }
    apply done_row_checks.
    + eapply frame_keys; [by apply frame_complete_all|done].
    + apply done_row_complete_all; [done| |done]. intros k [? ?]%Hl. split; [by apply elem_of_jobs|done].
Qed.
Lemma done_row_steps j d d' : steps d d' → keys_ok d → done_row j d → keys_ok d' ∧ done_row j d'.
Proof. induction 1 as [|o d d' Hw _ IH]; [done|]. intros Hk Hj. apply IH; [by apply keys_op|by apply done_row_op]. Qed.
(** *** The text of the outputs *)

Lemma read_outputs_marshal outputs :
  map_Forall (λ k v, utf8 k ∧ utf8 v) outputs → read_outputs (marshal_outputs outputs) = outputs.
Proof.
  intros Ho. destruct (jlaw (A := gmap string string) outputs) as (j & Ej & Hj & Hd).
  { intros k v Hkv. exact (Ho k v Hkv). }
  rewrite jexact in Hd.
  assert (∀ l : list (string * string), mapM enc_member l = Some (map (λ kv, (bytes_of kv.1, JStr (bytes_of kv.2))) l)) as Hm.
  { induction l as [|[k v] l IH]; [done|]. rewrite option_mapM_cons.
    change (enc_member (k, v)) with (Some (bytes_of k, JStr (bytes_of v))). cbn [mbind option_bind]. by rewrite IH. }
  cbn [jenc map_codec] in Ej. rewrite Hm in Ej. injection Ej as Ej. unfold read_outputs, marshal_outputs.
  rewrite bytes_of_string_of, Ej, parse_marshal by done. by rewrite Hd.
Qed.

Lemma need_entries c jobs n v (l : list string) m :
  (∀ m', need_entry c jobs m' n = <[n := v]> m') → n ∈ l ∨ m !! n = Some v →
  foldl (need_entry c jobs) m l !! n = Some v.
Proof.
  intros Hn. revert m. induction l as [|k l IH]; intros m Hin; [by destruct Hin as [?%elem_of_nil|?]|]. cbn [foldl]. apply IH.
  destruct (decide (k = n)) as [->|Hne]; [right; by rewrite Hn, lookup_insert_eq|].
  destruct Hin as [[->|Hin]%elem_of_cons|Hm]; [done|by left|right].
  unfold need_entry. destruct (List.find _ _); [|done]. by rewrite lookup_insert_ne.
Qed.

(** What the completion of a job leaves. *)
Lemma completed_row id conclusion outputs summary now c j :
  keys_ok c → db_jobs c !! id = Some j → outputs ≠ ∅ →
  ∃ j', done_row j' (run_op (OComplete id conclusion outputs summary now) c) ∧ job_ID j' = id ∧
    job_WorkflowRunID j' = job_WorkflowRunID j ∧ job_Name j' = job_Name j ∧ job_Conclusion j' = Some conclusion ∧
    job_Outputs j' = Some (marshal_outputs outputs).
Proof.
  intros Hk Hj Ho. pose proof (Hk id j Hj) as Eid. cbn [run_op]. unfold Handler_CompleteJob. rewrite (decide_False (P := outputs = ∅)) by done.
  set (c2 := SetJobOutputs id outputs (CompleteJob id conclusion now c)).
  assert (keys_ok c2) as Hk2 by (by repeat apply keys_update).
  assert (db_jobs c2 !! id = Some (job_with_results (Some (marshal_outputs outputs)) (job_Summary j) (job_completed conclusion now j))) as E2.
  { unfold c2, SetJobOutputs, CompleteJob, update_job. cbn. by rewrite !lookup_alter_eq, Hj. }
  set (c3 := if decide (summary = "") then c2 else SetJobSummary id summary c2).
  assert (keys_ok c3) as Hk3 by (unfold c3; destruct (decide _); [done|by apply keys_update]).
  assert (∃ s, db_jobs c3 !! id = Some (job_with_results (Some (marshal_outputs outputs)) s (job_completed conclusion now j))) as [s E3].
  { unfold c3. destruct (decide _); [by eexists|]. unfold SetJobSummary, update_job. cbn [db_jobs set_jobs]. rewrite lookup_alter_eq, E2. by eexists. }
  exists (job_with_results (Some (marshal_outputs outputs)) s (job_completed conclusion now j)). split; [|done]. unfold GetJobByID. rewrite E3. apply done_row_check; [done|]. split; [|done]. cbn. by rewrite Eid.
Qed.

(** The outputs of a job reach the jobs that need it.  A runner completes a job
    with outputs; then runners and the reaper do what they do; and when a runner
    is given a job of the run that needs the first one - whose name no other job
    of the run has - the context of the claim holds these outputs and the
    conclusion under the name of the first.  The completion is one step here;
    [late_outputs] is a claim between its statements. *)
Theorem outputs_reach `{AccDriver, Unicode, Env} cfg c d d' id j conclusion outputs summary now now' runnerID labels repos resp :
  keys_ok c → run_keys c → db_jobs c !! id = Some j →
  well_behaved c (OComplete id conclusion outputs summary now) →
  outputs ≠ ∅ → map_Forall (λ k v, utf8 k ∧ utf8 v) outputs →
  steps (run_op (OComplete id conclusion outputs summary now) c) (rn_ci d) →
  (∀ k, k ∈ jobs_of (rn_ci d) → job_WorkflowRunID k = job_WorkflowRunID j → job_Name k = job_Name j → job_ID k = id) →
  Handler_ClaimJob cfg now' runnerID labels repos d = (d', Ok (Some resp)) →
  job_WorkflowRunID (cr_Job resp) = job_WorkflowRunID j → job_Name j ∈ Needs (cr_Job resp) →
  default ∅ (cx_needs (cr_Context resp)) !! job_Name j = Some (outputs, conclusion).
Proof.
  intros Hk Hrk Hj Hw Ho Ho8 Hsteps Huniq Hc Hrun Hneed.
  destruct (completed_row id conclusion outputs summary now c j Hk Hj Ho) as (j' & Hdone & Eid & Er & En & Ec & Eo).
  destruct (done_row_steps j' _ _ Hsteps) as [Hkd Hdd]; [by apply keys_op|done|].
  assert (run_keys (rn_ci d)) as Hrkd.
  { clear -Hsteps Hrk. assert (run_keys (run_op (OComplete id conclusion outputs summary now) c)) as H1 by by apply run_keys_op.
    induction Hsteps as [|o d1 d2 _ _ IH]; [done|]. by apply IH, run_keys_op. }
  apply claim_answer in Hc as (c' & run & wf & repo & org & inputs & Hc & _ & _ & Hrow & _ & _ & _ & ->). cbn [cx_needs].
  assert (c' = run_op (OClaim runnerID labels repos) (rn_ci d)) as -> by (cbn; by rewrite Hc).
  assert (done_row j' (run_op (OClaim runnerID labels repos) (rn_ci d))) as Hd' by (by apply done_row_op).
  assert (keys_ok (run_op (OClaim runnerID labels repos) (rn_ci d))) as Hk' by (by apply keys_op).
  assert (frame (rn_ci d) (run_op (OClaim runnerID labels repos) (rn_ci d))) as Hf.
  { cbn [run_op]. destruct (ClaimJob_cases runnerID labels repos (rn_ci d)) as [->|(k & Hin & Hq & _ & ->)]; [done|].
    apply elem_of_jobs in Hin; [|done]. eapply frame_status; [done|done|by rewrite Hin|by rewrite Hq]. }
  set (c'' := run_op _ (rn_ci d)) in *. rewrite (Hrkd _ _ Hrow), Hrun.
  unfold needs_context. destruct (Needs (cr_Job resp)) as [|n ns] eqn:Ens; [by apply elem_of_nil in Hneed|]. cbn [default].
  apply need_entries; [|by left]. intros m'. unfold need_entry.
  assert (j' ∈ ListWorkflowRunJobs c'' (job_WorkflowRunID j)) as Hin.
  { apply elem_of_run_jobs. split; [|done]. apply elem_of_jobs; [done|apply Hd']. }
  destruct (find_exists (λ k, bool_decide (job_Name k = job_Name j) && bool_decide (job_Status k = JobStatusCompleted)) _ j' Hin)
    as (y & -> & [Hy Hyr]%elem_of_run_jobs & [Hyn%bool_decide_eq_true _]%andb_true_iff).
  { rewrite En, (proj2 Hd'). by rewrite !bool_decide_eq_true_2. }
  apply elem_of_jobs in Hy; [|done].
  assert (y = j') as ->.
  { destruct (frame_lookup_rev _ _ _ y Hf Hy) as (y0 & Hy0 & [[= E1 E2 E3 _ _ _] _]).
    assert (job_ID y = id) as Ey. { rewrite E1. apply Huniq; [apply elem_of_jobs; [done|by rewrite <-E1]|congruence..]. }
    rewrite Ey, <-Eid, (proj1 Hd') in Hy. by injection Hy. }
  unfold GetJobOutputs, GetJobByID. rewrite (proj1 Hd'). res_simpl. rewrite Eo, Ec. rewrite decide_False.
  - by rewrite read_outputs_marshal.
  - intros E. apply (f_equal read_outputs) in E. rewrite read_outputs_marshal in E by done. done.
Qed.
End outputs.

(** ** The log of a job *)

Section logs.
Context `{AccDriver, CiDriver}.

#[local] Instance chunk_le_total : Total chunk_le.
Proof. intros x y. unfold chunk_le. lia. Qed.
#[local] Instance chunk_le_trans : Transitive chunk_le.
Proof. intros x y z. unfold chunk_le. lia. Qed.

(** The chunks of a job in order: they are numbered from zero. *)
Definition log_of (jobID : string) (l : list JobLog) (d : RunDB) : Prop :=
  logs_of jobID d ≡ₚ l ∧ jl_ChunkSeq <$> l = seqZ 0 (zlen l).

Lemma chunk_nth l i x : jl_ChunkSeq <$> l = seqZ 0 (zlen l) → l !! i = Some x → jl_ChunkSeq x = Z.of_nat i.
Proof.
  intros Hl Hx. assert ((jl_ChunkSeq <$> l) !! i = Some (jl_ChunkSeq x)) as E by (by rewrite list_lookup_fmap, Hx).
  rewrite Hl in E. apply lookup_seqZ in E as [-> _]. lia.
Qed.
Lemma chunk_inj l x y : jl_ChunkSeq <$> l = seqZ 0 (zlen l) → x ∈ l → y ∈ l → jl_ChunkSeq x = jl_ChunkSeq y → x = y.
Proof.
  intros Hl [i Hi]%list_elem_of_lookup [j Hj]%list_elem_of_lookup E.
  rewrite (chunk_nth l i x), (chunk_nth l j y) in E by done. apply (inj Z.of_nat) in E as ->. congruence.
Qed.
Lemma chunk_sorted l : jl_ChunkSeq <$> l = seqZ 0 (zlen l) → StronglySorted chunk_le l.
Proof.
  intros Hl. apply Sorted_StronglySorted; [apply _|].
  assert (∀ n : Z, jl_ChunkSeq <$> l = seqZ n (zlen l) → Sorted chunk_le l) as Hg; [|by eapply Hg].
  clear Hl. induction l as [|x l IH]; intros n Hn; [constructor|]. rewrite zlen_cons in Hn.
  rewrite seqZ_cons in Hn by (pose proof (zlen_nonneg l); lia). injection Hn as Ex Hn.
  replace (Z.pred (1 + zlen l)) with (zlen l) in Hn by lia. constructor; [by eapply IH|].
  destruct l as [|y l]; [constructor|]. rewrite zlen_cons, seqZ_cons, fmap_cons in Hn by (pose proof (zlen_nonneg l); lia). injection Hn as Ey _.
  constructor. unfold chunk_le. lia.
Qed.

(** What a query of the log returns is the part of it behind the number. *)
Lemma ordered_chunks k l :
  jl_ChunkSeq <$> l = seqZ 0 (zlen l) → k ≡ₚ l → order_by chunk_le k = l.
Proof.
  intros Hl Hk. apply (StronglySorted_unique_strong chunk_le).
  - intros x y Hx Hy Hxy Hyx. apply (chunk_inj l); [done| |done|unfold chunk_le in *; lia].
    unfold order_by in Hx. by rewrite merge_sort_Permutation, acc_scan_perm, Hk in Hx.
  - apply (StronglySorted_merge_sort chunk_le).
  - by apply chunk_sorted.
  - unfold order_by. by rewrite merge_sort_Permutation, acc_scan_perm.
Qed.
Lemma since_drop l n : jl_ChunkSeq <$> l = seqZ 0 (zlen l) → -1 ≤ n →
  filter (λ x, n < jl_ChunkSeq x) l = drop (Z.to_nat (n + 1)) l.
Proof.
  assert (∀ m, 0 ≤ m → jl_ChunkSeq <$> l = seqZ m (zlen l) → -1 ≤ n → filter (λ x, n < jl_ChunkSeq x) l = drop (Z.to_nat (n + 1 - m)) l) as Hg.
  { induction l as [|x l IH]; intros m Hm Hl Hn; [by rewrite drop_nil|]. rewrite zlen_cons in Hl.
    rewrite seqZ_cons in Hl by (pose proof (zlen_nonneg l); lia). injection Hl as Ex Hl.
    replace (Z.pred (1 + zlen l)) with (zlen l) in Hl by lia.
    assert (filter (λ x, n < jl_ChunkSeq x) l = drop (Z.to_nat (n + 1 - Z.succ m)) l) as E by (apply IH; [lia|done|done]).
    rewrite filter_cons. destruct (decide (n < jl_ChunkSeq x)) as [Hx|Hx].
    - replace (Z.to_nat (n + 1 - m)) with 0%nat by lia. rewrite E. by replace (Z.to_nat (n + 1 - Z.succ m)) with 0%nat by lia.
    - rewrite E. replace (Z.to_nat (n + 1 - m)) with (S (Z.to_nat (n + 1 - Z.succ m))) by lia. done. }
  intros Hl Hn. rewrite (Hg 0) by done. f_equal. lia.
Qed.

Lemma GetJobLogs_ok jobID l d : log_of jobID l d → GetJobLogs jobID d = l.
Proof. intros [Hp Hl]. by apply ordered_chunks. Qed.
Lemma GetJobLogsSince_ok jobID n l d : log_of jobID l d → -1 ≤ n → GetJobLogsSince jobID n d = drop (Z.to_nat (n + 1)) l.
Proof.
  intros [Hp Hl] Hn. unfold GetJobLogsSince. rewrite <-(since_drop l n Hl Hn).
  apply (StronglySorted_unique_strong chunk_le).
  - intros x y Hx Hy Hxy Hyx. unfold order_by in Hx. rewrite merge_sort_Permutation, acc_scan_perm, Hp in Hx.
    apply list_elem_of_filter in Hx as [_ Hx], Hy as [_ Hy]. apply (chunk_inj l); [done..|unfold chunk_le in *; lia].
  - apply (StronglySorted_merge_sort chunk_le).
  - rewrite since_drop by done. apply (StronglySorted_app_1_r chunk_le (take (Z.to_nat (n + 1)) l)). rewrite take_drop. by apply chunk_sorted.
  - unfold order_by. by rewrite merge_sort_Permutation, acc_scan_perm, Hp.
Qed.

Lemma next_chunk_ok jobID l d : log_of jobID l d → next_chunk jobID d = zlen l.
Proof.
  intros [Hp Hl]. unfold next_chunk. destruct (logs_of jobID d) as [|x k] eqn:E.
  { apply Permutation_nil_l in Hp. by subst l. }
  assert (∀ y, y ∈ x :: k → jl_ChunkSeq y < zlen l) as Hlt.
  { intros y Hy. rewrite Hp in Hy. apply list_elem_of_lookup in Hy as [i Hi]. rewrite (chunk_nth l i y) by done.
    apply lookup_lt_Some in Hi. unfold zlen. lia. }
  assert (0 < zlen l) as Hpos. { apply Permutation_length in Hp. unfold zlen. cbn in Hp. lia. }
  destruct (lookup_lt_is_Some_2 l (Z.to_nat (zlen l - 1))) as [y Hy]; [unfold zlen in *; lia|].
  pose proof (chunk_nth l _ y Hl Hy) as Ey. assert (y ∈ x :: k) as Hin by (rewrite Hp; by eapply list_elem_of_lookup_2).
  assert (∀ k a, a < zlen l → (∀ y, y ∈ k → jl_ChunkSeq y < zlen l) → foldr Z.max a (jl_ChunkSeq <$> k) < zlen l) as Hub.
  { clear. induction k as [|z k IH]; intros a Ha Hk; cbn; [done|]. apply Z.max_lub_lt; [apply Hk; by left|]. apply IH; [done|]. intros y Hy. apply Hk. by right. }
  assert (∀ k a y, y ∈ k ∨ jl_ChunkSeq y ≤ a → jl_ChunkSeq y ≤ foldr Z.max a (jl_ChunkSeq <$> k)) as Hlb.
  { clear. induction k as [|z k IH]; intros a y Hy; cbn; [by destruct Hy as [?%elem_of_nil|?]|].
    destruct Hy as [[->|Hy]%elem_of_cons|Hy]; [apply Z.le_max_l|etransitivity; [apply (IH a y); by left|apply Z.le_max_r]|
      etransitivity; [apply (IH a y); by right|apply Z.le_max_r]]. }
  pose proof (Hub k (jl_ChunkSeq x) (Hlt x ltac:(by left)) (λ y Hy, Hlt y ltac:(by right))).
  assert (jl_ChunkSeq y ≤ foldr Z.max (jl_ChunkSeq x) (jl_ChunkSeq <$> k)).
  { apply Hlb. apply elem_of_cons in Hin as [->|?]; [by right|by left]. }
  lia.
Qed.

Lemma logs_of_insert jobID x d :
  rn_logs d !! jl_ID x = None →
  logs_of jobID (set_logs (<[jl_ID x := x]> (rn_logs d)) d) ≡ₚ
  (if decide (jl_JobID x = jobID) then [x] else []) ++ logs_of jobID d.
Proof.
  intros Hx. unfold logs_of, rows. cbn [rn_logs set_logs]. rewrite map_to_list_insert by done. cbn [fmap list_fmap snd].
  rewrite filter_cons. by destruct (decide (jl_JobID x = jobID)).
Qed.

Lemma append_ok jobID l d id now j st content :
  log_of jobID l d →
  match AppendLogs id now j st content d with
  | (d', Ok _) => ∃ x, jl_Content x = content ∧ log_of jobID (if decide (j = jobID) then l ++ [x] else l) d'
  | (d', _) => d' = d
  end.
Proof.
  intros Hl. unfold AppendLogs, statement, AppendJobLog, insert_chunk. st_simpl. unfold refers. cbn [jl_ID jl_JobID jl_StepID jl_Content].
  destruct (storable content); cbn [negb]; st_simpl; [|done].
  destruct (bool_decide_reflect (is_Some (rn_logs d !! id))) as [|Hid]; [done|]. apply eq_None_not_Some in Hid.
  destruct (bool_decide (is_Some (db_jobs (rn_ci d) !! j))); cbn [negb]; [|done].
  destruct (match ptr st with Some _ => _ | None => _ end); cbn [any_err map_err]; [done|].
  set (x := mk_JobLog id j (ptr st) (next_chunk j d) content now). exists x. split; [done|].
  pose proof (logs_of_insert jobID x d Hid) as Hi. cbn [jl_JobID jl_ID x] in Hi. destruct Hl as [Hp Hl].
  destruct (decide (j = jobID)) as [->|Hne]; split.
  - rewrite Hi, Hp. by rewrite Permutation_app_comm.
  - rewrite fmap_app, Hl, zlen_app. cbn. rewrite (next_chunk_ok jobID l d) by done.
    change (zlen [x]) with 1. rewrite seqZ_app by (pose proof (zlen_nonneg l); lia). by rewrite Z.add_0_l.
  - by rewrite Hi.
  - done.
Qed.

(** A viewer: the number of the last chunk it has, and all it has.  It asks for
    the whole log first, then for what is behind that number. *)
Record viewer := mk_viewer { vw_seq : Z; vw_seen : list JobLog }.
Definition poll (jobID : string) (d : RunDB) (v : viewer) : viewer :=
  let new := Handler_GetJobLogs jobID (if 0 <=? vw_seq v then Some (vw_seq v) else None) d in
  match last new with
  | Some l => mk_viewer (jl_ChunkSeq l) (vw_seen v ++ new)
  | None => v
  end.
Inductive log_op :=
| LAppend (id : string) (now : Z) (jobID stepID content : string)
| LPoll
| LOther (f : RunDB → RunDB).
Definition leaves_logs (o : log_op) : Prop := match o with LOther f => ∀ d, rn_logs (f d) = rn_logs d | _ => True end.
(** The state, the viewer, and what was appended to the job's log. *)
Definition run_log_op (jobID : string) (s : RunDB * viewer * list string) (o : log_op) : RunDB * viewer * list string :=
  let '(d, v, a) := s in
  match o with
  | LAppend id now j st content =>
    match AppendLogs id now j st content d with
    | (d', Ok _) => (d', v, if decide (j = jobID) then a ++ [content] else a)
    | (d', _) => (d', v, a)
    end
  | LPoll => (d, poll jobID d v, a)
  | LOther f => (f d, v, a)
  end.

Definition has_seen (jobID : string) (s : RunDB * viewer * list string) : Prop :=
  ∃ l n, log_of jobID l s.1.1 ∧ s.2 = jl_Content <$> l ∧ vw_seen s.1.2 = take n l ∧ vw_seq s.1.2 = Z.of_nat n - 1 ∧ (n ≤ length l)%nat.

Lemma poll_ok jobID l n d v :
  log_of jobID l d → vw_seen v = take n l → vw_seq v = Z.of_nat n - 1 → (n ≤ length l)%nat →
  vw_seen (poll jobID d v) = l ∧ vw_seq (poll jobID d v) = zlen l - 1.
Proof.
  intros Hl Hs Hq Hn. unfold poll, Handler_GetJobLogs.
  assert ((if 0 <=? default (-1) (if 0 <=? vw_seq v then Some (vw_seq v) else None)
           then GetJobLogsSince jobID (default (-1) (if 0 <=? vw_seq v then Some (vw_seq v) else None)) d else GetJobLogs jobID d) = drop n l) as ->.
  { destruct (0 <=? vw_seq v) eqn:E; cbn [from_option id].
    - rewrite E, (GetJobLogsSince_ok jobID (vw_seq v) l) by (done || lia). f_equal. lia.
    - replace n with 0%nat by lia. by apply GetJobLogs_ok. }
  destruct (last (drop n l)) as [x|] eqn:Ex.
  - cbn. rewrite Hs, take_drop. split; [done|]. rewrite last_lookup, length_drop, lookup_drop in Ex.
    assert (n < length l)%nat. { apply lookup_lt_Some in Ex. lia. }
    rewrite (chunk_nth l _ x (proj2 Hl) Ex). unfold zlen. lia.
  - apply last_None in Ex. assert (n = length l) as -> by (apply (f_equal length) in Ex; rewrite length_drop in Ex; cbn in Ex; lia).
    rewrite Hs, firstn_all. split; [done|]. rewrite Hq. unfold zlen. lia.
Qed.

Lemma has_seen_op jobID s o : leaves_logs o → has_seen jobID s → has_seen jobID (run_log_op jobID s o).
Proof.
  destruct s as [[d v] a]. intros Ho (l & n & Hl & Ea & Hs & Hq & Hn). cbn in Hl, Ea, Hs, Hq. subst a. destruct o as [id now j st content| |f]; cbn [run_log_op].
  - pose proof (append_ok jobID l d id now j st content Hl) as Ha. destruct (AppendLogs _ _ _ _ _ d) as [d' [u|e|]].
    + destruct Ha as (x & Ex & Hx). destruct (decide (j = jobID)); [|by exists l, n].
      exists (l ++ [x]), n. cbn in *. rewrite fmap_app, length_app, take_app_le by done. cbn. rewrite Ex. repeat split; try done; [apply Hx|apply Hx|lia].
    + subst d'. by exists l, n.
    + subst d'. by exists l, n.
  - destruct (poll_ok jobID l n d v Hl Hs Hq Hn) as [E1 E2]. exists l, (length l). cbn in *. rewrite E1, E2, firstn_all. repeat split; try done; apply Hl.
  - exists l, n. split; [|done]. unfold log_of, logs_of in *. cbn. by rewrite (Ho d).
Qed.

(** Polling a log.  Whatever is appended to the logs of jobs and happens else,
    in any order but no append within another ([overlapping_appends] shows what
    that does), a viewer that polls the log of a job from the start has at any
    time a prefix of what was appended to it, and after one more poll all of it,
    each chunk once and in order. *)
Theorem log_stream jobID d0 ops :
  logs_of jobID d0 = [] → Forall leaves_logs ops →
  let '(d, v, appended) := foldl (run_log_op jobID) (d0, mk_viewer (-1) [], []) ops in
  (jl_Content <$> vw_seen v) `prefix_of` appended ∧ jl_Content <$> vw_seen (poll jobID d v) = appended.
Proof.
  intros Hnone Hops.
  assert (has_seen jobID (d0, mk_viewer (-1) [], [])) as Hs.
  { exists [], 0%nat. split; [split; [cbn; by rewrite Hnone|done]|done]. }
  revert Hs. generalize (d0, mk_viewer (-1) [], [] : list string). clear Hnone.
  induction Hops as [|o ops Ho _ IH]; intros [[d v] a] Hs; cbn [foldl].
  - destruct Hs as (l & n & Hl & Ea & Hs & Hq & Hn). cbn in Hl, Ea, Hs, Hq. subst a. split.
    + rewrite Hs. exists (jl_Content <$> drop n l). by rewrite <-fmap_app, take_drop.
    + by destruct (poll_ok jobID l n d v Hl Hs Hq Hn) as [-> _].
  - apply IH. by apply has_seen_op.
Qed.
End logs.

(** ** Examples *)

#[local] Existing Instances demo_env ascii_unicode.
#[local] Instance demo_postgres : CiDriver := plain_driver DriverPostgres.

(** A run of the workflow of acme/app with two jobs, and four secrets. *)
Definition demo_app_run : WorkflowRun :=
  mk_WorkflowRun "run1" "wf" "r1" 7 "push" "refs/heads/main" "abc" "{}" RunStatusQueued None None None 100 (Some "ann@acme").
Definition demo_app_jobs : CiDB :=
  (run_stmts [QCreateJob "j1" 100 "run1" "build" None "" (Some ["linux"]);
              QCreateJob "j2" 101 "run1" "test" (Some ["build"]) "" (Some ["linux"])]
     (mk_CiDB {["run1" := demo_app_run]} ∅ ∅ {["wf"]} ∅)).1.
Definition demo_secret (id : string) (repoID orgID : option string) (name value : string) : WorkflowSecret :=
  mk_WorkflowSecret id repoID orgID name value 50 50 "u1".
Definition demo_app : RunDB :=
  mk_RunDB (mk_PlanDB demo_app_jobs {["wf" := mk_WfRow "wf" "r1" ".kailab/workflows/ci.yml" "CI" "h" "{}" "[]" true 40 40]} ∅ ∅ [] 0)
    demo_db ∅ ∅
    {["s1" := demo_secret "s1" (Some "r1") None "TOKEN" "repo's";
      "s2" := demo_secret "s2" None (Some "o1") "TOKEN" "org's";
      "s3" := demo_secret "s3" None (Some "o1") "DEPLOY" "org's";
      "s4" := demo_secret "s4" (Some "r2") None "OTHER" "another repo's"]} ∅ ∅ ∅ ∅.
Definition demo_rcfg : RunnerConfig := mk_RunnerConfig {["default" := "http://shard"]} "http://kai" id.

Lemma claim_context_witness :
  ∃ d' resp, Handler_ClaimJob demo_rcfg 200 "r1" ["linux"] ["acme/app"] demo_app = (d', Ok (Some resp)) ∧
    cx_repo_name (cr_Context resp) = "acme/app" ∧
    cx_secrets (cr_Context resp) !! "DEPLOY" = Some "org's" ∧ is_Some (cx_secrets (cr_Context resp) !! "TOKEN") ∧
    cx_secrets (cr_Context resp) !! "OTHER" = None.
Proof.
  destruct (Handler_ClaimJob demo_rcfg 200 "r1" ["linux"] ["acme/app"] demo_app) as [d' [[resp|]|e|]] eqn:E;
    [|exfalso; apply (f_equal snd) in E; vm_compute in E; discriminate..].
  exists d', resp. split; [done|]. pose proof (claim_context _ _ _ _ _ _ _ _ E) as (run & repo & org & Hc & Hrun & Hrepo & Horg & Hn & Hs & _).
  apply (f_equal (λ p, job_WorkflowRunID <$> (match p.2 with Ok (Some r) => Some (cr_Job r) | _ => None end))) in E.
  assert (job_WorkflowRunID (cr_Job resp) = "run1") as Er by (vm_compute in E; by injection E).
  rewrite Er in Hrun. vm_compute in Hrun. injection Hrun as <-. vm_compute in Hrepo. injection Hrepo as <-.
  vm_compute in Horg. injection Horg as <-. split; [exact Hn|]. destruct Hs as (H1 & H2 & H3). split; [|split].
  - apply (H3 "s3" (demo_secret "s3" None (Some "o1") "DEPLOY" "org's")); [done|by right|].
    intros i y Hi Hy Ek. apply elem_of_map_to_list in Hi. vm_compute in Hi.
    repeat (apply elem_of_cons in Hi as [[= -> ->]|Hi]; [done|]). by apply elem_of_nil in Hi.
  - by apply (H2 "s1" (demo_secret "s1" (Some "r1") None "TOKEN" "repo's")); [|left].
  - destruct (_ !! "OTHER") as [v|] eqn:Ev; [|done]. apply H1 in Ev as (i & x & Hi & Hx & Ek & _). exfalso.
    apply elem_of_map_to_list in Hi. vm_compute in Hi.
    repeat (apply elem_of_cons in Hi as [[= -> ->]|Hi]; [first [discriminate Ek|by destruct Hx as [|[]]]|]). by apply elem_of_nil in Hi.
Defined.

(** The chunks of two appends that overlap get one number, and a viewer that
    has the first never gets the second. *)
Definition demo_chunk (id content : string) (seq : Z) : JobLog := mk_JobLog id "j1" None seq content 300.
Definition demo_overlap : RunDB :=
  (insert_chunk (demo_chunk "l1" "one" (next_chunk "j1" demo_app)) demo_app).1.
Example overlapping_appends :
  let second := (insert_chunk (demo_chunk "l2" "two" (next_chunk "j1" demo_app)) demo_overlap).1 in
  jl_Content <$> GetJobLogs "j1" second = ["one"; "two"] ∧
  jl_Content <$> vw_seen (poll "j1" second (poll "j1" demo_overlap (mk_viewer (-1) []))) = ["one"].
Proof. by vm_compute. Qed.
(** A chunk with a zero byte is refused. *)
Example zero_byte_chunk :
  (AppendLogs "l1" 300 "j1" "" (string_of [Byte.x61; Byte.x00]) demo_app).2 = Err (HttpError 500 "failed to append logs").
Proof. by vm_compute. Qed.

(** A claim between the statements of a completion: the job is complete, its
    outputs are not yet there. *)
Example late_outputs :
  let claimed := (Handler_ClaimJob demo_rcfg 200 "r1" ["linux"] ["acme/app"] demo_app).1 in
  let between := set_plan (set_ci (CompleteJob "j1" ConclusionSuccess 250 (rn_ci claimed)) (rn_plan claimed)) claimed in
  let needs_given d := match (Handler_ClaimJob demo_rcfg 260 "r2" ["linux"] ["acme/app"] d).2 with
                       | Ok (Some resp) => cx_needs (cr_Context resp)
                       | _ => None
                       end in
  let completed := set_plan (set_ci (SetJobOutputs "j1" {["tag" := "v1"]} (rn_ci between)) (rn_plan between)) between in
  needs_given between = Some {["build" := (∅, "success")]} ∧
  needs_given completed = Some {["build" := ({["tag" := "v1"]}, "success")]}.
Proof. by vm_compute. Qed.
