(* ===== verification/Extract.v ===== *)
(** * Merge units and their extraction (kai-core/merge/types.go, extract.go)

    The merge engine compares source files unit by unit: functions, classes,
    methods, variables, imports.  This file models the units and how they are
    collected from a syntax tree for JavaScript, Python, Ruby and Rust.

    The parser is go-tree-sitter, so it is a parameter ([Sitter]): a syntax
    tree is what the program observes of it ([Type], [Content], the two
    points and the children).  The symbol path of a unit is a Go slice grown
    with [append], and sibling units may share the array behind it, so the
    arrays are an explicit store that the extraction threads along. *)

From S2P Require Import Prelude Sha1 Sha256.

(** ** Syntax trees as the program sees them *)

Record Range := mk_Range { r_Start : Z * Z; r_End : Z * Z }.

(** A [sitter.Node]: its type, the text its [Content] method cuts out of the
    parsed file, its start and end points, its children. *)
Inductive Node :=
| mk_Node (Type_ : string) (Content_ : string) (StartPoint EndPoint : Z * Z) (children : list Node).

Definition n_Type (n : Node) : string := let '(mk_Node t _ _ _ _) := n in t.
Definition n_Content (n : Node) : string := let '(mk_Node _ c _ _ _) := n in c.
Definition n_children (n : Node) : list Node := let '(mk_Node _ _ _ _ cs) := n in cs.
Definition nodeRange (n : Node) : Range :=
  let '(mk_Node _ _ s e _) := n in mk_Range s e.

(** The grammars of go-tree-sitter and its [ParseCtx]: the root node, or an
    error. *)
Inductive Grammar := PyGrammar | GoGrammar | JsGrammar | RbGrammar | RsGrammar.
Class Sitter := { ParseCtx : Grammar → bytes → option Node }.

(** The choice of a grammar in [Parser.Parse].  The symbols that [Parse] also
    computes are not used by the merge engine. *)
Definition Parse_grammar (lang : string) : Grammar :=
  if bool_decide (lang ∈ ["py"; "python"]) then PyGrammar
  else if bool_decide (lang ∈ ["go"; "golang"]) then GoGrammar
  else if bool_decide (lang ∈ ["js"; "ts"; "javascript"; "typescript"]) then JsGrammar
  else if bool_decide (lang ∈ ["rb"; "ruby"]) then RbGrammar
  else if bool_decide (lang ∈ ["rs"; "rust"]) then RsGrammar
  else JsGrammar.

(** ** Slices of strings *)

(** A slice header; the arrays are numbered in the order they are made. *)
Record Slice := mk_Slice { s_arr : nat; s_len : nat; s_cap : nat }.
Definition nil_slice : Slice := mk_Slice 0 0 0.

(** The capacity the Go runtime gives a full slice that [append] extends by
    one element (exact for strings up to 512 elements). *)
Definition growslice (cap : nat) : nat :=
  if (cap =? 0)%nat then 1 else if (cap <? 256)%nat then 2 * cap
  else cap + (cap + 768) / 4.

Definition read_slice (h : list (list string)) (s : Slice) : list string :=
  take (s_len s) (default [] (h !! s_arr s)).

(** [append(s, x)]: in place while the capacity lasts, else into a new array. *)
Definition append_slice (h : list (list string)) (s : Slice) (x : string) :
    list (list string) * Slice :=
  if (s_len s <? s_cap s)%nat then
    (alter (λ a, <[s_len s := x]> a) (s_arr s) h, mk_Slice (s_arr s) (S (s_len s)) (s_cap s))
  else
    let c := growslice (s_cap s) in
    (h ++ [read_slice h s ++ x :: replicate (c - S (s_len s)) ""],
     mk_Slice (length h) (S (s_len s)) c).

(** ** Units *)

(** The kinds; [UnitNoKind] is the empty string, the zero value of the type. *)
Inductive UnitKind :=
| UnitNoKind
| UnitFunction | UnitClass | UnitMethod | UnitConst | UnitVariable
| UnitImport | UnitExport | UnitType | UnitModule.
#[export] Instance UnitKind_eq_dec : EqDecision UnitKind.
Proof. solve_decision. Defined.

(** [UnitKey] and [MergeUnit]; [P] is what stands for the symbol path: a
    slice while the extraction runs, its elements afterwards. *)
Record UnitKey (P : Type) := mk_UnitKey { uk_File : string; uk_SymbolPath : P; uk_Kind : UnitKind }.
Arguments mk_UnitKey {P}. Arguments uk_File {P}. Arguments uk_SymbolPath {P}. Arguments uk_Kind {P}.

Inductive MergeUnit (P : Type) := mk_MergeUnit {
  mu_Key : UnitKey P;
  mu_Kind : UnitKind;
  mu_Name : string;
  mu_Signature : string;
  mu_BodyHash : bytes;
  mu_Range : Range;
  mu_Modifiers : list string;
  mu_Children : list (MergeUnit P);
  mu_RawNode : Node;
  mu_Content : bytes }.
Arguments mk_MergeUnit {P}.
Arguments mu_Key {P}. Arguments mu_Kind {P}. Arguments mu_Name {P}.
Arguments mu_Signature {P}. Arguments mu_BodyHash {P}. Arguments mu_Range {P}.
Arguments mu_Modifiers {P}. Arguments mu_Children {P}. Arguments mu_RawNode {P}.
Arguments mu_Content {P}.

(** [UnitKey.String] *)
Definition UnitKey_String (k : UnitKey (list string)) : string :=
  (uk_File k ++ "::" ++ String.concat "." (uk_SymbolPath k))%string.

Fixpoint map_path {P Q} (f : P → Q) (u : MergeUnit P) : MergeUnit Q :=
  let k := mu_Key u in
  mk_MergeUnit (mk_UnitKey (uk_File k) (f (uk_SymbolPath k)) (uk_Kind k))
    (mu_Kind u) (mu_Name u) (mu_Signature u) (mu_BodyHash u) (mu_Range u)
    (mu_Modifiers u) (map_path f <$> mu_Children u) (mu_RawNode u) (mu_Content u).

(** [method.Kind = UnitMethod; method.Key.Kind = UnitMethod] *)
Definition as_method {P} (u : MergeUnit P) : MergeUnit P :=
  let k := mu_Key u in
  mk_MergeUnit (mk_UnitKey (uk_File k) (uk_SymbolPath k) UnitMethod)
    UnitMethod (mu_Name u) (mu_Signature u) (mu_BodyHash u) (mu_Range u)
    (mu_Modifiers u) (mu_Children u) (mu_RawNode u) (mu_Content u).

Definition with_children {P} (cs : list (MergeUnit P)) (u : MergeUnit P) : MergeUnit P :=
  mk_MergeUnit (mu_Key u) (mu_Kind u) (mu_Name u) (mu_Signature u) (mu_BodyHash u)
    (mu_Range u) (mu_Modifiers u) cs (mu_RawNode u) (mu_Content u).

Record FileUnits := mk_FileUnits {
  fu_Path : string; fu_Lang : string;
  fu_Units : gmap string (MergeUnit (list string));
  fu_Content : bytes }.

(** ** The state of an extraction: the arrays and [fu.Units] *)

Definition XUnit : Type := MergeUnit Slice.
Record xstate := mk_xstate { xs_arrays : list (list string); xs_units : gmap string XUnit }.

Definition ext (A : Type) : Type := xstate → xstate * A.
#[export] Instance ext_ret : MRet ext := λ A a s, (s, a).
#[export] Instance ext_bind : MBind ext := λ A B f m s, let '(s, a) := m s in f a s.

Definition append_path (p : Slice) (x : string) : ext Slice := λ s,
  let '(h, p) := append_slice (xs_arrays s) p x in (mk_xstate h (xs_units s), p).

(** [fu.Units[unit.Key.String()] = unit], if the unit is not nil. *)
Definition xkey (s : xstate) (u : XUnit) : string :=
  let k := mu_Key u in
  UnitKey_String (mk_UnitKey (uk_File k) (read_slice (xs_arrays s) (uk_SymbolPath k)) (uk_Kind k)).
Definition store_unit (u : XUnit) : ext () := λ s,
  (mk_xstate (xs_arrays s) (<[xkey s u := u]> (xs_units s)), ()).
Definition store_opt (u : option XUnit) : ext () :=
  match u with Some u => store_unit u | None => mret () end.

(** [for _, x := range l { ... }] *)
Definition for_each {A} (l : list A) (f : A → ext ()) : ext () :=
  (fix go (l : list A) : ext () :=
     match l with [] => mret () | x :: l => f x ;; go l end) l.
(** The same, collecting the units the body makes. *)
Fixpoint for_units {A} (l : list A) (f : A → ext (option XUnit)) : ext (list XUnit) :=
  match l with
  | [] => mret []
  | x :: l => o ← f x; us ← for_units l f;
              mret (match o with Some u => u :: us | None => us end)
  end.

(** ** Scanning the children of a node *)

(** [case tys...: if v == "" { v = child.Content(content) }] *)
Definition first_text (tys : list string) (n : Node) : string :=
  foldl (λ v c, if bool_decide (n_Type c ∈ tys) && (v =? "")%string then n_Content c else v)
        "" (n_children n).
(** [case tys...: v = child.Content(content)] *)
Definition last_text (tys : list string) (n : Node) : string :=
  foldl (λ v c, if bool_decide (n_Type c ∈ tys) then n_Content c else v) "" (n_children n).
(** [if child.Type() == ty { v = child.Content(content); break }] *)
Definition break_text (ty : string) (n : Node) : string :=
  match List.find (λ c, (n_Type c =? ty)%string) (n_children n) with
  | Some c => n_Content c | None => "" end.
(** [case ty: v = child] and then a loop over the children of [v], if any. *)
Definition last_child (ty : string) (n : Node) : list Node :=
  foldl (λ v c, if (n_Type c =? ty)%string then n_children c else v) [] (n_children n).

(** The unit every extractor builds from a node: the content, its digest and
    the range are the node's. *)
Definition new_unit (n : Node) (path : string) (p : Slice) (kind : UnitKind)
    (name signature : string) : XUnit :=
  mk_MergeUnit (mk_UnitKey path p kind) kind name signature
    (Sum256 (bytes_of (n_Content n))) (nodeRange n) [] [] n (bytes_of (n_Content n)).

(** The common tail: no name, no unit; else the symbol path is extended by the
    name and the unit is made. *)
Definition named_unit (n : Node) (path : string) (parentPath : Slice) (kind : UnitKind)
    (name signature : string) : ext (option XUnit) :=
  if (name =? "")%string then mret None
  else p ← append_path parentPath name; mret (Some (new_unit n path p kind name signature)).

(** The common shape of classes: the path is extended, the members are
    extracted and stored, and they become the children of the unit. *)
Definition class_unit (n : Node) (path : string) (parentPath : Slice) (kind : UnitKind)
    (name signature : string) (members : list Node)
    (member : Slice → Node → ext (option XUnit)) : ext (option XUnit) :=
  if (name =? "")%string then mret None
  else
    p ← append_path parentPath name;
    us ← for_units members (λ c, o ← member p c; store_opt o ;; mret o);
    mret (Some (with_children us (new_unit n path p kind name signature))).

(** [extractXImport]: the text of the statement is its name and its key. *)
Definition import_unit (n : Node) (path : string) : ext XUnit :=
  p ← append_path nil_slice ("import:" ++ n_Content n);
  mret (new_unit n path p UnitImport (n_Content n) "").

(** ** JavaScript and TypeScript *)

Definition extractJSFunction (n : Node) (path : string) (parentPath : Slice) : ext (option XUnit) :=
  let name := first_text ["identifier"] n in
  let params := last_text ["formal_parameters"] n in
  named_unit n path parentPath UnitFunction name ("function " ++ name ++ params).

(** The loop over the children of a declarator: name, kind and signature. *)
Definition declarator_step (acc : string * UnitKind * string) (child : Node) :
    string * UnitKind * string :=
  let '(name, kind, signature) := acc in
  if (n_Type child =? "identifier")%string then
    (if (name =? "")%string then n_Content child else name, kind, signature)
  else if bool_decide (n_Type child ∈ ["arrow_function"; "function"]) then
    (name, UnitFunction,
     match List.find (λ c, (n_Type c =? "formal_parameters")%string) (n_children child) with
     | Some param => ("const " ++ name ++ " = " ++ n_Content param ++ " => ...")%string
     | None => signature
     end)
  else acc.

Definition extractJSVariableDeclarator (n : Node) (path : string) (parentPath : Slice)
    (declKind : string) : ext (option XUnit) :=
  let '(name, kind, signature) :=
    foldl declarator_step ("", UnitVariable, "") (n_children n) in
  let kind := if (declKind =? "const")%string && bool_decide (kind = UnitVariable)
              then UnitConst else kind in
  let signature := if (signature =? "")%string then (declKind ++ " " ++ name)%string
                   else signature in
  named_unit n path parentPath kind name signature.

Definition extractJSVariables (n : Node) (path : string) (parentPath : Slice) :
    ext (list XUnit) :=
  let declKind :=
    match List.find (λ c, bool_decide (n_Type c ∈ ["const"; "let"; "var"])) (n_children n) with
    | Some c => n_Type c | None => "" end in
  for_units (n_children n) (λ child,
    if (n_Type child =? "variable_declarator")%string
    then extractJSVariableDeclarator child path parentPath declKind
    else mret None).

Definition extractJSMethod (n : Node) (path : string) (parentPath : Slice) : ext (option XUnit) :=
  let name := last_text ["property_identifier"] n in
  let params := last_text ["formal_parameters"] n in
  named_unit n path parentPath UnitMethod name (name ++ params).

Definition extractJSClass (n : Node) (path : string) (parentPath : Slice) : ext (option XUnit) :=
  let name := first_text ["identifier"] n in
  class_unit n path parentPath UnitClass name ("class " ++ name) (last_child "class_body" n)
    (λ p c, if (n_Type c =? "method_definition")%string then extractJSMethod c path p
            else mret None).

Definition extractJSImport (n : Node) (path : string) : ext XUnit := import_unit n path.

Fixpoint walkJSNode (path : string) (parentPath : Slice) (n : Node) : ext () :=
  let 'mk_Node ty _ _ _ cs := n in
  (if (ty =? "function_declaration")%string then
     u ← extractJSFunction n path parentPath; store_opt u
   else if bool_decide (ty ∈ ["lexical_declaration"; "variable_declaration"]) then
     us ← extractJSVariables n path parentPath; for_each us store_unit
   else if (ty =? "class_declaration")%string then
     u ← extractJSClass n path parentPath; store_opt u
   else if (ty =? "export_statement")%string then for_each cs (walkJSNode path parentPath)
   else if (ty =? "import_statement")%string then
     u ← extractJSImport n path; store_unit u
   else mret ()) ;;
  if (ty =? "program")%string then for_each cs (walkJSNode path parentPath) else mret ().

(** ** Python *)

Definition extractPyFunction (n : Node) (path : string) (parentPath : Slice) : ext (option XUnit) :=
  let name := first_text ["identifier"] n in
  let params := last_text ["parameters"] n in
  named_unit n path parentPath UnitFunction name ("def " ++ name ++ params).

Definition extractPyClass (n : Node) (path : string) (parentPath : Slice) : ext (option XUnit) :=
  let name := first_text ["identifier"] n in
  class_unit n path parentPath UnitClass name ("class " ++ name) (last_child "block" n)
    (λ p c, if (n_Type c =? "function_definition")%string
            then o ← extractPyFunction c path p; mret (as_method <$> o)
            else mret None).

Definition extractPyImport (n : Node) (path : string) : ext XUnit := import_unit n path.

Fixpoint walkPyNode (path : string) (parentPath : Slice) (n : Node) : ext () :=
  let 'mk_Node ty _ _ _ cs := n in
  (if (ty =? "function_definition")%string then
     u ← extractPyFunction n path parentPath; store_opt u
   else if (ty =? "class_definition")%string then
     u ← extractPyClass n path parentPath; store_opt u
   else if bool_decide (ty ∈ ["import_statement"; "import_from_statement"]) then
     u ← extractPyImport n path; store_unit u
   else mret ()) ;;
  if (ty =? "module")%string then
    for_each cs (walkPyNode path parentPath)
  else mret ().

(** ** Ruby *)

(** [signature += params], which only matters when there are parameters. *)
Definition extractRbMethod (n : Node) (path : string) (parentPath : Slice) : ext (option XUnit) :=
  let name := first_text ["identifier"] n in
  let params := last_text ["method_parameters"] n in
  let signature := ("def " ++ name)%string in
  named_unit n path parentPath UnitFunction name
    (if negb (params =? "")%string then signature ++ params else signature).

(** The loop over the children of a singleton method: object and name. *)
Definition singleton_step (acc : string * string) (child : Node) : string * string :=
  let '(object, name) := acc in
  if (n_Type child =? "identifier")%string then
    if (object =? "")%string then (n_Content child, name)
    else if (name =? "")%string then (object, n_Content child)
    else acc
  else if (n_Type child =? "self")%string then ("self", name)
  else acc.

Definition extractRbSingletonMethod (n : Node) (path : string) (parentPath : Slice) :
    ext (option XUnit) :=
  let '(object, name) := foldl singleton_step ("", "") (n_children n) in
  let params := last_text ["method_parameters"] n in
  let signature := ("def " ++ object ++ "." ++ name)%string in
  named_unit n path parentPath UnitFunction name
    (if negb (params =? "")%string then signature ++ params else signature).

(** The members of a class or module body. *)
Definition rb_member (path : string) (p : Slice) (c : Node) : ext (option XUnit) :=
  if (n_Type c =? "method")%string
  then o ← extractRbMethod c path p; mret (as_method <$> o)
  else if (n_Type c =? "singleton_method")%string
  then o ← extractRbSingletonMethod c path p; mret (as_method <$> o)
  else mret None.

Definition extractRbClass (n : Node) (path : string) (parentPath : Slice) : ext (option XUnit) :=
  let name := first_text ["constant"; "scope_resolution"] n in
  class_unit n path parentPath UnitClass name ("class " ++ name)
    (last_child "body_statement" n) (rb_member path).

Definition extractRbModule (n : Node) (path : string) (parentPath : Slice) : ext (option XUnit) :=
  let name := first_text ["constant"; "scope_resolution"] n in
  class_unit n path parentPath UnitModule name ("module " ++ name)
    (last_child "body_statement" n) (rb_member path).

Definition extractRbRequire (n : Node) (path : string) : ext (option XUnit) :=
  let methodName := break_text "identifier" n in
  if negb (methodName =? "require")%string && negb (methodName =? "require_relative")%string
     && negb (methodName =? "load")%string
  then mret None
  else u ← import_unit n path; mret (Some u).

Fixpoint walkRbNode (path : string) (parentPath : Slice) (n : Node) : ext () :=
  let 'mk_Node ty _ _ _ cs := n in
  (if (ty =? "method")%string then
     u ← extractRbMethod n path parentPath; store_opt u
   else if (ty =? "singleton_method")%string then
     u ← extractRbSingletonMethod n path parentPath; store_opt u
   else if (ty =? "class")%string then
     u ← extractRbClass n path parentPath; store_opt u
   else if (ty =? "module")%string then
     u ← extractRbModule n path parentPath; store_opt u
   else if (ty =? "call")%string then
     u ← extractRbRequire n path; store_opt u
   else mret ()) ;;
  if (ty =? "program")%string then
    for_each cs (walkRbNode path parentPath)
  else mret ().

(** ** Rust *)

Definition extractRsFunction (n : Node) (path : string) (parentPath : Slice) : ext (option XUnit) :=
  let name := first_text ["identifier"] n in
  let params := last_text ["parameters"] n in
  let returnType :=
    last_text ["type_identifier"; "generic_type"; "reference_type"; "pointer_type"] n in
  let signature := ("fn " ++ name ++ params)%string in
  named_unit n path parentPath UnitFunction name
    (if negb (returnType =? "")%string then signature ++ " -> " ++ returnType else signature).

Definition extractRsStruct (n : Node) (path : string) (parentPath : Slice) : ext (option XUnit) :=
  let name := break_text "type_identifier" n in
  named_unit n path parentPath UnitClass name ("struct " ++ name).

Definition extractRsEnum (n : Node) (path : string) (parentPath : Slice) : ext (option XUnit) :=
  let name := break_text "type_identifier" n in
  named_unit n path parentPath UnitClass name ("enum " ++ name).

(** The functions in the declaration lists of a trait or impl. *)
Definition rs_members (tys : list string) (path : string) (p : Slice) (n : Node) : ext () :=
  for_each (n_children n) (λ child,
    if (n_Type child =? "declaration_list")%string then
      for_each (n_children child) (λ item,
        if bool_decide (n_Type item ∈ tys)
        then u ← extractRsFunction item path p; store_opt u
        else mret ())
    else mret ()).

Definition extractRsTrait (n : Node) (path : string) (parentPath : Slice) : ext (option XUnit) :=
  let name := break_text "type_identifier" n in
  if (name =? "")%string then mret None
  else
    p ← append_path parentPath name;
    rs_members ["function_item"; "function_signature_item"] path p n ;;
    mret (Some (new_unit n path p UnitClass name ("trait " ++ name))).

Definition extractRsImpl (n : Node) (path : string) (parentPath : Slice) : ext () :=
  let implType := first_text ["type_identifier"; "generic_type"] n in
  p ← (if (implType =? "")%string then mret parentPath else append_path parentPath implType);
  rs_members ["function_item"] path p n.

Definition extractRsUse (n : Node) (path : string) : ext XUnit := import_unit n path.

(** The loop over the children of a module that stops at the first declaration
    list and walks it. *)
Definition rs_first_list (walk : Node → ext ()) : list Node → ext () :=
  fix first_list (l : list Node) : ext () :=
    match l with
    | [] => mret ()
    | mk_Node cty _ _ _ ccs :: l =>
      if (cty =? "declaration_list")%string then for_each ccs walk else first_list l
    end.

Definition extractRsMod (walk : Slice → Node → ext ()) (n : Node) (path : string)
    (parentPath : Slice) : ext (option XUnit) :=
  let name := break_text "identifier" n in
  if (name =? "")%string then mret None
  else
    p ← append_path parentPath name;
    rs_first_list (walk p) (n_children n) ;;
    mret (Some (new_unit n path p UnitModule name ("mod " ++ name))).

(** [extractRsMod] calls the walk back for the first declaration list of an
    inline module. *)
Fixpoint walkRsNode (path : string) (parentPath : Slice) (n : Node) : ext () :=
  let 'mk_Node ty _ _ _ cs := n in
  (if (ty =? "function_item")%string then
     u ← extractRsFunction n path parentPath; store_opt u
   else if (ty =? "struct_item")%string then
     u ← extractRsStruct n path parentPath; store_opt u
   else if (ty =? "enum_item")%string then
     u ← extractRsEnum n path parentPath; store_opt u
   else if (ty =? "trait_item")%string then
     u ← extractRsTrait n path parentPath; store_opt u
   else if (ty =? "impl_item")%string then extractRsImpl n path parentPath
   else if (ty =? "mod_item")%string then
     u ← extractRsMod (walkRsNode path) n path parentPath; store_opt u
   else if (ty =? "use_declaration")%string then
     u ← extractRsUse n path; store_unit u
   else mret ()) ;;
  if (ty =? "source_file")%string then
    for_each cs (walkRsNode path parentPath)
  else mret ().

(** ** The extractor *)

Definition walk_lang (lang : string) (path : string) (root : Node) : ext () :=
  if bool_decide (lang ∈ ["js"; "ts"; "javascript"; "typescript"]) then walkJSNode path nil_slice root
  else if bool_decide (lang ∈ ["py"; "python"]) then walkPyNode path nil_slice root
  else if bool_decide (lang ∈ ["rb"; "ruby"]) then walkRbNode path nil_slice root
  else if bool_decide (lang ∈ ["rs"; "rust"]) then walkRsNode path nil_slice root
  else walkJSNode path nil_slice root.

(** [ExtractUnits]; the symbol paths are read when the extraction is over. *)
Definition ExtractUnits `{Sitter} (path : string) (content : bytes) (lang : string) :
    res string FileUnits :=
  match ParseCtx (Parse_grammar lang) content with
  | None => Err "parsing failed"
  | Some root =>
    let s := fst (walk_lang lang path root (mk_xstate [] ∅)) in
    Ok (mk_FileUnits path lang (map_path (read_slice (xs_arrays s)) <$> xs_units s) content)
  end.

(** ** What the extracted units are

    A small program logic for [ext]: [triple P m Q] says that [m], started
    in a state whose units are in order and which satisfies [P], ends in such
    a state, with [Q] of the result.  The predicates used are stable, that
    is, preserved when new arrays are made. *)

(** [a] is a node of the tree [b]. *)
Inductive subnode : Node → Node → Prop :=
| subnode_refl n : subnode n n
| subnode_child a c n : c ∈ n_children n → subnode a c → subnode a n.

Lemma subnode_trans a b c : subnode a b → subnode b c → subnode a c.
Proof. intros H1 H2. induction H2; [done|]. econstructor; eauto. Qed.

Lemma subnode_of_child c n : c ∈ n_children n → subnode c n.
Proof. intros. econstructor; [done|constructor]. Qed.

Lemma subnode_child_of c n m : c ∈ n_children n → subnode n m → subnode c m.
Proof. intros Hc. apply subnode_trans, subnode_of_child, Hc. Qed.

Lemma last_child_elem ty n c :
  c ∈ last_child ty n → ∃ b, b ∈ n_children n ∧ c ∈ n_children b.
Proof.
  unfold last_child.
  assert (∀ l v, (∀ x, x ∈ v → ∃ b, b ∈ n_children n ∧ x ∈ n_children b) →
    (∀ x, x ∈ l → x ∈ n_children n) →
    c ∈ foldl (λ v c, if (n_Type c =? ty)%string then n_children c else v) v l →
    ∃ b, b ∈ n_children n ∧ c ∈ n_children b) as H.
  { intros l. induction l as [|a l IH]; simpl; intros v Hv Hl Hc; [eauto|].
    eapply IH; [| |exact Hc]; [|set_solver].
    destruct (n_Type a =? ty)%string; [|done]. intros x Hx. exists a. set_solver. }
  apply H; set_solver.
Qed.

(** The unit describes the node it was made from. *)
Record made_from {P} (root : Node) (path : string) (u : MergeUnit P) : Prop := {
  made_node : subnode (mu_RawNode u) root;
  made_content : mu_Content u = bytes_of (n_Content (mu_RawNode u));
  made_hash : mu_BodyHash u = Sum256 (mu_Content u);
  made_range : mu_Range u = nodeRange (mu_RawNode u);
  made_kind : uk_Kind (mu_Key u) = mu_Kind u;
  made_file : uk_File (mu_Key u) = path }.

Lemma made_from_map {P Q} (f : P → Q) root path u :
  made_from root path u → made_from root path (map_path f u).
Proof. destruct u. intros []. by constructor. Qed.

Lemma made_from_method {P} root path (u : MergeUnit P) :
  made_from root path u → made_from root path (as_method u).
Proof. intros []. by constructor. Qed.

Lemma made_from_children {P} root path cs (u : MergeUnit P) :
  made_from root path u → made_from root path (with_children cs u).
Proof. intros []. by constructor. Qed.

Section Logic.
Context (root : Node) (path : string).
(** Whether the parent paths are short enough for [append] never to write in
    place: true for every language but Rust. *)
Context (short : bool).

Definition slice_ok (s : xstate) (p : Slice) : Prop :=
  short = true → s_len p = s_cap p ∧ (s_len p = 0 ∨ (s_arr p < length (xs_arrays s))%nat).
Definition ready (s : xstate) (u : XUnit) : Prop :=
  made_from root path u ∧ slice_ok s (uk_SymbolPath (mu_Key u)).
Definition Inv (s : xstate) : Prop :=
  ∀ k u, xs_units s !! k = Some u → ready s u ∧ (short = true → xkey s u = k).
Definition grows (s s' : xstate) : Prop :=
  short = true → ∃ t, xs_arrays s' = xs_arrays s ++ t.

Definition triple {A} (P : xstate → Prop) (m : ext A) (Q : A → xstate → Prop) : Prop :=
  ∀ s, Inv s → P s → Inv (fst (m s)) ∧ grows s (fst (m s)) ∧ Q (snd (m s)) (fst (m s)).

Definition stable (P : xstate → Prop) : Prop := ∀ s s', grows s s' → P s → P s'.

Lemma grows_refl s : grows s s.
Proof. intros _. exists []. by rewrite app_nil_r. Qed.
Lemma grows_trans s1 s2 s3 : grows s1 s2 → grows s2 s3 → grows s1 s3.
Proof.
  intros H1 H2 Hs. destruct (H1 Hs) as [t Ht]. destruct (H2 Hs) as [t' Ht'].
  exists (t ++ t'). by rewrite Ht', Ht, app_assoc.
Qed.

Lemma stable_slice p : stable (λ s, slice_ok s p).
Proof.
  intros s s' Hg Hp Hs. destruct (Hg Hs) as [t Ht]. destruct (Hp Hs) as [E [?|?]];
    split; [done|by left|done|right]. rewrite Ht, length_app. lia.
Qed.
Lemma stable_ready u : stable (λ s, ready s u).
Proof. intros s s' Hg [Hm Hp]. split; [done|]. by eapply stable_slice. Qed.
Lemma stable_True : stable (λ _, True).
Proof. done. Qed.

Lemma read_slice_grows s s' p :
  short = true → grows s s' → slice_ok s p →
  read_slice (xs_arrays s') p = read_slice (xs_arrays s) p.
Proof.
  intros Hs Hg Hp. destruct (Hg Hs) as [t Ht]. destruct (Hp Hs) as [E [E0|Hlt]].
  - unfold read_slice. by rewrite E0, !take_0.
  - unfold read_slice. by rewrite Ht, lookup_app_l.
Qed.

Lemma triple_ret {A} P Q (a : A) : (∀ s, P s → Q a s) → triple P (mret a) Q.
Proof. intros H s HI HP. simpl. split; [done|]. split; [apply grows_refl|]. eauto. Qed.

Lemma triple_bind {A B} P R Q (m : ext A) (f : A → ext B) :
  stable P → triple P m R → (∀ a, triple (λ s, R a s ∧ P s) (f a) Q) → triple P (m ≫= f) Q.
Proof.
  intros HP Hm Hf s HI HPs. destruct (Hm s HI HPs) as (HI1 & Hg1 & HR).
  unfold mbind, ext_bind. destruct (m s) as [s1 a]. simpl in *.
  destruct (Hf a s1 HI1) as (HI2 & Hg2 & HQ); [split; [done|by eapply HP]|].
  split; [done|]. split; [by eapply grows_trans|done].
Qed.

Lemma triple_weaken {A} (P P' : xstate → Prop) (Q Q' : A → xstate → Prop) m :
  triple P m Q → (∀ s, P' s → P s) → (∀ a s, Q a s → Q' a s) → triple P' m Q'.
Proof. intros Hm HP HQ s HI HPs. destruct (Hm s HI) as (?&?&?); eauto. Qed.

(** A parent path has at most one component when [short] is set. *)
Definition parent_ok (s : xstate) (p : Slice) (n : nat) : Prop :=
  slice_ok s p ∧ (short = true → (s_len p ≤ n)%nat).
Lemma stable_parent p n : stable (λ s, parent_ok s p n).
Proof. intros s s' Hg [H1 H2]. split; [by eapply stable_slice|done]. Qed.
Lemma parent_nil s n : parent_ok s nil_slice n.
Proof. split; [|simpl; lia]. intros _. simpl. auto. Qed.

Lemma triple_append p x n :
  (n ≤ 1)%nat →
  triple (λ s, parent_ok s p n) (append_path p x) (λ q s, parent_ok s q (S n)).
Proof.
  intros Hn s HI [Hp Hlen]. unfold append_path, append_slice.
  destruct short eqn:Hsh.
  - destruct (Hp Hsh) as [E Ha]. specialize (Hlen eq_refl).
    destruct (Nat.ltb_spec (s_len p) (s_cap p)) as [?|_]; [lia|]. simpl.
    assert (grows s (mk_xstate (xs_arrays s ++
      [read_slice (xs_arrays s) p ++ x :: replicate (growslice (s_cap p) - S (s_len p)) ""])
      (xs_units s))) as Hg by (intros _; simpl; eauto).
    split; [|split].
    + intros k u Hk. destruct (HI k u Hk) as [Hr Hkey].
      split; [by eapply stable_ready|]. intros _. rewrite <-(Hkey Hsh).
      unfold xkey. erewrite read_slice_grows; [done|done|exact Hg|apply Hr].
    + done.
    + split; [|simpl; lia]. intros _. simpl. rewrite length_app. simpl. split; [|lia].
      rewrite <-E. destruct (s_len p) as [|[|]]; [done|done|lia].
  - clear Hlen Hp. destruct (s_len p <? s_cap p)%nat; simpl.
    + split; [|split].
      * intros k u Hk. destruct (HI k u Hk) as [[Hr _] _].
        split; [|by rewrite -> Hsh]. split; [done|by unfold slice_ok; rewrite Hsh].
      * by unfold grows; rewrite Hsh.
      * split; [by unfold slice_ok; rewrite Hsh|by rewrite -> Hsh].
    + split; [|split].
      * intros k u Hk. destruct (HI k u Hk) as [[Hr _] _].
        split; [|by rewrite -> Hsh]. split; [done|by unfold slice_ok; rewrite Hsh].
      * by unfold grows; rewrite Hsh.
      * split; [by unfold slice_ok; rewrite Hsh|by rewrite -> Hsh].
Qed.

Lemma triple_store u : triple (λ s, ready s u) (store_unit u) (λ _ _, True).
Proof.
  intros s HI Hu. simpl. split; [|split; [intros _; exists []; by rewrite app_nil_r|done]].
  intros k v. simpl. intros [[<- <-]|[_ Hk]]%lookup_insert_Some.
  - split; [exact Hu|done].
  - destruct (HI k v Hk). split; [done|]. by unfold xkey.
Qed.

Lemma triple_store_opt o :
  triple (λ s, ∀ u, o = Some u → ready s u) (store_opt o) (λ _ _, True).
Proof.
  destruct o as [u|]; [|by apply triple_ret].
  eapply triple_weaken; [apply triple_store| |done]. intros s H. by apply H.
Qed.

Lemma triple_for_each {A} P (l : list A) f :
  stable P → (∀ x, x ∈ l → triple P (f x) (λ _ _, True)) →
  triple P (for_each l f) (λ _ _, True).
Proof.
  intros HP. induction l as [|x l IH]; intros Hf; simpl; [by apply triple_ret|].
  eapply triple_bind; [done|apply Hf; set_solver|]. intros [].
  eapply triple_weaken; [apply IH; set_solver|by intros s []|done].
Qed.

Definition all_ready (us : list XUnit) (s : xstate) : Prop := Forall (ready s) us.
Definition opt_ready (o : option XUnit) (s : xstate) : Prop := ∀ u, o = Some u → ready s u.
Lemma stable_opt o : stable (opt_ready o).
Proof. intros s s' Hg Ho u Hu. eapply stable_ready; eauto. Qed.
Lemma stable_and P Q : stable P → stable Q → stable (λ s, P s ∧ Q s).
Proof. intros HP HQ s s' Hg [? ?]. split; [by eapply HP|by eapply HQ]. Qed.

Lemma triple_for_units {A} P (l : list A) f :
  stable P → (∀ x, x ∈ l → triple P (f x) opt_ready) →
  triple P (for_units l f) all_ready.
Proof.
  intros HP. induction l as [|x l IH]; intros Hf; simpl;
    [apply triple_ret; intros; constructor|].
  eapply triple_bind; [done|apply Hf; set_solver|]. intros o.
  eapply triple_bind; [apply stable_and; [apply stable_opt|done]| |].
  - eapply triple_weaken; [apply IH; set_solver|by intros s []|done].
  - intros us. apply triple_ret. intros s (Hus & Ho & _).
    destruct o as [u|]; [constructor; [by apply Ho|done]|done].
Qed.

Lemma ready_new s n q kind name sig :
  subnode n root → slice_ok s q → ready s (new_unit n path q kind name sig).
Proof. intros Hn Hq. split; [by constructor|exact Hq]. Qed.

(** Every extractor makes its unit ready. *)
Lemma triple_named n p kind name sig d :
  subnode n root → (d ≤ 1)%nat →
  triple (λ s, parent_ok s p d) (named_unit n path p kind name sig) opt_ready.
Proof.
  intros Hn Hd. unfold named_unit. case_match; [by apply triple_ret|].
  eapply triple_bind; [apply stable_parent|by apply triple_append|].
  intros q. apply triple_ret. intros s [[Hq _] _] u [= <-]. by apply ready_new.
Qed.

Lemma triple_import n : subnode n root → triple (λ _, True) (import_unit n path) (λ u s, ready s u).
Proof.
  intros Hn. unfold import_unit.
  eapply triple_bind; [apply stable_True| |].
  - eapply triple_weaken; [apply (triple_append nil_slice _ 0); lia| |by intros ?? H; apply H].
    intros s _. apply parent_nil.
  - intros q. apply triple_ret. intros s [[Hq _] _]. by apply ready_new.
Qed.

Lemma triple_class n p kind name sig members member :
  subnode n root →
  (∀ q c, c ∈ members → triple (λ s, parent_ok s q 1) (member q c) opt_ready) →
  triple (λ s, parent_ok s p 0) (class_unit n path p kind name sig members member) opt_ready.
Proof.
  intros Hn Hm. unfold class_unit. case_match; [by apply triple_ret|].
  eapply triple_bind; [apply stable_parent|apply triple_append; lia|]. intros q.
  eapply triple_bind; [apply stable_and; apply stable_parent| |].
  - eapply triple_weaken with (P := λ s, parent_ok s q 1); [|by intros s []|done].
    apply triple_for_units; [apply stable_parent|]. intros c Hc.
    eapply triple_bind; [apply stable_parent|by apply Hm|]. intros o.
    eapply triple_bind; [apply stable_and; [apply stable_opt|apply stable_parent]| |].
    + eapply triple_weaken; [apply triple_store_opt|by intros s []|done].
    + intros []. apply triple_ret. by intros s (_ & Ho & _).
  - intros us. apply triple_ret. intros s (_ & [Hq _] & _) u [= <-].
    destruct (ready_new s n q kind name sig Hn Hq) as [Hm' ?].
    split; [by apply made_from_children|done].
Qed.

(** A method found by a function extractor. *)
Lemma triple_as_method (m : ext (option XUnit)) P :
  stable P → triple P m opt_ready → triple P (o ← m; mret (as_method <$> o)) opt_ready.
Proof.
  intros HP Hm. eapply triple_bind; [done|done|]. intros o. apply triple_ret.
  intros s [Ho _] u Hu. destruct o as [v|]; [|done]. injection Hu as <-.
  destruct (Ho v eq_refl) as [? ?]. split; [by apply made_from_method|done].
Qed.

Lemma triple_opt_store (m : ext (option XUnit)) P :
  stable P → triple P m opt_ready → triple P (u ← m; store_opt u) (λ _ _, True).
Proof.
  intros HP Hm. eapply triple_bind; [done|done|]. intros o.
  eapply triple_weaken; [apply triple_store_opt|by intros s []|done].
Qed.

Lemma triple_import_store n P :
  stable P → subnode n root → triple P (u ← import_unit n path; store_unit u) (λ _ _, True).
Proof.
  intros HP Hn. eapply triple_bind; [done| |].
  - eapply triple_weaken; [by apply triple_import|done|done].
  - intros u. eapply triple_weaken; [apply triple_store|by intros s []|done].
Qed.

Lemma stable_all us : stable (all_ready us).
Proof.
  intros s s' Hg H. eapply Forall_impl; [exact H|]. intros u Hu. by eapply stable_ready.
Qed.

Lemma triple_store_all us : triple (all_ready us) (for_each us store_unit) (λ _ _, True).
Proof.
  apply triple_for_each; [apply stable_all|]. intros u Hu.
  eapply triple_weaken; [apply triple_store| |done].
  intros s Hs. exact (proj1 (Forall_forall _ _) Hs u Hu).
Qed.

Lemma triple_skip {A B} P (m : ext A) (k : ext B) :
  stable P → triple P m (λ _ _, True) → triple P k (λ _ _, True) →
  triple P (m ;; k) (λ _ _, True).
Proof.
  intros HP Hm Hk. eapply triple_bind; [done|done|]. intros a.
  eapply triple_weaken; [exact Hk|by intros s []|done].
Qed.

Lemma triple_if {A} (b : bool) P (m k : ext A) Q :
  triple P m Q → triple P k Q → triple P (if b then m else k) Q.
Proof. by destruct b. Qed.



Lemma triple_deeper {A} p (m : ext A) Q :
  triple (λ s, parent_ok s p 1) m Q → triple (λ s, parent_ok s p 0) m Q.
Proof.
  intros H. eapply triple_weaken; [exact H| |done]. intros s [? Hl]. split; [done|].
  intros E. specialize (Hl E). lia.
Qed.

Lemma walk_children p cs (walk : Node → ext ()) :
  (∀ c, c ∈ cs → triple (λ s, parent_ok s p 0) (walk c) (λ _ _, True)) →
  triple (λ s, parent_ok s p 0) (for_each cs walk) (λ _ _, True).
Proof. intros H. apply triple_for_each; [apply stable_parent|done]. Qed.
End Logic.

(** Induction on syntax trees. *)
Section NodeInd.
Context (P : Node → Prop).
Context (step : ∀ n, (∀ c, c ∈ n_children n → P c) → P n).
Fixpoint Node_induction (n : Node) : P n.
Proof.
  apply step. destruct n as [ty tx s e cs]. simpl.
  induction cs as [|c cs IH].
  - intros c Hc. exfalso. inversion Hc.
  - intros c' Hc'. apply elem_of_cons in Hc'. destruct Hc' as [->|Hc'].
    + apply Node_induction.
    + by apply IH.
Defined.
End NodeInd.

Lemma Node_strong_induction (P : Node → Prop) :
  (∀ n, (∀ c m, c ∈ n_children n → subnode m c → P m) → P n) → ∀ n, P n.
Proof.
  intros step n. cut (∀ m, subnode m n → P m); [intros H; apply H; constructor|].
  induction n as [n IH] using Node_induction. intros m Hm. inversion Hm; subst.
  - apply step. intros c k Hc Hk. by eapply IH.
  - by eapply IH.
Qed.

Section Walks.
Context (root : Node) (path : string).

Ltac member_of H Hn := let b := fresh in let H1 := fresh in let H2 := fresh in
  apply last_child_elem in H as (b & H1 & H2);
  eapply subnode_child_of; [exact H2|]; eapply subnode_child_of; [exact H1|exact Hn].

Lemma extractJSClass_ok p n :
  subnode n root →
  triple root path true (λ s, parent_ok true s p 0) (extractJSClass n path p)
    (λ o s, opt_ready root path true o s).
Proof.
  intros Hn. apply triple_class; [done|]. intros q c Hc.
  apply triple_if; [|by apply triple_ret].
  apply triple_named; [member_of Hc Hn|lia].
Qed.

Lemma extractJSVariables_ok p n :
  subnode n root →
  triple root path true (λ s, parent_ok true s p 0) (extractJSVariables n path p)
    (λ us s, all_ready root path true us s).
Proof.
  intros Hn. apply triple_for_units; [apply stable_parent|]. intros c Hc.
  apply triple_if; [|by apply triple_ret]. unfold extractJSVariableDeclarator.
  destruct (foldl _ _ _) as [[name kind] sig].
  apply triple_named; [by eapply subnode_child_of|lia].
Qed.

(** [walk_case] takes apart the dispatch of a walk on the node type. *)
Ltac walk_case Hn :=
  first [ apply triple_opt_store; [apply stable_parent|]; first [done | by apply triple_named; [|lia]]
        | by apply triple_import_store; [apply stable_parent|]
        | by apply triple_ret ].

Lemma walkJSNode_ok n : subnode n root → ∀ p,
  triple root path true (λ s, parent_ok true s p 0) (walkJSNode path p n) (λ _ _, True).
Proof.
  induction n as [n IH] using Node_induction. intros Hn p.
  assert (triple root path true (λ s, parent_ok true s p 0)
    (for_each (n_children n) (walkJSNode path p)) (λ _ _, True)) as Hcs.
  { apply walk_children. intros c Hc. apply IH; [done|]. by eapply subnode_child_of. }
  destruct n as [ty tx st e cs]. cbn [walkJSNode].
  apply triple_skip; [apply stable_parent| |apply triple_if; [done|by apply triple_ret]].
  repeat (apply triple_if; [|]).
  - walk_case Hn.
  - eapply triple_bind; [apply stable_parent|by apply extractJSVariables_ok|].
    intros us. eapply triple_weaken; [apply triple_store_all|by intros s []|done].
  - apply triple_opt_store; [apply stable_parent|by apply extractJSClass_ok].
  - done.
  - walk_case Hn.
  - walk_case Hn.
Qed.

Lemma extractPyClass_ok p n :
  subnode n root →
  triple root path true (λ s, parent_ok true s p 0) (extractPyClass n path p)
    (λ o s, opt_ready root path true o s).
Proof.
  intros Hn. apply triple_class; [done|]. intros q c Hc.
  apply triple_if; [|by apply triple_ret]. apply triple_as_method; [apply stable_parent|].
  apply triple_named; [member_of Hc Hn|lia].
Qed.

Lemma walkPyNode_ok n : subnode n root → ∀ p,
  triple root path true (λ s, parent_ok true s p 0) (walkPyNode path p n) (λ _ _, True).
Proof.
  induction n as [n IH] using Node_induction. intros Hn p.
  assert (triple root path true (λ s, parent_ok true s p 0)
    (for_each (n_children n) (walkPyNode path p)) (λ _ _, True)) as Hcs.
  { apply walk_children. intros c Hc. apply IH; [done|]. by eapply subnode_child_of. }
  destruct n as [ty tx st e cs]. cbn [walkPyNode].
  apply triple_skip; [apply stable_parent| |apply triple_if; [done|by apply triple_ret]].
  repeat (apply triple_if; [|]).
  - walk_case Hn.
  - apply triple_opt_store; [apply stable_parent|by apply extractPyClass_ok].
  - walk_case Hn.
  - walk_case Hn.
Qed.

Lemma extractRbSingletonMethod_ok p n d :
  subnode n root → (d ≤ 1)%nat →
  triple root path true (λ s, parent_ok true s p d) (extractRbSingletonMethod n path p)
    (λ o s, opt_ready root path true o s).
Proof.
  intros Hn Hd. unfold extractRbSingletonMethod. destruct (foldl _ _ _) as [object name].
  by apply triple_named.
Qed.

Lemma rb_class_ok p n kind name sig :
  subnode n root →
  triple root path true (λ s, parent_ok true s p 0)
    (class_unit n path p kind name sig (last_child "body_statement" n) (rb_member path))
    (λ o s, opt_ready root path true o s).
Proof.
  intros Hn. apply triple_class; [done|]. intros q c Hc.
  repeat (apply triple_if; [|]); [| |by apply triple_ret].
  - apply triple_as_method; [apply stable_parent|]. apply triple_named; [member_of Hc Hn|lia].
  - apply triple_as_method; [apply stable_parent|].
    apply extractRbSingletonMethod_ok; [member_of Hc Hn|lia].
Qed.

Lemma walkRbNode_ok n : subnode n root → ∀ p,
  triple root path true (λ s, parent_ok true s p 0) (walkRbNode path p n) (λ _ _, True).
Proof.
  induction n as [n IH] using Node_induction. intros Hn p.
  assert (triple root path true (λ s, parent_ok true s p 0)
    (for_each (n_children n) (walkRbNode path p)) (λ _ _, True)) as Hcs.
  { apply walk_children. intros c Hc. apply IH; [done|]. by eapply subnode_child_of. }
  destruct n as [ty tx st e cs]. cbn [walkRbNode].
  apply triple_skip; [apply stable_parent| |apply triple_if; [done|by apply triple_ret]].
  repeat (apply triple_if; [|]).
  - walk_case Hn.
  - apply triple_opt_store; [apply stable_parent|apply extractRbSingletonMethod_ok; [done|lia]].
  - apply triple_opt_store; [apply stable_parent|by apply rb_class_ok].
  - apply triple_opt_store; [apply stable_parent|by apply rb_class_ok].
  - apply triple_opt_store; [apply stable_parent|]. unfold extractRbRequire.
    apply triple_if; [by apply triple_ret|].
    eapply triple_bind; [apply stable_parent| |].
    + eapply triple_weaken; [by apply triple_import|done|done].
    + intros u. apply triple_ret. by intros s [? _] v [= <-].
  - walk_case Hn.
Qed.

(** Rust modules nest, so the paths may be of any length. *)
Lemma parent_any p s n : parent_ok false s p n.
Proof. by split. Qed.

Lemma rs_members_ok tys p n : subnode n root →
  triple root path false (λ s, parent_ok false s p 0) (rs_members tys path p n) (λ _ _, True).
Proof.
  intros Hn. apply triple_for_each; [apply stable_parent|]. intros c Hc.
  apply triple_if; [|by apply triple_ret].
  apply triple_for_each; [apply stable_parent|]. intros i Hi.
  apply triple_if; [|by apply triple_ret].
  apply triple_opt_store; [apply stable_parent|]. apply triple_named; [|lia].
  eapply subnode_child_of; [exact Hi|]. by eapply subnode_child_of.
Qed.

Lemma rs_triple_l {A} p P (m : ext A) Q :
  triple root path false (λ s, parent_ok false s p 0) m Q → triple root path false P m Q.
Proof. intros H. eapply triple_weaken; [exact H| |done]. intros. apply parent_any. Qed.

Lemma rs_first_list_ok p l (walk : Node → ext ()) :
  (∀ c d, c ∈ l → d ∈ n_children c →
     triple root path false (λ s, parent_ok false s p 0) (walk d) (λ _ _, True)) →
  triple root path false (λ s, parent_ok false s p 0) (rs_first_list walk l) (λ _ _, True).
Proof.
  induction l as [|c l IHl]; intros Hl; [by apply triple_ret|].
  destruct c as [cty ctx cst ce ccs]. apply triple_if.
  - apply walk_children. intros d Hd. eapply Hl; [by left|done].
  - apply IHl. intros c d Hc Hd. eapply Hl; [by right|done].
Qed.

Lemma walkRsNode_ok n : subnode n root → ∀ p,
  triple root path false (λ s, parent_ok false s p 0) (walkRsNode path p n) (λ _ _, True).
Proof.
  induction n as [n IH] using Node_strong_induction. intros Hn p.
  assert (triple root path false (λ s, parent_ok false s p 0)
    (for_each (n_children n) (walkRsNode path p)) (λ _ _, True)) as Hcs.
  { apply walk_children. intros c Hc. eapply IH; [done|constructor|].
    by eapply subnode_child_of. }
  assert (∀ q, triple root path false (λ s, parent_ok false s q 0)
    (rs_first_list (walkRsNode path q) (n_children n)) (λ _ _, True)) as Hmod.
  { intros q. apply rs_first_list_ok. intros c d Hc Hd.
    eapply IH; [done|by apply subnode_of_child|].
    eapply subnode_child_of; [done|]. by eapply subnode_child_of. }
  destruct n as [ty tx st e cs]. cbn [walkRsNode].
  apply triple_skip; [apply stable_parent| |apply triple_if; [done|by apply triple_ret]].
  repeat (apply triple_if; [|]).
  - walk_case Hn.
  - walk_case Hn.
  - walk_case Hn.
  - apply triple_opt_store; [apply stable_parent|]. unfold extractRsTrait.
    apply triple_if; [by apply triple_ret|].
    eapply triple_bind; [apply stable_parent|apply triple_append; lia|]. intros q.
    eapply triple_bind; [apply stable_and; apply stable_parent| |].
    + eapply rs_triple_l, rs_members_ok, Hn.
    + intros []. apply triple_ret. intros s (_ & [Hq _] & _) u [= <-]. by apply ready_new.
  - unfold extractRsImpl. eapply triple_bind; [apply stable_parent| |].
    + instantiate (1 := λ _ _, True). apply triple_if; [by apply triple_ret|].
      eapply triple_weaken; [apply (triple_append _ _ _ _ _ 0); lia|done|done].
    + intros q. eapply rs_triple_l, rs_members_ok, Hn.
  - apply triple_opt_store; [apply stable_parent|].
    apply triple_if; [by apply triple_ret|].
    eapply triple_bind; [apply stable_parent|apply triple_append; lia|]. intros q.
    eapply triple_bind; [apply stable_and; apply stable_parent| |].
    + eapply rs_triple_l, Hmod.
    + intros []. apply triple_ret. intros s (_ & [Hq _] & _) u [= <-]. by apply ready_new.
  - walk_case Hn.
  - walk_case Hn.
Qed.
End Walks.

(** Reading the paths at the end gives every unit the key it is stored under
    if no path was overwritten. *)
Lemma xkey_final s u :
  UnitKey_String (mu_Key (map_path (read_slice (xs_arrays s)) u)) = xkey s u.
Proof. by destruct u. Qed.

Lemma walk_ok root path short (m : ext ()) :
  triple root path short (λ s, parent_ok short s nil_slice 0) m (λ _ _, True) →
  Inv root path short (fst (m (mk_xstate [] ∅))).
Proof.
  intros H. apply H; [|apply parent_nil]. intros k u. simpl. by rewrite lookup_empty.
Qed.

(** Every unit that [ExtractUnits] finds describes a node of the syntax
    tree of the file - its content is the text of the node, its digest is the
    digest of that content, its range is the node's - and, for every language
    but Rust, it is stored under its own key.  (In Rust, modules nested three
    deep make sibling units share the array of their symbol paths.) *)
Theorem ExtractUnits_wf `{Sitter} path content lang fu :
  ExtractUnits path content lang = Ok fu →
  ∃ root, ParseCtx (Parse_grammar lang) content = Some root ∧
    ∀ k u, fu_Units fu !! k = Some u →
      made_from root path u ∧
      (lang ∉ ["rs"; "rust"] → UnitKey_String (mu_Key u) = k).
Proof.
  unfold ExtractUnits. destruct (ParseCtx _ _) as [root|]; [|done].
  intros [= <-]. exists root. split; [done|]. intros k u. simpl.
  rewrite lookup_fmap_Some. intros (v & <- & Hv).
  set (short := negb (bool_decide (lang ∈ ["rs"; "rust"]))).
  assert (Inv root path short (fst (walk_lang lang path root (mk_xstate [] ∅)))) as HI.
  { apply walk_ok. unfold walk_lang.
    assert (subnode root root) as Hr by constructor.
    assert (∀ ls, lang ∈ ls → Forall (λ l, l ∉ ["rs"; "rust"]) ls → short = true) as Hs.
    { intros ls Hl Hall. unfold short. rewrite bool_decide_eq_false_2; [done|].
      by eapply Forall_forall in Hall. }
    case_bool_decide as E1; [rewrite (Hs _ E1) by (repeat constructor; set_solver); by apply walkJSNode_ok|].
    case_bool_decide as E2; [rewrite (Hs _ E2) by (repeat constructor; set_solver); by apply walkPyNode_ok|].
    case_bool_decide as E3; [rewrite (Hs _ E3) by (repeat constructor; set_solver); by apply walkRbNode_ok|].
    unfold short. case_bool_decide; [by apply walkRsNode_ok|by apply walkJSNode_ok]. }
  destruct (HI k v Hv) as [[Hm _] Hkey]. split; [by apply made_from_map|].
  intros Hl. rewrite xkey_final. apply Hkey. unfold short. by rewrite bool_decide_eq_false_2.
Qed.

(** ** Concrete trees *)

Definition leaf (ty text : string) : Node := mk_Node ty text (0, 0)%Z (0, 0)%Z [].
Definition node_at (row : Z) (ty text : string) (cs : list Node) : Node :=
  mk_Node ty text (row, 0)%Z (row, zlen (bytes_of text))%Z cs.

(** [function f(a) { return a }] at the given row. *)
Definition js_function (row : Z) (name params body : string) : Node :=
  node_at row "function_declaration" ("function " ++ name ++ params ++ " " ++ body)
    [leaf "function" "function"; leaf "identifier" name;
     leaf "formal_parameters" params; leaf "statement_block" body].

Definition demo_js : Sitter := {| ParseCtx _ content :=
  Some (node_at 0 "program" (string_of content)
    [js_function 0 "f" "(a)" "{ return a }"]) |}.

Lemma ExtractUnits_wf_witness :
  ∃ fu u, @ExtractUnits demo_js "a.js" (bytes_of "function f(a) { return a }") "js" = Ok fu ∧
    fu_Units fu !! "a.js::f"%string = Some u ∧ mu_Signature u = "function f(a)"%string ∧
    UnitKey_String (mu_Key u) = "a.js::f"%string.
Proof.
  destruct (@ExtractUnits demo_js "a.js" (bytes_of "function f(a) { return a }") "js")
    as [fu| |] eqn:Hfu; [|exfalso; by vm_compute in Hfu..].
  destruct (@ExtractUnits_wf demo_js _ _ _ _ Hfu) as (root & _ & Hwf).
  assert (∃ u, fu_Units fu !! "a.js::f"%string = Some u ∧
    mu_Signature u = "function f(a)"%string) as (u & Hu & Hsig).
  { vm_compute in Hfu. injection Hfu as <-. eexists. by vm_compute. }
  exists fu, u. repeat split; [done|done|].
  apply (Hwf _ _ Hu). set_solver.
Defined.

(** Two functions in a Rust module nested three deep: the second [append] on
    the path of the module writes into the array of the first, so the unit
    stored under [...::a.b.c.d] says that it is [a.b.c.e]. *)
Definition rs_fn (name : string) : Node :=
  node_at 0 "function_item" ("fn " ++ name ++ "() {}") [leaf "identifier" name; leaf "parameters" "()"].
Definition rs_mod (name : string) (cs : list Node) : Node :=
  node_at 0 "mod_item" ("mod " ++ name) [leaf "identifier" name; node_at 0 "declaration_list" "" cs].
Definition demo_rs : Sitter := {| ParseCtx _ content :=
  Some (node_at 0 "source_file" "" [rs_mod "a" [rs_mod "b" [rs_mod "c" [rs_fn "d"; rs_fn "e"]]]]) |}.

Example sibling_path_overwritten :
  match @ExtractUnits demo_rs "m.rs" [] "rust" with
  | Ok fu => (UnitKey_String ∘ mu_Key <$> fu_Units fu !! "m.rs::a.b.c.d"%string)
             = Some "m.rs::a.b.c.e"%string
  | _ => False
  end.
Proof. vm_compute. reflexivity. Qed.
