(* ===== verification/ExtractSpec.v ===== *)
(** * What the extraction of merge units finds (kai-core/merge/extract.go)

    For JavaScript, TypeScript, Python and Ruby the declarations of a syntax
    tree, their names, kinds, signatures and symbol paths, said without slices,
    stores or loops, and that [ExtractUnits] returns exactly these.  Rust is
    left out: there sibling units may overwrite each other's symbol path, as
    [sibling_path_overwritten] shows. *)

From S2P Require Import Prelude Sha1 Sha256 Extract.

(** ** Specification: declarations *)

Definition PUnit : Type := MergeUnit (list string).

(** The text of the first child of one of the types that has a text. *)
Definition first_named (tys : list string) (n : Node) : string :=
  default "" (n_Content <$> List.find (λ c, bool_decide (n_Type c ∈ tys ∧ n_Content c ≠ "")) (n_children n)).
(** The text of the last child of one of the types. *)
Definition last_named (tys : list string) (n : Node) : string :=
  default "" (n_Content <$> last (filter (λ c, n_Type c ∈ tys) (n_children n))).
(** The children of the last child of the type. *)
Definition body_of (ty : string) (n : Node) : list Node :=
  default [] (n_children <$> last (filter (λ c, n_Type c = ty) (n_children n))).

(** A node as a unit; nothing is a declaration without a name. *)
Definition unit_of (file : string) (n : Node) (path : list string) (kind : UnitKind) (name sig : string) : PUnit :=
  mk_MergeUnit (mk_UnitKey file path kind) kind name sig
    (Sum256 (bytes_of (n_Content n))) (nodeRange n) [] [] n (bytes_of (n_Content n)).
Definition decl (file : string) (n : Node) (path : list string) (kind : UnitKind) (name sig : string) : option PUnit :=
  if decide (name = "") then None else Some (unit_of file n (path ++ [name]) kind name sig).
(** The members of a class and then the class, whose children they are. *)
Definition class_decls (file : string) (n : Node) (kind : UnitKind) (name sig : string)
    (member : list string → Node → option PUnit) (body : list Node) : list PUnit :=
  if decide (name = "") then []
  else let members := omap (member [name]) body in
       members ++ [with_children members (unit_of file n [name] kind name sig)].
Definition import_decl (file : string) (n : Node) : PUnit :=
  unit_of file n ["import:" +:+ n_Content n] UnitImport (n_Content n) "".

(** *** JavaScript and TypeScript *)

Definition js_function (file : string) (n : Node) : option PUnit :=
  let name := first_named ["identifier"] n in
  decl file n [] UnitFunction name ("function " +:+ name +:+ last_named ["formal_parameters"] n).
Definition js_member (file : string) (path : list string) (n : Node) : option PUnit :=
  if decide (n_Type n = "method_definition") then
    let name := last_named ["property_identifier"] n in
    decl file n path UnitMethod name (name +:+ last_named ["formal_parameters"] n)
  else None.
Definition js_class (file : string) (n : Node) : list PUnit :=
  let name := first_named ["identifier"] n in
  class_decls file n UnitClass name ("class " +:+ name) (js_member file) (body_of "class_body" n).

(** A declarator: a function when a child is one. *)
Definition is_function (c : Node) : bool := bool_decide (n_Type c ∈ ["arrow_function"; "function"]).
Definition params_of (c : Node) : option string :=
  n_Content <$> List.find (λ c, bool_decide (n_Type c = "formal_parameters")) (n_children c).
(** The name that the children read so far give. *)
Definition name_of (cs : list Node) : string :=
  default "" (n_Content <$> List.find (λ c, bool_decide (n_Type c = "identifier" ∧ n_Content c ≠ "")) cs).
(** The signature: the last function with parameters and the name in front of
    it. *)
Fixpoint function_sig (before cs : list Node) : option string :=
  match cs with
  | [] => None
  | c :: cs =>
    match function_sig (before ++ [c]) cs with
    | Some sig => Some sig
    | None => if is_function c
              then (λ ps, "const " +:+ name_of before +:+ " = " +:+ ps +:+ " => ...") <$> params_of c
              else None
    end
  end.
Definition js_variable (file declKind : string) (n : Node) : option PUnit :=
  if decide (n_Type n = "variable_declarator") then
    let cs := n_children n in
    let name := name_of cs in
    let kind := if existsb is_function cs then UnitFunction
                else if decide (declKind = "const") then UnitConst else UnitVariable in
    decl file n [] kind name (default (declKind +:+ " " +:+ name) (function_sig [] cs))
  else None.
Definition js_variables (file : string) (n : Node) : list PUnit :=
  let declKind := default "" (n_Type <$> List.find (λ c, bool_decide (n_Type c ∈ ["const"; "let"; "var"])) (n_children n)) in
  omap (js_variable file declKind) (n_children n).

Fixpoint js_decls (file : string) (n : Node) : list PUnit :=
  let 'mk_Node ty _ _ _ cs := n in
  if decide (ty = "function_declaration") then option_list (js_function file n)
  else if decide (ty ∈ ["lexical_declaration"; "variable_declaration"]) then js_variables file n
  else if decide (ty = "class_declaration") then js_class file n
  else if decide (ty = "import_statement") then [import_decl file n]
  else if decide (ty ∈ ["export_statement"; "program"]) then cs ≫= js_decls file
  else [].

(** *** Python *)

Definition py_function (file : string) (path : list string) (kind : UnitKind) (n : Node) : option PUnit :=
  let name := first_named ["identifier"] n in
  decl file n path kind name ("def " +:+ name +:+ last_named ["parameters"] n).
Definition py_member (file : string) (path : list string) (n : Node) : option PUnit :=
  if decide (n_Type n = "function_definition") then py_function file path UnitMethod n else None.
Definition py_class (file : string) (n : Node) : list PUnit :=
  let name := first_named ["identifier"] n in
  class_decls file n UnitClass name ("class " +:+ name) (py_member file) (body_of "block" n).
Fixpoint py_decls (file : string) (n : Node) : list PUnit :=
  let 'mk_Node ty _ _ _ cs := n in
  if decide (ty = "function_definition") then option_list (py_function file [] UnitFunction n)
  else if decide (ty = "class_definition") then py_class file n
  else if decide (ty ∈ ["import_statement"; "import_from_statement"]) then [import_decl file n]
  else if decide (ty = "module") then cs ≫= py_decls file
  else [].

(** *** Ruby *)

Definition rb_method (file : string) (path : list string) (kind : UnitKind) (n : Node) : option PUnit :=
  let name := first_named ["identifier"] n in
  decl file n path kind name ("def " +:+ name +:+ last_named ["method_parameters"] n).
(** The words in front of the name of a singleton method: [self] anywhere is
    the object, else the first one is; the name is the first identifier behind
    the first word. *)
Definition is_self (c : Node) : bool := bool_decide (n_Type c = "self").
Definition is_word (c : Node) : bool := bool_decide (n_Type c = "identifier" ∧ n_Content c ≠ "").
Definition singleton_names (cs : list Node) : string * string :=
  let words := filter (λ c, is_self c || is_word c = true) cs in
  (if existsb is_self words then "self" else default "" (n_Content <$> head words),
   default "" (n_Content <$> List.find is_word (tail words))).
Definition rb_singleton (file : string) (path : list string) (kind : UnitKind) (n : Node) : option PUnit :=
  let '(object, name) := singleton_names (n_children n) in
  decl file n path kind name ("def " +:+ object +:+ "." +:+ name +:+ last_named ["method_parameters"] n).
Definition rb_member_decl (file : string) (path : list string) (n : Node) : option PUnit :=
  if decide (n_Type n = "method") then rb_method file path UnitMethod n
  else if decide (n_Type n = "singleton_method") then rb_singleton file path UnitMethod n
  else None.
Definition rb_class (file keyword : string) (kind : UnitKind) (n : Node) : list PUnit :=
  let name := first_named ["constant"; "scope_resolution"] n in
  class_decls file n kind name (keyword +:+ " " +:+ name) (rb_member_decl file) (body_of "body_statement" n).
(** The first identifier of a call says what is called. *)
Definition rb_required (n : Node) : bool :=
  match List.find (λ c, bool_decide (n_Type c = "identifier")) (n_children n) with
  | Some c => bool_decide (n_Content c ∈ ["require"; "require_relative"; "load"])
  | None => false
  end.
Fixpoint rb_decls (file : string) (n : Node) : list PUnit :=
  let 'mk_Node ty _ _ _ cs := n in
  if decide (ty = "method") then option_list (rb_method file [] UnitFunction n)
  else if decide (ty = "singleton_method") then option_list (rb_singleton file [] UnitFunction n)
  else if decide (ty = "class") then rb_class file "class" UnitClass n
  else if decide (ty = "module") then rb_class file "module" UnitModule n
  else if decide (ty = "call") then (if rb_required n then [import_decl file n] else [])
  else if decide (ty = "program") then cs ≫= rb_decls file
  else [].

(** *** A file: of units with the same key the last one stays *)

Definition decls (lang file : string) (root : Node) : list PUnit :=
  if decide (lang ∈ ["py"; "python"]) then py_decls file root
  else if decide (lang ∈ ["rb"; "ruby"]) then rb_decls file root
  else js_decls file root.
Definition put_units (us : list PUnit) (m : gmap string PUnit) : gmap string PUnit :=
  foldl (λ m u, <[UnitKey_String (mu_Key u) := u]> m) m us.

(** ** Lemmas: texts of children *)

Lemma find_app_l {A} (f : A → bool) l k x : List.find f l = Some x → List.find f (l ++ k) = Some x.
Proof. induction l as [|y l IH]; cbn; [done|]. by destruct (f y). Qed.
Lemma find_app_r {A} (f : A → bool) l k : List.find f l = None → List.find f (l ++ k) = List.find f k.
Proof. induction l as [|y l IH]; cbn; [done|]. by destruct (f y). Qed.

Lemma first_text_named tys n : first_text tys n = first_named tys n.
Proof.
  unfold first_text, first_named. generalize (n_children n). intros l.
  set (f := λ v c, _). set (g := λ c, bool_decide _).
  assert (∀ l v, v ≠ "" → foldl f v l = v) as Hset.
  { intros k. induction k as [|c k IH]; intros v Hv; cbn [foldl]; [done|]. unfold f at 2.
    rewrite (proj2 (String.eqb_neq v "")), andb_false_r by done. by apply IH. }
  induction l as [|c l IH]; cbn [foldl List.find]; [done|]. unfold f at 2, g at 1. rewrite andb_true_r.
  destruct (decide (n_Content c = "")) as [E|E].
  - rewrite (bool_decide_eq_false_2 (_ ∧ _)) by tauto. destruct (bool_decide _); [|exact IH]. rewrite E. exact IH.
  - destruct (bool_decide (n_Type c ∈ tys)) eqn:Et.
    + apply bool_decide_eq_true in Et. rewrite bool_decide_eq_true_2 by done. by rewrite Hset.
    + apply bool_decide_eq_false in Et. rewrite bool_decide_eq_false_2 by tauto. exact IH.
Qed.

Lemma fold_last {A B} (P : A → Prop) `{∀ x, Decision (P x)} (t : A → bool) (f : A → B) l d :
  (∀ x, t x = true ↔ P x) →
  foldl (λ v c, if t c then f c else v) d l = default d (f <$> last (filter P l)).
Proof.
  intros Ht. induction l as [|c l IH] using rev_ind; [done|]. rewrite foldl_app, filter_app. cbn [foldl].
  rewrite filter_cons, filter_nil. destruct (t c) eqn:E.
  - apply Ht in E. rewrite decide_True by done. by rewrite last_snoc.
  - rewrite decide_False by (rewrite <-Ht; congruence). by rewrite app_nil_r.
Qed.
Lemma last_text_named tys n : last_text tys n = last_named tys n.
Proof. apply fold_last. intros x. apply bool_decide_eq_true. Qed.
Lemma last_child_body ty n : last_child ty n = body_of ty n.
Proof. apply (fold_last (λ c, n_Type c = ty)). intros x. apply String.eqb_eq. Qed.

Lemma fold_singleton_set l object name : object ≠ "" →
  foldl singleton_step (object, name) l =
  (if existsb is_self l then "self" else object,
   if decide (name = "") then default "" (n_Content <$> List.find is_word l) else name).
Proof.
  revert object name. induction l as [|c l IH]; intros object name Ho; cbn [foldl existsb List.find].
  { by destruct (decide (name = "")) as [->|]. }
  unfold singleton_step at 2, is_self at 1, is_word at 1.
  destruct (String.eqb_spec (n_Type c) "identifier") as [E|E].
  - rewrite (bool_decide_eq_false_2 (n_Type c = "self")) by (by rewrite E).
    rewrite (proj2 (String.eqb_neq object "")) by done. cbn [orb].
    destruct (String.eqb_spec name "") as [->|Hn]; rewrite IH by done; f_equal.
    + rewrite (decide_True (P := "" = "")) by done. destruct (decide (n_Content c = "")) as [Ec|Ec].
      * rewrite bool_decide_eq_false_2 by tauto. done.
      * by rewrite bool_decide_eq_true_2.
    + by rewrite !decide_False.
  - rewrite (bool_decide_eq_false_2 (_ ∧ _)) by tauto.
    destruct (String.eqb_spec (n_Type c) "self") as [Es|Es].
    + rewrite IH by done. rewrite (bool_decide_eq_true_2 (n_Type c = "self")) by done. cbn. by destruct (existsb _ _).
    + rewrite IH by done. by rewrite bool_decide_eq_false_2.
Qed.

Lemma words_self l : existsb is_self (filter (λ c, is_self c || is_word c = true) l) = existsb is_self l.
Proof.
  induction l as [|c l IH]; [done|]. rewrite filter_cons. cbn [existsb].
  destruct (is_self c) eqn:E; cbn [orb]; [by rewrite decide_True by done; cbn [existsb]; rewrite E|].
  destruct (decide _); cbn [existsb]; by rewrite ?E.
Qed.
Lemma words_word l : List.find is_word (filter (λ c, is_self c || is_word c = true) l) = List.find is_word l.
Proof.
  induction l as [|c l IH]; [done|]. rewrite filter_cons. cbn [List.find].
  destruct (is_word c) eqn:E; [by rewrite orb_true_r, decide_True by done; cbn [List.find]; rewrite E|].
  destruct (decide _); cbn [List.find]; by rewrite ?E.
Qed.

Lemma singleton_names_ok l : foldl singleton_step ("", "") l = singleton_names l.
Proof.
  unfold singleton_names. induction l as [|c l IH]; cbn [foldl]; [done|].
  rewrite filter_cons. unfold singleton_step at 2.
  destruct (String.eqb_spec (n_Type c) "identifier") as [E|E].
  - assert (is_self c = false) as Hs by (apply bool_decide_eq_false_2; by rewrite E).
    cbn [String.eqb]. destruct (decide (n_Content c = "")) as [Ec|Ec].
    + assert (is_word c = false) as Hw by (apply bool_decide_eq_false_2; tauto).
      rewrite Hs, Hw, Ec. by rewrite decide_False.
    + assert (is_word c = true) as Hw by (by apply bool_decide_eq_true_2).
      rewrite Hs, Hw, decide_True by done. cbn [existsb head tail fmap option_fmap option_map default].
      rewrite Hs. cbn [orb]. rewrite words_self, words_word, fold_singleton_set by done. done.
  - assert (is_word c = false) as Hw by (apply bool_decide_eq_false_2; tauto). rewrite Hw, orb_false_r.
    destruct (String.eqb_spec (n_Type c) "self") as [Es|Es].
    + assert (is_self c = true) as Hs by (by apply bool_decide_eq_true_2).
      rewrite decide_True by done. cbn [existsb tail]. rewrite Hs, words_word, fold_singleton_set by done.
      cbn [orb]. rewrite decide_True by done. by destruct (existsb is_self l).
    + assert (is_self c = false) as Hs by (by apply bool_decide_eq_false_2).
      rewrite decide_False by (by rewrite Hs). exact IH.
Qed.

(** The loop over the children of a declarator. *)
Lemma name_of_snoc before c :
  name_of (before ++ [c]) =
  if decide (name_of before = "") then (if bool_decide (n_Type c = "identifier") then n_Content c else "") else name_of before.
Proof.
  unfold name_of. destruct (List.find _ before) as [x|] eqn:E.
  - rewrite (find_app_l _ _ _ _ E). apply find_elem in E as [_ E%bool_decide_eq_true].
    cbn. by rewrite decide_False by apply E.
  - rewrite (find_app_r _ _ _ E). cbn [List.find fmap option_fmap option_map default]. rewrite decide_True by done.
    destruct (decide (n_Type c = "identifier")) as [Et|Et].
    + rewrite (bool_decide_eq_true_2 (n_Type c = _)) by done. case_bool_decide as Ec; [done|].
      cbn. destruct (decide (n_Content c = "")); [done|tauto].
    + rewrite (bool_decide_eq_false_2 (n_Type c = _)) by done. by rewrite bool_decide_eq_false_2 by tauto.
Qed.

Lemma declarator_loop before cs kind sig :
  foldl declarator_step (name_of before, kind, sig) cs =
  (name_of (before ++ cs), if existsb is_function cs then UnitFunction else kind, default sig (function_sig before cs)).
Proof.
  revert before kind sig. induction cs as [|c cs IH]; intros before kind sig; cbn [foldl existsb function_sig].
  { by rewrite app_nil_r. }
  rewrite (cons_middle c before cs), app_assoc. 
  destruct (String.eqb_spec (n_Type c) "identifier") as [E|E].
  - assert (is_function c = false) as Hf.
    { apply bool_decide_eq_false_2. rewrite E. refine (bool_decide_unpack _ _). vm_compute. exact I. }
    unfold declarator_step at 2. rewrite E, String.eqb_refl, Hf. cbn [orb].
    assert ((if (name_of before =? "")%string then n_Content c else name_of before) = name_of (before ++ [c])) as ->.
    { rewrite name_of_snoc, E, bool_decide_eq_true_2 by done.
      destruct (String.eqb_spec (name_of before) ""); [by rewrite decide_True|by rewrite decide_False]. }
    rewrite IH. by destruct (function_sig _ cs).
  - assert (name_of (before ++ [c]) = name_of before) as Hn.
    { rewrite name_of_snoc, bool_decide_eq_false_2 by done. by destruct (decide _) as [->|]. }
    unfold declarator_step at 2. rewrite (proj2 (String.eqb_neq _ _)) by done. fold (is_function c).
    destruct (is_function c) eqn:Hf; cbn [orb].
    + rewrite <-Hn, IH. rewrite Hn. f_equal; [f_equal; by destruct (existsb _ _)|].
      destruct (function_sig _ cs); [done|]. unfold params_of.
      assert (List.find (λ c0, (n_Type c0 =? "formal_parameters")%string) (n_children c) =
        List.find (λ c0, bool_decide (n_Type c0 = "formal_parameters")) (n_children c)) as ->.
      { generalize (n_children c). intros l. induction l as [|x l IHl]; [done|]. cbn [List.find]. rewrite IHl.
        destruct (String.eqb_spec (n_Type x) "formal_parameters");
          [by rewrite bool_decide_eq_true_2|by rewrite bool_decide_eq_false_2]. }
      by destruct (List.find _ _).
    + rewrite <-Hn, IH. by destruct (function_sig _ cs).
Qed.

Lemma function_sig_nonempty before cs sig : function_sig before cs = Some sig → sig ≠ "".
Proof.
  revert before sig. induction cs as [|c cs IH]; intros before sig; cbn [function_sig]; [done|].
  destruct (function_sig (before ++ [c]) cs) as [x|] eqn:E; [intros [= <-]; by eapply IH|].
  destruct (is_function c); [|done]. destruct (params_of c); [|done]. by intros [= <-].
Qed.

(** ** Lemmas: running an extraction

    [runs s m us R]: started in a state whose units all have paths that
    [append] never extends in place, [m] stores the units [us], in order, and
    its result and the arrays satisfy [R]. *)

Definition solid (h : list (list string)) (p : Slice) : Prop :=
  s_len p = s_cap p ∧ (s_len p = 0%nat ∨ (s_arr p < length h)%nat).
Definition denotes_path (h : list (list string)) (p : Slice) (path : list string) : Prop :=
  solid h p ∧ read_slice h p = path ∧ length path = s_len p.
Definition path_of {P} (u : MergeUnit P) : P := uk_SymbolPath (mu_Key u).
Definition solid_unit (h : list (list string)) (u : XUnit) : Prop :=
  solid h (path_of u) ∧ Forall (λ c, solid h (path_of c) ∧ mu_Children c = []) (mu_Children u).
Definition means (h : list (list string)) (u : XUnit) (pu : PUnit) : Prop :=
  solid_unit h u ∧ map_path (read_slice h) u = pu.

Definition extends (h h' : list (list string)) : Prop := ∃ t, h' = h ++ t.
#[export] Instance extends_preorder : PreOrder extends.
Proof.
  split; [intros h; exists []; by rewrite app_nil_r|].
  intros h1 h2 h3 [t ->] [t' ->]. exists (t ++ t'). by rewrite app_assoc.
Qed.

Lemma solid_extends h h' p : extends h h' → solid h p → solid h' p.
Proof. intros [t ->] [? H]. split; [done|]. rewrite length_app. destruct H; [by left|right; lia]. Qed.
Lemma read_extends h h' p : extends h h' → solid h p → read_slice h' p = read_slice h p.
Proof.
  intros [t ->] [_ [E|H]]; unfold read_slice; [by rewrite E, !take_0|]. by rewrite lookup_app_l.
Qed.
Lemma denotes_extends h h' p path : extends h h' → denotes_path h p path → denotes_path h' p path.
Proof.
  intros He (Hs & Hr & Hl). split; [by eapply solid_extends|]. split; [|done]. by erewrite read_extends.
Qed.
Lemma means_extends h h' u pu : extends h h' → means h u pu → means h' u pu.
Proof.
  intros He [[Hs Hc] <-]. split; [split; [by eapply solid_extends|]|].
  - eapply Forall_impl; [exact Hc|]. intros c [? ?]. split; [by eapply solid_extends|done].
  - destruct u as [[f p k] ? ? ? ? ? ? cs ? ?]. cbn [map_path path_of mu_Key uk_SymbolPath mu_Children] in *.
    unfold path_of in Hs. cbn in Hs. f_equal; [f_equal; by erewrite read_extends|].
    clear Hs. induction Hc as [|c cs [Hs Hcc] _ IH]; [done|]. rewrite !fmap_cons, IH. f_equal.
    destruct c as [[f' p' k'] ? ? ? ? ? ? cs' ? ?]. cbn in Hcc. subst cs'. cbn in *. by erewrite read_extends.
Qed.

Definition sees (s : xstate) (m : gmap string PUnit) : Prop :=
  (∀ k u, xs_units s !! k = Some u → solid_unit (xs_arrays s) u) ∧
  map_path (read_slice (xs_arrays s)) <$> xs_units s = m.
Definition runs {A} (s : xstate) (m : ext A) (us : list PUnit) (R : list (list string) → A → Prop) : Prop :=
  ∀ M, sees s M → let '(s', a) := m s in
    extends (xs_arrays s) (xs_arrays s') ∧ sees s' (put_units us M) ∧ R (xs_arrays s') a.

Lemma runs_ret {A} s (a : A) R : R (xs_arrays s) a → runs s (mret a) [] R.
Proof. intros HR M HM. split; [done|]. by split. Qed.
Lemma runs_bind {A B} s (m : ext A) (f : A → ext B) us1 us2 R1 R2 :
  runs s m us1 R1 →
  (∀ s' a, extends (xs_arrays s) (xs_arrays s') → R1 (xs_arrays s') a → runs s' (f a) us2 R2) →
  runs s (m ≫= f) (us1 ++ us2) R2.
Proof.
  intros Hm Hf M HM. specialize (Hm M HM). unfold mbind, ext_bind. destruct (m s) as [s1 a].
  destruct Hm as (He & HM1 & HR). specialize (Hf s1 a He HR _ HM1). destruct (f a s1) as [s2 b].
  destruct Hf as (He2 & HM2 & HR2). split; [by transitivity (xs_arrays s1)|]. split; [|done].
  unfold put_units in *. by rewrite foldl_app.
Qed.
Lemma runs_then {A B} s (m : ext A) (k : ext B) us1 us2 R1 R2 :
  runs s m us1 R1 → (∀ s', extends (xs_arrays s) (xs_arrays s') → runs s' k us2 R2) →
  runs s (m ;; k) (us1 ++ us2) R2.
Proof. intros Hm Hk. eapply runs_bind; [exact Hm|]. eauto. Qed.
Lemma runs_weaken {A} s (m : ext A) us (R R' : list (list string) → A → Prop) :
  runs s m us R → (∀ h a, R h a → R' h a) → runs s m us R'.
Proof. intros Hm HR M HM. specialize (Hm M HM). destruct (m s). naive_solver. Qed.

Lemma sees_extends s h' M : extends (xs_arrays s) h' → sees s M → sees (mk_xstate h' (xs_units s)) M.
Proof.
  intros He [Hs <-]. split; cbn.
  - intros k u Hu. eapply means_extends; [exact He|]. split; [by eapply Hs|done].
  - apply map_fmap_ext. intros k u Hu. eapply means_extends; [exact He|]. split; [by eapply Hs|done].
Qed.

Lemma runs_append s p path x : denotes_path (xs_arrays s) p path → (length path ≤ 1)%nat →
  runs s (append_path p x) [] (λ h q, denotes_path h q (path ++ [x])).
Proof.
  intros ((Ec & Ha) & Hr & Hl) Hlen M HM. unfold append_path, append_slice.
  rewrite (proj2 (Nat.ltb_ge _ _)) by lia. rewrite Hr.
  set (h' := xs_arrays s ++ _). assert (extends (xs_arrays s) h') as He by by eexists.
  split; [done|]. split; [by apply sees_extends|]. cbn [xs_arrays].
  assert (growslice (s_cap p) = S (s_len p)) as Hg.
  { rewrite <-Ec. destruct (s_len p) as [|[|]]; [done|done|lia]. }
  unfold h'. rewrite Hg, Nat.sub_diag. cbn [replicate]. split; [|split].
  - split; [done|]. right. cbn. rewrite length_app. cbn. lia.
  - unfold read_slice. cbn [s_len s_arr]. rewrite list_lookup_middle by done. cbn.
    apply take_ge. rewrite length_app. cbn. lia.
  - rewrite length_app. cbn. lia.
Qed.

Lemma runs_store s u pu : means (xs_arrays s) u pu → runs s (store_unit u) [pu] (λ _ _, True).
Proof.
  intros [Hs Hm] M [HM <-]. unfold store_unit. split; [done|]. split; [|done]. split; simpl.
  - intros k v. intros [[_ <-]|[_ Hv]]%lookup_insert_Some; [done|by eapply HM].
  - rewrite fmap_insert, Hm. by rewrite <-xkey_final, Hm.
Qed.

(** An optional unit. *)
Definition omeans (h : list (list string)) (o : option XUnit) (po : option PUnit) : Prop :=
  match o, po with Some u, Some pu => means h u pu | None, None => True | _, _ => False end.
Lemma omeans_extends h h' o po : extends h h' → omeans h o po → omeans h' o po.
Proof. intros He. destruct o, po; try done. by apply means_extends. Qed.
Lemma runs_store_opt s o po : omeans (xs_arrays s) o po → runs s (store_opt o) (option_list po) (λ _ _, True).
Proof. destruct o, po; intros Ho; [by apply runs_store|done|done|by apply runs_ret]. Qed.

Lemma runs_for_each {A} (f : A → ext ()) (g : A → list PUnit) l s :
  (∀ x s', x ∈ l → extends (xs_arrays s) (xs_arrays s') → runs s' (f x) (g x) (λ _ _, True)) →
  runs s (for_each l f) (l ≫= g) (λ _ _, True).
Proof.
  revert s. induction l as [|x l IH]; intros s Hf; [by apply runs_ret|]. cbn [mbind list_bind].
  eapply runs_then; [apply Hf; [by left|done]|]. intros s' He. apply IH.
  intros y s2 Hy He2. apply Hf; [by right|by transitivity (xs_arrays s')].
Qed.
Lemma runs_for_units {A} (f : A → ext (option XUnit)) (g : A → list PUnit) (o' : A → option PUnit) l s :
  (∀ x s', x ∈ l → extends (xs_arrays s) (xs_arrays s') → runs s' (f x) (g x) (λ h o, omeans h o (o' x))) →
  runs s (for_units l f) (l ≫= g) (λ h us, Forall2 (means h) us (omap o' l)).
Proof.
  revert s. induction l as [|x l IH]; intros s Hf; [by apply runs_ret|]. cbn [mbind list_bind for_units].
  eapply runs_bind; [apply Hf; [by left|done]|]. intros s1 o He1 Ho.
  rewrite <-(app_nil_r (l ≫= g)). eapply runs_bind.
  { apply IH. intros y s2 Hy He2. apply Hf; [by right|by transitivity (xs_arrays s1)]. }
  intros s2 us He2 Hus. apply runs_ret. apply (omeans_extends _ _ _ _ He2) in Ho.
  cbn [omap list_omap]. destruct o as [u|], (o' x) as [pu|]; try done. by constructor.
Qed.
Lemma runs_store_all us pus s : Forall2 (means (xs_arrays s)) us pus →
  runs s (for_each us store_unit) pus (λ _ _, True).
Proof.
  intros Hus. revert s Hus. revert pus. induction us as [|u us IH]; intros pus s Hus.
  - apply Forall2_nil_inv_l in Hus as ->. by apply runs_ret.
  - apply Forall2_cons_inv_l in Hus as (pu & pus' & Hu & Hus & ->).
    eapply (runs_then s _ _ [pu] pus'); [by apply runs_store|]. intros s' He. apply IH.
    eapply Forall2_impl; [exact Hus|]. intros. by eapply means_extends.
Qed.

(** ** Lemmas: the extractors *)

Lemma means_new h file n q path kind name sig :
  denotes_path h q path → means h (new_unit n file q kind name sig) (unit_of file n path kind name sig).
Proof. intros (Hs & Hr & _). split; [split; [exact Hs|constructor]|]. cbn. by rewrite Hr. Qed.

Lemma runs_named s file n p path kind name sig : denotes_path (xs_arrays s) p path → (length path ≤ 1)%nat →
  runs s (named_unit n file p kind name sig) [] (λ h o, omeans h o (decl file n path kind name sig)).
Proof.
  intros Hp Hl. unfold named_unit, decl. destruct (String.eqb_spec name "") as [E|E].
  - apply runs_ret. by rewrite decide_True.
  - rewrite decide_False by done. rewrite <-(app_nil_r []). eapply runs_bind; [by apply runs_append|].
    intros s' q _ Hq. apply runs_ret. by apply means_new.
Qed.

Lemma means_method h u pu : means h u pu → means h (as_method u) (as_method pu).
Proof.
  intros [[Hs Hc] <-]. split; [split; [exact Hs|exact Hc]|]. by destruct u as [[] ? ? ? ? ? ? ? ? ?].
Qed.
Lemma runs_as_method s (m : ext (option XUnit)) po po' :
  runs s m [] (λ h o, omeans h o po) → as_method <$> po = po' →
  runs s (o ← m; mret (as_method <$> o)) [] (λ h o, omeans h o po').
Proof.
  intros Hm <-. rewrite <-(app_nil_r []). eapply runs_bind; [exact Hm|]. intros s' o _ Ho. apply runs_ret.
  destruct o, po; try done. by apply means_method.
Qed.
Lemma as_method_decl file n path kind name sig :
  as_method <$> decl file n path kind name sig = decl file n path UnitMethod name sig.
Proof. unfold decl. by destruct (decide _). Qed.

Lemma omap_option_list {A B} (f : A → option B) l : omap f l = l ≫= λ x, option_list (f x).
Proof. induction l as [|x l IH]; [done|]. cbn [omap list_omap mbind list_bind]. rewrite <-IH. by destruct (f x). Qed.

(** A class: its members are stored before it. *)
Lemma runs_class s file n kind name sig body (member : Slice → Node → ext (option XUnit))
    (pmember : list string → Node → option PUnit) :
  (∀ s' p path c, denotes_path (xs_arrays s') p path → (length path ≤ 1)%nat →
     runs s' (member p c) [] (λ h o, omeans h o (pmember path c))) →
  (∀ path c pu, pmember path c = Some pu → mu_Children pu = []) →
  runs s (u ← class_unit n file nil_slice kind name sig body member; store_opt u)
    (class_decls file n kind name sig pmember body) (λ _ _, True).
Proof.
  intros Hm Hleaf. unfold class_unit, class_decls. destruct (String.eqb_spec name "") as [E|E].
  { rewrite decide_True by done. by apply runs_ret. }
  rewrite decide_False by done.
  set (pus := omap (pmember [name]) body).
  eapply (runs_bind s _ _ pus [_] (λ h o, omeans h o (Some (with_children pus (unit_of file n [name] kind name sig))))).
  - rewrite <-(app_nil_l pus). eapply runs_bind.
    { apply (runs_append s nil_slice [] name); [by repeat split; left|cbn; lia]. }
    intros s1 p He1 Hp. rewrite <-(app_nil_r pus). cbn [app] in Hp. eapply runs_bind.
    { unfold pus. rewrite omap_option_list. apply (runs_for_units _ _ (pmember [name])). intros c s' Hc He.
      rewrite <-(app_nil_l (option_list _)). eapply runs_bind.
      { apply Hm; [by eapply denotes_extends|done]. }
      intros s2 o He2 Ho. rewrite <-(app_nil_r (option_list _)).
      eapply (runs_bind s2 _ _ _ _ (λ _ _, True)); [by apply runs_store_opt|].
      intros s3 [] He3 _. apply runs_ret. by eapply omeans_extends. }
    intros s2 us He2 Hus. apply runs_ret. fold pus in Hus. cbn [omeans].
    apply (denotes_extends _ _ _ _ He2) in Hp. destruct Hp as (Hs & Hr & _).
    split; [split; [exact Hs|]|].
    + cbn [with_children mu_Children]. assert (Forall (λ pu, mu_Children pu = []) pus) as Hl.
      { apply Forall_forall. intros pu (c & _ & Hc)%list_elem_of_omap. by eapply Hleaf. }
      clear -Hus Hl. induction Hus as [|u pu us pus [[Hu _] <-] _ IH]; [constructor|].
      apply Forall_cons in Hl as [Hl1 Hl]. constructor; [|by apply IH]. split; [done|].
      destruct u as [[] ? ? ? ? ? ? cs ? ?]. cbn in *. by apply fmap_nil_inv in Hl1.
    + cbn. rewrite Hr. unfold unit_of, with_children. cbn. f_equal.
      clear -Hus. induction Hus as [|u pu us pus [_ <-] _ IH]; [done|]. by rewrite fmap_cons, IH.
  - intros s2 o He Ho. by apply (runs_store_opt s2 o (Some _)).
Qed.

Lemma runs_import s file n : runs s (u ← import_unit n file; store_unit u) [import_decl file n] (λ _ _, True).
Proof.
  unfold import_unit. rewrite <-(app_nil_l [_]).
  eapply (runs_bind s _ _ _ _ (λ h u, means h u (import_decl file n))).
  - rewrite <-(app_nil_r []). eapply runs_bind; [apply (runs_append s nil_slice []); [by repeat split; left|cbn; lia]|].
    intros s' q _ Hq. apply runs_ret. by apply means_new.
  - intros s' u _ Hu. by apply runs_store.
Qed.

Lemma runs_opt s (m : ext (option XUnit)) po : runs s m [] (λ h o, omeans h o po) →
  runs s (u ← m; store_opt u) (option_list po) (λ _ _, True).
Proof.
  intros Hm. rewrite <-(app_nil_l (option_list po)). eapply runs_bind; [exact Hm|].
  intros s' o _ Ho. by apply runs_store_opt.
Qed.

Lemma decl_leaf file n path kind name sig pu : decl file n path kind name sig = Some pu → mu_Children pu = [].
Proof. unfold decl. destruct (decide _); [done|]. by intros [= <-]. Qed.
Lemma nil_path h : denotes_path h nil_slice [].
Proof. by repeat split; left. Qed.

(** Behind a declaration a walk stops. *)
Lemma runs_alone s (m : ext ()) us R : runs s m us R → runs s (m ;; mret ()) us (λ _ _, True).
Proof.
  intros Hm. rewrite <-(app_nil_r us). eapply runs_then; [exact Hm|]. intros s' _. by apply runs_ret.
Qed.
(** The conditions on the type of a node, when the type is known. *)
Ltac known_type := repeat match goal with
  | |- context [String.eqb ?a ?b] =>
    let v := eval vm_compute in (String.eqb a b) in
    lazymatch v with true => idtac | false => idtac end; change (String.eqb a b) with v
  | |- context [@bool_decide ?P ?d] =>
    let v := eval vm_compute in (@bool_decide P d) in
    lazymatch v with true => idtac | false => idtac end; change (@bool_decide P d) with v
  | |- context [@decide ?P ?d] =>
    first [rewrite (@decide_True _ P d) by (refine (bool_decide_unpack _ _); vm_compute; exact I)
          |rewrite (@decide_False _ P d) by (refine (bool_decide_unpack _ _); vm_compute; exact I)]
  end; cbv iota.

(** *** JavaScript *)

Section languages.
Variable file : string.

Lemma js_function_ok s n : runs s (extractJSFunction n file nil_slice) [] (λ h o, omeans h o (js_function file n)).
Proof.
  unfold extractJSFunction, js_function. rewrite first_text_named, last_text_named.
  apply (runs_named _ _ _ _ []); [apply nil_path|cbn; lia].
Qed.

Lemma js_member_ok s p path c : denotes_path (xs_arrays s) p path → (length path ≤ 1)%nat →
  runs s (if (n_Type c =? "method_definition")%string then extractJSMethod c file p else mret None) []
    (λ h o, omeans h o (js_member file path c)).
Proof.
  intros Hp Hl. unfold js_member. destruct (String.eqb_spec (n_Type c) "method_definition") as [E|E].
  - rewrite decide_True by done. unfold extractJSMethod. rewrite !last_text_named. by apply runs_named.
  - rewrite decide_False by done. by apply runs_ret.
Qed.
Lemma js_member_leaf path c pu : js_member file path c = Some pu → mu_Children pu = [].
Proof. unfold js_member. destruct (decide _); [apply decl_leaf|done]. Qed.

Lemma js_class_ok s n :
  runs s (u ← extractJSClass n file nil_slice; store_opt u) (js_class file n) (λ _ _, True).
Proof.
  unfold extractJSClass, js_class. rewrite first_text_named, last_child_body.
  apply runs_class; [intros; by apply js_member_ok|intros; by eapply js_member_leaf].
Qed.

Lemma js_variable_ok s c declKind :
  runs s (if (n_Type c =? "variable_declarator")%string
          then extractJSVariableDeclarator c file nil_slice declKind else mret None) []
    (λ h o, omeans h o (js_variable file declKind c)).
Proof.
  unfold js_variable. destruct (String.eqb_spec (n_Type c) "variable_declarator") as [E|E].
  2: { rewrite decide_False by done. by apply runs_ret. }
  rewrite decide_True by done. unfold extractJSVariableDeclarator.
  pose proof (declarator_loop [] (n_children c) UnitVariable "") as Hd. change (name_of []) with "" in Hd.
  rewrite Hd. cbn [app]. 
  assert ((if (declKind =? "const")%string && bool_decide ((if existsb is_function (n_children c) then UnitFunction
      else UnitVariable) = UnitVariable) then UnitConst
    else if existsb is_function (n_children c) then UnitFunction else UnitVariable) =
    (if existsb is_function (n_children c) then UnitFunction
     else if decide (declKind = "const") then UnitConst else UnitVariable)) as ->.
  { destruct (String.eqb_spec declKind "const") as [->|Hk]; destruct (existsb _ _); try done.
    cbn. by rewrite decide_False. }
  assert ((if (default "" (function_sig [] (n_children c)) =? "")%string then declKind +:+ " " +:+ name_of (n_children c)
    else default "" (function_sig [] (n_children c))) =
    default (declKind +:+ " " +:+ name_of (n_children c)) (function_sig [] (n_children c))) as ->.
  { destruct (function_sig _ _) as [sig|] eqn:Es; [|done]. cbn.
    by rewrite (proj2 (String.eqb_neq _ _)) by (by eapply function_sig_nonempty). }
  apply (runs_named _ _ _ _ []); [apply nil_path|cbn; lia].
Qed.

Lemma js_variables_ok s n :
  runs s (us ← extractJSVariables n file nil_slice; for_each us store_unit) (js_variables file n) (λ _ _, True).
Proof.
  unfold extractJSVariables, js_variables.
  assert (match List.find (λ c, bool_decide (n_Type c ∈ ["const"; "let"; "var"])) (n_children n) with
    | Some c => n_Type c | None => "" end =
    default "" (n_Type <$> List.find (λ c, bool_decide (n_Type c ∈ ["const"; "let"; "var"])) (n_children n))) as ->
    by (by destruct (List.find _ _)).
  set (declKind := default "" _).
  rewrite <-(app_nil_l (omap _ _)).
  eapply (runs_bind s _ _ _ _ (λ h us, Forall2 (means h) us (omap (js_variable file declKind) (n_children n)))).
  - assert (([] : list PUnit) = n_children n ≫= λ _, []) as ->
      by (generalize (n_children n); intros l; by induction l).
    apply runs_for_units. intros c s' _ _. apply js_variable_ok.
  - intros s' us _ Hus. by apply runs_store_all.
Qed.

Lemma js_walk n s : runs s (walkJSNode file nil_slice n) (js_decls file n) (λ _ _, True).
Proof.
  revert s. induction n as [n IH] using Node_induction. intros s.
  assert (∀ s, runs s (for_each (n_children n) (walkJSNode file nil_slice)) (n_children n ≫= js_decls file)
    (λ _ _, True)) as Hcs by (intros s'; apply runs_for_each; intros; by apply IH).
  destruct n as [ty tx st e cs]. cbn [n_children] in Hcs. clear IH.
  cbn [walkJSNode js_decls].
  destruct (decide (ty = "function_declaration")) as [->|H1].
  { known_type. eapply runs_alone, runs_opt, js_function_ok. }
  destruct (decide (ty ∈ ["lexical_declaration"; "variable_declaration"])) as [H2|H2].
  { rewrite !elem_of_cons in H2. destruct H2 as [->|[->|H2%elem_of_nil]]; [..|done];
      known_type; eapply runs_alone, js_variables_ok. }
  destruct (decide (ty = "class_declaration")) as [->|H3].
  { known_type. eapply runs_alone, js_class_ok. }
  destruct (decide (ty = "import_statement")) as [->|H4].
  { known_type. eapply runs_alone, runs_import. }
  destruct (decide (ty ∈ ["export_statement"; "program"])) as [H5|H5].
  - rewrite !elem_of_cons in H5. destruct H5 as [->|[->|H5%elem_of_nil]]; [| |done]; known_type.
    + eapply runs_alone, Hcs.
    + change (cs ≫= js_decls file) with ([] ++ (cs ≫= js_decls file)).
      eapply runs_then; [by apply (runs_ret _ _ (λ _ _, True))|]. intros s' _. apply Hcs.
  - rewrite !not_elem_of_cons in H5. destruct H5 as (H5 & H6 & _).
    rewrite !(proj2 (String.eqb_neq _ _)), bool_decide_eq_false_2 by done. by apply runs_ret.
Qed.

(** *** Python *)

Lemma py_function_ok s n p path : denotes_path (xs_arrays s) p path → (length path ≤ 1)%nat →
  runs s (extractPyFunction n file p) [] (λ h o, omeans h o (py_function file path UnitFunction n)).
Proof.
  intros Hp Hl. unfold extractPyFunction, py_function. rewrite first_text_named, last_text_named. by apply runs_named.
Qed.
Lemma py_member_ok s p path c : denotes_path (xs_arrays s) p path → (length path ≤ 1)%nat →
  runs s (if (n_Type c =? "function_definition")%string
          then o ← extractPyFunction c file p; mret (as_method <$> o) else mret None) []
    (λ h o, omeans h o (py_member file path c)).
Proof.
  intros Hp Hl. unfold py_member. destruct (String.eqb_spec (n_Type c) "function_definition") as [E|E].
  - rewrite decide_True by done. eapply runs_as_method; [by apply py_function_ok|]. apply as_method_decl.
  - rewrite decide_False by done. by apply runs_ret.
Qed.
Lemma py_member_leaf path c pu : py_member file path c = Some pu → mu_Children pu = [].
Proof. unfold py_member. destruct (decide _); [apply decl_leaf|done]. Qed.
Lemma py_class_ok s n :
  runs s (u ← extractPyClass n file nil_slice; store_opt u) (py_class file n) (λ _ _, True).
Proof.
  unfold extractPyClass, py_class. rewrite first_text_named, last_child_body.
  apply runs_class; [intros; by apply py_member_ok|intros; by eapply py_member_leaf].
Qed.

Lemma py_walk n s : runs s (walkPyNode file nil_slice n) (py_decls file n) (λ _ _, True).
Proof.
  revert s. induction n as [n IH] using Node_induction. intros s.
  assert (∀ s, runs s (for_each (n_children n) (walkPyNode file nil_slice)) (n_children n ≫= py_decls file)
    (λ _ _, True)) as Hcs by (intros s'; apply runs_for_each; intros; by apply IH).
  destruct n as [ty tx st e cs]. cbn [n_children] in Hcs. clear IH.
  cbn [walkPyNode py_decls].
  destruct (decide (ty = "function_definition")) as [->|H1].
  { known_type. eapply runs_alone, runs_opt, py_function_ok; [apply nil_path|cbn; lia]. }
  destruct (decide (ty = "class_definition")) as [->|H2].
  { known_type. eapply runs_alone, py_class_ok. }
  destruct (decide (ty ∈ ["import_statement"; "import_from_statement"])) as [H3|H3].
  { rewrite !elem_of_cons in H3. destruct H3 as [->|[->|H3%elem_of_nil]]; [..|done];
      known_type; eapply runs_alone, runs_import. }
  destruct (decide (ty = "module")) as [->|H4].
  - known_type. change (cs ≫= py_decls file) with ([] ++ (cs ≫= py_decls file)).
    eapply runs_then; [by apply (runs_ret _ _ (λ _ _, True))|]. intros s' _. apply Hcs.
  - rewrite !(proj2 (String.eqb_neq _ _)), bool_decide_eq_false_2 by done. by apply runs_ret.
Qed.

(** *** Ruby *)

Lemma append_params sig params : (if negb (params =? "")%string then sig +:+ params else sig) = sig +:+ params.
Proof.
  destruct (String.eqb_spec params "") as [->|]; [|done]. cbn [negb]. induction sig as [|a sig IH]; [done|].
  exact (f_equal (String a) IH).
Qed.
Lemma string_app_assoc (a b c : string) : (a +:+ b) +:+ c = a +:+ b +:+ c.
Proof. induction a as [|x a IH]; [done|]. exact (f_equal (String x) IH). Qed.

Lemma rb_method_ok s n p path : denotes_path (xs_arrays s) p path → (length path ≤ 1)%nat →
  runs s (extractRbMethod n file p) [] (λ h o, omeans h o (rb_method file path UnitFunction n)).
Proof.
  intros Hp Hl. unfold extractRbMethod, rb_method. rewrite first_text_named, last_text_named, append_params.
  rewrite string_app_assoc. by apply runs_named.
Qed.
Lemma rb_singleton_ok s n p path : denotes_path (xs_arrays s) p path → (length path ≤ 1)%nat →
  runs s (extractRbSingletonMethod n file p) [] (λ h o, omeans h o (rb_singleton file path UnitFunction n)).
Proof.
  intros Hp Hl. unfold extractRbSingletonMethod, rb_singleton. rewrite singleton_names_ok.
  destruct (singleton_names _) as [object name]. rewrite last_text_named, append_params, !string_app_assoc.
  by apply runs_named.
Qed.
Lemma rb_member_ok s p path c : denotes_path (xs_arrays s) p path → (length path ≤ 1)%nat →
  runs s (rb_member file p c) [] (λ h o, omeans h o (rb_member_decl file path c)).
Proof.
  intros Hp Hl. unfold rb_member, rb_member_decl.
  destruct (String.eqb_spec (n_Type c) "method") as [E|E]; [rewrite decide_True by done|rewrite decide_False by done].
  { eapply runs_as_method; [by apply rb_method_ok|]. apply as_method_decl. }
  destruct (String.eqb_spec (n_Type c) "singleton_method") as [E'|E'];
    [rewrite decide_True by done|rewrite decide_False by done].
  { eapply runs_as_method; [by apply rb_singleton_ok|]. unfold rb_singleton.
    destruct (singleton_names _). apply as_method_decl. }
  by apply runs_ret.
Qed.
Lemma rb_member_leaf path c pu : rb_member_decl file path c = Some pu → mu_Children pu = [].
Proof.
  unfold rb_member_decl, rb_singleton, rb_method. destruct (singleton_names _).
  repeat destruct (decide _); done || apply decl_leaf.
Qed.
Lemma rb_class_exact s n keyword kind extract :
  extract = (λ n path parentPath,
    class_unit n path parentPath kind (first_text ["constant"; "scope_resolution"] n)
      (keyword +:+ " " +:+ first_text ["constant"; "scope_resolution"] n) (last_child "body_statement" n)
      (rb_member path)) →
  runs s (u ← extract n file nil_slice; store_opt u) (rb_class file keyword kind n) (λ _ _, True).
Proof.
  intros ->. unfold rb_class. rewrite first_text_named, last_child_body.
  apply runs_class; [intros; by apply rb_member_ok|intros; by eapply rb_member_leaf].
Qed.

Lemma rb_require_ok s n :
  runs s (u ← extractRbRequire n file; store_opt u) (if rb_required n then [import_decl file n] else []) (λ _ _, True).
Proof.
  unfold extractRbRequire, rb_required, break_text.
  assert (List.find (λ c, (n_Type c =? "identifier")%string) (n_children n) =
    List.find (λ c, bool_decide (n_Type c = "identifier")) (n_children n)) as ->.
  { generalize (n_children n). intros l. induction l as [|x l IHl]; [done|]. cbn [List.find]. rewrite IHl.
    destruct (String.eqb_spec (n_Type x) "identifier");
      [by rewrite bool_decide_eq_true_2|by rewrite bool_decide_eq_false_2]. }
  destruct (List.find _ _) as [c|]; [|by apply runs_ret].
  assert (negb (n_Content c =? "require")%string && negb (n_Content c =? "require_relative")%string
     && negb (n_Content c =? "load")%string = negb (bool_decide (n_Content c ∈ ["require"; "require_relative"; "load"]))) as ->.
  { destruct (String.eqb_spec (n_Content c) "require") as [->|H1]; [done|].
    destruct (String.eqb_spec (n_Content c) "require_relative") as [->|H2]; [done|].
    destruct (String.eqb_spec (n_Content c) "load") as [->|H3]; [done|].
    rewrite bool_decide_eq_false_2; [done|]. rewrite !elem_of_cons, elem_of_nil. tauto. }
  destruct (bool_decide _); cbn [negb]; [|by apply runs_ret].
  unfold import_unit. rewrite <-(app_nil_l [_]).
  eapply (runs_bind s _ _ _ _ (λ h o, omeans h o (Some (import_decl file n)))).
  - rewrite <-(app_nil_r []). eapply (runs_bind s _ _ _ _ (λ h u, means h u (import_decl file n))).
    + rewrite <-(app_nil_r []). eapply runs_bind; [apply (runs_append s nil_slice []); [apply nil_path|cbn; lia]|].
      intros s' q _ Hq. apply runs_ret. by apply means_new.
    + intros s' u _ Hu. by apply runs_ret.
  - intros s' o _ Ho. by apply (runs_store_opt s' o (Some _)).
Qed.

Lemma rb_walk n s : runs s (walkRbNode file nil_slice n) (rb_decls file n) (λ _ _, True).
Proof.
  revert s. induction n as [n IH] using Node_induction. intros s.
  assert (∀ s, runs s (for_each (n_children n) (walkRbNode file nil_slice)) (n_children n ≫= rb_decls file)
    (λ _ _, True)) as Hcs by (intros s'; apply runs_for_each; intros; by apply IH).
  destruct n as [ty tx st e cs]. cbn [n_children] in Hcs. clear IH.
  cbn [walkRbNode rb_decls].
  destruct (decide (ty = "method")) as [->|H1].
  { known_type. eapply runs_alone, runs_opt, rb_method_ok; [apply nil_path|cbn; lia]. }
  destruct (decide (ty = "singleton_method")) as [->|H2].
  { known_type. eapply runs_alone, runs_opt, rb_singleton_ok; [apply nil_path|cbn; lia]. }
  destruct (decide (ty = "class")) as [->|H3].
  { known_type. eapply runs_alone, (rb_class_exact _ _ "class" UnitClass extractRbClass). done. }
  destruct (decide (ty = "module")) as [->|H4].
  { known_type. eapply runs_alone, (rb_class_exact _ _ "module" UnitModule extractRbModule). done. }
  destruct (decide (ty = "call")) as [->|H5].
  { known_type. eapply runs_alone, rb_require_ok. }
  destruct (decide (ty = "program")) as [->|H6].
  - known_type. change (cs ≫= rb_decls file) with ([] ++ (cs ≫= rb_decls file)).
    eapply runs_then; [by apply (runs_ret _ _ (λ _ _, True))|]. intros s' _. apply Hcs.
  - rewrite !(proj2 (String.eqb_neq _ _)) by done. by apply runs_ret.
Qed.
End languages.

(** ** Properties *)


(** ** A concrete tree *)

(** [class A { m(x) {} }] and [export const f = (y) => 0]. *)
Definition demo_class : Node :=
  node_at 0 "class_declaration" "class A { m(x) {} }"
    [leaf "class" "class"; leaf "identifier" "A";
     node_at 0 "class_body" "{ m(x) {} }"
       [leaf "{" "{"; node_at 0 "method_definition" "m(x) {}"
          [leaf "property_identifier" "m"; leaf "formal_parameters" "(x)"; leaf "statement_block" "{}"]; leaf "}" "}"]].
Definition demo_export : Node :=
  node_at 1 "export_statement" "export const f = (y) => 0"
    [leaf "export" "export";
     node_at 1 "lexical_declaration" "const f = (y) => 0"
       [leaf "const" "const";
        node_at 1 "variable_declarator" "f = (y) => 0"
          [leaf "identifier" "f"; leaf "=" "=";
           node_at 1 "arrow_function" "(y) => 0" [leaf "formal_parameters" "(y)"; leaf "=>" "=>"; leaf "number" "0"]]]].
Definition demo_program : Sitter := {| ParseCtx _ _ := Some (node_at 0 "program" "" [demo_class; demo_export]) |}.

