(* ===== verification/Merge.v ===== *)
(** * The semantic three-way merge (kai-core/merge/merge.go)

    [MergeFiles] merges the files of two descendants of a base: a file that
    only one side touched is taken from that side, a file that both sides
    changed is taken apart into units ([Extract]), merged unit by unit and put
    together again.  The reference is the classic three-way merge
    ([three_way]): the theorems say where the code implements it, for files
    and for units, and what it does where both sides diverged.

    Go iterates over maps in any order, so every loop over a map takes its
    keys through the class [Ranging]. *)

From S2P Require Import Prelude Sha1 Sha256 Extract.
Local Open Scope string_scope.

(** ** Conflicts and results (types.go) *)

Local Notation "'Unit'" := (MergeUnit (list string)).

Inductive ConflictKind :=
| ConflictAPIParamRenameDiverged | ConflictAPIParamAddedBoth | ConflictAPIReturnChangedBoth
| ConflictAPISignatureDiverged | ConflictCondBoundaryConflict | ConflictConstValueConflict
| ConflictDeleteVsModify | ConflictModifyVsDelete | ConflictConcurrentCreate
| ConflictReorderVsEdit | ConflictImportAlias | ConflictBodyDiverged.

(** The suggested resolutions of a conflict are never filled in. *)
Record Conflict := mk_Conflict {
  cf_Kind : ConflictKind;
  cf_UnitKey : UnitKey (list string);
  cf_Message : string;
  cf_Base : option Unit; cf_Left : option Unit; cf_Right : option Unit;
  cf_LeftDiff : string; cf_RightDiff : string }.

(** Of the statistics only [FilesModified] is ever counted. *)
Record MergeResult := mk_MergeResult {
  mr_Success : bool;
  mr_Files : gmap string bytes;
  mr_Conflicts : list Conflict;
  mr_FilesModified : Z }.

(** ** Units *)

Definition EquivalentUnits (a b : option Unit) : bool :=
  match a, b with
  | None, None => true
  | Some a, Some b => bool_decide (mu_BodyHash a = mu_BodyHash b)
  | _, _ => false
  end.
Definition Changed (unit_ base : option Unit) : bool := negb (EquivalentUnits unit_ base).

Definition outcome : Type := option Unit * option Conflict.

(** The conflict of two changed versions of a unit. *)
Definition diverged (kind : ConflictKind) (what suffix : string) (base left right : Unit) : outcome :=
  (None, Some (mk_Conflict kind (mu_Key base) (what ++ " " ++ mu_Name base ++ suffix)
    (Some base) (Some left) (Some right) "" "")).

Definition mergeCreatedUnit (left right : option Unit) : outcome :=
  match left, right with
  | Some l, None => (Some l, None)
  | None, Some r => (Some r, None)
  | Some l, Some r =>
    if EquivalentUnits left right then (Some l, None)
    else (None, Some (mk_Conflict ConflictConcurrentCreate (mu_Key l)
            ("Unit " ++ mu_Name l ++ " created on both sides with different content")
            None (Some l) (Some r) "" ""))
  | None, None => (None, None)
  end.

Definition mergeFunctionUnit (base left right : Unit) : outcome :=
  let sigLeftChanged := negb (mu_Signature left =? mu_Signature base) in
  let sigRightChanged := negb (mu_Signature right =? mu_Signature base) in
  if sigLeftChanged && sigRightChanged && negb (mu_Signature left =? mu_Signature right) then
    (None, Some (mk_Conflict ConflictAPISignatureDiverged (mu_Key base)
      ("Function " ++ mu_Name base ++ " signature changed on both sides")
      (Some base) (Some left) (Some right)
      (mu_Signature base ++ " -> " ++ mu_Signature left)
      (mu_Signature base ++ " -> " ++ mu_Signature right)))
  else if sigLeftChanged && negb sigRightChanged then (Some left, None)
  else if sigRightChanged && negb sigLeftChanged then (Some right, None)
  else if negb (bool_decide (mu_BodyHash left = mu_BodyHash right)) then
    diverged ConflictBodyDiverged "Function" " body modified on both sides" base left right
  else (Some left, None).

Definition mergeClassUnit (base left right : Unit) : outcome :=
  if negb (bool_decide (mu_BodyHash left = mu_BodyHash right)) then
    diverged ConflictBodyDiverged "Class" " modified on both sides" base left right
  else (Some left, None).

Definition mergeConstUnit (base left right : Unit) : outcome :=
  if negb (bool_decide (mu_BodyHash left = mu_BodyHash right)) then
    diverged ConflictConstValueConflict "Constant" " value changed on both sides" base left right
  else (Some left, None).

Definition mergeImportUnit (base left right : Unit) : outcome :=
  if negb (bool_decide (mu_BodyHash left = mu_BodyHash right)) then
    diverged ConflictImportAlias "Import" " changed on both sides" base left right
  else (Some left, None).

Definition mergeChangedUnit (base left right : Unit) : outcome :=
  match mu_Kind base with
  | UnitFunction | UnitMethod => mergeFunctionUnit base left right
  | UnitClass => mergeClassUnit base left right
  | UnitConst | UnitVariable => mergeConstUnit base left right
  | UnitImport => mergeImportUnit base left right
  | _ =>
    if negb (EquivalentUnits (Some left) (Some right)) then
      diverged ConflictBodyDiverged "Unit" " modified on both sides" base left right
    else (Some left, None)
  end.

Definition mergeUnit (base left right : option Unit) : outcome :=
  if EquivalentUnits base left && EquivalentUnits base right then (base, None)
  else match base with
  | None => mergeCreatedUnit left right
  | Some b =>
    match left, right with
    | None, Some r =>
      if EquivalentUnits right base then (None, None)
      else (None, Some (mk_Conflict ConflictDeleteVsModify (mu_Key b)
             ("Unit " ++ mu_Name b ++ " deleted on left but modified on right")
             (Some b) None (Some r) "" ""))
    | Some l, None =>
      if EquivalentUnits left base then (None, None)
      else (None, Some (mk_Conflict ConflictModifyVsDelete (mu_Key b)
             ("Unit " ++ mu_Name b ++ " modified on left but deleted on right")
             (Some b) (Some l) None "" ""))
    | None, None => (None, None)
    | Some l, Some r =>
      if EquivalentUnits base right && Changed left base then (left, None)
      else if EquivalentUnits base left && Changed right base then (right, None)
      else mergeChangedUnit b l r
    end
  end.

(** ** Files *)

(** The orders in which the loops over maps visit their keys. *)
Class Ranging := {
  range_paths : list string → list string;
  range_keys : string → list string → list string;
  range_units : string → list string → list string }.
Class RangingLaws `{Ranging} := {
  range_paths_perm l : range_paths l ≡ₚ l;
  range_keys_perm p l : range_keys p l ≡ₚ l;
  range_units_perm p l : range_units p l ≡ₚ l }.

(** [less] of the call of [sort.Slice]; [before u v] is [!less(v, u)]. *)
Definition pos_less (u v : Unit) : bool :=
  let '(ur, uc) := r_Start (mu_Range u) in
  let '(vr, vc) := r_Start (mu_Range v) in
  ((ur <? vr)%Z || ((ur =? vr)%Z && (uc <? vc)%Z)).
Definition before (u v : Unit) : Prop := pos_less v u = false.
#[export] Instance before_dec : RelDecision before.
Proof. intros u v. unfold before. apply _. Defined.

Definition newline : bytes := [Byte.x0a].

(** The units in order, separated by a blank line. *)
Fixpoint join_units (us : list Unit) : bytes :=
  match us with
  | [] => []
  | [u] => mu_Content u
  | u :: us => (mu_Content u ++ newline ++ newline ++ join_units us)%list
  end.
Definition render (us : list Unit) : bytes := (join_units us ++ newline)%list.

(** [sort.Slice] is not stable; as the order in which the units are met is
    arbitrary, a stable sort gives all its outcomes. *)
Definition reconstructFile `{Ranging} (path : string) (merged : gmap string Unit) : bytes :=
  let units := omap (λ k, merged !! k) (range_units path (elements (dom merged))) in
  render (merge_sort before units).

(** One round of the loop over the unit keys. *)
Definition merge_key (base left right : FileUnits) (acc : gmap string Unit * list Conflict)
    (key : string) : gmap string Unit * list Conflict :=
  let '(mergedUnits, conflicts) := acc in
  let '(merged, conflict) :=
    mergeUnit (fu_Units base !! key) (fu_Units left !! key) (fu_Units right !! key) in
  (match merged with Some u => <[key := u]> mergedUnits | None => mergedUnits end,
   match conflict with Some c => (conflicts ++ [c])%list | None => conflicts end).

Definition all_keys (base left right : FileUnits) : list string :=
  elements (dom (fu_Units base) ∪ dom (fu_Units left) ∪ dom (fu_Units right)).

Definition mergeUnits `{Sitter, Ranging} (path : string) (base left right : bytes) (lang : string) :
    res string (option bytes * list Conflict) :=
  baseUnits ← map_err (λ e, "extracting base units: " ++ e) (ExtractUnits path base lang);
  leftUnits ← map_err (λ e, "extracting left units: " ++ e) (ExtractUnits path left lang);
  rightUnits ← map_err (λ e, "extracting right units: " ++ e) (ExtractUnits path right lang);
  let '(mergedUnits, conflicts) :=
    foldl (merge_key baseUnits leftUnits rightUnits) (∅, [])
      (range_keys path (all_keys baseUnits leftUnits rightUnits)) in
  match conflicts with
  | _ :: _ => mret (None, conflicts)
  | [] => mret (Some (reconstructFile path mergedUnits), [])
  end.

(** A conflict about a whole file. *)
Definition file_conflict (kind : ConflictKind) (path msg : string) : Conflict :=
  mk_Conflict kind (mk_UnitKey path [] UnitNoKind) msg None None None "" "".

Definition mergeCreated (path : string) (left right : option bytes) :
    option bytes * list Conflict :=
  match left, right with
  | Some l, None => (Some l, [])
  | None, Some r => (Some r, [])
  | Some l, Some r =>
    if bool_decide (l = r) then (Some l, [])
    else (None, [file_conflict ConflictConcurrentCreate path
                   "File created on both sides with different content"])
  | None, None => (None, [])
  end.

Definition mergeFile `{Sitter, Ranging} (path : string) (base left right : option bytes)
    (lang : string) : res string (option bytes * list Conflict) :=
  match base with
  | None => mret (mergeCreated path left right)
  | Some b =>
    match left, right with
    | None, None => mret (None, [])
    | None, Some r =>
      if bool_decide (b = r) then mret (None, [])
      else mret (None, [file_conflict ConflictDeleteVsModify path
                          "File deleted on left but modified on right"])
    | Some l, None =>
      if bool_decide (b = l) then mret (None, [])
      else mret (None, [file_conflict ConflictModifyVsDelete path
                          "File modified on left but deleted on right"])
    | Some l, Some r =>
      if bool_decide (l = r) then mret (Some l, [])
      else if bool_decide (b = l) then mret (Some r, [])
      else if bool_decide (b = r) then mret (Some l, [])
      else mergeUnits path b l r lang
    end
  end.

(** [m[p]] for a [map[string][]byte]: a missing key reads as nil. *)
Definition content_at (m : gmap string (option bytes)) (p : string) : option bytes := mjoin (m !! p).

(** One round of the loop over the paths. *)
Definition merge_path `{Sitter, Ranging} (base left right : gmap string (option bytes))
    (lang : string) (result : MergeResult) (path : string) : res string MergeResult :=
  '(merged, conflicts) ← map_err (λ e, "merging " ++ path ++ ": " ++ e)
    (mergeFile path (content_at base path) (content_at left path) (content_at right path) lang);
  let result := match conflicts with
                | [] => result
                | _ => mk_MergeResult false (mr_Files result)
                         (mr_Conflicts result ++ conflicts)%list (mr_FilesModified result)
                end in
  mret match merged with
       | Some c => mk_MergeResult (mr_Success result) (<[path := c]> (mr_Files result))
                     (mr_Conflicts result) (mr_FilesModified result + 1)
       | None => result
       end.

Definition MergeFiles `{Sitter, Ranging} (base left right : gmap string (option bytes))
    (lang : string) : res string MergeResult :=
  foldM (merge_path base left right lang) (mk_MergeResult true ∅ [] 0)
    (range_paths (elements (dom base ∪ dom left ∪ dom right))).

Definition Merge3Way `{Sitter, Ranging} (base left right : option bytes) (lang : string) :
    res string MergeResult :=
  MergeFiles {["file" := base]} {["file" := left]} {["file" := right]} lang.

(** ** The reference: the classic three-way merge

    [three_way b l r] takes the side that changed; it has no answer when both
    changed to different values. *)
Definition three_way {A} `{EqDecision A} (b l r : A) : option A :=
  if decide (l = r) then Some l
  else if decide (b = l) then Some r
  else if decide (b = r) then Some l
  else None.

(** A merge without an unambiguous side: the two changed sides differ. *)
Lemma three_way_None {A} `{EqDecision A} (b l r : A) :
  three_way b l r = None ↔ l ≠ r ∧ b ≠ l ∧ b ≠ r.
Proof.
  unfold three_way. destruct (decide (l = r)), (decide (b = l)), (decide (b = r)); naive_solver.
Qed.

Lemma three_way_Some {A} `{EqDecision A} (b l r x : A) :
  three_way b l r = Some x ↔ (l = r ∧ x = l) ∨ (b = l ∧ x = r) ∨ (b = r ∧ x = l).
Proof.
  unfold three_way. destruct (decide (l = r)), (decide (b = l)), (decide (b = r)); naive_solver.
Qed.

(** What the merge compares a unit by. *)
Definition hash (u : option Unit) : option bytes := mu_BodyHash <$> u.

Lemma EquivalentUnits_hash a b : EquivalentUnits a b = bool_decide (hash a = hash b).
Proof.
  unfold hash. destruct a as [a|], b as [b|]; cbn [EquivalentUnits fmap option_fmap option_map].
  - apply bool_decide_ext. split; congruence.
  - by rewrite bool_decide_eq_false_2.
  - by rewrite bool_decide_eq_false_2.
  - by rewrite bool_decide_eq_true_2.
Qed.

Definition is_function (b : Unit) : Prop := mu_Kind b = UnitFunction ∨ mu_Kind b = UnitMethod.
#[export] Instance is_function_dec b : Decision (is_function b).
Proof. unfold is_function. apply _. Defined.

(** Exactly one side changed the signature of a function, and [m] is that
    side's version. *)
Definition one_sided_signature (b l r m : option Unit) : Prop :=
  ∃ bu lu ru, b = Some bu ∧ l = Some lu ∧ r = Some ru ∧ is_function bu ∧
    ((mu_Signature lu ≠ mu_Signature bu ∧ mu_Signature ru = mu_Signature bu ∧ m = l) ∨
     (mu_Signature ru ≠ mu_Signature bu ∧ mu_Signature lu = mu_Signature bu ∧ m = r)).

(** Both sides changed the signature of a function, differently. *)
Definition signatures_diverged (b l r : Unit) : bool :=
  bool_decide (mu_Kind b = UnitFunction ∨ mu_Kind b = UnitMethod) &&
  negb (mu_Signature l =? mu_Signature b) && negb (mu_Signature r =? mu_Signature b) &&
  negb (mu_Signature l =? mu_Signature r).

(** The kind of the conflict about a unit. *)
Definition conflict_kind (b l r : option Unit) : ConflictKind :=
  match b, l, r with
  | None, _, _ => ConflictConcurrentCreate
  | Some _, None, _ => ConflictDeleteVsModify
  | Some _, _, None => ConflictModifyVsDelete
  | Some b, Some l, Some r =>
    if signatures_diverged b l r then ConflictAPISignatureDiverged
    else match mu_Kind b with
         | UnitConst | UnitVariable => ConflictConstValueConflict
         | UnitImport => ConflictImportAlias
         | _ => ConflictBodyDiverged
         end
  end.

Definition first_of (b l : option Unit) : option Unit :=
  match b with Some _ => b | None => l end.

(** The outcome of merging a unit in terms of the classic merge of digests. *)
Definition unit_outcome (b l r : option Unit) (o : outcome) : Prop :=
  let '(m, c) := o in
  match c with
  | None =>
    (m = b ∨ m = l ∨ m = r) ∧
    (three_way (hash b) (hash l) (hash r) = Some (hash m) ∨
     three_way (hash b) (hash l) (hash r) = None ∧ one_sided_signature b l r m)
  | Some c =>
    m = None ∧
    (three_way (hash b) (hash l) (hash r) = None ∧ (∀ m, ¬ one_sided_signature b l r m) ∨
     ∃ bu lu ru, b = Some bu ∧ l = Some lu ∧ r = Some ru ∧ signatures_diverged bu lu ru = true) ∧
    cf_Kind c = conflict_kind b l r ∧ Some (cf_UnitKey c) = mu_Key <$> first_of b l ∧
    cf_Base c = b ∧ cf_Left c = l ∧ cf_Right c = r
  end.

(** Two changed versions of a unit: the classic merge answers exactly if the
    digests agree. *)
Lemma both_changed b l r :
  hash b ≠ hash l → hash b ≠ hash r →
  three_way (hash b) (hash l) (hash r) = if decide (hash l = hash r) then Some (hash l) else None.
Proof.
  intros Hl Hr. unfold three_way. destruct (decide (hash l = hash r)); [done|].
  by rewrite !decide_False.
Qed.

Lemma hash_Some u v : hash (Some u) = hash (Some v) ↔ mu_BodyHash u = mu_BodyHash v.
Proof. unfold hash. simpl. split; congruence. Qed.

(** The merges of classes, variables and imports are alike. *)
Lemma changed_by_hash b l r kind what suffix :
  hash (Some b) ≠ hash (Some l) → hash (Some b) ≠ hash (Some r) →
  ¬ is_function b → kind = conflict_kind (Some b) (Some l) (Some r) →
  unit_outcome (Some b) (Some l) (Some r)
    (if negb (bool_decide (mu_BodyHash l = mu_BodyHash r)) then diverged kind what suffix b l r
     else (Some l, None)).
Proof.
  intros Hl Hr Hf Hk. unfold unit_outcome. rewrite both_changed by done.
  assert (∀ m, ¬ one_sided_signature (Some b) (Some l) (Some r) m) as Hno.
  { intros m (bu & ? & ? & [= <-] & _ & _ & Hf' & _). by apply Hf. }
  case_bool_decide as E; cbn [negb diverged cf_Kind cf_Base cf_Left cf_Right].
  - rewrite decide_True by (by apply hash_Some). auto.
  - rewrite decide_False by (by rewrite -> hash_Some). repeat split; auto.
Qed.

Lemma signatures_diverged_iff b l r : signatures_diverged b l r = true ↔
  is_function b ∧ mu_Signature l ≠ mu_Signature b ∧ mu_Signature r ≠ mu_Signature b ∧
  mu_Signature l ≠ mu_Signature r.
Proof.
  unfold signatures_diverged, is_function.
  rewrite !andb_true_iff, !negb_true_iff, bool_decide_eq_true, !String.eqb_neq. tauto.
Qed.

Lemma body_conflict_kind b l r :
  is_function b → signatures_diverged b l r = false →
  conflict_kind (Some b) (Some l) (Some r) = ConflictBodyDiverged.
Proof. intros [E|E] Hs; unfold conflict_kind; by rewrite Hs, E. Qed.

(** Two changed versions of a function. *)
Lemma mergeFunctionUnit_spec b l r :
  is_function b → hash (Some b) ≠ hash (Some l) → hash (Some b) ≠ hash (Some r) →
  unit_outcome (Some b) (Some l) (Some r) (mergeFunctionUnit b l r).
Proof.
  intros Hf Hl Hr. pose proof (signatures_diverged_iff b l r) as Hd.
  assert (signatures_diverged b l r = false → (∀ m, ¬ one_sided_signature (Some b) (Some l) (Some r) m) →
    unit_outcome (Some b) (Some l) (Some r)
      (if negb (bool_decide (mu_BodyHash l = mu_BodyHash r))
       then diverged ConflictBodyDiverged "Function" " body modified on both sides" b l r
       else (Some l, None))) as Hbody.
  { intros Hs Hno. unfold unit_outcome. rewrite both_changed by done. case_bool_decide as E; cbn [negb diverged cf_Kind cf_Base cf_Left cf_Right].
    - rewrite decide_True by (by apply hash_Some). auto.
    - rewrite decide_False by (by rewrite -> hash_Some).
      repeat split; auto. by rewrite <-(body_conflict_kind b l r). }
  assert (∀ m, (m = Some l ∧ mu_Signature r = mu_Signature b ∨ m = Some r ∧ mu_Signature l = mu_Signature b) →
    (m = Some l → mu_Signature l ≠ mu_Signature b) → (m = Some r → mu_Signature r ≠ mu_Signature b) →
    unit_outcome (Some b) (Some l) (Some r) (m, None)) as Hside.
  { intros m Hm H1 H2. unfold unit_outcome. rewrite both_changed by done.
    split; [naive_solver|].
    destruct (decide (hash (Some l) = hash (Some r))) as [E|E].
    - left. destruct Hm as [[-> _]|[-> _]]; by rewrite ?E.
    - right. split; [done|]. exists b, l, r. repeat split; [done|]. naive_solver. }
  unfold mergeFunctionUnit.
  destruct (String.eqb_spec (mu_Signature l) (mu_Signature b)) as [El|El],
    (String.eqb_spec (mu_Signature r) (mu_Signature b)) as [Er|Er]; cbn [negb andb].
  - apply Hbody; [apply not_true_is_false; naive_solver|].
    intros m (? & ? & ? & [= <-] & [= <-] & [= <-] & _ & [(? & _)|(? & _)]); done.
  - apply Hside; [auto|congruence|done].
  - apply Hside; [auto|done|congruence].
  - destruct (String.eqb_spec (mu_Signature l) (mu_Signature r)) as [Elr|Elr]; cbn [negb].
    + apply Hbody; [apply not_true_is_false; naive_solver|].
      intros m (? & ? & ? & [= <-] & [= <-] & [= <-] & _ & [(_ & ? & _)|(_ & ? & _)]); done.
    + assert (signatures_diverged b l r = true) as Ht by (by apply Hd).
      unfold unit_outcome. rewrite both_changed by done. repeat split; [|by unfold conflict_kind; rewrite Ht].
      right. by exists b, l, r.
Qed.

Lemma mergeChangedUnit_spec b l r :
  hash (Some b) ≠ hash (Some l) → hash (Some b) ≠ hash (Some r) →
  unit_outcome (Some b) (Some l) (Some r) (mergeChangedUnit b l r).
Proof.
  intros Hl Hr.
  assert (¬ is_function b → ∀ k, match mu_Kind b with
    | UnitConst | UnitVariable => ConflictConstValueConflict
    | UnitImport => ConflictImportAlias
    | _ => ConflictBodyDiverged
    end = k → k = conflict_kind (Some b) (Some l) (Some r)) as Hk.
  { intros Hf k <-. unfold conflict_kind.
    assert (signatures_diverged b l r = false) as ->; [|done].
    apply not_true_is_false. rewrite signatures_diverged_iff. tauto. }
  unfold mergeChangedUnit.
  destruct (decide (is_function b)) as [Hf|Hf].
  { destruct Hf as [E|E]; rewrite E; apply mergeFunctionUnit_spec; first [done|by left|by right]. }
  specialize (Hk Hf). rewrite ?EquivalentUnits_hash.
  assert (bool_decide (hash (Some l) = hash (Some r)) = bool_decide (mu_BodyHash l = mu_BodyHash r))
    as -> by (apply bool_decide_ext, hash_Some).
  destruct (mu_Kind b) eqn:E; try (by apply changed_by_hash; [..|apply Hk]);
    exfalso; apply Hf; first [by left | by right].
Qed.

(** Merging one unit is the classic three-way merge of the digests of its
    versions, and answers with one of the versions.  The exceptions are
    functions and methods: if exactly one side changed the signature, the
    version of that side is taken and an edit of the body on the other side is
    dropped without a conflict; if both changed it differently there is a
    conflict although the digests may agree.  Every other pair of different
    edits is a conflict that names the three versions and has the kind of the
    table [conflict_kind]. *)
Theorem mergeUnit_spec b l r : unit_outcome b l r (mergeUnit b l r).
Proof.
  assert (∀ m, three_way (hash b) (hash l) (hash r) = Some (hash m) → (m = b ∨ m = l ∨ m = r) →
    unit_outcome b l r (m, None)) as Htake by (intros m ? ?; split; auto).
  assert (∀ c, three_way (hash b) (hash l) (hash r) = None → b = None ∨ l = None ∨ r = None →
    cf_Kind c = conflict_kind b l r → Some (cf_UnitKey c) = mu_Key <$> first_of b l → cf_Base c = b → cf_Left c = l → cf_Right c = r →
    unit_outcome b l r (None, Some c)) as Hconf.
  { intros c H Hn ? ? ? ? ?. split; [done|]. split; [|done]. left. split; [done|].
    intros m (? & ? & ? & -> & -> & -> & _). naive_solver. }
  unfold mergeUnit, Changed, mergeCreatedUnit. rewrite !EquivalentUnits_hash.
  destruct (bool_decide (hash b = hash l) && bool_decide (hash b = hash r)) eqn:Hall.
  { bool_to_prop. apply Htake; [|auto]. apply three_way_Some. naive_solver congruence. }
  apply andb_false_iff in Hall. rewrite !bool_decide_eq_false in Hall.
  destruct b as [b|], l as [l|], r as [r|]; rewrite ?EquivalentUnits_hash;
    try (apply Htake; [apply three_way_Some; naive_solver|auto]; fail).
  - destruct (decide (hash (Some b) = hash (Some r))) as [E|E];
      [rewrite (bool_decide_eq_true_2 (hash (Some b) = _)) by done;
       rewrite (bool_decide_eq_false_2 (hash (Some l) = _)) by (destruct Hall; congruence);
       apply Htake; [apply three_way_Some; auto|auto]|].
    rewrite (bool_decide_eq_false_2 (hash (Some b) = hash (Some r))) by done.
    destruct (decide (hash (Some b) = hash (Some l))) as [E'|E'];
      [rewrite (bool_decide_eq_true_2 (hash (Some b) = _)) by done;
       rewrite (bool_decide_eq_false_2 (hash (Some r) = _)) by congruence;
       apply Htake; [apply three_way_Some; auto|auto]|].
    rewrite (bool_decide_eq_false_2 (hash (Some b) = hash (Some l))) by done.
    by apply mergeChangedUnit_spec.
  - case_bool_decide as E.
    + apply Htake; [apply three_way_Some; auto|auto].
    + apply Hconf; auto. by apply three_way_None.
  - case_bool_decide as E.
    + apply Htake; [apply three_way_Some; auto|auto].
    + apply Hconf; auto. apply three_way_None. repeat split; [done|done|congruence].
  - case_bool_decide as E.
    + apply Htake; [apply three_way_Some; auto|auto].
    + apply Hconf; auto. apply three_way_None. repeat split; done.
Qed.

(** ** Merging the units of a file *)

Lemma omap_filter {A B} (f : A → option B) (l : list A) :
  omap f (filter (λ x, is_Some (f x)) l) = omap f l.
Proof.
  induction l as [|x l IH]; [done|]. rewrite filter_cons.
  destruct (f x) as [y|] eqn:E.
  - rewrite decide_True by done. simpl. rewrite E. f_equal. exact IH.
  - rewrite decide_False by (by intros [? [=]]). simpl. rewrite E. exact IH.
Qed.

(** The values of a map, listed through any order of its keys. *)
Lemma omap_dom_perm {A} (m : gmap string A) (l k : list string) :
  NoDup l → (∀ x, x ∈ dom m → x ∈ l) → k ≡ₚ elements (dom m) →
  omap (λ x, m !! x) k ≡ₚ omap (λ x, m !! x) l.
Proof.
  intros Hl Hsub Hk. rewrite <-(omap_filter _ l). apply omap_Permutation.
  rewrite Hk. apply NoDup_Permutation; [apply NoDup_elements|by apply NoDup_filter|].
  intros x. rewrite elem_of_elements, list_elem_of_filter, elem_of_dom. split; [|tauto].
  intros Hx. split; [done|]. by apply Hsub, elem_of_dom.
Qed.

Section Fold.
Context (base left right : FileUnits).

Definition unit_result (key : string) : outcome :=
  mergeUnit (fu_Units base !! key) (fu_Units left !! key) (fu_Units right !! key).

Lemma merge_keys_spec keys m cs :
  NoDup keys → (∀ k, k ∈ keys → m !! k = None) →
  ∃ m', foldl (merge_key base left right) (m, cs) keys =
    (m', (cs ++ omap (λ k, snd (unit_result k)) keys)%list) ∧
    ∀ k, m' !! k = if decide (k ∈ keys) then fst (unit_result k) else m !! k.
Proof.
  revert m cs. induction keys as [|k keys IH]; intros m cs Hnd Hm; cbn [foldl merge_key].
  { exists m. simpl omap. rewrite app_nil_r. split; [done|]. intros k. by rewrite decide_False by set_solver. }
  apply NoDup_cons in Hnd as [Hk Hnd].
  fold (unit_result k). destruct (unit_result k) as [u c] eqn:E.
  destruct (IH (match u with Some u => <[k := u]> m | None => m end)
    (match c with Some c => (cs ++ [c])%list | None => cs end) Hnd) as (m' & Hfold & Hm').
  { intros j Hj. destruct u; [rewrite lookup_insert_ne by (intros ->; done)|]; apply Hm; set_solver. }
  exists m'. split.
  - rewrite Hfold. cbn [omap list_omap]. rewrite E. destruct c; simpl; [by rewrite <-app_assoc|done].
  - intros j. rewrite Hm'. destruct (decide (j ∈ keys)) as [Hj|Hj].
    + by rewrite decide_True by set_solver.
    + destruct (decide (j = k)) as [->|Hjk].
      * rewrite decide_True by set_solver. rewrite E. simpl.
        destruct u; [by rewrite lookup_insert_eq|apply Hm; set_solver].
      * rewrite decide_False by set_solver. destruct u; [by rewrite lookup_insert_ne|done].
Qed.
End Fold.

#[export] Instance before_total : Total before.
Proof.
  intros u v. unfold before, pos_less.
  destruct (r_Start (mu_Range u)) as [ur uc], (r_Start (mu_Range v)) as [vr vc].
  rewrite !orb_false_iff, !andb_false_iff, !Z.ltb_ge, !Z.eqb_neq. lia.
Qed.

(** What a merge by units is, given the units of the three versions. *)
Definition units_outcome (base left right : FileUnits) (r : option bytes * list Conflict) : Prop :=
  let out := unit_result base left right in
  let keys := all_keys base left right in
  match r with
  | (None, conflicts) => conflicts ≠ [] ∧ conflicts ≡ₚ omap (λ k, snd (out k)) keys
  | (Some content, conflicts) =>
    conflicts = [] ∧ (∀ k, snd (out k) = None) ∧
    ∃ units, content = render units ∧ Sorted before units ∧
      units ≡ₚ omap (λ k, fst (out k)) keys
  end.

Lemma unit_result_none base left right k :
  k ∉ all_keys base left right → unit_result base left right k = (None, None).
Proof.
  unfold all_keys, unit_result. rewrite elem_of_elements, !not_elem_of_union, !not_elem_of_dom.
  by intros [[-> ->] ->].
Qed.

Lemma mergeUnits_outcome `{Sitter, RangingLaws} path b l r lang bu lu ru :
  ExtractUnits path b lang = Ok bu → ExtractUnits path l lang = Ok lu →
  ExtractUnits path r lang = Ok ru →
  ∃ res, mergeUnits path b l r lang = Ok res ∧ units_outcome bu lu ru res.
Proof.
  intros Hb Hl Hr. unfold mergeUnits. rewrite Hb, Hl, Hr. res_simpl.
  set (keys := all_keys bu lu ru). set (out := unit_result bu lu ru).
  pose proof (range_keys_perm path keys) as Hperm.
  assert (NoDup keys) as Hnd by apply NoDup_elements.
  destruct (merge_keys_spec bu lu ru (range_keys path keys) ∅ []) as (m & Hfold & Hm).
  { by rewrite Hperm. } { intros k _. apply lookup_empty. }
  rewrite Hfold. simpl app. fold out in Hfold, Hm |- *.
  assert (∀ k, m !! k = fst (out k)) as Hm'.
  { intros k. rewrite Hm, lookup_empty. destruct (decide (k ∈ range_keys path keys)) as [Hk|Hk]; [done|].
    rewrite Hperm in Hk. unfold out. by rewrite unit_result_none. }
  assert (omap (λ k, snd (out k)) (range_keys path keys) ≡ₚ omap (λ k, snd (out k)) keys)
    as Hconf by (by apply omap_Permutation).
  destruct (omap (λ k, snd (out k)) (range_keys path keys)) as [|c cs] eqn:Hcs.
  - eexists. split; [done|]. split; [done|].
    apply Permutation_nil_l in Hconf.
    assert (∀ k, snd (out k) = None) as Hnone.
    { intros k. destruct (decide (k ∈ keys)) as [Hk|Hk].
      - apply eq_None_not_Some. intros [c Hc].
        assert (c ∈ omap (λ k, snd (out k)) keys) as Hin by (apply list_elem_of_omap; eauto).
        rewrite <-Hconf in Hin. by apply not_elem_of_nil in Hin.
      - unfold out. by rewrite unit_result_none. }
    split; [exact Hnone|]. unfold reconstructFile. eexists. split; [done|].
    split; [apply Sorted_merge_sort, _|]. rewrite merge_sort_Permutation.
    rewrite (list_omap_ext _ (λ k, m !! k) keys keys) by (by apply Forall_Forall2_diag, Forall_forall).
    apply omap_dom_perm; [done| |apply range_units_perm].
    intros k. rewrite elem_of_dom, Hm'. intros Hs. destruct (decide (k ∈ keys)) as [?|Hk]; [done|].
    unfold out in Hs. rewrite unit_result_none in Hs by done. by destruct Hs.
  - eexists. split; [done|]. split; [done|done].
Qed.

(** ** Merging files *)

Definition file_conflict_kind (b l r : option bytes) : ConflictKind :=
  match b, l with
  | None, _ => ConflictConcurrentCreate
  | Some _, None => ConflictDeleteVsModify
  | Some _, Some _ => ConflictModifyVsDelete
  end.

(** The outcome for one file: the classic merge of its three contents where
    that has an answer; else a merge by units if the file exists in all three
    versions; else one conflict about the file and no content. *)
Definition file_outcome `{Sitter} (path lang : string) (b l r content : option bytes)
    (conflicts : list Conflict) : Prop :=
  match three_way b l r with
  | Some x => content = x ∧ conflicts = []
  | None =>
    match b, l, r with
    | Some bc, Some lc, Some rc =>
      ∃ bu lu ru, ExtractUnits path bc lang = Ok bu ∧ ExtractUnits path lc lang = Ok lu ∧
        ExtractUnits path rc lang = Ok ru ∧ units_outcome bu lu ru (content, conflicts)
    | _, _, _ =>
      content = None ∧
      ∃ msg, conflicts = [file_conflict (file_conflict_kind b l r) path msg]
    end
  end.

Section Files.
Context `{Sitter, RangingLaws} (base left right : gmap string (option bytes)) (lang : string).
Context (parse_total : ∀ content, ParseCtx (Parse_grammar lang) content ≠ None).

Lemma ExtractUnits_total path content : ∃ fu, ExtractUnits path content lang = Ok fu.
Proof.
  unfold ExtractUnits. destruct (ParseCtx _ _) eqn:E; [eauto|].
  by apply parse_total in E.
Qed.

Lemma three_way_eq {A} `{EqDecision A} (b l r : A) : l = r → three_way b l r = Some l.
Proof. intros ->. unfold three_way. by rewrite decide_True. Qed.
Lemma three_way_left {A} `{EqDecision A} (b l r : A) : b = r → three_way b l r = Some l.
Proof. intros ->. apply three_way_Some. auto. Qed.
Lemma three_way_right {A} `{EqDecision A} (b l r : A) : b = l → three_way b l r = Some r.
Proof. intros ->. apply three_way_Some. auto. Qed.

Lemma mergeCreated_outcome path l r :
  let '(content, conflicts) := mergeCreated path l r in
  file_outcome path lang None l r content conflicts.
Proof.
  unfold mergeCreated, file_outcome. destruct l as [l|], r as [r|].
  - case_bool_decide as E; [rewrite three_way_eq by congruence; done|].
    rewrite (proj2 (three_way_None None (Some l) (Some r))) by (repeat split; congruence).
    eauto.
  - by rewrite three_way_left.
  - by rewrite three_way_right.
  - by rewrite three_way_eq.
Qed.

Lemma mergeFile_outcome path b l r :
  ∃ content conflicts, mergeFile path b l r lang = Ok (content, conflicts) ∧
    file_outcome path lang b l r content conflicts.
Proof.
  destruct b as [b|]; simpl.
  2:{ pose proof (mergeCreated_outcome path l r). destruct (mergeCreated path l r); eauto. }
  destruct l as [l|], r as [r|].
  - case_bool_decide; [do 2 eexists; split; [done|];
      unfold file_outcome; by rewrite three_way_eq by congruence|].
    case_bool_decide; [do 2 eexists; split; [done|];
      unfold file_outcome; by rewrite three_way_right by congruence|].
    case_bool_decide; [do 2 eexists; split; [done|];
      unfold file_outcome; by rewrite three_way_left by congruence|].
    destruct (ExtractUnits_total path b) as [bu Hb], (ExtractUnits_total path l) as [lu Hl],
      (ExtractUnits_total path r) as [ru Hr].
    destruct (mergeUnits_outcome path b l r lang bu lu ru Hb Hl Hr) as ([c cs] & Hm & Ho).
    exists c, cs. split; [done|]. unfold file_outcome.
    rewrite (proj2 (three_way_None _ _ _)) by (repeat split; congruence). by exists bu, lu, ru.
  - case_bool_decide; do 2 eexists; (split; [done|]); unfold file_outcome;
      [by rewrite three_way_right by congruence|].
    rewrite (proj2 (three_way_None _ _ _)) by (repeat split; congruence). eauto.
  - case_bool_decide; do 2 eexists; (split; [done|]); unfold file_outcome;
      [by rewrite three_way_left by congruence|].
    rewrite (proj2 (three_way_None _ _ _)) by (repeat split; congruence). eauto.
  - do 2 eexists. split; [done|]. unfold file_outcome. by rewrite three_way_eq.
Qed.

Definition file_result (path : string) : option bytes * list Conflict :=
  match mergeFile path (content_at base path) (content_at left path) (content_at right path) lang with
  | Ok r => r | _ => (None, []) end.

Lemma file_result_ok path :
  mergeFile path (content_at base path) (content_at left path) (content_at right path) lang
  = Ok (file_result path) ∧
  file_outcome path lang (content_at base path) (content_at left path) (content_at right path)
    (fst (file_result path)) (snd (file_result path)).
Proof.
  unfold file_result. destruct (mergeFile_outcome path (content_at base path)
    (content_at left path) (content_at right path)) as (c & cs & E & Ho). by rewrite E.
Qed.

(** A result in order. *)
Definition result_ok (r : MergeResult) : Prop :=
  (mr_Success r = true ↔ mr_Conflicts r = []) ∧
  mr_FilesModified r = Z.of_nat (size (mr_Files r)).

Lemma merge_paths_spec paths r :
  NoDup paths → result_ok r → (∀ p, p ∈ paths → mr_Files r !! p = None) →
  ∃ r', foldM (merge_path base left right lang) r paths = Ok r' ∧ result_ok r' ∧
    mr_Conflicts r' = (mr_Conflicts r ++ concat (map (λ p, snd (file_result p)) paths))%list ∧
    ∀ p, mr_Files r' !! p = if decide (p ∈ paths) then fst (file_result p) else mr_Files r !! p.
Proof.
  revert r. induction paths as [|p paths IH]; intros r Hnd Hr Hfresh.
  { exists r. split; [done|]. split; [done|]. split; [simpl; by rewrite app_nil_r|].
    intros p. by rewrite decide_False by set_solver. }
  apply NoDup_cons in Hnd as [Hp Hnd].
  destruct (file_result_ok p) as [Ep _]. destruct (file_result p) as [c cs] eqn:E.
  set (r1 := match cs with
             | [] => r
             | _ => mk_MergeResult false (mr_Files r) (mr_Conflicts r ++ cs)%list (mr_FilesModified r)
             end).
  set (r2 := match c with
             | Some c => mk_MergeResult (mr_Success r1) (<[p := c]> (mr_Files r1))
                           (mr_Conflicts r1) (mr_FilesModified r1 + 1)
             | None => r1
             end).
  assert (merge_path base left right lang r p = Ok r2) as Hstep
    by (unfold merge_path; by rewrite Ep).
  cbn [foldM]. rewrite Hstep. res_simpl.
  assert (result_ok r1 ∧ mr_Files r1 = mr_Files r ∧ mr_Conflicts r1 = (mr_Conflicts r ++ cs)%list)
    as (Hr1 & Hf1 & Hc1).
  { unfold r1. destruct cs as [|x cs]; [by rewrite app_nil_r|].
    split; [|done]. split; [|apply Hr]. simpl. split; [done|]. intros Hn. by apply app_nil in Hn as [_ ?]. }
  assert (result_ok r2 ∧ mr_Conflicts r2 = mr_Conflicts r1 ∧
    mr_Files r2 = match c with Some c => <[p := c]> (mr_Files r) | None => mr_Files r end) as (Hr2 & Hc2 & Hf2).
  { unfold r2. destruct c as [c|]; [|by rewrite Hf1]. simpl. rewrite Hf1. split; [|done].
    destruct Hr1 as [Hs1 Hn1]. split; [done|]. simpl. rewrite Hn1, Hf1.
    rewrite map_size_insert_None by (apply Hfresh; set_solver). lia. }
  destruct (IH r2 Hnd Hr2) as (r' & Hfold & Hok & Hconf & Hfiles).
  { intros q Hq. rewrite Hf2. destruct c; [rewrite lookup_insert_ne by (intros ->; done)|];
      apply Hfresh; set_solver. }
  exists r'. split; [done|]. split; [done|]. split.
  - rewrite Hconf, Hc2, Hc1. simpl. rewrite E. by rewrite <-app_assoc.
  - intros q. rewrite Hfiles, Hf2. destruct (decide (q ∈ paths)) as [Hq|Hq].
    + by rewrite decide_True by set_solver.
    + destruct (decide (q = p)) as [->|Hqp].
      * rewrite decide_True by set_solver. rewrite E.
        destruct c; [by rewrite lookup_insert_eq|apply Hfresh; set_solver].
      * rewrite decide_False by set_solver. destruct c; [by rewrite lookup_insert_ne|done].
Qed.
End Files.

(** C34: the merge of two descendants of a base.  It always ends with a result,
    whatever the order of the maps: successful exactly if there are no
    conflicts, with the number of merged files counted, the conflicts being
    those of the files.  File by file it is the classic three-way merge - a
    side that did not change a file never affects it, a deletion counts as a
    change - except that a file which all three versions have and both sides
    changed differently is merged by units: then either there are conflicts,
    one per unit that has one, and no content, or the content is that of the
    merged units, each once, in the order of their positions. *)
Theorem MergeFiles_spec `{Sitter, RangingLaws} base left right lang :
  (∀ content, ParseCtx (Parse_grammar lang) content ≠ None) →
  ∃ res conflicts_of,
    MergeFiles base left right lang = Ok res ∧
    (mr_Success res = true ↔ mr_Conflicts res = []) ∧
    mr_FilesModified res = Z.of_nat (size (mr_Files res)) ∧
    mr_Conflicts res ≡ₚ
      concat (map conflicts_of (elements (dom base ∪ dom left ∪ dom right))) ∧
    ∀ path, file_outcome path lang (content_at base path) (content_at left path)
      (content_at right path) (mr_Files res !! path) (conflicts_of path).
Proof.
  intros Htotal. set (paths := elements (dom base ∪ dom left ∪ dom right)).
  destruct (merge_paths_spec base left right lang Htotal (range_paths paths)
    (mk_MergeResult true ∅ [] 0)) as (res & Hres & [Hs Hn] & Hc & Hf).
  { rewrite range_paths_perm. apply NoDup_elements. } { done. }
  { intros p _. apply lookup_empty. }
  exists res, (λ p, snd (file_result base left right lang p)).
  split; [exact Hres|]. split; [done|]. split; [done|]. split.
  { rewrite Hc. simpl. rewrite (range_paths_perm paths) at 1. done. }
  intros path. rewrite Hf. cbn [mr_Files]. rewrite lookup_empty.
  destruct (file_result_ok base left right lang Htotal path) as [E Ho].
  destruct (decide (path ∈ range_paths paths)) as [Hp|Hp]; [done|].
  rewrite range_paths_perm in Hp. unfold paths in Hp.
  rewrite elem_of_elements, !not_elem_of_union, !not_elem_of_dom in Hp.
  destruct Hp as [[Hb Hl] Hr]. revert E Ho. unfold content_at.
  rewrite Hb, Hl, Hr. simpl. by intros [= <-] Ho.
Qed.

(** ** Files without units

    The default of [ExtractUnits] walks the tree as if it were JavaScript.
    The trees of the Go grammar are rooted at [source_file], of which the walk
    finds nothing. *)

Lemma go_no_units `{Sitter} path content n :
  ParseCtx GoGrammar content = Some n → n_Type n = "source_file" →
  ExtractUnits path content "go" = Ok (mk_FileUnits path "go" ∅ content).
Proof.
  intros Hn Ht. unfold ExtractUnits. change (Parse_grammar "go") with GoGrammar.
  rewrite Hn. destruct n as [ty tx s e cs]. simpl in Ht. subst ty.
  assert (walk_lang "go" path (mk_Node "source_file" tx s e cs) (mk_xstate [] ∅)
    = (mk_xstate [] ∅, ())) as -> by reflexivity.
  simpl. by rewrite fmap_empty.
Qed.

(** Merging a Go file that both sides changed loses it: the result is a
    success, and the content of the file is a single newline. *)
Theorem Merge3Way_go_lost `{Sitter, RangingLaws} b l r :
  (∀ content, ∃ n, ParseCtx GoGrammar content = Some n ∧ n_Type n = "source_file") →
  l ≠ r → b ≠ l → b ≠ r →
  Merge3Way (Some b) (Some l) (Some r) "go"
  = Ok (mk_MergeResult true {["file" := newline]} [] 1).
Proof.
  intros Hgo Hlr Hbl Hbr. unfold Merge3Way, MergeFiles.
  destruct (Hgo b) as (nb & Eb & Tb), (Hgo l) as (nl & El & Tl), (Hgo r) as (nr & Er & Tr).
  rewrite !dom_singleton_L, !union_idemp_L, elements_singleton.
  assert (range_paths ["file"] = ["file"]) as -> by apply Permutation_singleton_r, range_paths_perm.
  cbn [foldM].
  assert (merge_path {["file" := Some b]} {["file" := Some l]} {["file" := Some r]} "go"
    (mk_MergeResult true ∅ [] 0) "file" = Ok (mk_MergeResult true {["file" := newline]} [] 1))
    as ->; [|done].
  assert (∀ c : bytes, content_at {["file" := Some c]} "file" = Some c) as Hc
    by (intros c; unfold content_at; by rewrite lookup_singleton_eq).
  unfold merge_path. rewrite !Hc. unfold mergeFile.
  rewrite !bool_decide_eq_false_2 by done. unfold mergeUnits.
  rewrite (go_no_units _ _ _ Eb Tb), (go_no_units _ _ _ El Tl), (go_no_units _ _ _ Er Tr).
  res_simpl.
  assert (all_keys (mk_FileUnits "file" "go" ∅ b) (mk_FileUnits "file" "go" ∅ l)
    (mk_FileUnits "file" "go" ∅ r) = []) as ->.
  { unfold all_keys. simpl. by rewrite !dom_empty_L, !union_idemp_L, elements_empty. }
  assert (range_keys "file" [] = []) as -> by apply Permutation_nil_r, range_keys_perm.
  cbn [foldl]. unfold reconstructFile. rewrite dom_empty_L, elements_empty.
  assert (range_units "file" [] = []) as -> by apply Permutation_nil_r, range_units_perm.
  done.
Qed.

(** ** Concrete merges *)

Definition plain_ranging : Ranging :=
  {| range_paths l := l; range_keys _ l := l; range_units _ l := l |}.
Definition plain_ranging_laws : @RangingLaws plain_ranging.
Proof. by split. Defined.

(** The texts of a file and its tree: top-level nodes, one per line, each with
    what the file has after it. *)
Definition demo_source (decls : list (Node * string)) : bytes :=
  bytes_of (String.concat (string_of newline) (map (λ d, n_Content d.1 ++ d.2) decls)).
Definition demo_tree (decls : list (Node * string)) : Node :=
  mk_Node "program" (string_of (demo_source decls)) (0, 0)%Z (0, 0)%Z (map fst decls).
(** A parser that knows some files. *)
Definition demo_parser (files : list (list (Node * string))) : Sitter := {| ParseCtx _ content :=
  Some (match List.find (λ d, bool_decide (demo_source d = content)) files with
        | Some d => demo_tree d
        | None => mk_Node "program" (string_of content) (0, 0)%Z (0, 0)%Z []
        end) |}.

(** [const name = value;] *)
Definition js_const (row : Z) (name value : string) : Node :=
  node_at row "lexical_declaration" ("const " ++ name ++ " = " ++ value ++ ";")
    [leaf "const" "const";
     node_at row "variable_declarator" (name ++ " = " ++ value)
       [leaf "identifier" name; leaf "=" "="; leaf "number" value];
     leaf ";" ";"].
(** [class name { method() body }] *)
Definition js_class (row : Z) (name method body : string) : Node :=
  node_at row "class_declaration" ("class " ++ name ++ " { " ++ method ++ "() " ++ body ++ " }")
    [leaf "class" "class"; leaf "identifier" name;
     node_at row "class_body" ("{ " ++ method ++ "() " ++ body ++ " }")
       [leaf "{" "{";
        mk_Node "method_definition" (method ++ "() " ++ body) (row, 10)%Z (row, 30)%Z
          [leaf "property_identifier" method; leaf "formal_parameters" "()";
           leaf "statement_block" body];
        leaf "}" "}"]].

(** [const k], a function and a class; the left side edits the constant, the
    right side the function. *)
Definition demo_file (k fbody : string) : list (Node * string) :=
  [(js_const 0 "k" k, ""); (js_function 1 "f" "(a)" fbody, ""); (js_class 2 "A" "m" "{ return 0 }", "")].
Definition demo_files : Sitter := demo_parser
  [demo_file "1" "{ return a }"; demo_file "2" "{ return a }"; demo_file "1" "{ return -a }"].

(** The edits of both sides are in the result, but the constant has lost its
    keyword and the method is there twice, the second time outside of its
    class. *)
Example merged_file :
  @Merge3Way demo_files plain_ranging
    (Some (demo_source (demo_file "1" "{ return a }")))
    (Some (demo_source (demo_file "2" "{ return a }")))
    (Some (demo_source (demo_file "1" "{ return -a }"))) "js"
  = Ok (mk_MergeResult true
      {["file" := bytes_of (String.concat (string_of (newline ++ newline))
          ["k = 2"; "function f(a) { return -a }"; "class A { m() { return 0 } }"; "m() { return 0 }"])
          ++ newline]}%list [] 1).
Proof. vm_compute. reflexivity. Qed.

(** The left side adds a parameter, the right side fixes the body: the fix is
    dropped. *)
Definition demo_fn (params body : string) : list (Node * string) :=
  [(js_function 0 "f" params body, "")].
Definition demo_fns : Sitter := demo_parser
  [demo_fn "(a)" "{ return a }"; demo_fn "(a, b)" "{ return a }"; demo_fn "(a)" "{ return -a }"].
Example body_edit_dropped :
  @Merge3Way demo_fns plain_ranging
    (Some (demo_source (demo_fn "(a)" "{ return a }")))
    (Some (demo_source (demo_fn "(a, b)" "{ return a }")))
    (Some (demo_source (demo_fn "(a)" "{ return -a }"))) "js"
  = Ok (mk_MergeResult true {["file" := bytes_of "function f(a, b) { return a }" ++ newline]}%list [] 1).
Proof. vm_compute. reflexivity. Qed.

Lemma MergeFiles_spec_witness : ∃ res,
  @MergeFiles demo_fns plain_ranging
    {["a.js" := Some (demo_source (demo_fn "(a)" "{ return a }")); "b.js" := Some [Byte.x62]]}
    {["a.js" := Some (demo_source (demo_fn "(a, b)" "{ return a }")); "b.js" := Some [Byte.x62]]}
    {["a.js" := Some (demo_source (demo_fn "(a)" "{ return a }"))]} "js" = Ok res ∧
  mr_Files res !! "a.js" = Some (demo_source (demo_fn "(a, b)" "{ return a }")) ∧
  mr_Files res !! "b.js" = None.
Proof.
  destruct (@MergeFiles_spec demo_fns plain_ranging plain_ranging_laws
    {["a.js" := Some (demo_source (demo_fn "(a)" "{ return a }")); "b.js" := Some [Byte.x62]]}
    {["a.js" := Some (demo_source (demo_fn "(a, b)" "{ return a }")); "b.js" := Some [Byte.x62]]}
    {["a.js" := Some (demo_source (demo_fn "(a)" "{ return a }"))]} "js")
    as (res & cs & Hres & _ & _ & _ & Hf).
  { intros c. done. }
  exists res. split; [exact Hres|].
  split; [apply (Hf "a.js")|apply (Hf "b.js")].
Defined.

Definition demo_go : Sitter :=
  {| ParseCtx _ content := Some (mk_Node "source_file" (string_of content) (0, 0)%Z (0, 0)%Z []) |}.
Lemma Merge3Way_go_lost_witness :
  @Merge3Way demo_go plain_ranging (Some (bytes_of "package a")) (Some (bytes_of "package b"))
    (Some (bytes_of "package c")) "go"
  = Ok (mk_MergeResult true {["file" := newline]} [] 1).
Proof.
  apply (@Merge3Way_go_lost demo_go plain_ranging plain_ranging_laws).
  - intros c. eexists. split; reflexivity.
  - done.
  - done.
  - done.
Defined.
